(* ===== verification/_CoqProject ===== *)
-Q . S2P
Prelude.v
LinkedList.v
SoftTtl.v
Smoother.v
Collect.v
GoStrings.v
Logging.v
LogHelper.v
GoSort.v
Headers.v
App.v
HttpRange.v
RangeControl.v
IoReader.v
AsyncReader.v
Throttle.v
Blocks.v
Object.v
HitPath.v
Savepart.v
FillPath.v
Cycle.v
Verifier.v
CacheControl.v
Lfu.v
HashRing.v
CachingState.v
VaryControl.v
VaryProcessor.v
FillRange.v
Flight.v
MissPath.v
Refresh.v
Upstream.v
Entry.v
SharedKv.v
PathTrie.v
DirAware.v
IndexDb.v
DiskBucket.v
Nuts.v
Storage.v
SelectorImpl.v
StorageLife.v
Restart.v
Purge.v
SingleFlight.v
Proxy.v
Middlewares.v
Server.v
LocalApi.v
AccessLog.v
LogHandler.v
HeavyKeeper.v
Qs.v
Listing.v
Graph.v
Config.v
