(* ===== verification/Prelude.v ===== *)
(** * Tavern, an HTTP caching proxy: a verification development

    ** The program

    Tavern answers HTTP requests from a cache of chunks and fills the cache from an
    origin.  A request passes the server (server/server.go), a chain of middleware
    (server/middleware: recovery, rewrite, multirange, caching), and ends at the
    proxy (proxy/proxy.go), which sends it to a node that a selector chose.  The
    caching middleware selects a bucket of the storage (storage/), looks the object
    up in it through a chain of processors (state, prefetch, vary, revalidation, file
    change, range fill), and either serves the chunks on disk, asking upstream for
    the gaps, or proxies the request and cuts the body into chunks while the client
    reads it.  Readers of pkg/iobuf carry the bodies.  Purges, status pages and
    checksums are plugins; contrib/kratos starts and stops the whole.

    ** Files

    Foundations:
    - [Prelude]: byte strings, machine integers, results, tactics and hint databases
      shared by all files;
    - [GoStrings], [GoSort]: what the code uses of strings, strconv, path and sort;
    - [Headers]: http.Header and pkg/x/http/header.go;
    - [LinkedList]: contrib/container/list/list.go as operations on a heap of nodes;
    - [Logging]: loggers, filters and levels of contrib/log; [LogHelper]: the functions
      the program prints with, and the line of the standard logger.

    Ranges and readers:
    - [HttpRange], [RangeControl]: pkg/x/http/range.go, pkg/x/http/rangecontrol;
    - [IoReader]: the reader interface, its stream contract and the combinators of
      pkg/iobuf (limit, skip, parts, range, chunk writer);
    - [AsyncReader]: pkg/iobuf/async_reader.go, a goroutine and a reader over a pipe;
    - [Throttle]: the rate limiters of pkg/iobuf;
    - [Savepart]: the two readers that cut a body into blocks while it is read, the
      second one as the interleavings of two goroutines.

    Objects and the caching middleware (server/middleware/caching):
    - [Blocks]: chunk arithmetic of pkg/iobuf/blockfile.go and ioindexes;
    - [Object]: identifiers with SHA-1, metadata, marks, statuses, chunk paths
      (api/defined/v1/storage);
    - [HitPath]: serving a hit (internal.go, lazilyRespond, respondFromCache);
    - [FillPath]: saving a body (flushbufferSlice); [Cycle]: the hits on what it saved;
    - [CacheControl]: pkg/x/http/cachecontrol and ParseCacheTime;
    - [CachingState]: the state of one request and the bucket as an interface;
    - [VaryControl], [VaryProcessor]: Vary keys and the vary processor;
    - [FillRange]: the range-fill processor;
    - [Flight]: collapsed forwarding of chunks and objects, as steps;
    - [MissPath]: the processor chain, doProxy and the direct round trip; [Entry]: the
      whole entry of the middleware with the bypass and the object flight;
    - [SoftTtl], [Refresh]: the soft expiry in float64 and the background refresh;
    - [Upstream]: getUpstreamReader, which fetches the gaps of a cached object.

    Storage:
    - [Lfu]: pkg/algorithm/lru; [HashRing]: storage/selector/hashring; [SelectorImpl]: the
      selector the storage builds of it, with the answers of the buckets;
    - [SharedKv]: storage/sharedkv; [IndexDb]: storage/indexdb/pebble; [Nuts]: the
      registry of index databases and storage/indexdb/nutsdb;
    - [DiskBucket]: the disk, memory and empty bucket;
    - [Storage]: layers, selection, migration, purges; [StorageLife]: construction and
      closing of the storage with the defaults of its configuration; [Restart]: the
      construction of a bucket over the index that is there;
    - [PathTrie], [DirAware]: directory marks.

    Server, proxy and plugins:
    - [SingleFlight], [Proxy]: proxy/singleflight and proxy/proxy.go;
    - [Middlewares]: the chain, the registry, recovery, rewrite and multirange;
    - [Server]: the handler, building the chain, dispatch and stop;
    - [LocalApi]: the internal interface, its pages and the guard of the profiles;
    - [AccessLog]: the log line and the response recorder; [LogHandler]: the handlers
      that write it, request ids and rotation;
    - [Config]: contrib/config with its sources, and the logger main configures;
    - [App]: contrib/kratos/app.go, the plugin registry and the upgrade signal;
    - [Purge], [Verifier], [Qs], [Listing], [Collect]: the plugins, [Verifier] with the
      event bus, [Listing] for the lists of objects and hot keys, [Collect] for when the
      collectors of the status page run, and [Graph] for what they collect and show;
    - [HeavyKeeper], [Smoother]: pkg/algorithm/heavykeeper, pkg/metrics/smoother.go.

    ** How the code is modelled

    A struct is a record with the fields that are used, an enumeration or a sum of
    errors an inductive type, a function a definition of the same name where that is
    possible.  Integers are [Z]; every conversion and every operation that can leave
    its width writes the wrap-around out ([u32], [u64], [i64]).  A float64 is a
    [spec_float] of the Standard Library with the IEEE operations.  Errors are
    [result] or [option] values; a result [None] of a whole handler is a panic, of a
    reader it is fuel that has run out.  Code with goroutines, locks and channels is a
    step relation with one step per critical section or blocking operation, and its
    theorems hold of all reachable states ([Savepart], [Flight], [SingleFlight],
    [AsyncReader], [App], [Collect], [Graph], [Config], [Proxy]).

    Fuel.  Reads take fuel because combinators poll their source; the stream contract
    [delivers] of [IoReader] asks for enough of it and every theorem gives a bound
    from which on the result is the same.  [Discard] recurses through variants and
    each level removes an entry of the index, so the size of the index is enough; this
    is proved.  The searches of [HashRing] and of the parsers recurse on what they
    consume.

    Interfaces.  Clients are proved against classes and implementations discharge
    them: [Reader] with the contract [delivers]; [BitmapOps]; the bucket of
    [CachingState], which [DiskBucket] implements; the [Selector] of [Storage], which
    [SelectorImpl] implements; [PebbleOps], [NutsOps], [MetaCodec], [Limiter].

    Parameters, for code that is not part of the repository: pebble and nutsdb (ordered
    maps that can fail), the measurements of gopsutil, the file system and the decoders of
    the configuration, the bitmap, the codec of the metadata, regular expressions of the
    path trie, url.Parse, the parsing of dates, the node selector, the HTTP client, the
    token bucket, xxhash, the boundary of a multipart body and random draws.  Each has
    the hypotheses its documentation gives, and an instance that satisfies them is used
    by the witnesses.

    ** What is proved

    - Hits: a hit returns exactly the requested bytes with the right headers, also when
      gaps are filled from upstream; a gap is asked for with a range that covers it and
      nothing but a 206 is taken for it.
    - Misses: a body is saved exactly if the response may be stored, exactly its
      complete chunks are marked and hold the bytes of the object; a widened range is
      cut back to what the client asked for; revalidation serves or replaces the
      object; a background refresh starts only inside its window and renews the entry.
    - Together: an object that was fetched once is served for every range as a hit, and
      the origin is not asked again.
    - Variants are found by the requests that match them, and by no other as long as the
      values have no ampersand and the hashes differ.
    - Concurrency: every caller of a flight or a single flight is served, one call per
      key; asynchronous saving and reading lose and reorder nothing and leave no
      goroutine behind; servers are stopped once, and a process that was told to end
      comes to its end; one set of collectors runs.
    - Storage: the disk bucket implements the index the middleware relies on; a discard
      removes exactly the object with its variants, a hard purge leaves nothing and a soft
      one expires what has no variants, a migration keeps the bytes; the cache and
      the directory marks survive a restart; closing closes what has a layer; the LFU structure, the hash
      ring, the path trie and the linked list agree with their specifications, and the
      selector built of the ring has the laws the storage is proved from.
    - Server: what the client gets for every answer of the chain; a chain is the
      configured one; several ranges are answered by one multipart body of their bytes;
      all requests of an object flight get the answer of the one that leads, and
      its body while none of them goes away; the profiles are
      reached with the configured credentials only; one log line per request; a reload
      calls every observer once; the figures of the status page are not negative.
    - Decisions: whether and how long a response is cached, for every header.
    - Errors: what the purge handler answers on every path, and the deviations the
      theorems showed, each stated as a theorem or example beside the code it concerns.

    ** Not modelled

    The command line tools, which draw the status page on a terminal; listeners, file
    descriptors and the order in which main constructs the parts; the settings as
    records without code; the watcher of configuration files and the decoder, resolver
    and merge options, the decompression of the proxy and the table of locks, which
    nothing calls; the encoders (JSON, CBOR, YAML), which are libraries; writing and
    compressing log files; metrics; test helpers. *)

From Stdlib Require Export ZArith Lia Ascii String Bool.
From stdpp Require Export base tactics numbers option strings sets gmap sorting list.

#[export] Set Default Goal Selector "!".

(** ** Byte strings

    A Go [string] and a Go [[]byte] are finite sequences of bytes.  Both are
    modelled by lists of 8-bit [ascii] values; [bs] embeds literals. *)

Abbreviation byte := ascii (only parsing).
Abbreviation str := (list ascii) (only parsing).

Definition bs (s : string) : str := list_ascii_of_string s.
Arguments bs s%_string_scope.

(** ** Machine integers

    Integers are [Z]; a conversion to a width writes its wrap-around out. *)

Definition max_int64 : Z := 9223372036854775807.
Definition min_int64 : Z := -9223372036854775808.
Definition max_uint64 : Z := 18446744073709551615.
Definition max_uint32 : Z := 4294967295.

Definition u64 (z : Z) : Z := (z mod 18446744073709551616)%Z.
Definition u32 (z : Z) : Z := (z mod 4294967296)%Z.
Definition i64 (z : Z) : Z :=
  ((z + 9223372036854775808) mod 18446744073709551616 - 9223372036854775808)%Z.

Definition in_i64 (z : Z) : Prop := (min_int64 <= z <= max_int64)%Z.
Definition in_u64 (z : Z) : Prop := (0 <= z <= max_uint64)%Z.
Definition in_u32 (z : Z) : Prop := (0 <= z <= max_uint32)%Z.

(** ** Results

    A Go function that returns [(A, error)] and whose value is not used when
    the error is non-nil returns [result E A]. *)

Inductive result (E A : Type) : Type :=
| Ok (a : A)
| Err (e : E).
Arguments Ok {E A} a.
Arguments Err {E A} e.

Definition result_bind {E A B} (m : result E A) (f : A → result E B) : result E B :=
  match m with Ok a => f a | Err e => Err e end.

Declare Scope tavern_scope.
Delimit Scope tavern_scope with tavern.
Notation "'let?' x ':=' m 'in' k" := (result_bind m (λ x, k))
  (at level 10, x pattern, m at level 100, k at level 200,
   format "'[v' 'let?'  x  ':='  m  'in' '/' k ']'") : tavern_scope.

(** ** Automation *)

Create HintDb tavern.
Create HintDb tavern_arith.
Create Rewrite HintDb tavern_arith.

(** Turn boolean comparisons of the code into propositions, in the goal's
    hypotheses and in the goal. *)
Ltac zbool :=
  repeat match goal with
  | H : _ && _ = true |- _ => apply andb_true_iff in H; destruct H
  | H : _ || _ = false |- _ => apply orb_false_iff in H; destruct H
  | H : _ || _ = true |- _ => apply orb_true_iff in H
  | H : _ && _ = false |- _ => apply andb_false_iff in H
  | H : negb _ = true |- _ => apply negb_true_iff in H
  | H : negb _ = false |- _ => apply negb_false_iff in H
  | H : (_ <? _)%Z = true |- _ => apply Z.ltb_lt in H
  | H : (_ <? _)%Z = false |- _ => apply Z.ltb_ge in H
  | H : (_ <=? _)%Z = true |- _ => apply Z.leb_le in H
  | H : (_ <=? _)%Z = false |- _ => apply Z.leb_gt in H
  | H : (_ =? _)%Z = true |- _ => apply Z.eqb_eq in H
  | H : (_ =? _)%Z = false |- _ => apply Z.eqb_neq in H
  | H : (_ >? _)%Z = true |- _ => rewrite Z.gtb_ltb in H; apply Z.ltb_lt in H
  | H : (_ >? _)%Z = false |- _ => rewrite Z.gtb_ltb in H; apply Z.ltb_ge in H
  | H : (_ >=? _)%Z = true |- _ => rewrite Z.geb_leb in H; apply Z.leb_le in H
  | H : (_ >=? _)%Z = false |- _ => rewrite Z.geb_leb in H; apply Z.leb_gt in H
  | H : bool_decide _ = true |- _ => apply bool_decide_eq_true_1 in H
  | H : bool_decide _ = false |- _ => apply bool_decide_eq_false_1 in H
  end.

(** Split on the boolean conditions of the goal, one [if] at a time. *)
Ltac case_if :=
  match goal with
  | |- context [if ?b then _ else _] =>
      lazymatch type of b with bool => idtac end;
      let E := fresh "Hb" in destruct b eqn:E; zbool
  | H : context [if ?b then _ else _] |- _ =>
      lazymatch type of b with bool => idtac end;
      let E := fresh "Hb" in destruct b eqn:E; zbool
  end.

Ltac unfold_ints :=
  unfold in_i64, in_u64, in_u32, max_int64, min_int64, max_uint64, max_uint32 in *.

(** ** Integer lemmas *)

Open Scope Z_scope.

Lemma i64_id z : in_i64 z → i64 z = z.
Proof.
  unfold_ints; unfold i64; intros ?.
  rewrite Z.mod_small; lia.
Qed.

Lemma u64_id z : in_u64 z → u64 z = z.
Proof. unfold_ints; unfold u64; intros ?. apply Z.mod_small; lia. Qed.

Lemma u32_id z : in_u32 z → u32 z = z.
Proof. unfold_ints; unfold u32; intros ?. apply Z.mod_small; lia. Qed.

Lemma lor_shift_add c r n : 0 <= n → 0 <= r < 2 ^ n → Z.lor (Z.shiftl c n) r = c * 2 ^ n + r.
Proof.
  intros Hn Hr. rewrite <-Z.shiftl_mul_pow2 by done.
  assert (Z.land (Z.shiftl c n) r = 0) as Hl.
  { apply Z.bits_inj'. intros i Hi. rewrite Z.land_spec, Z.shiftl_spec, Z.bits_0 by done.
    destruct (decide (i < n)).
    - by rewrite (Z.testbit_neg_r c) by lia.
    - rewrite <-(Z.mod_small r (2 ^ n)), Z.mod_pow2_bits_high, andb_false_r by lia. done. }
  by rewrite <-Z.lxor_lor, Z.add_nocarry_lxor.
Qed.

Lemma i64_in z : in_i64 (i64 z).
Proof.
  unfold_ints; unfold i64.
  pose proof (Z.mod_pos_bound (z + 9223372036854775808) 18446744073709551616).
  lia.
Qed.

(** A wrap-around inside a difference does not matter. *)
Lemma i64_sub z w : i64 (i64 z - w) = i64 (z - w).
Proof.
  unfold i64. f_equal. replace (z - w + 9223372036854775808) with (z + 9223372036854775808 - w) by lia.
  rewrite <-(Zminus_mod_idemp_l (z + 9223372036854775808) w). f_equal. lia.
Qed.

Lemma u64_in z : in_u64 (u64 z).
Proof.
  unfold_ints; unfold u64.
  pose proof (Z.mod_pos_bound z 18446744073709551616). lia.
Qed.

Lemma u32_in z : in_u32 (u32 z).
Proof.
  unfold_ints; unfold u32.
  pose proof (Z.mod_pos_bound z 4294967296). lia.
Qed.

#[export] Hint Resolve i64_in u64_in u32_in : tavern_arith.
#[export] Hint Rewrite i64_id u64_id u32_id using (unfold_ints; lia) : tavern_arith.

(** Drop the wrap-arounds that cannot happen under the hypotheses. *)
Ltac unwrap := autorewrite with tavern_arith in *.

(** ** List lemmas *)

Lemma take_drop_slice {A} (l : list A) i n :
  take n (drop i l) = drop i (take (i + n) l).
Proof. rewrite take_drop_commute. by rewrite Nat.add_comm. Qed.

Lemma drop_app_exact {A} (l k : list A) n : n = length l → drop n (l ++ k) = k.
Proof. intros ->. by rewrite drop_app_length. Qed.

Lemma take_app_exact {A} (l k : list A) n : n = length l → take n (l ++ k) = l.
Proof. intros ->. by rewrite take_app_length. Qed.

Lemma drop_S_app {A} (x : A) (l k : list A) : drop (S (length l)) (l ++ x :: k) = k.
Proof. induction l; simpl; [by rewrite drop_0|done]. Qed.

(** [slice l lo hi] is [l[lo:hi]] with positions in [Z]. *)
Definition slice {A} (l : list A) (lo hi : Z) : list A :=
  take (Z.to_nat (hi - lo)) (drop (Z.to_nat lo) l).

Lemma slice_length {A} (l : list A) lo hi :
  0 <= lo <= hi → hi <= Z.of_nat (length l) → Z.of_nat (length (slice l lo hi)) = hi - lo.
Proof. intros. unfold slice. rewrite length_take, length_drop. lia. Qed.

Lemma slice_drop {A} (l : list A) lo hi k :
  0 <= lo → 0 <= k → drop (Z.to_nat k) (slice l lo hi) = slice l (lo + k) hi.
Proof.
  intros. unfold slice. rewrite (Z2Nat.inj_add lo k) by lia. rewrite <-drop_drop.
  destruct (decide (k <= hi - lo)).
  - rewrite (take_drop_commute (drop _ _)). do 2 f_equal. lia.
  - rewrite (drop_ge (take _ _)); [|rewrite length_take; lia].
    replace (Z.to_nat (hi - (lo + k))) with 0%nat by lia. done.
Qed.

Lemma slice_take {A} (l : list A) lo hi k :
  0 <= k <= hi - lo → take (Z.to_nat k) (slice l lo hi) = slice l lo (lo + k).
Proof. intros. unfold slice. rewrite take_take. f_equal. lia. Qed.

Lemma slice_app {A} (l : list A) lo mid hi :
  0 <= lo <= mid → mid <= hi → slice l lo mid ++ slice l mid hi = slice l lo hi.
Proof.
  intros. rewrite <-(take_drop (Z.to_nat (mid - lo)) (slice l lo hi)).
  rewrite slice_take, slice_drop by lia. by replace (lo + (mid - lo)) with mid by lia.
Qed.

Lemma slice_slice {A} (l : list A) lo hi i j :
  0 <= lo → 0 <= i <= j → j <= hi - lo → slice (slice l lo hi) i j = slice l (lo + i) (lo + j).
Proof.
  intros. unfold slice at 1. rewrite slice_drop, slice_take by lia. f_equal. lia.
Qed.

Lemma slice_nil {A} (l : list A) lo : slice l lo lo = [].
Proof. unfold slice. by rewrite Z.sub_diag. Qed.

(** ** Sorted lists *)

Lemma strongly_sorted_impl {A} (R Q : A → A → Prop) l :
  (∀ x y, R x y → Q x y) → StronglySorted R l → StronglySorted Q l.
Proof.
  intros HRQ. induction 1 as [|x l Hs IH Hx]; constructor; [done|].
  eapply Forall_impl; [exact Hx|]. eauto.
Qed.

Lemma strongly_sorted_filter {A} (R : A → A → Prop) (P : A → Prop) `{∀ x, Decision (P x)} l :
  StronglySorted R l → StronglySorted R (filter P l).
Proof.
  induction 1 as [|x l Hs IH Hx]; [constructor|]. rewrite filter_cons. case_decide; [|done].
  constructor; [done|]. rewrite Forall_forall in *. intros y [_ Hy]%list_elem_of_filter. auto.
Qed.

Lemma seqZ_1 m : seqZ m 1 = [m].
Proof. unfold seqZ. simpl. by f_equal. Qed.

Lemma seqZ_sorted m n : StronglySorted Z.lt (seqZ m n).
Proof.
  destruct (decide (0 <= n)) as [Hn|Hn]; [|rewrite seqZ_nil by lia; constructor].
  revert m; pattern n; apply natlike_ind; [|clear n Hn; intros n Hn IH|done]; intros m.
  - rewrite seqZ_nil by lia. constructor.
  - rewrite seqZ_cons, Z.pred_succ by lia. constructor; [apply IH|].
    apply Forall_forall. intros x Hx%elem_of_seqZ. lia.
Qed.

Lemma sorted_lt_NoDup (l : list Z) : StronglySorted Z.lt l → NoDup l.
Proof.
  induction 1 as [|x l Hs IH Hx]; constructor; [|done].
  intros Hin. rewrite Forall_forall in Hx. specialize (Hx x Hin). lia.
Qed.

(** Two ascending lists with the same elements are equal. *)
Lemma sorted_lt_unique (l k : list Z) :
  StronglySorted Z.lt l → StronglySorted Z.lt k → (∀ x, x ∈ l ↔ x ∈ k) → l = k.
Proof.
  intros Hl Hk Heq.
  apply (StronglySorted_unique Z.le).
  - by eapply strongly_sorted_impl; [|exact Hl]; lia.
  - by eapply strongly_sorted_impl; [|exact Hk]; lia.
  - apply NoDup_Permutation; auto using sorted_lt_NoDup.
Qed.
