(* ===== verification/LinkedList.v ===== *)
(** * Linked lists: contrib/container/list/list.go

    The doubly linked list under the object index: elements with pointers, a list
    as a ring through its root element.  The model has the pointers: a store maps
    an address to an element, and the address of its root to the length of a list.
    An operation that follows a nil pointer panics and is [None].

    A ring is the trail of links from the root through the elements back to it.
    The specification is a map from lists to the sequences of their elements; every
    operation of the package is proved to implement the operation on sequences its
    comment describes, on one list and without a change to any other. *)

From S2P Require Import Prelude.

Local Open Scope nat_scope.

Section list.
Context {V : Type}.

(** An element; [el_list] is the list it belongs to, by its root.  A value may be
    nil. *)
Record Element := mkElement { el_next : option nat; el_prev : option nat; el_list : option nat; el_value : option V }.

(** [heap]: the elements, roots included; [lens]: the lengths of the lists. *)
Record store := mkStore { heap : gmap nat Element; lens : gmap nat nat }.

Definition with_next (q : option nat) (e : Element) : Element := mkElement q (el_prev e) (el_list e) (el_value e).
Definition with_prev (q : option nat) (e : Element) : Element := mkElement (el_next e) q (el_list e) (el_value e).
Definition with_list (q : option nat) (e : Element) : Element := mkElement (el_next e) (el_prev e) q (el_value e).

(** Reading and writing through a pointer. *)
Definition load (s : store) (p : nat) : option Element := heap s !! p.
Definition update (f : Element → Element) (p : nat) (s : store) : option store :=
  e ← heap s !! p; Some (mkStore (<[p := f e]> (heap s)) (lens s)).
Definition set_len (l n : nat) (s : store) : store := mkStore (heap s) (<[l := n]> (lens s)).

(** ** The operations *)

Definition Init (l : nat) (s : store) : store :=
  mkStore (<[l := mkElement (Some l) (Some l) None None]> (heap s)) (<[l := 0]> (lens s)).

(** [New]: the root is a new address. *)
Definition New (s : store) : nat * store := let l := fresh (dom (heap s)) in (l, Init l s).

Definition Len (l : nat) (s : store) : option nat := lens s !! l.

Definition Front (l : nat) (s : store) : option (option nat) :=
  n ← lens s !! l; match n with 0 => Some None | _ => el_next <$> load s l end.

Definition Back (l : nat) (s : store) : option (option nat) :=
  n ← lens s !! l; match n with 0 => Some None | _ => el_prev <$> load s l end.

(** [Next] and [Prev]: nil at the root and for an element of no list. *)
Definition Next (e : nat) (s : store) : option (option nat) :=
  x ← load s e; Some (match el_list x with Some l => if decide (el_next x = Some l) then None else el_next x | None => None end).

Definition Prev (e : nat) (s : store) : option (option nat) :=
  x ← load s e; Some (match el_list x with Some l => if decide (el_prev x = Some l) then None else el_prev x | None => None end).

Definition lazyInit (l : nat) (s : store) : option store :=
  r ← load s l; Some (match el_next r with None => Init l s | Some _ => s end).

(** The four assignments that put [e] behind [at_]. *)
Definition link_after (e at_ : nat) (s : store) : option store :=
  s ← update (with_prev (Some at_)) e s;
  a ← load s at_;
  s ← update (with_next (el_next a)) e s;
  x ← load s e;
  p ← el_prev x;
  s ← update (with_next (Some e)) p s;
  x ← load s e;
  n ← el_next x;
  update (with_prev (Some e)) n s.

(** The two assignments that take [e] out. *)
Definition unlink (e : nat) (s : store) : option store :=
  x ← load s e;
  p ← el_prev x;
  s ← update (with_next (el_next x)) p s;
  x ← load s e;
  n ← el_next x;
  update (with_prev (el_prev x)) n s.

Definition insert (l e at_ : nat) (s : store) : option store :=
  s ← link_after e at_ s;
  s ← update (with_list (Some l)) e s;
  n ← lens s !! l;
  Some (set_len l (S n) s).

Definition insertValue (l : nat) (v : option V) (at_ : nat) (s : store) : option (nat * store) :=
  let e := fresh (dom (heap s)) in
  s ← insert l e at_ (mkStore (<[e := mkElement None None None v]> (heap s)) (lens s));
  Some (e, s).

Definition remove (l e : nat) (s : store) : option store :=
  s ← unlink e s;
  s ← update (with_next None) e s;
  s ← update (with_prev None) e s;
  s ← update (with_list None) e s;
  n ← lens s !! l;
  Some (set_len l (pred n) s).

Definition move (e at_ : nat) (s : store) : option store :=
  if decide (e = at_) then Some s else s ← unlink e s; link_after e at_ s.

Definition Remove (l e : nat) (s : store) : option (option V * store) :=
  x ← load s e;
  s ← (if decide (el_list x = Some l) then remove l e s else Some s);
  x ← load s e;
  Some (el_value x, s).

Definition PushFront (l : nat) (v : option V) (s : store) : option (nat * store) :=
  s ← lazyInit l s; insertValue l v l s.

Definition PushBack (l : nat) (v : option V) (s : store) : option (nat * store) :=
  s ← lazyInit l s; r ← load s l; b ← el_prev r; insertValue l v b s.

Definition InsertBefore (l : nat) (v : option V) (mark : nat) (s : store) : option (option nat * store) :=
  m ← load s mark;
  if decide (el_list m = Some l) then p ← el_prev m; r ← insertValue l v p s; Some (Some r.1, r.2) else Some (None, s).

Definition InsertAfter (l : nat) (v : option V) (mark : nat) (s : store) : option (option nat * store) :=
  m ← load s mark;
  if decide (el_list m = Some l) then r ← insertValue l v mark s; Some (Some r.1, r.2) else Some (None, s).

Definition MoveToFront (l e : nat) (s : store) : option store :=
  x ← load s e; r ← load s l;
  if decide (el_list x ≠ Some l ∨ el_next r = Some e) then Some s else move e l s.

Definition MoveToBack (l e : nat) (s : store) : option store :=
  x ← load s e; r ← load s l;
  if decide (el_list x ≠ Some l ∨ el_prev r = Some e) then Some s else b ← el_prev r; move e b s.

Definition MoveBefore (l e mark : nat) (s : store) : option store :=
  x ← load s e; m ← load s mark;
  if decide (el_list x ≠ Some l ∨ e = mark ∨ el_list m ≠ Some l) then Some s else p ← el_prev m; move e p s.

Definition MoveAfter (l e mark : nat) (s : store) : option store :=
  x ← load s e; m ← load s mark;
  if decide (el_list x ≠ Some l ∨ e = mark ∨ el_list m ≠ Some l) then Some s else move e mark s.

(** The loop of [PushBackList]: [i] elements are left, the next one is [e]. *)
Fixpoint push_back_loop (l i : nat) (e : option nat) (s : store) : option store :=
  match i with
  | 0 => Some s
  | S i =>
      p ← e;
      x ← load s p;
      r ← load s l;
      b ← el_prev r;
      rs ← insertValue l (el_value x) b s;
      e' ← Next p rs.2;
      push_back_loop l i e' rs.2
  end.

Definition PushBackList (l other : nat) (s : store) : option store :=
  s ← lazyInit l s; n ← Len other s; f ← Front other s; push_back_loop l n f s.

Fixpoint push_front_loop (l i : nat) (e : option nat) (s : store) : option store :=
  match i with
  | 0 => Some s
  | S i =>
      p ← e;
      x ← load s p;
      rs ← insertValue l (el_value x) l s;
      e' ← Prev p rs.2;
      push_front_loop l i e' rs.2
  end.

Definition PushFrontList (l other : nat) (s : store) : option store :=
  s ← lazyInit l s; n ← Len other s; b ← Back other s; push_front_loop l n b s.

(** ** Rings *)

Definition next_of (s : store) (p : nat) : option nat := heap s !! p ≫= el_next.
Definition prev_of (s : store) (p : nat) : option nat := heap s !! p ≫= el_prev.
Definition list_of (s : store) (p : nat) : option nat := heap s !! p ≫= el_list.
Definition value_of (s : store) (p : nat) : option V := heap s !! p ≫= el_value.

Definition linked (s : store) (a b : nat) : Prop := next_of s a = Some b ∧ prev_of s b = Some a.

(** From [a] along the links through [u], ending at [z]. *)
Fixpoint trail (s : store) (a : nat) (u : list nat) (z : nat) : Prop :=
  match u with
  | [] => a = z
  | x :: u => linked s a x ∧ trail s x u z
  end.

(** The elements of list [l] are [xs], in order. *)
Record ring (s : store) (l : nat) (xs : list nat) : Prop := {
  rg_trail : trail s l (xs ++ [l]) l;
  rg_nodup : NoDup (l :: xs);
  rg_list : ∀ x, x ∈ xs → list_of s x = Some l;
  rg_root : list_of s l = None;
  rg_len : lens s !! l = Some (length xs) }.

(** The specification: the elements of every list. *)
Definition rep (s : store) (m : gmap nat (list nat)) : Prop := ∀ l xs, m !! l = Some xs → ring s l xs.

(** ** Single assignments *)

Lemma update_spec f p s x : heap s !! p = Some x →
  update f p s = Some (mkStore (<[p := f x]> (heap s)) (lens s)).
Proof. intros Hp. unfold update. by rewrite Hp. Qed.

Lemma insert_heap (h : gmap nat Element) p y q : <[p := y]> h !! q = if decide (q = p) then Some y else h !! q.
Proof. case_decide as E; [subst; apply lookup_insert_eq|by apply lookup_insert_ne]. Qed.

(** What a change of pointers leaves of the rest of the elements. *)
Definition same_data (s s' : store) : Prop :=
  lens s' = lens s ∧ dom (heap s') = dom (heap s) ∧ ∀ x, list_of s' x = list_of s x ∧ value_of s' x = value_of s x.

Lemma same_data_refl s : same_data s s.
Proof. by repeat split. Qed.

Lemma same_data_trans s1 s2 s3 : same_data s1 s2 → same_data s2 s3 → same_data s1 s3.
Proof.
  intros (H1 & H2 & H3) (I1 & I2 & I3). split; [congruence|]. split; [congruence|]. intros x. destruct (H3 x), (I3 x). split; congruence.
Qed.

Lemma present s p q : next_of s p = Some q ∨ prev_of s p = Some q → ∃ x, heap s !! p = Some x.
Proof. unfold next_of, prev_of. destruct (heap s !! p) as [x|]; [by exists x|]. by intros [?|?]. Qed.

Ltac load_all := unfold load; cbn [heap lens]; rewrite ?insert_heap; repeat case_decide; try congruence; cbn [mbind option_bind el_next el_prev with_next with_prev with_list].

Lemma link_after_spec e at_ nx s : e ≠ at_ → e ≠ nx → is_Some (heap s !! e) → next_of s at_ = Some nx → is_Some (heap s !! nx) →
  ∃ s', link_after e at_ s = Some s' ∧ same_data s s'
  ∧ (∀ x, next_of s' x = if decide (x = e) then Some nx else if decide (x = at_) then Some e else next_of s x)
  ∧ (∀ x, prev_of s' x = if decide (x = e) then Some at_ else if decide (x = nx) then Some e else prev_of s x).
Proof.
  intros Hea Hen [xe He] Hn [xn Hx]. destruct (present s at_ nx) as [xa Ha]; [by left|].
  assert (el_next xa = Some nx) as Hna by (unfold next_of in Hn; by rewrite Ha in Hn).
  unfold link_after. rewrite (update_spec _ e s xe He). cbn [mbind option_bind]. load_all. rewrite Ha. cbn [mbind option_bind].
  erewrite update_spec by (cbn [heap]; apply lookup_insert_eq). cbn [mbind option_bind]. load_all.
  erewrite update_spec by (cbn [heap]; rewrite !insert_heap; repeat case_decide; try congruence; exact Ha). cbn [mbind option_bind]. load_all. rewrite Hna. cbn [mbind option_bind].
  destruct (decide (nx = at_)) as [->|Hne].
  - erewrite update_spec by (cbn [heap]; apply lookup_insert_eq). eexists. split; [reflexivity|].
    split; [|split; intros x; unfold next_of, prev_of; cbn [heap]; rewrite !insert_heap; repeat case_decide; subst; cbn; congruence || done].
    split; [done|]. split; [cbn [heap]; rewrite !dom_insert_L; assert (at_ ∈ dom (heap s) ∧ e ∈ dom (heap s)) by (split; apply elem_of_dom; eauto); set_solver|].
    intros x. unfold list_of, value_of. cbn [heap]. rewrite !insert_heap. repeat case_decide; subst; cbn; rewrite ?He, ?Ha; done.
  - erewrite update_spec by (cbn [heap]; rewrite !insert_heap; repeat case_decide; try congruence; exact Hx). eexists. split; [reflexivity|].
    split; [|split; intros x; unfold next_of, prev_of; cbn [heap]; rewrite !insert_heap; repeat case_decide; subst; cbn; rewrite ?Hx, ?Ha; congruence || done].
    split; [done|]. split; [cbn [heap]; rewrite !dom_insert_L; assert (at_ ∈ dom (heap s) ∧ e ∈ dom (heap s) ∧ nx ∈ dom (heap s)) by (split_and!; apply elem_of_dom; eauto); set_solver|].
    intros x. unfold list_of, value_of. cbn [heap]. rewrite !insert_heap. repeat case_decide; subst; cbn; rewrite ?He, ?Ha, ?Hx; done.
Qed.

Lemma unlink_spec e p n s : prev_of s e = Some p → next_of s e = Some n → p ≠ e → n ≠ e → is_Some (heap s !! p) → is_Some (heap s !! n) →
  ∃ s', unlink e s = Some s' ∧ same_data s s'
  ∧ (∀ x, next_of s' x = if decide (x = p) then Some n else next_of s x)
  ∧ (∀ x, prev_of s' x = if decide (x = n) then Some p else prev_of s x).
Proof.
  intros Hp Hn Hpe Hne [xp Hxp] [xn Hxn]. destruct (present s e n) as [xe He]; [by left|].
  assert (el_next xe = Some n) as En by (unfold next_of in Hn; by rewrite He in Hn).
  assert (el_prev xe = Some p) as Ep by (unfold prev_of in Hp; by rewrite He in Hp).
  unfold unlink. load_all. rewrite He. cbn [mbind option_bind]. rewrite Ep. cbn [mbind option_bind].
  erewrite update_spec by exact Hxp. cbn [mbind option_bind]. load_all. rewrite He. cbn [mbind option_bind]. rewrite En. cbn [mbind option_bind].
  destruct (decide (n = p)) as [->|Hnp].
  - erewrite update_spec by (cbn [heap]; apply lookup_insert_eq). eexists. split; [reflexivity|].
    split; [|split; intros x; unfold next_of, prev_of; cbn [heap]; rewrite !insert_heap; repeat case_decide; subst; cbn; rewrite ?Ep; congruence || done].
    split; [done|]. split; [cbn [heap]; rewrite !dom_insert_L; assert (p ∈ dom (heap s)) by (apply elem_of_dom; eauto); set_solver|].
    intros x. unfold list_of, value_of. cbn [heap]. rewrite !insert_heap. repeat case_decide; subst; cbn; rewrite ?Hxp; done.
  - erewrite update_spec by (cbn [heap]; rewrite !insert_heap; repeat case_decide; try congruence; exact Hxn). eexists. split; [reflexivity|].
    split; [|split; intros x; unfold next_of, prev_of; cbn [heap]; rewrite !insert_heap; repeat case_decide; subst; cbn; rewrite ?Ep, ?Hxp, ?Hxn; congruence || done].
    split; [done|]. split; [cbn [heap]; rewrite !dom_insert_L; assert (p ∈ dom (heap s) ∧ n ∈ dom (heap s)) by (split; apply elem_of_dom; eauto); set_solver|].
    intros x. unfold list_of, value_of. cbn [heap]. rewrite !insert_heap. repeat case_decide; subst; cbn; rewrite ?Hxp, ?Hxn; done.
Qed.

(** ** Trails *)

(** The nodes whose [next] a trail uses. *)
Fixpoint firsts (a : nat) (u : list nat) : list nat :=
  match u with [] => [] | x :: u => a :: firsts x u end.

Lemma trail_frame s s' u : ∀ a z, trail s a u z → (∀ x, x ∈ firsts a u → next_of s' x = next_of s x) →
  (∀ x, x ∈ u → prev_of s' x = prev_of s x) → trail s' a u z.
Proof.
  induction u as [|x u IH]; intros a z Ht Hn Hp; [done|]. destruct Ht as [[H1 H2] Ht]. split.
  - split; [rewrite Hn by (by left); done|rewrite Hp by (by left); done].
  - apply IH; [done|intros y Hy; apply Hn; by right|intros y Hy; apply Hp; by right].
Qed.

Lemma trail_app s u v : ∀ a z, trail s a (u ++ v) z ↔ ∃ m, trail s a u m ∧ trail s m v z.
Proof.
  induction u as [|x u IH]; intros a z; cbn [app trail].
  - split; [by exists a|by intros (m & -> & ?)].
  - rewrite IH. split; [intros (? & m & ? & ?); by exists m|intros (m & (? & ?) & ?); split; [done|by exists m]].
Qed.

Lemma trail_firsts s u : ∀ a z, trail s a u z → firsts a u ++ [z] = a :: u.
Proof. induction u as [|x u IH]; intros a z Ht; cbn [firsts app]; [by rewrite Ht|]. destruct Ht as [_ Ht]. by rewrite (IH x z Ht). Qed.

(** A ring cut between [u] and [v]: the nodes [p] and [n] at the cut. *)
Record cut (s : store) (l : nat) (u v : list nat) (p n : nat) (w : list nat) : Prop := {
  cu_left : trail s l u p; cu_link : linked s p n; cu_right : trail s n w l;
  cu_v : v ++ [l] = n :: w; cu_firsts_u : firsts l u ++ [p] = l :: u; cu_firsts_w : firsts n w = v }.

Lemma ring_cut s l u v : trail s l (u ++ v ++ [l]) l → ∃ p n w, cut s l u v p n w.
Proof.
  intros (p & Hu & Hv)%trail_app. destruct (v ++ [l]) as [|n w] eqn:Ev; [by destruct v|]. destruct Hv as [Hl Hw].
  exists p, n, w. split; [done..|by eapply trail_firsts|].
  pose proof (trail_firsts s w n l Hw) as Hf. rewrite <-Ev in Hf. by apply app_inj_tail in Hf as [-> _].
Qed.

(** The nodes at the cut, and what they are not. *)
Lemma cut_nodes s l u v p n w : cut s l u v p n w → NoDup (l :: u ++ v) →
  p ∈ l :: u ∧ n ∈ v ++ [l] ∧ p ∉ firsts l u ∧ n ∉ u ∧ p ∉ v ∧ n ∉ w.
Proof.
  intros [_ _ _ Hv Hfu Hfw] Hnd. apply NoDup_cons in Hnd as [Hl Hnd]. apply NoDup_app in Hnd as (Hu & Huv & Hnv).
  assert (NoDup (l :: u)) as Hlu by (apply NoDup_cons; set_solver).
  assert (p ∈ l :: u) as Hp by (rewrite <-Hfu; set_solver). assert (n ∈ v ++ [l]) as Hn by (rewrite Hv; set_solver).
  split; [done|]. split; [done|]. split; [|split; [|split]].
  - intros Hin. rewrite <-Hfu in Hlu. apply NoDup_app in Hlu as (_ & Hd & _). apply (Hd p Hin). set_solver.
  - set_solver.
  - set_solver.
  - intros Hin. assert (NoDup (v ++ [l])) as Hvl by (apply NoDup_app; split; [done|]; split; [set_solver|apply NoDup_singleton]).
    rewrite Hv in Hvl. apply NoDup_cons in Hvl as [? _]. done.
Qed.

(** Putting [e] into the cut, and closing the cut behind an element taken out. *)
Lemma splice_in s s' l u v p n w e : cut s l u v p n w → NoDup (l :: u ++ v) → e ∉ l :: u ++ v →
  (∀ x, next_of s' x = if decide (x = e) then Some n else if decide (x = p) then Some e else next_of s x) →
  (∀ x, prev_of s' x = if decide (x = e) then Some p else if decide (x = n) then Some e else prev_of s x) →
  trail s' l (u ++ e :: v ++ [l]) l.
Proof.
  intros Hc Hnd He Hn Hp. destruct (cut_nodes _ _ _ _ _ _ _ Hc Hnd) as (Hpin & Hnin & Hpf & Hnu & Hpv & Hnw).
  destruct Hc as [Hl _ Hr Hv Hfu Hfw]. apply trail_app. exists p. split.
  - eapply trail_frame; [exact Hl| |].
    + intros x Hx. rewrite Hn. rewrite !decide_False; [done|congruence|]. intros ->. apply He.
      assert (e ∈ l :: u) as Hin by (rewrite <-Hfu; apply elem_of_app; by left). set_solver.
    + intros x Hx. rewrite Hp, !decide_False; [done|congruence|set_solver].
  - assert (p ≠ e) by set_solver. assert (n ≠ e) by set_solver. cbn [trail]. rewrite Hv. cbn [trail]. split; [|split].
    + split; [by rewrite Hn, decide_False, decide_True|by rewrite Hp, decide_True].
    + split; [by rewrite Hn, decide_True|by rewrite Hp, decide_False, decide_True].
    + eapply trail_frame; [exact Hr| |].
      * rewrite Hfw. intros x Hx. rewrite Hn, !decide_False; [done|congruence|set_solver].
      * intros x Hx. rewrite Hp, !decide_False; [done|congruence|]. intros ->. apply He.
        assert (e ∈ v ++ [l]) as Hin by (rewrite Hv; by right). set_solver.
Qed.

Lemma splice_out s s' l u v p n w e : cut s l u (e :: v) p e w → v ++ [l] = n :: tail w → linked s e n → trail s n (tail w) l → NoDup (l :: u ++ e :: v) →
  (∀ x, next_of s' x = if decide (x = p) then Some n else next_of s x) →
  (∀ x, prev_of s' x = if decide (x = n) then Some p else prev_of s x) →
  trail s' l (u ++ v ++ [l]) l.
Proof.
  intros Hc Hv Hen Hr Hnd Hn Hp. destruct (cut_nodes _ _ _ _ _ _ _ Hc Hnd) as (Hpin & _ & Hpf & _ & Hpv & _).
  destruct Hc as [Hl _ _ _ Hfu _]. apply NoDup_cons in Hnd as [Hlx Hnd]. apply NoDup_app in Hnd as (Hu & Huv & [He Hvn]%NoDup_cons).
  assert (NoDup (v ++ [l])) as Hvl by (apply NoDup_app; split; [done|]; split; [set_solver|apply NoDup_singleton]).
  assert (n ∈ v ++ [l]) as Hnin by (rewrite Hv; by left). assert (firsts n (tail w) = v) as Hfw.
  { pose proof (trail_firsts s (tail w) n l Hr) as Hf. rewrite <-Hv in Hf. by apply app_inj_tail in Hf as [-> _]. }
  apply trail_app. exists p. split.
  - eapply trail_frame; [exact Hl| |].
    + intros x Hx. rewrite Hn, decide_False; [done|congruence].
    + intros x Hx. rewrite Hp, decide_False; [done|]. intros ->. apply elem_of_app in Hnin as [?|?]; set_solver.
  - rewrite Hv. cbn [trail]. split; [split; [by rewrite Hn, decide_True|by rewrite Hp, decide_True]|].
    eapply trail_frame; [exact Hr| |].
    + rewrite Hfw. intros x Hx. rewrite Hn, decide_False; [done|set_solver].
    + intros x Hx. rewrite Hp, decide_False; [done|]. intros ->. rewrite Hv in Hvl. apply NoDup_cons in Hvl as [? _]. done.
Qed.

(** ** One list changes *)

(** Only the pointers of [touched] nodes and the length of [l] change, and no
    value of an element that was there. *)
Record effect (s s' : store) (l : nat) (touched : list nat) : Prop := {
  ef_next : ∀ x, x ∉ touched → next_of s' x = next_of s x;
  ef_prev : ∀ x, x ∉ touched → prev_of s' x = prev_of s x;
  ef_list : ∀ x, x ∉ touched → list_of s' x = list_of s x;
  ef_lens : ∀ k, k ≠ l → lens s' !! k = lens s !! k;
  ef_value : ∀ x, is_Some (heap s !! x) → value_of s' x = value_of s x;
  ef_dom : dom (heap s) ⊆ dom (heap s') }.

Lemma ring_present s l xs x : ring s l xs → x ∈ l :: xs → is_Some (heap s !! x).
Proof.
  intros Hr [->|Hx]%elem_of_cons.
  - pose proof (rg_trail _ _ _ Hr) as Ht. destruct xs as [|y xs]; cbn [app trail] in Ht; destruct Ht as [[Hn _] _];
      destruct (present s l _ (or_introl Hn)) as [e He]; rewrite He; eauto.
  - pose proof (rg_list _ _ _ Hr x Hx) as Hl. unfold list_of in Hl. destruct (heap s !! x); [eauto|done].
Qed.

Lemma ring_frame s s' l xs l0 touched : ring s l xs → effect s s' l0 touched → l ≠ l0 → (∀ x, x ∈ l :: xs → x ∉ touched) → ring s' l xs.
Proof.
  intros Hr He Hne Ht. destruct Hr as [H1 H2 H3 H4 H5]. split; [|done| | |].
  - eapply trail_frame; [exact H1| |].
    + pose proof (trail_firsts s _ l l H1) as Hf. rewrite app_comm_cons in Hf. apply app_inj_tail in Hf as [-> _]. intros x Hx. apply (ef_next _ _ _ _ He). by apply Ht.
    + intros x Hx. apply (ef_prev _ _ _ _ He), Ht. set_solver.
  - intros x Hx. rewrite (ef_list _ _ _ _ He) by (apply Ht; by right). by apply H3.
  - rewrite (ef_list _ _ _ _ He) by (apply Ht; by left). done.
  - by rewrite (ef_lens _ _ _ _ He).
Qed.

(** Lists do not share nodes. *)
Lemma rings_disjoint s l xs l' ys x : ring s l xs → ring s l' ys → l ≠ l' → x ∈ l :: xs → x ∉ l' :: ys.
Proof.
  intros Hr Hr' Hne Hx Hx'. pose proof (rg_root _ _ _ Hr). pose proof (rg_root _ _ _ Hr').
  apply elem_of_cons in Hx as [->|Hx], Hx' as [?|Hx']; subst; [done|..].
  - rewrite (rg_list _ _ _ Hr' l Hx') in *. done.
  - rewrite (rg_list _ _ _ Hr l' Hx) in *. done.
  - pose proof (rg_list _ _ _ Hr x Hx). pose proof (rg_list _ _ _ Hr' x Hx'). congruence.
Qed.

(** [e] is a new node or an element of [l]. *)
Lemma rep_update s s' m l xs xs' e : rep s m → m !! l = Some xs → (heap s !! e = None ∨ e ∈ l :: xs) → effect s s' l (e :: l :: xs) →
  ring s' l xs' → rep s' (<[l := xs']> m).
Proof.
  intros Hrep Hl He Hef Hr' k ys. rewrite lookup_insert_Some. intros [[<- <-]|[Hne Hk]]; [done|].
  eapply ring_frame; [by apply Hrep|exact Hef|done|]. intros x Hx Hin.
  pose proof (rings_disjoint s k ys l xs x (Hrep _ _ Hk) (Hrep _ _ Hl) (not_eq_sym Hne) Hx) as Hd.
  apply elem_of_cons in Hin as [->|Hin]; [|done]. destruct He as [He|He]; [|done].
  destruct (ring_present s k ys e (Hrep _ _ Hk) Hx) as [? Hp]. congruence.
Qed.

(** A new element in the cut. *)
Lemma insertValue_ring s l u v p n w x : ring s l (u ++ v) → cut s l u v p n w →
  ∃ e s', insertValue l x p s = Some (e, s') ∧ heap s !! e = None ∧ ring s' l (u ++ e :: v) ∧ value_of s' e = x
  ∧ effect s s' l (e :: l :: u ++ v).
Proof.
  intros Hr Hc. pose proof (rg_nodup _ _ _ Hr) as Hnd. set (e := fresh (dom (heap s))).
  assert (heap s !! e = None) as He by (apply not_elem_of_dom; apply is_fresh).
  assert (e ∉ l :: u ++ v) as Hex by (intros Hin; destruct (ring_present s l _ e Hr Hin); congruence).
  destruct (cut_nodes _ _ _ _ _ _ _ Hc Hnd) as (Hp & Hn & _). assert (p ≠ e ∧ n ≠ e) as [Hpe Hne] by set_solver.
  set (s0 := mkStore (<[e := mkElement None None None x]> (heap s)) (lens s)).
  assert (∀ q, q ≠ e → heap s0 !! q = heap s !! q) as H0 by (intros q Hq; by apply lookup_insert_ne).
  destruct (link_after_spec e p n s0) as (s1 & Hl1 & (Hlen & Hdom & Hdata) & Hnext & Hprev).
  - done.
  - done.
  - unfold s0. cbn [heap]. rewrite lookup_insert_eq. eauto.
  - unfold next_of. rewrite H0 by done. apply (cu_link _ _ _ _ _ _ _ Hc).
  - rewrite H0 by done. eapply ring_present; [exact Hr|]. set_solver.
  - assert (is_Some (heap s1 !! e)) as [y Hy] by (apply elem_of_dom; rewrite Hdom; apply elem_of_dom; unfold s0; cbn [heap]; rewrite lookup_insert_eq; eauto).
    unfold insertValue. fold e. fold s0. unfold insert. rewrite Hl1. cbn [mbind option_bind]. rewrite (update_spec _ e s1 y Hy). cbn [mbind option_bind lens].
    rewrite Hlen. change (lens s0) with (lens s). rewrite (rg_len _ _ _ Hr). cbn [mbind option_bind].
    eexists e, _. split; [reflexivity|]. set (s2 := set_len _ _ _). split; [done|].
    assert (∀ q, next_of s2 q = next_of s1 q ∧ prev_of s2 q = prev_of s1 q ∧ value_of s2 q = value_of s1 q
      ∧ list_of s2 q = if decide (q = e) then Some l else list_of s1 q) as Hs2.
    { intros q. unfold next_of, prev_of, value_of, list_of, s2, set_len. cbn [heap]. rewrite !insert_heap. case_decide as Eq; [subst q; by rewrite Hy|done]. }
    assert (∀ q, q ≠ e → next_of s0 q = next_of s q ∧ prev_of s0 q = prev_of s q ∧ list_of s0 q = list_of s q ∧ value_of s0 q = value_of s q) as Hs0.
    { intros q Hq. unfold next_of, prev_of, list_of, value_of. by rewrite H0. }
    assert (∀ q, next_of s2 q = if decide (q = e) then Some n else if decide (q = p) then Some e else next_of s q) as N2.
    { intros q. rewrite (proj1 (Hs2 q)), Hnext. repeat case_decide; try done. by apply Hs0. }
    assert (∀ q, prev_of s2 q = if decide (q = e) then Some p else if decide (q = n) then Some e else prev_of s q) as P2.
    { intros q. rewrite (proj1 (proj2 (Hs2 q))), Hprev. repeat case_decide; try done. by apply Hs0. }
    assert (∀ q, q ≠ e → list_of s2 q = list_of s q) as L2.
    { intros q Hq. rewrite (proj2 (proj2 (proj2 (Hs2 q)))), decide_False by done. rewrite (proj1 (Hdata q)). by apply Hs0. }
    split; [|split].
    + split.
      * change (e :: v) with ([e] ++ v). rewrite <-!app_assoc. cbn [app]. by eapply splice_in.
      * apply NoDup_cons in Hnd as [Hlx Hnd]. apply NoDup_cons. split; [set_solver|]. apply NoDup_app in Hnd as (? & ? & ?).
        apply NoDup_app. split; [done|]. split; [set_solver|]. apply NoDup_cons. split; [set_solver|done].
      * intros q Hq. destruct (decide (q = e)) as [->|Hqe]; [by rewrite (proj2 (proj2 (proj2 (Hs2 e)))), decide_True|].
        rewrite L2 by done. apply (rg_list _ _ _ Hr). set_solver.
      * rewrite L2 by set_solver. apply Hr.
      * unfold s2, set_len. cbn [lens]. rewrite lookup_insert_eq. f_equal. rewrite !length_app. cbn [length]. lia.
    + rewrite (proj1 (proj2 (proj2 (Hs2 e)))), (proj2 (Hdata e)). unfold value_of, s0. cbn [heap]. by rewrite lookup_insert_eq.
    + split.
      * intros q Hq. rewrite N2, !decide_False by set_solver. done.
      * intros q Hq. rewrite P2, !decide_False by set_solver. done.
      * intros q Hq. apply L2. set_solver.
      * intros k Hk. unfold s2, set_len. cbn [lens]. by rewrite lookup_insert_ne by done.
      * intros q [y' Hq]. rewrite (proj1 (proj2 (proj2 (Hs2 q)))), (proj2 (Hdata q)). apply Hs0. congruence.
      * unfold s2, set_len. cbn [heap]. rewrite dom_insert_L, Hdom. unfold s0. cbn [heap]. rewrite dom_insert_L. set_solver.
Qed.

(** ** Taking elements out and moving them *)

(** The neighbours of an element. *)
Lemma element_cut s l u e v : ring s l (u ++ e :: v) → ∃ p n w,
  cut s l u (e :: v) p e (n :: w) ∧ v ++ [l] = n :: w ∧ linked s e n ∧ trail s n w l ∧ p ≠ e ∧ n ≠ e ∧ p ∈ l :: u ∧ n ∈ v ++ [l].
Proof.
  intros Hr. pose proof (rg_trail _ _ _ Hr) as Ht. rewrite <-app_assoc in Ht. destruct (ring_cut s l u (e :: v) Ht) as (p & n & w & Hc).
  pose proof (cu_v _ _ _ _ _ _ _ Hc) as Hv. cbn [app] in Hv. injection Hv as <- Hw.
  destruct w as [|n w]; [by destruct v|]. pose proof (cu_right _ _ _ _ _ _ _ Hc) as [Hl Hr'].
  pose proof (rg_nodup _ _ _ Hr) as Hnd. destruct (cut_nodes _ _ _ _ _ _ _ Hc Hnd) as (Hp & _ & _ & _ & Hpv & He).
  exists p, n, w. split; [done|]. split; [done|]. split; [done|]. split; [done|]. split; [set_solver|]. split; [set_solver|]. split; [done|]. rewrite Hw. by left.
Qed.

Lemma unlink_ring s l u e v : ring s l (u ++ e :: v) → ∃ s', unlink e s = Some s' ∧ same_data s s' ∧ trail s' l (u ++ v ++ [l]) l
  ∧ (∀ x, x ∉ l :: u ++ e :: v → next_of s' x = next_of s x ∧ prev_of s' x = prev_of s x).
Proof.
  intros Hr. destruct (element_cut s l u e v Hr) as (p & n & w & Hc & Hv & Hen & Hw & Hpe & Hne & Hp & Hn).
  destruct (unlink_spec e p n s) as (s' & Hu & Hd & Hnext & Hprev).
  - apply (cu_link _ _ _ _ _ _ _ Hc).
  - apply Hen.
  - done.
  - done.
  - eapply ring_present; [exact Hr|]. set_solver.
  - eapply ring_present; [exact Hr|]. set_solver.
  - exists s'. split; [done|]. split; [done|]. split.
    + eapply (splice_out s s' l u v p n (n :: w) e); [done|done|done|done|apply Hr|done|done].
    + intros x Hx. rewrite Hnext, Hprev, !decide_False by set_solver. done.
Qed.

(** An element that is cleared. *)
Lemma clear_spec e s x : heap s !! e = Some x → ∃ s',
  (s ← update (with_next None) e s; s ← update (with_prev None) e s; update (with_list None) e s) = Some s'
  ∧ lens s' = lens s ∧ dom (heap s') = dom (heap s)
  ∧ (∀ q, q ≠ e → heap s' !! q = heap s !! q) ∧ list_of s' e = None ∧ value_of s' e = value_of s e.
Proof.
  intros He. rewrite (update_spec _ e s x He). cbn [mbind option_bind].
  erewrite update_spec by (cbn [heap]; apply lookup_insert_eq). cbn [mbind option_bind].
  erewrite update_spec by (cbn [heap]; apply lookup_insert_eq). eexists. split; [reflexivity|]. cbn [heap lens]. split; [done|].
  split; [rewrite !dom_insert_L; assert (e ∈ dom (heap s)) by (apply elem_of_dom; eauto); set_solver|].
  split; [intros q Hq; by rewrite !lookup_insert_ne|]. unfold list_of, value_of. cbn [heap]. rewrite lookup_insert_eq, He. done.
Qed.

Lemma trail_observe s s' : ∀ u a z, (∀ x, x ∈ a :: u → heap s' !! x = heap s !! x) → trail s a u z → trail s' a u z.
Proof.
  intros u a z Hh Ht. eapply trail_frame; [exact Ht| |].
  - intros x Hx. unfold next_of. rewrite Hh; [done|]. rewrite <-(trail_firsts s u a z Ht). set_solver.
  - intros x Hx. unfold prev_of. rewrite Hh; [done|]. by right.
Qed.

Lemma remove_ring s l u e v : ring s l (u ++ e :: v) → ∃ s', remove l e s = Some s' ∧ ring s' l (u ++ v) ∧ list_of s' e = None
  ∧ effect s s' l (e :: l :: u ++ e :: v) ∧ dom (heap s') = dom (heap s).
Proof.
  intros Hr. pose proof (rg_nodup _ _ _ Hr) as Hnd. destruct (unlink_ring s l u e v Hr) as (s1 & Hu & (Hlen & Hdom & Hdata) & Ht & Hsame).
  assert (is_Some (heap s1 !! e)) as [x Hx].
  { apply elem_of_dom. rewrite Hdom. apply elem_of_dom. eapply ring_present; [exact Hr|]. set_solver. }
  destruct (clear_spec e s1 x Hx) as (s2 & Hc & Hlen2 & Hdom2 & Hh & Hle & Hve).
  assert (NoDup (l :: u ++ v) ∧ e ∉ l :: u ++ v) as [Hnd' Hnin].
  { apply NoDup_cons in Hnd as [Hl Hnd]. apply NoDup_app in Hnd as (? & ? & [? ?]%NoDup_cons). split; [|set_solver].
    apply NoDup_cons. split; [set_solver|]. apply NoDup_app. split; [done|]. split; [set_solver|done]. }
  unfold remove. rewrite Hu. cbn [mbind option_bind].
  destruct (update (with_next None) e s1) as [sa|]; [|done]. cbn [mbind option_bind] in *. destruct (update (with_prev None) e sa) as [sb|]; [|done]. cbn [mbind option_bind] in *.
  rewrite Hc. cbn [mbind option_bind]. rewrite Hlen2, Hlen, (rg_len _ _ _ Hr). cbn [mbind option_bind]. eexists. split; [reflexivity|].
  set (s3 := set_len _ _ _). assert (heap s3 = heap s2) as H3 by done. assert (∀ q, q ≠ e → list_of s2 q = list_of s q) as Hls.
  { intros q Hq. unfold list_of. rewrite Hh by done. apply (proj1 (Hdata q)). }
  split; [|split; [exact Hle|split]].
  - split.
    + rewrite <-app_assoc. eapply trail_observe; [|exact Ht]. intros q Hq. rewrite H3. apply Hh. set_solver.
    + done.
    + intros q Hq. change (list_of s3 q) with (list_of s2 q). rewrite Hls by set_solver. apply (rg_list _ _ _ Hr). set_solver.
    + change (list_of s3 l) with (list_of s2 l). rewrite Hls by set_solver. apply Hr.
    + unfold s3, set_len. cbn [lens]. rewrite lookup_insert_eq. f_equal. rewrite !length_app. cbn [length]. lia.
  - split.
    + intros q Hq. unfold next_of. rewrite H3, Hh by set_solver. apply Hsame. set_solver.
    + intros q Hq. unfold prev_of. rewrite H3, Hh by set_solver. apply Hsame. set_solver.
    + intros q Hq. apply Hls. set_solver.
    + intros k Hk. unfold s3, set_len. cbn [lens]. rewrite lookup_insert_ne by done. congruence.
    + intros q Hq. change (value_of s3 q) with (value_of s2 q). destruct (decide (q = e)) as [->|Hne]; [rewrite Hve; apply Hdata|].
      unfold value_of. rewrite Hh by done. apply (proj2 (Hdata q)).
    + rewrite H3, Hdom2, Hdom. done.
  - rewrite H3, Hdom2, Hdom. done.
Qed.

(** [e] is taken out of [u ++ e :: v] and put into the cut between [u'] and [v'] of what remains. *)
Lemma move_ring s l u e v u' v' p : ring s l (u ++ e :: v) → u ++ v = u' ++ v' → last (l :: u') = Some p → e ≠ p →
  ∃ s', move e p s = Some s' ∧ ring s' l (u' ++ e :: v') ∧ effect s s' l (e :: l :: u ++ e :: v).
Proof.
  intros Hr Huv Hlast Hep. pose proof (rg_nodup _ _ _ Hr) as Hnd. destruct (unlink_ring s l u e v Hr) as (s1 & Hu & (Hlen & Hdom & Hdata) & Ht & Hsame).
  assert (NoDup (l :: u ++ v) ∧ e ∉ l :: u ++ v) as [Hnd' Hnin].
  { apply NoDup_cons in Hnd as [Hl Hnd]. apply NoDup_app in Hnd as (? & ? & [? ?]%NoDup_cons). split; [|set_solver].
    apply NoDup_cons. split; [set_solver|]. apply NoDup_app. split; [done|]. split; [set_solver|done]. }
  rewrite app_assoc, Huv, <-app_assoc in Ht. rewrite Huv in Hnd', Hnin. destruct (ring_cut s1 l u' v' Ht) as (p' & n & w & Hc).
  assert (p' = p) as ->. { pose proof (cu_firsts_u _ _ _ _ _ _ _ Hc) as Hf. rewrite <-Hf in Hlast. rewrite last_snoc in Hlast. by simplify_eq. }
  destruct (cut_nodes _ _ _ _ _ _ _ Hc Hnd') as (Hp & Hn & _).
  assert (∀ q, q ∈ l :: u' ++ v' → q ∈ l :: u ++ e :: v) as Hsub by (rewrite <-Huv; set_solver).
  assert (∀ q, is_Some (heap s !! q) → is_Some (heap s1 !! q)) as Hpres by (intros q; by rewrite <-!elem_of_dom, Hdom).
  destruct (link_after_spec e p n s1) as (s2 & Hl2 & (Hlen2 & Hdom2 & Hdata2) & Hnext & Hprev).
  - done.
  - set_solver.
  - apply Hpres. eapply ring_present; [exact Hr|]. set_solver.
  - apply (cu_link _ _ _ _ _ _ _ Hc).
  - apply Hpres. eapply ring_present; [exact Hr|]. apply Hsub. set_solver.
  - exists s2. unfold move. rewrite decide_False by done. rewrite Hu. cbn [mbind option_bind]. split; [done|].
    assert (∀ q, list_of s2 q = list_of s q ∧ value_of s2 q = value_of s q) as Hdt.
    { intros q. destruct (Hdata q), (Hdata2 q). split; congruence. }
    split; [split|split].
    + rewrite <-app_assoc. by eapply splice_in.
    + apply NoDup_cons in Hnd' as [Hl Hnd']. apply NoDup_app in Hnd' as (? & ? & ?). apply NoDup_cons. split; [set_solver|].
      apply NoDup_app. split; [done|]. split; [set_solver|]. apply NoDup_cons. split; [set_solver|done].
    + intros q Hq. rewrite (proj1 (Hdt q)). apply (rg_list _ _ _ Hr). assert (q ∈ e :: u ++ v) as Hq' by (rewrite Huv; set_solver). set_solver.
    + rewrite (proj1 (Hdt l)). apply Hr.
    + rewrite Hlen2, Hlen, (rg_len _ _ _ Hr). f_equal. rewrite !length_app. cbn [length]. apply (f_equal length) in Huv. rewrite !length_app in Huv. lia.
    + intros q Hq. assert (q ∉ l :: u' ++ v') by (intros Hin; apply Hsub in Hin; set_solver). rewrite Hnext, !decide_False by set_solver. apply Hsame. set_solver.
    + intros q Hq. assert (q ∉ l :: u' ++ v') by (intros Hin; apply Hsub in Hin; set_solver). rewrite Hprev, !decide_False by set_solver. apply Hsame. set_solver.
    + intros q _. apply Hdt.
    + intros k _. congruence.
    + intros q _. apply Hdt.
    + rewrite Hdom2, Hdom. done.
Qed.

(** ** Reading *)

Lemma root_next s l xs : ring s l xs → next_of s l = head (xs ++ [l]).
Proof. intros Hr. pose proof (rg_trail _ _ _ Hr) as Ht. destruct xs as [|x xs]; destruct Ht as [[Hn _] _]; exact Hn. Qed.

Lemma root_prev s l xs : ring s l xs → prev_of s l = last (l :: xs).
Proof.
  intros Hr. pose proof (rg_trail _ _ _ Hr) as Ht. destruct (ring_cut s l xs [] Ht) as (p & n & w & Hc).
  pose proof (cu_v _ _ _ _ _ _ _ Hc) as Hv. injection Hv as <- <-. rewrite (proj2 (cu_link _ _ _ _ _ _ _ Hc)).
  rewrite <-(cu_firsts_u _ _ _ _ _ _ _ Hc). by rewrite last_snoc.
Qed.

Lemma element_next s l u e v : ring s l (u ++ e :: v) → next_of s e = head (v ++ [l]).
Proof. intros Hr. destruct (element_cut s l u e v Hr) as (p & n & w & _ & -> & [Hn _] & _). exact Hn. Qed.

Lemma element_prev s l u e v : ring s l (u ++ e :: v) → prev_of s e = last (l :: u).
Proof.
  intros Hr. destruct (element_cut s l u e v Hr) as (p & n & w & Hc & _). rewrite (proj2 (cu_link _ _ _ _ _ _ _ Hc)).
  rewrite <-(cu_firsts_u _ _ _ _ _ _ _ Hc). by rewrite last_snoc.
Qed.

(** The fields of a node of a ring. *)
Lemma ring_load s l xs x : ring s l xs → x ∈ l :: xs → ∃ e, load s x = Some e ∧ el_next e = next_of s x ∧ el_prev e = prev_of s x
  ∧ el_list e = list_of s x ∧ el_value e = value_of s x.
Proof.
  intros Hr Hx. destruct (ring_present s l xs x Hr Hx) as [e He]. exists e. unfold load, next_of, prev_of, list_of, value_of. by rewrite He.
Qed.

(** The first node behind a position, unless it is the root. *)
Lemma not_root (l : nat) v : l ∉ v → (if decide (head (v ++ [l]) = Some l) then None else head (v ++ [l])) = head v.
Proof. intros Hl. destruct v as [|x v]; cbn; [by rewrite decide_True|]. rewrite decide_False; [done|]. intros [= ->]. set_solver. Qed.

Lemma not_root_last (l : nat) u : l ∉ u → (if decide (last (l :: u) = Some l) then None else last (l :: u)) = last u.
Proof.
  intros Hl. rewrite last_cons. destruct (last u) as [x|] eqn:Eu; [|by rewrite decide_True]. rewrite decide_False; [done|].
  intros [= ->]. apply Hl. apply last_Some in Eu as [k ->]. set_solver.
Qed.

Lemma Next_ring s l u e v : ring s l (u ++ e :: v) → Next e s = Some (head v).
Proof.
  intros Hr. destruct (ring_load s l _ e Hr) as (x & Hx & Hn & _ & Hl & _); [set_solver|]. unfold Next. rewrite Hx. cbn [mbind option_bind].
  rewrite Hl, (rg_list _ _ _ Hr) by set_solver. rewrite Hn, (element_next s l u e v Hr). f_equal. apply not_root.
  pose proof (rg_nodup _ _ _ Hr). apply NoDup_cons in H as [? _]. set_solver.
Qed.

Lemma Prev_ring s l u e v : ring s l (u ++ e :: v) → Prev e s = Some (last u).
Proof.
  intros Hr. destruct (ring_load s l _ e Hr) as (x & Hx & _ & Hp & Hl & _); [set_solver|]. unfold Prev. rewrite Hx. cbn [mbind option_bind].
  rewrite Hl, (rg_list _ _ _ Hr) by set_solver. rewrite Hp, (element_prev s l u e v Hr). f_equal. apply not_root_last.
  pose proof (rg_nodup _ _ _ Hr). apply NoDup_cons in H as [? _]. set_solver.
Qed.

Lemma Front_ring s l xs : ring s l xs → Front l s = Some (head xs).
Proof.
  intros Hr. unfold Front. rewrite (rg_len _ _ _ Hr). cbn [mbind option_bind]. destruct xs as [|x xs]; cbn [length]; [done|].
  destruct (ring_load s l _ l Hr) as (r & -> & Hn & _); [by left|]. cbn. by rewrite Hn, (root_next s l _ Hr).
Qed.

Lemma Back_ring s l xs : ring s l xs → Back l s = Some (last xs).
Proof.
  intros Hr. unfold Back. rewrite (rg_len _ _ _ Hr). cbn [mbind option_bind]. destruct xs as [|x xs]; cbn [length]; [done|].
  destruct (ring_load s l _ l Hr) as (r & -> & _ & Hp & _); [by left|]. cbn [fmap option_fmap option_map]. rewrite Hp, (root_prev s l _ Hr). by rewrite last_cons_cons.
Qed.

Lemma lazyInit_ring s l xs : ring s l xs → lazyInit l s = Some s.
Proof.
  intros Hr. unfold lazyInit. destruct (ring_load s l _ l Hr) as (r & -> & Hn & _); [by left|]. cbn [mbind option_bind].
  rewrite Hn, (root_next s l _ Hr). by destruct xs.
Qed.

(** ** Writing *)

(** No value of an element that was there changes. *)
Definition keeps (s s' : store) : Prop := dom (heap s) ⊆ dom (heap s') ∧ ∀ x, is_Some (heap s !! x) → value_of s' x = value_of s x.

Lemma effect_keeps s s' l t : effect s s' l t → keeps s s'.
Proof. intros He. split; [apply He|]. intros x Hx. by apply He. Qed.

Lemma keeps_trans s1 s2 s3 : keeps s1 s2 → keeps s2 s3 → keeps s1 s3.
Proof.
  intros [D1 V1] [D2 V2]. split; [set_solver|]. intros x Hx. rewrite V2; [by apply V1|]. apply elem_of_dom. apply D1. by apply elem_of_dom.
Qed.

(** A new element between [u] and [v], where [p] is the last node before the gap. *)
Lemma insert_between s m l u v p x : rep s m → m !! l = Some (u ++ v) → last (l :: u) = Some p →
  ∃ e s', insertValue l x p s = Some (e, s') ∧ heap s !! e = None ∧ rep s' (<[l := u ++ e :: v]> m) ∧ value_of s' e = x ∧ keeps s s'.
Proof.
  intros Hrep Hl Hp. pose proof (Hrep l _ Hl) as Hr. pose proof (rg_trail _ _ _ Hr) as Ht. rewrite <-app_assoc in Ht.
  destruct (ring_cut s l u v Ht) as (p' & n & w & Hc).
  assert (p' = p) as ->. { rewrite <-(cu_firsts_u _ _ _ _ _ _ _ Hc) in Hp. rewrite last_snoc in Hp. by simplify_eq. }
  destruct (insertValue_ring s l u v p n w x Hr Hc) as (e & s' & Hi & He & Hr' & Hv & Hef). exists e, s'.
  split; [done|]. split; [done|]. split; [|split; [done|by eapply effect_keeps]]. eapply rep_update; [done|done|by left|done|done].
Qed.

Lemma last_app_cons {A} (a : A) u x : last (a :: u ++ [x]) = Some x.
Proof. rewrite app_comm_cons. apply last_snoc. Qed.

(** Moving [e] behind [p]: also if it is there already. *)
Lemma move_between s m l u e v u' v' p : rep s m → m !! l = Some (u ++ e :: v) → u ++ v = u' ++ v' → last (l :: u') = Some p → e ≠ p →
  ∃ s', move e p s = Some s' ∧ rep s' (<[l := u' ++ e :: v']> m) ∧ keeps s s'.
Proof.
  intros Hrep Hl Huv Hp Hne. destruct (move_ring s l u e v u' v' p (Hrep _ _ Hl) Huv Hp Hne) as (s' & Hm & Hr & Hef).
  exists s'. split; [done|]. split; [|by eapply effect_keeps]. apply (rep_update s s' m l (u ++ e :: v) _ e); [done|done|right; set_solver|done|done].
Qed.

Lemma keeps_refl s : keeps s s.
Proof. by split. Qed.

(** The element before [mark], when [mark] stands behind [u'] in the list without [e]. *)
Lemma prev_of_mark s l u e v u' mark v' : ring s l (u ++ e :: v) → u ++ v = u' ++ mark :: v' → e ∉ u → e ∉ v → l ∉ u ++ e :: v →
  (u = u' ∧ v = mark :: v' ∧ prev_of s mark = Some e) ∨ (prev_of s mark = last (l :: u') ∧ prev_of s mark ≠ Some e).
Proof.
  intros Hr Hsplit Heu Hev Hlx.
  apply app_eq_inv in Hsplit as [(k & -> & Hk)|(k & -> & ->)].
  - destruct k as [|z k]; cbn [app] in Hk; [subst v|injection Hk as <- ->].
    + left. rewrite app_nil_r. split; [done|]. split; [done|]. rewrite app_nil_r in *. rewrite (element_prev s l (u' ++ [e]) mark v') by (by rewrite <-app_assoc).
      apply last_app_cons.
    + right. assert (prev_of s mark = last (l :: u')) as Hq by (apply (element_prev s l u' mark (k ++ e :: v)); by rewrite <-app_assoc in Hr).
      split; [done|]. rewrite Hq. intros El. apply last_Some in El as [k0 Hk0]. assert (e ∈ l :: u') by (rewrite Hk0; set_solver). set_solver.
  - assert (prev_of s mark = last (l :: u ++ e :: k)) as Hq by (apply (element_prev s l (u ++ e :: k) mark v'); by rewrite <-app_assoc).
    destruct k as [|z k]; [left; rewrite app_nil_r; split; [done|]; split; [done|]; rewrite Hq; apply last_app_cons|right].
    rewrite Hq. assert (last (l :: u ++ e :: z :: k) = last (l :: u ++ z :: k)) as Hll.
    { rewrite !app_comm_cons, !last_app, last_cons_cons. by destruct (last (z :: k)) eqn:E; [|apply last_None in E]. }
    rewrite Hll. split; [done|]. intros El. rewrite app_comm_cons, last_app in El. destruct (last (z :: k)) eqn:E; [|by apply last_None in E]. simplify_eq.
    apply last_Some in E as [k0 Hk0]. apply Hev. rewrite Hk0. set_solver.
Qed.

(** reading.  The length, the ends and the neighbours the code computes from
    its pointers are those of the sequence of elements. *)
Theorem list_reads s m l xs : rep s m → m !! l = Some xs →
  Len l s = Some (length xs) ∧ Front l s = Some (head xs) ∧ Back l s = Some (last xs)
  ∧ ∀ u e v, xs = u ++ e :: v → Next e s = Some (head v) ∧ Prev e s = Some (last u).
Proof.
  intros Hrep Hl. pose proof (Hrep l xs Hl) as Hr. split; [apply Hr|]. split; [by apply Front_ring|]. split; [by apply Back_ring|].
  intros u e v ->. split; [by eapply Next_ring|by eapply Prev_ring].
Qed.

(** C12: adding and removing.  [New] makes an empty list; the four insertions put
    a new element with the value at the front, at the back, before or behind an
    element of the list; [Remove] takes an element out and returns its value; an
    element of another list is refused and nothing changes.  No other list
    changes, and no value. *)
Theorem list_edits s m l xs (v : option V) : rep s m → m !! l = Some xs →
  (∀ l' s', New s = (l', s') → heap s !! l' = None ∧ rep s' (<[l' := []]> m))
  ∧ (∃ e s', PushFront l v s = Some (e, s') ∧ heap s !! e = None ∧ rep s' (<[l := e :: xs]> m) ∧ value_of s' e = v ∧ keeps s s')
  ∧ (∃ e s', PushBack l v s = Some (e, s') ∧ heap s !! e = None ∧ rep s' (<[l := xs ++ [e]]> m) ∧ value_of s' e = v ∧ keeps s s')
  ∧ (∀ a mark b, xs = a ++ mark :: b →
       (∃ e s', InsertBefore l v mark s = Some (Some e, s') ∧ heap s !! e = None ∧ rep s' (<[l := a ++ e :: mark :: b]> m) ∧ value_of s' e = v ∧ keeps s s')
     ∧ (∃ e s', InsertAfter l v mark s = Some (Some e, s') ∧ heap s !! e = None ∧ rep s' (<[l := a ++ mark :: e :: b]> m) ∧ value_of s' e = v ∧ keeps s s')
     ∧ (∃ s', Remove l mark s = Some (value_of s mark, s') ∧ rep s' (<[l := a ++ b]> m) ∧ keeps s s'))
  ∧ (∀ mark, is_Some (heap s !! mark) → list_of s mark ≠ Some l →
       InsertBefore l v mark s = Some (None, s) ∧ InsertAfter l v mark s = Some (None, s) ∧ Remove l mark s = Some (value_of s mark, s)).
Proof.
  intros Hrep Hl. pose proof (Hrep l xs Hl) as Hr. split_and!.
  - unfold New. intros l' s' [= <- <-]. set (l' := fresh (dom (heap s))) in *. assert (heap s !! l' = None) as Hf by (apply not_elem_of_dom, is_fresh).
    split; [done|]. intros k ys. rewrite lookup_insert_Some. intros [[<- <-]|[Hne Hk]].
    + split; [|apply NoDup_singleton|intros x Hx; by apply elem_of_nil in Hx| |]; cbn [app trail].
      * split; [|done]. split; unfold next_of, prev_of, Init; cbn [heap]; by rewrite lookup_insert_eq.
      * unfold list_of, Init. cbn [heap]. by rewrite lookup_insert_eq.
      * unfold Init. cbn [lens]. by rewrite lookup_insert_eq.
    + eapply (ring_frame s _ k ys l' [l']); [by apply Hrep| |done|].
      * split; try (intros x Hx; unfold next_of, prev_of, list_of, Init; cbn [heap]; rewrite lookup_insert_ne by set_solver; done).
        -- intros x Hx. unfold Init. cbn [lens]. by rewrite lookup_insert_ne.
        -- intros x [y Hx]. unfold value_of, Init. cbn [heap]. rewrite lookup_insert_ne by congruence. done.
        -- unfold Init. cbn [heap]. rewrite dom_insert_L. set_solver.
      * intros x Hx Hin. apply list_elem_of_singleton in Hin as ->. destruct (ring_present s k ys l' (Hrep _ _ Hk) Hx). congruence.
  - unfold PushFront. rewrite (lazyInit_ring s l xs Hr). cbn [mbind option_bind]. by apply (insert_between s m l [] xs l v).
  - unfold PushBack. rewrite (lazyInit_ring s l xs Hr). cbn [mbind option_bind]. destruct (ring_load s l xs l Hr) as (r & -> & _ & Hp & _); [by left|]. cbn [mbind option_bind].
    rewrite Hp, (root_prev s l xs Hr). destruct (last (l :: xs)) as [b|] eqn:Eb; [|by apply last_None in Eb]. cbn [mbind option_bind].
    apply (insert_between s m l xs [] b v); [done|by rewrite app_nil_r|done].
  - intros a mark b ->. assert (mark ∈ l :: a ++ mark :: b) as Hin by set_solver. destruct (ring_load s l _ mark Hr Hin) as (x & Hx & _ & Hp & Hli & Hv).
    rewrite (rg_list _ _ _ Hr) in Hli by set_solver. split_and!.
    + unfold InsertBefore. rewrite Hx. cbn [mbind option_bind]. rewrite decide_True by done. rewrite Hp, (element_prev s l a mark b Hr).
      destruct (last (l :: a)) as [p|] eqn:Ep; [|by apply last_None in Ep]. cbn [mbind option_bind].
      destruct (insert_between s m l a (mark :: b) p v Hrep Hl Ep) as (e & s' & -> & ?). by exists e, s'.
    + unfold InsertAfter. rewrite Hx. cbn [mbind option_bind]. rewrite decide_True by done.
      destruct (insert_between s m l (a ++ [mark]) b mark v) as (e & s' & -> & He & Hrep' & ?); [done|by rewrite <-app_assoc|apply last_app_cons|].
      exists e, s'. cbn [mbind option_bind fst snd]. rewrite <-app_assoc in Hrep'. done.
    + unfold Remove. rewrite Hx. cbn [mbind option_bind]. rewrite decide_True by done. destruct (remove_ring s l a mark b Hr) as (s' & -> & Hr' & _ & Hef & Hdom). cbn [mbind option_bind].
      assert (is_Some (heap s' !! mark)) as [y Hy] by (apply elem_of_dom; rewrite Hdom; apply elem_of_dom; by eapply ring_present).
      exists s'. unfold load. rewrite Hy. cbn [mbind option_bind]. split; [|split; [|by eapply effect_keeps]].
      * do 2 f_equal. rewrite <-(ef_value _ _ _ _ Hef mark) by (by eapply ring_present). unfold value_of. by rewrite Hy.
      * apply (rep_update s s' m l (a ++ mark :: b) _ mark); [done|done|by right|done|done].
  - intros mark [x Hx] Hn. assert (el_list x ≠ Some l) as Hnx by (unfold list_of in Hn; by rewrite Hx in Hn).
    unfold InsertBefore, InsertAfter, Remove, load. rewrite Hx. cbn [mbind option_bind]. rewrite !decide_False by done. cbn [mbind option_bind]. rewrite Hx. cbn [mbind option_bind].
    unfold value_of. rewrite Hx. done.
Qed.

(** moving.  An element that is moved to the front, to the back, before or
    behind another element of the list is there afterwards and nowhere else, the
    others keep their order, and it is no different if it was there already. *)
Theorem list_moves s m l u e v : rep s m → m !! l = Some (u ++ e :: v) →
  (∃ s', MoveToFront l e s = Some s' ∧ rep s' (<[l := e :: u ++ v]> m) ∧ keeps s s')
  ∧ (∃ s', MoveToBack l e s = Some s' ∧ rep s' (<[l := u ++ v ++ [e]]> m) ∧ keeps s s')
  ∧ (∀ u' mark v', u ++ v = u' ++ mark :: v' →
       (∃ s', MoveBefore l e mark s = Some s' ∧ rep s' (<[l := u' ++ e :: mark :: v']> m) ∧ keeps s s')
     ∧ (∃ s', MoveAfter l e mark s = Some s' ∧ rep s' (<[l := u' ++ mark :: e :: v']> m) ∧ keeps s s')).
Proof.
  intros Hrep Hl. pose proof (Hrep l _ Hl) as Hr. pose proof (rg_nodup _ _ _ Hr) as Hnd. apply NoDup_cons in Hnd as [Hlx Hnd].
  apply NoDup_app in Hnd as (Hndu & Huv & [Hev Hndv]%NoDup_cons).
  destruct (ring_load s l _ e Hr) as (x & Hx & _ & _ & Hli & _); [set_solver|]. rewrite (rg_list _ _ _ Hr) in Hli by set_solver.
  destruct (ring_load s l _ l Hr) as (r & Hr0 & Hrn & Hrp & _); [by left|]. rewrite (root_next s l _ Hr) in Hrn. rewrite (root_prev s l _ Hr) in Hrp.
  split_and!.
  - unfold MoveToFront. rewrite Hx, Hr0. cbn [mbind option_bind]. case_decide as Ed.
    + destruct Ed as [?|Ed]; [done|]. exists s. split; [done|]. split; [|apply keeps_refl]. rewrite Hrn in Ed. destruct u as [|y u]; cbn in Ed; simplify_eq; [|set_solver]. cbn [app] in *.
      by rewrite insert_id.
    + apply (move_between s m l u e v [] (u ++ v) l Hrep Hl); [done|done|set_solver].
  - unfold MoveToBack. rewrite Hx, Hr0. cbn [mbind option_bind]. rewrite Hrp. destruct (last (l :: u ++ e :: v)) as [b|] eqn:Eb; [|by apply last_None in Eb].
    case_decide as Ed.
    + destruct Ed as [?|[= ->]]; [done|]. exists s. split; [done|]. split; [|apply keeps_refl].
      assert (v = []) as ->. { destruct v as [|y v]; [done|]. exfalso. apply Hev. apply last_Some in Eb as [k Hk]. rewrite app_comm_cons in Hk.
        destruct (exists_last (l := y :: v)) as (v0 & z & Hz); [done|]. rewrite Hz in Hk. rewrite (app_comm_cons v0 [z] e), app_assoc in Hk. apply app_inj_tail in Hk as [_ ->]. rewrite Hz. set_solver. }
      cbn [app]. by rewrite insert_id.
    + cbn [mbind option_bind]. assert (e ≠ b) as Hne by (intros ->; by apply Ed; right).
      destruct (move_between s m l u e v (u ++ v) [] b Hrep Hl) as (s' & -> & Hrep' & ?); [by rewrite app_nil_r| |done|].
      * destruct v as [|y v]; [rewrite app_comm_cons, last_snoc in Eb; simplify_eq|]. rewrite app_comm_cons, last_app in Eb |- *.
        rewrite last_cons_cons in Eb. destruct (last (y :: v)) eqn:El; [done|]. by apply last_None in El.
      * exists s'. rewrite <-app_assoc in Hrep'. done.
  - intros u' mark v' Hsplit. assert (mark ∈ u ++ v) as Hm by (rewrite Hsplit; set_solver). assert (e ≠ mark) as Hem by set_solver.
    assert (mark ∈ l :: u ++ e :: v) as Hmin by set_solver. destruct (ring_load s l _ mark Hr Hmin) as (y & Hy & _ & Hyp & Hyl & _).
    rewrite (rg_list _ _ _ Hr) in Hyl by set_solver. split.
    + unfold MoveBefore. rewrite Hx, Hy. cbn [mbind option_bind]. rewrite decide_False by (intros [?|[?|?]]; done). rewrite Hyp.
      destruct (prev_of_mark s l u e v u' mark v' Hr Hsplit) as [(-> & -> & ->)|[Hpm Hpe]]; [set_solver..| |].
      * cbn [mbind option_bind]. exists s. unfold move. rewrite decide_True by done. split; [done|]. split; [|apply keeps_refl]. by rewrite insert_id.
      * destruct (prev_of s mark) as [p|] eqn:Ep; [|by symmetry in Hpm; apply last_None in Hpm]. cbn [mbind option_bind].
        apply (move_between s m l u e v u' (mark :: v') p Hrep Hl); [done|done|congruence].
    + unfold MoveAfter. rewrite Hx, Hy. cbn [mbind option_bind]. rewrite decide_False by (intros [?|[?|?]]; done).
      destruct (move_between s m l u e v (u' ++ [mark]) v' mark Hrep Hl) as (s' & -> & Hrep' & ?); [by rewrite <-app_assoc|apply last_app_cons|done|].
      exists s'. by rewrite <-app_assoc in Hrep'.
Qed.

(** ** Copying *)

Lemma values_kept s s' (xs : list nat) : keeps s s' → (∀ x, x ∈ xs → is_Some (heap s !! x)) → value_of s' <$> xs = value_of s <$> xs.
Proof. intros [_ Hk] Hx. apply list_fmap_ext. intros i x Hi. apply Hk, Hx. by eapply list_elem_of_lookup_2. Qed.

(** The source list after an insertion into [l], which may be the same list: [f]
    grows by elements at the end that is not read any more. *)
Lemma other_after (m : gmap nat (list nat)) (l other : nat) (xs xs' ys : list nat) : m !! l = Some xs → m !! other = Some ys →
  <[l := xs']> m !! other = Some (if decide (other = l) then xs' else ys).
Proof. intros _ Hy. case_decide as E; [subst; apply lookup_insert_eq|by rewrite lookup_insert_ne]. Qed.

Lemma push_back_loop_copies l other : ∀ rest before extra s m xs, rep s m → m !! l = Some xs → m !! other = Some (before ++ rest ++ extra) →
  ∃ s' (news : list nat), push_back_loop l (length rest) (head (rest ++ extra)) s = Some s' ∧ rep s' (<[l := xs ++ news]> m)
    ∧ value_of s' <$> news = value_of s <$> rest ∧ keeps s s'.
Proof.
  induction rest as [|p rest IH]; intros before extra s m xs Hrep Hl Ho.
  { exists s, []. rewrite app_nil_r, insert_id by done. split; [done|]. split; [done|]. split; [done|apply keeps_refl]. }
  pose proof (Hrep _ _ Hl) as Hr. pose proof (Hrep _ _ Ho) as Hro. cbn [length app head push_back_loop mbind option_bind].
  destruct (ring_load s other _ p Hro) as (x & -> & _ & _ & _ & Hv); [set_solver|]. cbn [mbind option_bind].
  destruct (ring_load s l xs l Hr) as (r & -> & _ & Hp & _); [by left|]. cbn [mbind option_bind].
  rewrite Hp, (root_prev s l xs Hr). destruct (last (l :: xs)) as [b|] eqn:Eb; [|by apply last_None in Eb]. cbn [mbind option_bind].
  destruct (insert_between s m l xs [] b (el_value x) Hrep) as (e & s1 & -> & He & Hrep1 & Hve & Hk1); [by rewrite app_nil_r|done|]. cbn [mbind option_bind fst snd].
  assert (∃ extra', <[l := xs ++ [e]]> m !! other = Some (before ++ p :: rest ++ extra')) as [extra' Ho'].
  { rewrite (other_after m l other xs (xs ++ [e]) _ Hl Ho). case_decide as E; [|by exists extra]. subst other. rewrite Hl in Ho. injection Ho as ->.
    exists (extra ++ [e]). cbn [app]. by rewrite <-!app_assoc, <-app_comm_cons, <-app_assoc. }
  rewrite (Next_ring s1 other before p (rest ++ extra')) by (by apply Hrep1). cbn [mbind option_bind].
  destruct (IH (before ++ [p]) extra' s1 (<[l := xs ++ [e]]> m) (xs ++ [e])) as (s2 & news & -> & Hrep2 & Hvals & Hk2);
    [done|by rewrite lookup_insert_eq|by rewrite <-app_assoc|].
  exists s2, (e :: news). rewrite insert_insert_eq, <-app_assoc in Hrep2. split; [done|]. split; [done|]. split; [|by eapply keeps_trans].
  rewrite !fmap_cons, Hvals. f_equal.
  - rewrite <-Hv, <-Hve. apply Hk2. eapply ring_present; [apply Hrep1; by rewrite lookup_insert_eq|set_solver].
  - apply values_kept; [done|]. intros y Hy. eapply ring_present; [exact Hro|set_solver].
Qed.

Lemma push_front_loop_copies l other : ∀ rest after extra s m xs, rep s m → m !! l = Some xs → m !! other = Some (extra ++ rest ++ after) →
  ∃ s' (news : list nat), push_front_loop l (length rest) (last (extra ++ rest)) s = Some s' ∧ rep s' (<[l := news ++ xs]> m)
    ∧ value_of s' <$> news = value_of s <$> rest ∧ keeps s s'.
Proof.
  induction rest as [|p rest IH] using rev_ind; intros after extra s m xs Hrep Hl Ho.
  { exists s, []. cbn [app]. rewrite insert_id by done. split; [done|]. split; [done|]. split; [done|apply keeps_refl]. }
  pose proof (Hrep _ _ Hl) as Hr. pose proof (Hrep _ _ Ho) as Hro. rewrite length_app, Nat.add_1_r, app_assoc, last_snoc. cbn [push_front_loop mbind option_bind].
  destruct (ring_load s other _ p Hro) as (x & -> & _ & _ & _ & Hv); [set_solver|]. cbn [mbind option_bind].
  destruct (insert_between s m l [] xs l (el_value x) Hrep Hl) as (e & s1 & -> & He & Hrep1 & Hve & Hk1); [done|]. cbn [mbind option_bind fst snd app] in *.
  assert (∃ extra', <[l := e :: xs]> m !! other = Some ((extra' ++ rest) ++ p :: after)) as [extra' Ho'].
  { rewrite (other_after m l other xs (e :: xs) _ Hl Ho). case_decide as E.
    - subst other. rewrite Hl in Ho. injection Ho as ->. exists (e :: extra). cbn [app]. by rewrite <-!app_assoc.
    - exists extra. by rewrite <-!app_assoc. }
  rewrite (Prev_ring s1 other (extra' ++ rest) p after) by (by apply Hrep1). cbn [mbind option_bind].
  destruct (IH (p :: after) extra' s1 (<[l := e :: xs]> m) (e :: xs)) as (s2 & news & -> & Hrep2 & Hvals & Hk2);
    [done|by rewrite lookup_insert_eq|by rewrite app_assoc|].
  exists s2, (news ++ [e]). rewrite insert_insert_eq in Hrep2. split; [done|]. split; [by rewrite <-app_assoc|]. split; [|by eapply keeps_trans].
  rewrite !fmap_app, Hvals. f_equal.
  - apply values_kept; [done|]. intros y Hy. eapply ring_present; [exact Hro|set_solver].
  - cbn [fmap list_fmap]. f_equal. rewrite <-Hv, <-Hve. apply Hk2. eapply ring_present; [apply Hrep1; by rewrite lookup_insert_eq|set_solver].
Qed.

(** copying a list.  [PushBackList] and [PushFrontList] end, do not panic, and
    add new elements with the values the other list had at the call, in its order,
    at the end or at the start; the two lists may be the same. *)
Theorem list_copies s m l other xs ys : rep s m → m !! l = Some xs → m !! other = Some ys →
  (∃ s' (news : list nat), PushBackList l other s = Some s' ∧ rep s' (<[l := xs ++ news]> m) ∧ value_of s' <$> news = value_of s <$> ys ∧ keeps s s')
  ∧ (∃ s' (news : list nat), PushFrontList l other s = Some s' ∧ rep s' (<[l := news ++ xs]> m) ∧ value_of s' <$> news = value_of s <$> ys ∧ keeps s s').
Proof.
  intros Hrep Hl Ho. pose proof (Hrep _ _ Hl) as Hr. pose proof (Hrep _ _ Ho) as Hro. unfold PushBackList, PushFrontList, Len.
  rewrite (lazyInit_ring s l xs Hr). cbn [mbind option_bind]. rewrite (rg_len _ _ _ Hro). cbn [mbind option_bind].
  rewrite (Front_ring s other ys Hro), (Back_ring s other ys Hro). cbn [mbind option_bind]. split.
  - destruct (push_back_loop_copies l other ys [] [] s m xs Hrep Hl) as (s' & news & Hp & ?); [by rewrite app_nil_r|]. rewrite app_nil_r in Hp. by exists s', news.
  - destruct (push_front_loop_copies l other ys [] [] s m xs Hrep Hl) as (s' & news & Hp & ?); [by rewrite app_nil_r|]. by exists s', news.
Qed.
End list.

(** Two lists: 10 and 20 in the first, 30 in the second. *)
Definition sample : option (nat * nat * store (V := nat)) :=
  let (l, s) := New (mkStore ∅ ∅) in
  r ← PushBack l (Some 10) s; r ← PushBack l (Some 20) r.2;
  let (l', s') := New r.2 in r ← PushFront l' (Some 30) s'; Some (l, l', r.2).

Definition sample_store : store (V := nat) := from_option snd (mkStore ∅ ∅) sample.
Definition sample_lists : gmap nat (list nat) := <[0 := [1; 2]]> (<[3 := [4]]> ∅).

Lemma sample_rep : rep sample_store sample_lists.
Proof.
  intros l xs. unfold sample_lists. rewrite !lookup_insert_Some, lookup_empty.
  intros [[<- <-]|[_ [[<- <-]|[_ ?]]]]; [| |done].
  all: split; [repeat split; vm_compute; reflexivity|apply (bool_decide_eq_true_1 _); vm_compute; reflexivity| |vm_compute; reflexivity..].
  all: apply Forall_forall; repeat constructor; vm_compute; reflexivity.
Qed.

Lemma list_reads_witness : Front 0 sample_store = Some (Some 1) ∧ Next 1 sample_store = Some (Some 2) ∧ Prev 1 sample_store = Some None.
Proof.
  destruct (list_reads sample_store sample_lists 0 [1; 2] sample_rep) as (_ & Hf & _ & Hn); [vm_compute; reflexivity|].
  destruct (Hn [] 1 [2] eq_refl) as [H1 H2]. exact (conj Hf (conj H1 H2)).
Defined.

Lemma list_edits_witness : ∃ s', Remove 0 1 sample_store = Some (Some 10, s') ∧ rep s' (<[0 := [2]]> sample_lists).
Proof.
  destruct (list_edits sample_store sample_lists 0 [1; 2] (Some 7) sample_rep) as (_ & _ & _ & He & _); [vm_compute; reflexivity|].
  destruct (He [] 1 [2] eq_refl) as (_ & _ & s' & Hr & Hrep & _). exists s'. exact (conj Hr Hrep).
Defined.

Lemma list_moves_witness : ∃ s', MoveToFront 0 2 sample_store = Some s' ∧ rep s' (<[0 := [2; 1]]> sample_lists).
Proof.
  destruct (list_moves sample_store sample_lists 0 [1] 2 [] sample_rep) as ((s' & Hm & Hrep & _) & _); [vm_compute; reflexivity|].
  exists s'. exact (conj Hm Hrep).
Defined.

Lemma list_copies_witness : ∃ s' a b, PushBackList 0 0 sample_store = Some s' ∧ rep s' (<[0 := [1; 2; a; b]]> sample_lists)
  ∧ value_of s' a = Some 10 ∧ value_of s' b = Some 20.
Proof.
  destruct (list_copies sample_store sample_lists 0 0 [1; 2] [1; 2] sample_rep) as ((s' & news & Hp & Hrep & Hv & _) & _); [vm_compute; reflexivity..|].
  destruct news as [|a [|b [|c news]]]; try (apply (f_equal length) in Hv; rewrite !length_fmap in Hv; discriminate Hv).
  assert (value_of sample_store <$> [1; 2] = [Some 10; Some 20]) as E by (vm_compute; reflexivity). rewrite E, !fmap_cons in Hv.
  exists s', a, b. split; [exact Hp|]. split; [exact Hrep|]. injection Hv as Ha Hb. exact (conj Ha Hb).
Defined.
