(* ===== verification/SoftTtl.v ===== *)
(** * The soft expiry: calculateSoftTTL and shouldTriggerFuzzyRefresh

    The two computations of caching_revalidate.go that use float64.  A float64 is a
    [spec_float] of the Standard Library with the precision and exponent of
    binary64; multiplication, division, conversion and comparison are the
    operations of IEEE 754 that the language prescribes.

    Proved: the soft expiry lies between the time of the response and the expiry,
    with the default rate in place of one out of range; a rate of 1 gives the
    expiry itself; a refresh is triggered only strictly inside the window. *)

From Stdlib Require Import SpecFloat.
From S2P Require Import Prelude.

Local Open Scope Z_scope.

(** ** float64 *)

Notation prec64 := 53.
Notation emax64 := 1024.

Definition float_of_int (z : Z) : spec_float := binary_normalize prec64 emax64 z 0 false.
Definition fmul : spec_float → spec_float → spec_float := SFmul prec64 emax64.
Definition fdiv : spec_float → spec_float → spec_float := SFdiv prec64 emax64.

(** [int64(f)]: truncation; [None] where the language leaves the value to the
    implementation. *)
Definition int_of_float (f : spec_float) : option Z :=
  match f with
  | S754_zero _ => Some 0
  | S754_finite s m e =>
      let a := if 0 <=? e then Z.pos m * 2 ^ e else Z.pos m / 2 ^ (- e) in
      let z := if s then - a else a in
      if (- 2 ^ 63 <=? z) && (z <? 2 ^ 63) then Some z else None
  | _ => None
  end.

Definition f_zero : spec_float := S754_zero false.
Definition f_one : spec_float := S754_finite false 4503599627370496 (-52).
(** The constant 0.8. *)
Definition f_08 : spec_float := S754_finite false 7205759403792794 (-53).

(** ** The code *)

Definition calculateSoftTTL (respUnix expiresAt : Z) (fuzzyRate : spec_float) : option Z :=
  let hardTTL := i64 (expiresAt - respUnix) in
  if hardTTL <=? 0 then Some expiresAt
  else
    let fuzzyRate := if SFleb fuzzyRate f_zero || SFltb f_one fuzzyRate then f_08 else fuzzyRate in
    softTTL ← int_of_float (fmul (float_of_int hardTTL) fuzzyRate);
    Some (i64 (respUnix + softTTL)).

(** [draw] is [rand.Float64()]. *)
Definition shouldTriggerFuzzyRefresh (now softTTL hardTTL : Z) (draw : spec_float) : bool :=
  if now <? softTTL then false
  else if now >=? hardTTL then false
  else
    let totalWindow := float_of_int (i64 (hardTTL - softTTL)) in
    if SFleb totalWindow f_zero then false
    else
      let elapsed := float_of_int (i64 (now - softTTL)) in
      SFltb draw (fdiv elapsed totalWindow).

(** ** Digits *)

Lemma digits_spec p : 2 ^ (Z.pos (digits2_pos p) - 1) <= Z.pos p < 2 ^ Z.pos (digits2_pos p).
Proof.
  induction p as [p IH|p IH|]; cbn [digits2_pos]; [| |done].
  all: rewrite Pos2Z.inj_succ; set (d := Z.pos (digits2_pos p)) in *; assert (1 <= d) by lia.
  all: replace (Z.succ d - 1) with (Z.succ (d - 1)) by lia; rewrite !Z.pow_succ_r by lia; lia.
Qed.

Lemma digits_le p k : 0 <= k → Z.pos p < 2 ^ k → Z.pos (digits2_pos p) <= k.
Proof.
  intros Hk Hp. destruct (digits_spec p) as [Hl _]. destruct (Z.le_gt_cases (Z.pos (digits2_pos p)) k) as [|Hd]; [done|].
  assert (2 ^ k <= 2 ^ (Z.pos (digits2_pos p) - 1)) by (apply Z.pow_le_mono_r; lia). lia.
Qed.

Lemma Zdigits_le m k : 0 <= k → 0 <= m < 2 ^ k → Zdigits2 m <= k.
Proof. intros Hk [H0 Hm]. destruct m as [|p|p]; cbn [Zdigits2]; [done|by apply digits_le|lia]. Qed.

(** ** Shifts *)

Lemma iter_pos_nat {A} (f : A → A) p x : SpecFloat.iter_pos f p x = Nat.iter (Pos.to_nat p) f x.
Proof.
  revert x. induction p as [p IH|p IH|]; intros x; cbn [SpecFloat.iter_pos]; [| |done].
  - rewrite !IH, Pos2Nat.inj_xI. rewrite <-Nat.iter_add, Nat.iter_succ_r. f_equal. lia.
  - rewrite !IH, Pos2Nat.inj_xO. rewrite <-Nat.iter_add. f_equal. lia.
Qed.

(** [n] bits are shifted out of [m]; the two flags are clear if and only if they
    were all zero. *)
Definition flags (r : shr_record) : bool := shr_r r || shr_s r.
Definition shifted (m n : Z) (r : shr_record) : Prop := shr_m r = m / 2 ^ n ∧ (flags r = false ↔ m = m / 2 ^ n * 2 ^ n).

Lemma shr_1_m r : 0 <= shr_m r → shr_m (shr_1 r) = shr_m r / 2 ∧ (flags (shr_1 r) = false ↔ shr_m r = shr_m r / 2 * 2 ∧ flags r = false).
Proof.
  destruct r as [m b s]. unfold flags. cbn [shr_m shr_r shr_s]. intros Hm. destruct m as [|p|p]; [|destruct p as [p|p|]|lia]; cbn [shr_1 shr_m shr_r shr_s orb].
  - split; [done|]. tauto.
  - rewrite (Pos2Z.inj_xI p). assert ((2 * Z.pos p + 1) / 2 = Z.pos p) as -> by (symmetry; apply Z.div_unique with 1; lia). split; [done|]. split; [done|]. intros [? _]. lia.
  - rewrite (Pos2Z.inj_xO p). assert ((2 * Z.pos p) / 2 = Z.pos p) as -> by (symmetry; apply Z.div_unique with 0; lia). split; [done|]. split; [|tauto]. intros ->. split; [lia|done].
  - split; [done|]. split; [done|]. by intros [? _].
Qed.

Lemma shr_iter m n : 0 <= m → shifted m (Z.of_nat n) (Nat.iter n shr_1 (Build_shr_record m false false)).
Proof.
  intros Hm. induction n as [|n [IH1 IH2]].
  - split; cbn [Nat.iter nat_rect shr_m]; rewrite Z.pow_0_r, Z.div_1_r; [done|]. split; [intros _; lia|done].
  - rewrite Nat.iter_succ. set (r := Nat.iter n shr_1 _) in *.
    assert (0 <= shr_m r) as Hr by (rewrite IH1; apply Z.div_pos; lia). destruct (shr_1_m r Hr) as [H1 H2].
    rewrite Nat2Z.inj_succ. unfold shifted. rewrite Z.pow_succ_r by lia. rewrite (Z.mul_comm 2), <-Z.div_div by lia. rewrite <-IH1 in *. split; [done|].
    rewrite H2, IH2. pose proof (Z.mul_div_le m (2 ^ Z.of_nat n)). rewrite <-IH1 in *.
    assert (0 < 2 ^ Z.of_nat n) by (apply Z.pow_pos_nonneg; lia). set (k := 2 ^ Z.of_nat n) in *. split; [intros [? ?]; nia|].
    intros He. assert (shr_m r / 2 * 2 <= shr_m r) by (pose proof (Z.mul_div_le (shr_m r) 2); lia). nia.
Qed.

(** ** Rounding down to a representable bound *)

(** [m * 2 ^ e] is at most the integer [h]. *)
Definition below (h m e : Z) : Prop := 0 <= m ∧ e <= 0 ∧ m <= h * 2 ^ (- e).

Lemma below_digits h m e : 0 <= h < 2 ^ 53 → below h m e → Zdigits2 m + e <= 53.
Proof.
  intros Hh (Hm & He & Hb). enough (Zdigits2 m <= 53 - e) by lia. apply Zdigits_le; [lia|]. split; [done|].
  replace (53 - e) with (53 + - e) by lia. rewrite Z.pow_add_r by lia. assert (0 < 2 ^ (- e)) by (apply Z.pow_pos_nonneg; lia). nia.
Qed.

(** One shift with rounding in either direction keeps the bound, and the value if
    it is the bound. *)
Lemma shift_below h m e r e' : 0 <= h < 2 ^ 53 → below h m e → shr_fexp prec64 emax64 m e loc_Exact = (r, e') →
  below h (shr_m r) e' ∧ below h (round_nearest_even (shr_m r) (loc_of_shr_record r)) e'
  ∧ (m = h * 2 ^ (- e) → shr_m r = h * 2 ^ (- e') ∧ round_nearest_even (shr_m r) (loc_of_shr_record r) = h * 2 ^ (- e')).
Proof.
  intros Hh Hb. pose proof (below_digits h m e Hh Hb) as Hd. destruct Hb as (Hm & He & Hle). unfold shr_fexp, shr, shr_record_of_loc.
  assert (fexp prec64 emax64 (Zdigits2 m + e) <= 0) as Hf by (unfold fexp, emin; lia).
  assert (∀ r, flags r = false → loc_of_shr_record r = loc_Exact) as Hexact by (by intros [? [] []]).
  assert (∀ r, round_nearest_even (shr_m r) (loc_of_shr_record r) = shr_m r ∨ round_nearest_even (shr_m r) (loc_of_shr_record r) = shr_m r + 1 ∧ flags r = true) as Hround.
  { intros [x [] []]; cbn; auto. destruct (Z.even x); auto. }
  set (n := fexp prec64 emax64 (Zdigits2 m + e) - e) in *.
  destruct n as [|p|p] eqn:En; intros [= <- <-]; [|clear Hexact|].
  2: { rewrite iter_pos_nat. destruct (shr_iter m (Pos.to_nat p) Hm) as [H1 H2]. set (r := Nat.iter _ _ _) in *. rewrite positive_nat_Z in H1, H2.
    assert (0 < 2 ^ Z.pos p) by (apply Z.pow_pos_nonneg; lia).
    assert (2 ^ (- e) = 2 ^ (- (e + Z.pos p)) * 2 ^ Z.pos p) as Hpow by (rewrite <-Z.pow_add_r by lia; f_equal; lia).
    rewrite Hpow in *. set (k := 2 ^ (- (e + Z.pos p))) in *. set (d := 2 ^ Z.pos p) in *. assert (0 <= shr_m r) by (rewrite H1; apply Z.div_pos; lia).
    assert (shr_m r <= h * k) as Hq by (rewrite H1; apply Z.div_le_upper_bound; nia).
    split; [split; [done|]; split; [lia|done]|]. split.
    - split; [destruct (Hround r) as [-> |[-> _]]; lia|]. split; [lia|]. destruct (Hround r) as [-> |[-> Hfl]]; [done|].
      destruct (Z.eq_dec (shr_m r) (h * k)) as [Eq|]; [|lia]. assert (flags r = false); [|congruence]. apply H2. rewrite <-H1.
      pose proof (Z.mul_div_le m d). rewrite <-H1 in *. nia.
    - intros ->. assert (shr_m r = h * k) as Eq by (rewrite H1, Z.mul_assoc; by rewrite Z.div_mul by lia). split; [done|].
      destruct (Hround r) as [-> |[_ Hfl]]; [done|]. assert (flags r = false); [|congruence]. apply H2. rewrite Z.mul_assoc, Z.div_mul by lia. done. }
  all: cbn [shr_m loc_of_shr_record round_nearest_even]; split; [done|split; [done|]]; intros ->; done.
Qed.

(** The rounded product of two numbers whose exact product is at most [h]. *)
Lemma round_below h m e : 0 <= h < 2 ^ 53 → below h m e → ∃ q, int_of_float (binary_round_aux prec64 emax64 false m e loc_Exact) = Some q
  ∧ 0 <= q <= h ∧ (m = h * 2 ^ (- e) → q = h).
Proof.
  intros Hh Hb. unfold binary_round_aux. destruct (shr_fexp prec64 emax64 m e loc_Exact) as [r1 e1] eqn:E1.
  destruct (shift_below h m e r1 e1 Hh Hb E1) as (_ & Hb1 & Hx1). set (m1 := round_nearest_even _ _) in *.
  destruct (shr_fexp prec64 emax64 m1 e1 loc_Exact) as [r2 e2] eqn:E2. destruct (shift_below h m1 e1 r2 e2 Hh Hb1 E2) as ((Hm2 & He2 & Hb2) & _ & Hx2).
  assert (0 < 2 ^ (- e2)) as Hp by (apply Z.pow_pos_nonneg; lia).
  destruct (shr_m r2) as [|p|p] eqn:Er; [| |lia].
  - exists 0. split; [done|]. split; [lia|]. intros Hm. destruct (Hx1 Hm) as [_ H1]. destruct (Hx2 H1) as [H2 _]. nia.
  - rewrite (proj2 (Z.leb_le e2 _)) by lia. cbn [int_of_float].
    assert ((if 0 <=? e2 then Z.pos p * 2 ^ e2 else Z.pos p / 2 ^ (- e2)) = Z.pos p / 2 ^ (- e2)) as ->.
    { case_match eqn:El; [|done]. apply Z.leb_le in El. replace e2 with 0 by lia. change (- 0) with 0. rewrite Z.pow_0_r, Z.div_1_r. lia. }
    assert (0 <= Z.pos p / 2 ^ (- e2) <= h) as [H0 H1] by (split; [apply Z.div_pos; lia|apply Z.div_le_upper_bound; nia]).
    exists (Z.pos p / 2 ^ (- e2)). rewrite (proj2 (Z.leb_le _ _)), (proj2 (Z.ltb_lt _ _)) by lia. split; [done|]. split; [done|].
    intros Hm. destruct (Hx1 Hm) as [_ H2]. destruct (Hx2 H2) as [-> _]. apply Z.div_mul. lia.
Qed.

(** ** Conversion *)

Lemma iter_xO n : ∀ p, Z.pos (Pos.iter xO p n) = Z.pos p * 2 ^ Z.pos n.
Proof.
  induction n as [|n IH] using Pos.peano_ind; intros p; [cbn; lia|].
  rewrite Pos.iter_succ, Pos2Z.inj_xO, IH, Pos2Z.inj_succ, Z.pow_succ_r by lia. lia.
Qed.

(** An integer below 2 ^ 53 is a float64. *)
Lemma float_of_int_exact h : 0 < h < 2 ^ 53 → ∃ m e, float_of_int h = S754_finite false m e ∧ e <= 0 ∧ Z.pos m = h * 2 ^ (- e).
Proof.
  intros Hh. destruct h as [|p|p]; [lia| |lia]. pose proof (digits_le p 53 ltac:(lia) (proj2 Hh)) as Hd.
  unfold float_of_int, binary_normalize, binary_round. rewrite Z.add_0_r.
  assert (fexp prec64 emax64 (Z.pos (digits2_pos p)) = Z.pos (digits2_pos p) - 53) as -> by (unfold fexp, emin; lia).
  assert (∃ mz ez, shl_align p 0 (Z.pos (digits2_pos p) - 53) = (mz, ez) ∧ ez = Z.pos (digits2_pos p) - 53 ∧ Z.pos mz = Z.pos p * 2 ^ (- ez)) as (mz & ez & -> & -> & Hz).
  { unfold shl_align. rewrite Z.sub_0_r. destruct (Z.pos (digits2_pos p) - 53) as [|d|d] eqn:Ed; [|lia|].
    - exists p, 0. split; [done|]. split; [done|]. cbn. lia.
    - exists (Pos.iter xO p d), (Z.neg d). split; [done|]. split; [done|]. apply iter_xO. }
  set (ez := Z.pos (digits2_pos p) - 53) in *.
  assert (Z.pos (digits2_pos mz) = 53) as Hmz.
  { destruct (digits_spec p) as [Hl Hu]. assert (Z.pos mz < 2 ^ 53) as Hlt.
    { rewrite Hz. replace 53 with (Z.pos (digits2_pos p) + - ez) by lia. rewrite Z.pow_add_r by lia. apply Z.mul_lt_mono_pos_r; [apply Z.pow_pos_nonneg; lia|done]. }
    assert (2 ^ 52 <= Z.pos mz) as Hge.
    { rewrite Hz. replace 52 with (Z.pos (digits2_pos p) - 1 + - ez) by lia. rewrite Z.pow_add_r by lia. apply Z.mul_le_mono_nonneg_r; [apply Z.pow_nonneg; lia|done]. }
    pose proof (digits_le mz 53 ltac:(lia) Hlt). destruct (digits_spec mz) as [_ Hu2].
    destruct (Z.le_gt_cases 53 (Z.pos (digits2_pos mz))); [lia|]. assert (2 ^ Z.pos (digits2_pos mz) <= 2 ^ 52) by (apply Z.pow_le_mono_r; lia). lia. }
  assert (shr_fexp prec64 emax64 (Z.pos mz) ez loc_Exact = (Build_shr_record (Z.pos mz) false false, ez)) as Hs.
  { unfold shr_fexp. cbn [Zdigits2]. rewrite Hmz. replace (fexp prec64 emax64 (53 + ez) - ez) with 0 by (unfold fexp, emin; lia). done. }
  exists mz, ez. unfold binary_round_aux. rewrite Hs. cbn [shr_m loc_of_shr_record round_nearest_even]. rewrite Hs. cbn [shr_m].
  rewrite (proj2 (Z.leb_le _ _)) by lia. split; [done|]. split; [lia|exact Hz].
Qed.

(** ** The soft expiry *)

(** A float64 that is a number. *)
Definition number (f : spec_float) : bool := valid_binary prec64 emax64 f && match f with S754_nan => false | _ => true end.

Lemma rate_clamped f : number f = true → ∃ m e,
  (if SFleb f f_zero || SFltb f_one f then f_08 else f) = S754_finite false m e ∧ e <= -52 ∧ Z.pos m <= 2 ^ (- e).
Proof.
  intros [Hv Hn]%andb_true_iff. assert (∃ m e, f_08 = S754_finite false m e ∧ e <= -52 ∧ Z.pos m <= 2 ^ (- e)) as H08.
  { eexists _, _. split; [reflexivity|]. split; [lia|]. by vm_compute. }
  destruct f as [s|s| |[] m e]; cbn [SFleb SFltb SFcompare f_zero f_one orb]; [done|by destruct s|done|done|].
  cbn [valid_binary] in Hv. apply andb_true_iff in Hv as [Hv _]. apply Z.eqb_eq in Hv. unfold fexp, emin in Hv.
  destruct (digits_spec m) as [_ Hm]. assert (Z.pos m < 2 ^ 53) as Hm53.
  { eapply Z.lt_le_trans; [exact Hm|]. apply Z.pow_le_mono_r; lia. }
  unfold SFleb, SFltb, SFcompare, f_one. destruct (Z.compare_spec (-52) e) as [<-|Hlt|Hgt]; [| |].
  - assert (∀ p, 2 ^ (- -52) = Z.pos p → ∃ m' e', (if match Pos.compare_cont Eq p m with Lt => true | _ => false end then f_08 else S754_finite false m (-52)) = S754_finite false m' e'
        ∧ e' <= -52 ∧ Z.pos m' <= 2 ^ (- e')) as Hp.
    { intros p Hp. fold (Pos.compare p m). destruct (Pos.compare_spec p m) as [->|Hlt|Hgt]; [|exact H08|];
        (exists m, (-52); split; [reflexivity|]; split; [lia|]; rewrite Hp; lia). }
    apply (Hp 4503599627370496%positive). reflexivity.
  - done.
  - exists m, e. split; [reflexivity|]. split; [lia|]. apply Z.lt_le_incl. eapply Z.lt_le_trans; [exact Hm53|]. apply Z.pow_le_mono_r; lia.
Qed.

Lemma fmul_below h f : 0 < h < 2 ^ 53 → number f = true →
  ∃ q, int_of_float (fmul (float_of_int h) (if SFleb f f_zero || SFltb f_one f then f_08 else f)) = Some q ∧ 0 <= q <= h ∧ (f = f_one → q = h).
Proof.
  intros Hh Hf. destruct (rate_clamped f Hf) as (mr & er & Hr & Her & Hmr). rewrite Hr.
  destruct (float_of_int_exact h Hh) as (m & e & -> & He & Hm). unfold fmul, SFmul. cbn [xorb].
  assert (2 ^ (- (e + er)) = 2 ^ (- e) * 2 ^ (- er)) as Hpow by (rewrite <-Z.pow_add_r by lia; f_equal; lia).
  destruct (round_below h (Z.pos (m * mr)) (e + er)) as (q & Hq & Hb & Hx); [lia| |].
  - split; [lia|]. split; [lia|]. rewrite Hpow, Pos2Z.inj_mul, Hm. assert (0 < 2 ^ (- e)) by (apply Z.pow_pos_nonneg; lia). nia.
  - exists q. split; [done|]. split; [done|]. intros ->. apply Hx. cbn in Hr. injection Hr as <- <-. rewrite Hpow, Pos2Z.inj_mul, Hm. 
    change (2 ^ (- -52)) with 4503599627370496. lia.
Qed.

(** the early-refresh window.  For an object that expires after its response,
    the soft expiry computed in floating point is defined and lies between the
    response and the expiry, for every rate that is a number; a rate of 1 gives
    the expiry itself; and a refresh is triggered only strictly between the two
    points in time, for no object at the rate 1. *)
Theorem fuzzy_window respUnix expiresAt rate : - 2 ^ 63 <= respUnix → expiresAt < 2 ^ 63 → 0 < expiresAt - respUnix < 2 ^ 53 → number rate = true →
  ∃ soft, calculateSoftTTL respUnix expiresAt rate = Some soft ∧ respUnix <= soft <= expiresAt ∧ (rate = f_one → soft = expiresAt)
  ∧ ∀ now draw, SFleb f_zero draw = true → shouldTriggerFuzzyRefresh now soft expiresAt draw = true → soft < now < expiresAt ∧ rate ≠ f_one.
Proof.
  intros H1 H2 Hh Hr. destruct (fmul_below (expiresAt - respUnix) rate Hh Hr) as (q & Hq & Hb & Hx).
  unfold calculateSoftTTL. rewrite (i64_id (expiresAt - respUnix)) by (unfold_ints; lia). rewrite (proj2 (Z.leb_gt _ _)) by lia. rewrite Hq. cbn [mbind option_bind].
  rewrite i64_id by (unfold_ints; lia). exists (respUnix + q). split; [done|]. split; [lia|]. split; [intros E; specialize (Hx E); lia|].
  intros now draw Hd. unfold shouldTriggerFuzzyRefresh. destruct (now <? respUnix + q) eqn:El; [done|]. apply Z.ltb_ge in El.
  destruct (now >=? expiresAt) eqn:Eg; [done|].
  rewrite Z.geb_leb in Eg. apply Z.leb_gt in Eg. rewrite (i64_id (expiresAt - _)) by (unfold_ints; lia).
  destruct (float_of_int_exact (expiresAt - (respUnix + q))) as (m & e & Hw & _); [lia|]. rewrite Hw. cbn [SFleb SFcompare f_zero].
  intros Ht. split; [|intros E; specialize (Hx E); lia]. split; [|done]. apply Z.le_neq. split; [done|]. intros <-. rewrite Z.sub_diag in Ht.
  cbn in Ht. destruct draw as [[]|[]| |[] ? ?]; done.
Qed.

Lemma fuzzy_window_witness : ∃ soft, calculateSoftTTL 1000 1600 f_08 = Some soft ∧ 1000 <= soft <= 1600 ∧ soft = 1480
  ∧ shouldTriggerFuzzyRefresh 1590 1480 1600 (S754_finite false 4503599627370496 (-53)) = true.
Proof.
  destruct (fuzzy_window 1000 1600 f_08) as (soft & Hs & Hb & _ & _); [lia|lia|lia|vm_compute; reflexivity|].
  exists soft. split; [exact Hs|]. split; [exact Hb|]. split; [|vm_compute; reflexivity].
  assert (calculateSoftTTL 1000 1600 f_08 = Some 1480) as E by (vm_compute; reflexivity). rewrite E in Hs. injection Hs as <-. reflexivity.
Defined.
