(* ===== verification/Smoother.v ===== *)
(** * Smoothed counters: pkg/metrics/smoother.go

    The moving average of the growth of a counter that the status page shows.  A
    float64 is a [spec_float] with the precision and exponent of binary64, as in
    [SoftTtl]; addition, subtraction, multiplication and comparison are those of
    IEEE 754.  The mutex makes every call one step.

    Proved: values that are not finite are as if they had not been passed; the average
    is never negative, whatever the counter does, for every factor that is a number; a
    reset smoother is a new one.  With the factor 0 the average is 0 for ever. *)

From Stdlib Require Import SpecFloat.
From S2P Require Import Prelude SoftTtl.

Local Open Scope Z_scope.

Definition fadd : spec_float → spec_float → spec_float := SFadd prec64 emax64.
Definition fsub : spec_float → spec_float → spec_float := SFsub prec64 emax64.

(** Neither [math.IsNaN] nor [math.IsInf]. *)
Definition is_finite (f : spec_float) : bool := match f with S754_nan | S754_infinity _ => false | _ => true end.

Record CounterSmoother := mkSmoother { cs_lastRaw : spec_float; cs_smoothed : spec_float; cs_Alpha : spec_float; cs_init : bool }.

Definition NewCounterSmoother (alpha : spec_float) : CounterSmoother :=
  let alpha := if SFltb alpha f_zero then f_zero else alpha in
  let alpha := if SFltb f_one alpha then f_one else alpha in
  mkSmoother f_zero f_zero alpha false.

Definition Update (s : CounterSmoother) (raw : spec_float) : spec_float * CounterSmoother :=
  if negb (is_finite raw) then (cs_smoothed s, s)
  else if negb (cs_init s) then (f_zero, mkSmoother raw (cs_smoothed s) (cs_Alpha s) true)
  else
    let delta := fsub raw (cs_lastRaw s) in
    let smoothed :=
      if negb (SFltb f_zero delta) then fmul (fsub f_one (cs_Alpha s)) (cs_smoothed s)
      else fadd (fmul (cs_Alpha s) delta) (fmul (fsub f_one (cs_Alpha s)) (cs_smoothed s)) in
    (smoothed, mkSmoother raw smoothed (cs_Alpha s) true).

Definition Reset (s : CounterSmoother) : CounterSmoother := mkSmoother f_zero f_zero (cs_Alpha s) false.

(** The answers to a sequence of values, and the smoother after it. *)
Fixpoint run (s : CounterSmoother) (raws : list spec_float) : list spec_float * CounterSmoother :=
  match raws with
  | [] => ([], s)
  | raw :: rest => let '(v, s) := Update s raw in let '(vs, s) := run s rest in (v :: vs, s)
  end.

(** ** Signs *)

Definition nonneg (f : spec_float) : Prop :=
  match f with S754_zero s | S754_infinity s | S754_finite s _ _ => s = false | S754_nan => True end.

Lemma round_nonneg m e l : nonneg (binary_round_aux prec64 emax64 false m e l).
Proof. unfold binary_round_aux. destruct (shr_fexp _ _ m e l) as [r e']. destruct (shr_fexp _ _ _ e' _) as [r' e'']. destruct (shr_m r'); [done| |done]. by destruct (_ <=? _). Qed.

Lemma normalize_nonneg m e : 0 <= m → nonneg (binary_normalize prec64 emax64 m e false).
Proof. destruct m as [|p|p]; [done| |lia]. intros _. cbn [binary_normalize]. unfold binary_round. destruct (shl_align _ _ _). apply round_nonneg. Qed.

Lemma fmul_nonneg x y : nonneg x → nonneg y → nonneg (fmul x y).
Proof.
  unfold fmul. destruct x as [s|s| |s m e], y as [s'|s'| |s' m' e']; cbn [SFmul nonneg]; intros; subst; try done. apply round_nonneg.
Qed.

Lemma fadd_nonneg x y : nonneg x → nonneg y → nonneg (fadd x y).
Proof.
  unfold fadd. destruct x as [s|s| |s m e], y as [s'|s'| |s' m' e']; cbn [SFadd nonneg]; intros; subst; try done. apply normalize_nonneg. cbn [cond_Zopp]. lia.
Qed.

Lemma ltb_nonneg f : SFltb f_zero f = true → nonneg f.
Proof. by destruct f as [|[]| |[] ? ?]. Qed.

(** ** The factor *)

(** Zero or a number between 0 and 1. *)
Definition unit_factor (f : spec_float) : Prop :=
  (∃ s, f = S754_zero s) ∨ ∃ m e, f = S754_finite false m e ∧ e <= -52 ∧ Z.pos m <= 2 ^ (- e).

Lemma new_factor alpha : number alpha = true → unit_factor (cs_Alpha (NewCounterSmoother alpha)).
Proof.
  intros Hn. unfold NewCounterSmoother. cbn [cs_Alpha]. destruct (SFltb alpha f_zero) eqn:E0; [left; by exists false|].
  assert (unit_factor f_one) as H1 by (right; eexists _, _; split; [reflexivity|]; split; [lia|by vm_compute]).
  destruct (SFltb f_one alpha) eqn:E1; [exact H1|]. destruct (SFleb alpha f_zero) eqn:El.
  - left. destruct alpha as [s|s| |s m e]; [by exists s| | |]; exfalso; [by destruct s|done|by destruct s].
  - right. pose proof (rate_clamped alpha Hn) as (m & e & Ha & H). rewrite El, E1 in Ha. cbn [orb] in Ha. by exists m, e.
Qed.

Lemma unit_nonneg f : unit_factor f → nonneg (fsub f_one f).
Proof.
  intros [[s ->]|(m & e & -> & He & Hm)]; [done|]. unfold fsub, f_one. cbn [SFsub]. rewrite Z.min_r by lia. apply normalize_nonneg. cbn [cond_Zopp].
  unfold shl_align at 2. rewrite Z.sub_diag. cbn [fst]. unfold shl_align. destruct (e - -52) as [|d|d] eqn:Ed; [|lia|].
  - assert (e = -52) as -> by lia. cbn [fst]. change (2 ^ (- -52)) with 4503599627370496 in Hm. lia.
  - cbn [fst]. rewrite iter_xO. replace (- e) with (52 + Z.pos d) in Hm by lia. rewrite Z.pow_add_r in Hm by lia. change (2 ^ 52) with 4503599627370496 in Hm. lia.
Qed.

(** ** Theorems *)

(** A negative zero as the factor keeps the sign of the product; the sum with a
    positive zero is positive. *)
Lemma factor_term_nonneg f d x : unit_factor f → nonneg d → nonneg x → nonneg (fadd (fmul f d) x).
Proof.
  intros [[[] ->]|(m & e & -> & _)] Hd Hx; [|by apply fadd_nonneg; [apply fmul_nonneg|]..].
  unfold fmul. destruct d as [s|s| |s m e]; cbn [nonneg] in Hd; subst; cbn [SFmul xorb]; try done.
  all: unfold fadd; destruct x as [s|s| |s m' e']; cbn [nonneg] in Hx; by subst.
Qed.

(** A smoother with a proper factor and an average that is not negative. *)
Definition smoother_ok (s : CounterSmoother) : Prop := unit_factor (cs_Alpha s) ∧ nonneg (cs_smoothed s).

Lemma new_ok alpha : number alpha = true → smoother_ok (NewCounterSmoother alpha).
Proof. intros Hn. split; [by apply new_factor|done]. Qed.

Lemma smoother_update_ok s raw : smoother_ok s → nonneg (fst (Update s raw)) ∧ smoother_ok (snd (Update s raw)).
Proof.
  intros [Ha Hs]. destruct (Update s raw) as [v s1] eqn:E. cbn [fst snd]. unfold Update in E.
  destruct (negb (is_finite raw)); [by simplify_eq|]. destruct (negb (cs_init s)); [by simplify_eq|].
  assert (nonneg v) as Hv; [|simplify_eq; by split; [|split]].
  destruct (SFltb f_zero (fsub raw (cs_lastRaw s))) eqn:Ed; cbn [negb] in E; injection E as <- _.
  - apply factor_term_nonneg; [done|by apply ltb_nonneg|]. apply fmul_nonneg; [by apply unit_nonneg|done].
  - apply fmul_nonneg; [by apply unit_nonneg|done].
Qed.

(** the average is never negative.  With a factor that is any number, whatever
    values the counter takes, every answer and the average kept are not negative. *)
Theorem smoothed_nonneg alpha raws : number alpha = true →
  let '(vs, s) := run (NewCounterSmoother alpha) raws in Forall nonneg vs ∧ nonneg (cs_smoothed s).
Proof.
  intros Hn%new_ok. revert Hn. generalize (NewCounterSmoother alpha). induction raws as [|raw raws IH]; intros s Hs; cbn [run]; [by destruct Hs|].
  destruct (smoother_update_ok s raw Hs) as [Hv Hs1]. destruct (Update s raw) as [v s1]. cbn [fst snd] in *.
  specialize (IH s1 Hs1). destruct (run s1 raws) as [vs s2]. destruct IH as [IH1 IH2]. split; [by constructor|done].
Qed.

(** The answers to the values that are finite. *)
Fixpoint finite_answers (raws vs : list spec_float) : list spec_float :=
  match raws, vs with
  | raw :: raws, v :: vs => if is_finite raw then v :: finite_answers raws vs else finite_answers raws vs
  | _, _ => []
  end.

(** values that are not finite do not count.  Between any other values, the state
    and the answers to the finite ones are the same without them; and a smoother that
    was reset answers as a new one with its factor. *)
Theorem smoother_ignores s raws :
  (run s raws).2 = (run s (filter (λ f, is_finite f = true) raws)).2
  ∧ finite_answers raws (run s raws).1 = (run s (filter (λ f, is_finite f = true) raws)).1
  ∧ run (Reset s) raws = run (mkSmoother f_zero f_zero (cs_Alpha s) false) raws.
Proof.
  split; [|split; [|done]]; revert s; induction raws as [|raw raws IH]; intros s; try done; cbn [run]; rewrite filter_cons.
  all: destruct (decide (is_finite raw = true)) as [Hf|Hf].
  - cbn [run]. destruct (Update s raw) as [v s1]. specialize (IH s1). by destruct (run s1 raws), (run s1 (filter _ _)).
  - unfold Update. apply not_true_is_false in Hf. rewrite Hf. cbn [negb]. specialize (IH s). by destruct (run s raws).
  - cbn [run]. destruct (Update s raw) as [v s1]. specialize (IH s1). destruct (run s1 raws), (run s1 (filter _ _)). cbn [fst finite_answers] in *. rewrite Hf. by f_equal.
  - unfold Update. apply not_true_is_false in Hf. rewrite Hf. cbn [negb]. specialize (IH s). destruct (run s raws). cbn [fst finite_answers] in *. by rewrite Hf.
Qed.

(** With the factor 0 the average stays 0 while the growth is finite: it is not
    frozen at the first growth. *)
Theorem factor_zero_stays_zero s raw : cs_Alpha s = f_zero → cs_smoothed s = f_zero → is_finite (fsub raw (cs_lastRaw s)) = true →
  Update s raw = (f_zero, snd (Update s raw)) ∧ cs_smoothed (snd (Update s raw)) = f_zero ∧ cs_Alpha (snd (Update s raw)) = f_zero.
Proof.
  intros Ha Hs Hd. unfold Update. rewrite Ha, Hs. destruct (negb (is_finite raw)); [by rewrite ?Hs, ?Ha|].
  destruct (negb (cs_init s)); [by cbn [snd cs_smoothed cs_Alpha]; rewrite ?Hs|].
  assert (fmul (fsub f_one f_zero) f_zero = f_zero) as -> by reflexivity.
  destruct (SFltb f_zero (fsub raw (cs_lastRaw s))) eqn:El; cbn [negb snd cs_smoothed cs_Alpha]; [|done].
  assert (fmul f_zero (fsub raw (cs_lastRaw s)) = f_zero) as ->; [|done].
  destruct (fsub raw (cs_lastRaw s)) as [|[]| |[] m e]; try done.
Qed.

(** Ten requests after the first reading, with the factor 0.3: the average is 3. *)
Example smoother_tick : (run (NewCounterSmoother (S754_finite false 5404319552844595 (-54))) [float_of_int 100; S754_nan; float_of_int 110]).1
  = [f_zero; f_zero; float_of_int 3].
Proof. vm_compute. reflexivity. Qed.

Lemma smoothed_nonneg_witness : let '(vs, s) := run (NewCounterSmoother f_08) [float_of_int 5; float_of_int 9; float_of_int 2] in Forall nonneg vs ∧ nonneg (cs_smoothed s).
Proof. apply (smoothed_nonneg f_08 [float_of_int 5; float_of_int 9; float_of_int 2]). vm_compute. reflexivity. Defined.
