(* ===== verification/Collect.v ===== *)
(** * Starting and stopping the collectors: plugin/qs/qs.go

    The status page starts goroutines that collect its numbers, and a monitor stops
    them when nobody has asked for five seconds.  Requests and the monitor of every
    generation run against each other: a request stores its time, looks at the flag
    without the lock and again with it; the monitor looks at the time without the
    lock and again with it.

    Proved: at most one generation of collectors is not cancelled, and there is one
    exactly while the flag is set; its monitor is alive, so that it can always be
    stopped after five idle seconds; a request that comes between the monitor's last
    look and its decision is lost. *)

From S2P Require Import Prelude.

Local Open Scope Z_scope.

(** The monitor: waiting for its ticker, past the first look, past the second one
    with the lock held, gone. *)
Inductive monitor := Ticking | Suspecting | Deciding | Gone.

(** A generation: its running collectors, its monitor and its context. *)
Record generation := mkGen { gn_collectors : nat; gn_monitor : monitor; gn_cancelled : bool }.

Record QsPlugin := mkQs {
  q_lastReq : Z;
  q_collect : bool;
  q_cancel : option nat;            (* the generation qs.cancel cancels *)
  q_gens : list generation;
  q_pending : nat;                  (* requests that found the flag clear, before the lock *)
  q_locked : bool }.                (* the lock is held by a monitor *)

Definition NewQs : QsPlugin := mkQs 0 false None [] 0 false.

(** Five seconds, in nanoseconds. *)
Definition idle (now last : Z) : bool := 5000000000 <? now - last.

(** ** [touchOrStart] *)

(** Up to the lock. *)
Definition touch_begin (now : Z) (q : QsPlugin) : QsPlugin :=
  mkQs now (q_collect q) (q_cancel q) (q_gens q) (if q_collect q then q_pending q else S (q_pending q)) (q_locked q).

(** With the lock: another request may have been first. *)
Definition touch_locked (q : QsPlugin) : QsPlugin :=
  let pending := pred (q_pending q) in
  if q_collect q then mkQs (q_lastReq q) true (q_cancel q) (q_gens q) pending (q_locked q)
  else mkQs (q_lastReq q) true (Some (length (q_gens q))) (q_gens q ++ [mkGen 3 Ticking false]) pending (q_locked q).

(** ** [tickMonitor] *)

Definition set_gen (i : nat) (g : generation) (q : QsPlugin) : QsPlugin :=
  mkQs (q_lastReq q) (q_collect q) (q_cancel q) (<[i := g]> (q_gens q)) (q_pending q) (q_locked q).
Definition set_locked (b : bool) (q : QsPlugin) : QsPlugin :=
  mkQs (q_lastReq q) (q_collect q) (q_cancel q) (q_gens q) (q_pending q) b.
Definition with_monitor (m : monitor) (g : generation) : generation := mkGen (gn_collectors g) m (gn_cancelled g).

(** [qs.cancel()], if it is there. *)
Definition cancel_current (q : QsPlugin) : list generation :=
  match q_cancel q with
  | Some c => alter (λ g, mkGen (gn_collectors g) (gn_monitor g) true) c (q_gens q)
  | None => q_gens q
  end.

(** The decision: everything is cancelled and the monitor returns. *)
Definition stop_collecting (i : nat) (q : QsPlugin) : QsPlugin :=
  mkQs (q_lastReq q) false None (alter (with_monitor Gone) i (cancel_current q)) (q_pending q) false.

Inductive qs_step (q : QsPlugin) : QsPlugin → Prop :=
| qs_touch now : qs_step q (touch_begin now q)
| qs_touch_locked : (0 < q_pending q)%nat → q_locked q = false → qs_step q (touch_locked q)
| qs_look i g now : q_gens q !! i = Some g → gn_monitor g = Ticking → idle now (q_lastReq q) = true →
    qs_step q (set_gen i (with_monitor Suspecting g) q)
| qs_look_again i g now : q_gens q !! i = Some g → gn_monitor g = Suspecting → q_locked q = false →
    qs_step q (if idle now (q_lastReq q) then set_locked true (set_gen i (with_monitor Deciding g) q) else set_gen i (with_monitor Ticking g) q)
| qs_decide i g : q_gens q !! i = Some g → gn_monitor g = Deciding → qs_step q (stop_collecting i q)
| qs_monitor_done i g : q_gens q !! i = Some g → gn_monitor g = Ticking → gn_cancelled g = true → qs_step q (set_gen i (with_monitor Gone g) q)
| qs_collector_done i g n : q_gens q !! i = Some g → gn_cancelled g = true → gn_collectors g = S n →
    qs_step q (set_gen i (mkGen n (gn_monitor g) true) q).

(** ** The invariant *)

Definition dead (g : generation) : Prop := gn_cancelled g = true ∧ gn_monitor g = Gone.

Record qs_ok (q : QsPlugin) : Prop := {
  qo_off : q_collect q = false → q_cancel q = None ∧ q_locked q = false ∧ Forall dead (q_gens q);
  qo_on : q_collect q = true → ∃ c g, q_cancel q = Some c ∧ q_gens q !! c = Some g ∧ gn_cancelled g = false ∧ gn_monitor g ≠ Gone
    ∧ (q_locked q = true ↔ gn_monitor g = Deciding) ∧ ∀ i g', q_gens q !! i = Some g' → i ≠ c → dead g' }.

(** A step of the monitor of the current generation that stays. *)
Lemma monitor_ok q i g m (lk : bool) : qs_ok q → q_gens q !! i = Some g → gn_monitor g ≠ Gone → m ≠ Gone → (lk = true ↔ m = Deciding) →
  qs_ok (set_locked lk (set_gen i (with_monitor m g) q)).
Proof.
  intros [Hoff Hon] Hi Hg Hm Hlk. split; cbn [set_locked set_gen q_collect q_cancel q_gens q_locked].
  - intros Hc. destruct (Hoff Hc) as (_ & _ & Hd). pose proof (Forall_lookup_1 _ _ _ _ Hd Hi) as [_ ?]. done.
  - intros Hc. destruct (Hon Hc) as (c & g0 & Hcan & Hc0 & Hlive & Hm0 & _ & Hrest).
    destruct (decide (i = c)) as [->|Hne]; [|destruct (Hrest i g Hi Hne); done]. simplify_eq.
    exists c, (with_monitor m g). split; [done|]. split; [apply list_lookup_insert_eq; by eapply lookup_lt_Some|]. split; [done|]. split; [done|]. split; [done|].
    intros j g' Hj Hne. rewrite list_lookup_insert_ne in Hj by done. by eapply Hrest.
Qed.

(** A step of a generation that is dead stays dead. *)
Lemma dead_ok q i g g' : qs_ok q → q_gens q !! i = Some g → dead g → dead g' → qs_ok (set_gen i g' q).
Proof.
  intros [Hoff Hon] Hi Hd Hd'. split; cbn [set_gen q_collect q_cancel q_gens q_locked].
  - intros Hc. destruct (Hoff Hc) as (? & ? & Hall). split; [done|]. split; [done|]. by apply Forall_insert.
  - intros Hc. destruct (Hon Hc) as (c & g0 & Hcan & Hc0 & Hlive & Hm0 & Hlk & Hrest). assert (i ≠ c) as Hne by (intros ->; simplify_eq; destruct Hd; congruence).
    exists c, g0. split; [done|]. split; [by rewrite list_lookup_insert_ne|]. do 3 (split; [done|]). intros j x Hj Hjc.
    destruct (decide (i = j)) as [->|]; [rewrite list_lookup_insert_eq in Hj by (by eapply lookup_lt_Some); by simplify_eq|]. rewrite list_lookup_insert_ne in Hj by done. by eapply Hrest.
Qed.

Lemma gone_dead q i g : qs_ok q → q_gens q !! i = Some g → gn_cancelled g = true → dead g.
Proof.
  intros [Hoff Hon] Hi Hc. destruct (q_collect q) eqn:Ec.
  - destruct (Hon eq_refl) as (c & g0 & _ & Hc0 & Hlive & _ & _ & Hrest). destruct (decide (i = c)) as [->|Hne]; [congruence|by eapply Hrest].
  - destruct (Hoff eq_refl) as (_ & _ & Hall). by eapply (Forall_lookup_1 _ _ _ _ Hall Hi).
Qed.

(** A monitor that is not gone is that of the current generation. *)
Lemma live_current q i g : qs_ok q → q_gens q !! i = Some g → gn_monitor g ≠ Gone →
  q_cancel q = Some i ∧ gn_cancelled g = false ∧ (q_locked q = true ↔ gn_monitor g = Deciding) ∧ ∀ j g', q_gens q !! j = Some g' → j ≠ i → dead g'.
Proof.
  intros [Hoff Hon] Hi Hg. destruct (q_collect q) eqn:Ec.
  - destruct (Hon eq_refl) as (c & g0 & Hcan & Hc0 & Hlive & _ & Hlk & Hrest). destruct (decide (i = c)) as [->|Hne]; [by simplify_eq|]. destruct (Hrest i g Hi Hne). done.
  - destruct (Hoff eq_refl) as (_ & _ & Hall). destruct (Forall_lookup_1 _ _ _ _ Hall Hi). done.
Qed.

Lemma set_locked_same q : set_locked (q_locked q) q = q.
Proof. by destruct q. Qed.

Lemma qs_step_ok q q' : qs_ok q → qs_step q q' → qs_ok q'.
Proof.
  intros Hok Hst. destruct Hst as [now|Hp Hl|i g now Hi Hm Hidle|i g now Hi Hm Hl|i g Hi Hm|i g Hi Hm Hc|i g n Hi Hc Hn].
  - destruct Hok as [Hoff Hon]. by split.
  - destruct Hok as [Hoff Hon]. unfold touch_locked. destruct (q_collect q) eqn:Ec; [by split|]. destruct (Hoff eq_refl) as (_ & _ & Hall).
    split; cbn [q_collect q_cancel q_gens q_locked]; [done|]. intros _. exists (length (q_gens q)), (mkGen 3 Ticking false).
    split; [done|]. split; [by rewrite list_lookup_middle|]. split; [done|]. split; [done|]. split; [by rewrite Hl|].
    intros j x Hj Hne. apply lookup_app_Some in Hj as [Hj|[Hle Hj]]; [by eapply (Forall_lookup_1 _ _ _ _ Hall Hj)|].
    apply list_lookup_singleton_Some in Hj as [Hj _]. lia.
  - pose proof (monitor_ok q i g Suspecting false Hok Hi) as Hmk. destruct (q_locked q) eqn:El.
    + destruct (live_current q i g Hok Hi) as (_ & _ & Hlk & _); [by rewrite Hm|]. rewrite El in Hlk. pose proof (proj1 Hlk eq_refl). congruence.
    + rewrite <-(set_locked_same (set_gen _ _ _)). cbn [set_gen q_locked]. rewrite El. apply Hmk; [by rewrite Hm|done|done].
  - case_match.
    + apply monitor_ok; [done|done|by rewrite Hm|done|done].
    + rewrite <-(set_locked_same (set_gen _ _ _)). cbn [set_gen q_locked]. rewrite Hl. apply monitor_ok; [done|done|by rewrite Hm|done|done].
  - destruct (live_current q i g Hok Hi) as (Hcan & Hlive & _ & Hrest); [by rewrite Hm|]. unfold stop_collecting, cancel_current. rewrite Hcan.
    split; cbn [q_collect q_cancel q_gens q_locked]; [|done]. intros _. split; [done|]. split; [done|]. apply Forall_lookup_2. intros j x.
    destruct (decide (i = j)) as [<-|Hne]; [|rewrite !list_lookup_alter_ne by done; intros Hj; by apply (Hrest j)].
    rewrite !list_lookup_alter_eq, Hi. cbn. by intros [= <-].
  - pose proof (gone_dead q i g Hok Hi Hc) as [_ ?]. congruence.
  - pose proof (gone_dead q i g Hok Hi Hc) as Hd. apply (dead_ok q i g); [done|done|done|]. destruct Hd. by split.
Qed.

Lemma qs_reachable q : rtc qs_step NewQs q → qs_ok q.
Proof.
  intros Hrun. refine (rtc_ind_r (R := qs_step) qs_ok NewQs _ _ q Hrun); [split; [by repeat split|done]|]. intros y z _ Hst IH. by eapply qs_step_ok.
Qed.

(** Collectors that run without being cancelled. *)
Definition live_collectors (q : QsPlugin) : nat := sum_list (map (λ g, if gn_cancelled g then 0%nat else gn_collectors g) (q_gens q)).

(** one set of collectors.  In every interleaving of requests and monitors at most
    one generation of collectors is not cancelled, there is one exactly while the
    flag is set, and its monitor has not returned; when the flag is clear every
    monitor has. *)
Theorem one_generation q : rtc qs_step NewQs q →
  (∀ i j g g', q_gens q !! i = Some g → q_gens q !! j = Some g' → gn_cancelled g = false → gn_cancelled g' = false → i = j)
  ∧ (q_collect q = true ↔ ∃ i g, q_gens q !! i = Some g ∧ gn_cancelled g = false)
  ∧ ∀ i g, q_gens q !! i = Some g → (gn_cancelled g = false ↔ gn_monitor g ≠ Gone).
Proof.
  intros Hrun. pose proof (qs_reachable q Hrun) as Hok.
  assert (∀ i g, q_gens q !! i = Some g → (gn_cancelled g = false ↔ gn_monitor g ≠ Gone)) as Hcm.
  { intros i g Hi. split; [|intros Hm; by destruct (live_current q i g Hok Hi Hm) as (_ & ? & _)]. intros Hc Hm. destruct Hok as [Hoff Hon]. destruct (q_collect q) eqn:Ec.
    - destruct (Hon eq_refl) as (c & g0 & _ & Hc0 & _ & Hm0 & _ & Hrest). destruct (decide (i = c)) as [->|Hne]; [congruence|]. destruct (Hrest i g Hi Hne). congruence.
    - destruct (Hoff eq_refl) as (_ & _ & Hall). destruct (Forall_lookup_1 _ _ _ _ Hall Hi). congruence. }
  split; [|split; [|done]].
  - intros i j g g' Hi Hj Hc Hc'. destruct (live_current q i g Hok Hi) as (_ & _ & _ & Hrest); [by eapply Hcm|]. destruct (decide (j = i)) as [|Hne]; [done|].
    destruct (Hrest j g' Hj Hne). congruence.
  - destruct Hok as [Hoff Hon]. split.
    + intros Hc. destruct (Hon Hc) as (c & g & _ & Hg & Hl & _). by exists c, g.
    + intros (i & g & Hi & Hl). destruct (q_collect q) eqn:Ec; [done|]. destruct (Hoff eq_refl) as (_ & _ & Hall). destruct (Forall_lookup_1 _ _ _ _ Hall Hi). congruence.
Qed.

(** idle collectors are stopped.  Whenever collectors run and the last request
    was more than five seconds ago, steps of their monitor alone lead to a state
    without any, whatever the monitor was doing. *)
Theorem idle_stops q now : rtc qs_step NewQs q → q_collect q = true → idle now (q_lastReq q) = true →
  ∃ q', rtc qs_step q q' ∧ q_collect q' = false ∧ q_lastReq q' = q_lastReq q ∧ ∀ i g, q_gens q' !! i = Some g → gn_cancelled g = true.
Proof.
  intros Hrun Hc Hidle. pose proof (qs_reachable q Hrun) as Hok. destruct (qo_on q Hok Hc) as (c & g & Hcan & Hg & Hl & Hm & Hlk & Hrest).
  assert (∀ q1 g1, qs_ok q1 → q_lastReq q1 = q_lastReq q → q_gens q1 !! c = Some g1 → gn_monitor g1 = Deciding →
    ∃ q', rtc qs_step q1 q' ∧ q_collect q' = false ∧ q_lastReq q' = q_lastReq q ∧ ∀ i g, q_gens q' !! i = Some g → gn_cancelled g = true) as Hdec.
  { intros q1 g1 Hok1 Hlast Hg1 Hm1. exists (stop_collecting c q1). assert (qs_step q1 (stop_collecting c q1)) as Hst by (by eapply qs_decide).
    split; [by apply rtc_once|]. split; [done|]. split; [done|]. intros i x Hx. destruct (qs_step_ok _ _ Hok1 Hst) as [Hoff _].
    destruct (Hoff eq_refl) as (_ & _ & Hall). by destruct (Forall_lookup_1 _ _ _ _ Hall Hx). }
  assert (∀ q1 g1, qs_ok q1 → q_lastReq q1 = q_lastReq q → q_locked q1 = false → q_gens q1 !! c = Some g1 → gn_monitor g1 = Suspecting →
    ∃ q', rtc qs_step q1 q' ∧ q_collect q' = false ∧ q_lastReq q' = q_lastReq q ∧ ∀ i g, q_gens q' !! i = Some g → gn_cancelled g = true) as Hsus.
  { intros q1 g1 Hok1 Hlast Hlk1 Hg1 Hm1. pose proof (qs_look_again q1 c g1 now Hg1 Hm1 Hlk1) as Hst. rewrite Hlast, Hidle in Hst.
    destruct (Hdec _ (with_monitor Deciding g1) (qs_step_ok _ _ Hok1 Hst)) as (q' & Hrun' & ?); [done|apply list_lookup_insert_eq; by eapply lookup_lt_Some|done|].
    exists q'. split; [by eapply rtc_l|done]. }
  destruct (gn_monitor g) eqn:Em; [| |by eapply Hdec|done].
  - pose proof (qs_look q c g now Hg Em Hidle) as Hst. assert (q_locked q = false) as Hnl by (destruct (q_locked q); [discriminate (proj1 Hlk eq_refl)|done]).
    destruct (Hsus _ (with_monitor Suspecting g) (qs_step_ok _ _ Hok Hst)) as (q' & Hrun' & ?); [done|done|apply list_lookup_insert_eq; by eapply lookup_lt_Some|done|].
    exists q'. split; [by eapply rtc_l|done].
  - apply (Hsus q g); [done|done| |done|done]. destruct (q_locked q); [discriminate (proj1 Hlk eq_refl)|done].
Qed.

(** A request between the monitor's second look and its decision sees the flag set
    and returns; then the collectors are stopped although it has just come. *)
Example lost_request : ∃ q, rtc qs_step NewQs q ∧ q_lastReq q = 7000000001 ∧ q_pending q = 0%nat ∧ q_collect q = false ∧ live_collectors q = 0%nat.
Proof.
  eexists. split.
  - eapply rtc_l; [apply (qs_touch _ 1)|]. eapply rtc_l; [apply qs_touch_locked; [cbn; lia|done]|].
    eapply rtc_l; [apply (qs_look _ 0 (mkGen 3 Ticking false) 7000000000); done|].
    eapply rtc_l; [apply (qs_look_again _ 0 (mkGen 3 Suspecting false) 7000000000); done|].
    eapply rtc_l; [apply (qs_touch _ 7000000001)|]. eapply rtc_l; [apply (qs_decide _ 0 (mkGen 3 Deciding false)); vm_compute; reflexivity|]. apply rtc_refl.
  - by vm_compute.
Qed.

Definition sample_qs : QsPlugin := touch_locked (touch_begin 1 NewQs).
Lemma sample_qs_reachable : rtc qs_step NewQs sample_qs.
Proof. eapply rtc_l; [apply (qs_touch _ 1)|]. eapply rtc_l; [apply qs_touch_locked; [cbn; lia|done]|]. apply rtc_refl. Qed.

Lemma one_generation_witness : q_collect sample_qs = true ∧ ∃ i g, q_gens sample_qs !! i = Some g ∧ gn_cancelled g = false.
Proof. destruct (one_generation sample_qs sample_qs_reachable) as (_ & H & _). split; [reflexivity|]. apply H. reflexivity. Defined.

Lemma idle_stops_witness : ∃ q', rtc qs_step sample_qs q' ∧ q_collect q' = false.
Proof.
  destruct (idle_stops sample_qs 6000000000 sample_qs_reachable) as (q' & Hr & Hc & _); [reflexivity|vm_compute; reflexivity|].
  exists q'. exact (conj Hr Hc).
Defined.
