(* ===== verification/GoStrings.v ===== *)
(** * Go's [strings], [strconv] and [fmt] as the sources use them

    The Go standard library functions the modelled packages call, on byte
    strings: [strings.HasPrefix], [TrimPrefix], [Split] and [IndexByte] with a
    one-byte separator, [Join], [TrimSpace], [ToLower] (on ASCII letters),
    [strconv.ParseInt]/[ParseUint]/[Atoi] with their clamping on a range error,
    [strconv.FormatInt] ([%d]) and [fmt.Sscanf(_, "%d", _)].  The round trip of
    [FormatInt] and [ParseInt] is proved here and reused by every parser. *)

From S2P Require Import Prelude.

(** ** strings *)

Definition byte_val (c : ascii) : Z := Z.of_N (N_of_ascii c).
Definition byte_of (z : Z) : ascii := ascii_of_N (Z.to_N z).

Fixpoint has_prefix (p s : str) : bool :=
  match p, s with
  | [], _ => true
  | a :: p', b :: s' => bool_decide (a = b) && has_prefix p' s'
  | _ :: _, [] => false
  end.

Definition has_suffix (p s : str) : bool := has_prefix (rev p) (rev s).

Definition trim_prefix (p s : str) : str :=
  if has_prefix p s then drop (length p) s else s.

Fixpoint index_byte (c : ascii) (s : str) : option nat :=
  match s with
  | [] => None
  | a :: s' => if bool_decide (a = c) then Some O else S <$> index_byte c s'
  end.

Definition contains_byte (c : ascii) (s : str) : bool :=
  match index_byte c s with Some _ => true | None => false end.

(** [strings.Split(s, sep)] with a one-byte separator: never empty. *)
Fixpoint split_byte (c : ascii) (s : str) : list str :=
  match s with
  | [] => [[]]
  | a :: s' =>
      if bool_decide (a = c) then [] :: split_byte c s'
      else match split_byte c s' with
           | [] => [[a]]
           | w :: ws => (a :: w) :: ws
           end
  end.

Fixpoint join (sep : str) (l : list str) : str :=
  match l with
  | [] => []
  | [w] => w
  | w :: ws => w ++ sep ++ join sep ws
  end.

(** The UTF-8 encodings of the code points [unicode.IsSpace] accepts. *)
Definition space_seqs : list str :=
  map (λ c, [byte_of c]) [9; 10; 11; 12; 13; 32] ++
  map (map byte_of)
    [[194; 133]; [194; 160]; [225; 154; 128];
     [226; 128; 128]; [226; 128; 129]; [226; 128; 130]; [226; 128; 131];
     [226; 128; 132]; [226; 128; 133]; [226; 128; 134]; [226; 128; 135];
     [226; 128; 136]; [226; 128; 137]; [226; 128; 138]; [226; 128; 168];
     [226; 128; 169]; [226; 128; 175]; [226; 129; 159]; [227; 128; 128]].

Definition strip_one (seqs : list str) (s : str) : option str :=
  match List.find (λ p, has_prefix p s) seqs with
  | Some p => Some (drop (length p) s)
  | None => None
  end.

Fixpoint strip_all (fuel : nat) (seqs : list str) (s : str) : str :=
  match fuel with
  | O => s
  | S f => match strip_one seqs s with Some s' => strip_all f seqs s' | None => s end
  end.

Definition trim_left_space (s : str) : str := strip_all (length s) space_seqs s.
Definition trim_right_space (s : str) : str :=
  rev (strip_all (length s) (map (@rev ascii) space_seqs) (rev s)).
Definition trim_space (s : str) : str := trim_right_space (trim_left_space s).

(** [strings.ToLower] on ASCII letters; other bytes are kept. *)
Definition lower_byte (c : ascii) : ascii :=
  let z := byte_val c in
  if (65 <=? z) && (z <=? 90) then byte_of (z + 32) else c.
Definition to_lower (s : str) : str := map lower_byte s.

(** [strings.EqualFold] on ASCII letters. *)
Definition equal_fold (s t : str) : bool := bool_decide (to_lower s = to_lower t).

(** ** strconv *)

Inductive num_error := ErrSyntax | ErrRange.

#[export] Instance num_error_eq_dec : EqDecision num_error.
Proof. solve_decision. Defined.

Definition digit_char (d : Z) : ascii := byte_of (48 + d).
Definition digit_of (c : ascii) : option Z :=
  let z := byte_val c in
  if (48 <=? z) && (z <=? 57) then Some (z - 48) else None.

(** [maxUint64/10 + 1]: the loop of [ParseUint] gives up before multiplying
    an accumulator that reached it. *)
Definition parse_cutoff : Z := 1844674407370955162.

Fixpoint parse_uint_loop (n : Z) (s : str) : Z * option num_error :=
  match s with
  | [] => (n, None)
  | c :: s' =>
      match digit_of c with
      | None => (0, Some ErrSyntax)
      | Some d =>
          if n >=? parse_cutoff then (max_uint64, Some ErrRange)
          else if n * 10 + d >? max_uint64 then (max_uint64, Some ErrRange)
          else parse_uint_loop (n * 10 + d) s'
      end
  end.

(** [strconv.ParseUint(s, 10, 64)] *)
Definition parse_uint (s : str) : Z * option num_error :=
  match s with [] => (0, Some ErrSyntax) | _ => parse_uint_loop 0 s end.

Definition parse_int_magnitude (neg : bool) (r : Z * option num_error) : Z * option num_error :=
  match r with
  | (_, Some ErrSyntax) => (0, Some ErrSyntax)
  | (un, _) =>
      if negb neg && (un >=? 9223372036854775808) then (max_int64, Some ErrRange)
      else if neg && (un >? 9223372036854775808) then (min_int64, Some ErrRange)
      else ((if neg then - un else un), None)
  end.

(** [strconv.ParseInt(s, 10, 64)]; [strconv.Atoi] on a 64-bit platform. *)
Definition parse_int (s : str) : Z * option num_error :=
  match s with
  | [] => (0, Some ErrSyntax)
  | c :: s' =>
      if bool_decide (c = "+"%char) then parse_int_magnitude false (parse_uint s')
      else if bool_decide (c = "-"%char) then parse_int_magnitude true (parse_uint s')
      else parse_int_magnitude false (parse_uint s)
  end.

Definition atoi : str → Z * option num_error := parse_int.

(** [%d] *)
Fixpoint dec_digits (fuel : nat) (n : Z) : str :=
  match fuel with
  | O => []
  | S f =>
      if n <? 10 then [digit_char n]
      else dec_digits f (n / 10) ++ [digit_char (n mod 10)]
  end.

Definition format_uint (n : Z) : str := dec_digits (S (Z.to_nat (Z.log2 n))) n.
Definition format_int (n : Z) : str :=
  if n <? 0 then "-"%char :: format_uint (- n) else format_uint n.

(** [fmt.Sscanf(s, "%d", &x)]: leading spaces other than a newline are skipped,
    then the longest run of digits (after a sign, for a signed target) is
    converted; what follows is ignored. *)
Fixpoint span_digits (s : str) : str :=
  match s with
  | c :: s' => match digit_of c with Some _ => c :: span_digits s' | None => [] end
  | [] => []
  end.

Definition scan_spaces : list str :=
  List.filter (λ p, negb (bool_decide (p = [byte_of 10]))) space_seqs.

Definition scan_skip (s : str) : str := strip_all (length s) scan_spaces s.

Definition sscanf_uint (s : str) : option Z :=
  match span_digits (scan_skip s) with
  | [] => None
  | ds => match parse_uint ds with (n, None) => Some n | _ => None end
  end.

Definition sscanf_int (s : str) : option Z :=
  let t := scan_skip s in
  let '(sgn, rest) :=
    match t with
    | c :: t' => if bool_decide (c = "+"%char) || bool_decide (c = "-"%char)
                 then ([c], t') else ([], t)
    | [] => ([], [])
    end in
  match span_digits rest with
  | [] => None
  | ds => match parse_int (sgn ++ ds) with (n, None) => Some n | _ => None end
  end.

(** ** Lemmas on the string functions *)

Lemma byte_val_inj a b : byte_val a = byte_val b → a = b.
Proof.
  unfold byte_val. intros E%N2Z.inj. rewrite <-(ascii_N_embedding a), <-(ascii_N_embedding b). by rewrite E.
Qed.

Lemma byte_val_range c : 0 <= byte_val c < 256.
Proof. unfold byte_val. pose proof (N_ascii_bounded c). lia. Qed.

Lemma byte_val_of z : 0 <= z < 256 → byte_val (byte_of z) = z.
Proof. intros ?. unfold byte_val, byte_of. rewrite N_ascii_embedding; lia. Qed.

Lemma has_prefix_app p s : has_prefix p (p ++ s) = true.
Proof. induction p as [|a p IH]; [done|]. simpl. by rewrite bool_decide_eq_true_2, IH. Qed.

Lemma has_prefix_spec p s : has_prefix p s = true ↔ ∃ t, s = p ++ t.
Proof.
  split; [|intros [t ->]; apply has_prefix_app].
  revert s; induction p as [|a p IH]; intros s H; [by exists s|].
  destruct s as [|b s]; [done|]. simpl in H. zbool. subst.
  destruct (IH s) as [t ->]; [done|]. by exists t.
Qed.

Lemma trim_prefix_app p s : trim_prefix p (p ++ s) = s.
Proof. unfold trim_prefix. by rewrite has_prefix_app, drop_app_length. Qed.

Lemma index_byte_app c s t : c ∉ s → index_byte c (s ++ c :: t) = Some (length s).
Proof.
  induction s as [|a s IH]; intros Hn; simpl.
  - by rewrite bool_decide_eq_true_2.
  - apply not_elem_of_cons in Hn as [Ha Hn].
    rewrite bool_decide_eq_false_2 by congruence. by rewrite IH.
Qed.

Lemma index_byte_Some c s i :
  index_byte c s = Some i → ∃ t, s = take i s ++ c :: t ∧ (c ∉ take i s) ∧ (i < length s)%nat.
Proof.
  revert i; induction s as [|a s IH]; intros i H; simpl in H; [done|].
  case_bool_decide; simplify_eq.
  - exists s. simpl. split_and!; [done|set_solver|lia].
  - destruct (index_byte c s) as [j|] eqn:E; simplify_eq/=.
    destruct (IH j) as (t & Ht & Hn & Hl); [done|].
    exists t. split_and!; [by rewrite Ht at 1|set_solver|lia].
Qed.

Lemma index_byte_None c s : index_byte c s = None ↔ c ∉ s.
Proof.
  induction s as [|a s IH]; simpl; [set_solver|].
  case_bool_decide; simplify_eq; [set_solver|].
  rewrite fmap_None, IH. set_solver.
Qed.

Lemma contains_byte_spec c s : contains_byte c s = true ↔ c ∈ s.
Proof.
  unfold contains_byte. destruct (index_byte c s) eqn:E.
  - apply index_byte_Some in E as (t & Ht & _). split; [|done]. intros _. rewrite Ht. set_solver.
  - apply index_byte_None in E. done.
Qed.

Lemma split_byte_ne c s : split_byte c s ≠ [].
Proof.
  destruct s as [|a s]; simpl; [done|]. case_bool_decide; [done|].
  by destruct (split_byte c s).
Qed.

Lemma split_byte_notin c s : c ∉ s → split_byte c s = [s].
Proof.
  induction s as [|a s IH]; intros Hn; simpl; [done|].
  apply not_elem_of_cons in Hn as [Ha Hn].
  rewrite bool_decide_eq_false_2 by congruence. by rewrite IH.
Qed.

Lemma split_byte_app c s t : c ∉ s → split_byte c (s ++ c :: t) = s :: split_byte c t.
Proof.
  induction s as [|a s IH]; intros Hn; simpl.
  - by rewrite bool_decide_eq_true_2.
  - apply not_elem_of_cons in Hn as [Ha Hn].
    rewrite bool_decide_eq_false_2 by congruence. by rewrite IH.
Qed.

(** A string that contains the separator splits into at least two pieces. *)
Lemma split_byte_two c s : c ∈ s → ∃ a b l, split_byte c s = a :: b :: l.
Proof.
  induction s as [|x s IH]; intros Hin; [set_solver|]. simpl.
  case_bool_decide as Hx.
  - destruct (split_byte c s) as [|w ws] eqn:E; [by apply split_byte_ne in E|].
    by exists [], w, ws.
  - apply elem_of_cons in Hin as [->|Hin]; [done|].
    destruct (IH Hin) as (a & b & l & ->). by eexists _, _, _.
Qed.

Lemma join_snoc sep (l : list str) x : l ≠ [] → join sep (l ++ [x]) = join sep l ++ sep ++ x.
Proof.
  intros Hne. induction l as [|a [|b l] IH]; [done| |].
  - simpl. done.
  - change (join sep ((a :: b :: l) ++ [x])) with (a ++ sep ++ join sep ((b :: l) ++ [x])). rewrite IH by done.
    change (join sep (a :: b :: l)) with (a ++ sep ++ join sep (b :: l)). by rewrite <-!app_assoc.
Qed.

(** Splitting is the left inverse of joining words without the separator. *)
Lemma split_join c (l : list str) :
  l ≠ [] → Forall (λ w, c ∉ w) l → split_byte c (join [c] l) = l.
Proof.
  intros Hl Hf. induction Hf as [|w l Hw Hf IH]; [done|].
  destruct l as [|w' l]; simpl; [by apply split_byte_notin|].
  rewrite split_byte_app by done. f_equal. by apply IH.
Qed.

(** *** TrimSpace leaves visible text alone *)

Definition graphic (c : ascii) : bool := (33 <=? byte_val c) && (byte_val c <=? 126).

Definition starts_invisible (p : str) : bool :=
  match p with [] => false | a :: _ => negb (graphic a) end.

Lemma strip_one_graphic (seqs : list str) c s :
  forallb starts_invisible seqs = true →
  graphic c = true → strip_one seqs (c :: s) = None.
Proof.
  intros Hs Hc. unfold strip_one.
  destruct (List.find _ seqs) as [p|] eqn:E; [|done].
  apply List.find_some in E as [Hin Hp].
  rewrite forallb_forall in Hs. specialize (Hs p Hin).
  destruct p as [|a p]; [done|]. simpl in *. zbool. congruence.
Qed.

Lemma strip_all_None fuel seqs s : strip_one seqs s = None → strip_all fuel seqs s = s.
Proof. intros H. destruct fuel; simpl; [done|]. by rewrite H. Qed.

Lemma trim_left_graphic c s : graphic c = true → trim_left_space (c :: s) = c :: s.
Proof. intros ?. by apply strip_all_None, strip_one_graphic. Qed.

Lemma trim_right_graphic s c : graphic c = true → trim_right_space (s ++ [c]) = s ++ [c].
Proof.
  intros ?. unfold trim_right_space. rewrite rev_app_distr. simpl.
  rewrite strip_all_None.
  - simpl. by rewrite rev_involutive.
  - by apply strip_one_graphic.
Qed.

Lemma trim_space_graphic s : Forall (λ c, graphic c = true) s → trim_space s = s.
Proof.
  intros Hs. unfold trim_space.
  destruct s as [|c s']; [done|].
  rewrite trim_left_graphic by by inversion Hs.
  destruct (exists_last (l := c :: s')) as (l & a & E); [done|]. rewrite E in *.
  apply trim_right_graphic. apply Forall_app in Hs as [_ Ha]. by inversion Ha.
Qed.

Lemma trim_space_ends a s c :
  graphic a = true → graphic c = true → trim_space (a :: s ++ [c]) = a :: s ++ [c].
Proof.
  intros Ha Hc. unfold trim_space. rewrite trim_left_graphic by done.
  apply (trim_right_graphic (a :: s)). done.
Qed.

(** *** Decimal numbers *)

Lemma digit_of_char d : 0 <= d < 10 → digit_of (digit_char d) = Some d.
Proof.
  intros Hd.
  assert (d = 0 ∨ d = 1 ∨ d = 2 ∨ d = 3 ∨ d = 4 ∨ d = 5 ∨ d = 6 ∨ d = 7 ∨ d = 8 ∨ d = 9)
    as Hc by lia.
  by destruct_or! Hc; subst.
Qed.

Lemma digit_char_graphic d : 0 <= d < 10 → graphic (digit_char d) = true.
Proof.
  intros Hd.
  assert (d = 0 ∨ d = 1 ∨ d = 2 ∨ d = 3 ∨ d = 4 ∨ d = 5 ∨ d = 6 ∨ d = 7 ∨ d = 8 ∨ d = 9)
    as Hc by lia.
  by destruct_or! Hc; subst.
Qed.

Lemma digit_of_bound c d : digit_of c = Some d → 0 <= d < 10.
Proof. unfold digit_of. case_if; [|done]. intros [= <-]. lia. Qed.

(** A digit is none of the punctuation bytes the formats use. *)
Definition is_digit (c : ascii) : bool :=
  match digit_of c with Some _ => true | None => false end.

Lemma is_digit_char d : 0 <= d < 10 → is_digit (digit_char d) = true.
Proof. intros ?. unfold is_digit. by rewrite digit_of_char. Qed.

Lemma digit_graphic c : is_digit c = true → graphic c = true.
Proof.
  unfold is_digit, digit_of, graphic. cbv zeta. intros H. case_if; [|done].
  apply andb_true_iff. split; apply Z.leb_le; lia.
Qed.

Lemma dec_digits_all fuel n : 0 <= n → Forall (λ c, is_digit c = true) (dec_digits fuel n).
Proof.
  revert n; induction fuel as [|f IH]; intros n Hn; simpl; [done|].
  case_if.
  - apply Forall_singleton, is_digit_char. lia.
  - apply Forall_app. split.
    + apply IH. apply Z.div_pos; lia.
    + apply Forall_singleton, is_digit_char, Z.mod_pos_bound. lia.
Qed.

Lemma dec_digits_ne f n : dec_digits (S f) n ≠ [].
Proof. simpl. case_if; [done|]. by destruct (dec_digits f (n / 10)). Qed.

Lemma format_uint_digits n : 0 <= n → Forall (λ c, is_digit c = true) (format_uint n).
Proof. apply dec_digits_all. Qed.

Lemma format_uint_ne n : format_uint n ≠ [].
Proof. apply dec_digits_ne. Qed.

Lemma digits_notin c l : is_digit c = false → Forall (λ c, is_digit c = true) l → c ∉ l.
Proof. intros Hc Hl Hin. rewrite Forall_forall in Hl. apply Hl in Hin. congruence. Qed.

Lemma parse_uint_loop_app n s t :
  parse_uint_loop n (s ++ t) =
    match parse_uint_loop n s with
    | (m, None) => parse_uint_loop m t
    | r => r
    end.
Proof.
  revert n; induction s as [|c s IH]; intros n; simpl; [done|].
  destruct (digit_of c); [|done]. repeat case_if; try done.
Qed.

Lemma parse_uint_loop_dec fuel n :
  0 <= n < 2 ^ Z.of_nat (S fuel) → n <= max_uint64 →
  parse_uint_loop 0 (dec_digits (S fuel) n) = (n, None).
Proof.
  unfold max_uint64.
  revert n; induction fuel as [|f IH]; intros n Hn Hmax.
  - simpl in Hn. simpl. case_if; [|lia].
    simpl. rewrite digit_of_char by lia.
    unfold parse_cutoff, max_uint64. repeat case_if; try lia. f_equal; lia.
  - change (dec_digits (S (S f)) n) with
      (if n <? 10 then [digit_char n]
       else dec_digits (S f) (n / 10) ++ [digit_char (n mod 10)]).
    pose proof (Z.div_mod n 10 ltac:(lia)). pose proof (Z.mod_pos_bound n 10 ltac:(lia)).
    case_if.
    + simpl. rewrite digit_of_char by lia.
      unfold parse_cutoff, max_uint64. repeat case_if; try lia. f_equal; lia.
    + rewrite parse_uint_loop_app, IH.
      * simpl. rewrite digit_of_char by lia.
        unfold parse_cutoff, max_uint64. repeat case_if; try lia. f_equal; lia.
      * rewrite (Nat2Z.inj_succ (S f)), Z.pow_succ_r in Hn by lia. lia.
      * lia.
Qed.

Lemma log2_fuel n : 0 <= n → n < 2 ^ Z.of_nat (S (Z.to_nat (Z.log2 n))).
Proof.
  intros Hn. rewrite Nat2Z.inj_succ, Z2Nat.id by apply Z.log2_nonneg.
  destruct (Z.eq_dec n 0) as [->|]; [done|]. apply Z.log2_spec. lia.
Qed.

Lemma parse_format_uint n : in_u64 n → parse_uint (format_uint n) = (n, None).
Proof.
  unfold in_u64, max_uint64. intros Hn. unfold parse_uint.
  destruct (format_uint n) as [|c s] eqn:E; [by apply format_uint_ne in E|].
  rewrite <-E. apply parse_uint_loop_dec; [|unfold max_uint64; lia].
  split; [lia|]. apply log2_fuel. lia.
Qed.

Lemma format_uint_head n :
  0 <= n → ∃ c s, format_uint n = c :: s ∧ is_digit c = true.
Proof.
  intros Hn. pose proof (format_uint_digits n Hn) as Hd.
  destruct (format_uint n) as [|c s] eqn:E; [by apply format_uint_ne in E|].
  exists c, s. split; [done|]. by inversion Hd.
Qed.

(** The round trip of [strconv]: every [int64] is read back as printed. *)
Lemma parse_format_int n : in_i64 n → parse_int (format_int n) = (n, None).
Proof.
  unfold in_i64, min_int64, max_int64. intros Hn. unfold format_int. case_if.
  - simpl. rewrite parse_format_uint by (unfold_ints; lia). simpl.
    case_if; [lia|]. f_equal; lia.
  - destruct (format_uint_head n) as (c & s & E & Hc); [lia|].
    unfold parse_int. rewrite E.
    rewrite !bool_decide_eq_false_2 by (intros ->; done).
    rewrite <-E, parse_format_uint by (unfold_ints; lia). simpl.
    case_if; [lia|]. done.
Qed.

Lemma parse_uint_loop_nonneg acc s : 0 <= acc → 0 <= (parse_uint_loop acc s).1.
Proof.
  revert acc; induction s as [|c s IH]; intros acc Ha; simpl; [done|].
  unfold digit_of. repeat case_if; simpl; unfold_ints; try lia. apply IH. lia.
Qed.

Lemma parse_int_range s n : parse_int s = (n, None) → in_i64 n.
Proof.
  assert (∀ neg s, parse_int_magnitude neg (parse_uint s) = (n, None) → in_i64 n) as Hm.
  { intros neg t. assert (0 <= (parse_uint t).1) as H0.
    { destruct t; [done|]. by apply parse_uint_loop_nonneg. }
    destruct (parse_uint t) as [un e]; simpl in *. unfold parse_int_magnitude. unfold_ints.
    destruct e as [[]|]; destruct neg; simpl; repeat case_if; intros [= <-]; lia. }
  destruct s as [|c s]; unfold parse_int; [done|]. repeat case_if; apply Hm.
Qed.

(** *** What a numeral means

    The value of an optionally signed run of decimal digits, of any length. *)

Fixpoint digits_value (acc : Z) (s : str) : option Z :=
  match s with
  | [] => Some acc
  | c :: s' => match digit_of c with Some d => digits_value (acc * 10 + d) s' | None => None end
  end.

Definition natural (s : str) : option Z := match s with [] => None | _ => digits_value 0 s end.

Definition numeral (s : str) : option Z :=
  match s with
  | [] => None
  | c :: s' =>
      if bool_decide (c = "+"%char) then natural s'
      else if bool_decide (c = "-"%char) then Z.opp <$> natural s'
      else natural s
  end.

Lemma digit_of_range c d : digit_of c = Some d → 0 <= d <= 9.
Proof. unfold digit_of. cbv zeta. case_if; [|done]. intros [= <-]. lia. Qed.

Lemma digits_value_ge acc s n : 0 <= acc → digits_value acc s = Some n → acc <= n.
Proof.
  revert acc. induction s as [|c s IH]; intros acc Ha; cbn [digits_value]; [intros [= ->]; lia|].
  destruct (digit_of c) as [d|] eqn:Ed; [|done]. apply digit_of_range in Ed. intros H%IH; lia.
Qed.

Lemma parse_uint_loop_value acc s : 0 <= acc <= max_uint64 →
  match digits_value acc s with
  | Some n => parse_uint_loop acc s = if n <=? max_uint64 then (n, None) else (max_uint64, Some ErrRange)
  | None => parse_uint_loop acc s = (0, Some ErrSyntax) ∨ parse_uint_loop acc s = (max_uint64, Some ErrRange)
  end.
Proof.
  revert acc. induction s as [|c s IH]; intros acc Ha; cbn [digits_value parse_uint_loop].
  { destruct (Z.leb_spec acc max_uint64); [done|lia]. }
  destruct (digit_of c) as [d|] eqn:Ed; [|by left]. apply digit_of_range in Ed.
  assert (max_uint64 < acc * 10 + d ∨ acc * 10 + d <= max_uint64) as [Hov|Hin] by lia.
  - assert ((if acc >=? parse_cutoff then (max_uint64, Some ErrRange)
      else if acc * 10 + d >? max_uint64 then (max_uint64, Some ErrRange) else parse_uint_loop (acc * 10 + d) s) = (max_uint64, Some ErrRange)) as ->
      by (repeat case_if; done || lia).
    destruct (digits_value (acc * 10 + d) s) as [n|] eqn:En; [|by right]. apply digits_value_ge in En; [|lia].
    destruct (Z.leb_spec n max_uint64); [lia|done].
  - unfold parse_cutoff. unfold max_uint64 in *. repeat (case_if; [lia|]). apply IH. lia.
Qed.

(** [strconv.Atoi] accepts the numerals in the range of an int64, and on a numeral
    out of it returns the nearest bound with its error. *)
Lemma atoi_numeral s :
  match numeral s with
  | Some n => atoi s = if n <? min_int64 then (min_int64, Some ErrRange) else if max_int64 <? n then (max_int64, Some ErrRange) else (n, None)
  | None => atoi s = (0, Some ErrSyntax) ∨ atoi s = (min_int64, Some ErrRange) ∨ atoi s = (max_int64, Some ErrRange)
  end.
Proof.
  assert (∀ neg t, match natural t with
    | Some n => 0 <= n ∧ parse_int_magnitude neg (parse_uint t)
        = if negb neg && (max_int64 <? n) then (max_int64, Some ErrRange) else if neg && (n >? 9223372036854775808) then (min_int64, Some ErrRange)
          else ((if neg then - n else n), None)
    | None => parse_int_magnitude neg (parse_uint t) ∈ [(0, Some ErrSyntax); ((if neg then min_int64 else max_int64), Some ErrRange)]
    end) as Hm.
  { intros neg [|c t]; [by left|]. unfold natural, parse_uint.
    pose proof (parse_uint_loop_value 0 (c :: t) ltac:(unfold max_uint64; lia)) as Hl.
    destruct (digits_value 0 (c :: t)) as [n|] eqn:En.
    - apply digits_value_ge in En; [|lia]. split; [done|]. rewrite Hl. unfold_ints.
      destruct neg; cbn [negb andb]; repeat case_if; cbn [parse_int_magnitude negb andb]; repeat case_if; try done; lia.
    - destruct Hl as [-> | ->]; [by left|right]. destruct neg; by left. }
  destruct s as [|c s]; [by left|]. unfold atoi, parse_int, numeral. destruct (bool_decide (c = "+"%char)); [|destruct (bool_decide (c = "-"%char))].
  - specialize (Hm false s). destruct (natural s) as [n|]; cbn [negb andb] in Hm; [|set_solver]. destruct Hm as [Hn ->].
    unfold_ints. repeat case_if; done || lia.
  - specialize (Hm true s). destruct (natural s) as [n|]; cbn [fmap option_fmap option_map negb andb] in *; [|set_solver].
    destruct Hm as [Hn ->]. unfold_ints. repeat case_if; done || lia.
  - specialize (Hm false (c :: s)). destruct (natural (c :: s)) as [n|]; cbn [negb andb] in Hm; [|set_solver]. destruct Hm as [Hn ->].
    unfold_ints. repeat case_if; done || lia.
Qed.

Lemma format_int_nonneg n : 0 <= n → format_int n = format_uint n.
Proof. intros ?. unfold format_int. case_if; [lia|done]. Qed.

Lemma format_nonneg_digits n : 0 <= n → Forall (λ c, is_digit c = true) (format_int n).
Proof. intros ?. rewrite format_int_nonneg by done. by apply format_uint_digits. Qed.

Lemma format_nonneg_graphic n : 0 <= n → Forall (λ c, graphic c = true) (format_int n).
Proof. intros ?. eapply Forall_impl; [by apply format_nonneg_digits|]. apply digit_graphic. Qed.

Lemma format_notin c n : is_digit c = false → 0 <= n → c ∉ format_int n.
Proof. intros. eapply digits_notin; [done|]. by apply format_nonneg_digits. Qed.

Lemma format_int_ne n : format_int n ≠ [].
Proof. unfold format_int. case_if; [done|]. apply format_uint_ne. Qed.

(** *** Sscanf reads back what [%d] printed *)

Lemma span_digits_app s c t :
  Forall (λ c, is_digit c = true) s → is_digit c = false →
  span_digits (s ++ c :: t) = s.
Proof.
  unfold is_digit. induction 1 as [|a s Ha Hs IH]; intros Hc; simpl.
  - by destruct (digit_of c).
  - destruct (digit_of a); [|done]. by rewrite IH.
Qed.

Lemma span_digits_all s : Forall (λ c, is_digit c = true) s → span_digits s = s.
Proof.
  unfold is_digit. induction 1 as [|a s Ha Hs IH]; simpl; [done|].
  destruct (digit_of a); [|done]. by rewrite IH.
Qed.

Lemma scan_skip_digit c s : is_digit c = true → scan_skip (c :: s) = c :: s.
Proof.
  intros ?. apply strip_all_None, strip_one_graphic; [done|]. by apply digit_graphic.
Qed.

Lemma sscanf_format_uint n : in_u64 n → sscanf_uint (format_int n) = Some n.
Proof.
  unfold in_u64, max_uint64. intros Hn. unfold sscanf_uint.
  rewrite format_int_nonneg by lia.
  destruct (format_uint_head n) as (c & s & E & Hc); [lia|].
  rewrite E, scan_skip_digit, <-E, span_digits_all by (done || apply format_uint_digits; lia).
  destruct (format_uint n) eqn:E'; [by apply format_uint_ne in E'|]. rewrite <-E'.
  by rewrite parse_format_uint.
Qed.

Lemma sscanf_format_int n : 0 <= n <= max_int64 → sscanf_int (format_int n) = Some n.
Proof.
  intros Hn. unfold sscanf_int.
  destruct (format_uint_head n) as (c & s & E & Hc); [lia|].
  rewrite format_int_nonneg, E, scan_skip_digit by (done || lia).
  rewrite !bool_decide_eq_false_2 by (intros ->; done). simpl orb. cbv iota.
  rewrite <-E, span_digits_all by (apply format_uint_digits; lia).
  destruct (format_uint n) eqn:E'; [by apply format_uint_ne in E'|]. rewrite <-E'.
  rewrite app_nil_l, <-format_int_nonneg, parse_format_int by (unfold_ints; lia). done.
Qed.

(** Side conditions on printed numbers. *)
Ltac fmt_side :=
  first [ done | apply format_nonneg_graphic; lia | apply format_notin; [done|lia]
        | by apply digits_notin | set_solver | unfold_ints; lia ].

(** ** encoding/binary *)

(** Fixed-width little-endian numbers; big-endian ones are their mirror. *)
Fixpoint le_val (l : str) : Z :=
  match l with [] => 0 | b :: l' => Z.lor (byte_val b) (Z.shiftl (le_val l') 8) end.

Fixpoint le_bytes (k : nat) (n : Z) : str :=
  match k with O => [] | S k' => byte_of (n mod 256) :: le_bytes k' (Z.shiftr n 8) end.

Lemma le_bytes_length k n : length (le_bytes k n) = k.
Proof. revert n. induction k; intros n; simpl; [done|]. by f_equal. Qed.

Lemma le_val_bytes k n : 0 <= n < 256 ^ Z.of_nat k → le_val (le_bytes k n) = n.
Proof.
  revert n. induction k as [|k IH]; intros n Hn; [simpl in *; lia|]. cbn [le_bytes le_val].
  rewrite Nat2Z.inj_succ, Z.pow_succ_r in Hn by lia.
  assert (Z.shiftr n 8 = n / 256) as Hs by (by rewrite Z.shiftr_div_pow2).
  rewrite byte_val_of by (apply Z.mod_pos_bound; lia). rewrite IH.
  2: { rewrite Hs. split; [apply Z.div_pos; lia|apply Z.div_lt_upper_bound; lia]. }
  rewrite Z.lor_comm, lor_shift_add, Hs by (try lia; apply Z.mod_pos_bound; lia).
  change (2 ^ 8) with 256. rewrite (Z.div_mod n 256) at 3 by lia. lia.
Qed.
