(* ===== verification/Logging.v ===== *)
(** * Loggers: contrib/log

    A logger is the standard one, a logger with fields and a context in front of
    another, or a filter in front of another.  [Log] hands a level and a slice of keys
    and values down; a filter writes into the slice it is given, which is the caller's
    when the call passes one.  A value that is a function ([Valuer]) is replaced by its
    result if it is a field, and cannot be looked up in the tables of a filter: there
    the lookup panics.

    Proved: below any loggers with fields a record reaches the standard logger once,
    with the fields in the order in which they were added and bound to the context
    given last; a filter lets a record pass exactly if its level is high enough and its
    function agrees, and hides the values of its keys and its values; but not those of
    fields that were added below it.  The package function [Enabled] compares the
    levels the wrong way round. *)

From S2P Require Import Prelude GoStrings.

Local Open Scope Z_scope.

(** ** Levels *)

Definition LevelDebug : Z := -1.
Definition LevelInfo : Z := 0.
Definition LevelWarn : Z := 1.
Definition LevelError : Z := 2.
Definition LevelFatal : Z := 3.

Definition Level_String (l : Z) : str :=
  if l =? LevelDebug then bs "DEBUG" else if l =? LevelInfo then bs "INFO" else if l =? LevelWarn then bs "WARN"
  else if l =? LevelError then bs "ERROR" else if l =? LevelFatal then bs "FATAL" else [].

(** [strings.ToUpper] of the ASCII letters. *)
Definition upper_byte (c : ascii) : ascii :=
  if (97 <=? byte_val c) && (byte_val c <=? 122) then byte_of (byte_val c - 32) else c.
Definition to_upper (s : str) : str := map upper_byte s.

Definition ParseLevel (s : str) : Z :=
  let u := to_upper s in
  if bool_decide (u = bs "DEBUG") then LevelDebug else if bool_decide (u = bs "INFO") then LevelInfo
  else if bool_decide (u = bs "WARN") then LevelWarn else if bool_decide (u = bs "ERROR") then LevelError
  else if bool_decide (u = bs "FATAL") then LevelFatal else LevelInfo.

(** ** Values and loggers *)

Inductive value := VStr (s : str) | VNum (n : Z) | VFun (f : nat).

#[export] Instance value_eq_dec : EqDecision value.
Proof. solve_decision. Defined.

Definition is_valuer (v : value) : bool := match v with VFun _ => true | _ => false end.

Section loggers.
Context {ctx : Type} (background : ctx) (call : nat → ctx → value).

Inductive logger :=
| Std
| Fields (l : logger) (prefix : list value) (hasValuer : bool) (c : ctx)
| Filter (l : logger) (level : Z) (keys values : list value) (filter : option (Z → list value → bool)).

(** [bindValues]: the values at the odd positions. *)
Fixpoint bindValues (c : ctx) (kvs : list value) : list value :=
  match kvs with
  | k :: v :: rest => k :: (match v with VFun f => call f c | _ => v end) :: bindValues c rest
  | _ => kvs
  end.

Fixpoint containsValuer (kvs : list value) : bool :=
  match kvs with k :: v :: rest => is_valuer v || containsValuer rest | _ => false end.

Definition With (l : logger) (kv : list value) : logger :=
  match l with
  | Fields l prefix _ c => Fields l (prefix ++ kv) (containsValuer (prefix ++ kv)) c
  | _ => Fields l kv (containsValuer kv) background
  end.

Fixpoint WithContext (c : ctx) (l : logger) : logger :=
  match l with
  | Std => Fields Std [] false c
  | Fields l prefix h _ => Fields l prefix h c
  | Filter l level keys values f => Filter (WithContext c l) level keys values f
  end.

Definition fuzzy : value := VStr (bs "***").

(** Membership in a [map[any]struct{}]; a function as the key panics. *)
Definition in_table (t : list value) (v : value) : option bool := if is_valuer v then None else Some (bool_decide (v ∈ t)).

(** The loop of [Filter.Log]; a key without a value ends it. *)
Fixpoint redact (keys values kvs : list value) : option (list value) :=
  match kvs with
  | k :: v :: rest =>
      hidden ← in_table keys k;
      let v := if hidden : bool then fuzzy else v in
      hidden ← in_table values v;
      let v := if hidden : bool then fuzzy else v in
      rest ← redact keys values rest;
      Some (k :: v :: rest)
  | _ => Some kvs
  end.

(** The slice [logger.Log] passes on: the fields, then the record. *)
Definition with_fields (h : bool) (c : ctx) (prefix kvs : list value) : list value := (if h then bindValues c prefix else prefix) ++ kvs.

(** The records written, and the slice of the caller afterwards. *)
Fixpoint Log (l : logger) (lv : Z) (kvs : list value) : option (list (Z * list value) * list value) :=
  match l with
  | Std => Some ([(lv, kvs)], kvs)
  | Fields l prefix h c =>
      '(out, _) ← Log l lv (with_fields h c prefix kvs);
      Some (out, kvs)
  | Filter l' level keys values f =>
      if lv <? level then Some ([], kvs)
      else
        let prefixkv := match l' with Fields _ p _ _ => p | _ => [] end in
        if match f with Some f => f lv prefixkv || f lv kvs | None => false end then Some ([], kvs)
        else
          kvs ← (match keys, values with [], [] => Some kvs | _, _ => redact keys values kvs end);
          Log l' lv kvs
  end.

(** [Helper.Enabled] and the [Enabled] of the package. *)
Definition Helper_Enabled (l : logger) (lv : Z) : bool := match l with Filter _ level _ _ _ => level <=? lv | _ => true end.
Definition Enabled (global : logger) (lv : Z) : bool := match global with Filter _ level _ _ _ => lv <=? level | _ => false end.

(** ** Theorems *)

(** The fields below, bound, from the outside in. *)
Fixpoint fields_of (l : logger) : option (list value) :=
  match l with
  | Std => Some []
  | Fields l prefix h c => (λ p, p ++ bindValues c prefix) <$> fields_of l
  | Filter _ _ _ _ _ => None
  end.

(** Loggers whose flag says whether a field is a function. *)
Fixpoint flagged (l : logger) : Prop :=
  match l with
  | Std => True
  | Fields l prefix h _ => h = containsValuer prefix ∧ flagged l
  | Filter l _ _ _ _ => flagged l
  end.

Lemma bind_none c kvs : containsValuer kvs = false → bindValues c kvs = kvs.
Proof.
  induction kvs as [kvs IH] using (induction_ltof1 _ (@length value)). unfold ltof in IH. destruct kvs as [|k [|v rest]]; [done|done|]. cbn [containsValuer bindValues].
  intros [Hv Hr]%orb_false_iff. rewrite (IH rest); [by destruct v|cbn; lia|done].
Qed.

Lemma with_flagged l kv : flagged l → flagged (With l kv).
Proof. destruct l; cbn; naive_solver. Qed.

Lemma with_context_flagged c l : flagged l → flagged (WithContext c l).
Proof. induction l; cbn; naive_solver. Qed.

Lemma log_fields l lv kvs p : flagged l → fields_of l = Some p → Log l lv kvs = Some ([(lv, p ++ kvs)], kvs).
Proof.
  revert kvs p. induction l as [|l IH prefix h c|]; intros kvs p Hf Hp; [by injection Hp as <-| |discriminate Hp].
  cbn [fields_of flagged Log] in *. unfold with_fields. destruct Hf as [-> Hf]. destruct (fields_of l) as [q|] eqn:Eq; [|done]. injection Hp as <-.
  assert ((if containsValuer prefix then bindValues c prefix else prefix) = bindValues c prefix) as -> by (destruct (containsValuer prefix) eqn:E; [done|by rewrite bind_none]).
  rewrite (IH _ q) by done. cbn. by rewrite <-app_assoc.
Qed.

(** fields and context.  Through any loggers with fields a record is written once,
    the caller's slice stays as it was, and the fields come first: those of [With]
    after the ones that were there, each function among them called with the context
    that [WithContext] gave last. *)
Theorem fields_logged l lv kvs kv c p : flagged l → fields_of l = Some p →
  Log l lv kvs = Some ([(lv, p ++ kvs)], kvs)
  ∧ (∀ l' prefix h c0, l = Fields l' prefix h c0 → ∃ q, fields_of l' = Some q ∧
       Log (WithContext c (With l kv)) lv kvs = Some ([(lv, q ++ bindValues c (prefix ++ kv) ++ kvs)], kvs))
  ∧ (l = Std → Log (WithContext c (With l kv)) lv kvs = Some ([(lv, bindValues c kv ++ kvs)], kvs)).
Proof.
  intros Hf Hp. split; [by apply log_fields|]. split.
  - intros l' prefix h c0 ->. cbn [fields_of flagged] in Hf, Hp. destruct Hf as [-> Hf]. destruct (fields_of l') as [q|] eqn:Eq; [|done]. exists q. split; [done|].
    rewrite (log_fields _ lv kvs (q ++ bindValues c (prefix ++ kv))); [by rewrite <-app_assoc|cbn; done|]. cbn [With WithContext fields_of]. by rewrite Eq.
  - intros ->. by rewrite (log_fields _ lv kvs (bindValues c kv)).
Qed.

(** What a filter does to a slice of keys and values. *)
Lemma redact_spec keys values kvs : Forall (λ v, is_valuer v = false) kvs →
  ∃ kvs', redact keys values kvs = Some kvs' ∧ length kvs' = length kvs ∧
    ∀ i k v, kvs !! (2 * i)%nat = Some k → kvs !! (2 * i + 1)%nat = Some v →
      kvs' !! (2 * i)%nat = Some k ∧ kvs' !! (2 * i + 1)%nat = Some (if bool_decide (k ∈ keys) || bool_decide (v ∈ values) then fuzzy else v).
Proof.
  induction kvs as [kvs IH] using (induction_ltof1 _ (@length value)). unfold ltof in IH. intros Hv. destruct kvs as [|k [|v rest]].
  - exists []. split; [done|]. split; [done|]. intros i k v Hk. by rewrite lookup_nil in Hk.
  - exists [k]. split; [done|]. split; [done|]. intros i k' v _ Hi. rewrite lookup_ge_None_2 in Hi by (cbn; lia). done.
  - apply Forall_cons in Hv as [Hk Hv]. apply Forall_cons in Hv as [Hvv Hv]. destruct (IH rest ltac:(cbn; lia) Hv) as (rest' & Hr & Hl & Hs).
    cbn [redact]. unfold in_table. rewrite Hk. cbn [mbind option_bind].
    set (v1 := if bool_decide (k ∈ keys) then fuzzy else v). assert (is_valuer v1 = false) as Hv1 by (unfold v1; by case_bool_decide). rewrite Hv1, Hr.
    eexists. split; [reflexivity|]. split; [cbn; lia|]. intros [|i] k' v' Hi Hi'.
    + cbn in Hi, Hi'. simplify_eq. split; [done|]. cbn. f_equal. unfold v1. destruct (bool_decide (k' ∈ keys)); cbn [orb]; by case_bool_decide.
    + replace (2 * S i)%nat with (S (S (2 * i))) in * by lia. cbn [lookup list_lookup Nat.add] in *. by apply Hs.
Qed.

(** a filter.  In front of loggers with fields, a record whose level is below that
    of the filter or which its function rejects is not written; every other record is
    written once, with the fields as they are, and the values under its keys and its
    values hidden, in the caller's slice too. *)
Theorem filter_hides l level keys values f lv kvs p : flagged l → fields_of l = Some p → Forall (λ v, is_valuer v = false) kvs → keys ++ values ≠ [] →
  let prefixkv := match l with Fields _ q _ _ => q | _ => [] end in
  let rejected := match f with Some g => g lv prefixkv || g lv kvs | None => false end in
  ((lv < level ∨ rejected = true) → Log (Filter l level keys values f) lv kvs = Some ([], kvs))
  ∧ (level <= lv → rejected = false → ∃ kvs', Log (Filter l level keys values f) lv kvs = Some ([(lv, p ++ kvs')], kvs') ∧ length kvs' = length kvs ∧
      ∀ i k v, kvs !! (2 * i)%nat = Some k → kvs !! (2 * i + 1)%nat = Some v →
        kvs' !! (2 * i + 1)%nat = Some (if bool_decide (k ∈ keys) || bool_decide (v ∈ values) then fuzzy else v)).
Proof.
  intros Hf Hp Hv Hne prefixkv rejected. cbn [Log]. fold prefixkv. fold rejected. split.
  - intros [Hlv|Hrej]; [by rewrite (proj2 (Z.ltb_lt _ _) Hlv)|]. destruct (lv <? level); [done|]. by rewrite Hrej.
  - intros Hlv Hrej. rewrite (proj2 (Z.ltb_ge _ _) Hlv), Hrej. destruct (redact_spec keys values kvs Hv) as (kvs' & Hr & Hl & Hs).
    assert ((match keys, values with [], [] => Some kvs | _, _ => redact keys values kvs end) = Some kvs') as -> by (by destruct keys, values).
    cbn [mbind option_bind]. rewrite (log_fields l lv kvs' p) by done. exists kvs'. split; [done|]. split; [done|]. intros i k v Hk Hi. by apply (Hs i k v).
Qed.

(** A filter that lets every level from Info on pass: the helper agrees with what is
    written, the package function does not. *)
Theorem enabled_inverted l : let g := Filter l LevelInfo [] [] None in
  Helper_Enabled g LevelError = true ∧ Enabled g LevelError = false
  ∧ Helper_Enabled g LevelDebug = false ∧ Enabled g LevelDebug = true ∧ ∀ kvs, Log g LevelDebug kvs = Some ([], kvs).
Proof. done. Qed.
End loggers.
Arguments logger ctx : clear implicits.
Arguments Std {ctx}.

(** The names of the levels are read back, in any case; every other name is Info. *)
Theorem level_round_trip l : LevelDebug <= l <= LevelFatal → ParseLevel (Level_String l) = l ∧ ParseLevel (to_lower (Level_String l)) = l.
Proof.
  unfold LevelDebug, LevelFatal. intros Hl.
  assert (l = -1 ∨ l = 0 ∨ l = 1 ∨ l = 2 ∨ l = 3) as [->|[->|[->|[->| ->]]]] by lia; vm_compute; done.
Qed.

(** A function as a value panics in a filter with keys; a field below it is shown. *)
Example filter_panics : Log (ctx := unit) (λ _ _, VNum 1) (Filter Std LevelInfo [VStr (bs "pw")] [] None) LevelInfo [VStr (bs "at"); VFun 0] = None.
Proof. vm_compute. reflexivity. Qed.

Example field_below_shown : ∃ kvs', Log (ctx := unit) (λ _ _, VNum 1) (Filter (With tt Std [VStr (bs "pw"); VStr (bs "x")]) LevelInfo [VStr (bs "pw")] [] None)
  LevelInfo [VStr (bs "pw"); VStr (bs "y")] = Some ([(LevelInfo, [VStr (bs "pw"); VStr (bs "x"); VStr (bs "pw"); fuzzy])], kvs').
Proof. eexists. vm_compute. reflexivity. Qed.

Definition lg_call (f : nat) (c : nat) : value := VNum (Z.of_nat c).

Lemma fields_logged_witness : Log lg_call (WithContext 7%nat (With 0%nat Std [VStr (bs "id"); VFun 0])) LevelInfo [VStr (bs "msg")]
  = Some ([(LevelInfo, [VStr (bs "id"); VNum 7; VStr (bs "msg")])], [VStr (bs "msg")]).
Proof.
  destruct (fields_logged 0%nat lg_call Std LevelInfo [VStr (bs "msg")] [VStr (bs "id"); VFun 0] 7%nat [] I eq_refl) as (_ & _ & H).
  exact (H eq_refl).
Defined.

Lemma filter_hides_witness : ∃ kvs', Log lg_call (Filter Std LevelInfo [VStr (bs "pw")] [] None) LevelWarn [VStr (bs "pw"); VStr (bs "x")] = Some ([(LevelWarn, kvs')], kvs')
  ∧ kvs' !! 1%nat = Some fuzzy.
Proof.
  destruct (filter_hides lg_call Std LevelInfo [VStr (bs "pw")] [] None LevelWarn [VStr (bs "pw"); VStr (bs "x")] [] I eq_refl) as (_ & H).
  - repeat constructor.
  - discriminate.
  - destruct (H ltac:(vm_compute; discriminate) eq_refl) as (kvs' & Hl & _ & Hi). exists kvs'. split; [exact Hl|].
    exact (Hi 0%nat (VStr (bs "pw")) (VStr (bs "x")) eq_refl eq_refl).
Defined.
