(* ===== verification/LogHelper.v ===== *)
(** * The printing functions: contrib/log helper.go, global.go, helper_writer.go, std.go

    [Logging] has the loggers; here are the functions the program calls: the
    methods of a [Helper], which skip the formatting when the level is not
    enabled, the functions of the package on the global logger, the writer that
    turns what is written to it into records, and the line the standard logger
    writes.  The formatting of the arguments ([fmt.Sprint], [fmt.Sprintf]) is a
    parameter, as the helper's options replace it.

    Proved: skipping a level hides no record that the logger would have
    written, so a helper and the global functions write the same records; Fatal ends the
    process whether its record is written or not; the standard logger writes one line
    for a record, which pads a key without a value. *)

From S2P Require Import Prelude GoStrings Logging.

Local Open Scope Z_scope.

Section helper.
Context {ctx : Type} (background : ctx) (call : nat → ctx → value).
Context {arg : Type}.
Local Abbreviation logger := (logger ctx).
Local Abbreviation Log := (Log call).

(** What a call does: the records that are written, and whether the process
    ends.  [None] is a panic. *)
Definition printed : Type := option (list (Z * list value) * bool).

Definition DefaultMessageKey : str := bs "msg".

Record Helper := mkHelper {
  h_logger : logger; h_msgKey : str; h_sprint : list arg → str; h_sprintf : str → list arg → str }.

Variables (Sprint : list arg → str) (Sprintf : str → list arg → str).

Definition WithMessageKey (k : str) (h : Helper) : Helper := mkHelper (h_logger h) k (h_sprint h) (h_sprintf h).
Definition WithSprint (f : list arg → str) (h : Helper) : Helper := mkHelper (h_logger h) (h_msgKey h) f (h_sprintf h).
Definition WithSprintf (f : str → list arg → str) (h : Helper) : Helper := mkHelper (h_logger h) (h_msgKey h) (h_sprint h) f.

Definition NewHelper (l : logger) (opts : list (Helper → Helper)) : Helper :=
  fold_left (λ h o, o h) opts (mkHelper l DefaultMessageKey Sprint Sprintf).

Definition Helper_WithContext (c : ctx) (h : Helper) : Helper :=
  mkHelper (WithContext c (h_logger h)) (h_msgKey h) (h_sprint h) (h_sprintf h).

(** The records of a call of [Log], whose error is dropped. *)
Definition records (l : logger) (lv : Z) (kvs : list value) : option (list (Z * list value)) := fst <$> Log l lv kvs.

Definition Helper_Log (h : Helper) (lv : Z) (kvs : list value) : printed :=
  (λ r, (r, false)) <$> records (h_logger h) lv kvs.

(** A message under the key of the helper. *)
Definition message (h : Helper) (lv : Z) (text : str) : printed := Helper_Log h lv [VStr (h_msgKey h); VStr text].

Definition Debug (h : Helper) (a : list arg) : printed :=
  if negb (Helper_Enabled (h_logger h) LevelDebug) then Some ([], false) else message h LevelDebug (h_sprint h a).
Definition Debugf (h : Helper) (format : str) (a : list arg) : printed :=
  if negb (Helper_Enabled (h_logger h) LevelDebug) then Some ([], false) else message h LevelDebug (h_sprintf h format a).
Definition Debugw (h : Helper) (kvs : list value) : printed := Helper_Log h LevelDebug kvs.
Definition Info (h : Helper) (a : list arg) : printed :=
  if negb (Helper_Enabled (h_logger h) LevelInfo) then Some ([], false) else message h LevelInfo (h_sprint h a).
Definition Infof (h : Helper) (format : str) (a : list arg) : printed :=
  if negb (Helper_Enabled (h_logger h) LevelInfo) then Some ([], false) else message h LevelInfo (h_sprintf h format a).
Definition Infow (h : Helper) (kvs : list value) : printed := Helper_Log h LevelInfo kvs.
Definition Warn (h : Helper) (a : list arg) : printed :=
  if negb (Helper_Enabled (h_logger h) LevelWarn) then Some ([], false) else message h LevelWarn (h_sprint h a).
Definition Warnf (h : Helper) (format : str) (a : list arg) : printed :=
  if negb (Helper_Enabled (h_logger h) LevelWarn) then Some ([], false) else message h LevelWarn (h_sprintf h format a).
Definition Warnw (h : Helper) (kvs : list value) : printed := Helper_Log h LevelWarn kvs.
Definition Error (h : Helper) (a : list arg) : printed :=
  if negb (Helper_Enabled (h_logger h) LevelError) then Some ([], false) else message h LevelError (h_sprint h a).
Definition Errorf (h : Helper) (format : str) (a : list arg) : printed :=
  if negb (Helper_Enabled (h_logger h) LevelError) then Some ([], false) else message h LevelError (h_sprintf h format a).
Definition Errorw (h : Helper) (kvs : list value) : printed := Helper_Log h LevelError kvs.

(** [os.Exit(1)] *)
Definition exits (p : printed) : printed := (λ r, (fst r, true)) <$> p.
Definition Fatal (h : Helper) (a : list arg) : printed := exits (message h LevelFatal (h_sprint h a)).
Definition Fatalf (h : Helper) (format : str) (a : list arg) : printed := exits (message h LevelFatal (h_sprintf h format a)).
Definition Fatalw (h : Helper) (kvs : list value) : printed := exits (Helper_Log h LevelFatal kvs).

(** ** The functions of the package *)

(** [global] is the logger that [SetLogger] set last. *)
Definition SetLogger (global l : logger) : logger := l.
Definition GetLogger (global : logger) : logger := global.
Definition Context_ (c : ctx) (global : logger) : Helper := NewHelper (WithContext c global) [].

Definition global_Log (g : logger) (lv : Z) (kvs : list value) : printed := (λ r, (r, false)) <$> records g lv kvs.
Definition global_message (g : logger) (lv : Z) (text : str) : printed := global_Log g lv [VStr DefaultMessageKey; VStr text].

Definition global_Debug (g : logger) (a : list arg) : printed := global_message g LevelDebug (Sprint a).
Definition global_Debugf (g : logger) (format : str) (a : list arg) : printed := global_message g LevelDebug (Sprintf format a).
Definition global_Debugw (g : logger) (kvs : list value) : printed := global_Log g LevelDebug kvs.
Definition global_Info (g : logger) (a : list arg) : printed := global_message g LevelInfo (Sprint a).
Definition global_Infof (g : logger) (format : str) (a : list arg) : printed := global_message g LevelInfo (Sprintf format a).
Definition global_Infow (g : logger) (kvs : list value) : printed := global_Log g LevelInfo kvs.
Definition global_Warn (g : logger) (a : list arg) : printed := global_message g LevelWarn (Sprint a).
Definition global_Warnf (g : logger) (format : str) (a : list arg) : printed := global_message g LevelWarn (Sprintf format a).
Definition global_Warnw (g : logger) (kvs : list value) : printed := global_Log g LevelWarn kvs.
Definition global_Error (g : logger) (a : list arg) : printed := global_message g LevelError (Sprint a).
Definition global_Errorf (g : logger) (format : str) (a : list arg) : printed := global_message g LevelError (Sprintf format a).
Definition global_Errorw (g : logger) (kvs : list value) : printed := global_Log g LevelError kvs.
Definition global_Fatal (g : logger) (a : list arg) : printed := exits (global_message g LevelFatal (Sprint a)).
Definition global_Fatalf (g : logger) (format : str) (a : list arg) : printed := exits (global_message g LevelFatal (Sprintf format a)).
Definition global_Fatalw (g : logger) (kvs : list value) : printed := exits (global_Log g LevelFatal kvs).

(** ** helper_writer.go *)

Record writerWrapper := mkWrapper { ww_helper : Helper; ww_level : Z }.
Definition WithWriterLevel (lv : Z) (w : writerWrapper) : writerWrapper := mkWrapper (ww_helper w) lv.
Definition WithWriteMessageKey (k : str) (w : writerWrapper) : writerWrapper := mkWrapper (WithMessageKey k (ww_helper w)) (ww_level w).
Definition NewWriter (l : logger) (opts : list (writerWrapper → writerWrapper)) : writerWrapper :=
  fold_left (λ w o, o w) opts (mkWrapper (NewHelper l [WithMessageKey DefaultMessageKey]) LevelInfo).

(** The count that is returned, without an error, and what was written. *)
Definition ww_Write (w : writerWrapper) (p : str) : Z * printed := (0, Helper_Log (ww_helper w) (ww_level w) [VStr (h_msgKey (ww_helper w)); VStr p]).

(** ** Theorems *)

(** A level that is not enabled is one the logger drops. *)
Lemma disabled_drops l lv kvs : Helper_Enabled l lv = false → records l lv kvs = Some [].
Proof.
  destruct l as [|l p b c|l level keys values f]; [done|done|]. unfold Helper_Enabled, records. cbn [Logging.Log].
  intros Hlv%Z.leb_gt. by rewrite (proj2 (Z.ltb_lt lv level)).
Qed.

(** A method that checks the level first. *)
Lemma checked_print h lv text :
  (if negb (Helper_Enabled (h_logger h) lv) then Some ([], false) else message h lv text) = message h lv text.
Proof.
  destruct (Helper_Enabled (h_logger h) lv) eqn:Ee; [done|]. unfold message, Helper_Log. by rewrite disabled_drops.
Qed.

(** The methods of a helper write exactly the records that the logger
    behind it writes for the level, the key of the helper and the formatted text:
    the check of the level before the formatting hides nothing, whatever the
    logger, its filters and its fields.  So the helper of a context prints what the
    functions of the package print on the global logger with that context.  The
    Fatal functions end the process whether the record is written or not. *)
Theorem helper_writes_what_log_writes h g c a format kvs :
  (Debug h a = message h LevelDebug (h_sprint h a) ∧ Info h a = message h LevelInfo (h_sprint h a)
   ∧ Warn h a = message h LevelWarn (h_sprint h a) ∧ Error h a = message h LevelError (h_sprint h a))
  ∧ (Debugf h format a = message h LevelDebug (h_sprintf h format a) ∧ Infof h format a = message h LevelInfo (h_sprintf h format a)
   ∧ Warnf h format a = message h LevelWarn (h_sprintf h format a) ∧ Errorf h format a = message h LevelError (h_sprintf h format a))
  ∧ (let k := Context_ c g in let gc := WithContext c g in
     Debug k a = global_Debug gc a ∧ Infof k format a = global_Infof gc format a ∧ Warn k a = global_Warn gc a
     ∧ Errorf k format a = global_Errorf gc format a ∧ Errorw k kvs = global_Errorw gc kvs)
  ∧ ∀ r e, Fatal h a = Some (r, e) ∨ Fatalf h format a = Some (r, e) ∨ Fatalw h kvs = Some (r, e) → e = true.
Proof.
  split_and!; try apply checked_print; [cbv zeta; split_and!; done || apply checked_print|].
  unfold Fatal, Fatalf, Fatalw, exits. intros r e [E|[E|E]]; apply fmap_Some in E as ([? ?] & _ & [= -> ->]); done.
Qed.

(** a writer that logs reports that it took nothing, without an error:
    whoever copies to it stops after the first piece. *)
Theorem writer_reports_nothing l opts p : fst (ww_Write (NewWriter l opts) p) = 0.
Proof. done. Qed.
End helper.

(** ** std.go *)

Section std.
Variable show_fun : nat → str.   (* how a function prints *)

(** The verbs %s and %v *)
Definition verb_s (v : value) : str :=
  match v with
  | VStr s => s
  | VNum n => bs "%!s(int=" ++ format_int n ++ bs ")"
  | VFun f => bs "%!s(func=" ++ show_fun f ++ bs ")"
  end.
Definition verb_v (v : value) : str := match v with VStr s => s | VNum n => format_int n | VFun f => show_fun f end.

Fixpoint pairs (kvs : list value) : str :=
  match kvs with
  | k :: v :: rest => " "%char :: verb_s k ++ "="%char :: verb_v v ++ pairs rest
  | _ => []
  end.

(** What [stdLogger.Log] writes. *)
Definition std_Log (isDiscard : bool) (lv : Z) (kvs : list value) : option str :=
  if isDiscard || bool_decide (kvs = []) then None
  else
    let kvs := if Nat.odd (length kvs) then kvs ++ [VStr (bs "KEYVALS UNPAIRED")] else kvs in
    Some (Level_String lv ++ pairs kvs ++ ["010"%char]).
End std.

Example std_line : std_Log (λ _, []) false LevelWarn [VStr (bs "msg"); VStr (bs "hi"); VStr (bs "n"); VNum 3]
  = Some (bs "WARN msg=hi n=3" ++ ["010"%char]).
Proof. vm_compute. reflexivity. Qed.

Example std_unpaired : std_Log (λ _, []) false LevelInfo [VStr (bs "msg")]
  = Some (bs "INFO msg=KEYVALS UNPAIRED" ++ ["010"%char]).
Proof. vm_compute. reflexivity. Qed.

Example filtered_fatal : Fatal (ctx := unit) (λ _ _, VNum 0) (mkHelper (Filter Std 5 [] [] None) (bs "msg") (λ _, bs "x") (λ f _, f)) [tt]
  = Some ([], true).
Proof. vm_compute. reflexivity. Qed.

Lemma helper_writes_what_log_writes_witness :
  Infof (ctx := unit) (λ _ _, VNum 0) (Context_ (λ _, []) (λ f (_ : list unit), f) tt (With tt Std [VStr (bs "a"); VNum 1])) (bs "text") [tt]
    = Some ([(LevelInfo, [VStr (bs "a"); VNum 1; VStr (bs "msg"); VStr (bs "text")])], false)
  ∧ ∀ r e, Fatal (ctx := unit) (λ _ _, VNum 0) (mkHelper (Filter Std 5 [] [] None) (bs "msg") (λ _, bs "x") (λ f _, f)) [tt] = Some (r, e) → e = true.
Proof.
  destruct (helper_writes_what_log_writes (ctx := unit) (λ _ _, VNum 0) (λ _, []) (λ f (_ : list unit), f)
    (mkHelper (Filter Std 5 [] [] None) (bs "msg") (λ _, bs "x") (λ f _, f)) (With tt Std [VStr (bs "a"); VNum 1]) tt [tt] (bs "text") [])
    as (_ & _ & (_ & HI & _) & HF).
  split; [rewrite HI; vm_compute; reflexivity|]. intros r e E. exact (HF r e (or_introl E)).
Defined.
