(* ===== verification/GoSort.v ===== *)
(** * Searching and sorting as the Go standard library does it

    [sort.Search] (binary search), [sort.Strings] with the byte order of Go
    strings, [slices.Compact], and the sorting of integers. *)

From S2P Require Import Prelude GoStrings.

(** ** sort.Search *)

(** [n] halvings are more than enough: the interval shrinks at every step. *)
Fixpoint search_loop (fuel : nat) (f : nat → bool) (i j : nat) : nat :=
  match fuel with
  | O => i
  | S fuel' =>
      if (i <? j)%nat then
        let h := Nat.div2 (i + j) in
        if f h then search_loop fuel' f i h else search_loop fuel' f (S h) j
      else i
  end.

Definition Search (n : nat) (f : nat → bool) : nat := search_loop (S n) f 0 n.

(** ** sort.Strings *)

(** Go compares strings byte by byte. *)
Fixpoint str_le (s t : str) : bool :=
  match s, t with
  | [], _ => true
  | _ :: _, [] => false
  | a :: s', b :: t' =>
      if byte_val a <? byte_val b then true
      else if byte_val b <? byte_val a then false
      else str_le s' t'
  end.

Definition StrLe (s t : str) : Prop := str_le s t = true.
#[export] Instance StrLe_dec : RelDecision StrLe.
Proof. intros s t. unfold StrLe. apply _. Defined.

Definition sort_strings (l : list str) : list str := merge_sort StrLe l.

(** [slices.Compact]: runs of equal elements are cut to one. *)
Fixpoint compact (l : list str) : list str :=
  match l with
  | [] => []
  | x :: l' => match l' with
               | [] => [x]
               | y :: _ => if decide (x = y) then compact l' else x :: compact l'
               end
  end.

(** ** sort.Sort on integers *)

Definition sort_ints (l : list Z) : list Z := merge_sort Z.le l.

(** ** Lemmas *)

Lemma search_loop_spec fuel f i j :
  (j - i < fuel)%nat → (i <= j)%nat →
  (i <= search_loop fuel f i j <= j)%nat
  ∧ (search_loop fuel f i j = j ∨ f (search_loop fuel f i j) = true)
  ∧ (search_loop fuel f i j = i ∨ f (search_loop fuel f i j - 1)%nat = false).
Proof.
  revert i j; induction fuel as [|fuel IH]; intros i j Hf Hij; simpl; [lia|].
  destruct (Nat.ltb_spec i j) as [Hlt|Hge].
  2: { assert (i = j) as -> by lia. auto. }
  pose proof (Nat.div2_odd (i + j)) as Hd. destruct (Nat.odd (i + j)); simpl in Hd;
    set (h := Nat.div2 (i + j)) in *; (destruct (f h) eqn:E;
      [destruct (IH i h) as (H1 & [H2|H2] & H3)
      |destruct (IH (S h) j) as (H1 & H2 & [H3|H3])]; try lia; repeat split; auto; try lia;
      [right; by rewrite H2|right; by rewrite H3; replace (S h - 1)%nat with h by lia]).
Qed.

Lemma Search_spec n f :
  (Search n f <= n)%nat ∧ (Search n f = n ∨ f (Search n f) = true)
  ∧ (Search n f = 0%nat ∨ f (Search n f - 1)%nat = false).
Proof.
  destruct (search_loop_spec (S n) f 0 n) as (H1 & H2 & H3); [lia|lia|].
  unfold Search. repeat split; [lia|done|done].
Qed.

#[export] Instance StrLe_total : Total StrLe.
Proof.
  intros s. induction s as [|a s IH]; intros [|b t]; unfold StrLe; simpl; auto.
  destruct (Z.ltb_spec (byte_val a) (byte_val b)), (Z.ltb_spec (byte_val b) (byte_val a)); auto. apply IH.
Qed.

#[export] Instance StrLe_trans : Transitive StrLe.
Proof.
  intros s. induction s as [|a s IH]; intros [|b t] [|c u]; unfold StrLe; simpl; try done.
  destruct (Z.ltb_spec (byte_val a) (byte_val b)), (Z.ltb_spec (byte_val b) (byte_val c)),
    (Z.ltb_spec (byte_val a) (byte_val c)); try done; try lia;
    destruct (Z.ltb_spec (byte_val b) (byte_val a)), (Z.ltb_spec (byte_val c) (byte_val b)),
    (Z.ltb_spec (byte_val c) (byte_val a)); try done; try lia. apply IH.
Qed.

#[export] Instance StrLe_antisymm : AntiSymm (=) StrLe.
Proof.
  intros s. induction s as [|a s IH]; intros [|b t]; unfold StrLe; simpl; try done.
  destruct (Z.ltb_spec (byte_val a) (byte_val b)), (Z.ltb_spec (byte_val b) (byte_val a)); try done; try lia.
  intros. rewrite (byte_val_inj a b) by lia. f_equal. by apply IH.
Qed.

Lemma sort_strings_perm l : sort_strings l ≡ₚ l.
Proof. apply merge_sort_Permutation. Qed.

Lemma sort_strings_sorted l : StronglySorted StrLe (sort_strings l).
Proof. apply StronglySorted_merge_sort; apply _. Qed.

(** The result depends only on the multiset of the strings. *)
Lemma sort_strings_eq l l' : l ≡ₚ l' → sort_strings l = sort_strings l'.
Proof.
  intros Hp. apply (StronglySorted_unique StrLe); [apply sort_strings_sorted..|].
  by rewrite !sort_strings_perm.
Qed.

Lemma sort_strings_id l : StronglySorted StrLe l → sort_strings l = l.
Proof.
  intros Hs. apply (StronglySorted_unique StrLe); [apply sort_strings_sorted|done|]. apply sort_strings_perm.
Qed.

Lemma elem_of_compact x l : x ∈ compact l ↔ x ∈ l.
Proof.
  induction l as [|a l IH]; [done|]. destruct l as [|b l]; [done|].
  change (compact (a :: b :: l)) with (if decide (a = b) then compact (b :: l) else a :: compact (b :: l)).
  case_decide as E.
  - subst. rewrite IH, !elem_of_cons. naive_solver.
  - rewrite !elem_of_cons, IH, !elem_of_cons. done.
Qed.

(** On a sorted list [compact] leaves the distinct elements, still sorted. *)
Lemma compact_sorted l : StronglySorted StrLe l → StronglySorted StrLe (compact l) ∧ NoDup (compact l).
Proof.
  induction l as [|a l IH]; [by repeat constructor|]. intros Hs.
  apply StronglySorted_inv in Hs as [Hs Ha]. destruct (IH Hs) as [IH1 IH2].
  destruct l as [|b l]; [split; [by repeat constructor|apply NoDup_singleton]|].
  change (compact (a :: b :: l)) with (if decide (a = b) then compact (b :: l) else a :: compact (b :: l)).
  case_decide as E; [done|]. split.
  - constructor; [done|]. apply Forall_forall. intros x Hx. rewrite elem_of_compact in Hx.
    rewrite Forall_forall in Ha. by apply Ha.
  - constructor; [|done]. rewrite elem_of_compact. intros Hin. apply E.
    apply StronglySorted_inv in Hs as [Hs Hb]. rewrite Forall_forall in Ha, Hb.
    apply (anti_symm StrLe); [apply Ha; by left|].
    apply elem_of_cons in Hin as [->|Hin]; [by destruct (StrLe_total b b)|by apply Hb].
Qed.
