(* ===== verification/Headers.v ===== *)
(** * HTTP headers: [net/http.Header] and pkg/x/http/header.go

    A header is a map from keys to lists of values; the accessors of
    [net/http] canonicalise the key they are given, direct map accesses do not.
    The copying and hop-by-hop helpers of header.go are written on top of them
    exactly as the source does, and proved to behave on canonical headers. *)

From S2P Require Import Prelude GoStrings.

(** ** net/textproto and net/http *)

Definition is_upper (c : ascii) : bool := (65 <=? byte_val c) && (byte_val c <=? 90).
Definition is_lower (c : ascii) : bool := (97 <=? byte_val c) && (byte_val c <=? 122).
Definition upper_byte (c : ascii) : ascii :=
  if is_lower c then byte_of (byte_val c - 32) else c.

(** [validHeaderFieldByte]: the token characters of RFC 7230. *)
Definition valid_header_byte (c : ascii) : bool :=
  is_upper c || is_lower c || is_digit c || bool_decide (c ∈ bs "!#$%&'*+-.^_`|~").

Fixpoint canon_case (upper : bool) (s : str) : str :=
  match s with
  | [] => []
  | c :: s' =>
      let c' := if upper then upper_byte c else lower_byte c in
      c' :: canon_case (bool_decide (c' = "-"%char)) s'
  end.

(** [textproto.CanonicalMIMEHeaderKey] *)
Definition canonical_key (s : str) : str :=
  if forallb valid_header_byte s then canon_case true s else s.

Abbreviation header := (gmap (list ascii) (list (list ascii))).

Definition header_values (k : str) (h : header) : list str :=
  default [] (h !! canonical_key k).
Definition header_get (k : str) (h : header) : str := default [] (head (header_values k h)).
Definition header_set (k v : str) (h : header) : header := <[canonical_key k := [v]]> h.
Definition header_add (k v : str) (h : header) : header :=
  <[canonical_key k := header_values k h ++ [v]]> h.
Definition header_del (k : str) (h : header) : header := delete (canonical_key k) h.

(** ** header.go *)

(** The body of the copying loops: [dst[k] = make(...)], then one [Add] per
    value. *)
Definition copy_entry (dst : header) (kv : str * list str) : header :=
  fold_left (λ d v, header_add kv.1 v d) kv.2 (<[kv.1 := []]> dst).

(** [range] over a Go map visits the entries in an unspecified order: the loop
    takes the order as an argument. *)
Definition copy_header_order (dst : header) (order : list (str * list str)) : header :=
  fold_left copy_entry order dst.

(** [CopyHeader(dst, src)] *)
Definition CopyHeader (dst src : header) : header :=
  copy_header_order dst (map_to_list src).

(** [CopyHeadersWithout(dst, src, excludeKeys...)] *)
Definition without_order (excludeKeys : list str) (order : list (str * list str))
    : list (str * list str) :=
  let excludeMap := map canonical_key excludeKeys in
  List.filter (λ kv, negb (bool_decide (canonical_key kv.1 ∈ excludeMap))) order.

Definition CopyHeadersWithout (dst src : header) (excludeKeys : list str) : header :=
  copy_header_order dst (without_order excludeKeys (map_to_list src)).

Definition trailer_prefix : str := bs "Trailer:".

(** [CopyTrailer(dst, src)] *)
Definition CopyTrailer (dst src : header) : header :=
  fold_left (λ d kv, <[trailer_prefix ++ kv.1 := kv.2]> d) (map_to_list src) dst.

Definition hopHeaders : list str :=
  map bs ["Connection"; "Proxy-Connection"; "Keep-Alive"; "Proxy-Authenticate";
          "Proxy-Authorization"; "Te"; "Trailer"; "Transfer-Encoding"; "Upgrade"].

(** [textproto.TrimString]: ASCII spaces only. *)
Definition ascii_spaces : list str := map (λ c, [byte_of c]) [32; 9; 10; 13].
Definition trim_string (s : str) : str :=
  let t := strip_all (length s) ascii_spaces s in
  rev (strip_all (length t) ascii_spaces (rev t)).

Definition del_connection_token (h : header) (sf : str) : header :=
  match trim_string sf with [] => h | sf' => header_del sf' h end.

(** [RemoveHopByHopHeaders(h)]: [h["Connection"]] is read once, before the
    deletions. *)
Definition RemoveHopByHopHeaders (h : header) : header :=
  let conn := default [] (h !! bs "Connection") in
  let h1 := fold_left (λ d f, fold_left del_connection_token (split_byte ","%char f) d) conn h in
  fold_left (λ d f, header_del f d) hopHeaders h1.

(** [IsChunked(h)] *)
Definition IsChunked (h : header) : bool :=
  bool_decide (header_get (bs "Transfer-Encoding") h = bs "chunked")
  || bool_decide (header_get (bs "Content-Length") h = []).

(** ** Lemmas *)

Definition canonical (k : str) : Prop := canonical_key k = k.
#[export] Instance canonical_dec k : Decision (canonical k).
Proof. unfold canonical. apply _. Defined.

(** Every key of the header is in canonical form, as the accessors leave it. *)
Definition canonical_header (h : header) : Prop := map_Forall (λ k _, canonical k) h.

Lemma header_get_set k v h : header_get k (header_set k v h) = v.
Proof. unfold header_get, header_values, header_set. by rewrite lookup_insert_eq. Qed.

Lemma header_get_set_ne k k' v h :
  canonical_key k ≠ canonical_key k' → header_get k (header_set k' v h) = header_get k h.
Proof.
  intros ?. unfold header_get, header_values, header_set. by rewrite lookup_insert_ne.
Qed.

Lemma header_get_del k h : header_get k (header_del k h) = [].
Proof. unfold header_get, header_values, header_del. by rewrite lookup_delete_eq. Qed.

Lemma copy_entry_canonical dst k vs :
  canonical k → copy_entry dst (k, vs) = <[k := vs]> dst.
Proof.
  intros Hk. unfold copy_entry. simpl.
  enough (∀ acc, fold_left (λ d v, header_add k v d) vs (<[k:=acc]> dst) = <[k:=acc ++ vs]> dst)
    as H by apply (H []).
  induction vs as [|v vs IH]; intros acc; simpl; [by rewrite app_nil_r|].
  unfold header_add at 2, header_values. rewrite Hk, lookup_insert_eq, insert_insert_eq. simpl.
  rewrite IH. by rewrite <-app_assoc.
Qed.

(** The copy does not depend on the iteration order of the map. *)
Lemma copy_header_order_spec order dst :
  NoDup order.*1 → Forall (λ kv, canonical kv.1) order →
  copy_header_order dst order = list_to_map order ∪ dst.
Proof.
  unfold copy_header_order. revert dst.
  induction order as [|[k vs] order IH]; intros dst Hnd Hc; simpl.
  - by rewrite map_empty_union.
  - apply NoDup_cons in Hnd as [Hk Hnd]. apply Forall_cons in Hc as [Hck Hc].
    rewrite copy_entry_canonical by done. rewrite IH by done.
    rewrite <-insert_union_l, <-insert_union_r; [done|].
    by apply not_elem_of_list_to_map_1.
Qed.

Lemma canonical_header_order h order :
  canonical_header h → order ≡ₚ map_to_list h →
  NoDup order.*1 ∧ Forall (λ kv, canonical kv.1) order ∧ list_to_map order = h.
Proof.
  intros Hc Hp. split_and!.
  - rewrite Hp. apply NoDup_fst_map_to_list.
  - rewrite Hp. apply map_Forall_to_list in Hc. eapply Forall_impl; [done|]. by intros [].
  - rewrite <-(list_to_map_to_list h). apply list_to_map_proper; [|done].
    rewrite Hp. apply NoDup_fst_map_to_list.
Qed.

Lemma fold_del_lookup (ks : list str) (h : header) (k : str) :
  fold_left (λ d f, header_del f d) ks h !! k =
    if bool_decide (k ∈ map canonical_key ks) then None else h !! k.
Proof.
  revert h; induction ks as [|x ks IH]; intros h.
  - done.
  - change (fold_left (λ d f, header_del f d) (x :: ks) h)
      with (fold_left (λ d f, header_del f d) ks (header_del x h)).
    change (map canonical_key (x :: ks)) with (canonical_key x :: map canonical_key ks).
    rewrite IH. unfold header_del.
    destruct (decide (k = canonical_key x)) as [->|Hne].
    + rewrite lookup_delete_eq. rewrite (bool_decide_eq_true_2 (_ ∈ _ :: _)) by set_solver.
      by case_bool_decide.
    + rewrite lookup_delete_ne by done.
      rewrite (bool_decide_ext _ (k ∈ canonical_key x :: map canonical_key ks)); [done|].
      set_solver.
Qed.

Definition connection_tokens (h : header) : list str :=
  List.filter (λ t, negb (bool_decide (t = [])))
    (map trim_string (default [] (h !! bs "Connection") ≫= split_byte ","%char)).

Lemma fold_tokens_lookup (l : list str) (h : header) :
  fold_left del_connection_token l h =
  fold_left (λ d f, header_del f d)
    (List.filter (λ t, negb (bool_decide (t = []))) (map trim_string l)) h.
Proof.
  revert h; induction l as [|x l IH]; intros h; simpl; [done|].
  rewrite IH. unfold del_connection_token. by destruct (trim_string x) as [|c t].
Qed.

Lemma fold_connection_lookup (conn : list str) (h : header) :
  fold_left (λ d f, fold_left del_connection_token (split_byte ","%char f) d) conn h =
  fold_left del_connection_token (conn ≫= split_byte ","%char) h.
Proof.
  revert h; induction conn as [|f conn IH]; intros h; simpl; [done|].
  by rewrite IH, fold_left_app.
Qed.

(** Exactly the named hop-by-hop headers and the options listed in
    [Connection] are gone; every other entry is untouched. *)
Lemma RemoveHopByHopHeaders_lookup (h : header) (k : str) :
  RemoveHopByHopHeaders h !! k =
    if bool_decide (k ∈ hopHeaders) || bool_decide (k ∈ map canonical_key (connection_tokens h))
    then None else h !! k.
Proof.
  unfold RemoveHopByHopHeaders. rewrite fold_del_lookup.
  replace (map canonical_key hopHeaders) with hopHeaders by (vm_compute; reflexivity).
  case_bool_decide; simpl; [done|].
  rewrite fold_connection_lookup, fold_tokens_lookup, fold_del_lookup. done.
Qed.

(** ** Properties *)

(** [CopyHeader] makes [dst] hold exactly the entries of [src] on top of its
    own, whatever order the source map is iterated in (the keys of [src] being
    canonical, as [net/http] leaves them). *)
Theorem copy_header_any_order (dst src : header) (order : list (str * list str)) :
  canonical_header src → order ≡ₚ map_to_list src →
  copy_header_order dst order = src ∪ dst ∧ CopyHeader dst src = src ∪ dst.
Proof.
  intros Hc Hp. unfold CopyHeader.
  destruct (canonical_header_order src order) as (H1 & H2 & H3); [done..|].
  destruct (canonical_header_order src (map_to_list src)) as (H4 & H5 & H6); [done..|].
  rewrite !copy_header_order_spec, H3, H6 by done. done.
Qed.

Definition sample_header : header :=
  <[bs "Etag" := [bs "abc"]]> (<[bs "Vary" := [bs "Accept"; bs "Cookie"]]> ∅).

Lemma copy_header_any_order_witness :
  CopyHeader (<[bs "Etag" := [bs "old"]]> ∅) sample_header
    = sample_header ∪ <[bs "Etag" := [bs "old"]]> ∅.
Proof.
  apply (copy_header_any_order (<[bs "Etag" := [bs "old"]]> ∅) sample_header
           (map_to_list sample_header)); [|reflexivity].
  apply map_Forall_to_list. vm_compute. repeat constructor.
Defined.

(** [RemoveHopByHopHeaders] deletes the nine hop-by-hop headers and the
    headers named by [Connection], and no other header. *)
Theorem hop_by_hop_removed (h : header) (k : str) :
  RemoveHopByHopHeaders h !! k =
    if bool_decide (k ∈ hopHeaders) || bool_decide (k ∈ map canonical_key (connection_tokens h))
    then None else h !! k.
Proof. apply RemoveHopByHopHeaders_lookup. Qed.
