(* ===== verification/App.v ===== *)
(** * The life of the process: contrib/kratos/app.go, plugin/registry.go, main.go

    [App.Run] starts every server and plugin in a group of goroutines, waits for a
    signal or an error, stops them and returns.  The group is that of
    golang.org/x/sync/errgroup: the first error is kept and cancels the context of
    the group.  A run is a transition system: the servers and the hooks are the
    environment.

    Proved: a server is asked to stop at most once, after the context is cancelled;
    when [Run] returns after its wait every server has returned from both calls;
    after a cancellation it can always get there; a hook that fails after the start
    leaves the servers running.  A plugin is registered under its name once, and a
    plugin that cannot be made is left out.  An upgrade that fails leaves a process
    that serves with a closed storage. *)

From S2P Require Import Prelude GoStrings Headers.

Section app.
Context {E : Type}.
Variable Canceled : E → bool.   (* errors.Is(err, context.Canceled) *)

(** The two goroutines of a server. *)
Inductive start_state := NotStarted | Running | StartReturned.
Inductive stop_state := Waiting | Stopping | StopReturned.
Record server := mkServer { sv_start : start_state; sv_stop : stop_state; sv_stops : nat }.

Inductive phase := Before | Serving | Returned (err : option E).
Inductive listener := NoListener | Listening | ListenerDone.

Record App := mkApp {
  app_phase : phase;
  app_servers : list server;
  app_listener : listener;      (* the goroutine that waits for a signal *)
  app_ctx : bool;               (* the context of the group is done *)
  app_err : option E }.         (* the first error of the group *)

Definition New (n : nat) : App := mkApp Before (replicate n (mkServer NotStarted Waiting 0)) NoListener false None.

(** A function of the group returns [e]: the first error cancels. *)
Definition group_return (e : option E) (a : App) : App :=
  match app_err a, e with
  | None, Some _ => mkApp (app_phase a) (app_servers a) (app_listener a) true e
  | _, _ => a
  end.

Definition set_server (i : nat) (s : server) (a : App) : App :=
  mkApp (app_phase a) (<[i := s]> (app_servers a)) (app_listener a) (app_ctx a) (app_err a).
Definition set_listener (l : listener) (a : App) : App :=
  mkApp (app_phase a) (app_servers a) l (app_ctx a) (app_err a).
Definition cancel (a : App) : App := mkApp (app_phase a) (app_servers a) (app_listener a) true (app_err a).
Definition set_phase (p : phase) (a : App) : App := mkApp p (app_servers a) (app_listener a) (app_ctx a) (app_err a).

(** The last error of a list of hooks that are all called. *)
Definition last_error (hooks : list (option E)) : option E := from_option id None (last hooks).

(** [Stop]: every hook is called, then the context is cancelled. *)
Definition Stop (beforeStop : list (option E)) (a : App) : option E * App := (last_error beforeStop, cancel a).

(** The part of [Run] up to its wait: the results of the hooks are given. *)
Fixpoint first_error (hooks : list (option E)) : option E :=
  match hooks with [] => None | Some e :: _ => Some e | None :: hooks => first_error hooks end.

Definition Run_start (beforeStart afterStart : list (option E)) (a : App) : App :=
  match first_error beforeStart with
  | Some e => set_phase (Returned (Some e)) a
  | None =>
      let a := mkApp Serving ((λ s, mkServer Running Waiting 0) <$> app_servers a) (app_listener a) (app_ctx a) (app_err a) in
      match first_error afterStart with
      | Some e => set_phase (Returned (Some e)) a
      | None => set_listener Listening a
      end
  end.

Definition all_done (a : App) : bool :=
  forallb (λ s, match sv_start s, sv_stop s with StartReturned, StopReturned => true | _, _ => false end) (app_servers a)
  && match app_listener a with ListenerDone => true | _ => false end.

(** After [eg.Wait]: an error is returned, except a cancellation; otherwise the last
    error of the hooks. *)
Definition Run_end (afterStop : list (option E)) (a : App) : App :=
  set_phase (Returned match app_err a with
    | Some e => if Canceled e then last_error afterStop else Some e
    | None => last_error afterStop
    end) a.

(** Both goroutines of a server run on when [Run] has returned early. *)
Inductive app_step (a : App) : App → Prop :=
| app_start beforeStart afterStart : app_phase a = Before → app_step a (Run_start beforeStart afterStart a)
| app_start_returns i s e : app_servers a !! i = Some s → sv_start s = Running →
    app_step a (group_return e (set_server i (mkServer StartReturned (sv_stop s) (sv_stops s)) a))
| app_stop_called i s : app_servers a !! i = Some s → sv_start s ≠ NotStarted → sv_stop s = Waiting → app_ctx a = true →
    app_step a (set_server i (mkServer (sv_start s) Stopping (S (sv_stops s))) a)
| app_stop_returns i s e : app_servers a !! i = Some s → sv_stop s = Stopping →
    app_step a (group_return e (set_server i (mkServer (sv_start s) StopReturned (sv_stops s)) a))
| app_signal beforeStop : app_listener a = Listening →
    app_step a (let '(e, a) := Stop beforeStop a in group_return e (set_listener ListenerDone a))
| app_listener_ends : app_listener a = Listening → app_ctx a = true → app_step a (set_listener ListenerDone a)
| app_stopped beforeStop : app_step a (snd (Stop beforeStop a))
| app_returns afterStop : app_phase a = Serving → all_done a = true → app_step a (Run_end afterStop a).

(** ** The invariant *)

Definition server_ok (a : App) (s : server) : Prop :=
  sv_stops s = match sv_stop s with Waiting => 0%nat | _ => 1%nat end
  ∧ (sv_stop s ≠ Waiting → app_ctx a = true ∧ sv_start s ≠ NotStarted)
  ∧ (sv_start s = NotStarted → match app_phase a with Serving => False | Before => True | Returned _ => app_listener a = NoListener end).

Record app_ok (a : App) : Prop := {
  ao_server : Forall (server_ok a) (app_servers a);
  ao_before : app_phase a = Before → app_listener a = NoListener ∧ Forall (λ s, sv_start s = NotStarted) (app_servers a);
  ao_err : is_Some (app_err a) → app_ctx a = true;
  ao_serving : app_phase a = Serving → app_listener a ≠ NoListener;
  ao_returned : ∀ r, app_phase a = Returned r → app_listener a = NoListener ∨ all_done a = true }.

Lemma group_return_same e a : app_phase (group_return e a) = app_phase a ∧ app_servers (group_return e a) = app_servers a
  ∧ app_listener (group_return e a) = app_listener a ∧ (app_ctx a = true → app_ctx (group_return e a) = true).
Proof. unfold group_return. destruct (app_err a), e; done. Qed.

Lemma group_return_ok e a : app_ok a → app_ok (group_return e a).
Proof.
  intros [H1 H2 H3 H5 H4]. destruct (group_return_same e a) as (E1 & E2 & E3 & E4). split.
  - rewrite E2. eapply Forall_impl; [exact H1|]. intros s (K1 & K2 & K3). split; [done|]. rewrite E1, E3. split; [|done]. intros Hw. destruct (K2 Hw). auto.
  - rewrite E1, E2, E3. done.
  - unfold group_return. destruct (app_err a) eqn:Ea, e; cbn; auto. rewrite Ea. auto.
  - rewrite E1, E3. done.
  - unfold all_done in *. rewrite E1, E2, E3. done.
Qed.

(** Another state of one server. *)
Lemma set_server_ok i s s' a : app_ok a → app_servers a !! i = Some s → server_ok a s' → sv_start s ≠ NotStarted → sv_start s' ≠ NotStarted →
  (sv_start s = StartReturned → sv_stop s = StopReturned → s' = s) → app_ok (set_server i s' a).
Proof.
  intros [H1 H2 H3 H5 H4] Hi Hs' Hn Hn' Hsame. split; cbn [set_server app_servers app_phase app_listener app_ctx app_err]; [by apply Forall_insert| |done|done|].
  - intros Hb. destruct (H2 Hb) as [_ Hall]. pose proof (Forall_lookup_1 _ _ _ _ Hall Hi). done.
  - intros r Hr. destruct (H4 r Hr) as [|Hd]; [by left|right]. unfold all_done in *. cbn [set_server app_servers app_listener].
    apply andb_true_iff in Hd as [Hd ->]. rewrite andb_true_r. pose proof Hd as Hd'. rewrite forallb_forall in Hd.
    specialize (Hd s). rewrite <-list_elem_of_In in Hd. specialize (Hd (list_elem_of_lookup_2 _ _ _ Hi)).
    destruct (sv_start s) eqn:E1, (sv_stop s) eqn:E2; try done. rewrite (Hsame eq_refl eq_refl). by rewrite list_insert_id.
Qed.

Lemma set_listener_ok a : app_ok a → app_listener a = Listening → app_ok (set_listener ListenerDone a).
Proof.
  intros [H1 H2 H3 H5 H4] Hl. split; cbn [set_listener app_servers app_phase app_listener app_ctx app_err]; [|intros Hb; destruct (H2 Hb); congruence|done|done|].
  - eapply Forall_impl; [exact H1|]. intros s (K1 & K2 & K3). split; [done|]. split; [done|]. intros Hn. specialize (K3 Hn). cbn. destruct (app_phase a); [done|done|congruence].
  - intros r Hr. destruct (H4 r Hr) as [|Hd]; [congruence|]. unfold all_done in Hd. rewrite Hl, andb_false_r in Hd. done.
Qed.

Lemma cancel_ok a : app_ok a → app_ok (cancel a).
Proof.
  intros [H1 H2 H3 H5 H4]. split; [|done|done|done|done]. eapply Forall_impl; [exact H1|]. intros s (K1 & K2 & K3). split; [done|]. split; [|done]. intros Hw. destruct (K2 Hw). done.
Qed.

Lemma Run_start_ok bs' as' a : app_ok a → app_phase a = Before → app_ok (Run_start bs' as' a).
Proof.
  intros [H1 H2 H3 H5 H4] Hb. destruct (H2 Hb) as [Hl Hn]. unfold Run_start. destruct (first_error bs') as [e|].
  - split; cbn [set_phase app_servers app_phase app_listener app_ctx app_err]; [|done|done|done|intros r _; by left].
    eapply Forall_impl; [exact H1|]. intros s (K1 & K2 & K3). split; [done|]. split; [done|]. intros _. done.
  - assert (∀ p l, p ≠ Before → Forall (server_ok (mkApp p ((λ s, mkServer Running Waiting 0) <$> app_servers a) l (app_ctx a) (app_err a))) ((λ s : server, mkServer Running Waiting 0) <$> app_servers a)) as Hall.
    { intros p l Hp. apply Forall_fmap, Forall_forall. intros s _. by repeat split. }
    destruct (first_error as') as [e|]; (split; cbn [set_phase set_listener app_servers app_phase app_listener app_ctx app_err]; [by apply Hall|done|done|done|]); [intros r _; by left|done].
Qed.

Lemma app_step_ok a a' : app_ok a → app_step a a' → app_ok a'.
Proof.
  intros Hok Hst. destruct Hst as [b af Hb|i s e Hi Hr|i s Hi Hn Hw Hc|i s e Hi Hs|b Hl|Hl Hc|b|af Hp Hd].
  - by apply Run_start_ok.
  - apply group_return_ok. pose proof (Forall_lookup_1 _ _ _ _ (ao_server a Hok) Hi) as (K1 & K2 & K3).
    apply (set_server_ok i s); [done|done| |by rewrite Hr|done|by rewrite Hr]. split; [done|]. split; [|done]. intros Hw. destruct (K2 Hw). done.
  - pose proof (Forall_lookup_1 _ _ _ _ (ao_server a Hok) Hi) as (K1 & K2 & K3). apply (set_server_ok i s); [done|done| |done|done|by rewrite Hw].
    split; [cbn; by rewrite K1, Hw|]. split; [done|]. done.
  - apply group_return_ok. pose proof (Forall_lookup_1 _ _ _ _ (ao_server a Hok) Hi) as (K1 & K2 & K3).
    assert (sv_stop s ≠ Waiting) as Hw by (by rewrite Hs). destruct (K2 Hw) as [Hc Hn].
    apply (set_server_ok i s); [done|done| |done|done|by rewrite Hs]. split; [cbn; by rewrite K1, Hs|]. done.
  - cbn [Stop]. apply group_return_ok. apply set_listener_ok; [by apply cancel_ok|done].
  - by apply set_listener_ok.
  - by apply cancel_ok.
  - destruct Hok as [H1 H2 H3 H5 H4]. split; cbn [Run_end set_phase app_servers app_phase app_listener app_ctx app_err]; [|done|done|done|intros r _; by right].
    eapply Forall_impl; [exact H1|]. intros s (K1 & K2 & K3). split; [done|]. split; [done|]. intros Hn. specialize (K3 Hn). rewrite Hp in K3. done.
Qed.

Lemma app_reachable n a : rtc app_step (New n) a → app_ok a.
Proof.
  intros Hrun. refine (rtc_ind_r (R := app_step) app_ok (New n) _ _ a Hrun).
  - split; cbn; [|intros _; split; [done|]|by intros [? ?]|done|done]; apply Forall_replicate; by repeat split.
  - intros y z _ Hst IH. by eapply app_step_ok.
Qed.

(** ** Coming to an end *)

Lemma group_return_None a : group_return None a = a.
Proof. unfold group_return. by destruct (app_err a). Qed.

Lemma set_server_twice i s s' a : set_server i s' (set_server i s a) = set_server i s' a.
Proof. unfold set_server. cbn. by rewrite list_insert_insert_eq. Qed.

Lemma set_server_id i s a : app_servers a !! i = Some s → set_server i s a = a.
Proof. intros Hi. unfold set_server. rewrite list_insert_id by done. by destruct a. Qed.

Definition ended (s : server) : Prop := sv_start s = StartReturned ∧ sv_stop s = StopReturned.

(** A server comes to its end: its start returns, its stop is called and returns. *)
Lemma server_ends a i s : app_ctx a = true → app_servers a !! i = Some s → sv_start s ≠ NotStarted →
  ∃ s', rtc app_step a (set_server i s' a) ∧ ended s'.
Proof.
  intros Hc Hi Hn. destruct s as [st sp k]. assert (rtc app_step a (set_server i (mkServer StartReturned sp k) a)) as H1.
  { destruct st; [done| |rewrite set_server_id by done; apply rtc_refl]. apply rtc_once. rewrite <-(group_return_None (set_server _ _ _)).
    by apply (app_start_returns a i (mkServer Running sp k) None). }
  assert (∀ x, set_server i x a = set_server i x (set_server i (mkServer StartReturned sp k) a)) as Hset by (intros x; by rewrite set_server_twice).
  assert (∀ x, app_servers (set_server i x a) !! i = Some x) as Hlook.
  { intros x. cbn. apply list_lookup_insert_eq. by eapply lookup_lt_Some. }
  assert (∀ k', rtc app_step (set_server i (mkServer StartReturned Stopping k') a) (set_server i (mkServer StartReturned StopReturned k') a)) as Hret.
  { intros k'. pose proof (app_stop_returns _ i _ None (Hlook (mkServer StartReturned Stopping k')) eq_refl) as Hst.
    rewrite group_return_None, set_server_twice in Hst. exact (rtc_once _ _ Hst). }
  destruct sp.
  - exists (mkServer StartReturned StopReturned (S k)). split; [|done]. etransitivity; [exact H1|]. etransitivity; [|apply Hret]. apply rtc_once.
    rewrite (Hset (mkServer StartReturned Stopping (S k))). by apply (app_stop_called _ i (mkServer StartReturned Waiting k) (Hlook _)).
  - exists (mkServer StartReturned StopReturned k). split; [|done]. etransitivity; [exact H1|apply Hret].
  - exists (mkServer StartReturned StopReturned k). done.
Qed.

Lemma servers_end a j : app_phase a = Serving → app_ctx a = true → Forall (λ s, sv_start s ≠ NotStarted) (app_servers a) →
  ∃ a', rtc app_step a a' ∧ app_phase a' = Serving ∧ app_ctx a' = true ∧ app_listener a' = app_listener a ∧ length (app_servers a') = length (app_servers a)
  ∧ (∀ i s, (i < j)%nat → app_servers a' !! i = Some s → ended s) ∧ (∀ i, (j ≤ i)%nat → app_servers a' !! i = app_servers a !! i).
Proof.
  intros Hp Hc Hn. induction j as [|j (a1 & Hrun & P1 & C1 & L1 & N1 & D1 & S1)].
  { exists a. repeat (split; [done || apply rtc_refl|]). split; [intros i s Hi; lia|done]. }
  destruct (app_servers a1 !! j) as [s|] eqn:Ej.
  2: { exists a1. repeat (split; [done|]). split; [|intros i Hi; apply S1; lia]. intros i s Hi Hs. destruct (decide (i = j)) as [->|]; [congruence|]. apply (D1 i); [lia|done]. }
  destruct (server_ends a1 j s C1 Ej) as (s' & Hrun' & He).
  { rewrite (S1 j) in Ej by lia. by eapply (Forall_lookup_1 _ _ _ _ Hn Ej). }
  exists (set_server j s' a1). split; [by etransitivity|]. cbn [set_server app_phase app_ctx app_listener app_servers]. split; [done|]. split; [done|]. split; [done|].
  split; [by rewrite length_insert|]. split.
  - intros i x Hi. destruct (decide (i = j)) as [->|Hne].
    + rewrite list_lookup_insert_eq by (by eapply lookup_lt_Some). by intros [= <-].
    + rewrite list_lookup_insert_ne by done. apply D1. lia.
  - intros i Hi. rewrite list_lookup_insert_ne by lia. apply S1. lia.
Qed.

(** a stop ends the process.  From every state in which [Run] waits and the
    context is cancelled (a signal, a call of [Stop] or an error of a server), it
    can come to its end: nothing in [Run] itself waits for anything but the
    servers' own calls. *)
Lemma run_can_end n a : rtc app_step (New n) a → app_phase a = Serving → app_ctx a = true →
  ∃ a' r, rtc app_step a a' ∧ app_phase a' = Returned r ∧ app_listener a' ≠ NoListener.
Proof.
  intros Hrun Hp Hc. destruct (app_reachable n a Hrun) as [H1 _ _ Hsv _].
  destruct (servers_end a (length (app_servers a)) Hp Hc) as (a1 & Hrun1 & P1 & C1 & L1 & N1 & D1 & _).
  { eapply Forall_impl; [exact H1|]. intros s (_ & _ & K3) Hs. specialize (K3 Hs). by rewrite Hp in K3. }
  assert (∃ a2, rtc app_step a1 a2 ∧ app_phase a2 = Serving ∧ app_servers a2 = app_servers a1 ∧ app_listener a2 = ListenerDone) as (a2 & Hrun2 & P2 & S2 & L2).
  { destruct (app_listener a1) eqn:El.
    - by destruct (Hsv Hp); rewrite <-L1.
    - exists (set_listener ListenerDone a1). split; [|done]. apply rtc_once. by apply app_listener_ends.
    - exists a1. split; [apply rtc_refl|done]. }
  exists (Run_end [] a2). eexists. split; [|split; [reflexivity|cbn; by rewrite L2]]. etransitivity; [exact Hrun1|]. etransitivity; [exact Hrun2|]. apply rtc_once. apply app_returns; [done|].
  unfold all_done. rewrite L2, andb_true_r, S2. apply forallb_forall. intros s Hs%list_elem_of_In. apply list_elem_of_lookup in Hs as [i Hi].
  destruct (D1 i s) as [-> ->]; [rewrite <-N1; by eapply lookup_lt_Some|done|done].
Qed.
(** What is left to do until the end. *)
Definition work (s : server) : nat :=
  match sv_start s with StartReturned => 0 | _ => 1 end + match sv_stop s with Waiting => 2 | Stopping => 1 | StopReturned => 0 end.
Definition remaining (a : App) : nat :=
  sum_list (work <$> app_servers a) + match app_listener a with Listening => 1 | _ => 0 end + match app_phase a with Serving => 1 | _ => 0 end.

Lemma sum_insert i s s' (l : list server) : l !! i = Some s → (work s' < work s)%nat → (sum_list (work <$> <[i := s']> l) < sum_list (work <$> l))%nat.
Proof.
  revert i. induction l as [|x l IH]; intros [|i] Hi Hw; simplify_eq/=; [lia|]. specialize (IH i Hi Hw). lia.
Qed.

Lemma group_return_remaining e a : remaining (group_return e a) = remaining a.
Proof. unfold remaining. destruct (group_return_same e a) as (-> & -> & -> & _). done. Qed.

(** Every step of a process that waits takes it closer to its end, but for a call of
    [Stop], which only cancels. *)
Lemma step_remaining a a' : app_phase a ≠ Before → app_step a a' → (remaining a' < remaining a)%nat ∨ a' = cancel a.
Proof.
  intros Hb Hst. destruct Hst as [b af Hp|i s e Hi Hr|i s Hi Hn Hw Hc|i s e Hi Hs|b Hl|Hl Hc|b|af Hp Hd]; [done|left..| |left].
  - rewrite group_return_remaining. unfold remaining. cbn [set_server app_servers app_listener app_phase].
    enough (sum_list (work <$> <[i := mkServer StartReturned (sv_stop s) (sv_stops s)]> (app_servers a)) < sum_list (work <$> app_servers a))%nat by lia.
    apply (sum_insert i s); [done|]. unfold work. cbn. rewrite Hr. lia.
  - unfold remaining. cbn [set_server app_servers app_listener app_phase].
    enough (sum_list (work <$> <[i := mkServer (sv_start s) Stopping (S (sv_stops s))]> (app_servers a)) < sum_list (work <$> app_servers a))%nat by lia.
    apply (sum_insert i s); [done|]. unfold work. cbn. rewrite Hw. lia.
  - rewrite group_return_remaining. unfold remaining. cbn [set_server app_servers app_listener app_phase].
    enough (sum_list (work <$> <[i := mkServer (sv_start s) StopReturned (sv_stops s)]> (app_servers a)) < sum_list (work <$> app_servers a))%nat by lia.
    apply (sum_insert i s); [done|]. unfold work. cbn. rewrite Hs. lia.
  - cbn [Stop]. rewrite group_return_remaining. unfold remaining. cbn [set_listener cancel app_servers app_listener app_phase]. rewrite Hl. lia.
  - unfold remaining. cbn [set_listener app_servers app_listener app_phase]. rewrite Hl. lia.
  - by right.
  - unfold remaining. cbn [Run_end set_phase app_servers app_listener app_phase]. rewrite Hp. lia.
Qed.

Lemma first_progress a a' : rtc app_step a a' → app_phase a ≠ Before → cancel a = a → a ≠ a' → ∃ b, app_step a b ∧ (remaining b < remaining a)%nat.
Proof.
  intros Hrun Hb Hc. induction Hrun as [a|a b a' Hst Hrun IH]; [done|]. intros Hne.
  destruct (step_remaining a b Hb Hst) as [Hlt|E']; [by exists b|]. rewrite Hc in E'. subst b. by apply IH.
Qed.

Lemma reachable_length n a : rtc app_step (New n) a → length (app_servers a) = n.
Proof.
  intros Hrun. refine (rtc_ind_r (R := app_step) (λ a, length (app_servers a) = n) (New n) _ _ a Hrun); [cbn; by rewrite length_replicate|].
  intros y z _ Hst IH. destruct Hst as [b af Hp|i s e Hi Hr|i s Hi Hn Hw Hc|i s e Hi Hs|b Hl|Hl Hc|b|af Hp Hd]; try done.
  - unfold Run_start. destruct (first_error b); [done|]. destruct (first_error af); cbn; by rewrite length_fmap.
  - destruct (group_return_same e (set_server i (mkServer StartReturned (sv_stop s) (sv_stops s)) y)) as (_ & -> & _). cbn. by rewrite length_insert.
  - cbn. by rewrite length_insert.
  - destruct (group_return_same e (set_server i (mkServer (sv_start s) StopReturned (sv_stops s)) y)) as (_ & -> & _). cbn. by rewrite length_insert.
  - cbn [Stop]. match goal with |- context [group_return ?e ?x] => by destruct (group_return_same e x) as (_ & -> & _) end.
Qed.

Lemma remaining_bound n a : length (app_servers a) = n → (remaining a <= 3 * n + 2)%nat.
Proof.
  intros <-. unfold remaining. assert (sum_list (work <$> app_servers a) <= 3 * length (app_servers a))%nat as Hs.
  { induction (app_servers a) as [|s l IH]; [done|]. cbn. unfold work at 1. destruct (sv_start s), (sv_stop s); lia. }
  destruct (app_listener a), (app_phase a); lia.
Qed.


(** a hook that fails after the start.  [Run] returns its error at once, and
    every server is left running: it has not been asked to stop and the context is
    not cancelled. *)
Theorem after_start_failure n e hooks : app_phase (Run_start [] (Some e :: hooks) (New n)) = Returned (Some e)
  ∧ app_ctx (Run_start [] (Some e :: hooks) (New n)) = false
  ∧ app_servers (Run_start [] (Some e :: hooks) (New n)) = replicate n (mkServer Running Waiting 0).
Proof. split; [done|]. split; [done|]. cbn. by rewrite fmap_replicate. Qed.
End app.

(** ** Plugins *)

Section plugins.
Context {C P X : Type} (cfg_name : C → str).   (* configurations, plugins, errors *)

Local Abbreviation plugin_registry := (gmap (list ascii) (C → X + P)).

Definition fmtName (name : str) : str := to_lower (bs "tavern.plugin." ++ name).

(** A name that is taken is only warned about. *)
Definition plugin_Register (r : plugin_registry) (name : str) (factory : C → X + P) : plugin_registry :=
  match r !! fmtName name with Some _ => r | None => <[fmtName name := factory]> r end.

(** [None]: the name is not registered. *)
Definition plugin_Create (r : plugin_registry) (opt : C) : option (X + P) := (λ factory, factory opt) <$> r !! fmtName (cfg_name opt).

Fixpoint loadPlugin (r : plugin_registry) (cfgs : list C) : list P :=
  match cfgs with
  | [] => []
  | c :: cfgs => match plugin_Create r c with Some (inr p) => p :: loadPlugin r cfgs | _ => loadPlugin r cfgs end
  end.

(** the plugins of a process are those of its configuration that can be made, in
    order, each by the factory that registered first under its name in any case. *)
Theorem plugins_loaded (regs : list (str * (C → X + P))) (cfgs : list C) :
  let r := fold_left (λ r nf, plugin_Register r nf.1 nf.2) regs ∅ in
  loadPlugin r cfgs = omap (λ c, match list_find (λ nf, fmtName nf.1 = fmtName (cfg_name c)) regs with
                                 | Some (_, (_, factory)) => match factory c with inr p => Some p | inl _ => None end
                                 | None => None end) cfgs.
Proof.
  intros r. assert (∀ regs (r0 : plugin_registry) k, fold_left (λ r nf, plugin_Register r nf.1 nf.2) regs r0 !! k
    = match r0 !! k with Some f => Some f | None => (λ x, x.2.2) <$> list_find (λ nf, fmtName nf.1 = k) regs end) as Hr.
  { clear. induction regs as [|[n f] regs IH]; intros r0 k; cbn [fold_left fst snd]; [by destruct (r0 !! k)|]. rewrite IH. unfold plugin_Register.
    destruct (decide (fmtName n = k)) as [<-|Hne].
    - cbn [list_find fst]. rewrite decide_True by done. destruct (r0 !! fmtName n) eqn:E; [by rewrite E|]. by rewrite lookup_insert_eq.
    - assert ((match r0 !! fmtName n with Some _ => r0 | None => <[fmtName n:=f]> r0 end) !! k = r0 !! k) as ->
        by (destruct (r0 !! fmtName n); [done|]; by rewrite lookup_insert_ne).
      destruct (r0 !! k); [done|]. cbn [list_find fst]. rewrite decide_False by done. by destruct (list_find _ regs) as [[? [? ?]]|]. }
  induction cfgs as [|c cfgs IH]; [done|]. cbn [loadPlugin]. unfold plugin_Create, r. rewrite Hr, lookup_empty. fold r. rewrite IH.
  cbn [omap list_omap]. destruct (list_find _ regs) as [[? [? factory]]|]; cbn [fmap option_fmap option_map fst snd]; [|reflexivity].
  destruct (factory c); reflexivity.
Qed.
End plugins.

(** ** Upgrade *)

(** What SIGUSR2 does to a process: the storage is closed, then the new process is
    started, which makes this one stop; a failure of either is only logged. *)
Record process := mkProcess { pr_store_open : bool; pr_stopping : bool }.
Definition on_sigusr2 (close_ok upgrade_ok : bool) (p : process) : process :=
  mkProcess (if close_ok then false else pr_store_open p) (upgrade_ok || pr_stopping p).

Theorem failed_upgrade : on_sigusr2 true false (mkProcess true false) = mkProcess false false.
Proof. reflexivity. Qed.

(** ** A run *)

Definition sample_app : App (E := nat) := cancel (Run_start [None] [] (New 2)).

Lemma sample_app_reachable : rtc (app_step (λ _, false)) (New 2) sample_app.
Proof. eapply rtc_l; [apply (app_start _ _ [None] []); reflexivity|]. eapply rtc_l; [apply (app_stopped _ _ [])|]. apply rtc_refl. Qed.

