(* ===== verification/HttpRange.v ===== *)
(** * Range and Content-Range headers: pkg/x/http/range.go

    The range parser of the cache-hit path ([SingleRange], [Parse]), the
    printers, [UnsatisfiableMultiRange] and [ParseContentRange], with 64-bit
    arithmetic written out.  Proved: what [Parse] returns is always inside the
    object, and printing a list of ranges and parsing it back is the
    identity. *)

From S2P Require Import Prelude GoStrings Headers.

(** ** Data *)

Inductive range_error :=
| ErrContentRangeHeaderNotFound
| ErrContentRangeInvalidFormat
| ErrContentRangeInvalidStartValue
| ErrContentRangeInvalidEndValue
| ErrContentRangeInvalidTotalValue
| ErrRangeHeaderNotFound
| ErrRangeHeaderInvalidFormat
| ErrRangeHeaderUnsatisfiable.

#[export] Instance range_error_eq_dec : EqDecision range_error.
Proof. solve_decision. Defined.

Record Range := mkRange { r_Start : Z; r_End : Z }.

#[export] Instance Range_eq_dec : EqDecision Range.
Proof. solve_decision. Defined.

(** [ContentRange.Length] holds the last byte position of the header. *)
Record ContentRange := mkContentRange { cr_Start : Z; cr_Length : Z; cr_ObjSize : Z }.

Definition zero_content_range : ContentRange := mkContentRange 0 0 0.

(** ** Printing *)

Definition NewRequestRange (start stop : Z) : Range := mkRange start stop.

Definition Length (r : Range) : Z := i64 (i64 (r_End r - r_Start r) + 1).

Definition bytes_slash (start stop size : Z) : str :=
  bs "bytes " ++ format_int start ++ "-"%char :: format_int stop ++ "/"%char :: format_int size.

Definition Range_ContentRange (r : Range) (size : Z) : str :=
  if (r_End r <=? 0) && (r_Start r >? 0) then
    bytes_slash (r_Start r) (u64 (size - 1)) size
  else
    let stop := if r_End r >=? i64 size then i64 (i64 size - 1) else r_End r in
    bytes_slash (r_Start r) stop size.

Definition RangeLength (r : Range) (totalSize : Z) : Z :=
  if (r_End r <=? 0) && (r_Start r >? 0) then i64 (totalSize - r_Start r)
  else i64 (i64 (r_End r - r_Start r) + 1).

Definition MimeHeader (r : Range) (contentType : str) (size : Z) : header :=
  <[bs "Content-Range" := [Range_ContentRange r size]]>
    (<[bs "Content-Type" := [contentType]]> ∅).

Definition Range_String (r : Range) : str :=
  if (r_End r <=? 0) && (r_Start r >? 0) then
    bs "bytes=" ++ format_int (r_Start r) ++ bs "-"
  else bs "bytes=" ++ format_int (r_Start r) ++ "-"%char :: format_int (r_End r).

Definition BuildHeaderRange (start stop totalSize : Z) : str := bytes_slash start stop totalSize.

Definition ContentRange_String (cr : ContentRange) : str :=
  if (cr_Start cr =? 0) && (cr_Length cr =? 0) then
    bs "bytes */" ++ format_int (cr_ObjSize cr)
  else bytes_slash (cr_Start cr) (cr_Length cr) (cr_ObjSize cr).

(** ** Parsing a Range header *)

(** One comma-separated part; [None] is the loop's [continue].  The branch for
    [len(r) < 2] cannot be taken, since the part contains a dash
    ([split_byte_two]). *)
Definition parse_part (size64 : Z) (part : str) : option Range :=
  let part := trim_space part in
  if negb (contains_byte "-"%char part) then None
  else match split_byte "-"%char part with
  | r0 :: r1 :: _ =>
      let '(start, startErr) := parse_int r0 in
      let '(stop, endErr) := parse_int r1 in
      if bool_decide (startErr ≠ None) && bool_decide (endErr ≠ None) then None
      else
        let '(start, stop) :=
          if bool_decide (startErr ≠ None) then (i64 (size64 - stop), i64 (size64 - 1))
          else if bool_decide (endErr ≠ None) then (start, i64 (size64 - 1))
          else (start, stop) in
        let stop := if stop >=? size64 then i64 (size64 - 1) else stop in
        if (start >? stop) || (start <? 0) then None
        else Some (mkRange start stop)
  | _ => None
  end.

(** [header[index+1:]] where [index] is the position of the first ["="]. *)
Definition after_equals (h : str) : option str :=
  match index_byte "="%char h with Some i => Some (drop (S i) h) | None => None end.

Definition Parse (h : str) (size : Z) : result range_error (list Range) :=
  match h with
  | [] => Err ErrRangeHeaderNotFound
  | _ =>
      if negb (has_prefix (bs "bytes=") h) then Err ErrRangeHeaderInvalidFormat
      else match after_equals h with
      | None => Err ErrRangeHeaderInvalidFormat
      | Some rest =>
          let size64 := i64 size in
          match omap (parse_part size64) (split_byte ","%char rest) with
          | [] => Err ErrRangeHeaderInvalidFormat
          | ranges => Ok ranges
          end
      end
  end.

(** [SingleRange]: no header means the whole object. *)
Definition SingleParse (h : str) (size : Z) : result range_error Range :=
  match Parse h size with
  | Err ErrRangeHeaderNotFound =>
      if size =? 0 then Ok (mkRange 0 0) else Ok (mkRange 0 (i64 (i64 size - 1)))
  | Ok (r :: _) => Ok r
  | _ => Err ErrRangeHeaderInvalidFormat
  end.

(** [UnsatisfiableMultiRange]: a value that failed to parse is used as
    [strconv] left it (0, or the clamped bound). *)
Definition unsatisfiable_part (part : str) : option Range :=
  let part := trim_space part in
  if negb (contains_byte "-"%char part) then None
  else match split_byte "-"%char part with
  | r0 :: r1 :: _ =>
      let '(start, startErr) := parse_int r0 in
      let '(stop, endErr) := parse_int r1 in
      if bool_decide (startErr ≠ None) && bool_decide (endErr ≠ None) then None
      else if (start >? stop) || (start <? 0) then None
      else Some (mkRange start stop)
  | _ => None
  end.

Definition UnsatisfiableMultiRange (h : str) : result range_error (list Range) :=
  match h with
  | [] => Err ErrRangeHeaderNotFound
  | _ =>
      if negb (has_prefix (bs "bytes=") h) then Err ErrRangeHeaderInvalidFormat
      else match after_equals h with
      | None => Err ErrRangeHeaderInvalidFormat
      | Some rest => Ok (omap unsatisfiable_part (split_byte ","%char rest))
      end
  end.

(** ** Parsing a Content-Range header

    The value is returned together with the error: callers read it in both
    cases. *)

Definition content_length (h : header) (cr : ContentRange) : ContentRange * option range_error :=
  match parse_uint (header_get (bs "Content-Length") h) with
  | (cl, None) => (mkContentRange (cr_Start cr) (cr_Length cr) cl, None)
  | _ => (cr, Some ErrContentRangeInvalidTotalValue)
  end.

Definition ParseContentRange (h : header) : ContentRange * option range_error :=
  let cr := zero_content_range in
  match header_get (bs "Content-Range") h with
  | [] => content_length h cr
  | contentRange =>
      match split_byte " "%char contentRange with
      | [_; p1] =>
          match split_byte "/"%char p1 with
          | [rp0; rp1] =>
              match split_byte "-"%char rp0 with
              | [v0; v1] =>
                  match sscanf_int v0 with
                  | None => (cr, Some ErrContentRangeInvalidStartValue)
                  | Some start =>
                      let cr := mkContentRange start 0 0 in
                      match sscanf_int v1 with
                      | None => (cr, Some ErrContentRangeInvalidEndValue)
                      | Some stop =>
                          let cr := mkContentRange start stop 0 in
                          match sscanf_uint rp1 with
                          | None => content_length h cr
                          | Some size => (mkContentRange start stop size, None)
                          end
                      end
                  end
              | _ => (cr, Some ErrContentRangeInvalidFormat)
              end
          | _ => (cr, Some ErrContentRangeInvalidFormat)
          end
      | _ => (cr, Some ErrContentRangeInvalidFormat)
      end
  end.

(** ** Lemmas *)

(** A range that lies inside an object of [size] bytes. *)
Definition range_in (size : Z) (r : Range) : Prop := 0 <= r_Start r <= r_End r ∧ r_End r < size.

Lemma parse_part_in size64 part r :
  0 <= size64 <= max_int64 → parse_part size64 part = Some r → range_in size64 r.
Proof.
  intros Hs. unfold parse_part, range_in. cbv zeta.
  case_if; [done|].
  destruct (split_byte _ _) as [|r0 [|r1 l]]; [done..|].
  destruct (parse_int r0) as [start serr], (parse_int r1) as [stop eerr].
  case_if; [done|].
  set (p := if bool_decide (serr ≠ None) then _ else _). destruct p as [a b].
  rewrite i64_id by (unfold_ints; lia).
  repeat case_if; intros; simplify_eq/=; lia.
Qed.

Lemma Parse_in h size rs :
  0 <= size <= max_int64 → Parse h size = Ok rs → rs ≠ [] ∧ Forall (range_in size) rs.
Proof.
  intros Hs. unfold Parse. destruct h as [|c h]; [done|].
  case_if; [done|]. destruct (after_equals _) as [rest|]; [|done].
  rewrite i64_id by (unfold_ints; lia).
  destruct (omap _ _) as [|r l] eqn:E; intros; simplify_eq.
  split; [done|]. rewrite <-E. apply Forall_forall. intros x Hx.
  apply list_elem_of_omap in Hx as (part & _ & Hp). by eapply parse_part_in.
Qed.

(** The printed form of a part: [first-last]. *)
Definition render_part (r : Range) : str :=
  format_int (r_Start r) ++ "-"%char :: format_int (r_End r).

Lemma render_part_graphic r :
  0 <= r_Start r → 0 <= r_End r → Forall (λ c, graphic c = true) (render_part r).
Proof.
  intros. unfold render_part. apply Forall_app. split; [by apply format_nonneg_graphic|].
  apply Forall_cons. split; [done|]. by apply format_nonneg_graphic.
Qed.

Lemma render_part_notin c r :
  is_digit c = false → c ≠ "-"%char → 0 <= r_Start r → 0 <= r_End r → c ∉ render_part r.
Proof.
  intros Hd Hc H1 H2. unfold render_part.
  pose proof (format_notin c _ Hd H1). pose proof (format_notin c _ Hd H2). set_solver.
Qed.

Lemma split_render r :
  0 <= r_Start r → 0 <= r_End r →
  split_byte "-"%char (render_part r) = [format_int (r_Start r); format_int (r_End r)].
Proof.
  intros. unfold render_part.
  rewrite split_byte_app by by apply format_notin.
  rewrite split_byte_notin by by apply format_notin. done.
Qed.

Lemma parse_part_render size r :
  size <= max_int64 → range_in size r → parse_part size (render_part r) = Some r.
Proof.
  intros Hs [[H1 H2] H3]. unfold parse_part.
  rewrite trim_space_graphic by (apply render_part_graphic; lia). cbv zeta.
  rewrite (proj2 (contains_byte_spec _ _)) by (unfold render_part; set_solver). simpl negb.
  rewrite split_render by lia.
  rewrite !parse_format_int by (unfold_ints; lia).
  repeat case_if; try (congruence || lia); by destruct r.
Qed.

(** Whole header: [bytes=] and the parts, separated by commas. *)
Definition render_header (rs : list Range) : str :=
  bs "bytes=" ++ join [","%char] (map render_part rs).

Lemma after_equals_bytes s : after_equals (bs "bytes=" ++ s) = Some s.
Proof. done. Qed.

Lemma Parse_bytes s size :
  Parse (bs "bytes=" ++ s) size =
    match omap (parse_part (i64 size)) (split_byte ","%char s) with
    | [] => Err ErrRangeHeaderInvalidFormat
    | ranges => Ok ranges
    end.
Proof. unfold Parse. rewrite has_prefix_app, after_equals_bytes. done. Qed.

Lemma omap_render size rs :
  size <= max_int64 → Forall (range_in size) rs →
  omap (parse_part size) (map render_part rs) = rs.
Proof.
  intros Hs. induction 1 as [|r rs Hr Hrs IH]; [done|]. csimpl.
  by rewrite parse_part_render, IH.
Qed.

Lemma Parse_render rs size :
  0 <= size <= max_int64 → rs ≠ [] → Forall (range_in size) rs →
  Parse (render_header rs) size = Ok rs.
Proof.
  intros Hs Hne Hrs. unfold render_header.
  rewrite Parse_bytes, i64_id by (unfold_ints; lia).
  rewrite split_join.
  - rewrite omap_render by (done || lia). by destruct rs.
  - by destruct rs.
  - apply Forall_map. eapply Forall_impl; [done|]. intros r [[? ?] ?].
    apply render_part_notin; [done..|lia|lia].
Qed.

Lemma parse_int_empty : parse_int [] = (0, Some ErrSyntax).
Proof. done. Qed.

Lemma Parse_single_part s size :
  ","%char ∉ s → 0 <= size <= max_int64 →
  Parse (bs "bytes=" ++ s) size =
    match parse_part size s with
    | Some r => Ok [r]
    | None => Err ErrRangeHeaderInvalidFormat
    end.
Proof.
  intros Hc Hs. rewrite Parse_bytes, split_byte_notin, i64_id by (done || unfold_ints; lia).
  csimpl. by destruct (parse_part size s).
Qed.

(** One part with a dash, evaluated. *)
Lemma parse_part_dash size a b :
  Forall (λ c, graphic c = true) a → Forall (λ c, graphic c = true) b →
  "-"%char ∉ a → "-"%char ∉ b → 0 <= size <= max_int64 →
  parse_part size (a ++ "-"%char :: b) =
    match parse_int a, parse_int b with
    | (_, Some _), (_, Some _) => None
    | (_, Some _), (n, None) =>
        let start := i64 (size - n) in
        if (start >? size - 1) || (start <? 0) then None else Some (mkRange start (size - 1))
    | (n, None), (_, Some _) =>
        if (n >? size - 1) || (n <? 0) then None else Some (mkRange n (size - 1))
    | (n, None), (m, None) =>
        let stop := if m >=? size then size - 1 else m in
        if (n >? stop) || (n <? 0) then None else Some (mkRange n stop)
    end.
Proof.
  intros Ha Hb Hda Hdb Hs. unfold parse_part.
  rewrite trim_space_graphic by (apply Forall_app; split; [done|by apply Forall_cons]). cbv zeta.
  rewrite (proj2 (contains_byte_spec _ _)) by set_solver. simpl negb. cbv iota.
  rewrite split_byte_app, split_byte_notin by done.
  rewrite !(i64_id (size - 1)) by (unfold_ints; lia).
  destruct (parse_int a) as [n [en|]], (parse_int b) as [m [em|]];
    rewrite ?(bool_decide_eq_true_2 (Some _ ≠ None)), ?(bool_decide_eq_false_2 (None ≠ None))
      by naive_solver; simpl; repeat case_if; done || lia.
Qed.

Lemma parse_part_suffix size b :
  Forall (λ c, graphic c = true) b → "-"%char ∉ b → 0 <= size <= max_int64 →
  parse_part size ("-"%char :: b) =
    match parse_int b with
    | (_, Some _) => None
    | (n, None) =>
        let start := i64 (size - n) in
        if (start >? size - 1) || (start <? 0) then None else Some (mkRange start (size - 1))
    end.
Proof. intros. apply (parse_part_dash size []); fmt_side. Qed.

(** ** Properties *)

(** C19: whatever the client sends, every range [Parse] returns lies inside the
    object ([0 <= Start <= End < size]), and on success there is at least one:
    no header can make the hit path read outside the object. *)
Theorem parse_ranges_in_object (h : str) (size : Z) (rs : list Range) :
  0 <= size <= max_int64 → Parse h size = Ok rs → rs ≠ [] ∧ Forall (range_in size) rs.
Proof. apply Parse_in. Qed.

Lemma parse_ranges_in_object_witness :
  [mkRange 0 99; mkRange 950 999] ≠ [] ∧ Forall (range_in 1000) [mkRange 0 99; mkRange 950 999].
Proof.
  apply (parse_ranges_in_object (bs "bytes=0-99, -50,x-,5000-") 1000); [unfold max_int64; lia|].
  vm_compute. reflexivity.
Defined.

(** A parsed single range lies inside a non-empty object. *)
Lemma SingleParse_in h size r :
  0 < size <= max_int64 → SingleParse h size = Ok r → 0 <= r_Start r <= r_End r ∧ r_End r < size.
Proof.
  intros Hs. unfold SingleParse. destruct (Parse h size) as [[|r0 rs]|[]] eqn:E; try done.
  - apply Parse_in in E as [_ Hf]; [|lia]. intros [= ->]. by apply Forall_inv in Hf.
  - case_if; [lia|]. unfold_ints. rewrite (i64_id size), (i64_id (size - 1)) by (unfold_ints; lia).
    intros [= <-]. simpl. lia.
Qed.

Lemma SingleParse_render (r : Range) (size : Z) :
  0 <= size <= max_int64 → range_in size r → SingleParse (Range_String r) size = Ok r.
Proof.
  intros Hs Hr. assert (Range_String r = render_header [r]) as ->.
  { destruct Hr as [[? ?] ?]. unfold Range_String. case_if; [lia|done]. }
  unfold SingleParse. by rewrite Parse_render by (done || by apply Forall_singleton).
Qed.

(** parsing is the left inverse of printing: a comma-separated list of
    in-object ranges is read back as exactly that list, and [SingleRange]
    (the cache-hit path) takes its first element. *)
Theorem parse_render_round_trip (rs : list Range) (r : Range) (size : Z) :
  0 <= size <= max_int64 → Forall (range_in size) (r :: rs) →
  Parse (render_header (r :: rs)) size = Ok (r :: rs)
  ∧ SingleParse (render_header (r :: rs)) size = Ok r
  ∧ SingleParse (Range_String r) size = Ok r.
Proof.
  intros Hs Hrs. pose proof (Forall_inv Hrs) as Hr. split_and!; [by apply Parse_render| |by apply SingleParse_render].
  unfold SingleParse. by rewrite Parse_render.
Qed.

Lemma parse_render_round_trip_witness :
  Parse (bs "bytes=0-0,10-19") 20 = Ok [mkRange 0 0; mkRange 10 19].
Proof.
  apply (parse_render_round_trip [mkRange 10 19] (mkRange 0 0) 20); [unfold max_int64; lia|].
  repeat constructor; simpl; lia.
Defined.

(** the two abbreviated forms.  [bytes=s-] is the tail from [s], refused when
    [s] is past the end; [bytes=-n] is the last [n] bytes, and is refused, not
    truncated to the whole object, when [n] exceeds the object. *)
Theorem parse_open_and_suffix (s n size : Z) :
  0 <= s <= max_int64 → 0 <= n <= max_int64 → 0 <= size <= max_int64 →
  Parse (bs "bytes=" ++ format_int s ++ bs "-") size =
    (if s <? size then Ok [mkRange s (size - 1)] else Err ErrRangeHeaderInvalidFormat)
  ∧ Parse (bs "bytes=" ++ "-"%char :: format_int n) size =
    (if (1 <=? n) && (n <=? size) then Ok [mkRange (size - n) (size - 1)]
     else Err ErrRangeHeaderInvalidFormat).
Proof.
  intros Hs Hn Hz. split.
  - change (bs "-") with ("-"%char :: []).
    pose proof (format_notin "," s eq_refl ltac:(lia)).
    rewrite Parse_single_part by (done || set_solver).
    rewrite parse_part_dash by fmt_side.
    rewrite parse_format_int by fmt_side. simpl. repeat case_if; done || lia.
  - pose proof (format_notin "," n eq_refl ltac:(lia)).
    rewrite Parse_single_part by (done || set_solver).
    rewrite parse_part_suffix by fmt_side.
    rewrite parse_format_int, i64_id by fmt_side. simpl.
    repeat case_if; done || lia.
Qed.

Lemma parse_open_and_suffix_witness :
  Parse (bs "bytes=990-") 1000 = Ok [mkRange 990 999]
  ∧ Parse (bs "bytes=-1001") 1000 = Err ErrRangeHeaderInvalidFormat.
Proof. apply (parse_open_and_suffix 990 1001 1000); unfold max_int64; lia. Defined.

(** a first position too large for [int64] is not refused: the part is then
    read as the suffix form, so [bytes=N-m] with an overflowing [N] is the
    request [bytes=-m]. *)
Theorem first_position_overflow_is_suffix (d : str) (n m size : Z) :
  Forall (λ c, is_digit c = true) d → parse_int d = (n, Some ErrRange) →
  0 <= m <= max_int64 → 0 <= size <= max_int64 →
  Parse (bs "bytes=" ++ d ++ "-"%char :: format_int m) size
  = Parse (bs "bytes=" ++ "-"%char :: format_int m) size.
Proof.
  intros Hd Ho Hm Hz.
  pose proof (format_notin "," m eq_refl ltac:(lia)).
  pose proof (digits_notin "," d eq_refl Hd).
  rewrite !Parse_single_part by (done || set_solver).
  assert (Forall (λ c, graphic c = true) d) by (eapply Forall_impl; [done|]; apply digit_graphic).
  rewrite (parse_part_dash size d) by fmt_side.
  rewrite parse_part_suffix by fmt_side.
  rewrite Ho, parse_format_int by fmt_side. done.
Qed.

Lemma first_position_overflow_is_suffix_witness :
  Parse (bs "bytes=99999999999999999999-5") 100 = Parse (bs "bytes=-5") 100.
Proof.
  apply (first_position_overflow_is_suffix (bs "99999999999999999999") max_int64 5 100);
    [repeat constructor|reflexivity|unfold max_int64; lia..].
Defined.

Lemma ParseContentRange_build (h : header) (s e size : Z) :
  0 <= s <= max_int64 → 0 <= e <= max_int64 → 0 <= size <= max_uint64 →
  ParseContentRange (header_set (bs "Content-Range") (BuildHeaderRange s e size) h)
    = (mkContentRange s e size, None).
Proof.
  intros Hs He Hz. unfold ParseContentRange.
  rewrite header_get_set. unfold BuildHeaderRange, bytes_slash.
  change (bs "bytes " ++ ?x) with (bs "bytes" ++ " "%char :: x).
  destruct (bs "bytes" ++ _) as [|c l] eqn:E; [done|]. rewrite <-E. clear c l E.
  pose proof (format_notin " " s eq_refl ltac:(lia)).
  pose proof (format_notin " " e eq_refl ltac:(lia)).
  pose proof (format_notin " " size eq_refl ltac:(lia)).
  pose proof (format_notin "/" s eq_refl ltac:(lia)).
  pose proof (format_notin "/" e eq_refl ltac:(lia)).
  rewrite split_byte_app, split_byte_notin by (done || set_solver).
  rewrite app_comm_cons, app_assoc.
  rewrite split_byte_app, split_byte_notin by fmt_side.
  rewrite split_byte_app, split_byte_notin by fmt_side.
  rewrite !sscanf_format_int, sscanf_format_uint by fmt_side. done.
Qed.

(** [ParseContentRange] reads back what [BuildHeaderRange] prints (the
    [Content-Range] of every 206 the proxy writes), and falls back to
    [Content-Length] when the header is absent. *)
Theorem content_range_round_trip (h : header) (s e size : Z) :
  0 <= s <= max_int64 → 0 <= e <= max_int64 → 0 <= size <= max_uint64 →
  ParseContentRange (header_set (bs "Content-Range") (BuildHeaderRange s e size) h)
    = (mkContentRange s e size, None)
  ∧ ParseContentRange (header_set (bs "Content-Length") (format_int size)
                        (header_del (bs "Content-Range") h))
    = (mkContentRange 0 0 size, None).
Proof.
  intros Hs He Hz. split.
  - by apply ParseContentRange_build.
  - unfold ParseContentRange. rewrite header_get_set_ne by done. rewrite header_get_del. unfold content_length.
    rewrite header_get_set, format_int_nonneg, parse_format_uint by fmt_side. done.
Qed.

Lemma content_range_round_trip_witness :
  ParseContentRange (header_set (bs "Content-Range") (bs "bytes 200-1000/67589") ∅)
    = (mkContentRange 200 1000 67589, None).
Proof.
  apply (content_range_round_trip ∅ 200 1000 67589); unfold max_int64, max_uint64; lia.
Defined.
