(* ===== verification/RangeControl.v ===== *)
(** * Strict ranges: pkg/x/http/rangecontrol

    The range parser of the multi-range middleware ([Parse], [SortRanges],
    [MergeRanges]) and the strict [ParseContentRange].  Proved: merging a sorted
    list keeps exactly the covered bytes and leaves disjoint, non-adjacent
    ranges; parsing is the left inverse of printing; and the two places where
    the code departs from that (merging in header order, printing [0-]). *)

From S2P Require Import Prelude GoStrings Headers.

(** ** request_range.go *)

Inductive byte_range_error :=
| ErrInvalidRange
| ErrOpenEnded (startStr endStr : str).

(** [End = -1] is the open-ended form. *)
Record ByteRange := mkByteRange { b_Start : Z; b_End : Z }.

#[export] Instance ByteRange_eq_dec : EqDecision ByteRange.
Proof. solve_decision. Defined.

Definition Length (r : ByteRange) : Z := i64 (i64 (b_End r - b_Start r) + 1).

Definition ByteRange_String (r : ByteRange) : str :=
  if (b_End r <=? 0) && (b_Start r >? 0) then bs "bytes=" ++ format_int (b_Start r) ++ bs "-"
  else bs "bytes=" ++ format_int (b_Start r) ++ "-"%char :: format_int (b_End r).

Definition content_range_str (s e : Z) (total : str) : str :=
  bs "bytes " ++ format_int s ++ "-"%char :: format_int e ++ "/"%char :: total.

Definition ByteRange_ContentRange (r : ByteRange) (totalSize : Z) : str :=
  if totalSize <=? 0 then content_range_str (b_Start r) (b_End r) (bs "*")
  else if (b_End r =? -1) || (b_End r >=? i64 totalSize) then
    content_range_str (b_Start r) (u64 (totalSize - 1)) (format_int totalSize)
  else content_range_str (b_Start r) (b_End r) (format_int totalSize).

Definition MimeHeader (r : ByteRange) (contentType : str) (size : Z) : header :=
  <[bs "Content-Range" := [ByteRange_ContentRange r size]]>
    (<[bs "Content-Type" := [contentType]]> ∅).

Definition parse_one (part : str) : result byte_range_error ByteRange :=
  let part := trim_space part in
  if has_prefix (bs "-") part then Err ErrInvalidRange
  else match index_byte "-"%char part with
  | None => Err ErrInvalidRange
  | Some dash =>
      let startStr := take dash part in
      let endStr := drop (S dash) part in
      let '(start, err) := parse_int startStr in
      if bool_decide (err ≠ None) || (start <? 0) then Err ErrInvalidRange
      else match endStr with
      | [] => Ok (mkByteRange start (-1))
      | _ =>
          let '(stop, err) := parse_int endStr in
          if bool_decide (err ≠ None) || (stop <? start) then Err (ErrOpenEnded startStr endStr)
          else Ok (mkByteRange start stop)
      end
  end.

(** The loop stops at the first malformed part. *)
Fixpoint parse_parts (parts : list str) : result byte_range_error (list ByteRange) :=
  match parts with
  | [] => Ok []
  | p :: ps =>
      result_bind (parse_one p) (λ r, result_bind (parse_parts ps) (λ rs, Ok (r :: rs)))
  end.

Definition Parse (rangeHeader : str) : result byte_range_error (list ByteRange) :=
  match rangeHeader with
  | [] => Ok []
  | _ =>
      if negb (has_prefix (bs "bytes=") rangeHeader) then Err ErrInvalidRange
      else parse_parts (split_byte ","%char (trim_prefix (bs "bytes=") rangeHeader))
  end.

(** The comparison of [SortRanges]: by start, closed ranges before the open one. *)
Definition range_less (a b : ByteRange) : bool :=
  if negb (b_Start a =? b_Start b) then b_Start a <? b_Start b
  else if b_End a =? -1 then false
  else if b_End b =? -1 then true
  else b_End a <? b_End b.

Fixpoint insert_range (r : ByteRange) (l : list ByteRange) : list ByteRange :=
  match l with
  | [] => [r]
  | x :: l' => if range_less x r then x :: insert_range r l' else r :: l
  end.

(** [sort.Slice] with [range_less]; the order is total on ranges, so every
    correct sort returns this list ([sort_ranges_unique]). *)
Definition SortRanges (ranges : list ByteRange) : list ByteRange :=
  fold_right insert_range [] ranges.

Fixpoint merge_loop (cur : ByteRange) (rest : list ByteRange) : list ByteRange :=
  match rest with
  | [] => [cur]
  | next :: rest' =>
      if b_End cur =? -1 then [cur]
      else if b_Start next <=? i64 (b_End cur + 1) then
        if (b_End next =? -1) || (b_End next >? b_End cur)
        then merge_loop (mkByteRange (b_Start cur) (b_End next)) rest'
        else merge_loop cur rest'
      else cur :: merge_loop next rest'
  end.

Definition MergeRanges (ranges : list ByteRange) : list ByteRange :=
  match ranges with [] => [] | r :: rs => merge_loop r rs end.

(** ** response_range.go *)

(** [Size = -1] when unknown. *)
Record ContentRange := mkContentRange {
  c_Start : Z; c_End : Z; c_Size : Z; c_Unsatisfied : bool }.

Inductive content_range_error := ErrInvalidContentRange.

Definition parse_range_resp (value : str) : result content_range_error ContentRange :=
  match index_byte "/"%char value with
  | None => Err ErrInvalidContentRange
  | Some slash =>
      let rangePart := take slash value in
      let sizePart := drop (S slash) value in
      match index_byte "-"%char rangePart with
      | None => Err ErrInvalidContentRange
      | Some dash =>
          let '(start, err1) := parse_int (take dash rangePart) in
          if bool_decide (err1 ≠ None) || (start <? 0) then Err ErrInvalidContentRange
          else
            let '(stop, err2) := parse_int (drop (S dash) rangePart) in
            if bool_decide (err2 ≠ None) || (stop <? start) then Err ErrInvalidContentRange
            else if bool_decide (sizePart = bs "*") then Ok (mkContentRange start stop (-1) false)
            else
              let '(size, err3) := parse_int sizePart in
              if bool_decide (err3 ≠ None) || (size <=? 0) || (stop >=? size)
              then Err ErrInvalidContentRange
              else Ok (mkContentRange start stop size false)
      end
  end.

Definition ParseContentRange (h : str) : result content_range_error ContentRange :=
  let h := trim_space h in
  match h with
  | [] => Err ErrInvalidContentRange
  | _ =>
      match index_byte " "%char h with
      | None => Err ErrInvalidContentRange
      | Some sp =>
          let value := drop (S sp) h in
          if has_prefix (bs "*/") value then
            let '(size, err) := parse_int (trim_prefix (bs "*/") value) in
            if bool_decide (err ≠ None) || (size <? 0) then Err ErrInvalidContentRange
            else Ok (mkContentRange 0 0 size true)
          else parse_range_resp value
      end
  end.

(** ** Meaning of a range *)

(** A range as [Parse] returns it, below the largest int64. *)
Definition range_ok (r : ByteRange) : Prop :=
  0 <= b_Start r ∧ (b_End r = -1 ∨ b_Start r <= b_End r < max_int64).

Definition covers (x : Z) (r : ByteRange) : Prop :=
  b_Start r <= x ∧ (b_End r = -1 ∨ x <= b_End r).

Definition covered (x : Z) (l : list ByteRange) : Prop := Exists (covers x) l.

(** [a] ends before [b] starts, with at least one byte between. *)
Definition separated (a b : ByteRange) : Prop := b_End a ≠ -1 ∧ b_End a + 1 < b_Start b.

Definition start_le (a b : ByteRange) : Prop := b_Start a <= b_Start b.

(** ** Sorting *)

Definition range_le (a b : ByteRange) : Prop := range_less b a = false.

#[export] Instance range_le_trans : Transitive range_le.
Proof.
  intros [s1 e1] [s2 e2] [s3 e3]; unfold range_le, range_less; simpl; intros H1 H2.
  repeat case_if; simplify_eq; try done; lia.
Qed.

#[export] Instance range_le_antisymm : AntiSymm (=) range_le.
Proof.
  intros [s1 e1] [s2 e2]; unfold range_le, range_less; simpl; intros H1 H2.
  repeat case_if; simplify_eq; try done; f_equal; lia.
Qed.

Lemma range_less_total a b : range_less a b = true → range_le a b.
Proof.
  destruct a as [s1 e1], b as [s2 e2]; unfold range_le, range_less; simpl; intros H.
  repeat case_if; simplify_eq; try done; lia.
Qed.

Lemma range_le_start a b : range_le a b → start_le a b.
Proof. unfold range_le, range_less, start_le; intros H. repeat case_if; zbool; lia. Qed.

#[export] Hint Resolve range_less_total range_le_start : tavern.

Lemma insert_range_perm r l : insert_range r l ≡ₚ r :: l.
Proof. induction l as [|x l IH]; simpl; [done|]. case_if; [|done]. rewrite IH. constructor. Qed.

Lemma sort_perm l : SortRanges l ≡ₚ l.
Proof. induction l as [|x l IH]; simpl; [done|]. by rewrite insert_range_perm, IH. Qed.

Lemma insert_range_sorted r l :
  StronglySorted range_le l → StronglySorted range_le (insert_range r l).
Proof.
  induction 1 as [|x l Hs IH Hx]; simpl; [by repeat constructor|].
  case_if; constructor; try done.
  - rewrite insert_range_perm. constructor; auto with tavern.
  - by constructor.
  - constructor; [done|]. eapply Forall_impl; [exact Hx|]. intros y ?. by transitivity x.
Qed.

Lemma sort_sorted l : StronglySorted range_le (SortRanges l).
Proof. induction l; simpl; [constructor|]. by apply insert_range_sorted. Qed.

(** Whatever algorithm [sort.Slice] uses, its result is [SortRanges]. *)
Lemma sort_ranges_unique l k :
  k ≡ₚ l → StronglySorted range_le k → k = SortRanges l.
Proof.
  intros Hp Hs. apply (StronglySorted_unique range_le); [done|apply sort_sorted|].
  by rewrite sort_perm.
Qed.

(** ** Merging *)

Lemma merge_loop_head cur rest :
  ∃ e l, merge_loop cur rest = mkByteRange (b_Start cur) e :: l.
Proof.
  revert cur; induction rest as [|n rest IH]; intros cur; simpl.
  - destruct cur; eauto.
  - repeat case_if; try (destruct cur; by eauto).
    destruct (IH (mkByteRange (b_Start cur) (b_End n))) as (e & l & ->); eauto.
Qed.

Lemma merge_loop_starts m cur rest :
  m <= b_Start cur → Forall (λ r, m <= b_Start r) rest →
  Forall (λ r, m <= b_Start r) (merge_loop cur rest).
Proof.
  intros Hc Hr; revert cur Hc; induction Hr as [|n rest Hn Hr IH]; intros cur Hc; simpl.
  - by repeat constructor.
  - repeat case_if; auto.
Qed.

Lemma merge_loop_separated cur rest :
  range_ok cur → Forall range_ok rest → StronglySorted start_le (cur :: rest) →
  StronglySorted separated (merge_loop cur rest).
Proof.
  intros Hc Hr; revert cur Hc; induction Hr as [|n rest Hn Hr IH]; intros cur Hc Hs; simpl.
  - by repeat constructor.
  - apply StronglySorted_inv in Hs as [Hs Hcs].
    apply StronglySorted_inv in Hs as [Hs' Hns].
    apply Forall_cons in Hcs as [Hcn Hcs].
    unfold range_ok, start_le in *.
    repeat case_if; try (by repeat constructor).
    + apply IH; simpl; [destruct Hb1; lia|by constructor].
    + apply IH; [done|by constructor].
    + rewrite i64_id in Hb0 by (unfold_ints; lia).
      constructor; [apply IH; [done|by constructor]|].
      eapply Forall_impl; [apply (merge_loop_starts (b_Start n)); [lia|done]|].
      simpl; intros a Ha. split; lia.
Qed.

Lemma merge_loop_covered x cur rest :
  range_ok cur → Forall range_ok rest → StronglySorted start_le (cur :: rest) →
  covered x (merge_loop cur rest) ↔ covered x (cur :: rest).
Proof.
  intros Hc Hr; revert cur Hc; induction Hr as [|n rest Hn Hr IH]; intros cur Hc Hs; simpl.
  - done.
  - apply StronglySorted_inv in Hs as [Hs Hcs].
    apply StronglySorted_inv in Hs as [Hs' Hns].
    apply Forall_cons in Hcs as [Hcn Hcs].
    unfold covered, range_ok, start_le in *.
    repeat case_if.
    + rewrite !Exists_cons. split; [intros [?|[]%Exists_nil]; by left|].
      intros [?|[Hx|Hx]]; [by left|left|left]; unfold covers in *.
      * lia.
      * apply Exists_exists in Hx as (y & Hy & ?).
        rewrite Forall_forall in Hcs. specialize (Hcs y Hy). lia.
    + rewrite i64_id in Hb0 by (unfold_ints; lia).
      rewrite IH; simpl; [|destruct Hb1; lia|by constructor].
      rewrite !Exists_cons; unfold covers; simpl. destruct Hb1; [|intuition lia].
      intuition lia.
    + rewrite IH; [|done|by constructor].
      rewrite !Exists_cons; unfold covers. intuition lia.
    + rewrite !Exists_cons, IH; [by rewrite Exists_cons|done|by constructor].
Qed.

(** sorting and then merging a list of parsed ranges keeps exactly the
    requested bytes, and leaves the ranges in order with at least one byte
    between any two of them (so no byte is sent twice and no two adjacent
    ranges survive). *)
Theorem sort_merge_normal_form (l : list ByteRange) :
  Forall range_ok l →
  (∀ x, covered x (MergeRanges (SortRanges l)) ↔ covered x l)
  ∧ StronglySorted separated (MergeRanges (SortRanges l)).
Proof.
  intros Hok. pose proof (sort_sorted l) as Hs. pose proof (sort_perm l) as Hp.
  assert (Forall range_ok (SortRanges l)) as Hok' by by rewrite Hp.
  assert (∀ x, covered x (SortRanges l) ↔ covered x l) as Hc.
  { intros x. unfold covered. by rewrite Hp. }
  destruct (SortRanges l) as [|r rs]; simpl; [split; [done|constructor]|].
  apply Forall_cons in Hok' as [Hr Hrs].
  assert (StronglySorted start_le (r :: rs)).
  { eapply strongly_sorted_impl; [|exact Hs]. auto with tavern. }
  split; [|by apply merge_loop_separated].
  intros x. by rewrite merge_loop_covered, Hc.
Qed.

Lemma sort_merge_normal_form_witness :
  Forall range_ok [mkByteRange 100 199; mkByteRange 0 50; mkByteRange 40 99]
  ∧ StronglySorted separated
      (MergeRanges (SortRanges [mkByteRange 100 199; mkByteRange 0 50; mkByteRange 40 99])).
Proof.
  assert (Forall range_ok [mkByteRange 100 199; mkByteRange 0 50; mkByteRange 40 99]) as H.
  { repeat constructor; unfold_ints; simpl; lia. }
  split; [exact H|]. exact (proj2 (sort_merge_normal_form _ H)).
Defined.

(** ** Printing and parsing *)

(** The text of a [Range] header for a list of ranges. *)
Definition render_range (r : ByteRange) : str :=
  format_int (b_Start r) ++ "-"%char :: (if b_End r =? -1 then [] else format_int (b_End r)).

Definition render_header (l : list ByteRange) : str :=
  bs "bytes=" ++ join [","%char] (map render_range l).

Definition range_wf (r : ByteRange) : Prop :=
  0 <= b_Start r <= max_int64 ∧ (b_End r = -1 ∨ b_Start r <= b_End r <= max_int64).

Lemma parse_one_wf p r : parse_one p = Ok r → range_wf r.
Proof.
  unfold parse_one. cbv zeta. case_if; [done|].
  destruct (index_byte _ _) as [d|]; [|done].
  destruct (parse_int (take d _)) as [n [e|]] eqn:En; simpl; [done|].
  apply parse_int_range in En. case_if; [done|].
  destruct (drop (S d) _) as [|c t] eqn:Et.
  - intros [= <-]. split; simpl; unfold_ints; lia.
  - destruct (parse_int (c :: t)) as [m [e|]] eqn:Em; simpl; [done|].
    apply parse_int_range in Em. case_if; [done|].
    intros [= <-]. split; simpl; unfold_ints; lia.
Qed.

Lemma parse_parts_wf ps rs : parse_parts ps = Ok rs → Forall range_wf rs.
Proof.
  revert rs; induction ps as [|p ps IH]; intros rs; simpl; [by intros [= <-]|].
  destruct (parse_one p) as [r|e] eqn:Er; simpl; [|done].
  destruct (parse_parts ps) as [rs'|e] eqn:Ep; simpl; [|done].
  intros [= <-]. constructor; [by eapply parse_one_wf|by apply IH].
Qed.

Lemma render_range_graphic r : range_wf r → Forall (λ c, graphic c = true) (render_range r).
Proof.
  intros [Hs He]. unfold render_range. apply Forall_app. split; [fmt_side|].
  apply Forall_cons; split; [done|]. case_if; [constructor|fmt_side].
Qed.

Lemma render_range_comma r : range_wf r → ","%char ∉ render_range r.
Proof.
  intros [Hs He]. unfold render_range.
  pose proof (format_notin "," (b_Start r) eq_refl ltac:(lia)).
  case_if; [set_solver|].
  pose proof (format_notin "," (b_End r) eq_refl ltac:(lia)). set_solver.
Qed.

Lemma parse_one_render r : range_wf r → parse_one (render_range r) = Ok r.
Proof.
  intros Hr. unfold parse_one. rewrite trim_space_graphic by by apply render_range_graphic.
  cbv zeta. destruct Hr as [Hs He].
  destruct (format_uint_head (b_Start r)) as (c & t & Ec & Hc); [lia|].
  assert (has_prefix (bs "-") (render_range r) = false) as ->.
  { unfold render_range. rewrite format_int_nonneg, Ec by lia. simpl.
    rewrite bool_decide_eq_false_2; [done|]. intros <-. done. }
  unfold render_range. rewrite index_byte_app by fmt_side.
  rewrite take_app_length, drop_app_ge, parse_format_int by (fmt_side || lia).
  replace (S (length (format_int (b_Start r))) - length (format_int (b_Start r)))%nat with 1%nat by lia.
  simpl. case_if; [lia|]. destruct r as [s e]; simpl in *.
  case_if; simpl; [by subst|].
  destruct (format_int e) as [|d u] eqn:Ee; [by apply format_int_ne in Ee|].
  rewrite drop_0, <-Ee, parse_format_int by fmt_side. simpl. case_if; [lia|done].
Qed.

Lemma parse_parts_render l :
  Forall range_wf l → parse_parts (map render_range l) = Ok l.
Proof. induction 1 as [|r l Hr Hl IH]; simpl; [done|]. by rewrite parse_one_render, IH. Qed.

Lemma strict_Parse_bytes s : Parse (bs "bytes=" ++ s) = parse_parts (split_byte ","%char s).
Proof. unfold Parse. by rewrite has_prefix_app, trim_prefix_app. Qed.

(** the strict parser accepts only well-formed lists (every start is
    non-negative, every range is open or not reversed) and reads back every
    well-formed list from its header text; and the first malformed part makes
    it refuse the whole header. *)
Theorem strict_parse_correct :
  (∀ h rs, Parse h = Ok rs → Forall range_wf rs)
  ∧ (∀ l, l ≠ [] → Forall range_wf l → Parse (render_header l) = Ok l)
  ∧ (∀ h ps p qs e,
       Forall (λ w, ","%char ∉ w) (ps ++ p :: qs) → (∀ q, q ∈ ps → ∃ r, parse_one q = Ok r) →
       parse_one p = Err e → h = bs "bytes=" ++ join [","%char] (ps ++ p :: qs) → Parse h = Err e).
Proof.
  split; [|split].
  - intros h rs. unfold Parse. destruct h; [by intros [= <-]|]. case_if; [done|].
    apply parse_parts_wf.
  - intros l Hne Hl. unfold render_header. rewrite strict_Parse_bytes, split_join.
    + by apply parse_parts_render.
    + by destruct l.
    + apply Forall_map. eapply Forall_impl; [exact Hl|]. intros. by apply render_range_comma.
  - intros h ps p qs e Hc Hps Hp ->. rewrite strict_Parse_bytes, split_join by (done || by destruct ps).
    clear Hc. induction ps as [|q ps IH]; simpl; [by rewrite Hp|].
    destruct (Hps q) as [r ->]; [set_solver|]. simpl. rewrite IH; [done|set_solver].
Qed.

Lemma strict_parse_correct_witness :
  Parse (bs "bytes=0-0,100-") = Ok [mkByteRange 0 0; mkByteRange 100 (-1)]
  ∧ Parse (bs "bytes=0-0,-5,zz") = Err ErrInvalidRange.
Proof.
  destruct strict_parse_correct as (_ & H2 & H3). split.
  - apply (H2 [mkByteRange 0 0; mkByteRange 100 (-1)]); [done|].
    repeat constructor; simpl; unfold_ints; lia.
  - apply (H3 _ [bs "0-0"] (bs "-5") [bs "zz"]).
    + repeat constructor; vm_compute; set_solver.
    + intros q ->%list_elem_of_singleton. by exists (mkByteRange 0 0).
    + reflexivity.
    + reflexivity.
Defined.

(** ** Content-Range *)

Definition content_range_wf (c : ContentRange) : Prop :=
  if c_Unsatisfied c then c_Start c = 0 ∧ c_End c = 0 ∧ 0 <= c_Size c
  else 0 <= c_Start c <= c_End c ∧ (c_Size c = -1 ∨ c_End c < c_Size c).

Lemma parse_range_resp_wf v c : parse_range_resp v = Ok c → content_range_wf c.
Proof.
  unfold parse_range_resp. destruct (index_byte _ v) as [i|]; [|done].
  destruct (index_byte _ _) as [d|]; [|done].
  destruct (parse_int (take d _)) as [n [?|]]; simpl; [done|]. case_if; [done|].
  destruct (parse_int (drop (S d) _)) as [m [?|]]; simpl; [done|]. case_if; [done|].
  case_if; [intros [= <-]; unfold content_range_wf; simpl; lia|].
  destruct (parse_int (drop (S i) v)) as [z [?|]]; simpl; [done|]. case_if; [done|].
  intros [= <-]. unfold content_range_wf; simpl; lia.
Qed.

Lemma ParseContentRange_wf h c : ParseContentRange h = Ok c → content_range_wf c.
Proof.
  unfold ParseContentRange. cbv zeta. destruct (trim_space h) as [|x t]; [done|].
  destruct (index_byte _ _) as [i|]; [|done]. case_if; [|apply parse_range_resp_wf].
  destruct (parse_int _) as [n [?|]]; simpl; [done|]. case_if; [done|].
  intros [= <-]. unfold content_range_wf; simpl; lia.
Qed.

Definition total_value (e s : Z) (total : str) : result content_range_error ContentRange :=
  if bool_decide (total = bs "*") then Ok (mkContentRange s e (-1) false)
  else match parse_int total with
  | (size, None) => if (size <=? 0) || (e >=? size) then Err ErrInvalidContentRange
                    else Ok (mkContentRange s e size false)
  | _ => Err ErrInvalidContentRange
  end.

Lemma parse_range_resp_str s e total :
  0 <= s <= e → e <= max_int64 →
  parse_range_resp (format_int s ++ "-"%char :: format_int e ++ "/"%char :: total) =
    total_value e s total.
Proof.
  intros Hse He. unfold parse_range_resp, total_value.
  replace (format_int s ++ "-"%char :: format_int e ++ "/"%char :: total)
    with ((format_int s ++ "-"%char :: format_int e) ++ "/"%char :: total)
    by by rewrite <-app_assoc.
  pose proof (format_notin "/" s eq_refl ltac:(lia)).
  pose proof (format_notin "/" e eq_refl ltac:(lia)).
  rewrite index_byte_app by set_solver.
  rewrite take_app_length, index_byte_app by fmt_side.
  rewrite (drop_S_app _ (format_int s ++ _)), drop_S_app, take_app_length.
  rewrite !parse_format_int by fmt_side. simpl.
  destruct (parse_int total) as [z [?|]]; simpl; repeat case_if; done || lia.
Qed.

Lemma parse_content_range_str s e total :
  0 <= s <= e → e <= max_int64 → Forall (λ c, graphic c = true) total → total ≠ [] →
  ParseContentRange (content_range_str s e total) = total_value e s total.
Proof.
  intros Hse He Ht Hne. rewrite <-parse_range_resp_str by done.
  unfold ParseContentRange, content_range_str.
  set (v := format_int s ++ "-"%char :: format_int e ++ "/"%char :: total).
  assert (∃ t c, bs "bytes " ++ v = "b"%char :: t ++ [c] ∧ graphic c = true) as (t & c & Ev & Hc).
  { destruct (exists_last Hne) as (t & c & ->). apply Forall_app in Ht as [_ Hc].
    exists (bs "ytes " ++ format_int s ++ "-"%char :: format_int e ++ "/"%char :: t), c.
    split; [|by inversion Hc]. unfold v. simpl. by rewrite <-!app_assoc, <-!app_comm_cons, <-app_assoc. }
  rewrite Ev, trim_space_ends by done. cbv zeta. rewrite <-Ev.
  assert (has_prefix (bs "*/") v = false) as Hv.
  { destruct (format_uint_head s) as (x & u & Es & Hx); [lia|].
    unfold v. rewrite (format_int_nonneg s), Es by lia. simpl.
    rewrite bool_decide_eq_false_2 by (intros <-; done). done. }
  change (index_byte " " (bs "bytes " ++ v)) with (Some 5%nat); cbv iota beta.
  by rewrite (drop_app_exact (bs "bytes ") v 6), Hv.
Qed.

(** [ParseContentRange] accepts only well-formed values, and reads back what
    [ContentRange] prints: the range clamped to the object, with its size, or
    with size -1 when the size is unknown. *)
Theorem strict_content_range_round_trip :
  (∀ h c, ParseContentRange h = Ok c → content_range_wf c)
  ∧ (∀ r size, range_wf r → b_Start r < size → size <= max_int64 →
       ParseContentRange (ByteRange_ContentRange r size) =
         Ok (mkContentRange (b_Start r)
               (if b_End r =? -1 then size - 1 else Z.min (b_End r) (size - 1)) size false))
  ∧ (∀ r, range_wf r → b_End r ≠ -1 →
       ParseContentRange (ByteRange_ContentRange r 0) =
         Ok (mkContentRange (b_Start r) (b_End r) (-1) false)).
Proof.
  split; [exact ParseContentRange_wf|]. split.
  - intros r size [Hs He] Hlt Hz.
    assert (∀ e, b_Start r <= e → e < size →
      ParseContentRange (content_range_str (b_Start r) e (format_int size)) =
        Ok (mkContentRange (b_Start r) e size false)) as Hp.
    { intros e He1 He2.
      rewrite parse_content_range_str by (lia || fmt_side || apply format_int_ne).
      unfold total_value. rewrite bool_decide_eq_false_2.
      - rewrite parse_format_int by fmt_side. repeat case_if; done || lia.
      - intros Ht. apply (format_notin "*" size eq_refl); [lia|]. rewrite Ht. set_solver. }
    unfold ByteRange_ContentRange. rewrite i64_id, u64_id by (unfold_ints; lia).
    repeat case_if; try lia; rewrite Hp by lia; do 2 f_equal; lia.
  - intros r [Hs He] Hne. unfold ByteRange_ContentRange. simpl.
    rewrite parse_content_range_str by (lia || done || by repeat constructor).
    done.
Qed.

Lemma strict_content_range_round_trip_witness :
  ParseContentRange (bs "bytes 100-999/1000") = Ok (mkContentRange 100 999 1000 false)
  ∧ ParseContentRange (bs "bytes 5-9/*") = Ok (mkContentRange 5 9 (-1) false).
Proof.
  destruct strict_content_range_round_trip as (_ & H2 & H3). split.
  - apply (H2 (mkByteRange 100 (-1)) 1000); [split; simpl; unfold_ints; lia|simpl; lia|done].
  - apply (H3 (mkByteRange 5 9)); [split; simpl; unfold_ints; lia|done].
Defined.

(** [MergeRanges] alone does not sort: for two closed ranges in descending
    order the first byte of the second one is lost. *)
Theorem merge_unsorted_drops (a b : ByteRange) :
  range_ok a → range_ok b → b_End a ≠ -1 → b_Start b < b_Start a →
  covered (b_Start b) [a; b] ∧ ¬ covered (b_Start b) (MergeRanges [a; b]).
Proof.
  unfold range_ok, covered. intros Ha Hb He Hlt. split.
  - apply Exists_cons. right. apply Exists_cons. left. unfold covers; simpl; lia.
  - simpl. rewrite i64_id by (unfold_ints; lia).
    repeat case_if; try lia; rewrite Exists_cons, Exists_nil; unfold covers; simpl; lia.
Qed.

Lemma merge_unsorted_drops_witness :
  covered 0 [mkByteRange 100 199; mkByteRange 0 50]
  ∧ ¬ covered 0 (MergeRanges [mkByteRange 100 199; mkByteRange 0 50]).
Proof.
  apply (merge_unsorted_drops (mkByteRange 100 199) (mkByteRange 0 50));
    unfold range_ok, max_int64; simpl; lia.
Defined.
