(* ===== verification/IoReader.v ===== *)
(** * Byte streams: pkg/iobuf

    Go's [io.ReadCloser] as a type class, the parts of package [io] the code
    uses, the contract of a stream that delivers given bytes, and the reader
    combinators of pkg/iobuf ([LimitReadCloser], [SkipReadCloser],
    [PartsReadCloser], [RangeReader], [AllCloser], [ChunkWriterCloser]), each
    with the theorem that it keeps the contract.

    A call of [Read] may loop inside the combinators ([io.CopyN] polls its
    source), so it takes fuel; the contract asks for fuel that is enough, and
    every result below holds for all larger fuel. *)

From S2P Require Import Prelude.

Inductive ioerr := EOF | IoErr (code : Z).

#[export] Instance ioerr_eq_dec : EqDecision ioerr.
Proof. solve_decision. Defined.

(** One result of [Read]: the bytes, the error, the reader afterwards. *)
Definition read_result (R : Type) : Type := (str * option ioerr * R)%type.

(** The methods of a reader's dynamic type.  [rd_copy fuel k r] is
    [io.Copy(w, r)] with a [k]-byte buffer to a writer that accepts everything
    (it calls [WriteTo] when the type has it); [rd_seek] is [None] when the
    type is not an [io.Seeker] or the seek fails. *)
Class Reader (R : Type) := {
  rd_read : nat → R → nat → option (read_result R);
  rd_copy : nat → nat → R → option (read_result R);
  rd_close : R → option ioerr * R;
  rd_seek : R → Z → option R
}.

Definition map_reader {A B} (f : A → B) (x : option (read_result A)) : option (read_result B) :=
  match x with Some (b, e, a) => Some (b, e, f a) | None => None end.

(** An interface value that may hold either of two dynamic types. *)
#[export] Instance Reader_sum {A B} `{Reader A, Reader B} : Reader (A + B) := {|
  rd_read f r k := match r with
    | inl a => map_reader inl (rd_read f a k)
    | inr b => map_reader inr (rd_read f b k) end;
  rd_copy f k r := match r with
    | inl a => map_reader inl (rd_copy f k a)
    | inr b => map_reader inr (rd_copy f k b) end;
  rd_close r := match r with
    | inl a => let '(e, a') := rd_close a in (e, inl a')
    | inr b => let '(e, b') := rd_close b in (e, inr b') end;
  rd_seek r n := match r with
    | inl a => inl <$> rd_seek a n
    | inr b => inr <$> rd_seek b n end
|}.

(** ** Package io *)

Section io.
Context {R : Type}.
Variable read : nat → R → nat → option (read_result R).

(** [io.Copy] without [WriteTo]: read until an error, [io.EOF] is success. *)
Fixpoint copy_loop (fuel k : nat) (r : R) : option (read_result R) :=
  match fuel with
  | O => None
  | S f =>
      match read f r k with
      | None => None
      | Some (b, Some EOF, r') => Some (b, None, r')
      | Some (b, Some e, r') => Some (b, Some e, r')
      | Some (b, None, r') =>
          match copy_loop f k r' with
          | None => None
          | Some (b', e, r'') => Some (b ++ b', e, r'')
          end
      end
  end.

(** [io.Copy(io.Discard, io.LimitReader(r, n))]: [io.Discard] polls its
    source with an 8 KiB buffer. *)
Fixpoint discard_loop (fuel : nat) (n : Z) (r : R) : option (Z * option ioerr * R) :=
  match fuel with
  | O => None
  | S f =>
      if n <=? 0 then Some (0, None, r)
      else match read f r (Z.to_nat (Z.min 8192 n)) with
      | None => None
      | Some (b, Some EOF, r') => Some (Z.of_nat (length b), None, r')
      | Some (b, Some e, r') => Some (Z.of_nat (length b), Some e, r')
      | Some (b, None, r') =>
          match discard_loop f (n - Z.of_nat (length b)) r' with
          | None => None
          | Some (w, e, r'') => Some (Z.of_nat (length b) + w, e, r'')
          end
      end
  end.

(** [io.CopyN(io.Discard, r, n)] *)
Definition copy_n (fuel : nat) (r : R) (n : Z) : option (Z * option ioerr * R) :=
  match discard_loop fuel n r with
  | None => None
  | Some (w, e, r') =>
      if w =? n then Some (w, None, r')
      else if (w <? n) && bool_decide (e = None) then Some (w, Some EOF, r')
      else Some (w, e, r')
  end.

(** [io.LimitedReader.Read] with [n] bytes left. *)
Definition limited_read (fuel : nat) (r : R) (n : Z) (k : nat) : option (read_result R * Z) :=
  if n <=? 0 then Some (([], Some EOF, r), n)
  else match read fuel r (if Z.of_nat k >? n then Z.to_nat n else k) with
  | None => None
  | Some (b, e, r') => Some ((b, e, r'), n - Z.of_nat (length b))
  end.
End io.

(** ** The stream contract

    [delivers_in n r data e]: with any positive buffer sizes, at most [n] reads
    return exactly the bytes [data] and then the error [e] (possibly with the
    last bytes); the reader can be closed at any moment.  [delivers] forgets
    the bound. *)
Section contract_def.
Context {R : Type} `{Reader R}.

Definition close_ok (r : R) : Prop := (rd_close r).1 = None.

(** [Q] is what holds of the reader after its end. *)
Fixpoint delivers_to (Q : R → Prop) (n : nat) (r : R) (data : str) (e : ioerr) : Prop :=
  match n with
  | O => False
  | S n' =>
      close_ok r ∧
      ∀ k, (0 < k)%nat → ∃ f0 b err r',
        (∀ f, (f0 <= f)%nat → rd_read f r k = Some (b, err, r')) ∧
        (length b <= k)%nat ∧ b = take (length b) data ∧
        match err with
        | None => delivers_to Q n' r' (drop (length b) data) e
        | Some e' => e' = e ∧ b = data ∧ Q r'
        end
  end.
End contract_def.

Abbreviation delivers_in := (delivers_to close_ok).

Section contract.
Context {R : Type} `{Reader R}.

Definition delivers (r : R) (data : str) (e : ioerr) : Prop := ∃ n, delivers_in n r data e.

(** A reader that goes on returning its final error when it is read again. *)
Definition at_end (e : ioerr) (r : R) : Prop := delivers r [] e.
Definition delivers_steadily (r : R) (data : str) (e : ioerr) : Prop := ∃ n, delivers_to (at_end e) n r data e.

(** [io.Copy] writes [data] and returns [err]. *)
Definition copies (r : R) (data : str) (err : option ioerr) : Prop :=
  ∀ k, (0 < k)%nat → ∃ f0 r', close_ok r' ∧
    ∀ f, (f0 <= f)%nat → rd_copy f k r = Some (data, err, r').

Lemma delivers_in_mono Q n m (r : R) data e : (n <= m)%nat → delivers_to Q n r data e → delivers_to Q m r data e.
Proof.
  revert m r data; induction n as [|n IH]; intros m r data Hle; [done|].
  destruct m as [|m]; [lia|]. intros [Hc Hd]. split; [done|]. intros k Hk.
  destruct (Hd k Hk) as (f0 & b & err & r' & Hr & Hl & Hb & He). exists f0, b, err, r'.
  repeat split; try done. destruct err; [done|]. apply IH; [lia|done].
Qed.

Lemma delivers_in_close Q n (r : R) data e : delivers_to Q n r data e → close_ok r.
Proof. destruct n; [done|]. by intros [? _]. Qed.

Lemma delivers_to_impl (Q Q' : R → Prop) n r data e :
  (∀ r', Q r' → Q' r') → delivers_to Q n r data e → delivers_to Q' n r data e.
Proof.
  intros HQ. revert r data; induction n as [|n IH]; intros r data; [done|].
  intros [Hc Hd]. split; [done|]. intros k Hk.
  destruct (Hd k Hk) as (f0 & b & err & r' & Hr & Hl & Hb & He). exists f0, b, err, r'.
  repeat split; try done. destruct err; [naive_solver|by apply IH].
Qed.

Lemma delivers_steadily_delivers (r : R) data e : delivers_steadily r data e → delivers r data e.
Proof. intros [n Hn]. exists n. eapply delivers_to_impl; [|exact Hn]. intros r' [m Hm]. by eapply delivers_in_close. Qed.

(** Polling a stream until its end. *)
Lemma copy_loop_delivers r data e k :
  (0 < k)%nat → delivers r data e → ∃ f0 r', close_ok r' ∧ ∀ f, (f0 <= f)%nat →
    copy_loop rd_read f k r = Some (data, if bool_decide (e = EOF) then None else Some e, r').
Proof.
  intros Hk [n Hn]. revert r data Hn; induction n as [|n IH]; intros r data; [done|].
  intros [_ Hd]. destruct (Hd k Hk) as (f0 & b & err & r' & Hr & Hl & Hb & He).
  destruct err as [e'|].
  - destruct He as (-> & -> & Hc). exists (S f0), r'. split; [done|]. intros [|f] Hf; [lia|].
    simpl. rewrite Hr by lia. by destruct e.
  - apply IH in He as (f1 & r'' & Hc & Hcp). exists (S (f0 + f1)), r''. split; [done|].
    intros [|f] Hf; [lia|]. simpl. rewrite Hr, Hcp by lia.
    rewrite Hb at 1. by rewrite take_drop.
Qed.

(** Skipping strictly inside the stream consumes exactly that many bytes. *)
Lemma discard_loop_delivers Q n (r : R) data e N :
  delivers_to Q n r data e → 0 <= N < Z.of_nat (length data) → ∃ f0 r',
    delivers_to Q n r' (drop (Z.to_nat N) data) e ∧
    ∀ f, (f0 <= f)%nat → discard_loop rd_read f N r = Some (N, None, r').
Proof.
  revert r data N; induction n as [|n IH]; intros r data N; [done|].
  intros Hd0 HN. pose proof Hd0 as [_ Hd].
  destruct (decide (N = 0)) as [->|Hne].
  { exists 1%nat, r. split; [done|]. intros [|f] Hf; [lia|done]. }
  destruct (Hd (Z.to_nat (Z.min 8192 N))) as (f0 & b & err & r' & Hr & Hl & Hb & He); [lia|].
  destruct err as [e'|]; [destruct He as (_ & -> & _); lia|].
  assert (Z.of_nat (length b) <= N) by lia.
  destruct (IH r' (drop (length b) data) (N - Z.of_nat (length b))) as (f1 & r'' & Hd' & Hl').
  { done. } { rewrite length_drop. lia. }
  exists (S (f0 + f1)), r''. split.
  - apply delivers_in_mono with n; [lia|]. rewrite drop_drop in Hd'.
    by replace (Z.to_nat N) with (length b + Z.to_nat (N - Z.of_nat (length b)))%nat by lia.
  - intros [|f] Hf; [lia|]. simpl. case_if; [lia|]. rewrite Hr, Hl' by lia. do 3 f_equal. lia.
Qed.

Lemma copy_n_delivers Q n (r : R) data e N :
  delivers_to Q n r data e → 0 <= N < Z.of_nat (length data) → ∃ f0 r',
    delivers_to Q n r' (drop (Z.to_nat N) data) e ∧
    ∀ f, (f0 <= f)%nat → copy_n rd_read f r N = Some (N, None, r').
Proof.
  intros Hd HN. destruct (discard_loop_delivers _ _ _ _ _ _ Hd HN) as (f0 & r' & Hd' & Hl).
  exists f0, r'. split; [done|]. intros f Hf. unfold copy_n. rewrite Hl by done.
  case_if; [done|lia].
Qed.

(** Skipping any amount of a finite stream returns. *)
Lemma copy_n_returns n r data e N :
  delivers_in n r data e → ∃ f0 w err r', close_ok r' ∧
    ∀ f, (f0 <= f)%nat → copy_n rd_read f r N = Some (w, err, r').
Proof.
  intros Hd. assert (∃ f0 w err r', close_ok r' ∧
    ∀ f, (f0 <= f)%nat → discard_loop rd_read f N r = Some (w, err, r')) as (f0 & w & err & r' & Hc & Hl).
  { revert r data N Hd; induction n as [|n IH]; intros r data N; [done|]. intros [Hc Hd].
    destruct (decide (N <= 0)) as [?|HN].
    { exists 1%nat, 0, None, r. split; [done|]. intros [|f] Hf; [lia|]. simpl. by case_if; [|lia]. }
    destruct (Hd (Z.to_nat (Z.min 8192 N))) as (f0 & b & er & r' & Hr & Hl & Hb & He); [lia|].
    destruct er as [e'|].
    - destruct He as (-> & -> & Hc'). exists (S f0), (Z.of_nat (length data)).
      destruct e; [exists None, r' | exists (Some (IoErr code)), r']; (split; [done|]);
        intros [|f] Hf; try lia; simpl; (case_if; [lia|]); by rewrite Hr by lia.
    - destruct (IH r' _ (N - Z.of_nat (length b)) He) as (f1 & w & err & r'' & Hc'' & Hl').
      exists (S (f0 + f1)), (Z.of_nat (length b) + w), err, r''. split; [done|].
      intros [|f] Hf; [lia|]. simpl. case_if; [lia|]. by rewrite Hr, Hl' by lia. }
  unfold copy_n.
  destruct (w =? N) eqn:E1; [|destruct ((w <? N) && bool_decide (err = None)) eqn:E2];
    [exists f0, w, None, r'|exists f0, w, (Some EOF), r'|exists f0, w, err, r'];
    (split; [done|]); intros f Hf; rewrite Hl by done; by rewrite E1, ?E2.
Qed.
End contract.

(** An embedding that commutes with the methods keeps the contract. *)
Lemma delivers_embed {A B} `{Reader A, Reader B} (emb : A → B) n (a : A) data e :
  (∀ f x k, rd_read f (emb x) k = map_reader emb (rd_read f x k)) →
  (∀ x, (rd_close (emb x)).1 = (rd_close x).1) →
  delivers_in n a data e → delivers_in n (emb a) data e.
Proof.
  intros Hrd Hcl. revert a data; induction n as [|n IH]; intros a data; [done|]. intros [Hc Hd].
  unfold close_ok in *. split; [by unfold close_ok; rewrite Hcl|]. intros k Hk.
  destruct (Hd k Hk) as (f0 & b & err & r' & Hr & Hl & Hb & He).
  exists f0, b, err, (emb r'). split.
  - intros f Hf. rewrite Hrd. by rewrite Hr by done.
  - repeat split; try done. destruct err; [|by apply IH].
    unfold close_ok. rewrite Hcl. naive_solver.
Qed.

Section sum.
Context {A B : Type} `{Reader A, Reader B}.

Lemma delivers_inl (a : A) data e : delivers a data e → delivers (inl a : A + B) data e.
Proof.
  intros [n Hn]. exists n. revert Hn. apply (delivers_embed inl); [done|].
  intros x. simpl. by destruct (rd_close x).
Qed.

Lemma delivers_inr (b : B) data e : delivers b data e → delivers (inr b : A + B) data e.
Proof.
  intros [n Hn]. exists n. revert Hn. apply (delivers_embed inr); [done|].
  intros x. simpl. by destruct (rd_close x).
Qed.

Lemma copies_inl (a : A) data e : copies a data e → copies (inl a : A + B) data e.
Proof.
  intros Hc k Hk. destruct (Hc k Hk) as (f0 & r' & Hcl & Hr). exists f0, (inl r'). split.
  - unfold close_ok in *. simpl. by destruct (rd_close r').
  - intros f Hf. simpl. by rewrite Hr.
Qed.

Lemma copies_inr (b : B) data e : copies b data e → copies (inr b : A + B) data e.
Proof.
  intros Hc k Hk. destruct (Hc k Hk) as (f0 & r' & Hcl & Hr). exists f0, (inr r'). split.
  - unfold close_ok in *. simpl. by destruct (rd_close r').
  - intros f Hf. simpl. by rewrite Hr.
Qed.
End sum.

#[export] Hint Resolve delivers_inl delivers_inr copies_inl copies_inr : tavern.

(** ** limit_reader.go *)

(** [l_N] is the [N] of the wrapped [io.LimitedReader], [l_n] the diagnostic
    counter. *)
Record limitedReadCloser (R : Type) := mkLimited {
  l_R : R; l_N : Z; l_max : Z; l_n : Z }.
Arguments mkLimited {R}. Arguments l_R {R}. Arguments l_N {R}.
Arguments l_max {R}. Arguments l_n {R}.

Section limit.
Context {R : Type} `{Reader R}.

Definition LimitReadCloser (r : R) (max : Z) : limitedReadCloser R := mkLimited r max max 0.

(** Reading from the inner [io.LimitedReader]. *)
Definition limited_inner (fuel : nat) (l : limitedReadCloser R) (k : nat)
    : option (read_result (limitedReadCloser R)) :=
  match limited_read rd_read fuel (l_R l) (l_N l) k with
  | None => None
  | Some ((b, e, r'), n') => Some (b, e, mkLimited r' n' (l_max l) (l_n l))
  end.

Definition count (l : limitedReadCloser R) (n : Z) : limitedReadCloser R :=
  mkLimited (l_R l) (l_N l) (l_max l) (i64 (l_n l + n)).

Definition limited_Read (fuel : nat) (l : limitedReadCloser R) (k : nat)
    : option (read_result (limitedReadCloser R)) :=
  match limited_inner fuel l k with
  | None => None
  | Some (b, e, l') => Some (b, e, count l' (Z.of_nat (length b)))
  end.

Definition limited_WriteTo (fuel k : nat) (l : limitedReadCloser R)
    : option (read_result (limitedReadCloser R)) :=
  match copy_loop limited_inner fuel k l with
  | None => None
  | Some (b, e, l') => Some (b, e, count l' (Z.of_nat (length b)))
  end.

Definition limited_Close (l : limitedReadCloser R) : option ioerr * limitedReadCloser R :=
  let '(e, r') := rd_close (l_R l) in (e, mkLimited r' (l_N l) (l_max l) (l_n l)).
End limit.

#[export] Instance Reader_limited {R} `{Reader R} : Reader (limitedReadCloser R) := {|
  rd_read := limited_Read; rd_copy := limited_WriteTo; rd_close := limited_Close;
  rd_seek _ _ := None |}.

(** ** skip_reader.go *)

Record skipReadCloser (R : Type) := mkSkip { s_R : R; s_skip : Z }.
Arguments mkSkip {R}. Arguments s_R {R}. Arguments s_skip {R}.

Section skip.
Context {R : Type} `{Reader R}.

Definition SkipReadCloser (r : R) (skip : Z) : R + skipReadCloser R :=
  match rd_seek r skip with
  | Some r' => inl r'
  | None => inr (mkSkip r skip)
  end.

Definition skip_Read (fuel : nat) (s : skipReadCloser R) (k : nat)
    : option (read_result (skipReadCloser R)) :=
  if s_skip s >? 0 then
    match copy_n rd_read fuel (s_R s) (s_skip s) with
    | None => None
    | Some (n, Some e, r') => Some ([], Some e, mkSkip r' (i64 (s_skip s - n)))
    | Some (_, None, r') => map_reader (λ r, mkSkip r 0) (rd_read fuel r' k)
    end
  else map_reader (λ r, mkSkip r (s_skip s)) (rd_read fuel (s_R s) k).

Definition skip_Close (s : skipReadCloser R) : option ioerr * skipReadCloser R :=
  let '(e, r') := rd_close (s_R s) in (e, mkSkip r' (s_skip s)).
End skip.

#[export] Instance Reader_skip {R} `{Reader R} : Reader (skipReadCloser R) := {|
  rd_read := skip_Read; rd_copy := copy_loop skip_Read; rd_close := skip_Close;
  rd_seek _ _ := None |}.

(** ** part_reader.go, closer_reader.go *)

(** The closers that [PartsReadCloser] is given: none, [NopCloser], or
    [AllCloser] over the parts themselves (the same pointers). *)
Inductive parts_closer := NilCloser | NopCloser | AllCloser.

(** [p_done] is [R[:index]], [p_rest] is [R[index:]]. *)
Record partsReader (R : Type) := mkParts {
  p_done : list R; p_rest : list R; p_closer : parts_closer }.
Arguments mkParts {R}. Arguments p_done {R}. Arguments p_rest {R}. Arguments p_closer {R}.

Section parts.
Context {R : Type} `{Reader R}.

Definition PartsReadCloser (optionalCloser : parts_closer) (readers : list R) : option (partsReader R) :=
  match readers with
  | [] => None
  | _ => Some (mkParts [] readers optionalCloser)
  end.

(** The part at [index] is finished: [index++] with its final state. *)
Definition part_done (p : partsReader R) (r : R) (rest : list R) : partsReader R :=
  mkParts (p_done p ++ [r]) rest (p_closer p).

Definition parts_Read (fuel : nat) (p : partsReader R) (k : nat)
    : option (read_result (partsReader R)) :=
  match p_rest p with
  | [] => Some ([], Some EOF, p)
  | r :: rest =>
      match rd_read fuel r k with
      | None => None
      | Some (b, None, r') => Some (b, None, mkParts (p_done p) (r' :: rest) (p_closer p))
      | Some (b, Some EOF, r') =>
          match rd_close r' with
          | (Some closeErr, r'') => Some (b, Some closeErr, part_done p r'' rest)
          | (None, r'') =>
              Some (b, match rest with [] => Some EOF | _ => None end, part_done p r'' rest)
          end
      | Some (b, Some e, r') => Some (b, Some e, mkParts (p_done p) (r' :: rest) (p_closer p))
      end
  end.

(** The loop of [WriteTo] over the remaining parts. *)
Fixpoint write_parts (fuel k : nat) (p : partsReader R) (rrs : list R)
    : option (read_result (partsReader R)) :=
  match rrs with
  | [] => Some ([], None, p)
  | r :: rest =>
      match rd_copy fuel k r with
      | None => None
      | Some (b, err, r') =>
          let '(closeErr, r'') := rd_close r' in
          let p' := part_done p r'' rest in
          match closeErr with
          | Some e => Some (b, Some e, p')
          | None =>
              match err with
              | Some e => Some (b, Some e, p')
              | None =>
                  match rest with
                  | [] => Some (b, Some EOF, p')
                  | _ =>
                      match write_parts fuel k p' rest with
                      | None => None
                      | Some (b', e, p'') => Some (b ++ b', e, p'')
                      end
                  end
              end
          end
      end
  end.

Definition parts_WriteTo (fuel k : nat) (p : partsReader R) : option (read_result (partsReader R)) :=
  write_parts fuel k p (p_rest p).

(** [AllCloser.Close]: every reader, errors discarded. *)
Definition AllCloser_Close (rs : list R) : list R := map (λ r, (rd_close r).2) rs.

(** [errors.Join] keeps the errors that occurred, in order. *)
Definition parts_Close (p : partsReader R) : list ioerr * partsReader R :=
  let errs := omap (λ r, (rd_close r).1) (p_rest p) in
  let all := p_done p ++ map (λ r, (rd_close r).2) (p_rest p) in
  let all' := match p_closer p with AllCloser => AllCloser_Close all | _ => all end in
  (errs, mkParts all' [] (p_closer p)).
End parts.

#[export] Instance Reader_parts {R} `{Reader R} : Reader (partsReader R) := {|
  rd_read := parts_Read; rd_copy := parts_WriteTo;
  rd_close p := let '(errs, p') := parts_Close p in (head errs, p');
  rd_seek _ _ := None |}.

(** ** range_reader.go *)

Record rangeReader (R : Type) := mkRangeReader {
  g_R : R; g_newStart : Z; g_newEnd : Z; g_rawStart : Z; g_rawEnd : Z; g_offset : Z }.
Arguments mkRangeReader {R}. Arguments g_R {R}. Arguments g_newStart {R}. Arguments g_newEnd {R}.
Arguments g_rawStart {R}. Arguments g_rawEnd {R}. Arguments g_offset {R}.

Section range.
Context {R : Type} `{Reader R}.

Definition RangeReader (r : R) (newStart newEnd rawStart rawEnd : Z) : rangeReader R :=
  mkRangeReader r newStart newEnd rawStart rawEnd newStart.

Definition g_set (g : rangeReader R) (r : R) (offset : Z) : rangeReader R :=
  mkRangeReader r (g_newStart g) (g_newEnd g) (g_rawStart g) (g_rawEnd g) offset.

(** The read after the leading bytes were skipped.  The returned count
    [remaining] never exceeds the bytes read; it is not positive only in a call
    after [io.EOF] was returned, where the model returns no bytes. *)
Definition range_body (fuel : nat) (g : rangeReader R) (k : nat) : option (read_result (rangeReader R)) :=
  match rd_read fuel (g_R g) k with
  | None => None
  | Some (b, err, r') =>
      let n := Z.of_nat (length b) in
      let cur := i64 (g_offset g + n) in
      if cur >? g_rawEnd g then
        let remaining := i64 (g_rawEnd g - g_offset g + 1) in
        let discardSize := Z.min (g_newEnd g) (i64 (g_newEnd g - cur + 1)) in
        let out := take (Z.to_nat remaining) b in
        if discardSize >? 0 then
          match copy_n rd_read fuel r' discardSize with
          | None => None
          | Some (skipN, _, r'') => Some (out, Some EOF, g_set g r'' (i64 (g_offset g + skipN + n)))
          end
        else Some (out, Some EOF, g_set g r' (i64 (g_offset g + n + discardSize)))
      else Some (b, err, g_set g r' cur)
  end.

Definition range_Read (fuel : nat) (g : rangeReader R) (k : nat) : option (read_result (rangeReader R)) :=
  if g_offset g <? g_rawStart g then
    match copy_n rd_read fuel (g_R g) (i64 (g_rawStart g - g_offset g)) with
    | None => None
    | Some (_, Some e, r') => Some ([], Some e, g_set g r' (g_offset g))
    | Some (skipN, None, r') => range_body fuel (g_set g r' (i64 (g_offset g + skipN))) k
    end
  else range_body fuel g k.

Definition range_Close (g : rangeReader R) : option ioerr * rangeReader R :=
  let '(e, r') := rd_close (g_R g) in (e, g_set g r' (g_offset g)).
End range.

#[export] Instance Reader_range {R} `{Reader R} : Reader (rangeReader R) := {|
  rd_read := range_Read; rd_copy := copy_loop range_Read; rd_close := range_Close;
  rd_seek _ _ := None |}.

(** ** The combinators keep the contract *)

Section limit_lemmas.
Context {R : Type} `{Reader R}.

Lemma limited_close_ok (l : limitedReadCloser R) : close_ok (l_R l) → close_ok l.
Proof. unfold close_ok. simpl. unfold limited_Close. by destruct (rd_close (l_R l)). Qed.

(** Shared by [Read] and the inner reader of [WriteTo]: one limited read. *)
Lemma limited_read_spec n (r : R) data e N k :
  delivers_in (S n) r data e → 0 <= N → (0 < k)%nat → (e = EOF ∨ N < Z.of_nat (length data)) →
  ∃ f0 b err r',
    (∀ f, (f0 <= f)%nat → limited_read rd_read f r N k = Some ((b, err, r'), N - Z.of_nat (length b))) ∧
    (length b <= k)%nat ∧ b = take (length b) (take (Z.to_nat N) data) ∧
    match err with
    | None => delivers_in n r' (drop (length b) data) e ∧ 0 < N ∧ Z.of_nat (length b) <= N
              ∧ (e = EOF ∨ N - Z.of_nat (length b) < Z.of_nat (length (drop (length b) data)))
    | Some e' => e' = EOF ∧ b = take (Z.to_nat N) data ∧ close_ok r'
    end.
Proof.
  intros [Hc Hd] HN Hk Hor. unfold limited_read. case_if.
  - exists 0%nat, [], (Some EOF), r. replace N with 0 by lia.
    repeat split; try done; simpl; lia.
  - destruct (Hd (if Z.of_nat k >? N then Z.to_nat N else k)) as (f0 & b & err & r' & Hr & Hl & Hpre & He).
    { case_if; lia. }
    assert (length b <= k)%nat as Hbk by (case_if; lia).
    assert (length b <= Z.to_nat N)%nat as HbN by (case_if; lia).
    exists f0, b, err, r'. split; [intros f Hf; by rewrite Hr by done|]. split; [done|].
    rewrite take_take, (Nat.min_l (length b)) by lia. split; [done|].
    destruct err as [e'|].
    + destruct He as (-> & -> & ?). destruct Hor as [->|]; [|lia].
      by rewrite take_ge by lia.
    + rewrite length_drop. repeat split; try done; [lia|]. destruct Hor; [by left|right].
      assert (length b <= length data)%nat; lia.
Qed.

Lemma limited_delivers_in n (l : limitedReadCloser R) data e :
  delivers_in n (l_R l) data e → 0 <= l_N l → (e = EOF ∨ l_N l < Z.of_nat (length data)) →
  delivers_in n l (take (Z.to_nat (l_N l)) data) EOF.
Proof.
  revert l data; induction n as [|n IH]; intros l data Hd HN Hor; [done|].
  split; [by apply limited_close_ok, Hd|]. intros k Hk.
  destruct (limited_read_spec _ _ _ _ _ _ Hd HN Hk Hor) as (f0 & b & err & r' & Hr & Hl & Hpre & He).
  eexists f0, b, err, _. split.
  { intros f Hf. simpl. unfold limited_Read, limited_inner. rewrite Hr by done. reflexivity. }
  repeat split; try done. destruct err as [e'|].
  - destruct He as (-> & ? & ?). repeat split; try done. by apply limited_close_ok.
  - destruct He as (He & ? & ? & ?).
    replace (drop (length b) (take (Z.to_nat (l_N l)) data))
      with (take (Z.to_nat (l_N l - Z.of_nat (length b))) (drop (length b) data))
      by (rewrite take_drop_commute; do 2 f_equal; lia).
    by apply IH; simpl; [|lia|].
Qed.

Lemma limited_copies_in n (l : limitedReadCloser R) data e k :
  delivers_in n (l_R l) data e → 0 <= l_N l → (0 < k)%nat →
  (e = EOF ∨ l_N l < Z.of_nat (length data)) →
  ∃ f0 l', close_ok l' ∧ ∀ f, (f0 <= f)%nat →
    copy_loop limited_inner f k l = Some (take (Z.to_nat (l_N l)) data, None, l').
Proof.
  intros Hd HN Hk Hor. revert l data Hd HN Hor; induction n as [|n IH]; intros l data Hd HN Hor; [done|].
  destruct (limited_read_spec _ _ _ _ _ _ Hd HN Hk Hor) as (f0 & b & err & r' & Hr & Hl & Hpre & He).
  destruct err as [e'|].
  - destruct He as (-> & -> & Hc).
    eexists (S f0), _. split; [|intros [|f] Hf; [lia|]; simpl; unfold limited_inner; by rewrite Hr by lia].
    by apply limited_close_ok.
  - destruct He as (He & ? & ? & Hor').
    destruct (IH (mkLimited r' (l_N l - Z.of_nat (length b)) (l_max l) (l_n l)) _ He)
      as (f1 & l' & Hc & Hcp); [simpl; lia|done|].
    exists (S (f0 + f1)), l'. split; [done|]. intros [|f] Hf; [lia|]. simpl.
    unfold limited_inner at 1. rewrite Hr, Hcp by lia. simpl. do 3 f_equal.
    rewrite take_drop_commute, Hpre at 1.
    replace (length b + Z.to_nat (l_N l - Z.of_nat (length b)))%nat with (Z.to_nat (l_N l)) by lia.
    by rewrite take_drop.
Qed.

(** A limit not larger than the stream gives exactly its first bytes. *)
Lemma limit_delivers (r : R) data e max :
  delivers r data e → 0 <= max → (e = EOF ∨ max < Z.of_nat (length data)) →
  delivers (LimitReadCloser r max) (take (Z.to_nat max) data) EOF.
Proof. intros [n Hn] ??. exists n. by apply (limited_delivers_in n (LimitReadCloser r max) data e). Qed.

Lemma limit_copies (r : R) data e max :
  delivers r data e → 0 <= max → (e = EOF ∨ max < Z.of_nat (length data)) →
  copies (LimitReadCloser r max) (take (Z.to_nat max) data) None.
Proof.
  intros [n Hn] ?? k Hk.
  destruct (limited_copies_in n (LimitReadCloser r max) data e k) as (f0 & l' & Hc & Hcp); try done.
  eexists f0, _. split; [|intros f Hf; simpl; unfold limited_WriteTo; by rewrite Hcp by done].
  by apply limited_close_ok; destruct l'; unfold close_ok in Hc; simpl in Hc;
    unfold limited_Close in Hc; simpl in *; unfold close_ok; destruct (rd_close _).
Qed.
End limit_lemmas.

Section skip_lemmas.
Context {R : Type} `{Reader R}.

Lemma delivers_skip_0 n (r : R) data e : delivers_in n r data e → delivers_in n (mkSkip r 0) data e.
Proof.
  apply (delivers_embed (λ r, mkSkip r 0)); [done|].
  intros x. simpl. unfold skip_Close. simpl. by destruct (rd_close x).
Qed.

(** Skipping inside the stream gives the rest of it, by [Seek] or by reading. *)
Lemma skip_delivers (r : R) data e skip :
  delivers r data e → 0 <= skip < Z.of_nat (length data) →
  (∀ r', rd_seek r skip = Some r' → delivers r' (drop (Z.to_nat skip) data) e) →
  delivers (SkipReadCloser r skip) (drop (Z.to_nat skip) data) e.
Proof.
  intros [n Hn] Hs Hseek. unfold SkipReadCloser. destruct (rd_seek r skip) as [r'|] eqn:E.
  { by apply delivers_inl, Hseek. }
  apply delivers_inr. destruct (copy_n_delivers _ _ _ _ _ _ Hn Hs) as (f0 & r' & Hd & Hcp).
  destruct (decide (skip = 0)) as [->|Hne].
  { exists n. by apply delivers_skip_0. }
  destruct n as [|n]; [done|]. exists (S n). split.
  { unfold close_ok. simpl. unfold skip_Close. apply delivers_in_close in Hn. unfold close_ok in Hn.
    simpl. by destruct (rd_close r). }
  intros k Hk. pose proof (delivers_skip_0 _ _ _ _ Hd) as [_ Hd']. simpl in Hd'.
  destruct (Hd' k Hk) as (f1 & b & err & s' & Hr & Hrest).
  exists (f0 + f1)%nat, b, err, s'. split; [|done]. intros f Hf. simpl. unfold skip_Read. simpl.
  case_if; [|lia]. rewrite Hcp by lia. rewrite <-Hr with (f := f) by lia. done.
Qed.
End skip_lemmas.

Section parts_lemmas.
Context {R : Type} `{Reader R}.

Lemma parts_close_ok (p : partsReader R) : Forall close_ok (p_rest p) → close_ok p.
Proof.
  unfold close_ok at 2. simpl. intros Hf.
  assert (omap (λ r : R, (rd_close r).1) (p_rest p) = []) as ->; [|done].
  induction Hf as [|r rs Hr Hf IH]; [done|]. simpl. unfold close_ok in Hr. by rewrite Hr.
Qed.

Lemma delivers_close (r : R) data e : delivers r data e → close_ok r.
Proof. intros [n Hn]. by eapply delivers_in_close. Qed.

(** The head part is read to its end, then the rest. *)
Lemma parts_delivers_cons n m dn (r : R) rest cl d data :
  delivers_in n r d EOF → Forall close_ok rest →
  (∀ dn', delivers_in m (mkParts dn' rest cl) data EOF) → rest ≠ [] ∨ data = [] ∧ rest = [] →
  delivers_in (n + m) (mkParts dn (r :: rest) cl) (d ++ data) EOF.
Proof.
  intros Hd Hcl Hrest Hne. revert r d Hd; induction n as [|n IH]; intros r d; [done|].
  intros Hd0. pose proof Hd0 as [Hc Hd]. split; [by apply parts_close_ok; constructor|]. intros k Hk.
  destruct (Hd k Hk) as (f0 & b & err & r' & Hr & Hl & Hpre & He).
  assert (length b <= length d)%nat as Hbd.
  { rewrite Hpre. rewrite length_take. lia. }
  destruct err as [e'|].
  - destruct He as (-> & -> & Hc'). unfold close_ok in Hc'.
    destruct (rd_close r') as [ce r''] eqn:Ecl. simpl in Hc'. subst ce.
    exists f0, d, (match rest with [] => Some EOF | _ => None end),
      (mkParts (dn ++ [r'']) rest cl). split.
    { intros f Hf. simpl. unfold parts_Read. simpl. rewrite Hr by done. by rewrite Ecl. }
    rewrite take_app_length, drop_app_length. repeat split; try done.
    destruct rest as [|r2 rest]; [|apply delivers_in_mono with m; [lia|apply Hrest]].
    destruct Hne as [?|[-> _]]; [done|]. rewrite app_nil_r.
    by repeat split.
  - exists f0, b, None, (mkParts dn (r' :: rest) cl). split.
    { intros f Hf. simpl. unfold parts_Read. simpl. by rewrite Hr by done. }
    rewrite take_app_le, drop_app_le by done. repeat split; try done. by apply IH.
Qed.

Lemma parts_delivers_rest cl (rs : list R) datas :
  Forall2 (λ r d, delivers r d EOF) rs datas →
  ∃ n, ∀ dn, delivers_in n (mkParts dn rs cl) (concat datas) EOF.
Proof.
  induction 1 as [|r d rs datas [n Hd] Hrs [m IH]].
  - exists 1%nat. intros dn. split; [by apply parts_close_ok|]. intros k Hk.
    exists 0%nat, [], (Some EOF), (mkParts dn [] cl). repeat split; simpl; lia.
  - exists (n + m)%nat. intros dn. simpl. apply parts_delivers_cons; try done.
    + eapply Forall2_Forall_l; [exact Hrs|]. apply Forall_true. intros ? x. apply delivers_close.
    + destruct Hrs; [by right|by left].
Qed.

(** The parts one after the other. *)
Lemma parts_delivers cl (rs : list R) datas p :
  Forall2 (λ r d, delivers r d EOF) rs datas → PartsReadCloser cl rs = Some p →
  delivers p (concat datas) EOF.
Proof.
  intros Hrs Hp. destruct (parts_delivers_rest cl _ _ Hrs) as [n Hn]. exists n.
  destruct rs; simplify_eq/=. apply Hn.
Qed.

(** What [WriteTo] does on the parts [suf], for all states before them. *)
Definition writes (k : nat) (suf : list R) (data : str) (err : option ioerr) : Prop :=
  ∀ p : partsReader R, ∃ f0 p', close_ok p' ∧
    ∀ f, (f0 <= f)%nat → write_parts f k p suf = Some (data, err, p').

Lemma writes_error k (r : R) rest d e :
  (0 < k)%nat → Forall close_ok rest → copies r d (Some e) → writes k (r :: rest) d (Some e).
Proof.
  intros Hk Hcl Hc p. destruct (Hc k Hk) as (f0 & r' & Hc' & Hr). unfold close_ok in Hc'.
  destruct (rd_close r') as [ce r''] eqn:E. simpl in Hc'. subst ce.
  eexists f0, _. split; [|intros f Hf; simpl; rewrite Hr, E by done; reflexivity].
  by apply parts_close_ok.
Qed.

Lemma writes_last k (r : R) d : (0 < k)%nat → copies r d None → writes k [r] d (Some EOF).
Proof.
  intros Hk Hc p. destruct (Hc k Hk) as (f0 & r' & Hc' & Hr). unfold close_ok in Hc'.
  destruct (rd_close r') as [ce r''] eqn:E. simpl in Hc'. subst ce.
  eexists f0, _. split; [|intros f Hf; simpl; rewrite Hr, E by done; reflexivity].
  by apply parts_close_ok.
Qed.

Lemma writes_app k (pre suf : list R) datas d e :
  (0 < k)%nat → Forall2 (λ r d, copies r d None) pre datas → suf ≠ [] → writes k suf d e →
  writes k (pre ++ suf) (concat datas ++ d) e.
Proof.
  intros Hk Hpre Hne Hsuf. induction Hpre as [|r d0 pre datas Hc Hpre IH]; [done|]. intros p.
  destruct (Hc k Hk) as (f0 & r' & Hc' & Hr). unfold close_ok in Hc'.
  destruct (rd_close r') as [ce r''] eqn:E. simpl in Hc'. subst ce.
  destruct (IH (part_done p r'' (pre ++ suf))) as (f1 & p' & Hcl & Hw).
  exists (f0 + f1)%nat, p'. split; [done|]. intros f Hf. simpl. rewrite Hr, E by lia.
  destruct (pre ++ suf) as [|x l] eqn:El; [by apply app_nil in El as [_ ?]|].
  rewrite Hw by lia. by rewrite app_assoc.
Qed.

Lemma parts_copies cl (rs : list R) p data e :
  (∀ k, (0 < k)%nat → writes k rs data e) → PartsReadCloser cl rs = Some p → copies p data e.
Proof.
  intros Hw Hp k Hk. destruct rs as [|r rs]; simplify_eq/=. apply (Hw k Hk).
Qed.
End parts_lemmas.

Section range_lemmas.
Context {R : Type} `{Reader R}.

Lemma range_close_ok (g : rangeReader R) : close_ok (g_R g) → close_ok g.
Proof. unfold close_ok. simpl. unfold range_Close. by destruct (rd_close (g_R g)). Qed.

(** The window as positions of the stream: the reader stands at [g_offset]. *)
Definition range_inv (g : rangeReader R) (data : str) : Prop :=
  0 <= g_offset g <= g_rawEnd g ∧ g_rawEnd g <= g_newEnd g < max_int64
  ∧ g_rawEnd g < g_offset g + Z.of_nat (length data) <= g_newEnd g + 1.

(** Either the stream is as long as announced, or the reader can be read again
    after its end. *)
Definition range_end (Q : R → Prop) (g : rangeReader R) (data : str) (e : ioerr) : Prop :=
  (∀ r, Q r → close_ok r)
  ∧ (g_offset g + Z.of_nat (length data) = g_newEnd g + 1 ∨ ∀ r, Q r → at_end e r).

Definition window (g : rangeReader R) (data : str) : str :=
  take (Z.to_nat (g_rawEnd g - g_offset g + 1)) data.

Lemma range_body_spec Q n (g : rangeReader R) data e k :
  delivers_to Q (S n) (g_R g) data e → range_inv g data → range_end Q g data e → (0 < k)%nat →
  ∃ f0 b err g',
    (∀ f, (f0 <= f)%nat → range_body f g k = Some (b, err, g')) ∧
    (length b <= k)%nat ∧ b = take (length b) (window g data) ∧
    match err with
    | Some e' => e' = EOF ∧ b = window g data ∧ close_ok g'
    | None => g' = g_set g (g_R g') (g_offset g + Z.of_nat (length b))
        ∧ delivers_to Q n (g_R g') (drop (length b) data) e
        ∧ g_offset g' <= g_rawEnd g
    end.
Proof.
  intros [Hc Hd] (Ho & He & Hlen) [HQ Hfull] Hk. unfold range_body, window.
  destruct (Hd k Hk) as (f0 & b & err & r' & Hr & Hl & Hpre & Herr).
  assert (length b <= length data)%nat by (rewrite Hpre, length_take; lia).
  unfold max_int64 in *.
  destruct (g_offset g + Z.of_nat (length b) >? g_rawEnd g) eqn:E; zbool.
  - set (d := g_newEnd g - (g_offset g + Z.of_nat (length b)) + 1).
    assert (∃ f1 g', close_ok g' ∧ ∀ f, (f1 <= f)%nat → range_body f g k =
      Some (take (Z.to_nat (g_rawEnd g - g_offset g + 1)) b, Some EOF, g')) as (f1 & g' & Hg & Hbody).
    { assert (∀ f, (f0 <= f)%nat → range_body f g k =
        let out := take (Z.to_nat (g_rawEnd g - g_offset g + 1)) b in
        if Z.min (g_newEnd g) d >? 0 then
          match copy_n rd_read f r' (Z.min (g_newEnd g) d) with
          | None => None
          | Some (skipN, _, r'') =>
              Some (out, Some EOF, g_set g r'' (i64 (g_offset g + skipN + Z.of_nat (length b))))
          end
        else Some (out, Some EOF, g_set g r' (i64 (g_offset g + Z.of_nat (length b) + Z.min (g_newEnd g) d))))
        as Hbody.
      { intros f Hf. unfold range_body. rewrite Hr by lia. cbv zeta.
        rewrite (i64_id (g_offset g + Z.of_nat (length b))), (i64_id (g_rawEnd g - _ + 1)),
          (i64_id (g_newEnd g - _ + 1)) by (unfold_ints; lia).
        fold d. case_if; [done|lia]. }
      destruct (Z.min (g_newEnd g) d >? 0) eqn:Ed; zbool.
      - assert (∃ f1 w er r'', close_ok r'' ∧ ∀ f, (f1 <= f)%nat →
          copy_n rd_read f r' (Z.min (g_newEnd g) d) = Some (w, er, r'')) as (f1 & w & er & r'' & Hc'' & Hcp).
        { destruct err as [e'|].
          - destruct Herr as (_ & -> & Hq). destruct Hfull as [?|Hend]; [lia|].
            destruct (Hend r' Hq) as [m Hm]. by eapply copy_n_returns.
          - eapply copy_n_returns, delivers_to_impl; [exact HQ|exact Herr]. }
        eexists (f0 + f1)%nat, _. split.
        2: { intros f Hf. rewrite Hbody by lia. cbv zeta. rewrite Hcp by lia. reflexivity. }
        by apply range_close_ok.
      - eexists f0, _. split; [|intros f Hf; by rewrite Hbody].
        apply range_close_ok. simpl. destruct err as [e'|]; [naive_solver|].
        by eapply delivers_in_close. }
    assert (take (Z.to_nat (g_rawEnd g - g_offset g + 1)) b =
            take (Z.to_nat (g_rawEnd g - g_offset g + 1)) data) as Hout.
    { rewrite Hpre, take_take. f_equal. lia. }
    exists f1, (take (Z.to_nat (g_rawEnd g - g_offset g + 1)) b), (Some EOF), g'.
    split; [done|]. rewrite length_take, take_take. repeat split; try done; [lia|].
    rewrite Hout. f_equal. lia.
  - assert (err = None) as -> by (destruct err; [destruct Herr as (_ & -> & _); lia|done]).
    eexists f0, b, None, (g_set g r' (g_offset g + Z.of_nat (length b))). split.
    { intros f Hf. unfold range_body. rewrite Hr by done. cbv zeta.
      rewrite (i64_id (g_offset g + _)) by (unfold_ints; lia). case_if; [lia|done]. }
    rewrite take_take, Nat.min_l by lia. by repeat split.
Qed.

Lemma range_delivers_in Q n (g : rangeReader R) data e :
  delivers_to Q n (g_R g) data e → range_inv g data → range_end Q g data e → g_rawStart g <= g_offset g →
  delivers_in n g (window g data) EOF.
Proof.
  revert g data; induction n as [|n IH]; intros g data Hd Hi Hend Hs; [done|].
  split; [by apply range_close_ok, Hd|]. intros k Hk.
  destruct (range_body_spec _ _ _ _ _ _ Hd Hi Hend Hk) as (f0 & b & err & g' & Hr & Hl & Hpre & He).
  exists f0, b, err, g'. split.
  { intros f Hf. simpl. unfold range_Read. case_if; [lia|by apply Hr]. }
  repeat split; try done. destruct err as [e'|]; [done|].
  destruct He as (-> & Hd' & Hle). simpl in *. destruct Hi as (Ho & Hi & Hlen).
  assert (length b <= length data)%nat by (rewrite Hpre; unfold window; rewrite !length_take; lia).
  replace (drop (length b) (window g data))
    with (window (g_set g (g_R g') (g_offset g + Z.of_nat (length b))) (drop (length b) data)).
  - apply IH; simpl; try done; [| |lia].
    + unfold range_inv; simpl. rewrite length_drop. lia.
    + destruct Hend as [HQ [?|?]]; split; try done; [left|by right]. simpl. rewrite length_drop. lia.
  - unfold window; simpl. rewrite take_drop_commute. do 2 f_equal. lia.
Qed.

(** From a stream that starts at position [newStart] of an object and reaches
    [rawEnd], exactly the positions [rawStart .. rawEnd]. *)
Lemma range_delivers_to Q n (r : R) data e newStart newEnd rawStart rawEnd :
  delivers_to Q n r data e → (∀ r, Q r → close_ok r) → 0 <= newStart <= rawStart → rawStart <= rawEnd →
  rawEnd <= newEnd < max_int64 → rawEnd - newStart < Z.of_nat (length data) <= newEnd - newStart + 1 →
  (Z.of_nat (length data) = newEnd - newStart + 1 ∨ ∀ r, Q r → at_end e r) →
  delivers (RangeReader r newStart newEnd rawStart rawEnd)
    (take (Z.to_nat (rawEnd - rawStart + 1)) (drop (Z.to_nat (rawStart - newStart)) data)) EOF.
Proof.
  intros Hn HQ Hs Hse He Hlen Hend. unfold RangeReader.
  destruct (decide (newStart = rawStart)) as [->|Hne].
  { exists n. rewrite Z.sub_diag, drop_0.
    apply (range_delivers_in Q n (mkRangeReader r rawStart newEnd rawStart rawEnd rawStart) data e Hn);
      [unfold range_inv; simpl; lia| |simpl; lia]. split; [done|]. simpl. destruct Hend; [left; lia|by right]. }
  destruct (copy_n_delivers Q n r data e (rawStart - newStart)) as (f0 & r' & Hd & Hcp); [done|lia|].
  set (g := mkRangeReader r' newStart newEnd rawStart rawEnd rawStart).
  assert (delivers_in n g (window g (drop (Z.to_nat (rawStart - newStart)) data)) EOF) as Hg.
  { apply (range_delivers_in Q n g _ e Hd); [| |simpl; lia].
    - unfold range_inv; simpl. rewrite length_drop. lia.
    - split; [done|]. simpl. rewrite length_drop. destruct Hend; [left; lia|by right]. }
  exists n. destruct n as [|n]; [done|]. split; [by apply range_close_ok, Hn|]. intros k Hk.
  destruct Hg as [_ Hg]. destruct (Hg k Hk) as (f1 & b & err & g' & Hr & Hrest).
  exists (f0 + f1)%nat, b, err, g'. split; [|exact Hrest].
  intros f Hf. rewrite <-(Hr f) by lia. simpl. unfold range_Read, RangeReader. simpl.
  unfold_ints. rewrite (i64_id (rawStart - newStart)) by (unfold_ints; lia).
  rewrite (proj2 (Z.ltb_lt newStart rawStart)), Z.ltb_irrefl by lia.
  rewrite Hcp by lia. f_equal. unfold g, g_set; simpl. f_equal.
  rewrite i64_id by (unfold_ints; lia). lia.
Qed.

Lemma range_delivers (r : R) data e newStart newEnd rawStart rawEnd :
  delivers r data e → 0 <= newStart <= rawStart → rawStart <= rawEnd → rawEnd <= newEnd < max_int64 →
  Z.of_nat (length data) = newEnd - newStart + 1 →
  delivers (RangeReader r newStart newEnd rawStart rawEnd)
    (take (Z.to_nat (rawEnd - rawStart + 1)) (drop (Z.to_nat (rawStart - newStart)) data)) EOF.
Proof. intros [n Hn] Hs Hse He Hlen. eapply range_delivers_to; [exact Hn|done|lia..|by left]. Qed.

(** The same when the stream ends before [newEnd]. *)
Lemma range_delivers_short (r : R) data e newStart newEnd rawStart rawEnd :
  delivers_steadily r data e → 0 <= newStart <= rawStart → rawStart <= rawEnd → rawEnd <= newEnd < max_int64 →
  rawEnd - newStart < Z.of_nat (length data) <= newEnd - newStart + 1 →
  delivers (RangeReader r newStart newEnd rawStart rawEnd)
    (take (Z.to_nat (rawEnd - rawStart + 1)) (drop (Z.to_nat (rawStart - newStart)) data)) EOF.
Proof.
  intros [n Hn] Hs Hse He Hlen. eapply range_delivers_to; [exact Hn| |lia..|by right].
  intros r' [m Hm]. by eapply delivers_in_close.
Qed.
(** A window that reaches beyond the end of the stream: what the stream has from
    [rawStart] on, with its own error. *)
Lemma range_passes_in n (g : rangeReader R) data e :
  delivers_in n (g_R g) data e → 0 <= g_offset g → g_rawStart g <= g_offset g → g_offset g + Z.of_nat (length data) <= g_rawEnd g < max_int64 →
  delivers_in n g data e.
Proof.
  revert g data; induction n as [|n IH]; intros g data Hd Ho Hs He; [done|].
  split; [by apply range_close_ok, Hd|]. intros k Hk. destruct Hd as [_ Hd].
  destruct (Hd k Hk) as (f0 & b & err & r' & Hr & Hl & Hpre & Herr).
  assert (length b <= length data)%nat by (rewrite Hpre, length_take; lia).
  exists f0, b, err, (g_set g r' (g_offset g + Z.of_nat (length b))). split.
  { intros f Hf. simpl. unfold range_Read. case_if; [lia|]. unfold range_body. rewrite Hr by done. cbv zeta.
    unfold_ints. rewrite (i64_id (g_offset g + _)) by (unfold_ints; lia). case_if; [lia|done]. }
  repeat split; try done. destruct err as [e'|].
  - destruct Herr as (-> & -> & Hc). repeat split; try done. by apply range_close_ok.
  - apply IH; simpl; try done; try lia. rewrite length_drop. lia.
Qed.

Lemma range_delivers_beyond (r : R) data e newStart newEnd rawStart rawEnd :
  delivers r data e → 0 <= newStart <= rawStart → rawStart < newStart + Z.of_nat (length data) <= rawEnd → rawEnd < max_int64 →
  delivers (RangeReader r newStart newEnd rawStart rawEnd) (drop (Z.to_nat (rawStart - newStart)) data) e.
Proof.
  intros [n Hn] Hs Hse He. unfold RangeReader. destruct (decide (newStart = rawStart)) as [->|Hne].
  { exists n. rewrite Z.sub_diag, drop_0. apply range_passes_in; simpl; try done; lia. }
  destruct (copy_n_delivers close_ok n r data e (rawStart - newStart)) as (f0 & r' & Hd & Hcp); [done|lia|].
  set (g := mkRangeReader r' newStart newEnd rawStart rawEnd rawStart).
  assert (delivers_in n g (drop (Z.to_nat (rawStart - newStart)) data) e) as Hg
    by (apply range_passes_in; simpl; rewrite ?length_drop; try done; lia).
  exists n. destruct n as [|n]; [done|]. split; [by apply range_close_ok, Hn|]. intros k Hk.
  destruct Hg as [_ Hg]. destruct (Hg k Hk) as (f1 & b & err & g' & Hr & Hrest).
  exists (f0 + f1)%nat, b, err, g'. split; [|exact Hrest].
  intros f Hf. rewrite <-(Hr f) by lia. simpl. unfold range_Read. simpl. unfold_ints. rewrite (i64_id (rawStart - newStart)) by (unfold_ints; lia).
  rewrite (proj2 (Z.ltb_lt newStart rawStart)), Z.ltb_irrefl by lia. rewrite Hcp by lia. f_equal. unfold g, g_set; simpl. f_equal.
  rewrite i64_id by (unfold_ints; lia). lia.
Qed.
End range_lemmas.

(** ** chunk_writer.go *)

(** A chunk file open for writing: its bytes so far, and whether its own
    [Close] fails. *)
Record chunk_file := mkChunkFile { w_data : str; w_close_err : option ioerr; w_open : bool }.

Section chunk_writer.
(** The callback updates a state [S] (the index) and may fail. *)
Context {S : Type}.

Record chunkWriter := mkChunkWriter {
  cw_w : chunk_file; cw_closer : S → option ioerr * S }.

Definition ChunkWriterCloser (file : chunk_file) (closer : S → option ioerr * S) : chunkWriter :=
  mkChunkWriter file closer.

Definition chunk_Write (cw : chunkWriter) (p : str) : chunkWriter :=
  let w := cw_w cw in
  mkChunkWriter (mkChunkFile (w_data w ++ p) (w_close_err w) (w_open w)) (cw_closer cw).

(** The callback runs only after the file closed without error. *)
Definition chunk_Close (cw : chunkWriter) (s : S) : option ioerr * chunk_file * S :=
  let w := cw_w cw in
  let w' := mkChunkFile (w_data w) (w_close_err w) false in
  match w_close_err w with
  | Some e => (Some e, w', s)
  | None => let '(e, s') := cw_closer cw s in (e, w', s')
  end.
End chunk_writer.

(** ** A chunk file open for reading

    The readers [storage.File] of the buckets: a byte array with a position;
    [io.EOF] comes alone, after the last byte. *)
Record memfile := mkFile { f_data : str; f_pos : nat }.

Definition file_Read (fuel : nat) (m : memfile) (k : nat) : option (read_result memfile) :=
  if decide (length (f_data m) <= f_pos m)%nat then Some ([], Some EOF, m)
  else let b := take k (drop (f_pos m) (f_data m)) in
       Some (b, None, mkFile (f_data m) (f_pos m + length b)).

Definition file_Seek (m : memfile) (n : Z) : option memfile :=
  if Z.of_nat (f_pos m) + n <? 0 then None
  else Some (mkFile (f_data m) (Z.to_nat (Z.of_nat (f_pos m) + n))).

#[export] Instance Reader_memfile : Reader memfile := {|
  rd_read := file_Read; rd_copy := copy_loop file_Read; rd_close m := (None, m);
  rd_seek := file_Seek |}.

Lemma file_delivers_to (Q : memfile → Prop) n (m : memfile) :
  (∀ m', (length (f_data m') <= f_pos m')%nat → Q m') →
  (length (f_data m) - f_pos m < n)%nat → delivers_to Q n m (drop (f_pos m) (f_data m)) EOF.
Proof.
  intros HQ. revert m; induction n as [|n IH]; intros m Hn; [lia|]. split; [done|]. intros k Hk.
  simpl. unfold file_Read. destruct (decide _) as [Hp|Hp].
  - exists 0%nat, [], (Some EOF), m. rewrite (drop_ge (f_data m)) by lia. repeat split; simpl; try lia. by apply HQ; lia.
  - set (b := take k (drop (f_pos m) (f_data m))).
    exists 0%nat, b, None, (mkFile (f_data m) (f_pos m + length b)). split; [done|].
    assert (length b = min k (length (f_data m) - f_pos m)) as Hb.
    { unfold b. by rewrite length_take, length_drop. }
    split; [lia|]. split.
    { rewrite Hb. unfold b. destruct (decide (k <= length (f_data m) - f_pos m)%nat).
      - by rewrite Nat.min_l by lia.
      - rewrite Nat.min_r by lia. rewrite !take_ge; rewrite ?length_drop; lia || done. }
    rewrite drop_drop. apply (IH (mkFile (f_data m) (f_pos m + length b))). simpl. lia.
Qed.

Lemma file_delivers_in n (m : memfile) :
  (length (f_data m) - f_pos m < n)%nat → delivers_in n m (drop (f_pos m) (f_data m)) EOF.
Proof. by apply file_delivers_to. Qed.

Lemma file_delivers_steadily d : delivers_steadily (mkFile d 0) d EOF.
Proof.
  exists (S (length d)). apply (file_delivers_to _ (S (length d)) (mkFile d 0)); [|simpl; lia].
  intros m Hm. exists 1%nat. rewrite <-(drop_ge (f_data m) (f_pos m)) by done. apply file_delivers_in. lia.
Qed.

Lemma file_delivers d : delivers (mkFile d 0) d EOF.
Proof. exists (S (length d)). apply (file_delivers_in (S (length d)) (mkFile d 0)). simpl. lia. Qed.

Lemma file_seek_delivers d n m' :
  rd_seek (mkFile d 0) n = Some m' → 0 <= n → delivers m' (drop (Z.to_nat n) d) EOF.
Proof.
  simpl. unfold file_Seek. simpl. case_if; [done|]. intros [= <-] ?.
  exists (S (length d)). apply (file_delivers_in (S (length d)) (mkFile d (Z.to_nat n))). simpl. lia.
Qed.

Lemma file_copies d : copies (mkFile d 0) d None.
Proof.
  intros k Hk. destruct (copy_loop_delivers (mkFile d 0) d EOF k Hk (file_delivers d)) as (f0 & r' & Hc & Hcp).
  by exists f0, r'.
Qed.

#[export] Hint Resolve file_delivers file_copies : tavern.

(** ** Properties *)

(** C20: [PartsReadCloser] read with any buffer sizes returns the concatenation
    of its parts, closing each one as it ends, and then [io.EOF]: a consumer
    that polls [Read] gets exactly those bytes and no error. *)
Theorem parts_read_concat {R} `{Reader R} (cl : parts_closer) (rs : list R) (datas : list str)
    (p : partsReader R) (k : nat) :
  Forall2 (λ r d, delivers r d EOF) rs datas → PartsReadCloser cl rs = Some p → (0 < k)%nat →
  ∃ f0 p', close_ok p' ∧ ∀ f, (f0 <= f)%nat →
    copy_loop parts_Read f k p = Some (concat datas, None, p').
Proof.
  intros Hrs Hp Hk.
  exact (copy_loop_delivers p (concat datas) EOF k Hk (parts_delivers cl rs datas p Hrs Hp)).
Qed.

Lemma parts_read_concat_witness :
  ∃ f0 p', close_ok p' ∧ ∀ f, (f0 <= f)%nat →
    copy_loop parts_Read f 2 (mkParts [] [mkFile (bs "abc") 0; mkFile [] 0; mkFile (bs "d") 0] NopCloser)
    = Some (bs "abcd", None, p').
Proof.
  apply (parts_read_concat NopCloser [mkFile (bs "abc") 0; mkFile [] 0; mkFile (bs "d") 0]
           [bs "abc"; []; bs "d"]); [repeat constructor; apply file_delivers|done|lia].
Defined.

(** [RangeReader] over a stream of the positions [newStart..newEnd] of an
    object returns exactly the positions [rawStart..rawEnd] and then [io.EOF],
    for every buffer size. *)
Theorem range_reader_window {R} `{Reader R} (r : R) (data : str) (e : ioerr)
    (newStart newEnd rawStart rawEnd : Z) (k : nat) :
  delivers r data e → 0 <= newStart <= rawStart → rawStart <= rawEnd → rawEnd <= newEnd < max_int64 →
  Z.of_nat (length data) = newEnd - newStart + 1 → (0 < k)%nat →
  ∃ f0 g', close_ok g' ∧ ∀ f, (f0 <= f)%nat →
    copy_loop range_Read f k (RangeReader r newStart newEnd rawStart rawEnd) =
    Some (take (Z.to_nat (rawEnd - rawStart + 1)) (drop (Z.to_nat (rawStart - newStart)) data), None, g').
Proof.
  intros Hd Hs Hse He Hlen Hk.
  exact (copy_loop_delivers _ _ EOF k Hk (range_delivers r data e _ _ _ _ Hd Hs Hse He Hlen)).
Qed.

Lemma range_reader_window_witness :
  ∃ f0 g', close_ok g' ∧ ∀ f, (f0 <= f)%nat →
    copy_loop range_Read f 3 (RangeReader (mkFile (bs "0123456789") 0) 10 19 12 16)
    = Some (bs "23456", None, g').
Proof.
  apply (range_reader_window (mkFile (bs "0123456789") 0) (bs "0123456789") EOF 10 19 12 16 3);
    unfold max_int64; try lia; [apply file_delivers|reflexivity].
Defined.

(** [WriteTo] of a [PartsReadCloser] ends with [io.EOF], and a part that is
    itself a [PartsReadCloser] therefore ends the outer [WriteTo]: [io.Copy]
    writes the parts up to and including the first nested one and drops every
    part after it, reporting only [io.EOF]. *)
Theorem nested_parts_truncated {R} `{Reader R} (cl cl' : parts_closer) (pre inner rest : list R)
    (dpre dinner : list str) (q : partsReader R) (p : partsReader (R + partsReader R)) :
  Forall2 (λ r d, copies r d None) pre dpre →
  Forall2 (λ r d, copies r d None) inner dinner → Forall close_ok rest →
  PartsReadCloser cl' inner = Some q →
  PartsReadCloser cl (map inl pre ++ inr q :: map inl rest) = Some p →
  copies p (concat dpre ++ concat dinner) (Some EOF).
Proof.
  intros Hpre Hin Hrest Hq Hp.
  assert (copies q (concat dinner) (Some EOF)) as Hcq.
  { apply (parts_copies cl' inner); [|done]. intros k Hk.
    destruct inner as [|r0 inner0] using rev_ind; [done|].
    apply Forall2_app_inv_l in Hin as (d1 & d2 & H1 & H2 & ->).
    apply Forall2_cons_inv_l in H2 as (d & d' & Hd & Hnil & ->).
    apply Forall2_nil_inv_l in Hnil as ->. rewrite concat_app. simpl. rewrite app_nil_r.
    apply writes_app; [done..|]. by apply writes_last. }
  apply (parts_copies cl _ _ _ _ ) with (2 := Hp). intros k Hk. apply writes_app; try done.
  - apply Forall2_fmap_l. eapply Forall2_impl; [exact Hpre|]. auto with tavern.
  - apply writes_error; [done| |by apply copies_inr].
    apply Forall_map. eapply Forall_impl; [exact Hrest|]. intros x. unfold close_ok. simpl.
    by destruct (rd_close x).
Qed.

Lemma nested_parts_truncated_witness :
  copies (mkParts [] [inr (mkParts [] [mkFile (bs "a") 0; mkFile (bs "b") 0] NopCloser);
                      inl (mkFile (bs "c") 0)] AllCloser : partsReader (memfile + partsReader memfile))
    (bs "ab") (Some EOF).
Proof.
  apply (nested_parts_truncated AllCloser NopCloser [] [mkFile (bs "a") 0; mkFile (bs "b") 0]
           [mkFile (bs "c") 0] [] [bs "a"; bs "b"]
           (mkParts [] [mkFile (bs "a") 0; mkFile (bs "b") 0] NopCloser)).
  - constructor.
  - repeat constructor; apply file_copies.
  - by repeat constructor.
  - reflexivity.
  - reflexivity.
Defined.
