(* ===== verification/AsyncReader.v ===== *)
(** * The asynchronous reader: pkg/iobuf/async_reader.go

    [AsyncReadCloser] fetches a response in a goroutine and copies its body into an
    [io.Pipe]; the caller reads from the other end.  The two run as one transition
    system: the goroutine calls, copies chunk by chunk and closes; a [Read] takes
    bytes of the write that is in progress, and looks at the stored error in a step
    of its own, so that the goroutine may store one in between.

    A write to the pipe returns when its bytes are taken or the reading end is
    closed, and the first error a side of the pipe is closed with stays
    ([io.Pipe]).

    Proved: in every interleaving the reads give the bytes of the body in order,
    and a read that reports an error reports the one the fetch or the body ended
    with, after every byte; the goroutine never gets stuck, and after a [Close] it
    ends on its own and closes the body. *)

From S2P Require Import Prelude GoStrings IoReader.

(** What the callback returns; [has_body] if there is a response with a body
    beside the error.  A body is the chunks [io.Copy] reads and the error after
    them. *)
Inductive fetched :=
| FetchErr (e : ioerr) (has_body : bool)
| FetchNil
| FetchBody (chunks : list str) (fin : ioerr).

Definition ErrUnexpectedEOF : ioerr := IoErr 1.
Definition ErrClosedPipe : ioerr := IoErr 2.

(** Where the goroutine is: in the callback; about to close the pipe with an error
    ([Failing]); about to read the next chunk; in a write of which [buf] is left;
    in the deferred function. *)
Inductive gphase :=
| Calling
| Failing (e : ioerr)
| Copying (rest : list str)
| Writing (buf : str) (rest : list str)
| Finishing
| Done.

(** Where the caller is: outside of [Read], or between the pipe and the stored
    error. *)
Inductive rphase := Idle | Got (b : str).

Record asyncReader := mkAsync {
  ar_g : gphase;
  ar_err : option ioerr;         (* the field err *)
  ar_werr : option ioerr;        (* the error of the writing end of the pipe *)
  ar_rclosed : bool;             (* the reading end is closed *)
  ar_r : rphase;
  ar_body_closed : bool;
  ar_out : list (str * option ioerr) }.  (* the results of [Read], in order *)

Definition AsyncReadCloser : asyncReader := mkAsync Calling None None false Idle false [].

Section async.
Variable f : fetched.

Definition has_body : bool := match f with FetchErr _ b => b | FetchNil => false | FetchBody _ _ => true end.

Definition set_g (g : gphase) (s : asyncReader) : asyncReader :=
  mkAsync g (ar_err s) (ar_werr s) (ar_rclosed s) (ar_r s) (ar_body_closed s) (ar_out s).
Definition store_err (e : ioerr) (s : asyncReader) : asyncReader :=
  mkAsync (ar_g s) (Some e) (ar_werr s) (ar_rclosed s) (ar_r s) (ar_body_closed s) (ar_out s).
(** [pw.CloseWithError]: an error that is there stays. *)
Definition CloseWithError (e : ioerr) (s : asyncReader) : asyncReader :=
  mkAsync (ar_g s) (ar_err s) (Some (default e (ar_werr s))) (ar_rclosed s) (ar_r s) (ar_body_closed s) (ar_out s).
Definition close_body (s : asyncReader) : asyncReader :=
  mkAsync (ar_g s) (ar_err s) (ar_werr s) (ar_rclosed s) (ar_r s) (has_body || ar_body_closed s) (ar_out s).
Definition set_r (r : rphase) (s : asyncReader) : asyncReader :=
  mkAsync (ar_g s) (ar_err s) (ar_werr s) (ar_rclosed s) r (ar_body_closed s) (ar_out s).
Definition returns (b : str) (e : option ioerr) (s : asyncReader) : asyncReader :=
  mkAsync (ar_g s) (ar_err s) (ar_werr s) (ar_rclosed s) Idle (ar_body_closed s) (ar_out s ++ [(b, e)]).
Definition close_reader (s : asyncReader) : asyncReader :=
  mkAsync (ar_g s) (ar_err s) (ar_werr s) true (ar_r s) (ar_body_closed s) (ar_out s).

(** A step of the goroutine; [None] when it has to wait or is at its end. *)
Definition go_step (s : asyncReader) : option asyncReader :=
  match ar_g s with
  | Calling =>
      Some match f with
      | FetchErr e _ => set_g (Failing e) (store_err e s)
      | FetchNil => set_g (Failing ErrUnexpectedEOF) s
      | FetchBody chunks _ => set_g (Copying chunks) s
      end
  | Failing e => Some (set_g Finishing (CloseWithError e s))
  | Copying [] =>
      Some match f with
      | FetchBody _ (IoErr c) => set_g (Failing (IoErr c)) (store_err (IoErr c) s)
      | _ => set_g Finishing s
      end
  | Copying (c :: rest) =>
      Some (if decide (c = []) then set_g (Copying rest) s
            else if ar_rclosed s then set_g (Failing ErrClosedPipe) (store_err ErrClosedPipe s)
            else set_g (Writing c rest) s)
  | Writing [] rest => Some (set_g (Copying rest) s)
  | Writing _ _ => if ar_rclosed s then Some (set_g (Failing ErrClosedPipe) (store_err ErrClosedPipe s)) else None
  | Finishing => Some (set_g Done (CloseWithError EOF (close_body s)))
  | Done => None
  end.

(** A step of [Read] with a buffer of [k] bytes; [None] when the pipe makes it
    wait. *)
Definition Read (k : nat) (s : asyncReader) : option asyncReader :=
  match ar_r s with
  | Got b => Some (returns b (ar_err s) s)
  | Idle =>
      if ar_rclosed s then Some (returns [] (Some ErrClosedPipe) s)
      else match ar_werr s with
      | Some e => Some (returns [] (Some e) s)
      | None =>
          match ar_g s with
          | Writing (c :: buf) rest => Some (set_r (Got (take k (c :: buf))) (set_g (Writing (drop k (c :: buf)) rest) s))
          | _ => None
          end
      end
  end.

(** [Close], between reads. *)
Definition Close (s : asyncReader) : option asyncReader :=
  match ar_r s with Idle => Some (close_reader s) | Got _ => None end.

Inductive async_step (s : asyncReader) : asyncReader → Prop :=
| step_go s' : go_step s = Some s' → async_step s s'
| step_read k s' : Read k s = Some s' → async_step s s'
| step_close s' : Close s = Some s' → async_step s s'.

(** ** What the reads give *)

(** The bytes and the error of the fetch. *)
Definition total : str := match f with FetchBody chunks _ => concat chunks | _ => [] end.
Definition final : ioerr := match f with FetchErr e _ => e | FetchNil => ErrUnexpectedEOF | FetchBody _ fin => fin end.

Definition in_read (s : asyncReader) : str := match ar_r s with Got b => b | Idle => [] end.
Definition to_come (g : gphase) : str :=
  match g with Calling => total | Copying rest => concat rest | Writing buf rest => buf ++ concat rest | _ => [] end.
Definition taken (out : list (str * option ioerr)) : str := concat out.*1.

(** An error stands behind the last byte and is the final one. *)
Definition errors_last (out : list (str * option ioerr)) : Prop :=
  ∀ a b e c, out = a ++ (b, Some e) :: c → e = final ∧ taken a ++ b = total.

Record async_inv (s : asyncReader) : Prop := {
  ai_bytes : taken (ar_out s) ++ in_read s ++ to_come (ar_g s) = total;
  ai_err : ∀ e, ar_err s = Some e → e = final ∧ to_come (ar_g s) = [];
  ai_werr : ∀ e, ar_werr s = Some e → e = final ∧ to_come (ar_g s) = [];
  ai_phase : match ar_g s with
             | Failing e => e = final
             | Finishing => ar_werr s = Some final ∨ final = EOF
             | Copying _ | Writing _ _ => (∃ cs fin, f = FetchBody cs fin) ∧ ar_err s = None ∧ ar_werr s = None
             | Calling => ar_err s = None ∧ ar_werr s = None
             | Done => True
             end;
  ai_out : errors_last (ar_out s) }.

Lemma errors_last_snoc out b (oe : option ioerr) : errors_last out → (∀ e, oe = Some e → e = final ∧ taken out ++ b = total) → errors_last (out ++ [(b, oe)]).
Proof.
  intros Ho Hn a b' e c Heq. destruct (exists_last (l := (b', Some e) :: c)) as (c' & z & Hz); [done|].
  rewrite Hz, app_assoc in Heq. apply app_inj_tail in Heq as [Heq <-]. destruct c' as [|y c']; cbn [app] in Hz.
  - injection Hz as -> Hc. subst. rewrite app_nil_r in *. by apply Hn.
  - injection Hz as <- ->. by apply (Ho a b' e c').
Qed.

Lemma taken_snoc out b (oe : option ioerr) : taken (out ++ [(b, oe)]) = taken out ++ b.
Proof. unfold taken. rewrite fmap_app, concat_app. cbn. by rewrite app_nil_r. Qed.

Lemma go_step_inv s s' : async_inv s → ar_rclosed s = false → go_step s = Some s' → async_inv s'.
Proof.
  intros [Hb He Hw Hp Ho] Hr. unfold go_step. destruct (ar_g s) as [|e|[|c rest]|[|c buf] rest| |] eqn:Eg; [| | | | |by rewrite Hr| |done].
  - destruct Hp as [H1 H2]. intros [= <-]. cbn [to_come] in Hb.
    destruct f as [e hb| |chunks fin] eqn:Ef.
    + split; cbn [set_g store_err ar_g ar_err ar_werr ar_out to_come]; [|intros x [= <-]|congruence| |exact Ho].
      all: unfold final, total in *; rewrite ?Ef in *; done.
    + split; cbn [set_g ar_g ar_err ar_werr ar_out to_come]; [|congruence|congruence| |exact Ho].
      all: unfold final, total in *; rewrite ?Ef in *; done.
    + split; cbn [set_g ar_g ar_err ar_werr ar_out to_come]; [|congruence|congruence| |exact Ho].
      * unfold total in *. rewrite Ef in *. exact Hb.
      * split; [by eauto|done].
  - intros [= <-]. split; cbn [set_g CloseWithError ar_g ar_err ar_werr ar_out]; [exact Hb|exact He| |left; f_equal|exact Ho].
    + intros x [= <-]. destruct (ar_werr s) as [w|] eqn:Ew; cbn; [by apply Hw|]. by split.
    + destruct (ar_werr s) as [w|] eqn:Ew; cbn; [by apply Hw|done].
  - destruct Hp as ((cs & fin & Hf) & H1 & H2). intros [= <-]. rewrite Hf. destruct fin as [|code].
    + split; cbn [set_g ar_g ar_err ar_werr ar_out]; [exact Hb|congruence|congruence|right; unfold final; by rewrite Hf|exact Ho].
    + split; cbn [set_g store_err ar_g ar_err ar_werr ar_out]; [exact Hb| |congruence|unfold final; by rewrite Hf|exact Ho].
      intros e [= <-]. unfold final. by rewrite Hf.
  - destruct Hp as (Hf & H1 & H2). rewrite Hr. intros [= <-]. case_decide as Ec.
    + subst c. split; cbn [set_g ar_g ar_err ar_werr ar_out]; [exact Hb|congruence|congruence|done|exact Ho].
    + split; cbn [set_g ar_g ar_err ar_werr ar_out]; [exact Hb|congruence|congruence|done|exact Ho].
  - destruct Hp as (Hf & H1 & H2). intros [= <-]. split; cbn [set_g ar_g ar_err ar_werr ar_out]; [exact Hb|congruence|congruence|done|exact Ho].
  - intros [= <-]. split; cbn [set_g CloseWithError close_body ar_g ar_err ar_werr ar_out]; [exact Hb|exact He| |done|exact Ho].
    intros x [= <-]. destruct (ar_werr s) as [w|] eqn:Ew; cbn [default from_option id]; [by apply Hw|]. destruct Hp as [?|Hfin]; [done|]. by rewrite Hfin.
Qed.

Lemma Read_inv k s s' : async_inv s → ar_rclosed s = false → Read k s = Some s' → async_inv s'.
Proof.
  intros [Hb He Hw Hp Ho] Hr. unfold Read. destruct (ar_r s) as [|b] eqn:Er; unfold in_read in Hb; rewrite Er in Hb.
  - rewrite Hr. destruct (ar_werr s) as [e|] eqn:Ew.
    + intros [= <-]. destruct (Hw e eq_refl) as [-> Hc]. split; cbn [returns ar_g ar_err ar_werr ar_out]; unfold in_read; cbn [returns ar_r ar_g].
      * rewrite taken_snoc, app_nil_r. exact Hb.
      * exact He.
      * intros x Hx. rewrite Ew in Hx. injection Hx as <-. done.
      * rewrite Ew. exact Hp.
      * apply errors_last_snoc; [done|]. intros x [= <-]. split; [done|]. rewrite Hc in Hb. cbn [app] in Hb. exact Hb.
    + destruct (ar_g s) as [| | |[|c buf] rest| |] eqn:Eg; try done. intros [= <-]. destruct Hp as (Hf & H1 & _).
      split; cbn [set_r set_g ar_g ar_err ar_werr ar_out]; unfold in_read; cbn [set_r set_g ar_r ar_g to_come]; [|congruence..|done|exact Ho].
      rewrite (app_assoc (take k (c :: buf))), take_drop. exact Hb.
  - intros [= <-]. split; cbn [returns ar_g ar_err ar_werr ar_out]; unfold in_read; cbn [returns ar_r ar_g]; [|exact He|exact Hw|exact Hp|].
    + rewrite taken_snoc, <-app_assoc. exact Hb.
    + apply errors_last_snoc; [done|]. intros e Hx. destruct (He e Hx) as [-> Hc]. split; [done|]. rewrite Hc, app_nil_r in Hb. exact Hb.
Qed.

Lemma rclosed_mono s s' : async_step s s' → ar_rclosed s' = false → ar_rclosed s = false.
Proof.
  intros [s0 Hg|k s0 Hr|s0 Hc] Hf.
  - unfold go_step in Hg. destruct (ar_g s) as [|e|[|c rest]|[|c buf] rest| |]; repeat case_match; simplify_eq; cbn in Hf |- *; congruence.
  - unfold Read in Hr. repeat case_match; simplify_eq; cbn in Hf |- *; congruence.
  - unfold Close in Hc. by destruct (ar_r s); simplify_eq.
Qed.

Lemma async_inv_step s s' : async_inv s → async_step s s' → ar_rclosed s' = false → async_inv s'.
Proof.
  intros Hi Hst Hf. pose proof (rclosed_mono s s' Hst Hf) as Hr. destruct Hst as [s0 Hg|k s0 Hread|s0 Hc].
  - by eapply go_step_inv.
  - by eapply Read_inv.
  - unfold Close in Hc. by destruct (ar_r s); simplify_eq.
Qed.

Lemma async_inv_init : async_inv AsyncReadCloser.
Proof. split; cbn; [done|done|done|done|]. intros a b e c Heq. by destruct a. Qed.

Lemma async_reachable s : rtc async_step AsyncReadCloser s → ar_rclosed s = false → async_inv s.
Proof.
  intros Hrun. refine (rtc_ind_r (R := async_step) (λ s, ar_rclosed s = false → async_inv s) AsyncReadCloser _ _ s Hrun); [intros _; apply async_inv_init|].
  intros y z _ Hst IH Hz. eapply async_inv_step; [|exact Hst|exact Hz]. apply IH. by eapply rclosed_mono.
Qed.

(** ** The end of the goroutine *)

(** Steps that are left at most. *)
Definition cost (g : gphase) : nat :=
  match g with
  | Calling => 2 * match f with FetchBody chunks _ => length chunks | _ => 0 end + 5
  | Copying rest => 2 * length rest + 4
  | Writing _ rest => 2 * length rest + 5
  | Failing _ => 2
  | Finishing => 1
  | Done => 0
  end.

Lemma go_step_cost s s' : go_step s = Some s' → (cost (ar_g s') < cost (ar_g s))%nat.
Proof.
  unfold go_step, cost. destruct (ar_g s) as [|e|[|c rest]|[|c buf] rest| |] eqn:Eg.
  all: destruct f as [| |? [|]], (ar_rclosed s); try case_decide; intros [= <-]; cbn [set_g store_err CloseWithError close_body ar_g length]; lia.
Qed.

(** The goroutine waits only for bytes to be taken. *)
Lemma go_step_waits s : go_step s = None → ar_g s = Done ∨ (ar_rclosed s = false ∧ ∃ c buf rest, ar_g s = Writing (c :: buf) rest).
Proof.
  unfold go_step. destruct (ar_g s) as [|e|[|c rest]|[|c buf] rest| |] eqn:Eg; try done; [|by left].
  destruct (ar_rclosed s); [done|]. right. split; [done|]. by eexists _, _, _.
Qed.

Lemma go_step_keeps_rclosed s s' : go_step s = Some s' → ar_rclosed s' = ar_rclosed s.
Proof. unfold go_step. intros Hs. repeat case_match; simplify_eq; done. Qed.

Lemma go_ends n s : ar_rclosed s = true → (cost (ar_g s) ≤ n)%nat → ∃ s', bsteps (λ s s', go_step s = Some s') n s s' ∧ ar_g s' = Done.
Proof.
  revert s. induction n as [|n IH]; intros s Hr Hn.
  { exists s. split; [constructor|]. by destruct (ar_g s); cbn in Hn; try lia. }
  destruct (go_step s) as [s1|] eqn:Es.
  - destruct (IH s1) as (s' & Hst & Hd); [by rewrite (go_step_keeps_rclosed s s1 Es)|pose proof (go_step_cost s s1 Es); lia|].
    exists s'. split; [|done]. by eapply bsteps_l.
  - destruct (go_step_waits s Es) as [Hd|[? _]]; [|congruence]. exists s. split; [constructor|done].
Qed.

(** The body is closed, and the pipe, exactly at the end of the goroutine. *)
Definition closing_inv (s : asyncReader) : Prop :=
  ar_body_closed s = match ar_g s with Done => has_body | _ => false end ∧ (ar_g s = Done → is_Some (ar_werr s)).

Lemma closing_step s s' : closing_inv s → async_step s s' → closing_inv s'.
Proof.
  intros [H1 H2] [s0 Hg|k s0 Hr|s0 Hc]; unfold closing_inv.
  - unfold go_step in Hg. destruct (ar_g s) as [|e|[|c rest]|[|c buf] rest| |] eqn:Eg; repeat case_match; simplify_eq; cbn; rewrite ?H1; (split; [|try done; by eauto]); try done.
    by destruct has_body.
  - unfold Read in Hr. destruct (ar_r s), (ar_rclosed s), (ar_werr s) eqn:Ew, (ar_g s) as [| | |[|? ?] ?| |] eqn:Eg; simplify_eq; cbn; rewrite ?Eg, ?Ew; split; try done; exact H1.
  - unfold Close in Hc. destruct (ar_r s); simplify_eq. exact (conj H1 H2).
Qed.

Lemma closing_reachable s : rtc async_step AsyncReadCloser s → closing_inv s.
Proof.
  intros Hrun. refine (rtc_ind_r (R := async_step) closing_inv AsyncReadCloser _ _ s Hrun); [by split|]. intros y z _ Hst IH. by eapply closing_step.
Qed.

(** C21: reading.  In every interleaving of the caller and the goroutine, as long as
    the caller has not closed the reader, the bytes the reads have returned are a
    prefix of the body; a read that reports an error reports the one the fetch or
    the body ended with ([EOF] after a whole body), and with it every byte of the
    body has been returned. *)
Theorem async_reads_exact s : rtc async_step AsyncReadCloser s → ar_rclosed s = false →
  (∃ rest, total = taken (ar_out s) ++ rest)
  ∧ ∀ a b e c, ar_out s = a ++ (b, Some e) :: c → e = final ∧ taken (ar_out s) = total ∧ taken c = [].
Proof.
  intros Hrun Hr. pose proof (async_reachable s Hrun Hr) as [Hb _ _ _ Ho]. split; [by eexists|].
  intros a b e c Heq. destruct (Ho a b e c Heq) as [-> Ht]. split; [done|].
  assert (taken (ar_out s) = total ++ taken c) as E by (rewrite Heq; unfold taken in *; rewrite fmap_app, concat_app, fmap_cons; cbn [concat fst]; by rewrite app_assoc, Ht).
  assert (taken c = []) as Hc. { rewrite E, <-app_assoc in Hb. apply (f_equal length) in Hb. rewrite !length_app in Hb. apply nil_length_inv. lia. }
  rewrite E, Hc, app_nil_r. done.
Qed.

(** C22: no goroutine is left behind.  A read that has to wait, waits for a goroutine
    that can go on; the goroutine waits only for bytes to be taken, and makes a
    bounded number of steps; once the caller has closed the reader it ends without
    it; and at its end the body is closed and every read returns. *)
Theorem async_goroutine_ends s : rtc async_step AsyncReadCloser s →
  (∀ k, Read k s = None → go_step s ≠ None)
  ∧ (go_step s = None → ar_g s = Done ∨ (ar_rclosed s = false ∧ ∀ k, Read k s ≠ None))
  ∧ (∀ s', go_step s = Some s' → (cost (ar_g s') < cost (ar_g s))%nat)
  ∧ (ar_rclosed s = true → ∃ s', bsteps (λ s s', go_step s = Some s') (cost (ar_g s)) s s' ∧ ar_g s' = Done)
  ∧ (ar_g s = Done → ar_body_closed s = has_body ∧ ∀ k, Read k s ≠ None).
Proof.
  intros Hrun. destruct (closing_reachable s Hrun) as [Hbc Hw]. split_and!.
  - intros k Hread Hgo. unfold Read in Hread. destruct (ar_r s); [|done]. destruct (go_step_waits s Hgo) as [Hd|(Hr & c & buf & rest & Hg)].
    + destruct (ar_rclosed s); [done|]. by destruct (Hw Hd) as [e He]; rewrite He in Hread.
    + rewrite Hr, Hg in Hread. by destruct (ar_werr s).
  - intros Hgo. destruct (go_step_waits s Hgo) as [Hd|(Hr & c & buf & rest & Hg)]; [by left|right]. split; [done|]. intros k. unfold Read.
    rewrite Hr, Hg. by destruct (ar_r s), (ar_werr s).
  - intros s'. apply go_step_cost.
  - intros Hr. by apply go_ends.
  - intros Hd. rewrite Hbc, Hd. split; [done|]. intros k. unfold Read. destruct (Hw Hd) as [e ->]. by destruct (ar_r s), (ar_rclosed s).
Qed.
End async.

(** ** A run *)

Definition sample_fetch : fetched := FetchBody [bs "ab"; bs "c"] EOF.

(** Two steps of the goroutine, a read of one byte. *)
Definition sample_run (s : asyncReader) : option asyncReader :=
  s ← go_step sample_fetch s; s ← go_step sample_fetch s; s ← Read 1 s; Read 1 s.

Lemma sample_reachable : ∃ s, sample_run AsyncReadCloser = Some s ∧ rtc (async_step sample_fetch) AsyncReadCloser s.
Proof.
  eexists. split; [vm_compute; reflexivity|].
  eapply rtc_l; [apply step_go; vm_compute; reflexivity|]. eapply rtc_l; [apply step_go; vm_compute; reflexivity|].
  eapply rtc_l; [apply (step_read _ _ 1); vm_compute; reflexivity|]. eapply rtc_l; [apply (step_read _ _ 1); vm_compute; reflexivity|]. apply rtc_refl.
Defined.

Lemma async_reads_exact_witness : ∃ s rest, sample_run AsyncReadCloser = Some s ∧ ar_out s = [(bs "a", None)] ∧ total sample_fetch = taken (ar_out s) ++ rest.
Proof.
  destruct sample_reachable as (s & Hs & Hrun). destruct (async_reads_exact sample_fetch s Hrun) as [(rest & Ht) _].
  - vm_compute in Hs. injection Hs as <-. reflexivity.
  - exists s, rest. split; [exact Hs|]. split; [|exact Ht]. vm_compute in Hs. injection Hs as <-. reflexivity.
Defined.

Lemma async_goroutine_ends_witness : ∃ s, sample_run AsyncReadCloser = Some s ∧ go_step sample_fetch s = None ∧ ∀ k, Read k s ≠ None.
Proof.
  destruct sample_reachable as (s & Hs & Hrun). destruct (async_goroutine_ends sample_fetch s Hrun) as (_ & Hw & _).
  exists s. split; [exact Hs|]. assert (go_step sample_fetch s = None) as Hg by (vm_compute in Hs; injection Hs as <-; reflexivity).
  split; [exact Hg|]. destruct (Hw Hg) as [Hd|[_ Hr]]; [|exact Hr]. exfalso. vm_compute in Hs. injection Hs as <-. discriminate Hd.
Defined.
