(* ===== verification/Throttle.v ===== *)
(** * Limited rates: pkg/iobuf/ratelimiter_reader.go, pkg/iobuf/ratelimiter_writer.go

    A reader and a writer that pay for every byte with a token of a limiter, and a
    copy between them.  The limiter is golang.org/x/time/rate: an interface with what
    its documentation says of [WaitN] with a context that is never cancelled, that it
    fails for more tokens than the burst and otherwise returns when they are there.

    Proved: the limited reader delivers exactly the bytes of its source, and no byte
    that is not paid for; the copy writes exactly the bytes of its source if the burst
    holds its buffer.  A write of more than one second's tokens is refused for ever. *)

From S2P Require Import Prelude IoReader.

Local Open Scope Z_scope.

Class Limiter (L : Type) := {
  lim_Burst : L → Z;
  lim_WaitN : L → Z → option ioerr * L
}.

(** What the documentation promises; [granted] counts the tokens that were given. *)
Class LimiterLaws (L : Type) `{Limiter L} (granted : L → Z) : Prop := {
  lim_burst_keeps l n : lim_Burst (lim_WaitN l n).2 = lim_Burst l;
  lim_grants l n : 0 <= n <= lim_Burst l → (lim_WaitN l n).1 = None ∧ granted (lim_WaitN l n).2 = granted l + n;
  lim_refuses l n : lim_Burst l < n → (lim_WaitN l n).1 ≠ None ∧ (lim_WaitN l n).2 = l
}.

Section reader.
Context {R L : Type} `{Reader R, Limiter L}.

Record rateLimitReader := mkRateReader { rl_R : R; rl_L : L }.

(** [rate.NewLimiter(l, l)] is [newLimiter l]. *)
Definition NewRateLimitReader (newLimiter : Z → L) (r : R) (Kbps : Z) : rateLimitReader :=
  mkRateReader r (newLimiter (i64 (Z.shiftl Kbps 10))).

(** The loop of [Read] for a buffer of [l] bytes of which [acc] is filled; a negative
    size is a slice out of range. *)
Fixpoint rate_loop (fuel l : nat) (acc : str) (r : rateLimitReader) : option (read_result rateLimitReader) :=
  match fuel with
  | O => None
  | S f =>
      let size := Z.of_nat l - Z.of_nat (length acc) in
      let size := if size >? lim_Burst (rl_L r) then lim_Burst (rl_L r) else size in
      match lim_WaitN (rl_L r) size with
      | (Some e, lim) => Some (acc, Some e, mkRateReader (rl_R r) lim)
      | (None, lim) =>
          if size <? 0 then None
          else match rd_read f (rl_R r) (Z.to_nat size) with
          | None => None
          | Some (b, err1, src) =>
              let acc := acc ++ b in
              if (length acc =? l)%nat then Some (acc, None, mkRateReader src lim)
              else match err1 with
              | Some e => Some (acc, Some e, mkRateReader src lim)
              | None => rate_loop f l acc (mkRateReader src lim)
              end
          end
      end
  end.

Definition rate_Read (fuel : nat) (r : rateLimitReader) (k : nat) : option (read_result rateLimitReader) :=
  rate_loop fuel k [] r.

Definition rate_Close (r : rateLimitReader) : option ioerr * rateLimitReader :=
  let '(e, src) := rd_close (rl_R r) in (e, mkRateReader src (rl_L r)).

#[export] Instance Reader_rate : Reader rateLimitReader := {|
  rd_read := rate_Read;
  rd_copy f k r := copy_loop rate_Read f k r;
  rd_close := rate_Close;
  rd_seek _ _ := None
|}.
End reader.
Arguments rateLimitReader R L : clear implicits.

Section writer.
Context {W L : Type} `{Limiter L}.
Variable w_Write : W → str → nat * option ioerr * W.

Record RateLimitedWriter := mkRateWriter { rw_w : W; rw_limiter : L }.

Definition NewRateLimitedWriter (newLimiter : Z → L) (w : W) (bytesPerSec : Z) : RateLimitedWriter :=
  mkRateWriter w (newLimiter bytesPerSec).

Definition rate_Write (rw : RateLimitedWriter) (p : str) : nat * option ioerr * RateLimitedWriter :=
  match lim_WaitN (rw_limiter rw) (Z.of_nat (length p)) with
  | (Some e, lim) => (0%nat, Some e, mkRateWriter (rw_w rw) lim)
  | (None, lim) => let '(n, e, w) := w_Write (rw_w rw) p in (n, e, mkRateWriter w lim)
  end.

Context {R : Type} `{Reader R}.

(** The error, the destination, the source and the limiter when it returns. *)
Fixpoint CopyWithRateLimit (fuel : nat) (dst : W) (src : R) (lim : L) : option (option ioerr * W * R * L) :=
  match fuel with
  | O => None
  | S f =>
      match rd_read f src (Z.to_nat 32768) with
      | None => None
      | Some (b, err, src') =>
          let '(stop, dst', lim') :=
            match b with
            | [] => (None, dst, lim)
            | _ => match lim_WaitN lim (Z.of_nat (length b)) with
                | (Some e, lim') => (Some e, dst, lim')
                | (None, lim') => let '(_, e, dst') := w_Write dst b in (e, dst', lim')
                end
            end in
          match stop with
          | Some e => Some (Some e, dst', src', lim')
          | None => match err with
              | Some EOF => Some (None, dst', src', lim')
              | Some e => Some (Some e, dst', src', lim')
              | None => CopyWithRateLimit f dst' src' lim'
              end
          end
      end
  end.
End writer.
Arguments RateLimitedWriter W L : clear implicits.

(** ** The limited reader delivers its source *)

Section reader_facts.
Context {R L : Type} `{Reader R, Limiter L} {granted : L → Z} `{!LimiterLaws L granted}.

(** One pass of the loop, for a read of the source that is known. *)
Lemma rate_loop_pass l acc (r : R) lim : 0 < lim_Burst lim → (length acc < l)%nat →
  ∃ k lim', (0 < k)%nat ∧ (k <= l - length acc)%nat ∧ lim_Burst lim' = lim_Burst lim ∧ granted lim' = granted lim + Z.of_nat k ∧
    ∀ f, rate_loop (S f) l acc (mkRateReader r lim) =
      match rd_read f r k with
      | None => None
      | Some (b, err1, src) =>
          if (length (acc ++ b) =? l)%nat then Some (acc ++ b, None, mkRateReader src lim')
          else match err1 with Some e => Some (acc ++ b, Some e, mkRateReader src lim') | None => rate_loop f l (acc ++ b) (mkRateReader src lim') end
      end.
Proof.
  intros Hb Hl. set (left := Z.of_nat l - Z.of_nat (length acc)).
  set (size := if left >? lim_Burst lim then lim_Burst lim else left).
  assert (0 < size ∧ size <= lim_Burst lim ∧ size <= left) as Hs by (unfold size; destruct (left >? lim_Burst lim) eqn:E; zbool; unfold left in *; lia).
  assert (0 <= size <= lim_Burst lim) as Hsz by lia. destruct (lim_grants (granted := granted) lim size Hsz) as [Hg Hgr]. pose proof (lim_burst_keeps (granted := granted) lim size) as Hk.
  destruct (lim_WaitN lim size) as [e lim'] eqn:Ew. cbn [fst snd] in Hg, Hgr, Hk. subst e.
  exists (Z.to_nat size), lim'. split; [lia|]. split; [lia|]. split; [done|]. split; [lia|].
  intros f. cbn [rate_loop rl_L rl_R]. fold left. fold size. rewrite Ew. by rewrite (proj2 (Z.ltb_ge size 0) ltac:(lia)).
Qed.

Lemma rate_loop_delivers Q n l acc (r : R) data e lim : 0 < lim_Burst lim → (length acc < l)%nat → delivers_to Q n r data e →
  ∃ f0 b err r', (∀ f, (f0 <= f)%nat → rate_loop f l acc (mkRateReader r lim) = Some (acc ++ b, err, r')) ∧
    (length (acc ++ b) <= l)%nat ∧ b = take (length b) data ∧ lim_Burst (rl_L r') = lim_Burst lim ∧
    match err with
    | None => length (acc ++ b) = l ∧ ((∃ m, delivers_to Q m (rl_R r') (drop (length b) data) e) ∨ (Q (rl_R r') ∧ drop (length b) data = []))
    | Some e' => e' = e ∧ b = data ∧ Q (rl_R r')
    end.
Proof.
  revert acc r data lim. induction n as [|n IH]; intros acc r data lim Hb Hl; [done|]. intros [Hc Hd].
  destruct (rate_loop_pass l acc r lim Hb Hl) as (k & lim' & Hk & Hkl & Hbl & _ & Hpass).
  destruct (Hd k Hk) as (f0 & b & err & r' & Hr & Hlen & Hpre & Hend).
  assert (length (acc ++ b) <= l)%nat as Hin by (rewrite length_app; lia).
  destruct (decide (length (acc ++ b) = l)) as [Hfull|Hroom].
  - exists (S f0), b, None, (mkRateReader r' lim'). split; [intros [|f] Hf; [lia|]; rewrite Hpass, Hr by lia; by rewrite Hfull, Nat.eqb_refl|].
    do 3 (split; [done|]). split; [done|]. cbn [rl_R]. destruct err as [e'|]; [|by left; exists n].
    destruct Hend as (_ & -> & HQ). right. by rewrite drop_all.
  - destruct err as [e'|].
    + destruct Hend as (-> & -> & HQ). exists (S f0), data, (Some e), (mkRateReader r' lim').
      split; [intros [|f] Hf; [lia|]; rewrite Hpass, Hr by lia; by rewrite (proj2 (Nat.eqb_neq _ _) Hroom)|]. done.
    + destruct (IH (acc ++ b) r' (drop (length b) data) lim' ltac:(lia) ltac:(lia) Hend) as (f1 & b1 & err1 & r1 & Hrun & Hl1 & Hp1 & Hb1 & H1).
      exists (S (f0 + f1)), (b ++ b1), err1, r1.
      split; [intros [|f] Hf; [lia|]; rewrite Hpass, Hr by lia; rewrite (proj2 (Nat.eqb_neq _ _) Hroom), Hrun by lia; by rewrite app_assoc|].
      rewrite app_assoc. split; [done|]. split; [|split; [congruence|]].
      * rewrite length_app. rewrite Hpre at 1. rewrite Hp1 at 1. by rewrite take_take_drop.
      * destruct err1; [|by rewrite (length_app b b1), <-drop_drop]. destruct H1 as (-> & -> & ?). split; [done|]. split; [|done]. rewrite Hpre at 1. by rewrite take_drop.
Qed.

Lemma rate_close_ok (r : R) lim : close_ok r → close_ok (mkRateReader r lim).
Proof. unfold close_ok. cbn [rd_close Reader_rate]. unfold rate_Close. cbn [rl_R]. by destruct (rd_close r). Qed.

(** What a source still has to deliver after a read that filled the buffer. *)
Definition to_deliver (r : R) (data : str) (e : ioerr) : Prop := delivers_steadily r data e ∨ (at_end e r ∧ data = []).

Lemma rate_delivers N (r : R) data e lim : (length data < N)%nat → 0 < lim_Burst lim → to_deliver r data e →
  delivers_in (2 + length data) (mkRateReader r lim) data e.
Proof.
  revert r data lim. induction N as [|N IH]; intros r data lim HN Hb Hd; [lia|].
  assert (close_ok r) as Hcl by (destruct Hd as [[n Hn]|[[n Hn] _]]; by eapply delivers_in_close).
  split; [by apply rate_close_ok|]. intros k Hk.
  destruct Hd as [[n Hn]|[[n Hn] ->]].
  - destruct (rate_loop_delivers _ n k [] r data e lim Hb ltac:(cbn; lia) Hn) as (f0 & b & err & [r' lim'] & Hrun & Hl & Hp & Hb' & He).
    exists f0, b, err, (mkRateReader r' lim'). split; [exact Hrun|]. split; [exact Hl|]. split; [done|]. cbn [rl_R rl_L app] in *. destruct err as [e'|].
    + destruct He as (-> & -> & [m Hm]). do 2 (split; [done|]). apply rate_close_ok. by eapply delivers_in_close.
    + destruct He as [Hfull He]. assert (length b <= length data)%nat by (rewrite Hp, length_take; lia).
      eapply (delivers_in_mono _ (2 + length (drop (length b) data))); [rewrite length_drop; lia|].
      apply IH; [rewrite length_drop; lia|lia|]. destruct He as [[m Hm]|[HQ Hnil]]; [left; by exists m|by right].
  - destruct (rate_loop_delivers _ n k [] r [] e lim Hb ltac:(cbn; lia) Hn) as (f0 & b & err & [r' lim'] & Hrun & Hl & Hp & Hb' & He).
    rewrite take_nil in Hp. subst b. cbn [app length] in *. destruct err as [e'|]; [|destruct He; lia]. destruct He as (-> & _ & HQ).
    exists f0, [], (Some e), (mkRateReader r' lim'). split; [exact Hrun|]. split; [cbn; lia|]. do 3 (split; [done|]). by apply rate_close_ok.
Qed.
End reader_facts.

Section throttled.
Context {R L : Type} `{Reader R, Limiter L} {granted : L → Z} `{!LimiterLaws L granted}.

(** the limited reader is its source.  Over a source that delivers some bytes and
    then goes on returning its error, and with a positive burst, the limited reader
    delivers the same bytes and the same error, whatever buffers it is read with. *)
Theorem throttled_reads_exact (r : R) data e lim : 0 < lim_Burst lim → delivers_steadily r data e → delivers (mkRateReader r lim) data e.
Proof. intros Hb Hd. exists (2 + length data)%nat. apply (rate_delivers (S (length data))); [lia|done|by left]. Qed.

(** every byte is paid for.  A read of any buffer returns no more bytes than the
    limiter has granted tokens during it. *)
Theorem throttled_reads_paid f k (r : R) lim b err r' :
  (∀ f' s k' b' e' s', rd_read f' s k' = Some (b', e', s') → (length b' <= k')%nat) → 0 < lim_Burst lim → (0 < k)%nat →
  rate_Read f (mkRateReader r lim) k = Some (b, err, r') → granted lim + Z.of_nat (length b) <= granted (rl_L r') ∧ (length b <= k)%nat.
Proof.
  intros Hrd Hb Hk. assert (∀ acc r lim, 0 < lim_Burst lim → (length acc < k)%nat → rate_loop f k acc (mkRateReader r lim) = Some (b, err, r') →
    granted lim + Z.of_nat (length b) <= granted (rl_L r') + Z.of_nat (length acc) ∧ (length b <= k)%nat) as Hloop.
  { clear r lim Hb. induction f as [|f IH]; intros acc r lim Hb Ha; [done|].
    destruct (rate_loop_pass k acc r lim Hb Ha) as (n & lim' & Hn & Hnk & Hbl & Hg & Hpass). rewrite Hpass. clear Hpass.
    destruct (rd_read f r n) as [[[b1 e1] s1]|] eqn:Er; [|done]. apply Hrd in Er.
    destruct (length (acc ++ b1) =? k)%nat eqn:Ef; [|apply Nat.eqb_neq in Ef; destruct e1 as [e1|]].
    - intros [= <- <- <-]. cbn [rl_L]. rewrite length_app. lia.
    - intros [= <- <- <-]. cbn [rl_L]. rewrite length_app in *. lia.
    - intros Hrun. apply IH in Hrun; [|lia|rewrite length_app in *; lia]. rewrite length_app in Hrun. lia. }
  intros Hrun. apply Hloop in Hrun; [|done|cbn; lia]. cbn [length] in Hrun. lia.
Qed.

(** ** The writer and the copy *)

Section copy.
Context {W : Type} (w_Write : W → str → nat * option ioerr * W) (content : W → str).
Hypothesis writes : ∀ w p, (w_Write w p).1 = (length p, None) ∧ content (w_Write w p).2 = content w ++ p.

(** a limited copy is a copy.  With a burst of at least its buffer and a writer
    that takes everything, [CopyWithRateLimit] returns, has written exactly the bytes
    of the source, has a token for each of them, and returns the error of the source
    unless that is its end. *)
Theorem throttled_copy_exact (r : R) data e w lim : 32768 <= lim_Burst lim → delivers r data e →
  ∃ f0 w' r' lim', (∀ f, (f0 <= f)%nat → CopyWithRateLimit w_Write f w r lim = Some (if bool_decide (e = EOF) then None else Some e, w', r', lim'))
    ∧ content w' = content w ++ data ∧ granted lim' = granted lim + Z.of_nat (length data).
Proof.
  intros Hb [n Hn]. revert r data w lim Hb Hn. induction n as [|n IH]; intros r data w lim Hb; [done|]. intros [_ Hd].
  destruct (Hd (Z.to_nat 32768) ltac:(lia)) as (f0 & b & err & r' & Hr & Hl & Hp & He).
  assert (∃ w' lim', match b with
      | [] => (None, w, lim)
      | _ => match lim_WaitN lim (Z.of_nat (length b)) with
          | (Some e, lim') => (Some e, w, lim')
          | (None, lim') => let '(_, e, w') := w_Write w b in (e, w', lim')
          end
      end = (None, w', lim') ∧ content w' = content w ++ b ∧ granted lim' = granted lim + Z.of_nat (length b) ∧ lim_Burst lim' = lim_Burst lim) as (w' & lim' & Hw & Hc & Hg & Hbl).
  { destruct b as [|c b]; [exists w, lim; by rewrite app_nil_r, Z.add_0_r|]. set (bb := c :: b) in *.
    assert (0 <= Z.of_nat (length bb) <= lim_Burst lim) as Hsz by lia. destruct (lim_grants (granted := granted) lim _ Hsz) as [Hok Hgr].
    pose proof (lim_burst_keeps (granted := granted) lim (Z.of_nat (length bb))) as Hk. destruct (lim_WaitN lim (Z.of_nat (length bb))) as [e1 lim'].
    cbn [fst snd] in *. subst e1. destruct (writes w bb) as [H1 H2]. destruct (w_Write w bb) as [[m e1] w']. cbn [fst snd] in *. simplify_eq. by exists w', lim'. }
  destruct err as [e'|].
  - destruct He as (-> & -> & _). exists (S f0), w', r', lim'. split; [|done]. intros [|f] Hf; [lia|]. cbn [CopyWithRateLimit]. rewrite Hr by lia. rewrite Hw. by destruct e.
  - destruct (IH r' (drop (length b) data) w' lim' ltac:(lia) He) as (f1 & w2 & r2 & lim2 & Hrun & Hc2 & Hg2). exists (S (f0 + f1)), w2, r2, lim2. split.
    + intros [|f] Hf; [lia|]. cbn [CopyWithRateLimit]. rewrite Hr by lia. rewrite Hw. apply Hrun. lia.
    + assert (length b <= length data)%nat by (rewrite Hp, length_take; lia).
      split; [|rewrite Hg2, Hg, length_drop; lia]. rewrite Hc2, Hc, <-app_assoc. f_equal. rewrite Hp at 1. apply take_drop.
Qed.

(** A write of more bytes than one second's tokens is refused, however often it is
    tried, and writes nothing; a smaller one is passed on. *)
Theorem write_over_burst_refused (w : W) lim p : let rw := mkRateWriter w lim in
  (lim_Burst lim < Z.of_nat (length p) → ∃ e, rate_Write w_Write rw p = (0%nat, Some e, rw))
  ∧ (Z.of_nat (length p) <= lim_Burst lim → ∃ rw', rate_Write w_Write rw p = (length p, None, rw') ∧ content (rw_w rw') = content w ++ p).
Proof.
  cbn. unfold rate_Write. cbn [rw_limiter rw_w]. split; intros Hp.
  - destruct (lim_refuses (granted := granted) lim _ Hp) as [Hne Hk]. destruct (lim_WaitN lim (Z.of_nat (length p))) as [[e|] lim']; [|done]. cbn in Hk. subst lim'. by exists e.
  - assert (0 <= Z.of_nat (length p) <= lim_Burst lim) as Hsz by lia. destruct (lim_grants (granted := granted) lim _ Hsz) as [Hok _].
    destruct (lim_WaitN lim (Z.of_nat (length p))) as [e1 lim']. cbn in Hok. subst e1. destruct (writes w p) as [H1 H2]. destruct (w_Write w p) as [[m e] w']. cbn [fst snd] in *. simplify_eq. by exists (mkRateWriter w' lim').
Qed.
End copy.
End throttled.

(** ** A limiter and samples *)

Record counting := mkCounting { cl_burst : Z; cl_granted : Z }.
#[export] Instance Limiter_counting : Limiter counting := {|
  lim_Burst := cl_burst;
  lim_WaitN l n := if n >? cl_burst l then (Some (IoErr 1), l) else (None, mkCounting (cl_burst l) (cl_granted l + n))
|}.
#[export] Instance LimiterLaws_counting : LimiterLaws counting cl_granted.
Proof.
  split; cbn [lim_Burst lim_WaitN Limiter_counting]; intros l n.
  - by case_if.
  - intros Hn. case_if; [lia|]. done.
  - intros Hn. case_if; [done|lia].
Qed.

Definition th_lim : counting := mkCounting 32768 0.
Definition th_small : counting := mkCounting 2 0.

Lemma throttled_reads_exact_witness : delivers (mkRateReader (mkFile (bs "hello") 0) th_small) (bs "hello") EOF.
Proof. apply (throttled_reads_exact (granted := cl_granted)); [vm_compute; reflexivity|apply file_delivers_steadily]. Defined.

Lemma throttled_reads_paid_witness : ∃ b err r', rate_Read 9 (mkRateReader (mkFile (bs "hello") 0) th_small) 4 = Some (b, err, r')
  ∧ b = bs "hell" ∧ 0 + Z.of_nat (length b) <= cl_granted (rl_L r').
Proof.
  destruct (rate_Read 9 (mkRateReader (mkFile (bs "hello") 0) th_small) 4) as [[[b err] r']|] eqn:E; [|vm_compute in E; discriminate E].
  exists b, err, r'. split; [reflexivity|]. split; [vm_compute in E; injection E as <- _ _; reflexivity|].
  apply (throttled_reads_paid (granted := cl_granted) 9 4 (mkFile (bs "hello") 0) th_small b err r'); [|vm_compute; reflexivity|lia|exact E].
  intros f' s k' b' e' s'. cbn [rd_read Reader_memfile]. unfold file_Read. destruct (decide _); intros [= <- _ _]; [cbn; lia|]. rewrite length_take. lia.
Defined.

Lemma throttled_copy_exact_witness : ∃ w' r' lim', CopyWithRateLimit (λ w p, (length p, None, w ++ p)) 9 (bs "x") (mkFile (bs "hello") 0) th_lim = Some (None, w', r', lim')
  ∧ w' = bs "xhello" ∧ cl_granted lim' = 5.
Proof.
  destruct (throttled_copy_exact (granted := cl_granted) (λ w p, (length p, None, w ++ p)) id (λ w p, conj eq_refl eq_refl) (mkFile (bs "hello") 0) (bs "hello") EOF (bs "x") th_lim)
    as (f0 & w' & r' & lim' & Hrun & Hw & Hg); [vm_compute; discriminate|apply file_delivers|].
  exists w', r', lim'. split; [|split; [exact Hw|exact Hg]].
  assert (∃ y, CopyWithRateLimit (λ w p, (length p, None, w ++ p)) 9 (bs "x") (mkFile (bs "hello") 0) th_lim = Some y ∧
    ∀ f, CopyWithRateLimit (λ w p, (length p, None, w ++ p)) (9 + f) (bs "x") (mkFile (bs "hello") 0) th_lim = Some y) as (y & Hy & Hmore)
    by (eexists; split; [reflexivity|intros f; reflexivity]).
  rewrite Hy. rewrite <-(Hmore f0). apply Hrun. lia.
Defined.
