(* ===== verification/Blocks.v ===== *)
(** * Chunk arithmetic: pkg/iobuf/blockfile.go, pkg/iobuf/ioindexes

    An object is stored as chunk files of [BlockSize] bytes; a bitmap records
    which of them are present.  This file models the bitmap as an interface
    (it is a third-party package), the functions that turn a byte range into
    chunk indices, the hit tests over the bitmap and the grouping of chunks. *)

From S2P Require Import Prelude.

(** ** The bitmap interface (github.com/kelindar/bitmap) *)

Class BitmapOps (B : Type) := {
  bm_empty : B;
  bm_set : Z → B → B;
  bm_contains : Z → B → bool;
  bm_count : B → Z;
  bm_range : B → list Z;
  bm_and : B → B → B;
  bm_andnot : B → B → B
}.

(** What the code relies on: set semantics, and [Range] visiting the indices in
    ascending order. *)
Class BitmapLaws (B : Type) `{BitmapOps B} := {
  contains_empty i : bm_contains i bm_empty = false;
  contains_set i j b : 0 <= i → 0 <= j →
    bm_contains j (bm_set i b) = (i =? j) || bm_contains j b;
  range_elem i b : i ∈ bm_range b ↔ 0 <= i ∧ bm_contains i b = true;
  range_sorted b : StronglySorted Z.lt (bm_range b);
  count_range b : bm_count b = Z.of_nat (length (bm_range b));
  contains_and i a b : 0 <= i → bm_contains i (bm_and a b) = bm_contains i a && bm_contains i b;
  contains_andnot i a b : 0 <= i →
    bm_contains i (bm_andnot a b) = bm_contains i a && negb (bm_contains i b)
}.

(** An instance: the bits of a natural number. *)
Definition bits (n : N) : list Z :=
  filter (λ i, N.testbit n (Z.to_N i) = true) (seqZ 0 (Z.of_N (N.size n))).

#[export] Instance N_bitmap : BitmapOps N := {|
  bm_empty := 0%N;
  bm_set i b := N.setbit b (Z.to_N i);
  bm_contains i b := (0 <=? i) && N.testbit b (Z.to_N i);
  bm_count b := Z.of_nat (length (bits b));
  bm_range := bits;
  bm_and := N.land;
  bm_andnot := N.ldiff |}.

#[export] Instance N_bitmap_laws : BitmapLaws N.
Proof.
  split; simpl.
  - intros i. by rewrite andb_false_r.
  - intros i j b Hi Hj. rewrite (proj2 (Z.leb_le 0 j)) by done. simpl.
    destruct (Z.eqb_spec i j) as [->|Hne].
    + by rewrite N.setbit_eq.
    + rewrite N.setbit_neq by lia. done.
  - intros i b. unfold bits. rewrite list_elem_of_filter, elem_of_seqZ, andb_true_iff, Z.leb_le.
    split; [naive_solver lia|].
    intros (Hi & _ & Hb). repeat split; try done. destruct (decide (i < Z.of_N (N.size b))); [lia|].
    exfalso. destruct (decide (b = 0%N)) as [->|Hz]; [done|].
    rewrite N.bits_above_log2 in Hb; [done|]. rewrite N.size_log2 in * by done. lia.
  - intros b. apply strongly_sorted_filter, seqZ_sorted.
  - done.
  - intros i a b Hi. rewrite (proj2 (Z.leb_le 0 i)) by done. apply N.land_spec.
  - intros i a b Hi. rewrite (proj2 (Z.leb_le 0 i)) by done. apply N.ldiff_spec.
Qed.

(** ** ioindexes.go *)

(** The loop of [Build] and of [BreakInBitmap]: the indices from [firstIndex]
    below [lastIndex]. *)
Definition index_span (firstIndex lastIndex : Z) : list Z := seqZ firstIndex (lastIndex - firstIndex).

(** Arguments are uint64; the division panics for a zero part size. *)
Definition Build (start stop partSize : Z) : option (list Z) :=
  if partSize =? 0 then None
  else
    let firstIndex := start / partSize in
    let lastIndex := u64 (stop / partSize + 1) in
    Some (map u32 (index_span firstIndex lastIndex)).

(** ** blockfile.go *)

Definition BitBlock : Z := 32768.

(** [slices.SortFunc] as insertion: a new element moves left while it compares
    less than its neighbour.  (The library's other strategies do nothing either
    when no element ever compares less, which is the case here.) *)
Fixpoint insert_left {A} (cmp : A → A → Z) (x : A) (rev_sorted : list A) : list A :=
  match rev_sorted with
  | [] => [x]
  | y :: l => if cmp x y <? 0 then y :: insert_left cmp x l else x :: rev_sorted
  end.

Definition SortFunc {A} (cmp : A → A → Z) (l : list A) : list A :=
  rev (fold_left (λ acc x, insert_left cmp x acc) l []).

Section blockfile.
Context {B : Type} `{BitmapLaws B}.

(** [i] is a uint32: it wraps after the largest index. *)
Fixpoint FullHit (fuel : nat) (i last : Z) (fs : B) : option bool :=
  match fuel with
  | O => None
  | S f =>
      if i <=? last then
        if negb (bm_contains i fs) then Some false else FullHit f (u32 (i + 1)) last fs
      else Some true
  end.

Fixpoint PartHit (fuel : nat) (i last : Z) (fs : B) : option bool :=
  match fuel with
  | O => None
  | S f =>
      if i <=? last then
        if bm_contains i fs then Some true else PartHit f (u32 (i + 1)) last fs
      else Some false
  end.

(** Enough fuel for [first <= last]: one step per index and one to stop. *)
Definition hit_fuel (first last : Z) : nat := S (Z.to_nat (last - first + 1)).

(** int64 arguments; Go's division truncates. *)
Definition BreakInBitmap (start stop partSize : Z) : option B :=
  if partSize =? 0 then None
  else
    let firstIndex := Z.quot start partSize in
    let lastIndex := i64 (Z.quot stop partSize + 1) in
    Some (fold_left (λ bm i, bm_set (u32 i) bm) (index_span firstIndex lastIndex) bm_empty).

Record Block := mkBlock { b_Match : bool; b_BlockRange : list Z }.

(** The loop of [groupBy]: [prev] is [v[i-1]], [group] the current run. *)
Fixpoint group_loop (group : list Z) (prev : Z) (v : list Z) : list (list Z) :=
  match v with
  | [] => [group]
  | x :: v' =>
      if x =? u32 (prev + 1) then group_loop (group ++ [x]) x v'
      else group :: group_loop [x] x v'
  end.

Definition groupBy (v : list Z) : list (list Z) :=
  match v with [] => [] | x :: v' => group_loop [x] x v' end.

(** The comparison of [SortFunc]: a uint32 difference, converted to [int]. *)
Definition block_cmp (a b : Block) : Z :=
  u32 (default 0 (head (b_BlockRange a)) - default 0 (head (b_BlockRange b))).

(** Returns the groups, and [want] as [AndNot] leaves it for the caller. *)
Definition BlockGroup (hitter want : B) : list Block * B :=
  let q1 := bm_and want hitter in
  let hitGroup := groupBy (bm_range q1) in
  let want' := bm_andnot want hitter in
  let missGroup := groupBy (bm_range want') in
  let result := map (mkBlock true) hitGroup ++ map (mkBlock false) missGroup in
  (SortFunc block_cmp result, want').

(** [blocks] must be non-empty; products are uint32. *)
Definition ChunkPart (blocks : list Z) (partSize : Z) : option (Z * Z) :=
  match head blocks, last blocks with
  | Some b0, Some bn => Some (u32 (b0 * partSize), u32 (bn * partSize) + partSize)
  | _, _ => None
  end.

Definition BufBlock (blocks : list Z) : option (Z * Z) := ChunkPart blocks BitBlock.
End blockfile.

(** ** Chunk indices of a byte range *)

Lemma Build_span start stop partSize :
  0 < partSize → 0 <= start <= stop → stop / partSize <= max_uint32 →
  Build start stop partSize =
    Some (seqZ (start / partSize) (stop / partSize - start / partSize + 1)).
Proof.
  intros Hp Hs Hm. unfold Build. case_if; [lia|]. unfold index_span.
  assert (0 <= start / partSize <= stop / partSize).
  { split; [apply Z.div_pos; lia|apply Z.div_le_mono; lia]. }
  rewrite u64_id by (unfold_ints; lia). f_equal.
  replace (stop / partSize + 1 - start / partSize) with (stop / partSize - start / partSize + 1) by lia.
  rewrite <-(list_fmap_id (seqZ _ _)) at 2. apply list_fmap_ext.
  intros i x Hx%list_elem_of_lookup_2. apply elem_of_seqZ in Hx. simpl.
  rewrite u32_id; [done|]. unfold_ints; lia.
Qed.

Lemma chunk_of_byte i x partSize :
  0 < partSize → x / partSize = i ↔ i * partSize <= x < (i + 1) * partSize.
Proof.
  intros Hp. split; [intros <-|intros Hx].
  - pose proof (Z.mul_div_le x partSize Hp). pose proof (Z.mul_succ_div_gt x partSize Hp). lia.
  - symmetry. apply (Z.div_unique_pos x partSize i (x - i * partSize)); lia.
Qed.

(** [Build] lists, in ascending order, exactly the chunks that hold a byte of
    the range: every byte of the range lies in a listed chunk and every listed
    chunk holds one. *)
Theorem chunk_indices_exact (start stop partSize : Z) :
  0 < partSize → 0 <= start <= stop → stop / partSize <= max_uint32 →
  ∃ l, Build start stop partSize = Some l ∧ StronglySorted Z.lt l ∧
    ∀ i, i ∈ l ↔ ∃ x, start <= x <= stop ∧ i * partSize <= x < (i + 1) * partSize.
Proof.
  intros Hp Hs Hm. eexists. split; [by apply Build_span|]. split; [apply seqZ_sorted|].
  intros i. rewrite elem_of_seqZ. split.
  - intros Hi. exists (Z.max start (i * partSize)).
    pose proof (Z.mul_div_le stop partSize Hp). pose proof (Z.mul_succ_div_gt start partSize Hp).
    nia.
  - intros (x & Hx & Hix). apply (chunk_of_byte i x partSize Hp) in Hix as <-.
    pose proof (Z.div_le_mono start x partSize Hp). pose proof (Z.div_le_mono x stop partSize Hp). lia.
Qed.

Lemma chunk_indices_exact_witness :
  ∃ l, Build 1500 3999 1000 = Some l ∧ StronglySorted Z.lt l ∧
    ∀ i, i ∈ l ↔ ∃ x, 1500 <= x <= 3999 ∧ i * 1000 <= x < (i + 1) * 1000.
Proof. apply (chunk_indices_exact 1500 3999 1000); [lia|lia|vm_compute; congruence]. Defined.

(** ** Hit tests *)

Section hits.
Context {B : Type} `{BitmapLaws B}.

Lemma FullHit_spec (fs : B) f i last :
  0 <= i → last < max_uint32 → (hit_fuel i last <= f)%nat →
  ∃ b, FullHit f i last fs = Some b ∧ (b = true ↔ ∀ j, i <= j <= last → bm_contains j fs = true).
Proof.
  unfold hit_fuel, max_uint32. revert i; induction f as [|f IH]; intros i Hi Hl Hf; [lia|].
  simpl. case_if; [|exists true; split; [done|]; split; [lia|done]].
  destruct (bm_contains i fs) eqn:E; simpl.
  - rewrite u32_id by (unfold_ints; lia).
    destruct (IH (i + 1)) as (b & -> & Hres); [lia|lia|lia|]. exists b. split; [done|]. rewrite Hres.
    split; intros Hall j Hj; [|apply Hall; lia]. destruct (decide (j = i)) as [->|]; [done|].
    apply Hall. lia.
  - exists false. split; [done|]. split; [done|]. intros Hall. rewrite Hall in E by lia. done.
Qed.

Lemma PartHit_spec (fs : B) f i last :
  0 <= i → last < max_uint32 → (hit_fuel i last <= f)%nat →
  ∃ b, PartHit f i last fs = Some b ∧ (b = true ↔ ∃ j, i <= j <= last ∧ bm_contains j fs = true).
Proof.
  unfold hit_fuel, max_uint32. revert i; induction f as [|f IH]; intros i Hi Hl Hf; [lia|].
  simpl. case_if.
  2: { exists false. split; [done|]. split; [done|]. intros (j & ? & _). lia. }
  destruct (bm_contains i fs) eqn:E; simpl.
  - exists true. split; [done|]. split; [|done]. intros _. exists i. split; [lia|done].
  - rewrite u32_id by (unfold_ints; lia).
    destruct (IH (i + 1)) as (b & -> & Hres); [lia|lia|lia|]. exists b. split; [done|]. rewrite Hres.
    split; intros (j & Hj & Hc); exists j; (split; [|done]); [lia|].
    assert (j ≠ i) by congruence. lia.
Qed.

(** The loop condition [i <= last] cannot become false at the largest index. *)
Lemma PartHit_max_diverges (fs : B) f i :
  (∀ j, bm_contains j fs = false) → in_u32 i → PartHit f i max_uint32 fs = None.
Proof.
  intros Hn. revert i; induction f as [|f IH]; intros i Hi; [done|]. simpl.
  case_if; [|unfold_ints; lia]. rewrite Hn. apply IH. apply u32_in.
Qed.
End hits.

(** both hit tests return for every range of chunk indices that ends below
    2^32-1, and mean what their names say: [FullHit] that every chunk of the
    range is present, [PartHit] that at least one is. *)
Theorem hit_tests_correct {B} `{BitmapLaws B} (fs : B) (first last : Z) (f : nat) :
  0 <= first → last < max_uint32 → (hit_fuel first last <= f)%nat →
  (∃ b, FullHit f first last fs = Some b ∧ (b = true ↔ ∀ j, first <= j <= last → bm_contains j fs = true))
  ∧ (∃ b, PartHit f first last fs = Some b ∧ (b = true ↔ ∃ j, first <= j <= last ∧ bm_contains j fs = true)).
Proof. intros. split; [by apply FullHit_spec|by apply PartHit_spec]. Qed.

Lemma hit_tests_correct_witness :
  (∃ b, FullHit 5 1 3 (14%N) = Some b ∧ (b = true ↔ ∀ j, 1 <= j <= 3 → bm_contains j (14%N) = true))
  ∧ (∃ b, PartHit 5 1 3 (14%N) = Some b ∧ (b = true ↔ ∃ j, 1 <= j <= 3 ∧ bm_contains j (14%N) = true)).
Proof. apply (hit_tests_correct 14%N 1 3 5); unfold max_uint32, hit_fuel; simpl; lia. Defined.

(** ** Grouping *)

Definition is_run (g : list Z) : Prop := ∃ a n, 0 < n ∧ g = seqZ a n.

(** A later group starts at least two indices after an earlier one ends. *)
Definition apart (g g' : list Z) : Prop := ∀ x y, x ∈ g → y ∈ g' → x + 1 < y.

Lemma group_loop_concat g prev v : concat (group_loop g prev v) = g ++ v.
Proof.
  revert g prev; induction v as [|x v IH]; intros g prev; simpl; [done|].
  case_if; simpl; rewrite IH; [by rewrite <-app_assoc|done].
Qed.

Lemma group_loop_runs a n v :
  0 <= a → 0 < n → StronglySorted Z.lt (a + n - 1 :: v) → Forall (λ x, x <= max_uint32) v →
  a + n - 1 <= max_uint32 →
  Forall is_run (group_loop (seqZ a n) (a + n - 1) v)
  ∧ StronglySorted apart (group_loop (seqZ a n) (a + n - 1) v).
Proof.
  intros Ha Hn Hs Hm Hmax. revert a n Ha Hn Hs Hmax; induction v as [|x v IH]; intros a n Ha Hn Hs Hmax; simpl.
  { split; [constructor; [by exists a, n|constructor]|by repeat constructor]. }
  apply Forall_cons in Hm as [Hx Hm]. apply StronglySorted_inv in Hs as [Hs Hlt].
  apply Forall_cons in Hlt as [Hxl Hlt]. pose proof (StronglySorted_inv Hs) as [Hs' Hxv].
  unfold max_uint32 in *. rewrite u32_id by (unfold_ints; lia).
  case_if.
  - replace (seqZ a n ++ [x]) with (seqZ a (n + 1)).
    + replace x with (a + (n + 1) - 1) by lia. apply (IH Hm); try lia. by replace (a + (n + 1) - 1) with x by lia.
    + rewrite (seqZ_app a n 1) by lia. rewrite seqZ_1. do 2 f_equal. lia.
  - destruct (IH Hm x 1) as [Hr Hsep]; [lia|lia|by replace (x + 1 - 1) with x by lia|lia|].
    replace (x + 1 - 1) with x in * by lia. rewrite seqZ_1 in *.
    split; constructor; try done; [by exists a, n|].
    apply Forall_forall. intros g Hg y z Hy%elem_of_seqZ Hz.
    assert (z ∈ concat (group_loop [x] x v)) as Hin.
    { apply list_elem_of_In, in_concat. exists g. by rewrite <-!list_elem_of_In. }
    rewrite group_loop_concat in Hin. apply elem_of_cons in Hin as [->|Hin]; [lia|].
    rewrite Forall_forall in Hxv. specialize (Hxv z Hin). lia.
Qed.

Lemma groupBy_spec v :
  StronglySorted Z.lt v → Forall (λ x, 0 <= x <= max_uint32) v →
  concat (groupBy v) = v ∧ Forall is_run (groupBy v) ∧ StronglySorted apart (groupBy v).
Proof.
  intros Hs Hb. destruct v as [|x v]; simpl; [by repeat constructor|].
  rewrite group_loop_concat. split; [done|]. apply Forall_cons in Hb as [Hx Hb].
  pose proof (group_loop_runs x 1 v) as Hg. replace (x + 1 - 1) with x in Hg by lia.
  rewrite seqZ_1 in Hg.
  apply Hg; try (done || lia). eapply Forall_impl; [exact Hb|]. simpl. lia.
Qed.

(** The comparison never says "less", so nothing moves. *)
Lemma sort_never_less {A} (cmp : A → A → Z) l : (∀ a b, 0 <= cmp a b) → SortFunc cmp l = l.
Proof.
  intros Hc. unfold SortFunc. rewrite <-(rev_involutive l) at 2. f_equal.
  rewrite <-(app_nil_r (rev l)). generalize (@nil A) as acc.
  induction l as [|x l IH]; intros acc; simpl; [done|]. rewrite IH, <-app_assoc. simpl. f_equal.
  destruct acc as [|y acc]; simpl; [done|]. specialize (Hc x y). case_if; [lia|done].
Qed.

Lemma BlockGroup_order {B} `{BitmapLaws B} (hitter want : B) :
  (BlockGroup hitter want).1 =
    map (mkBlock true) (groupBy (bm_range (bm_and want hitter)))
    ++ map (mkBlock false) (groupBy (bm_range (bm_andnot want hitter))).
Proof. apply sort_never_less. intros a b. apply u32_in. Qed.

(** [BlockGroup] splits the wanted chunks: the hit groups hold exactly the
    wanted chunks that are present and the miss groups the others, each as
    maximal runs in ascending order; but the groups come out as all hits
    followed by all misses, because the comparison passed to [SortFunc]
    subtracts unsigned numbers and is never negative. *)
Theorem block_group_split {B} `{BitmapLaws B} (hitter want : B) :
  (∀ i, bm_contains i want = true → 0 <= i <= max_uint32) →
  ∃ hits misses,
    (BlockGroup hitter want).1 = map (mkBlock true) hits ++ map (mkBlock false) misses
    ∧ Forall is_run (hits ++ misses) ∧ StronglySorted apart hits ∧ StronglySorted apart misses
    ∧ (∀ i, i ∈ concat hits ↔ bm_contains i want = true ∧ bm_contains i hitter = true)
    ∧ (∀ i, i ∈ concat misses ↔ bm_contains i want = true ∧ bm_contains i hitter = false).
Proof.
  intros Hw. exists (groupBy (bm_range (bm_and want hitter))), (groupBy (bm_range (bm_andnot want hitter))).
  split; [apply BlockGroup_order|].
  assert (∀ i, i ∈ bm_range (bm_and want hitter) ↔ bm_contains i want = true ∧ bm_contains i hitter = true) as Ha.
  { intros i. rewrite range_elem. split.
    - intros [Hi Hc]. rewrite contains_and in Hc by done. by apply andb_true_iff in Hc.
    - intros [Hi Hc]. pose proof (Hw i Hi). rewrite contains_and, Hi, Hc by lia. split; [lia|done]. }
  assert (∀ i, i ∈ bm_range (bm_andnot want hitter) ↔ bm_contains i want = true ∧ bm_contains i hitter = false) as Hn.
  { intros i. rewrite range_elem. split.
    - intros [Hi Hc]. rewrite contains_andnot in Hc by done. zbool. done.
    - intros [Hi Hc]. pose proof (Hw i Hi). rewrite contains_andnot, Hi, Hc by lia. split; [lia|done]. }
  destruct (groupBy_spec (bm_range (bm_and want hitter))) as (H1 & H2 & H3); [apply range_sorted| |].
  { apply Forall_forall. intros i Hi. apply Ha in Hi as [Hi _]. by apply Hw. }
  destruct (groupBy_spec (bm_range (bm_andnot want hitter))) as (H4 & H5 & H6); [apply range_sorted| |].
  { apply Forall_forall. intros i Hi. apply Hn in Hi as [Hi _]. by apply Hw. }
  rewrite H1, H4. split; [by apply Forall_app|done].
Qed.

(** The example of the comment above [BlockGroup]: want 0..4, present 1, 2, 4. *)
Lemma block_group_split_witness :
  (∃ hits misses,
    (BlockGroup (22%N) (31%N)).1 = map (mkBlock true) hits ++ map (mkBlock false) misses
    ∧ Forall is_run (hits ++ misses) ∧ StronglySorted apart hits ∧ StronglySorted apart misses
    ∧ (∀ i, i ∈ concat hits ↔ bm_contains i (31%N) = true ∧ bm_contains i (22%N) = true)
    ∧ (∀ i, i ∈ concat misses ↔ bm_contains i (31%N) = true ∧ bm_contains i (22%N) = false))
  ∧ (BlockGroup (22%N) (31%N)).1 =
      [mkBlock true [1; 2]; mkBlock true [4]; mkBlock false [0]; mkBlock false [3]].
Proof.
  split; [|vm_compute; reflexivity]. apply (block_group_split 22%N 31%N).
  intros i Hi. destruct (decide (0 <= i <= max_uint32)) as [|Hn]; [done|]. exfalso.
  assert (i ∈ bm_range 31%N) as Hin.
  { apply range_elem. split; [|done]. simpl in Hi. zbool. done. }
  vm_compute in Hin. unfold max_uint32 in Hn.
  repeat (apply elem_of_cons in Hin as [->|Hin]; [lia|]). by apply elem_of_nil in Hin.
Defined.
