(* ===== verification/Object.v ===== *)
(** * Objects: api/defined/v1/storage/object, and the marks and statuses of
      api/defined/v1/storage/storage.go

    Object identifiers (a path, a virtual key and the SHA-1 hash that names the
    files on disk), the metadata of a cached object, the access mark kept by the
    LRU, the cache status and the purge control.  Proved: different chunks never
    share a file name, [HasComplete] means that every chunk is present, and the
    two fields of a mark do not disturb each other (with the overflow of
    [NewMark] stated). *)

From S2P Require Import Prelude GoStrings Headers Blocks.

(** ** crypto/sha1, encoding/hex *)

Definition rotl32 (n x : Z) : Z := Z.lor (u32 (Z.shiftl x n)) (Z.shiftr x (32 - n)).

Definition be_bytes (n : nat) (x : Z) : str :=
  map (λ i, byte_of (Z.land (Z.shiftr x (8 * Z.of_nat i)) 255)) (rev (seq 0 n)).

Definition be_word (l : str) : Z := fold_left (λ acc c, acc * 256 + byte_val c) l 0.

Definition sha1_pad (m : str) : str :=
  let l := Z.of_nat (length m) in
  m ++ byte_of 128 :: repeat (byte_of 0) (Z.to_nat ((55 - l) mod 64)) ++ be_bytes 8 (u64 (8 * l)).

(** The message schedule, latest word first. *)
Fixpoint sha1_schedule (n : nat) (w : list Z) : list Z :=
  match n with
  | O => w
  | S n' =>
      let x := Z.lxor (Z.lxor (nth 2 w 0) (nth 7 w 0)) (Z.lxor (nth 13 w 0) (nth 15 w 0)) in
      sha1_schedule n' (rotl32 1 x :: w)
  end.

Definition sha1_f (t : nat) (b c d : Z) : Z * Z :=
  let not32 x := Z.lxor x max_uint32 in
  if (t <? 20)%nat then (Z.lor (Z.land b c) (Z.land (not32 b) d), 1518500249)
  else if (t <? 40)%nat then (Z.lxor b (Z.lxor c d), 1859775393)
  else if (t <? 60)%nat then (Z.lor (Z.land b c) (Z.lor (Z.land b d) (Z.land c d)), 2400959708)
  else (Z.lxor b (Z.lxor c d), 3395469782).

Definition sha1_state : Type := (Z * Z * Z * Z * Z)%type.

Fixpoint sha1_rounds (t : nat) (ws : list Z) (s : sha1_state) : sha1_state :=
  match ws with
  | [] => s
  | w :: ws' =>
      let '(a, b, c, d, e) := s in
      let '(f, k) := sha1_f t b c d in
      sha1_rounds (S t) ws' (u32 (rotl32 5 a + f + e + k + w), a, rotl32 30 b, c, d)
  end.

Definition sha1_block (s : sha1_state) (block : str) : sha1_state :=
  let words := map (λ i, be_word (take 4 (drop (4 * i) block))) (seq 0 16) in
  let '(a, b, c, d, e) := s in
  let '(a', b', c', d', e') := sha1_rounds 0 (rev (sha1_schedule 64 (rev words))) s in
  (u32 (a + a'), u32 (b + b'), u32 (c + c'), u32 (d + d'), u32 (e + e')).

(** [sha1.Sum] *)
Definition sha1_sum (m : str) : str :=
  let p := sha1_pad m in
  let blocks := map (λ i, take 64 (drop (64 * i) p)) (seq 0 (length p / 64)) in
  let '(a, b, c, d, e) :=
    fold_left sha1_block blocks (1732584193, 4023233417, 2562383102, 271733878, 3285377520) in
  be_bytes 4 a ++ be_bytes 4 b ++ be_bytes 4 c ++ be_bytes 4 d ++ be_bytes 4 e.

Definition hex_digit (d : Z) : ascii := if d <? 10 then byte_of (48 + d) else byte_of (87 + d).
(** [hex.EncodeToString], [%x] *)
Definition hex (s : str) : str :=
  flat_map (λ c, [hex_digit (byte_val c / 16); hex_digit (byte_val c mod 16)]) s.

(** ** path/filepath *)

Definition clean_step (rooted : bool) (acc : list str) (c : str) : list str :=
  if bool_decide (c = []) || bool_decide (c = bs ".") then acc
  else if bool_decide (c = bs "..") then
    match acc with
    | [] => if rooted then [] else [c]
    | x :: acc' => if bool_decide (x = bs "..") then c :: acc else acc'
    end
  else c :: acc.

(** [filepath.Clean] on Unix *)
Definition clean (p : str) : str :=
  let rooted := has_prefix (bs "/") p in
  let parts := rev (fold_left (clean_step rooted) (split_byte "/"%char p) []) in
  if rooted then "/"%char :: join (bs "/") parts
  else match parts with [] => bs "." | _ => join (bs "/") parts end.

(** [filepath.Join]: empty elements are ignored. *)
Definition path_join (elems : list str) : str :=
  match filter (λ e, e ≠ []) elems with
  | [] => []
  | es => clean (join (bs "/") es)
  end.

(** [%06d] of a non-negative number *)
Definition pad6 (n : Z) : str :=
  let d := format_int n in repeat "0"%char (6 - length d) ++ d.

(** ** id.go *)

Definition IdHashSize : Z := 20.

Record ID := mkID { id_path : str; id_ext : str; id_hash : str; id_cacheID : str }.

#[export] Instance ID_eq_dec : EqDecision ID.
Proof. solve_decision. Defined.

Definition cache_id (hash path ext : str) : str :=
  "{"%char :: hex hash ++ ":"%char :: path ++ ext ++ ["}"%char].

Definition NewVirtualID (path virtualKey : str) : ID :=
  let hash := sha1_sum (path ++ virtualKey) in
  mkID path virtualKey hash (cache_id hash path virtualKey).

Definition NewID (path : str) : ID :=
  let hash := sha1_sum path in mkID path [] hash (cache_id hash path []).

Definition ID_String (id : ID) : str := id_cacheID id.
Definition Key (id : ID) : str := id_path id ++ id_ext id.
Definition HashStr (id : ID) : str := hex (id_hash id).

(** The decoded JSON or CBOR array of strings. *)
Definition unmarshal (data : list str) : option ID :=
  match data with
  | [] | [] :: _ => None
  | [p] => Some (NewID p)
  | p :: e :: _ => Some (NewVirtualID p e)
  end.

(** The array that [MarshalJSON] and [MarshalCBOR] encode. *)
Definition marshal (id : ID) : list str := [id_path id; id_ext id].

(** [hash[0:1]/hash[2:4]/name] below [pwd] *)
Definition hash_path (pwd h name : str) : str :=
  path_join [pwd; take 1 h; take 2 (drop 2 h); name].

Definition WPath (id : ID) (pwd : str) : str :=
  let h := hex (id_hash id) in hash_path pwd h h.

Definition IDHash_WPath (hash : str) (pwd : str) : str :=
  let h := hex hash in hash_path pwd h h.

Definition WPathSlice (id : ID) (pwd : str) (sliceIndex : Z) : str :=
  let h := hex (id_hash id) in hash_path pwd h (h ++ "-"%char :: pad6 sliceIndex).

(** ** object.go *)

Definition FlagCache : Z := 0.
Definition FlagVaryIndex : Z := 1.
Definition FlagVaryCache : Z := 2.
Definition FlagChunkedCache : Z := 4.

Definition CacheFlag_String (f : Z) : str :=
  if f =? FlagCache then bs "CACHE"
  else if f =? FlagVaryIndex then bs "VARY_INDEX"
  else if f =? FlagVaryCache then bs "VARY_CACHE"
  else if f =? FlagChunkedCache then bs "CHUNKED_CACHE"
  else if f =? Z.lor FlagVaryCache FlagChunkedCache then bs "VARY_CHUNKED_CACHE"
  else bs "UNKNOWN".

Record Metadata (B : Type) := mkMetadata {
  md_Flags : Z; md_ID : ID; md_BlockSize : Z; md_Chunks : B; md_Parts : B; md_Code : Z;
  md_Size : Z; md_RespUnix : Z; md_LastRefUnix : Z; md_Refs : Z; md_ExpiresAt : Z;
  md_Headers : header; md_VirtualKey : list str }.
Arguments mkMetadata {B}. Arguments md_Flags {B}. Arguments md_ID {B}.
Arguments md_BlockSize {B}. Arguments md_Chunks {B}. Arguments md_Parts {B}.
Arguments md_Code {B}. Arguments md_Size {B}. Arguments md_RespUnix {B}.
Arguments md_LastRefUnix {B}. Arguments md_Refs {B}. Arguments md_ExpiresAt {B}.
Arguments md_Headers {B}. Arguments md_VirtualKey {B}.

Section metadata.
Context {B : Type} `{BitmapLaws B}.
Implicit Types m : Metadata B.

Definition IsVary m : bool := md_Flags m =? FlagVaryIndex.
Definition IsVaryCache m : bool := Z.land (md_Flags m) FlagVaryCache >? 0.
Definition IsChunked m : bool := Z.land (md_Flags m) FlagChunkedCache >? 0.
Definition IsVaryChunked m : bool := IsVaryCache m && IsChunked m.
Definition HasVary m : bool := negb (bool_decide (md_VirtualKey m = [])).

(** The number of chunks of an object. *)
Definition chunk_count (size bsize : Z) : Z :=
  size / bsize + (if size mod bsize =? 0 then 0 else 1).

(** [None] is the division by a zero block size. *)
Definition HasComplete m : option bool :=
  if IsVary m then Some false
  else if md_Size m <=? 0 then Some false
  else if md_BlockSize m =? 0 then None
  else Some (chunk_count (md_Size m) (md_BlockSize m) =? bm_count (md_Chunks m)).

(** A copy of every field (the maps and slices are fresh copies in Go). *)
Definition Clone m : Metadata B :=
  mkMetadata (md_Flags m) (md_ID m) (md_BlockSize m) (md_Chunks m) (md_Parts m) (md_Code m)
    (md_Size m) (md_RespUnix m) (md_LastRefUnix m) (md_Refs m) (md_ExpiresAt m)
    (md_Headers m) (md_VirtualKey m).
End metadata.

(** ** storage.go *)

Definition ClockBits : Z := 48.
Definition CounterBits : Z := 16.
Definition ClockMask : Z := Z.shiftl 1 ClockBits - 1.
Definition RefsMask : Z := Z.shiftl 1 CounterBits - 1.

(** A mark is a uint64; the arguments are int64. *)
Definition NewMark (clock refs : Z) : Z := Z.lor (u64 (Z.shiftl (u64 clock) CounterBits)) (u64 refs).
Definition SetLastAccess (m clock : Z) : Z :=
  Z.lor (Z.ldiff m (Z.shiftl ClockMask CounterBits)) (u64 (Z.shiftl (u64 clock) CounterBits)).
Definition LastAccess (m : Z) : Z := Z.shiftr m CounterBits.
Definition Refs (m : Z) : Z := Z.land m RefsMask.
Definition SetRefs (m refs : Z) : Z :=
  let refs := if refs >? RefsMask then RefsMask else refs in
  Z.lor (Z.ldiff m RefsMask) refs.

Inductive CacheStatus :=
| CacheMiss | CacheHit | CacheParentHit | CachePartHit | CacheRevalidateHit
| CacheRevalidateMiss | CachePartMiss | CacheHotHit | BYPASS.

#[export] Instance CacheStatus_eq_dec : EqDecision CacheStatus.
Proof. solve_decision. Defined.

Definition CacheStatus_String (s : CacheStatus) : str :=
  match s with
  | CacheMiss => bs "MISS" | CacheHit => bs "HIT" | CacheParentHit => bs "PARENT_HIT"
  | CachePartHit => bs "PART_HIT" | CacheRevalidateHit => bs "REVALIDATE_HIT"
  | CacheRevalidateMiss => bs "REVALIDATE_MISS" | CachePartMiss => bs "PART_MISS"
  | CacheHotHit => bs "HOT_HIT" | BYPASS => bs "BYPASS"
  end.

Record PurgeControl := mkPurge { pc_Hard : bool; pc_Dir : bool; pc_MarkExpired : bool }.

Definition PurgeControl_String (r : PurgeControl) : str :=
  bs "mode:" ++ (if pc_Dir r then bs "dir" else bs "file") ++ "@"%char ::
  (if pc_Hard r then bs "hard_del" else bs "mark_expired").

Lemma be_bytes_length n v : length (be_bytes n v) = n.
Proof. unfold be_bytes. by rewrite length_map, length_rev, length_seq. Qed.

Lemma sha1_sum_length m : length (sha1_sum m) = 20%nat.
Proof. unfold sha1_sum. destruct (fold_left _ _ _) as [[[[a b] c] d] e]. by rewrite !length_app, !be_bytes_length. Qed.

Example sha1_abc : hex (sha1_sum (bs "abc")) = bs "a9993e364706816aba3e25717850c26c9cd0d89d".
Proof. vm_compute. reflexivity. Qed.

Example wpath_slice_example :
  WPathSlice (mkID [] [] (sha1_sum (bs "abc")) []) (bs "/data/cache/") 7
  = bs "/data/cache/a/99/a9993e364706816aba3e25717850c26c9cd0d89d-000007".
Proof. vm_compute. reflexivity. Qed.

(** ** Marks *)

Ltac mark_consts :=
  change RefsMask with 65535 in *; change ClockMask with (Z.ones 48) in *;
  change CounterBits with 16 in *; change (2 ^ ClockBits) with 281474976710656 in *;
  change (2 ^ 16) with 65536 in *.

Lemma NewMark_value c r : 0 <= c < 2 ^ ClockBits → 0 <= r <= RefsMask → NewMark c r = c * 65536 + r.
Proof.
  unfold NewMark. mark_consts. intros Hc Hr.
  rewrite (u64_id c), (u64_id r) by (unfold_ints; lia).
  rewrite u64_id by (rewrite Z.shiftl_mul_pow2 by done; mark_consts; unfold_ints; lia).
  by rewrite lor_shift_add by (mark_consts; lia).
Qed.

Lemma mark_LastAccess c r : 0 <= r <= RefsMask → LastAccess (c * 65536 + r) = c.
Proof.
  unfold LastAccess. mark_consts. intros Hr.
  rewrite Z.shiftr_div_pow2 by done. symmetry. apply (Z.div_unique_pos _ _ c r); mark_consts; lia.
Qed.

Lemma mark_Refs c r : 0 <= r <= RefsMask → Refs (c * 65536 + r) = r.
Proof.
  unfold Refs. mark_consts. intros Hr.
  change 65535 with (Z.ones 16). rewrite Z.land_ones by done. symmetry.
  apply (Z.mod_unique_pos _ _ c r); mark_consts; lia.
Qed.

Lemma mark_SetRefs c r r' : 0 <= r <= RefsMask → 0 <= r' →
  SetRefs (c * 65536 + r) r' = c * 65536 + Z.min r' RefsMask.
Proof.
  intros Hr Hr'. unfold SetRefs. cbv zeta.
  assert (Z.ldiff (c * 65536 + r) RefsMask = Z.shiftl c 16) as ->.
  { change RefsMask with (Z.ones 16). rewrite Z.ldiff_ones_r by done. f_equal. by apply mark_LastAccess. }
  mark_consts. case_if; rewrite lor_shift_add by (mark_consts; lia); mark_consts; lia.
Qed.

Lemma mark_SetLastAccess c r c' : 0 <= c < 2 ^ ClockBits → 0 <= r <= RefsMask → 0 <= c' < 2 ^ ClockBits →
  SetLastAccess (c * 65536 + r) c' = c' * 65536 + r.
Proof.
  intros Hc Hr Hc'. unfold SetLastAccess. mark_consts.
  assert (Z.ldiff (c * 65536 + r) (Z.shiftl (Z.ones 48) 16) = r) as ->.
  { apply Z.bits_inj'. intros i Hi. rewrite Z.ldiff_spec, Z.shiftl_spec by done.
    assert (∀ z k, 0 <= z < 2 ^ k → k <= i → 0 <= k → Z.testbit z i = false) as Hhigh.
    { intros z k Hz Hk Hk0. rewrite <-(Z.mod_small z (2 ^ k)) by done. apply Z.mod_pow2_bits_high. lia. }
    destruct (decide (i < 16)) as [?|?].
    - rewrite (Z.testbit_neg_r _ (i - 16)), andb_true_r by lia.
      rewrite <-(Z.mod_pow2_bits_low (c * 65536 + r) 16 i) by lia. f_equal. symmetry.
      apply (Z.mod_unique_pos _ _ c r); mark_consts; lia.
    - rewrite (Hhigh r 16) by (mark_consts; lia). destruct (decide (i < 64)).
      + by rewrite Z.ones_spec_low, andb_false_r by lia.
      + rewrite (Hhigh _ 64); [done| |lia..]. change (2 ^ 64) with 18446744073709551616. lia. }
  rewrite Z.lor_comm, (u64_id c') by (unfold_ints; lia).
  rewrite u64_id by (rewrite Z.shiftl_mul_pow2 by done; mark_consts; unfold_ints; lia).
  by rewrite lor_shift_add by (mark_consts; lia).
Qed.

(** the access mark packs a 48-bit clock and a 16-bit counter: each field is
    read back, writing one leaves the other alone, and the counter saturates. *)
Theorem mark_fields_independent (c r c' r' : Z) :
  0 <= c < 2 ^ ClockBits → 0 <= r <= RefsMask → 0 <= c' < 2 ^ ClockBits → 0 <= r' →
  let m := NewMark c r in
  LastAccess m = c ∧ Refs m = r
  ∧ LastAccess (SetRefs m r') = c ∧ Refs (SetRefs m r') = Z.min r' RefsMask
  ∧ LastAccess (SetLastAccess m c') = c' ∧ Refs (SetLastAccess m c') = r.
Proof.
  intros Hc Hr Hc' Hr' m. unfold m. rewrite NewMark_value by done.
  rewrite mark_SetRefs, mark_SetLastAccess by done.
  assert (0 <= Z.min r' RefsMask <= RefsMask) by (mark_consts; lia).
  by rewrite !mark_LastAccess, !mark_Refs.
Qed.

Lemma mark_fields_independent_witness :
  let m := NewMark 1700000000 3 in
  LastAccess m = 1700000000 ∧ Refs m = 3
  ∧ LastAccess (SetRefs m 70000) = 1700000000 ∧ Refs (SetRefs m 70000) = Z.min 70000 RefsMask
  ∧ LastAccess (SetLastAccess m 5) = 5 ∧ Refs (SetLastAccess m 5) = 3.
Proof.
  apply (mark_fields_independent 1700000000 3 5 70000);
    mark_consts; lia.
Defined.

(** [NewMark] does not saturate its counter the way [SetRefs] does: a counter
    of [65536 * k + r] is OR-ed into the clock. *)
Theorem new_mark_refs_spill (c k r : Z) :
  0 <= c < 2 ^ ClockBits → 0 <= k < 2 ^ 47 → 0 <= r <= RefsMask →
  LastAccess (NewMark c (k * 65536 + r)) = Z.lor c k ∧ Refs (NewMark c (k * 65536 + r)) = r.
Proof.
  intros Hc Hk Hr. change (2 ^ 47) with 140737488355328 in *.
  assert (NewMark c (k * 65536 + r) = Z.lor c k * 65536 + r) as ->; [|by rewrite mark_LastAccess, mark_Refs].
  unfold NewMark. mark_consts.
  rewrite (u64_id c), (u64_id (k * _ + r)) by (unfold_ints; lia).
  rewrite u64_id by (rewrite Z.shiftl_mul_pow2 by done; mark_consts; unfold_ints; lia).
  change 65536 with (2 ^ 16). rewrite <-!lor_shift_add by (mark_consts; lia).
  by rewrite Z.shiftl_lor, Z.lor_assoc.
Qed.

Lemma new_mark_refs_spill_witness :
  LastAccess (NewMark 1700000000 (1 * 65536 + 5)) = Z.lor 1700000000 1
  ∧ Refs (NewMark 1700000000 (1 * 65536 + 5)) = 5.
Proof. apply (new_mark_refs_spill 1700000000 1 5); mark_consts; lia. Defined.

(** ** Completeness *)

Lemma chunk_count_spec size bsize i :
  0 < size → 0 < bsize → 0 <= i → i < chunk_count size bsize ↔ i * bsize < size.
Proof.
  intros Hs Hb Hi. unfold chunk_count. pose proof (Z.div_mod size bsize ltac:(lia)).
  pose proof (Z.mod_pos_bound size bsize Hb). case_if; nia.
Qed.

(** for an object whose bitmap marks no chunk past the end, [HasComplete]
    holds exactly when every chunk that has a byte of the object is present. *)
Theorem has_complete_iff {B} `{BitmapLaws B} (m : Metadata B) :
  IsVary m = false → 0 < md_Size m → 0 < md_BlockSize m →
  (∀ i, i ∈ bm_range (md_Chunks m) → i * md_BlockSize m < md_Size m) →
  ∃ b, HasComplete m = Some b ∧
    (b = true ↔ ∀ i, 0 <= i → i * md_BlockSize m < md_Size m → bm_contains i (md_Chunks m) = true).
Proof.
  intros Hv Hs Hb Hin. unfold HasComplete. rewrite Hv. case_if; [lia|]. case_if; [lia|].
  eexists. split; [done|]. rewrite Z.eqb_eq, count_range.
  set (n := chunk_count _ _) in *. set (l := bm_range _) in *.
  assert (0 <= n) by (unfold n, chunk_count; pose proof (Z.div_pos (md_Size m) (md_BlockSize m)); case_if; lia).
  assert (NoDup l) by apply sorted_lt_NoDup, range_sorted.
  assert (l ⊆ seqZ 0 n) as Hsub.
  { intros i Hi. apply elem_of_seqZ. pose proof Hi as Hi'. apply range_elem in Hi' as [? _].
    split; [done|]. simpl. apply chunk_count_spec; try done. by apply Hin. }
  split.
  - intros Hn i Hi Hlt. apply (range_elem i). change (bm_range (md_Chunks m)) with l.
    assert (l ≡ₚ seqZ 0 n) as ->.
    { apply submseteq_length_Permutation; [by apply NoDup_submseteq|]. rewrite length_seqZ. lia. }
    apply elem_of_seqZ. split; [done|]. simpl. by apply chunk_count_spec.
  - intros Hall. assert (l ≡ₚ seqZ 0 n) as Hp.
    { apply NoDup_Permutation; [done|apply NoDup_seqZ|]. intros i. split; [apply Hsub|].
      intros Hi%elem_of_seqZ. apply range_elem. split; [lia|]. apply Hall; [lia|].
      apply (chunk_count_spec (md_Size m) (md_BlockSize m)); try done; lia. }
    rewrite Hp, length_seqZ. lia.
Qed.

Definition sample_md : Metadata N :=
  mkMetadata FlagCache (NewID (bs "http://a/x")) 1000 7%N 0%N 200 2500 0 0 0 0 ∅ [].

Lemma has_complete_iff_witness :
  ∃ b, HasComplete sample_md = Some b ∧
    (b = true ↔ ∀ i, 0 <= i → i * md_BlockSize sample_md < md_Size sample_md →
                bm_contains i (md_Chunks sample_md) = true).
Proof.
  apply (has_complete_iff sample_md); [reflexivity|reflexivity|reflexivity|].
  intros i Hi. vm_compute in Hi. simpl.
  repeat (apply elem_of_cons in Hi as [->|Hi]; [lia|]). by apply elem_of_nil in Hi.
Defined.

(** ** File names *)

Lemma split_byte_elems c s w : w ∈ split_byte c s → c ∉ w.
Proof.
  revert w; induction s as [|a s IH]; intros w; simpl.
  { intros ->%list_elem_of_singleton. apply not_elem_of_nil. }
  case_bool_decide as Ha.
  - intros [->|Hw]%elem_of_cons; [apply not_elem_of_nil|auto].
  - destruct (split_byte c s) as [|v vs]; intros Hw.
    + apply list_elem_of_singleton in Hw as ->. by apply not_elem_of_cons; split; [|apply not_elem_of_nil].
    + apply elem_of_cons in Hw as [->|Hw].
      * apply not_elem_of_cons. split; [done|]. apply IH. by left.
      * apply IH. by right.
Qed.

(** A component that [Clean] keeps as it is. *)
Definition plain (c : str) : Prop := c ≠ [] ∧ c ≠ bs "." ∧ c ≠ bs ".." ∧ "/"%char ∉ c.

Lemma clean_step_plain rooted acc c : plain c → clean_step rooted acc c = c :: acc.
Proof.
  intros (H1 & H2 & H3 & _). unfold clean_step.
  by rewrite !bool_decide_eq_false_2 by done.
Qed.

Lemma clean_step_slash rooted acc c :
  "/"%char ∉ c → Forall (λ w, "/"%char ∉ w) acc → Forall (λ w, "/"%char ∉ w) (clean_step rooted acc c).
Proof.
  intros Hc Ha. unfold clean_step.
  destruct Ha as [|x acc Hx Ha]; repeat case_if; by repeat constructor.
Qed.

Lemma clean_fold_slash rooted acc l :
  Forall (λ w, "/"%char ∉ w) l → Forall (λ w, "/"%char ∉ w) acc →
  Forall (λ w, "/"%char ∉ w) (fold_left (clean_step rooted) l acc).
Proof.
  intros Hl. revert acc; induction Hl as [|c l Hc Hl IH]; intros acc Ha; simpl; [done|].
  apply IH. by apply clean_step_slash.
Qed.

Lemma split_byte_app_sep c s t : split_byte c (s ++ c :: t) = split_byte c s ++ split_byte c t.
Proof.
  induction s as [|a s IH]; simpl.
  - by rewrite bool_decide_eq_true_2.
  - rewrite IH. case_bool_decide; [done|].
    by destruct (split_byte c s) as [|w ws] eqn:E; [apply split_byte_ne in E|].
Qed.

(** The components [Clean] leaves of a directory, reversed. *)
Definition dir_rooted (pwd : str) : bool := has_prefix (bs "/") pwd.
Definition dir_parts (pwd : str) : list str :=
  match pwd with [] => [] | _ => fold_left (clean_step (dir_rooted pwd)) (split_byte "/"%char pwd) [] end.

(** Plain components below a directory come out unchanged, after a prefix that
    depends on the directory only. *)
Lemma path_join_tail pwd l : l ≠ [] → Forall plain l →
  path_join (pwd :: l) = (if dir_rooted pwd then ["/"%char] else []) ++ join (bs "/") (rev (dir_parts pwd) ++ l).
Proof.
  intros Hne Hl. set (rooted := dir_rooted pwd). set (acc := dir_parts pwd).
  assert (Forall (λ w, "/"%char ∉ w) l) as Hsl.
  { eapply Forall_impl; [exact Hl|]. by intros w (_ & _ & _ & ?). }
  assert (filter (λ e, e ≠ []) l = l) as Hfl.
  { clear -Hl. induction Hl as [|c l (Hc & _) Hl IH]; [done|]. rewrite filter_cons.
    by rewrite decide_True, IH. }
  set (p := match pwd with [] => join (bs "/") l | _ => pwd ++ "/"%char :: join (bs "/") l end).
  assert (path_join (pwd :: l) = clean p) as ->.
  { unfold path_join, p. rewrite filter_cons, Hfl. destruct l as [|c l]; [done|]. by destruct pwd. }
  assert (has_prefix (bs "/") p = rooted) as Hroot.
  { unfold p, rooted, dir_rooted. destruct pwd as [|a pwd]; [|done].
    destruct Hl as [|c l (Hc & _) Hl]; [done|]. destruct c as [|a c]; [done|].
    apply Forall_cons in Hsl as [Hs _]. destruct l; simpl;
      rewrite bool_decide_eq_false_2 by set_solver; done. }
  assert (fold_left (clean_step rooted) (split_byte "/"%char p) [] = rev l ++ acc) as Hfold.
  { assert (∀ acc', fold_left (clean_step rooted) l acc' = rev l ++ acc') as Hpl.
    { clear -Hl. induction Hl as [|c l Hc Hl IH]; intros acc'; simpl; [done|].
      by rewrite clean_step_plain, IH, <-app_assoc. }
    unfold p, acc, dir_parts. fold rooted. destruct pwd as [|a pwd].
    - change (bs "/") with ["/"%char]. by rewrite split_join.
    - rewrite split_byte_app_sep. change (bs "/") with ["/"%char].
      rewrite split_join by done. by rewrite fold_left_app, Hpl. }
  unfold clean. rewrite Hroot, Hfold, rev_app_distr, rev_involutive.
  destruct rooted; [done|]. by destruct (rev acc ++ l) eqn:E; [apply app_nil in E as [_ ?]|].
Qed.

Lemma path_join_inj pwd l k :
  l ≠ [] → k ≠ [] → Forall plain l → Forall plain k → path_join (pwd :: l) = path_join (pwd :: k) → l = k.
Proof.
  intros Hl Hk Pl Pk. rewrite !path_join_tail by done.
  set (pre := rev (dir_parts pwd)). assert (Forall (λ w, "/"%char ∉ w) pre) as Hpre.
  { apply Forall_rev. unfold dir_parts. destruct pwd; [constructor|]. apply clean_fold_slash; [|constructor].
    apply Forall_forall. intros w. apply split_byte_elems. }
  intros E%(inj (app _)).
  assert (∀ x, x ≠ [] → Forall plain x →
    split_byte "/"%char (join ["/"%char] (pre ++ x)) = pre ++ x) as Hsp.
  { intros x Hx Px. apply split_join; [by intros [_ ?]%app_nil|]. apply Forall_app. split; [done|].
    eapply Forall_impl; [exact Px|]. by intros w (_ & _ & _ & ?). }
  apply (f_equal (split_byte "/"%char)) in E. change (bs "/") with ["/"%char] in E.
  rewrite !Hsp in E by done. by apply (inj (app pre)) in E.
Qed.

(** *** Hexadecimal *)

Definition hex_char (c : ascii) : Prop := graphic c = true ∧ c ≠ "/"%char ∧ c ≠ "."%char ∧ c ≠ "-"%char.

Lemma hex_digit_cases d : 0 <= d < 16 → d ∈ seqZ 0 16.
Proof. intros. by apply elem_of_seqZ. Qed.

Lemma hex_digit_char d : 0 <= d < 16 → hex_char (hex_digit d).
Proof.
  intros Hd%hex_digit_cases. vm_compute in Hd.
  repeat (apply elem_of_cons in Hd as [->|Hd]; [by vm_compute|]). by apply elem_of_nil in Hd.
Qed.

Definition unhex_digit (c : ascii) : Z := let z := byte_val c in if z <? 58 then z - 48 else z - 87.

Lemma unhex_hex_digit d : 0 <= d < 16 → unhex_digit (hex_digit d) = d.
Proof.
  intros Hd%hex_digit_cases. vm_compute in Hd.
  repeat (apply elem_of_cons in Hd as [->|Hd]; [by vm_compute|]). by apply elem_of_nil in Hd.
Qed.

Lemma byte_nibbles c : 0 <= byte_val c / 16 < 16 ∧ 0 <= byte_val c mod 16 < 16.
Proof.
  pose proof (byte_val_range c). split; [|by apply Z.mod_pos_bound].
  split; [apply Z.div_pos; lia|apply Z.div_lt_upper_bound; lia].
Qed.

Lemma hex_chars s : Forall hex_char (hex s).
Proof.
  induction s as [|c s IH]; simpl; [constructor|]. pose proof (byte_nibbles c) as [? ?].
  by repeat (constructor; [by apply hex_digit_char|]).
Qed.

Lemma hex_length s : length (hex s) = (2 * length s)%nat.
Proof. induction s as [|c s IH]; simpl; [done|]. rewrite IH. lia. Qed.

Lemma hex_inj s t : hex s = hex t → s = t.
Proof.
  revert t; induction s as [|c s IH]; intros [|d t]; simpl; try done. intros E.
  injection E as E1 E2 E3. f_equal; [|auto].
  pose proof (byte_nibbles c) as [? ?]. pose proof (byte_nibbles d) as [? ?].
  apply (f_equal unhex_digit) in E1, E2. rewrite !unhex_hex_digit in E1, E2 by done.
  apply byte_val_inj.
  rewrite (Z.div_mod (byte_val c) 16), (Z.div_mod (byte_val d) 16) by lia. by rewrite E1, E2.
Qed.

Lemma hex_plain w : w ≠ [] → Forall hex_char w → plain w.
Proof.
  intros Hne Hw. assert (∀ x, x ∈ w → hex_char x) as Hall by by apply Forall_forall.
  repeat split; [done|intros ->|intros ->|intros Hin].
  - destruct (Hall "."%char) as (_ & _ & ? & _); [by left|done].
  - destruct (Hall "."%char) as (_ & _ & ? & _); [by left|done].
  - by destruct (Hall _ Hin) as (_ & ? & _).
Qed.

(** *** Padded numbers *)

Lemma parse_uint_zeros n s : parse_uint_loop 0 (repeat "0"%char n ++ s) = parse_uint_loop 0 s.
Proof. induction n as [|n IH]; [done|]. simpl. exact IH. Qed.

Lemma pad6_inj n m : in_u32 n → in_u32 m → pad6 n = pad6 m → n = m.
Proof.
  assert (∀ n, in_u32 n → parse_uint_loop 0 (pad6 n) = (n, None)) as Hp.
  { intros x Hx. unfold pad6. rewrite parse_uint_zeros, format_int_nonneg by (unfold_ints; lia).
    pose proof (parse_format_uint x ltac:(unfold_ints; lia)) as Hpx. unfold parse_uint in Hpx.
    by destruct (format_uint x) as [|c s] eqn:E; [apply format_uint_ne in E|]. }
  intros Hn Hm E. pose proof (Hp n Hn) as H1. rewrite E, Hp in H1 by done. congruence.
Qed.

Lemma pad6_chars n : 0 <= n → Forall (λ c, is_digit c = true) (pad6 n).
Proof.
  intros Hn. unfold pad6. apply Forall_app. split; [|by apply format_nonneg_digits].
  apply Forall_forall. intros c Hc%list_elem_of_In%repeat_spec. by subst.
Qed.

Lemma slice_name_plain h n : h ≠ [] → Forall hex_char h → 0 <= n → plain (h ++ "-"%char :: pad6 n).
Proof.
  intros Hne Hh Hn. destruct (hex_plain h Hne Hh) as (_ & H1 & H2 & H3).
  pose proof (pad6_chars n Hn) as Hd. repeat split.
  - by destruct h.
  - destruct h as [|c [|]]; by try done.
  - destruct h as [|c h]; [done|]. simpl. intros [= -> E]. apply Forall_cons in Hh as [(_ & _ & ? & _) _]. done.
  - apply not_elem_of_app. split; [done|]. apply not_elem_of_cons. split; [done|].
    eapply digits_notin; [|exact Hd]. done.
Qed.

(** The components below the bucket directory. *)
Lemma hash_path_plain h name :
  (4 <= length h)%nat → Forall hex_char h → plain name →
  Forall plain [take 1 h; take 2 (drop 2 h); name].
Proof.
  intros Hl Hh Hn.
  assert (plain (take 1 h) ∧ plain (take 2 (drop 2 h))) as [??].
  { split; (apply hex_plain; [|auto using Forall_take, Forall_drop]);
      do 4 (destruct h as [|? h]; [simpl in *; lia|]); done. }
  constructor; [done|]. constructor; [done|]. by constructor.
Qed.

Section slice_paths.
Variables (id id' : ID) (pwd : str).
Hypothesis Hl : length (id_hash id) = 20%nat.
Hypothesis Hl' : length (id_hash id') = 20%nat.

Lemma hex_hash_plain x : length (id_hash x) = 20%nat →
  length (hex (id_hash x)) = 40%nat ∧ plain (hex (id_hash x)) ∧ ∀ i, in_u32 i → plain (hex (id_hash x) ++ "-"%char :: pad6 i).
Proof.
  intros Hx. assert (length (hex (id_hash x)) = 40%nat) as Hh by (rewrite hex_length; lia).
  assert (hex (id_hash x) ≠ []) as Hne by (by intros E; rewrite E in Hh). split; [done|]. split.
  - apply hex_plain; [done|apply hex_chars].
  - intros i Hi. apply slice_name_plain; [done|apply hex_chars|unfold_ints; lia].
Qed.

Lemma WPathSlice_inj i j : in_u32 i → in_u32 j → WPathSlice id pwd i = WPathSlice id' pwd j → id_hash id = id_hash id' ∧ i = j.
Proof.
  intros Hi Hj E. destruct (hex_hash_plain id Hl) as (Hh & _ & Hp), (hex_hash_plain id' Hl') as (Hh' & _ & Hp').
  unfold WPathSlice, hash_path in E.
  apply path_join_inj in E; try done; try (apply hash_path_plain; [lia|apply hex_chars|]; auto).
  injection E as _ _ E. apply app_inj_1 in E as [E1 E2]; [|congruence].
  split; [by apply hex_inj|]. apply pad6_inj; congruence.
Qed.

Lemma WPathSlice_not_WPath i : in_u32 i → WPathSlice id pwd i ≠ WPath id' pwd.
Proof.
  intros Hi E. destruct (hex_hash_plain id Hl) as (Hh & _ & Hp), (hex_hash_plain id' Hl') as (Hh' & Hw & _).
  unfold WPathSlice, WPath, hash_path in E.
  apply path_join_inj in E; try done; try (apply hash_path_plain; [lia|apply hex_chars|]; auto).
  injection E as _ _ E. apply (f_equal length) in E. rewrite length_app in E. simpl in E. lia.
Qed.
End slice_paths.

(** chunk files never collide: within a bucket directory the path of a chunk
    determines the object's hash and the chunk index, and no chunk file has the
    name of an object's own path. *)
Theorem chunk_paths_injective (id id' : ID) (pwd : str) (i j : Z) :
  length (id_hash id) = 20%nat → length (id_hash id') = 20%nat → in_u32 i → in_u32 j →
  (WPathSlice id pwd i = WPathSlice id' pwd j → id_hash id = id_hash id' ∧ i = j)
  ∧ WPathSlice id pwd i ≠ WPath id' pwd.
Proof.
  intros Hl Hl' Hi Hj. split; [by apply WPathSlice_inj|by apply WPathSlice_not_WPath].
Qed.

Lemma chunk_paths_injective_witness :
  (WPathSlice (NewID (bs "a")) (bs "/c") 1 = WPathSlice (NewID (bs "a")) (bs "/c") 2 →
   id_hash (NewID (bs "a")) = id_hash (NewID (bs "a")) ∧ 1 = 2)
  ∧ WPathSlice (NewID (bs "a")) (bs "/c") 1 ≠ WPath (NewID (bs "a")) (bs "/c").
Proof.
  apply (chunk_paths_injective (NewID (bs "a")) (NewID (bs "a")) (bs "/c") 1 2);
    [vm_compute; reflexivity|vm_compute; reflexivity|unfold_ints; lia|unfold_ints; lia].
Defined.
