(* ===== verification/HitPath.v ===== *)
(** * The cache-hit path: server/middleware/caching/internal.go and caching.go

    [markCacheStatus], the chunk lookup ([getSliceChunkFile], [checkChunkSize],
    [getContents]), the assembly of the response ([buildNoBodyRespond],
    [lazilyRespond]) and [respondFromCache].  The bucket and the upstream are
    parameters; the readers they return satisfy the stream contract of
    [IoReader].  The main theorem says that a hit is answered with exactly the
    requested bytes of the object, whatever mixture of chunk files and upstream
    fetches it is put together from. *)

From S2P Require Import Prelude GoSort GoStrings Headers HttpRange Blocks IoReader Object.

(** ** Cache status *)

(** The fields of [Caching] that the functions below read or write. *)
Record CachingFlags := mkFlags { cf_cacheStatus : CacheStatus; cf_migration : bool }.

Section mark_status.
Context {B : Type} `{BitmapLaws B}.

(** [math.MaxInt] as the end means "unknown".  [None] is a division by zero or a
    hit test that does not return. *)
Definition markCacheStatus (fuel : nat) (isHead : bool) (md : Metadata B) (c : CachingFlags)
    (start stop : Z) : option CachingFlags :=
  if isHead || (stop =? max_int64) then
    Some (if cf_migration c then mkFlags CacheHotHit (cf_migration c) else c)
  else
    let psize := i64 (md_BlockSize md) in
    if psize =? 0 then None
    else
      let first := u32 (Z.quot start psize) in
      let last := u32 (Z.quot stop psize) in
      match FullHit fuel first last (md_Chunks md) with
      | None => None
      | Some true =>
          Some (mkFlags (if cf_migration c then CacheHotHit else CacheHit) (cf_migration c))
      | Some false =>
          match PartHit fuel first last (md_Chunks md) with
          | None => None
          | Some true => Some (mkFlags CachePartHit (cf_migration c))
          | Some false => Some (mkFlags CachePartMiss (cf_migration c))
          end
      end.
End mark_status.

(** ** Reading chunks *)

(** Errors of [ReadChunkFile]: [os.ErrNotExist], [EMFILE], anything else. *)
Inductive open_error := NotExist | TooManyFiles | OpenError (code : Z).

Inductive cache_error :=
| EOpen (e : open_error)
| EStat
| ESizeMismatch (size realSize : Z)
| EUpstream (code : Z)
| ERangeNotSatisfiable.

Record Response (R : Type) := mkResponse {
  resp_StatusCode : Z; resp_ContentLength : Z; resp_Header : header; resp_Body : option R }.
Arguments mkResponse {R}. Arguments resp_StatusCode {R}. Arguments resp_ContentLength {R}.
Arguments resp_Header {R}. Arguments resp_Body {R}.

Section hit.
Context {B : Type} `{BitmapLaws B}.
Context {A : Type} `{Reader A}.

(** [bucket.ReadChunkFile] for the object, [File.Stat().Size()], and
    [getUpstreamReader]. *)
Variable ReadChunkFile : Z → result open_error A.
Variable stat_size : A → option Z.
Variable getUpstreamReader : Z → Z → result cache_error A.

(** [opt.SliceSize], the metadata, and the [Range] header of the request. *)
Variable SliceSize : Z.
Variable md : Metadata B.
Variable rawRange : str.

Definition part_size : Z := if md_BlockSize md >? 0 then md_BlockSize md else SliceSize.

Definition getSliceChunkFile (from : Z) : result cache_error (option A) :=
  match ReadChunkFile from with
  | Ok f => Ok (Some f)
  | Err NotExist => Ok None
  | Err e => Err (EOpen e)
  end.

(** [None] is success. *)
Definition checkChunkSize (f : A) (idx : Z) : option cache_error :=
  match stat_size f with
  | None => Some EStat
  | Some size =>
      let realSize := part_size in
      let realSize := if idx =? u32 (md_Size md / realSize) then md_Size md mod realSize else realSize in
      if negb (size =? i64 realSize) then Some (ESizeMismatch size realSize) else None
  end.

(** The reader that a hit hands out: a chunk file or an upstream stream, or an
    upstream stream followed by a chunk file. *)
Definition content : Type := (A + partsReader A)%type.

Inductive content_result :=
| Content (r : content) (count : Z)
| ContentErr (e : cache_error) (discarded : bool).

Definition getAvailableChunks : list Z := bm_range (md_Chunks md).

(** The comparison of [SortFunc]: a uint32 difference as [int], never negative. *)
Definition chunk_cmp (i j : Z) : Z := u32 (i - j).

Definition anchor_index (available : list Z) (cur lastChunk : Z) : nat :=
  Search (length available)
    (λ i, let a := nth i available 0 in (a >? cur) && (a <=? lastChunk)).

(** Fill up to the end of the request.  [None]: the range does not parse and
    [rng] is nil. *)
Definition fill_tail (fromByte lastChunk count : Z) : option content_result :=
  match SingleParse rawRange (md_Size md) with
  | Err _ => None
  | Ok rng =>
      let tail := u64 (u32 (lastChunk + 1) * part_size - 1) in
      let tail := if tail >? u64 (r_End rng) then u64 (r_End rng) else tail in
      let toByte := Z.min (u64 (md_Size md - 1)) tail in
      Some match getUpstreamReader fromByte toByte with
      | Err e => ContentErr e false
      | Ok reader => Content (inl reader) count
      end
  end.

(** The part of [getContents] after the chunk itself was not usable. *)
Definition fill_contents (cur lastChunk count : Z) : option content_result :=
  let available := SortFunc chunk_cmp getAvailableChunks in
  let index := anchor_index available cur lastChunk in
  let fromByte := u32 (cur * u32 (md_BlockSize md)) in
  if (index <? length available)%nat then
    let a := nth index available 0 in
    match getSliceChunkFile a with
    | Ok (Some chunkFile) =>
        match checkChunkSize chunkFile a with
        | Some err => Some (ContentErr err true)
        | None =>
            let toByte := Z.min (u64 (md_Size md - 1)) (u64 (u32 (a * u32 part_size) - 1)) in
            Some match getUpstreamReader fromByte toByte with
            | Err e => ContentErr e false
            | Ok reader =>
                Content (inr (mkParts [] [reader; chunkFile] NopCloser)) (u32 (a - cur) + 1)
            end
        end
    | _ => fill_tail fromByte lastChunk count
    end
  else fill_tail fromByte lastChunk count.

(** [reqChunks] is not empty and [from] is an index of it; the panics are
    [None]. *)
Definition getContents (reqChunks : list Z) (from : nat) : option content_result :=
  match reqChunks !! from, last reqChunks with
  | Some idx, Some lastChunk =>
      let fill := fill_contents idx lastChunk (Z.of_nat (length reqChunks) - Z.of_nat from) in
      match getSliceChunkFile idx with
      | Err e => Some (ContentErr e false)
      | Ok (Some f) =>
          match checkChunkSize f idx with
          | None => Some (Content (inl f) 1)
          | Some _ => fill
          end
      | Ok None => fill
      end
  | _, _ => None
  end.

(** ** Assembling the response *)

Definition skipped : Type := (content + skipReadCloser content)%type.
Definition limited : Type := (skipped + limitedReadCloser skipped)%type.
Definition piece : Type := (limited + rangeReader content)%type.
Definition body : Type := partsReader piece.

Definition keyMap : list str := [bs "Content-Range"; bs "Content-Length"].

Definition buildNoBodyRespond (hasRangeRequest : bool) (start stop : Z) : Response body :=
  let h := CopyHeader ∅ (md_Headers md) in
  let h := fold_left (λ h k, header_del k h) keyMap h in
  let '(code, h) :=
    if hasRangeRequest then
      (206, header_set (bs "Content-Range")
              (bs "bytes " ++ format_int start ++ "-"%char :: format_int stop
                 ++ "/"%char :: format_int (md_Size md)) h)
    else (md_Code md, h) in
  let cl := i64 (i64 (stop - start) + 1) in
  mkResponse code cl (header_set (bs "Content-Length") (format_int cl) h) None.

(** The loop over the requested chunks; [i] is the loop variable. *)
Fixpoint respond_loop (fuel : nat) (reqChunks : list Z) (start stop startOffset : Z) (i : nat)
    (readers : list piece) : option (result cache_error (list piece)) :=
  match fuel with
  | O => None
  | S f =>
      if (i <? length reqChunks)%nat then
        match getContents reqChunks i with
        | None => None
        | Some (ContentErr e _) => Some (Err e)
        | Some (Content reader count) =>
            if count =? -1 then
              Some (Ok [inr (RangeReader reader 0 (i64 (md_Size md - 1)) start stop)])
            else
              let reader1 : skipped :=
                if (i =? 0)%nat && (startOffset >? 0) then SkipReadCloser reader startOffset
                else inl reader in
              let reader2 : limited :=
                if Z.of_nat i + count =? Z.of_nat (length reqChunks) then
                  let endLimit := u64 (u64 (u64 (count - 1) * md_BlockSize md) + u64 stop mod md_BlockSize md + 1) in
                  let endLimit := if (i =? 0)%nat then u64 (endLimit - startOffset) else endLimit in
                  inr (LimitReadCloser reader1 (i64 endLimit))
                else inl reader1 in
              respond_loop f reqChunks start stop startOffset (Z.to_nat (Z.of_nat i + count))
                (readers ++ [inl reader2])
        end
      else Some (Ok readers)
  end.

(** [None] stands for a panic.  The time stamp [LastRefUnix] is not part of the
    response. *)
Definition lazilyRespond (isHead : bool) (start stop : Z)
    : option (result cache_error (Response body)) :=
  let psize := md_BlockSize md in
  match Build (u64 start) (u64 stop) psize with
  | None => None
  | Some reqChunks =>
      let startOffset := Z.rem start (i64 psize) in
      let hasRangeRequest := negb (bool_decide (rawRange = [])) in
      let resp := buildNoBodyRespond hasRangeRequest start stop in
      if isHead then Some (Ok resp)
      else match respond_loop (S (length reqChunks)) reqChunks start stop startOffset 0 [] with
      | None => None
      | Some (Err e) => Some (Err e)
      | Some (Ok readers) =>
          Some (Ok (mkResponse (resp_StatusCode resp) (resp_ContentLength resp) (resp_Header resp)
                      (PartsReadCloser AllCloser readers)))
      end
  end.

(** [respondFromCache] up to the post-processing: the 416 answer, or the status
    mark and the assembled response. *)
Definition respondFromCache (fuel : nat) (isHead : bool) (c : CachingFlags)
    : option (result cache_error (Response body) * CachingFlags) :=
  let c := mkFlags CacheHit (cf_migration c) in
  match SingleParse rawRange (md_Size md) with
  | Err _ => Some (Err ERangeNotSatisfiable, c)
  | Ok rng =>
      match markCacheStatus fuel isHead md c (r_Start rng) (r_End rng) with
      | None => None
      | Some c' =>
          match lazilyRespond isHead (r_Start rng) (r_End rng) with
          | None => None
          | Some r => Some (r, c')
          end
      end
  end.
End hit.

(** ** Lemmas *)

(** A reader that delivers [d] to its end, also after a [Seek]. *)
Definition stream_of {R} `{Reader R} (r : R) (d : str) : Prop :=
  delivers r d EOF ∧ ∀ n r', 0 <= n → rd_seek r n = Some r' → delivers r' (drop (Z.to_nat n) d) EOF.

(** What the bucket and the upstream promise about the object [data]: a chunk
    file that passes the size check holds the bytes of its chunk, and an
    upstream range request returns the bytes of the range. *)
Class ConsistentStore {B A} `{BitmapOps B, Reader A}
    (ReadChunkFile : Z → result open_error A) (stat_size : A → option Z)
    (getUpstreamReader : Z → Z → result cache_error A) (SliceSize : Z)
    (md : Metadata B) (data : str) : Prop := {
  cs_size : md_Size md = Z.of_nat (length data);
  cs_block : 0 < md_BlockSize md <= max_uint32;
  cs_file i f : 0 <= i → ReadChunkFile i = Ok f → checkChunkSize stat_size SliceSize md f i = None →
    stream_of f (slice data (i * md_BlockSize md) (Z.min ((i + 1) * md_BlockSize md) (md_Size md)));
  cs_upstream from to r : 0 <= from <= to → to < md_Size md →
    getUpstreamReader from to = Ok r → stream_of r (slice data from (to + 1))
}.

Section hit_lemmas.
Context {B : Type} `{BitmapLaws B} {A : Type} `{Reader A}.
Context (ReadChunkFile : Z → result open_error A) (stat_size : A → option Z)
  (getUpstreamReader : Z → Z → result cache_error A) (SliceSize : Z) (md : Metadata B) (data : str).
Context `{!ConsistentStore ReadChunkFile stat_size getUpstreamReader SliceSize md data}.
Context (rawRange : str) (start stop : Z).
(** The request: a range of an object below 4 GiB. *)
Context (Hrange : SingleParse rawRange (md_Size md) = Ok (mkRange start stop))
  (Hstart : 0 <= start <= stop) (Hstop : stop < md_Size md) (Hsmall : md_Size md <= max_uint32).

Local Abbreviation BS := (md_BlockSize md).
Local Abbreviation first_chunk := (start / BS).
Local Abbreviation last_chunk := (stop / BS).
Local Abbreviation req := (seqZ first_chunk (last_chunk - first_chunk + 1)).
Local Abbreviation contents := (getContents ReadChunkFile stat_size getUpstreamReader SliceSize md rawRange).

Lemma chunk_bounds : 0 <= first_chunk <= last_chunk
  ∧ first_chunk * BS <= start < (first_chunk + 1) * BS
  ∧ last_chunk * BS <= stop < (last_chunk + 1) * BS ∧ last_chunk < max_uint32.
Proof.
  destruct cs_block as [Hb _].
  pose proof (proj1 (chunk_of_byte first_chunk start BS Hb) eq_refl).
  pose proof (proj1 (chunk_of_byte last_chunk stop BS Hb) eq_refl).
  pose proof (Z.div_pos start BS). pose proof (Z.div_le_mono start stop BS Hb). nia.
Qed.

Lemma req_length : length req = Z.to_nat (last_chunk - first_chunk + 1).
Proof. apply length_seqZ. Qed.

Lemma req_lookup i : (i < length req)%nat → req !! i = Some (first_chunk + Z.of_nat i).
Proof. rewrite req_length. intros. apply lookup_seqZ. split; [done|lia]. Qed.

Lemma req_last : last req = Some last_chunk.
Proof.
  pose proof chunk_bounds as (? & _). rewrite last_lookup, req_length.
  apply lookup_seqZ. split; lia.
Qed.

Lemma part_size_block : part_size SliceSize md = BS.
Proof. unfold part_size. destruct cs_block. case_if; [done|lia]. Qed.

(** Why a hit may end in an error: a chunk file cannot be opened for another
    reason than being absent, the upstream fails, or a chunk file has the wrong
    size. *)
Definition store_fault : Prop :=
  (∃ i e, ReadChunkFile i = Err e ∧ e ≠ NotExist)
  ∨ (∃ from to e, getUpstreamReader from to = Err e)
  ∨ (∃ i f e, ReadChunkFile i = Ok f ∧ checkChunkSize stat_size SliceSize md f i = Some e).

Lemma open_fault i e : getSliceChunkFile ReadChunkFile i = Err e → store_fault.
Proof.
  unfold getSliceChunkFile. destruct (ReadChunkFile i) as [g|[]] eqn:E; intros; simplify_eq;
    left; eauto.
Qed.

Lemma open_file i f : getSliceChunkFile ReadChunkFile i = Ok (Some f) → ReadChunkFile i = Ok f.
Proof. unfold getSliceChunkFile. destruct (ReadChunkFile i) as [g|[]]; congruence. Qed.

(** What a step of the loop gets for the chunk [c]: a stream from the start of
    the chunk to [hi], over [count] chunks. *)
Definition good_content (c : Z) (left : Z) (x : option (content_result (A := A))) : Prop :=
  match x with
  | None => False
  | Some (ContentErr _ _) => store_fault
  | Some (Content r count) =>
      1 <= count <= left ∧ ∃ hi, stream_of r (slice data (c * BS) hi) ∧ hi <= md_Size md
        ∧ (count < left → hi = (c + count) * BS) ∧ (count = left → stop < hi)
  end.

Lemma stream_inl (r : A) d : stream_of r d → stream_of (inl r : content (A := A)) d.
Proof.
  intros [Hd Hs]. split; [by apply delivers_inl|]. intros n r' Hn. simpl.
  destruct (rd_seek r n) as [r0|] eqn:E; [|done]. intros [= <-]. apply delivers_inl. by eapply Hs.
Qed.

Lemma stream_parts (r f : A) d d' :
  stream_of r d → stream_of f d' →
  stream_of (inr (mkParts [] [r; f] NopCloser) : content (A := A)) (d ++ d').
Proof.
  intros [Hr _] [Hf _]. split; [|done]. apply delivers_inr.
  rewrite <-(app_nil_r d'). apply (parts_delivers NopCloser [r; f] [d; d']); [|done].
  by repeat constructor.
Qed.

Lemma fill_tail_good c left :
  first_chunk <= c <= last_chunk → left = last_chunk - c + 1 →
  good_content c left
    (fill_tail getUpstreamReader SliceSize md rawRange (c * BS) last_chunk left).
Proof.
  intros Hc ->. pose proof chunk_bounds as (? & ? & ? & ?). destruct cs_block as [Hb Hb'].
  unfold fill_tail. rewrite Hrange. cbv zeta. simpl r_End. rewrite part_size_block.
  unfold_ints. rewrite (u32_id (last_chunk + 1)) by (unfold_ints; lia).
  rewrite (u64_id stop), (u64_id (_ * BS - 1)), (u64_id (md_Size md - 1)) by (unfold_ints; nia).
  match goal with |- context [Z.min _ ?t] => assert (t = stop) as -> by (case_if; lia) end.
  rewrite Z.min_r by lia.
  destruct (getUpstreamReader (c * BS) stop) as [r|e] eqn:E; [|right; left; eauto].
  split; [lia|]. exists (stop + 1). repeat split; try lia.
  - apply stream_inl. apply (cs_upstream (c * BS) stop); [nia|lia|done].
  - apply (stream_inl r). apply (cs_upstream (c * BS) stop); [nia|lia|done].
Qed.

(** The anchor, when there is one, is a present chunk after [cur]. *)
Lemma anchor_spec l cur lastc :
  (anchor_index l cur lastc < length l)%nat →
  cur < nth (anchor_index l cur lastc) l 0 <= lastc ∧ nth (anchor_index l cur lastc) l 0 ∈ l.
Proof.
  unfold anchor_index. match goal with |- context [Search _ ?f] => set (p := f) end. intros Hk.
  destruct (Search_spec (length l) p) as (_ & [H2|H2] & _); [lia|].
  unfold p in H2 at 1. zbool. split; [lia|]. apply list_elem_of_In. by apply nth_In.
Qed.

Lemma fill_contents_good c left :
  first_chunk <= c <= last_chunk → left = last_chunk - c + 1 →
  good_content c left
    (fill_contents ReadChunkFile stat_size getUpstreamReader SliceSize md rawRange c last_chunk left).
Proof.
  intros Hc Hleft. pose proof chunk_bounds as (? & ? & ? & ?). destruct cs_block as [Hb Hb'].
  unfold fill_contents. cbv zeta. rewrite (sort_never_less chunk_cmp) by (intros; apply u32_in).
  unfold_ints. rewrite (u32_id BS), (u32_id (c * BS)) by (unfold_ints; nia).
  pose proof (fill_tail_good c left Hc Hleft) as Htail.
  destruct (Nat.ltb_spec (anchor_index (getAvailableChunks md) c last_chunk) (length (getAvailableChunks md)))
    as [Hlt|_]; [|done].
  apply anchor_spec in Hlt as [Ha _].
  set (a := nth _ _ _) in *.
  destruct (getSliceChunkFile ReadChunkFile a) as [[f|]|] eqn:Ef; [|done..].
  apply open_file in Ef.
  destruct (checkChunkSize stat_size SliceSize md f a) as [e|] eqn:Ec; [right; right; eauto|].
  rewrite part_size_block, (u32_id BS), (u32_id (a * BS)) by (unfold_ints; nia).
  rewrite (u64_id (md_Size md - 1)), (u64_id (a * BS - 1)) by (unfold_ints; nia).
  rewrite Z.min_r by nia.
  destruct (getUpstreamReader (c * BS) (a * BS - 1)) as [r|e] eqn:E; [|right; left; eauto].
  simpl. rewrite u32_id by (unfold_ints; lia). split; [lia|].
  exists (Z.min ((a + 1) * BS) (md_Size md)). split; [|repeat split; nia].
  rewrite <-(slice_app data (c * BS) (a * BS)) by nia. apply stream_parts.
  - replace (a * BS) with (a * BS - 1 + 1) at 1 by lia.
    apply (cs_upstream (c * BS) (a * BS - 1)); [nia|nia|done].
  - apply (cs_file a); [lia|done|done].
Qed.

Lemma getContents_good i :
  (i < length req)%nat →
  good_content (first_chunk + Z.of_nat i) (Z.of_nat (length req) - Z.of_nat i) (contents req i).
Proof.
  intros Hi. pose proof chunk_bounds as (? & ? & ? & ?). destruct cs_block as [Hb Hb'].
  unfold getContents. rewrite req_lookup, req_last by done. cbv zeta.
  pose proof req_length as Hlen. set (c := first_chunk + Z.of_nat i).
  assert (first_chunk <= c <= last_chunk) as Hc by lia.
  assert (Z.of_nat (length req) - Z.of_nat i = last_chunk - c + 1) as Hleft by lia.
  pose proof (fill_contents_good c _ Hc Hleft) as Hfill.
  destruct (getSliceChunkFile ReadChunkFile c) as [[f|]|e] eqn:Ef; [|done|by eapply open_fault].
  apply open_file in Ef.
  destruct (checkChunkSize stat_size SliceSize md f c) as [e|] eqn:Ec; [done|].
  simpl. split; [lia|]. exists (Z.min ((c + 1) * BS) (md_Size md)).
  split; [|repeat split; nia]. apply stream_inl. apply (cs_file c); [lia|done|done].
Qed.

(** The position in the object at which iteration [i] of the loop starts. *)
Definition pos (i : nat) : Z :=
  if (i =? 0)%nat then start
  else if (i <? length req)%nat then (first_chunk + Z.of_nat i) * BS else stop + 1.

Lemma pos_bounds i : (i < length req)%nat →
  start <= pos i <= stop ∧ (first_chunk + Z.of_nat i) * BS <= pos i < (first_chunk + Z.of_nat i + 1) * BS
  ∧ (i ≠ 0%nat → pos i = (first_chunk + Z.of_nat i) * BS).
Proof.
  intros Hi. pose proof chunk_bounds as (? & ? & ? & ?). destruct cs_block as [Hb _].
  pose proof req_length. unfold pos.
  destruct (Nat.eqb_spec i 0) as [->|Hi0]; [split; [lia|split; [nia|lia]]|].
  destruct (Nat.ltb_spec i (length req)); [|lia]. repeat split; nia.
Qed.

(** The head skip: the stream of the chunk from its start becomes the stream
    from [pos i]. *)
Lemma head_skip (r : content (A := A)) i hi :
  (i < length req)%nat → stream_of r (slice data ((first_chunk + Z.of_nat i) * BS) hi) →
  pos i < hi → hi <= md_Size md →
  delivers (if (i =? 0)%nat && (Z.rem start (i64 BS) >? 0)
            then SkipReadCloser r (Z.rem start (i64 BS)) else inl r) (slice data (pos i) hi) EOF.
Proof.
  intros Hi [Hd Hs] Hhi Hsz. pose proof chunk_bounds as (? & ? & ? & ?). destruct cs_block as [Hb Hb'].
  pose proof (pos_bounds i Hi) as (_ & Hpos & Hpos0).
  unfold max_uint32 in *. rewrite (i64_id BS) by (unfold_ints; lia).
  rewrite Z.rem_mod_nonneg by lia. pose proof (Z.div_mod start BS ltac:(lia)).
  destruct (Nat.eqb_spec i 0) as [->|Hi0]; simpl andb.
  2: { rewrite Hpos0 by done. by apply delivers_inl. }
  change (pos 0) with start in *. rewrite Z.add_0_r in *.
  case_if.
  - replace (slice data start hi)
      with (drop (Z.to_nat (start mod BS)) (slice data (first_chunk * BS) hi)).
    + apply skip_delivers; [done| |].
      * rewrite slice_length; [nia|nia|]. by rewrite <-cs_size.
      * intros r' Hr'. apply (Hs _ r'); [lia|done].
    + rewrite slice_drop by nia. f_equal. nia.
  - apply delivers_inl. pose proof (Z.mod_pos_bound start BS Hb).
    assert (first_chunk * BS = start) as E by nia. by rewrite E in Hd.
Qed.

(** The tail limit. *)
Lemma tail_limit_value i count :
  (i < length req)%nat → Z.of_nat i + count = Z.of_nat (length req) →
  i64 (let endLimit := u64 (u64 (u64 (count - 1) * BS) + u64 stop mod BS + 1) in
       if (i =? 0)%nat then u64 (endLimit - Z.rem start (i64 BS)) else endLimit)
  = stop + 1 - pos i.
Proof.
  intros Hi Hcount. pose proof chunk_bounds as (? & ? & ? & ?). destruct cs_block as [Hb Hb'].
  pose proof req_length as Hlen. pose proof (pos_bounds i Hi) as (Hp & _ & Hp0).
  pose proof (Z.div_mod start BS ltac:(lia)). pose proof (Z.div_mod stop BS ltac:(lia)).
  pose proof (Z.mod_pos_bound start BS Hb). pose proof (Z.mod_pos_bound stop BS Hb).
  unfold max_uint32 in *. cbv zeta.
  assert (count - 1 = last_chunk - first_chunk - Z.of_nat i) as -> by lia.
  rewrite (u64_id stop), (u64_id (last_chunk - _ - _)), (i64_id BS), Z.rem_mod_nonneg by (unfold_ints; lia).
  assert (0 <= (first_chunk + Z.of_nat i) * BS <= stop) as Hlo by nia.
  assert (0 <= (last_chunk - first_chunk - Z.of_nat i) * BS <= stop) as Hhi by nia.
  set (q := (last_chunk - first_chunk - Z.of_nat i) * BS) in *.
  set (lo := (first_chunk + Z.of_nat i) * BS) in *.
  assert (q + stop mod BS + 1 = stop + 1 - lo) as E by (unfold q, lo; nia).
  rewrite (u64_id q), E by (unfold_ints; lia). rewrite (u64_id (stop + 1 - lo)) by (unfold_ints; lia).
  destruct (Nat.eqb_spec i 0) as [->|Hi0].
  - change (pos 0) with start in *.
    assert (lo + start mod BS = start) by (unfold lo; lia).
    rewrite u64_id, i64_id by (unfold_ints; lia). lia.
  - rewrite (Hp0 Hi0), i64_id by (unfold_ints; lia). lia.
Qed.

Local Abbreviation loop :=
  (respond_loop ReadChunkFile stat_size getUpstreamReader SliceSize md rawRange).

Definition assembled (rs : list (piece (A := A))) (hi : Z) : Prop :=
  ∃ ds, Forall2 (λ r d, delivers r d EOF) rs ds ∧ concat ds = slice data start hi.

Lemma assembled_snoc rs r lo hi :
  assembled rs lo → start <= lo <= hi → delivers r (slice data lo hi) EOF → assembled (rs ++ [r]) hi.
Proof.
  intros (ds & Hds & Hc) Hlo Hr. exists (ds ++ [slice data lo hi]). split.
  - apply Forall2_app; [done|]. by repeat constructor.
  - rewrite concat_app, Hc. simpl. rewrite app_nil_r. apply slice_app; lia.
Qed.

Lemma respond_loop_good fuel i rs :
  (length req - i < fuel)%nat → (i <= length req)%nat → assembled rs (pos i) → (i = 0%nat → rs = []) →
  match loop fuel req start stop (Z.rem start (i64 BS)) i rs with
  | None => False
  | Some (Err _) => store_fault
  | Some (Ok rs') => assembled rs' (stop + 1) ∧ rs' ≠ []
  end.
Proof.
  revert i rs; induction fuel as [|fuel IH]; intros i rs Hf Hi Has Hnil; [lia|]. cbn [respond_loop].
  pose proof chunk_bounds as (? & ? & ? & ?). pose proof req_length as Hlen.
  destruct (Nat.ltb_spec i (length req)) as [Hlt|Hge].
  2: { unfold pos in Has. destruct (Nat.eqb_spec i 0); [lia|].
       destruct (Nat.ltb_spec i (length req)); [lia|]. split; [done|].
       destruct Has as (ds & Hds & Hc). destruct Hds; [|done]. simpl in Hc.
       apply (f_equal length), (f_equal Z.of_nat) in Hc. rewrite slice_length in Hc; [simpl in Hc; lia|lia|].
       rewrite <-cs_size. lia. }
  pose proof (getContents_good i Hlt) as Hg. unfold good_content in Hg.
  destruct (contents req i) as [[r count|e d]|]; [|done..].
  destruct Hg as (Hcount & hi & Hst & Hhi & Hmid & Hend).
  pose proof (pos_bounds i Hlt) as (Hp1 & Hp2 & _).
  destruct (Z.eqb_spec count (-1)) as [|_]; [lia|]. cbv zeta.
  set (j := Z.to_nat (Z.of_nat i + count)).
  assert (pos i < hi) as Hpi.
  { destruct (decide (count < Z.of_nat (length req) - Z.of_nat i)); [|lia].
    rewrite Hmid by done. destruct cs_block. nia. }
  pose proof (head_skip r i hi Hlt Hst Hpi Hhi) as Hskip.
  set (r1 := if (i =? 0)%nat && _ then _ else _) in *.
  apply IH; [lia|lia| |lia].
  destruct (Z.eqb_spec (Z.of_nat i + count) (Z.of_nat (length req))) as [Heq|Hne].
  - pose proof (tail_limit_value i count Hlt Heq) as Hl. cbv zeta in Hl. rewrite Hl.
    assert (pos j = stop + 1) as ->.
    { unfold pos. destruct (Nat.eqb_spec j 0); [lia|]. destruct (Nat.ltb_spec j (length req)); lia. }
    apply assembled_snoc with (lo := pos i); [done|lia|]. apply delivers_inl, delivers_inr.
    replace (slice data (pos i) (stop + 1))
      with (take (Z.to_nat (stop + 1 - pos i)) (slice data (pos i) hi)).
    + apply (limit_delivers _ _ EOF); [done|lia|by left].
    + rewrite slice_take; [f_equal; lia|]. specialize (Hend ltac:(lia)). lia.
  - assert (pos j = hi) as ->.
    { rewrite Hmid by lia. unfold pos. destruct (Nat.eqb_spec j 0); [lia|].
      destruct (Nat.ltb_spec j (length req)); [|lia]. f_equal. lia. }
    apply assembled_snoc with (lo := pos i); [done|lia|]. by apply delivers_inl, delivers_inl.
Qed.

Lemma lazilyRespond_good :
  match lazilyRespond ReadChunkFile stat_size getUpstreamReader SliceSize md rawRange false start stop with
  | None => False
  | Some (Err _) => store_fault
  | Some (Ok resp) => ∃ b, resp_Body resp = Some b ∧ delivers b (slice data start (stop + 1)) EOF
      ∧ resp = mkResponse (resp_StatusCode resp) (resp_ContentLength resp) (resp_Header resp) (Some b)
      ∧ resp_Header resp = resp_Header (buildNoBodyRespond (A := A) md (negb (bool_decide (rawRange = []))) start stop)
  end.
Proof.
  pose proof chunk_bounds as (? & ? & ? & ?). destruct cs_block as [Hb Hb'].
  unfold lazilyRespond. unfold max_uint32 in *. rewrite !(u64_id start), !(u64_id stop) by (unfold_ints; lia).
  rewrite Build_span by (unfold_ints; lia). cbv zeta.
  assert (assembled [] (pos 0)) as H0s.
  { exists []. split; [constructor|]. unfold pos. simpl. by rewrite slice_nil. }
  pose proof (respond_loop_good (S (length req)) 0 [] ltac:(lia) ltac:(lia) H0s ltac:(done)) as Hl.
  destruct (loop (S (length req)) req start stop (Z.rem start (i64 BS)) 0 []) as [[rs|e]|]; [|done..].
  destruct Hl as [(ds & Hds & Hc) Hne]. destruct rs as [|r0 rs]; [done|].
  simpl PartsReadCloser. eexists. split; [done|]. rewrite <-Hc.
  split; [|done]. by apply (parts_delivers AllCloser (r0 :: rs) ds).
Qed.

Lemma markCacheStatus_returns c fuel :
  (hit_fuel first_chunk last_chunk <= fuel)%nat →
  ∃ c', markCacheStatus fuel false md c start stop = Some c' ∧
    (cf_cacheStatus c' = CacheHit ↔ cf_migration c = false ∧
       ∀ i, first_chunk <= i <= last_chunk → bm_contains i (md_Chunks md) = true).
Proof.
  intros Hf. pose proof chunk_bounds as (? & ? & ? & ?). destruct cs_block as [Hb Hb'].
  unfold markCacheStatus, max_uint32 in *. simpl orb.
  destruct (Z.eqb_spec stop max_int64) as [->|_]; [unfold max_int64 in *; lia|].
  rewrite (i64_id BS) by (unfold_ints; lia). destruct (Z.eqb_spec BS 0); [lia|].
  rewrite !Z.quot_div_nonneg, !(u32_id (_ / BS)) by (unfold_ints; lia).
  destruct (FullHit_spec (md_Chunks md) fuel first_chunk last_chunk) as (b & -> & Hfull);
    [lia|unfold max_uint32; lia|done|].
  destruct b.
  - eexists. split; [done|]. simpl. destruct (cf_migration c); naive_solver.
  - destruct (PartHit_spec (md_Chunks md) fuel first_chunk last_chunk) as (b & -> & Hpart);
      [lia|unfold max_uint32; lia|done|].
    destruct b; (eexists; split; [done|]); simpl; naive_solver.
Qed.
End hit_lemmas.

Lemma Content_Length_header {B A} (md : Metadata B) hasRange start stop :
  header_get (bs "Content-Length") (resp_Header (buildNoBodyRespond (A := A) md hasRange start stop))
  = format_int (i64 (i64 (stop - start) + 1)).
Proof. unfold buildNoBodyRespond. destruct hasRange; simpl; apply header_get_set. Qed.

(** ** Properties *)

(** C1: a cache hit is answered with exactly the requested bytes.  For every
    [Range] header of an object below 4 GiB, [respondFromCache] returns (no
    panic, no endless loop): 416 when the header selects nothing, an error only
    when a store or the upstream fails, and otherwise a response whose body,
    read to its end with any buffer sizes, is exactly the bytes [Start..End] of
    the object, whatever chunks were on disk, and whose [Content-Length] is
    their number.  The status is HIT exactly when every chunk was present (and
    the object was not served during a migration). *)
Theorem hit_serves_exact_bytes {B} `{BitmapLaws B} {A} `{Reader A}
    (ReadChunkFile : Z → result open_error A) (stat_size : A → option Z)
    (getUpstreamReader : Z → Z → result cache_error A) (SliceSize : Z) (md : Metadata B)
    (data rawRange : str) (c : CachingFlags) :
  ConsistentStore ReadChunkFile stat_size getUpstreamReader SliceSize md data →
  0 < md_Size md <= max_uint32 →
  ∃ f0, ∀ fuel, (f0 <= fuel)%nat →
  ∃ res c', respondFromCache ReadChunkFile stat_size getUpstreamReader SliceSize md rawRange fuel false c
              = Some (res, c') ∧
  match SingleParse rawRange (md_Size md), res with
  | Err _, _ => res = Err ERangeNotSatisfiable
  | Ok rng, Err _ => store_fault ReadChunkFile stat_size getUpstreamReader SliceSize md
  | Ok rng, Ok resp =>
      (∃ b, resp_Body resp = Some b ∧ delivers b (slice data (r_Start rng) (r_End rng + 1)) EOF)
      ∧ header_get (bs "Content-Length") (resp_Header resp) = format_int (r_End rng - r_Start rng + 1)
      ∧ Z.of_nat (length (slice data (r_Start rng) (r_End rng + 1))) = r_End rng - r_Start rng + 1
      ∧ (cf_cacheStatus c' = CacheHit ↔ cf_migration c = false ∧
           ∀ i, r_Start rng / md_BlockSize md <= i <= r_End rng / md_BlockSize md →
                bm_contains i (md_Chunks md) = true)
  end.
Proof.
  intros Hcs Hsz. unfold respondFromCache. cbv zeta.
  destruct (SingleParse rawRange (md_Size md)) as [[start stop]|e] eqn:Hr.
  2: { exists 0%nat. intros fuel _. eauto. }
  destruct (SingleParse_in rawRange (md_Size md) (mkRange start stop)) as [Hse Hlt];
    [unfold_ints; lia|done|]. simpl in *.
  set (c0 := mkFlags CacheHit (cf_migration c)).
  exists (hit_fuel (start / md_BlockSize md) (stop / md_BlockSize md)). intros fuel Hf.
  destruct (markCacheStatus_returns ReadChunkFile stat_size getUpstreamReader SliceSize md data
              rawRange start stop Hr Hse Hlt ltac:(lia) c0 fuel Hf) as (c' & -> & Hst).
  pose proof (lazilyRespond_good ReadChunkFile stat_size getUpstreamReader SliceSize md data
                rawRange start stop Hr Hse Hlt ltac:(lia)) as Hl.
  destruct (lazilyRespond _ _ _ _ _ _ _ _ _) as [[resp|e]|]; [|eauto|done].
  exists (Ok resp), c'. split; [done|]. destruct Hl as (b & Hb & Hd & _ & Hh).
  unfold_ints. split; [by exists b|]. split; [|split; [|done]].
  - rewrite Hh, Content_Length_header, (i64_id (stop - start)), i64_id by (unfold_ints; lia). done.
  - rewrite slice_length; [lia|lia|]. rewrite <-cs_size. lia.
Qed.

(** *** A small store for the examples *)

Definition sample_data : str := bs "0123456789".

Definition sample_meta : Metadata N :=
  mkMetadata FlagCache (NewID (bs "http://a/x")) 3 2%N 0%N 200 10 0 0 0 0 ∅ [].

(** Chunk 1 of the four chunks is on disk. *)
Definition sample_read (i : Z) : result open_error memfile :=
  if i =? 1 then Ok (mkFile (bs "345") 0) else Err NotExist.

Definition sample_stat (f : memfile) : option Z := Some (Z.of_nat (length (f_data f))).

Definition sample_upstream (from to : Z) : result cache_error memfile :=
  Ok (mkFile (slice sample_data from (to + 1)) 0).

Lemma file_stream d : stream_of (mkFile d 0) d.
Proof. split; [apply file_delivers|]. intros n r' Hn Hs. by apply (file_seek_delivers d n r'). Qed.

Lemma sample_consistent :
  ConsistentStore sample_read sample_stat sample_upstream 3 sample_meta sample_data.
Proof.
  split; simpl.
  - reflexivity.
  - unfold max_uint32; lia.
  - intros i f Hi. unfold sample_read. case_if; [|done]. subst. intros [= <-] _. apply (file_stream (bs "345")).
  - intros from to r _ _ [= <-]. apply file_stream.
Qed.

Lemma hit_serves_exact_bytes_witness :
  ∃ f0, ∀ fuel, (f0 <= fuel)%nat →
  ∃ res c', respondFromCache sample_read sample_stat sample_upstream 3 sample_meta (bs "bytes=1-8") fuel
              false (mkFlags CacheMiss false) = Some (res, c') ∧
  match SingleParse (bs "bytes=1-8") (md_Size sample_meta), res with
  | Err _, _ => res = Err ERangeNotSatisfiable
  | Ok rng, Err _ => store_fault sample_read sample_stat sample_upstream 3 sample_meta
  | Ok rng, Ok resp =>
      (∃ b, resp_Body resp = Some b ∧ delivers b (slice sample_data (r_Start rng) (r_End rng + 1)) EOF)
      ∧ header_get (bs "Content-Length") (resp_Header resp) = format_int (r_End rng - r_Start rng + 1)
      ∧ Z.of_nat (length (slice sample_data (r_Start rng) (r_End rng + 1))) = r_End rng - r_Start rng + 1
      ∧ (cf_cacheStatus c' = CacheHit ↔ cf_migration (mkFlags CacheMiss false) = false ∧
           ∀ i, r_Start rng / md_BlockSize sample_meta <= i <= r_End rng / md_BlockSize sample_meta →
                bm_contains i (md_Chunks sample_meta) = true)
  end.
Proof.
  apply (hit_serves_exact_bytes sample_read sample_stat sample_upstream 3 sample_meta sample_data
           (bs "bytes=1-8") (mkFlags CacheMiss false));
    [exact sample_consistent|unfold max_uint32; simpl; lia].
Defined.

(** the same response copied with [io.Copy], as the server does, is cut
    short.  For a request of the whole object with only chunk 1 on disk the
    body is an upstream stream and chunk 1 nested in one part, followed by the
    rest: reading it to its end gives all 10 bytes, [io.Copy] stops after the
    nested part with 6 bytes and [io.EOF], which the server takes for success. *)
Theorem hit_copy_truncated :
  ∃ resp b,
    lazilyRespond sample_read sample_stat sample_upstream 3 sample_meta [] false 0 9 = Some (Ok resp)
    ∧ resp_Body resp = Some b
    ∧ header_get (bs "Content-Length") (resp_Header resp) = bs "10"
    ∧ (∃ b', copy_loop rd_read 20 4 b = Some (sample_data, None, b'))
    ∧ (∃ b', rd_copy 20 4 b = Some (bs "012345", Some EOF, b')).
Proof.
  eexists _, _. split; [vm_compute; reflexivity|]. split; [reflexivity|].
  split; [vm_compute; reflexivity|].
  split; eexists; vm_compute; reflexivity.
Qed.

(** beyond 4 GiB the byte offset of a missing chunk is computed in 32 bits:
    for every chunk that starts at or after 2^32 the upstream is asked for an
    earlier position of the object. *)
Theorem fill_offset_wraps {B} `{BitmapLaws B} {A} `{Reader A}
    (ReadChunkFile : Z → result open_error A) (stat_size : A → option Z)
    (getUpstreamReader : Z → Z → result cache_error A) (SliceSize : Z) (md : Metadata B)
    (rawRange : str) (cur lastChunk count : Z) :
  bm_range (md_Chunks md) = [] → 0 < md_BlockSize md <= max_uint32 →
  max_uint32 < cur * md_BlockSize md →
  ∃ fromByte, fromByte < cur * md_BlockSize md ∧
    fill_contents ReadChunkFile stat_size getUpstreamReader SliceSize md rawRange cur lastChunk count
    = fill_tail getUpstreamReader SliceSize md rawRange fromByte lastChunk count.
Proof.
  intros Hr Hb Hc. exists (u32 (cur * md_BlockSize md)). split.
  - pose proof (u32_in (cur * md_BlockSize md)). unfold_ints. lia.
  - unfold fill_contents, getAvailableChunks. rewrite Hr. simpl. by rewrite (u32_id (md_BlockSize md)) by (unfold_ints; lia).
Qed.

Lemma fill_offset_wraps_witness :
  ∃ fromByte, fromByte < 4097 * 1048576 ∧
    fill_contents sample_read sample_stat sample_upstream 1048576
      (mkMetadata FlagCache (NewID []) 1048576 0%N 0%N 200 4299161600 0 0 0 0 ∅ []) [] 4097 4099 3
    = fill_tail sample_upstream 1048576
        (mkMetadata FlagCache (NewID []) 1048576 0%N 0%N 200 4299161600 0 0 0 0 ∅ []) [] fromByte 4099 3.
Proof.
  apply (fill_offset_wraps sample_read sample_stat sample_upstream 1048576
    (mkMetadata FlagCache (NewID []) 1048576 0%N 0%N 200 4299161600 0 0 0 0 ∅ []) [] 4097 4099 3);
    [reflexivity|unfold max_uint32; simpl; lia|unfold max_uint32; simpl; lia].
Defined.
