(* ===== verification/Savepart.v ===== *)
(** * Saving a body while it is read: pkg/iobuf/savepart_reader.go and
      savepart_async_reader.go

    The reader that hands the upstream body to the client and, on the way,
    cuts it into aligned blocks for the cache: synchronously (a callback per
    block) and asynchronously (a queue and a writer goroutine).  Both share the
    loop of [flush]; what happens with a full block is a parameter.

    Proved: whatever sizes the reads have, the blocks are exactly the aligned
    chunks of the body; the asynchronous reader processes the same blocks in the
    same order under every interleaving of the two goroutines. *)

From S2P Require Import Prelude IoReader.

Record savepart := mkSavepart {
  sp_skip : bool; sp_eof : bool; sp_closed : bool; sp_pos : Z; sp_blockSize : Z; sp_buf : str }.

(** The arguments of one call of [EventSuccess]; also the fields of [writeJob]. *)
Record block_event := mkEvent { ev_buf : str; ev_bitIdx : Z; ev_pos : Z; ev_eof : bool }.

Definition set_pos (s : savepart) (p : Z) (buf : str) : savepart :=
  mkSavepart (sp_skip s) (sp_eof s) (sp_closed s) p (sp_blockSize s) buf.
Definition set_skip (s : savepart) (b : bool) : savepart :=
  mkSavepart b (sp_eof s) (sp_closed s) (sp_pos s) (sp_blockSize s) (sp_buf s).
Definition set_eof (s : savepart) (b : bool) : savepart :=
  mkSavepart (sp_skip s) b (sp_closed s) (sp_pos s) (sp_blockSize s) (sp_buf s).
Definition set_closed (s : savepart) : savepart :=
  mkSavepart (sp_skip s) (sp_eof s) true (sp_pos s) (sp_blockSize s) (sp_buf s).

Definition new_savepart (blockSize startAt : Z) : savepart :=
  mkSavepart (startAt >? 0) false false startAt blockSize [].

(** The block that [writeBlock] and [enqueueWrite] hand over. *)
Definition block_of (s : savepart) (eof : bool) : block_event :=
  let buflen := Z.of_nat (length (sp_buf s)) in
  mkEvent (sp_buf s) (u32 (u64 (sp_pos s - buflen) / sp_blockSize s)) (sp_pos s) eof.

Section flush.
(** [emit] passes a non-empty block on, in a state [Σ], and may fail. *)
Context {Σ : Type} (emit : Σ → block_event → option ioerr * Σ).

(** [writeBlock] / [enqueueWrite]: the buffer is kept when the callback fails. *)
Definition write_block (s : savepart) (σ : Σ) (eof : bool) : option ioerr * savepart * Σ :=
  let s := set_eof s eof in
  match sp_buf s with
  | [] => (None, s, σ)
  | _ =>
      match emit σ (block_of s eof) with
      | (Some e, σ') => (Some e, s, σ')
      | (None, σ') => (None, set_pos s (sp_pos s) [], σ')
      end
  end.

(** [data] is [data[datapos:realLen]].  (The length check after [buf.Write]
    cannot fail: a [bytes.Buffer] takes everything.)  Every iteration consumes
    a byte or clears [skip]. *)
Fixpoint flush_loop (fuel : nat) (data : str) (s : savepart) (σ : Σ) (eof : bool)
    : option (option ioerr * savepart * Σ) :=
  match fuel with
  | O => None
  | S f =>
      match data with
      | [] => Some (None, s, σ)
      | _ =>
          let from := sp_pos s mod sp_blockSize s in
          let to := sp_blockSize s - from in
          let n := Z.to_nat (Z.min to (Z.of_nat (length data))) in
          if sp_skip s then
            if negb (from =? 0)
            then flush_loop f (drop n data) (set_pos s (u64 (sp_pos s + Z.of_nat n)) (sp_buf s)) σ eof
            else flush_loop f data (set_skip s false) σ eof
          else
            let '(err, s, σ) :=
              if Z.of_nat (length (sp_buf s)) =? sp_blockSize s then write_block s σ eof
              else (None, s, σ) in
            match err with
            | Some e => Some (Some e, s, σ)
            | None =>
                flush_loop f (drop n data)
                  (set_pos s (u64 (sp_pos s + Z.of_nat n)) (sp_buf s ++ take n data)) σ eof
            end
      end
  end.

(** [None] is the division by a zero block size. *)
Definition flush (data : str) (s : savepart) (σ : Σ) (eof : bool)
    : option (option ioerr * savepart * Σ) :=
  match data with
  | _ :: _ =>
      if sp_blockSize s =? 0 then None
      else match flush_loop (length data + 2) data s σ eof with
      | Some (None, s, σ) => Some (if eof then write_block s σ eof else (None, s, σ))
      | r => r
      end
  | [] => Some (if eof then write_block s σ eof else (None, s, σ))
  end.
End flush.

(** ** The synchronous reader *)

Section sync.
Context {R : Type} `{Reader R} {Σ : Type}.
Variable onSuccess : Σ → block_event → option ioerr * Σ.
Variable onError : Σ → ioerr → Σ.
Variable onClose : option (Σ → bool → Σ).

Record savepartReader := mkSync { sr_R : R; sr_state : savepart; sr_events : Σ }.

Definition SavepartReader (r : R) (blockSize startAt : Z) (σ : Σ) : savepartReader :=
  mkSync r (new_savepart blockSize startAt) σ.

Definition sync_Read (fuel : nat) (s : savepartReader) (k : nat) : option (read_result savepartReader) :=
  match rd_read fuel (sr_R s) k with
  | None => None
  | Some (b, Some EOF, r') =>
      match flush onSuccess b (sr_state s) (sr_events s) true with
      | None => None
      | Some (Some e, st, σ) => Some (b, Some EOF, mkSync r' st (onError σ e))
      | Some (None, st, σ) => Some (b, Some EOF, mkSync r' st σ)
      end
  | Some (_, Some e, r') => Some ([], Some e, mkSync r' (sr_state s) (onError (sr_events s) e))
  | Some (b, None, r') =>
      match flush onSuccess b (sr_state s) (sr_events s) false with
      | None => None
      | Some (Some e, st, σ) => Some (b, Some e, mkSync r' st (onError σ e))
      | Some (None, st, σ) => Some (b, None, mkSync r' st σ)
      end
  end.

Definition sync_Close (s : savepartReader) : option ioerr * savepartReader :=
  let '(st, σ) :=
    match onClose with
    | Some f =>
        if sp_closed (sr_state s) then (sr_state s, sr_events s)
        else (set_closed (sr_state s), f (sr_events s) (sp_eof (sr_state s)))
    | None => (sr_state s, sr_events s)
    end in
  let '(e, r') := rd_close (sr_R s) in (e, mkSync r' st σ).
End sync.

(** ** Blocks of a stream *)

(** The first aligned position at or after [startAt]. *)
Definition aligned_start (bs startAt : Z) : Z :=
  if startAt mod bs =? 0 then startAt else (startAt / bs + 1) * bs.

(** [data] cut into pieces of [n] bytes, the last one possibly shorter. *)
Fixpoint cut (fuel : nat) (n : nat) (data : str) : list str :=
  match fuel with
  | O => []
  | S f => match data with [] => [] | _ => take n data :: cut f n (drop n data) end
  end.

Definition chunks_of (n : nat) (data : str) : list str := cut (length data) n data.

(** Full blocks in a row, the first one at position [p]. *)
Fixpoint full_blocks (bs p : Z) (evs : list block_event) : Prop :=
  match evs with
  | [] => True
  | e :: evs' =>
      Z.of_nat (length (ev_buf e)) = bs ∧ ev_bitIdx e = p / bs ∧ ev_pos e = p + bs
      ∧ full_blocks bs (p + bs) evs'
  end.

Section flush_lemmas.
Context {Σ : Type} (emit : Σ → block_event → option ioerr * Σ).
(** The callback does not fail; its effect on the state is free. *)
Hypothesis emit_ok : ∀ σ e, (emit σ e).1 = None.
Variables (bs startAt : Z).
Hypothesis Hbs : 0 < bs <= max_uint32.
Hypothesis Hstart : 0 <= startAt.

Local Abbreviation a0 := (aligned_start bs startAt).

Definition run (σ : Σ) (evs : list block_event) : Σ := fold_left (λ σ e, (emit σ e).2) evs σ.

Lemma aligned_start_spec : startAt <= a0 < startAt + bs ∧ a0 mod bs = 0.
Proof.
  unfold aligned_start. pose proof (Z.div_mod startAt bs ltac:(lia)).
  pose proof (Z.mod_pos_bound startAt bs ltac:(lia)). case_if; [lia|].
  split; [nia|]. by apply Z_mod_mult.
Qed.

Lemma aligned_start_next p : startAt <= p <= a0 → p mod bs = 0 → p = a0.
Proof.
  intros Hp Hm. pose proof aligned_start_spec as [? Ha].
  apply Z.mod_divide in Hm as [k ->]; [|lia]. apply Z.mod_divide in Ha as [j Hj]; [|lia].
  rewrite Hj in *. assert (k = j) as ->; [nia|done].
Qed.

(** After the bytes [c] went in and the blocks [evs] came out. *)
Definition saved (s : savepart) (c : str) (evs : list block_event) : Prop :=
  sp_blockSize s = bs ∧ sp_pos s = startAt + Z.of_nat (length c) ∧
  if sp_skip s
  then sp_buf s = [] ∧ evs = [] ∧ startAt + Z.of_nat (length c) <= a0
  else a0 <= startAt + Z.of_nat (length c)
       ∧ concat (map ev_buf evs) ++ sp_buf s = drop (Z.to_nat (a0 - startAt)) c
       ∧ Z.of_nat (length (sp_buf s)) <= bs ∧ full_blocks bs a0 evs.

Lemma full_blocks_app p evs e :
  full_blocks bs p evs →
  Z.of_nat (length (ev_buf e)) = bs →
  ev_bitIdx e = (p + bs * Z.of_nat (length evs)) / bs →
  ev_pos e = p + bs * Z.of_nat (length evs) + bs →
  full_blocks bs p (evs ++ [e]).
Proof.
  revert p; induction evs as [|x evs IH]; intros p; simpl.
  - intros _ Hl Hi Hp. repeat split; [lia|rewrite Hi; f_equal; lia|lia].
  - intros (H1 & H2 & H3 & H4) Hl Hi Hp. repeat split; try done. apply IH; try done.
    + rewrite Hi. f_equal. lia.
    + lia.
Qed.

Lemma full_blocks_bytes p evs :
  full_blocks bs p evs → Z.of_nat (length (concat (map ev_buf evs))) = bs * Z.of_nat (length evs).
Proof.
  revert p; induction evs as [|x evs IH]; intros p; simpl; [lia|].
  intros (H1 & _ & _ & H4). rewrite length_app. specialize (IH _ H4). lia.
Qed.

(** Where the buffer stands. *)
Lemma saved_pos s c evs :
  saved s c evs → sp_skip s = false →
  sp_pos s = a0 + bs * Z.of_nat (length evs) + Z.of_nat (length (sp_buf s)).
Proof.
  intros (_ & Hp & Hs) Hsk. rewrite Hsk in Hs. destruct Hs as (Ha & Hc & Hl & Hf).
  apply full_blocks_bytes in Hf. apply (f_equal length) in Hc.
  rewrite length_app, length_drop in Hc. pose proof aligned_start_spec. lia.
Qed.

(** Writing out a full buffer. *)
Lemma saved_write s c evs σ eof :
  saved s c evs → sp_skip s = false → Z.of_nat (length (sp_buf s)) = bs → sp_pos s <= max_uint64 →
  sp_pos s / bs <= max_uint32 →
  ∃ s' evs', write_block emit s (run σ evs) eof = (None, s', run σ evs')
    ∧ saved s' c evs' ∧ sp_skip s' = false ∧ sp_buf s' = [] ∧ sp_pos s' = sp_pos s.
Proof.
  intros Hs Hsk Hlen Hmax Hidx. pose proof (saved_pos _ _ _ Hs Hsk) as Hpos.
  destruct Hs as (Hb & Hp & Hsv). rewrite Hsk in Hsv. destruct Hsv as (Ha & Hc & Hl & Hf).
  unfold write_block. simpl. destruct (sp_buf s) as [|x buf] eqn:Ebuf; [simpl in Hlen; lia|].
  set (ev := block_of (set_eof s eof) eof). pose proof (emit_ok (run σ evs) ev) as Hok.
  destruct (emit (run σ evs) ev) as [err σ'] eqn:Eem. simpl in Hok. subst err.
  eexists _, (evs ++ [ev]). split.
  { f_equal. unfold run. rewrite fold_left_app. simpl. fold (run σ evs). by rewrite Eem. }
  pose proof aligned_start_spec as [Ha0 Ham].
  split; [|done]. unfold saved. simpl. rewrite Hsk. split; [done|]. split; [done|]. split; [done|].
  rewrite map_app, concat_app. simpl. rewrite app_nil_r, Ebuf. split; [by rewrite app_nil_r|].
  split; [lia|]. apply full_blocks_app; [done|..]; unfold ev, block_of; simpl; rewrite ?Ebuf.
  - done.
  - unfold_ints. rewrite Hb, u64_id by (unfold_ints; lia).
    replace (sp_pos s - Z.of_nat (length (x :: buf))) with (a0 + bs * Z.of_nat (length evs)) by lia.
    rewrite u32_id; [done|]. unfold_ints. split; [apply Z.div_pos; lia|].
    etransitivity; [|exact Hidx]. apply Z.div_le_mono; lia.
  - lia.
Qed.

(** Taking in bytes up to the next boundary. *)
Lemma saved_take s c evs d n :
  saved s c evs → sp_skip s = false → Z.of_nat (length (sp_buf s)) < bs →
  startAt + Z.of_nat (length c) + Z.of_nat (length d) <= max_uint64 →
  n = Z.to_nat (Z.min (bs - sp_pos s mod bs) (Z.of_nat (length d))) →
  saved (set_pos s (u64 (sp_pos s + Z.of_nat n)) (sp_buf s ++ take n d)) (c ++ take n d) evs
  ∧ (d ≠ [] → (0 < n <= length d)%nat).
Proof.
  intros Hs Hsk Hlt Hmax Hn. pose proof (saved_pos _ _ _ Hs Hsk) as Hpos.
  destruct Hs as (Hb & Hp & Hsv). rewrite Hsk in Hsv. destruct Hsv as (Ha & Hc & Hl & Hf).
  pose proof aligned_start_spec as [Ha0 Ham].
  assert (sp_pos s mod bs = Z.of_nat (length (sp_buf s))) as Hmod.
  { rewrite Hpos. apply Z.mod_divide in Ham as [q Hq]; [|lia]. rewrite Hq.
    symmetry. apply (Z.mod_unique_pos _ _ (q + Z.of_nat (length evs))); nia. }
  rewrite Hmod in Hn. assert (n <= length d)%nat by lia.
  assert (length (take n d) = n) as Hnl by (rewrite length_take; lia).
  split; [|intros Hd; destruct d; [done|simpl in *; lia]].
  unfold saved. simpl. rewrite Hsk, !length_app, Hnl, u64_id by (unfold_ints; lia).
  split; [done|]. split; [lia|]. split; [lia|].
  rewrite app_assoc, Hc, drop_app_le by lia. split; [done|]. split; [lia|done].
Qed.

Lemma flush_loop_saved fuel data s c evs σ eof :
  saved s c evs → (length data + (if sp_skip s then 1 else 0) < fuel)%nat →
  startAt + Z.of_nat (length c) + Z.of_nat (length data) <= max_uint64 →
  (startAt + Z.of_nat (length c) + Z.of_nat (length data)) / bs <= max_uint32 →
  ∃ s' evs', flush_loop emit fuel data s (run σ evs) eof = Some (None, s', run σ evs')
    ∧ saved s' (c ++ data) evs'.
Proof.
  revert data s c evs; induction fuel as [|fuel IH]; intros data s c evs Hs Hf Hmax Hidx; [lia|].
  cbn [flush_loop]. destruct data as [|x data'] eqn:Ed.
  { rewrite app_nil_r. eauto. }
  rewrite <-Ed in *. assert (data ≠ []) as Hne by by subst. clear Ed x data'.
  pose proof Hs as (Hb & Hp & Hsv). pose proof aligned_start_spec as [Ha0 Ham].
  assert (∀ n, (n <= length data)%nat → startAt + Z.of_nat (length (c ++ take n data))
      + Z.of_nat (length (drop n data)) = startAt + Z.of_nat (length c) + Z.of_nat (length data)) as Hsum.
  { intros n Hn. rewrite length_app, length_take, length_drop. lia. }
  rewrite Hb. set (n := Z.to_nat (Z.min (bs - sp_pos s mod bs) (Z.of_nat (length data)))).
  destruct (sp_skip s) eqn:Hsk.
  - destruct Hsv as (Hbuf & -> & Hle).
    destruct (Z.eqb_spec (sp_pos s mod bs) 0) as [Hz|Hnz]; simpl negb; cbv iota.
    + apply IH; simpl; [|lia|done|done]. unfold saved. simpl. rewrite Hbuf.
      pose proof (aligned_start_next (sp_pos s) ltac:(lia) Hz) as Hpa.
      split; [done|]. split; [done|]. split; [lia|]. split; [|simpl; lia].
      symmetry. apply drop_ge. lia.
    + pose proof (Z.mod_pos_bound (sp_pos s) bs ltac:(lia)).
      assert (0 < n <= length data)%nat as Hn by (destruct data; [done|simpl in *; lia]).
      destruct (IH (drop n data) (set_pos s (u64 (sp_pos s + Z.of_nat n)) (sp_buf s)) (c ++ take n data) [])
        as (s' & evs' & E & Hs'); [| |rewrite Hsum by lia; done|rewrite Hsum by lia; done|].
      * unfold saved. simpl. rewrite Hsk, length_app, length_take, u64_id by (unfold_ints; lia).
        repeat split; try done; try lia.
        apply Z.mod_divide in Ham as [q Hq]; [|lia].
        pose proof (Z.div_mod (sp_pos s) bs ltac:(lia)).
        assert (sp_pos s ≠ a0) by (intros Ea; rewrite Ea, Hq, Z_mod_mult in Hnz; lia).
        pose proof (Z.div_lt_upper_bound (sp_pos s) bs q ltac:(lia) ltac:(lia)). nia.
      * simpl. rewrite Hsk, length_drop. lia.
      * exists s', evs'. split; [exact E|]. by rewrite <-app_assoc, take_drop in Hs'.
  - destruct Hsv as (Ha & Hc & Hl & Hfb).
    assert (∃ s1 evs1, (if Z.of_nat (length (sp_buf s)) =? bs then write_block emit s (run σ evs) eof
       else (None, s, run σ evs)) = (None, s1, run σ evs1) ∧ saved s1 c evs1 ∧ sp_skip s1 = false
       ∧ Z.of_nat (length (sp_buf s1)) < bs ∧ sp_pos s1 = sp_pos s) as (s1 & evs1 & -> & Hs1 & Hsk1 & Hl1 & Hp1).
    { destruct (Z.eqb_spec (Z.of_nat (length (sp_buf s))) bs) as [Hfull|].
      - destruct (saved_write s c evs σ eof Hs Hsk Hfull) as (s1 & evs1 & E & Hs1 & ? & Hbuf & ?); [lia| |].
        { etransitivity; [|exact Hidx]. apply Z.div_le_mono; lia. }
        exists s1, evs1. rewrite Hbuf. do 3 (split; [done|]). split; [simpl; lia|done].
      - exists s, evs. do 3 (split; [done|]). split; [lia|done]. }
    destruct (saved_take s1 c evs1 data n Hs1 Hsk1 Hl1 Hmax) as [Hs2 Hn]; [by rewrite Hp1|].
    specialize (Hn Hne).
    edestruct (IH (drop n data)) as (s' & evs' & E & Hs'); [exact Hs2| | | |].
    + simpl. rewrite Hsk1, length_drop. lia.
    + by rewrite Hsum by lia.
    + by rewrite Hsum by lia.
    + exists s', evs'. split; [exact E|]. by rewrite <-app_assoc, take_drop in Hs'.
Qed.

(** The place of the [k]-th block. *)
Definition block_at (k : nat) (e : block_event) : Prop :=
  ev_bitIdx e = a0 / bs + Z.of_nat k
  ∧ ev_pos e = a0 + Z.of_nat k * bs + Z.of_nat (length (ev_buf e)).

Lemma full_blocks_lookup p evs k e :
  p mod bs = 0 → full_blocks bs p evs → evs !! k = Some e →
  ev_bitIdx e = p / bs + Z.of_nat k ∧ ev_pos e = p + Z.of_nat k * bs + Z.of_nat (length (ev_buf e))
  ∧ Z.of_nat (length (ev_buf e)) = bs.
Proof.
  revert p k; induction evs as [|x evs IH]; intros p k Hp; [done|].
  intros (H1 & H2 & H3 & H4). destruct k as [|k]; simpl.
  - intros [= ->]. rewrite H2, H3, H1. repeat split; lia.
  - intros Hk. apply (IH (p + bs)) in Hk as (-> & -> & ->); [|by rewrite <-Z.add_mod_idemp_r, Z_mod_same_full, Z.add_0_r by lia|done].
    replace (p + bs) with (p + 1 * bs) at 1 by lia. rewrite Z.div_add by lia. repeat split; lia.
Qed.

(** All blocks of a stream [c]: the buffers are its aligned chunks, at their
    places. *)
Definition blocks_of_stream (c : str) (evs : list block_event) : Prop :=
  map ev_buf evs = chunks_of (Z.to_nat bs) (drop (Z.to_nat (a0 - startAt)) c)
  ∧ ∀ k e, evs !! k = Some e → block_at k e.

Lemma cut_full n full lst fuel :
  (0 < n)%nat → Forall (λ x, length x = n) full → (length lst <= n)%nat →
  (length (concat full ++ lst) <= fuel)%nat →
  cut fuel n (concat full ++ lst) = full ++ (if decide (lst = []) then [] else [lst]).
Proof.
  intros Hn Hf Hl. revert fuel; induction Hf as [|x full Hx Hf IH]; intros fuel Hfu; simpl in *.
  - destruct fuel as [|fuel]; destruct lst as [|a l] eqn:El; try done; [simpl in Hfu; lia|].
    rewrite <-El in *. cbn [cut]. subst lst. rewrite take_ge, drop_ge by done.
    destruct fuel; done.
  - rewrite <-app_assoc in *. rewrite length_app in Hfu. destruct fuel as [|fuel]; [lia|].
    cbn [cut]. destruct (x ++ concat full ++ lst) eqn:E.
    { apply app_nil in E as [-> _]. simpl in Hx. lia. }
    rewrite <-E, <-Hx, take_app_length, drop_app_length. simpl. f_equal. rewrite Hx.
    apply IH. rewrite length_app in *. lia.
Qed.

(** The end of the stream: the rest of the buffer becomes the last block. *)
Lemma saved_finish s c evs σ :
  saved s c evs → startAt + Z.of_nat (length c) <= max_uint64 →
  (startAt + Z.of_nat (length c)) / bs <= max_uint32 →
  ∃ s' evs', write_block emit s (run σ evs) true = (None, s', run σ evs')
    ∧ blocks_of_stream c evs' ∧ sp_eof s' = true.
Proof.
  intros Hs Hmax Hidx. pose proof Hs as (Hb & Hp & Hsv). pose proof aligned_start_spec as [Ha0 Ham].
  unfold write_block. simpl. destruct (sp_skip s) eqn:Hsk.
  { destruct Hsv as (-> & -> & Hle). eexists _, []. split; [reflexivity|]. split; [|done].
    split; [|intros k e; by rewrite lookup_nil]. simpl. rewrite drop_ge by lia. done. }
  pose proof (saved_pos _ _ _ Hs Hsk) as Hpos. destruct Hsv as (Ha & Hc & Hl & Hfb).
  assert (chunks_of (Z.to_nat bs) (drop (Z.to_nat (a0 - startAt)) c) =
    map ev_buf evs ++ (if decide (sp_buf s = []) then [] else [sp_buf s])) as Hch.
  { rewrite <-Hc. unfold chunks_of. apply cut_full; [lia| |lia|done].
    apply Forall_map, Forall_lookup. intros k e Hk.
    apply (full_blocks_lookup a0) in Hk as (_ & _ & ?); [lia|done|done]. }
  assert (∀ k e, evs !! k = Some e → block_at k e) as Hat.
  { intros k e Hk. apply (full_blocks_lookup a0) in Hk as (? & ? & _); done. }
  destruct (sp_buf s) as [|x buf] eqn:Ebuf.
  { eexists _, evs. split; [reflexivity|]. split; [|done]. split; [|done]. rewrite Hch. simpl. by rewrite app_nil_r. }
  set (ev := block_of (set_eof s true) true). pose proof (emit_ok (run σ evs) ev) as Hok.
  destruct (emit (run σ evs) ev) as [err σ'] eqn:Eem. simpl in Hok. subst err.
  eexists _, (evs ++ [ev]). split.
  { f_equal. unfold run. rewrite fold_left_app. simpl. fold (run σ evs). by rewrite Eem. }
  split; [|done]. split.
  - rewrite map_app, Hch. simpl. unfold ev, block_of. simpl. by rewrite Ebuf.
  - intros k e. rewrite lookup_app. destruct (evs !! k) as [e'|] eqn:Ek; [intros [= ->]; auto|].
    intros Hk%list_lookup_singleton_Some. destruct Hk as [Hk <-]. apply lookup_ge_None in Ek.
    assert (k = length evs) as -> by lia. unfold block_at, ev, block_of. simpl. rewrite Ebuf.
    unfold_ints. rewrite Hb, u64_id by (unfold_ints; lia).
    replace (sp_pos s - Z.of_nat (length (x :: buf))) with (a0 + Z.of_nat (length evs) * bs) by lia.
    rewrite Z.div_add by lia. split; [|lia].
    assert (0 <= a0 / bs) by (apply Z.div_pos; lia).
    rewrite u32_id; [done|]. unfold_ints. split; [lia|].
    etransitivity; [|exact Hidx]. rewrite <-Z.div_add by lia. apply Z.div_le_mono; lia.
Qed.

Lemma flush_saved data s c evs σ :
  saved s c evs → startAt + Z.of_nat (length c) + Z.of_nat (length data) <= max_uint64 →
  (startAt + Z.of_nat (length c) + Z.of_nat (length data)) / bs <= max_uint32 →
  (∃ s' evs', flush emit data s (run σ evs) false = Some (None, s', run σ evs') ∧ saved s' (c ++ data) evs')
  ∧ (∃ s' evs', flush emit data s (run σ evs) true = Some (None, s', run σ evs')
       ∧ blocks_of_stream (c ++ data) evs' ∧ sp_eof s' = true).
Proof.
  intros Hs Hmax Hidx. unfold flush. destruct data as [|x data'] eqn:Ed.
  { rewrite app_nil_r in *. simpl in *. rewrite Z.add_0_r in *. split; [eauto|].
    destruct (saved_finish s c evs σ Hs Hmax Hidx) as (s' & evs' & -> & ?). eauto. }
  rewrite <-Ed in *. clear Ed x data'. pose proof Hs as (Hb & _).
  rewrite Hb. destruct (Z.eqb_spec bs 0); [lia|].
  assert (length data + (if sp_skip s then 1 else 0) < length data + 2)%nat as Hfu by (destruct (sp_skip s); lia).
  destruct (flush_loop_saved _ data s c evs σ false Hs Hfu Hmax Hidx) as (s1 & evs1 & -> & Hs1).
  destruct (flush_loop_saved _ data s c evs σ true Hs Hfu Hmax Hidx) as (s2 & evs2 & -> & Hs2).
  split; [eauto|].
  destruct (saved_finish s2 (c ++ data) evs2 σ Hs2) as (s' & evs' & -> & ?);
    [rewrite length_app; lia|rewrite length_app, Nat2Z.inj_add, Z.add_assoc; done|]. eauto.
Qed.

Lemma saved_start : saved (new_savepart bs startAt) [] [].
Proof.
  pose proof aligned_start_spec as [? Ham].
  split; [done|]. split; [simpl; lia|]. simpl. destruct (Z.gtb_spec startAt 0).
  - repeat split; try done. lia.
  - assert (startAt = 0) as -> by lia. unfold aligned_start. rewrite Z.mod_0_l by lia. simpl.
    repeat split; simpl; lia || done.
Qed.
End flush_lemmas.

(** ** The asynchronous reader *)

(** The queue length: 16 unless a positive one is given. *)
Definition queue_size (writeQueueSize : Z) : nat :=
  if writeQueueSize <=? 0 then 16%nat else Z.to_nat writeQueueSize.

(** [enqueueWrite] copies the buffer into a [writeJob]; it cannot fail. *)
Definition enqueue (jobs : list block_event) (j : block_event) : option ioerr * list block_event :=
  (None, jobs ++ [j]).

(** [flush] of the asynchronous reader: the same loop, with the blocks going to
    the channel.  It returns the jobs in the order of their sends. *)
Definition async_flush (data : str) (s : savepart) (eof : bool)
    : option (option ioerr * savepart * list block_event) := flush enqueue data s [] eof.

Section async.
Context {R : Type} `{Reader R} {Σ : Type}.
Variable onSuccess : Σ → block_event → option ioerr * Σ.
Variable onError : Σ → ioerr → Σ.
Variable onClose : option (Σ → bool → Σ).

(** The state shared by the reading goroutine and the writer goroutine.
    [as_pending] holds the jobs of the [Read] in progress that are not in the
    channel yet (the sends block when it is full).  [as_done], [as_read] and
    [as_eof] record what happened: the jobs processed, the bytes returned to the
    consumer, and whether [io.EOF] was returned. *)
Record savepartAsyncReader := mkAsync {
  as_R : R; as_st : savepart; as_pending : list block_event; as_queue : list block_event;
  as_chClosed : bool; as_writeErr : option ioerr; as_events : Σ; as_finished : bool;
  as_done : list block_event; as_read : str; as_eof : bool }.

Definition SavepartAsyncReader (r : R) (blockSize startAt : Z) (σ : Σ) : savepartAsyncReader :=
  mkAsync r (new_savepart blockSize startAt) [] [] false None σ false [] [] false.

(** [Read] up to its sends.  [None]: the call does not return, or panics. *)
Definition async_Read (fuel : nat) (a : savepartAsyncReader) (k : nat)
    : option (str * option ioerr * savepartAsyncReader) :=
  match as_writeErr a with
  | Some e => Some ([], Some e, a)
  | None =>
      match rd_read fuel (as_R a) k with
      | None => None
      | Some (b, Some EOF, r') =>
          match async_flush b (as_st a) true with
          | Some (_, st, jobs) =>
              Some (b, Some EOF, mkAsync r' st jobs (as_queue a) (as_chClosed a) (as_writeErr a)
                (as_events a) (as_finished a) (as_done a) (as_read a ++ b) true)
          | None => None
          end
      | Some (_, Some e, r') =>
          Some ([], Some e, mkAsync r' (as_st a) [] (as_queue a) (as_chClosed a) (as_writeErr a)
            (onError (as_events a) e) (as_finished a) (as_done a) (as_read a) (as_eof a))
      | Some (b, None, r') =>
          match async_flush b (as_st a) false with
          | Some (_, st, jobs) =>
              Some (b, None, mkAsync r' st jobs (as_queue a) (as_chClosed a) (as_writeErr a)
                (as_events a) (as_finished a) (as_done a) (as_read a ++ b) (as_eof a))
          | None => None
          end
      end
  end.

(** The writer goroutine takes one job: the callback, and on failure the first
    error is kept and reported. *)
Definition write_job (a : savepartAsyncReader) (j : block_event) (q : list block_event)
    : savepartAsyncReader :=
  let '(err, σ) := onSuccess (as_events a) j in
  let werr := match as_writeErr a with Some e => Some e | None => err end in
  let σ' := match err with Some e => onError σ e | None => σ end in
  mkAsync (as_R a) (as_st a) (as_pending a) q (as_chClosed a) werr σ' (as_finished a)
    (as_done a ++ [j]) (as_read a) (as_eof a).

(** The interleavings of the two goroutines.  The consumer calls [Read] until it
    gets [io.EOF] or an error, then [Close]; a call starts only when the
    previous one has sent all its jobs.  A call returns what it returns with all
    large enough fuel. *)
Inductive async_step (cap : nat) : savepartAsyncReader → savepartAsyncReader → Prop :=
| step_read fuel k a b e a' :
    as_pending a = [] → as_chClosed a = false → as_eof a = false → (0 < k)%nat →
    (∀ f, (fuel <= f)%nat → async_Read f a k = Some (b, e, a')) → async_step cap a a'
| step_send a j js :
    as_pending a = j :: js → (length (as_queue a) < cap)%nat →
    async_step cap a (mkAsync (as_R a) (as_st a) js (as_queue a ++ [j]) (as_chClosed a)
      (as_writeErr a) (as_events a) (as_finished a) (as_done a) (as_read a) (as_eof a))
| step_write a j q :
    as_queue a = j :: q → async_step cap a (write_job a j q)
| step_close a :
    as_pending a = [] → as_chClosed a = false →
    async_step cap a (mkAsync (as_R a) (set_closed (as_st a)) [] (as_queue a) true (as_writeErr a)
      (as_events a) (as_finished a) (as_done a) (as_read a) (as_eof a))
| step_finish a :
    (* [writeWg.Wait] returns: the channel is closed and drained *)
    as_chClosed a = true → as_queue a = [] → as_finished a = false →
    async_step cap a (mkAsync (as_R a) (as_st a) [] [] true (as_writeErr a)
      (match onClose with Some f => f (as_events a) (sp_eof (as_st a)) | None => as_events a end)
      true (as_done a) (as_read a) (as_eof a)).

Definition reachable (cap : nat) : savepartAsyncReader → savepartAsyncReader → Prop :=
  rtc (async_step cap).

(** After [io.EOF] the two goroutines can always go on until every job is
    written. *)
Lemma async_drains cap a :
  (0 < cap)%nat → ∃ a', reachable cap a a' ∧ as_pending a' = [] ∧ as_queue a' = []
    ∧ as_eof a' = as_eof a ∧ as_read a' = as_read a.
Proof.
  intros Hc. remember (2 * length (as_pending a) + length (as_queue a))%nat as m eqn:Em.
  revert a Em; induction (lt_wf m) as [m _ IH]; intros a Em.
  destruct (as_queue a) as [|j q] eqn:Eq.
  - destruct (as_pending a) as [|j js] eqn:Ep.
    { exists a. rewrite Ep, Eq. by split; [apply rtc_refl|]. }
    destruct (IH (2 * length js + 1)%nat ltac:(simpl in Em; lia)
      (mkAsync (as_R a) (as_st a) js (as_queue a ++ [j]) (as_chClosed a)
        (as_writeErr a) (as_events a) (as_finished a) (as_done a) (as_read a) (as_eof a)))
      as (a' & Hr & Hrest); [simpl; rewrite Eq; done|].
    exists a'. split; [|done]. eapply rtc_l; [|exact Hr].
    apply step_send; [done|]. rewrite Eq. done.
  - destruct (IH (2 * length (as_pending a) + length q)%nat ltac:(simpl in Em; lia) (write_job a j q))
      as (a' & Hr & Hp & Hq & He & Hread).
    { unfold write_job. by destruct (onSuccess (as_events a) j). }
    exists a'. split; [eapply rtc_l; [by apply step_write|exact Hr]|].
    rewrite He, Hread. unfold write_job. by destruct (onSuccess (as_events a) j).
Qed.
(** *** Invariant *)

Variables (bs startAt : Z) (D : str).
Hypothesis Hbs : 0 < bs <= max_uint32.
Hypothesis Hstart : 0 <= startAt.
Hypothesis Hmax : startAt + Z.of_nat (length D) <= max_uint64.
Hypothesis Hidx : (startAt + Z.of_nat (length D)) / bs <= max_uint32.

Definition all_jobs (a : savepartAsyncReader) : list block_event :=
  as_done a ++ as_queue a ++ as_pending a.

Definition async_inv (cap : nat) (a : savepartAsyncReader) : Prop :=
  (length (as_queue a) <= cap)%nat ∧ (as_chClosed a = true → as_pending a = []) ∧
  if as_eof a then as_read a = D ∧ blocks_of_stream bs startAt D (all_jobs a)
  else ∃ rest, as_read a ++ rest = D ∧ delivers (as_R a) rest EOF
       ∧ (as_chClosed a = false → saved bs startAt (as_st a) (as_read a) (all_jobs a)).

Lemma enqueue_ok (σ : list block_event) e : (enqueue σ e).1 = None.
Proof. done. Qed.

Lemma run_enqueue σ evs : run enqueue σ evs = σ ++ evs.
Proof.
  revert σ; induction evs as [|e evs IH]; intros σ; simpl; [by rewrite app_nil_r|].
  unfold run in *. simpl. rewrite IH. by rewrite <-app_assoc.
Qed.

Lemma write_block_frame s σ σ1 eof :
  write_block enqueue s (σ ++ σ1) eof =
    let '(e, s', σ2) := write_block enqueue s σ1 eof in (e, s', σ ++ σ2).
Proof. unfold write_block. destruct (sp_buf _); [done|]. simpl. by rewrite app_assoc. Qed.

Lemma flush_loop_frame fuel data s σ σ1 eof :
  flush_loop enqueue fuel data s (σ ++ σ1) eof =
    match flush_loop enqueue fuel data s σ1 eof with
    | Some (e, s', σ2) => Some (e, s', σ ++ σ2) | None => None end.
Proof.
  revert data s σ1; induction fuel as [|fuel IH]; intros data s σ1; [done|]. cbn [flush_loop].
  destruct data as [|x data]; [done|]. case_if; [case_if; apply IH|].
  case_if; [|apply IH]. rewrite write_block_frame.
  destruct (write_block enqueue s σ1 eof) as [[[e|] s'] σ2]; [done|]. apply IH.
Qed.

Lemma flush_frame data s σ eof :
  flush enqueue data s σ eof =
    match flush enqueue data s [] eof with
    | Some (e, s', jobs) => Some (e, s', σ ++ jobs) | None => None end.
Proof.
  unfold flush. destruct data as [|x data].
  - destruct eof; [|by rewrite app_nil_r].
    rewrite <-(app_nil_r σ) at 1. rewrite write_block_frame.
    by destruct (write_block enqueue s [] true) as [[??]?].
  - case_if; [done|]. rewrite <-(app_nil_r σ) at 1. rewrite flush_loop_frame.
    destruct (flush_loop enqueue _ _ _ [] _) as [[[[e|] s'] σ2]|]; [done| |done].
    destruct eof; [|done]. rewrite write_block_frame.
    by destruct (write_block enqueue s' σ2 true) as [[??]?].
Qed.

(** What [flush] adds to the jobs so far. *)
Lemma flush_enqueue data s c evs :
  saved bs startAt s c evs → startAt + Z.of_nat (length (c ++ data)) <= max_uint64 →
  (startAt + Z.of_nat (length (c ++ data))) / bs <= max_uint32 →
  (∃ s' jobs, flush enqueue data s [] false = Some (None, s', jobs)
     ∧ saved bs startAt s' (c ++ data) (evs ++ jobs))
  ∧ (∃ s' jobs, flush enqueue data s [] true = Some (None, s', jobs)
     ∧ blocks_of_stream bs startAt (c ++ data) (evs ++ jobs)).
Proof.
  intros Hs Hm Hi. rewrite length_app, Nat2Z.inj_add, Z.add_assoc in Hm, Hi.
  destruct (flush_saved enqueue enqueue_ok bs startAt Hbs Hstart data s c evs [] Hs Hm Hi)
    as [(s1 & evs1 & E1 & H1) (s2 & evs2 & E2 & H2 & _)].
  rewrite run_enqueue in E1, E2. simpl in E1, E2.
  split; [clear E2 H2|clear E1 H1].
  - rewrite flush_frame in E1.
    destruct (flush enqueue data s [] false) as [[[e s'] jobs]|]; [|done].
    injection E1 as -> -> E1. exists s1, jobs. split; [done|].
    rewrite run_enqueue in E1. simpl in E1. by rewrite E1.
  - rewrite flush_frame in E2.
    destruct (flush enqueue data s [] true) as [[[e s'] jobs]|]; [|done].
    injection E2 as -> -> E2. exists s2, jobs. split; [done|].
    rewrite run_enqueue in E2. simpl in E2. by rewrite E2.
Qed.

Lemma async_read_inv cap fuel k a b e a' :
  async_inv cap a → as_pending a = [] → as_chClosed a = false → as_eof a = false → (0 < k)%nat →
  (∀ f, (fuel <= f)%nat → async_Read f a k = Some (b, e, a')) → async_inv cap a'.
Proof.
  intros (Hq & _ & Hinv) Hp Hcl Heof Hk Hr. rewrite Heof in Hinv.
  destruct Hinv as (rest & HD & [[|n] Hd0] & Hsv); [done|]. specialize (Hsv Hcl).
  pose proof Hd0 as [_ Hd]. destruct (Hd k Hk) as (f0 & b' & err & r' & Hrd & Hl & Hpre & He).
  specialize (Hr (fuel + f0)%nat ltac:(lia)). unfold async_Read, async_flush in Hr.
  destruct (as_writeErr a) as [we|] eqn:Ewe.
  { simplify_eq. split; [done|]. split; [done|]. rewrite Heof. exists rest. split; [done|]. split; [|done].
    by exists (S n). }
  rewrite Hrd in Hr by lia.
  assert (as_read a ++ b' ++ drop (length b') rest = D) as HD'.
  { rewrite <-HD, Hpre at 1. by rewrite take_drop. }
  assert (length (as_read a ++ b') <= length D)%nat as Hlen.
  { rewrite <-HD', !length_app. lia. }
  destruct (flush_enqueue b' (as_st a) (as_read a) (all_jobs a) Hsv) as [(s1 & j1 & E1 & H1) (s2 & j2 & E2 & H2)].
  { lia. } { etransitivity; [|exact Hidx]. apply Z.div_le_mono; lia. }
  unfold all_jobs in H1, H2. rewrite Hp, app_nil_r, <-!app_assoc in H1, H2.
  destruct err as [e'|].
  - destruct He as (-> & -> & _). rewrite E2 in Hr. simplify_eq/=. split; [done|]. simpl. split; [congruence|].
    split; [done|]. by rewrite HD in H2.
  - rewrite E1 in Hr. simplify_eq/=. split; [done|]. simpl. split; [congruence|]. rewrite Heof.
    exists (drop (length b) rest). split; [by rewrite <-app_assoc|]. split; [by exists n|done].
Qed.

Lemma async_step_inv cap a a' : async_step cap a a' → async_inv cap a → async_inv cap a'.
Proof.
  destruct 1 as [fuel k a b e a' Hp Hcl Heof Hk Hr|a j js Hp Hc|a j q Hq|a Hp Hcl|a Hcl Hq Hf]; intros Hinv.
  - by eapply async_read_inv.
  - destruct Hinv as (Hl & Hc0 & Hinv). split; [simpl; rewrite length_app; simpl; lia|].
    split; [intros E; simpl in E; by rewrite Hp in Hc0; specialize (Hc0 E)|].
    unfold all_jobs in *. simpl. rewrite Hp in Hinv. by rewrite <-(app_assoc (as_queue a)).
  - destruct Hinv as (Hl & Hc0 & Hinv). unfold write_job. destruct (onSuccess (as_events a) j) as [err σ].
    split; [rewrite Hq in Hl; simpl in *; lia|]. split; [done|].
    unfold all_jobs in *. simpl. rewrite Hq in Hinv. by rewrite <-app_assoc.
  - destruct Hinv as (Hl & Hc0 & Hinv). split; [done|]. split; [done|].
    unfold all_jobs in *. simpl in *. rewrite Hp in Hinv.
    destruct (as_eof a); [done|]. destruct Hinv as (rest & ? & ? & _). by exists rest.
  - destruct Hinv as (Hl & Hc0 & Hinv). split; [simpl; lia|]. split; [done|].
    unfold all_jobs in *. simpl in *. rewrite Hq, Hc0 in Hinv by done.
    destruct (as_eof a); [done|]. destruct Hinv as (rest & ? & ? & _). by exists rest.
Qed.

Lemma async_start_inv cap (r : R) σ :
  delivers r D EOF → async_inv cap (SavepartAsyncReader r bs startAt σ).
Proof.
  intros Hd. split; [simpl; lia|]. split; [done|]. simpl. exists D. split; [done|]. split; [done|].
  intros _. by apply saved_start.
Qed.

Lemma async_reachable_inv cap (r : R) σ a :
  delivers r D EOF → reachable cap (SavepartAsyncReader r bs startAt σ) a → async_inv cap a.
Proof.
  intros Hd. revert a. apply rtc_ind_r; [by apply async_start_inv|].
  intros a a' _ Hs Ha. by eapply async_step_inv.
Qed.

End async.

(** When no callback fails, the callbacks' state is the effect of the jobs done. *)
Lemma async_events {R} `{Reader R} {Σ} (onSuccess : Σ → block_event → option ioerr * Σ)
    (onError : Σ → ioerr → Σ) (onClose : option (Σ → bool → Σ)) (r : R) (bs startAt : Z) (D : str)
    (σ : Σ) cap (a : savepartAsyncReader (R := R) (Σ := Σ)) :
  (∀ σ e, (onSuccess σ e).1 = None) → 0 < bs <= max_uint32 → 0 <= startAt →
  startAt + Z.of_nat (length D) <= max_uint64 → (startAt + Z.of_nat (length D)) / bs <= max_uint32 →
  delivers r D EOF →
  reachable onSuccess onError onClose cap (SavepartAsyncReader r bs startAt σ) a →
  as_finished a = false → as_events a = run onSuccess σ (as_done a).
Proof.
  intros Hok Hbs Hst Hm Hi Hd. revert a. refine (rtc_ind_r _ _ _ _); [done|].
  intros a a' Hr Hstep IH.
  pose proof (async_reachable_inv onSuccess onError onClose bs startAt D Hbs Hst Hm Hi cap r σ a Hd Hr) as Hinv.
  destruct Hstep as [fuel k a b e a' Hp Hcl Heof Hk Hread|a j js Hp Hc|a j q Hq|a Hp Hcl|a Hcl Hq Hf];
    simpl; try done.
  - destruct Hinv as (_ & _ & Hinv). rewrite Heof in Hinv.
    destruct Hinv as (rest & _ & [[|n] Hdl] & _); [done|]. destruct Hdl as [_ Hdl].
    destruct (Hdl k Hk) as (f0 & b' & err & r' & Hrd & _ & _ & He).
    specialize (Hread (fuel + f0)%nat ltac:(lia)). unfold async_Read, async_flush in Hread.
    destruct (as_writeErr a); [by simplify_eq|]. rewrite Hrd in Hread by lia.
    destruct err as [[]|].
    + destruct (flush _ _ _ _ true) as [[[??]?]|]; simplify_eq/=; done.
    + by destruct He.
    + destruct (flush _ _ _ _ false) as [[[??]?]|]; simplify_eq/=; done.
  - unfold write_job. destruct (onSuccess (as_events a) j) as [err σ'] eqn:E. simpl. intros Hf.
    pose proof (Hok (as_events a) j) as Ho. rewrite E in Ho. simpl in Ho. subst err.
    unfold run in *. rewrite fold_left_app. simpl. by rewrite <-IH, E.
Qed.

(** *** The synchronous reader on a whole stream *)

Section sync_lemmas.
Context {R : Type} `{Reader R} {Σ : Type}.
Variable onSuccess : Σ → block_event → option ioerr * Σ.
Variable onError : Σ → ioerr → Σ.
Hypothesis onSuccess_ok : ∀ σ e, (onSuccess σ e).1 = None.
Variables (bs startAt : Z) (D : str) (k : nat) (σ : Σ).
Hypothesis Hbs : 0 < bs <= max_uint32.
Hypothesis Hstart : 0 <= startAt.
Hypothesis Hmax : startAt + Z.of_nat (length D) <= max_uint64.
Hypothesis Hidx : (startAt + Z.of_nat (length D)) / bs <= max_uint32.
Hypothesis Hk : (0 < k)%nat.

Lemma sync_copy n (r : R) st c evs rest :
  delivers_in n r rest EOF → c ++ rest = D → saved bs startAt st c evs →
  ∃ f0 s' evs', (∀ f, (f0 <= f)%nat →
      copy_loop (sync_Read onSuccess onError) f k (mkSync r st (run onSuccess σ evs)) = Some (rest, None, s'))
    ∧ sr_events s' = run onSuccess σ evs' ∧ blocks_of_stream bs startAt D evs'
    ∧ sp_eof (sr_state s') = true.
Proof.
  revert r st c evs rest; induction n as [|n IH]; intros r st c evs rest; [done|].
  intros [_ Hd] HD Hs. destruct (Hd k Hk) as (f0 & b & err & r' & Hr & Hl & Hpre & He).
  assert (c ++ b ++ drop (length b) rest = D) as HD'.
  { rewrite <-HD, Hpre at 1. by rewrite take_drop. }
  assert (length c + length b <= length D)%nat as Hlen.
  { rewrite <-HD', !length_app. lia. }
  destruct (flush_saved onSuccess onSuccess_ok bs startAt Hbs Hstart b st c evs σ Hs)
    as [(s1 & evs1 & E1 & H1) (s2 & evs2 & E2 & H2 & Heof)]; [lia| |].
  { etransitivity; [|exact Hidx]. apply Z.div_le_mono; lia. }
  destruct err as [e'|].
  - destruct He as (-> & -> & _). exists (S f0), (mkSync r' s2 (run onSuccess σ evs2)), evs2.
    split; [|by rewrite HD in H2]. intros [|f] Hf; [lia|]. simpl. unfold sync_Read. simpl.
    rewrite Hr by lia. by rewrite E2.
  - destruct (IH r' s1 (c ++ b) evs1 (drop (length b) rest) He) as (f1 & s' & evs' & Hc & Hrest);
      [by rewrite <-app_assoc|done|].
    exists (S (f0 + f1)), s', evs'. split; [|done]. intros [|f] Hf; [lia|].
    simpl. unfold sync_Read at 1. simpl. rewrite Hr by lia. rewrite E1, Hc by lia.
    do 3 f_equal. rewrite Hpre at 1. by rewrite take_drop.
Qed.
End sync_lemmas.

(** ** Properties *)

(** [SavepartReader] hands the body on unchanged and calls [onSuccess] for
    exactly the aligned blocks of it, in order, whatever the sizes of the reads:
    the buffers are the body from the first block boundary on, cut into
    [blockSize] pieces (the last one possibly shorter), each with its block
    index and end position. *)
Theorem savepart_blocks_exact {R} `{Reader R} {Σ} (onSuccess : Σ → block_event → option ioerr * Σ)
    (onError : Σ → ioerr → Σ) (r : R) (bs startAt : Z) (D : str) (σ : Σ) (k : nat) :
  (∀ σ e, (onSuccess σ e).1 = None) → 0 < bs <= max_uint32 → 0 <= startAt →
  startAt + Z.of_nat (length D) <= max_uint64 → (startAt + Z.of_nat (length D)) / bs <= max_uint32 →
  (0 < k)%nat → delivers r D EOF →
  ∃ f0 s' evs, (∀ f, (f0 <= f)%nat →
      copy_loop (sync_Read onSuccess onError) f k (SavepartReader r bs startAt σ) = Some (D, None, s'))
    ∧ sr_events s' = run onSuccess σ evs ∧ blocks_of_stream bs startAt D evs
    ∧ sp_eof (sr_state s') = true.
Proof.
  intros Hok Hbs Hst Hm Hi Hk [n Hn].
  by apply (sync_copy onSuccess onError Hok bs startAt D k σ Hbs Hst Hm Hi Hk n r _ [] []);
    [|..|apply saved_start].
Qed.

Definition record_event (l : list block_event) (e : block_event) : option ioerr * list block_event :=
  (None, l ++ [e]).

Lemma savepart_blocks_exact_witness :
  ∃ f0 s' evs, (∀ f, (f0 <= f)%nat →
      copy_loop (sync_Read record_event (λ l _, l)) f 3 (SavepartReader (mkFile (bs "abcdefghij") 0) 4 2 [])
      = Some (bs "abcdefghij", None, s'))
    ∧ sr_events s' = run record_event [] evs ∧ blocks_of_stream 4 2 (bs "abcdefghij") evs
    ∧ sp_eof (sr_state s') = true.
Proof.
  apply (savepart_blocks_exact record_event (λ l _, l) (mkFile (bs "abcdefghij") 0) 4 2 (bs "abcdefghij") [] 3);
    [done|unfold max_uint32; lia|lia|vm_compute; congruence|vm_compute; congruence|lia|apply file_delivers].
Defined.

(** C10: the asynchronous reader does the same work under every interleaving of
    the reading and the writing goroutine, whether or not writes fail: at every
    moment the jobs written, queued and about to be sent are, in order, the
    blocks cut so far and the queue is within its capacity; once [io.EOF] was
    returned and the jobs are written, they are exactly the blocks of the body;
    and that state can always be reached. *)
Theorem async_savepart_refines {R} `{Reader R} {Σ} (onSuccess : Σ → block_event → option ioerr * Σ)
    (onError : Σ → ioerr → Σ) (onClose : option (Σ → bool → Σ)) (r : R) (bs startAt : Z) (D : str)
    (σ : Σ) (size : Z) (a : savepartAsyncReader (R := R) (Σ := Σ)) :
  0 < bs <= max_uint32 → 0 <= startAt →
  startAt + Z.of_nat (length D) <= max_uint64 → (startAt + Z.of_nat (length D)) / bs <= max_uint32 →
  delivers r D EOF →
  reachable onSuccess onError onClose (queue_size size) (SavepartAsyncReader r bs startAt σ) a →
  (length (as_queue a) <= queue_size size)%nat
  ∧ (as_eof a = true → as_read a = D ∧ blocks_of_stream bs startAt D (all_jobs a))
  ∧ (as_eof a = true → ∃ a', reachable onSuccess onError onClose (queue_size size) a a'
       ∧ blocks_of_stream bs startAt D (as_done a')).
Proof.
  intros Hbs Hst Hm Hi Hd Hr.
  assert (∀ a, reachable onSuccess onError onClose (queue_size size) (SavepartAsyncReader r bs startAt σ) a →
    async_inv bs startAt D (queue_size size) a) as Hall.
  { intros x. by apply (async_reachable_inv onSuccess onError onClose bs startAt D Hbs Hst Hm Hi). }
  pose proof (Hall a Hr) as (Hq & _ & Hinv). split; [done|]. split.
  - intros He. by rewrite He in Hinv.
  - intros He. destruct (async_drains onSuccess onError onClose (queue_size size) a) as (a' & Hr' & Hp & Hq' & He' & _).
    { unfold queue_size. case_if; lia. }
    exists a'. split; [done|]. destruct (Hall a') as (_ & _ & Hinv'); [exact (rtc_trans _ a _ Hr Hr')|].
    rewrite He', He in Hinv'. destruct Hinv' as [_ Hb]. unfold all_jobs in Hb.
    by rewrite Hp, Hq', !app_nil_r in Hb.
Qed.

(** A run: the whole body in one read, its first block sent, then [io.EOF]. *)
Definition sample_read_state (a : savepartAsyncReader (R := memfile) (Σ := unit)) :=
  match async_Read (λ u _, u) 0 a 10 with Some (_, _, a') => a' | None => a end.
Definition sample_a0 := SavepartAsyncReader (mkFile (bs "abc") 0) 2 0 tt.
Definition sample_a1 := Eval vm_compute in sample_read_state sample_a0.
Definition sample_a2 := Eval vm_compute in
  mkAsync (as_R sample_a1) (as_st sample_a1) [] (as_pending sample_a1) false None tt false []
    (as_read sample_a1) false.
Definition sample_a3 := Eval vm_compute in sample_read_state sample_a2.

Lemma sample_run :
  reachable (λ u _, (None, u)) (λ u _, u) None (queue_size 8) sample_a0 sample_a3.
Proof.
  eapply rtc_l; [apply (step_read _ _ _ _ 0 10 sample_a0 (bs "abc") None sample_a1);
    [done|done|done|lia|intros f _; vm_compute; reflexivity]|].
  eapply rtc_l; [apply (step_send _ _ _ _ sample_a1 (mkEvent (bs "ab") 0 2 false) []); [done|vm_compute; lia]|].
  eapply rtc_l; [|apply rtc_refl].
  apply (step_read _ _ _ _ 0 10 sample_a2 [] (Some EOF) sample_a3);
    [done|done|done|lia|intros f _; vm_compute; reflexivity].
Qed.

Lemma async_savepart_refines_witness :
  (length (as_queue sample_a3) <= queue_size 8)%nat
  ∧ (as_eof sample_a3 = true → as_read sample_a3 = bs "abc" ∧ blocks_of_stream 2 0 (bs "abc") (all_jobs sample_a3))
  ∧ (as_eof sample_a3 = true → ∃ a', reachable (λ u _, (None, u)) (λ u _, u) None (queue_size 8) sample_a3 a'
       ∧ blocks_of_stream 2 0 (bs "abc") (as_done a')).
Proof.
  apply (async_savepart_refines (λ u _, (None, u)) (λ u _, u) None (mkFile (bs "abc") 0) 2 0 (bs "abc") tt 8);
    [unfold max_uint32; lia|lia|vm_compute; congruence|vm_compute; congruence|apply file_delivers|exact sample_run].
Defined.
