(* ===== verification/FillPath.v ===== *)
(** * Writing chunks: [flushbufferSlice] of server/middleware/caching/caching.go

    The callbacks that the saving reader calls for every block of an upstream
    response: [writerBuffer] stores the block as a chunk file, marks it in the
    bitmap and writes the index; [writerCloser] finishes.  The bucket appears as
    its effect on the object: the chunk files by index (a file is renamed into
    place when its writer is closed, whatever was written to it) and the stored
    metadata.

    Proved: saving a response stores every whole chunk it contains, with the
    right bytes, and keeps the store consistent, for every read schedule; the
    exception is a trailing partial block, which replaces the chunk file by an
    empty one. *)

From S2P Require Import Prelude GoStrings Headers Blocks IoReader Object Savepart.

Section fill.
Context {B : Type} `{BitmapLaws B}.

(** The object's part of the bucket and of the [Caching] value. *)
Record fill_state := mkFill {
  fs_md : Metadata B;            (* c.md *)
  fs_files : gmap Z str;         (* chunk files of the object *)
  fs_index : option (Metadata B); (* the metadata in the index *)
  fs_completed : list Z          (* chunk counts of the published CacheCompleted events *)
}.

(** The outcome of the file operations of the bucket. *)
Variable open_err : Z → option ioerr.    (* WriteChunkFile *)
Variable write_err : Z → option ioerr.   (* f.Write, of all bytes *)
Variable in_memory : bool.               (* c.bucket.Type() == TypeInMemory *)
Variable AsyncFlushChunk : bool.
Variable ObjSize : Z.                    (* respRange.ObjSize *)

Definition chunked : bool := ObjSize <=? 0.

Definition endPart (bsize : Z) : Z :=
  let epart := u32 (ObjSize / bsize) in
  if ObjSize mod bsize >? 0 then u32 (epart + 1) else epart.

Definition md_set_size (m : Metadata B) (size : Z) (h : header) : Metadata B :=
  mkMetadata (md_Flags m) (md_ID m) (md_BlockSize m) (md_Chunks m) (md_Parts m) (md_Code m) size
    (md_RespUnix m) (md_LastRefUnix m) (md_Refs m) (md_ExpiresAt m) h (md_VirtualKey m).

Definition md_set_chunks (m : Metadata B) (chunks : B) : Metadata B :=
  mkMetadata (md_Flags m) (md_ID m) (md_BlockSize m) chunks (md_Parts m) (md_Code m) (md_Size m)
    (md_RespUnix m) (md_LastRefUnix m) (md_Refs m) (md_ExpiresAt m) (md_Headers m) (md_VirtualKey m).

(** The deferred part: closing renames the file into place; a complete object
    is published. *)
Definition close_chunk (s : fill_state) (index : Z) (written : str) (eof : bool) : fill_state :=
  let files := <[index := written]> (fs_files s) in
  let count := bm_count (md_Chunks (fs_md s)) in
  let published :=
    if eof && (endPart (md_BlockSize (fs_md s)) =? u32 count) && negb in_memory
    then fs_completed s ++ [count] else fs_completed s in
  mkFill (fs_md s) files (fs_index s) published.

(** The block is not a whole chunk and does not end the object. *)
Definition incomplete (s : fill_state) (e : block_event) : bool :=
  negb chunked && (negb (Z.of_nat (length (ev_buf e)) =? md_BlockSize (fs_md s))
                   && negb (ev_pos e =? ObjSize)).

Definition writerBuffer (s : fill_state) (e : block_event) : option ioerr * fill_state :=
  let index := ev_bitIdx e in
  match open_err index with
  | Some err => (Some err, s)
  | None =>
      let s :=
        if chunked then
          let md := fs_md s in
          mkFill (md_set_size md (ev_pos e)
                    (header_set (bs "Content-Length") (format_int (ev_pos e)) (md_Headers md)))
            (fs_files s) (fs_index s) (fs_completed s)
        else s in
      if incomplete s e then (None, close_chunk s index [] (ev_eof e))
      else match write_err index with
      | Some err => (Some err, close_chunk s index [] (ev_eof e))
      | None =>
          let md := md_set_chunks (fs_md s) (bm_set index (md_Chunks (fs_md s))) in
          let stored := if AsyncFlushChunk then fs_index s else Some md in
          (None, close_chunk (mkFill md (fs_files s) stored (fs_completed s)) index (ev_buf e) (ev_eof e))
      end
  end.

(** [bucket.Discard]: the index entry goes, and the files of the chunks it
    listed. *)
Definition discard_object (s : fill_state) : fill_state :=
  match fs_index s with
  | None => s
  | Some m =>
      mkFill (fs_md s) (fold_left (λ f i, delete i f) (bm_range (md_Chunks m)) (fs_files s)) None
        (fs_completed s)
  end.

Definition writerCloser (s : fill_state) (eof : bool) : fill_state :=
  if negb eof && chunked then discard_object s
  else if AsyncFlushChunk then mkFill (fs_md s) (fs_files s) (Some (fs_md s)) (fs_completed s)
  else s.

(** The error callback. *)
Definition flushFailed (s : fill_state) (err : ioerr) : fill_state := discard_object s.
End fill.

(** ** Consistency *)

(** The bytes of chunk [i] of an object. *)
Definition chunk_data (data : str) (bsize i : Z) : str :=
  slice data (i * bsize) (Z.min ((i + 1) * bsize) (Z.of_nat (length data))).

(** Every marked chunk has its file, with the right bytes; [but] is left out. *)
Definition consistent {B} `{BitmapOps B} (data : str) (but : Z → Prop) (s : fill_state (B := B)) : Prop :=
  ∀ i, 0 <= i → bm_contains i (md_Chunks (fs_md s)) = true → ¬ but i →
    fs_files s !! i = Some (chunk_data data (md_BlockSize (fs_md s)) i).

Lemma cut_lookup fuel n data k x :
  (0 < n)%nat → (length data <= fuel)%nat → cut fuel n data !! k = Some x →
  x = slice data (Z.of_nat k * Z.of_nat n) (Z.min ((Z.of_nat k + 1) * Z.of_nat n) (Z.of_nat (length data)))
  ∧ Z.of_nat k * Z.of_nat n < Z.of_nat (length data).
Proof.
  intros Hn. revert data k; induction fuel as [|fuel IH]; intros data k Hf; [done|]. simpl.
  destruct data as [|a d] eqn:Ed; [done|]. rewrite <-Ed in *.
  assert (0 < length data)%nat by (rewrite Ed; simpl; lia). clear Ed a d.
  destruct k as [|k].
  - intros [= <-]. simpl. rewrite !Z.mul_1_l. split; [|lia]. unfold slice. rewrite drop_0.
    destruct (decide (n <= length data)%nat); [f_equal; lia|]. rewrite !take_ge; lia || done.
  - intros Hk. apply IH in Hk as [-> Hlt]; [|rewrite length_drop; lia].
    rewrite length_drop in *. split; [|nia]. unfold slice. rewrite drop_drop.
    f_equal; [nia|]. f_equal. nia.
Qed.

Lemma cut_complete fuel n data k :
  (0 < n)%nat → (length data <= fuel)%nat → (k * n < length data)%nat → is_Some (cut fuel n data !! k).
Proof.
  intros Hn. revert data k; induction fuel as [|fuel IH]; intros data k Hf Hk; [lia|]. simpl.
  destruct data as [|a d] eqn:Ed; [simpl in *; lia|]. rewrite <-Ed in *. clear Ed a d.
  destruct k as [|k]; [by eexists|]. apply IH; rewrite length_drop; nia.
Qed.

Section save.
Context {B : Type} `{BitmapLaws B}.
Variables (data : str) (bsize startAt stop : Z) (in_memory AsyncFlushChunk : bool).
Hypothesis Hb : 0 < bsize <= max_uint32.
Hypothesis Hrange : 0 <= startAt <= stop.
Hypothesis Hstop : stop < Z.of_nat (length data).

Local Abbreviation size := (Z.of_nat (length data)).
Local Abbreviation a0 := (aligned_start bsize startAt).
Local Abbreviation body := (slice data startAt (stop + 1)).
Local Abbreviation no_err := (λ _ : Z, None : option ioerr).
Local Abbreviation write := (writerBuffer (B := B) no_err no_err in_memory AsyncFlushChunk size).

(** The chunk lies inside the response to its end. *)
Definition whole (i : Z) : Prop := Z.min ((i + 1) * bsize) size <= stop + 1.

(** A block of the response. *)
Definition response_block (e : block_event) : Prop :=
  let i := ev_bitIdx e in
  0 <= i ∧ a0 <= i * bsize <= stop
  ∧ ev_buf e = slice data (i * bsize) (Z.min ((i + 1) * bsize) (stop + 1))
  ∧ ev_pos e = Z.min ((i + 1) * bsize) (stop + 1).

Lemma stream_blocks evs k e :
  blocks_of_stream bsize startAt body evs → evs !! k = Some e →
  response_block e ∧ ev_bitIdx e = a0 / bsize + Z.of_nat k.
Proof.
  intros [Hbuf Hat] Hk. destruct (Hat k e Hk) as [Hi Hp].
  destruct (aligned_start_spec bsize startAt Hb) as [Ha0 Ham].
  assert (chunks_of (Z.to_nat bsize) (drop (Z.to_nat (a0 - startAt)) body) !! k = Some (ev_buf e)) as Hc.
  { rewrite <-Hbuf, list_lookup_fmap, Hk. done. }
  rewrite slice_drop in Hc by lia. replace (startAt + (a0 - startAt)) with a0 in Hc by lia.
  unfold chunks_of in Hc. destruct (decide (a0 <= stop)) as [Hle|Hgt].
  2: { unfold slice in Hc. replace (Z.to_nat (stop + 1 - a0)) with 0%nat in Hc by lia. done. }
  apply cut_lookup in Hc as [Hbe Hlt]; [|lia|lia].
  rewrite Z2Nat.id, slice_length in * by lia.
  apply Z.mod_divide in Ham as [q Hq]; [|lia].
  assert (a0 / bsize = q) as Hd by (rewrite Hq; apply Z.div_mul; lia).
  assert (ev_bitIdx e * bsize = a0 + Z.of_nat k * bsize) as Hib by (rewrite Hi, Hd, Hq; ring).
  assert (ev_buf e = slice data (ev_bitIdx e * bsize) (Z.min ((ev_bitIdx e + 1) * bsize) (stop + 1))) as Hev.
  { rewrite Hbe, slice_slice by nia. f_equal; nia. }
  split; [|done]. unfold response_block. split; [nia|]. split; [nia|]. split; [done|].
  rewrite Hp, Hev, slice_length by nia. nia.
Qed.

Lemma write_ok s e : (write s e).1 = None.
Proof. unfold writerBuffer. by destruct (incomplete _ _ _). Qed.

(** One block. *)
Lemma write_block_effect s e :
  response_block e → md_BlockSize (fs_md s) = bsize →
  let s' := (write s e).2 in
  md_BlockSize (fs_md s') = bsize
  ∧ (whole (ev_bitIdx e) →
       fs_files s' = <[ev_bitIdx e := chunk_data data bsize (ev_bitIdx e)]> (fs_files s)
       ∧ md_Chunks (fs_md s') = bm_set (ev_bitIdx e) (md_Chunks (fs_md s)))
  ∧ (¬ whole (ev_bitIdx e) →
       fs_files s' = <[ev_bitIdx e := []]> (fs_files s) ∧ md_Chunks (fs_md s') = md_Chunks (fs_md s)).
Proof.
  intros (Hi & Hib & Hbuf & Hpos) Hbs. unfold writerBuffer, whole.
  assert (chunked size = false) as Hch by (unfold chunked; apply Z.leb_gt; lia).
  rewrite Hch. cbv zeta. unfold incomplete. rewrite Hch, Hbs, Hbuf, slice_length by nia. simpl.
  unfold chunk_data. destruct (Z.eqb_spec (Z.min ((ev_bitIdx e + 1) * bsize) (stop + 1) - ev_bitIdx e * bsize) bsize)
    as [Hf|Hf]; [|destruct (Z.eqb_spec (ev_pos e) size) as [Hz|Hz]]; simpl.
  - split; [done|]. split; [intros _|lia]. split; [|done]. do 2 f_equal. lia.
  - split; [done|]. split; [intros _|lia]. split; [|done]. do 2 f_equal. lia.
  - split; [done|]. split; [lia|done].
Qed.

(** All blocks: what the store holds afterwards. *)
Lemma run_blocks evs s :
  Forall response_block evs → md_BlockSize (fs_md s) = bsize →
  let s' := run write s evs in
  md_BlockSize (fs_md s') = bsize
  ∧ (∀ i, 0 <= i → bm_contains i (md_Chunks (fs_md s')) = true ↔
       bm_contains i (md_Chunks (fs_md s)) = true ∨ whole i ∧ ∃ e, e ∈ evs ∧ ev_bitIdx e = i)
  ∧ (∀ i, fs_files s' !! i =
       if decide (i ∈ map ev_bitIdx evs)
       then Some (if decide (whole i) then chunk_data data bsize i else [])
       else fs_files s !! i).
Proof.
  intros He. revert s; induction He as [|e evs He Hevs IH]; intros s Hbs.
  { simpl. split; [done|]. split; [|done]. intros i Hi. split; [by left|].
    by intros [?|(_ & e & []%elem_of_nil & _)]. }
  destruct (write_block_effect s e He Hbs) as (Hbs1 & Hw & Hnw).
  destruct (IH _ Hbs1) as (Hbs2 & Hc & Hf). cbv zeta. unfold run in *. simpl.
  split; [done|]. split.
  - intros i Hi. rewrite Hc by done. destruct He as (Hei & _).
    destruct (decide (whole (ev_bitIdx e))) as [Hwe|Hwe].
    + destruct (Hw Hwe) as [_ ->]. rewrite contains_set, orb_true_iff, Z.eqb_eq by done.
      split.
      * intros [[<-|?]|(? & e' & ? & ?)]; [right|by left|right].
        -- split; [done|]. exists e. split; [by left|done].
        -- split; [done|]. exists e'. split; [by right|done].
      * intros [?|(? & e' & [->|?]%elem_of_cons & <-)]; [by left; right|by left; left|right; eauto].
    + destruct (Hnw Hwe) as [_ ->]. split.
      * intros [?|(? & e' & ? & ?)]; [by left|right]. split; [done|]. exists e'. split; [by right|done].
      * intros [?|(? & e' & [->|?]%elem_of_cons & <-)]; [by left|done|right; eauto].
  - intros i. rewrite Hf. simpl. destruct (decide (i ∈ map ev_bitIdx evs)) as [Hin|Hni].
    + rewrite (decide_True (P := i ∈ ev_bitIdx e :: map ev_bitIdx evs)) by (by right). done.
    + destruct (decide (i = ev_bitIdx e)) as [->|Hne].
      * rewrite (decide_True (P := ev_bitIdx e ∈ ev_bitIdx e :: map ev_bitIdx evs)) by (by left).
        destruct (decide (whole (ev_bitIdx e))) as [Hwe|Hwe];
          [destruct (Hw Hwe) as [-> _]|destruct (Hnw Hwe) as [-> _]]; by rewrite lookup_insert_eq.
      * rewrite (decide_False (P := i ∈ ev_bitIdx e :: map ev_bitIdx evs)) by (by intros [?|?]%elem_of_cons).
        destruct (decide (whole (ev_bitIdx e))) as [Hwe|Hwe];
          [destruct (Hw Hwe) as [-> _]|destruct (Hnw Hwe) as [-> _]]; by rewrite lookup_insert_ne.
Qed.

(** Every chunk of the response from the first boundary on is a block. *)
Lemma block_exists evs i :
  blocks_of_stream bsize startAt body evs → a0 <= i * bsize <= stop →
  ∃ e, e ∈ evs ∧ ev_bitIdx e = i.
Proof.
  intros Hb0 Hi. pose proof Hb0 as [Hbuf Hat].
  destruct (aligned_start_spec bsize startAt Hb) as [Ha0 Ham].
  apply Z.mod_divide in Ham as [q Hq]; [|lia].
  assert (a0 / bsize = q) as Hd by (rewrite Hq; apply Z.div_mul; lia).
  set (k := Z.to_nat (i - q)).
  destruct (cut_complete (length (slice data a0 (stop + 1))) (Z.to_nat bsize) (slice data a0 (stop + 1)) k)
    as [x Hx]; [lia|lia| |].
  { apply Nat2Z.inj_lt. rewrite slice_length by lia. rewrite Nat2Z.inj_mul, Z2Nat.id by lia. unfold k. nia. }
  replace (slice data a0 (stop + 1)) with (drop (Z.to_nat (a0 - startAt)) body) in Hx.
  2: { rewrite slice_drop by lia. f_equal. lia. }
  change (cut _ (Z.to_nat bsize) (drop (Z.to_nat (a0 - startAt)) body))
    with (chunks_of (Z.to_nat bsize) (drop (Z.to_nat (a0 - startAt)) body)) in Hx.
  rewrite <-Hbuf, list_lookup_fmap in Hx. apply fmap_Some in Hx as (e & He & _).
  exists e. split; [by eapply list_elem_of_lookup_2|].
  destruct (Hat k e He) as [Hidx _]. rewrite Hidx. change (aligned_start bsize startAt) with a0. unfold k. nia.
Qed.

Lemma blocks_response evs : blocks_of_stream bsize startAt body evs → Forall response_block evs.
Proof.
  intros Hb0. apply Forall_lookup. intros k e Hk. by destruct (stream_blocks evs k e Hb0 Hk).
Qed.

(** The chunk in which the response ends before the chunk does. *)
Definition partial (i : Z) : Prop := a0 <= i * bsize <= stop ∧ ¬ whole i.

Lemma saved_store evs s :
  blocks_of_stream bsize startAt body evs → md_BlockSize (fs_md s) = bsize →
  consistent data (λ _, False) s →
  let s' := run write s evs in
  consistent data partial s'
  ∧ (∀ i, 0 <= i → bm_contains i (md_Chunks (fs_md s')) = true ↔
       bm_contains i (md_Chunks (fs_md s)) = true ∨ a0 <= i * bsize <= stop ∧ whole i)
  ∧ (∀ i, a0 <= i * bsize <= stop → whole i → fs_files s' !! i = Some (chunk_data data bsize i))
  ∧ (∀ i, partial i → fs_files s' !! i = Some [])
  ∧ (∀ i, ¬ a0 <= i * bsize <= stop → fs_files s' !! i = fs_files s !! i).
Proof.
  intros Hb0 Hbs Hcons s'. destruct (run_blocks evs s (blocks_response evs Hb0) Hbs) as (Hbs' & Hc & Hf).
  fold s' in Hbs', Hc, Hf.
  destruct (aligned_start_spec bsize startAt Hb) as [Ha0 _].
  assert (∀ i, a0 <= i * bsize <= stop → i ∈ map ev_bitIdx evs) as Hin.
  { intros i Hi. destruct (block_exists evs i Hb0 Hi) as (e & He & <-).
    apply list_elem_of_fmap. eauto. }
  assert (∀ i, i ∈ map ev_bitIdx evs → a0 <= i * bsize <= stop) as Hin'.
  { intros i (e & -> & He)%list_elem_of_fmap. pose proof (blocks_response evs Hb0) as Hr.
    rewrite Forall_forall in Hr. by destruct (Hr e He) as (_ & ? & _). }
  split_and!.
  - intros i Hi Hci Hnp. rewrite Hf, Hbs'. destruct (decide (i ∈ map ev_bitIdx evs)) as [Hm|Hm].
    + rewrite decide_True; [done|]. apply Hin' in Hm.
      destruct (decide (whole i)); [done|]. by exfalso; apply Hnp.
    + apply Hc in Hci as [Hci|(_ & e & He & <-)]; [|by exfalso; apply Hm, list_elem_of_fmap; eauto|done].
      rewrite (Hcons i Hi Hci) by tauto. by rewrite Hbs.
  - intros i Hi. rewrite Hc by done. split; (intros [?|H']; [by left|right]).
    + destruct H' as (Hw & e & He & <-). split; [|done]. apply Hin', list_elem_of_fmap; eauto.
    + destruct H' as [Hr Hw]. split; [done|]. by apply block_exists.
  - intros i Hi Hw. by rewrite Hf, decide_True, decide_True by auto.
  - intros i [Hi Hw]. by rewrite Hf, decide_True, decide_False by auto.
  - intros i Hi. rewrite Hf, decide_False; [done|]. intros Hm. by apply Hi, Hin'.
Qed.
End save.

(** The saving reader at its end: everything was read, and the state is what the
    blocks of the response leave, written in their order. *)
Lemma saved_run {B} `{BitmapLaws B} {R} `{Reader R} (data : str) (bsize startAt stop : Z)
    (in_memory AsyncFlushChunk : bool) (onClose : option (fill_state (B := B) → bool → fill_state))
    (r : R) (s0 : fill_state (B := B)) (qsize : Z)
    (a : savepartAsyncReader (R := R) (Σ := fill_state)) :
  0 < bsize <= max_uint32 → 0 <= startAt <= stop → stop < Z.of_nat (length data) →
  Z.of_nat (length data) <= max_int64 → (stop + 1) / bsize <= max_uint32 →
  delivers r (slice data startAt (stop + 1)) EOF →
  reachable (writerBuffer (λ _, None) (λ _, None) in_memory AsyncFlushChunk (Z.of_nat (length data)))
    flushFailed onClose (queue_size qsize) (SavepartAsyncReader r bsize startAt s0) a →
  as_eof a = true → as_queue a = [] → as_pending a = [] → as_finished a = false →
  as_read a = slice data startAt (stop + 1)
  ∧ blocks_of_stream bsize startAt (slice data startAt (stop + 1)) (as_done a)
  ∧ as_events a = run (writerBuffer (λ _, None) (λ _, None) in_memory AsyncFlushChunk (Z.of_nat (length data))) s0 (as_done a).
Proof.
  intros Hb Hr Hs Hmax Hidx Hd Hreach Heof Hq Hp Hfin.
  assert (startAt + Z.of_nat (length (slice data startAt (stop + 1))) = stop + 1) as Hlen
    by (rewrite slice_length; lia).
  assert (∀ σ e, (writerBuffer (B := B) (λ _, None) (λ _, None) in_memory AsyncFlushChunk
            (Z.of_nat (length data)) σ e).1 = None) as Hok by (intros; apply write_ok).
  pose proof (async_reachable_inv _ _ _ bsize startAt (slice data startAt (stop + 1)) Hb ltac:(lia)
    ltac:(rewrite Hlen; unfold_ints; lia) ltac:(rewrite Hlen; done) _ r s0 a Hd Hreach) as (_ & _ & Hinv).
  rewrite Heof in Hinv. destruct Hinv as [Hread Hblocks]. unfold all_jobs in Hblocks.
  rewrite Hq, Hp, !app_nil_r in Hblocks. split; [done|]. split; [done|].
  exact (async_events _ _ _ r bsize startAt (slice data startAt (stop + 1)) s0 _ a Hok Hb ltac:(lia)
    ltac:(rewrite Hlen; unfold_ints; lia) ltac:(rewrite Hlen; done) Hd Hreach Hfin).
Qed.

(** ** Properties *)

(** C2: saving an upstream response to the cache is correct under every read
    schedule and interleaving: when the asynchronous reader has returned
    [io.EOF] and its queue is empty, the consumer got exactly the response; the marked
    chunks are those that were marked before and those that lie in the response from
    its first block boundary to their own end, and no other; each of the latter has its
    exact bytes on disk, a chunk in which the response ends early has an empty file, and
    no other file changed.  So every marked chunk, old or new, has its exact
    bytes, but for one in which the response ends early. *)
Theorem response_saved {B} `{BitmapLaws B} {R} `{Reader R} (data : str) (bsize startAt stop : Z)
    (in_memory AsyncFlushChunk : bool) (onClose : option (fill_state (B := B) → bool → fill_state))
    (r : R) (s0 : fill_state (B := B)) (qsize : Z)
    (a : savepartAsyncReader (R := R) (Σ := fill_state)) :
  0 < bsize <= max_uint32 → 0 <= startAt <= stop → stop < Z.of_nat (length data) →
  Z.of_nat (length data) <= max_int64 → (stop + 1) / bsize <= max_uint32 →
  md_BlockSize (fs_md s0) = bsize → consistent data (λ _, False) s0 →
  delivers r (slice data startAt (stop + 1)) EOF →
  reachable (writerBuffer (λ _, None) (λ _, None) in_memory AsyncFlushChunk (Z.of_nat (length data)))
    flushFailed onClose (queue_size qsize) (SavepartAsyncReader r bsize startAt s0) a →
  as_eof a = true → as_queue a = [] → as_pending a = [] → as_finished a = false →
  as_read a = slice data startAt (stop + 1)
  ∧ consistent data (partial data bsize startAt stop) (as_events a)
  ∧ (∀ i, 0 <= i → bm_contains i (md_Chunks (fs_md (as_events a))) = true ↔
       bm_contains i (md_Chunks (fs_md s0)) = true ∨ aligned_start bsize startAt <= i * bsize <= stop ∧ whole data bsize stop i)
  ∧ (∀ i, aligned_start bsize startAt <= i * bsize <= stop → whole data bsize stop i →
       fs_files (as_events a) !! i = Some (chunk_data data bsize i))
  ∧ (∀ i, partial data bsize startAt stop i → fs_files (as_events a) !! i = Some [])
  ∧ (∀ i, ¬ aligned_start bsize startAt <= i * bsize <= stop → fs_files (as_events a) !! i = fs_files s0 !! i).
Proof.
  intros Hb Hr Hs Hmax Hidx Hbs Hcons Hd Hreach Heof Hq Hp Hfin.
  destruct (saved_run data bsize startAt stop in_memory AsyncFlushChunk onClose r s0 qsize a) as (Hread & Hblocks & ->); try done.
  split; [done|]. exact (saved_store data bsize startAt stop in_memory AsyncFlushChunk Hb Hr Hs (as_done a) s0 Hblocks Hbs Hcons).
Qed.

(** a response that ends inside a chunk destroys that chunk: its file is
    replaced by an empty one while the bitmap still marks the chunk present. *)
Theorem partial_block_clobbers {B} `{BitmapLaws B} (data : str) (bsize startAt stop i : Z)
    (in_memory AsyncFlushChunk : bool) (evs : list block_event) (s0 : fill_state (B := B)) :
  0 < bsize <= max_uint32 → 0 <= startAt <= stop → stop < Z.of_nat (length data) →
  md_BlockSize (fs_md s0) = bsize → consistent data (λ _, False) s0 →
  blocks_of_stream bsize startAt (slice data startAt (stop + 1)) evs →
  bm_contains i (md_Chunks (fs_md s0)) = true → partial data bsize startAt stop i →
  let s' := run (writerBuffer (λ _, None) (λ _, None) in_memory AsyncFlushChunk (Z.of_nat (length data))) s0 evs in
  bm_contains i (md_Chunks (fs_md s')) = true ∧ fs_files s' !! i = Some []
  ∧ fs_files s0 !! i = Some (chunk_data data bsize i) ∧ chunk_data data bsize i ≠ [].
Proof.
  intros Hb Hr Hs Hbs Hcons Hblocks Hc Hp s'.
  destruct (aligned_start_spec bsize startAt Hb) as [Ha0 _].
  destruct (saved_store data bsize startAt stop in_memory AsyncFlushChunk Hb Hr Hs evs s0 Hblocks Hbs Hcons)
    as (_ & Hmark & _ & Hpart & _). pose proof (Hpart i Hp) as Hf. fold s' in Hf, Hmark.
  destruct Hp as [Hi Hw]. split; [apply Hmark; [nia|by left]|]. split; [done|]. split.
  - rewrite Hcons; [by rewrite Hbs|nia|done|tauto].
  - intros E. apply (f_equal length), (f_equal Z.of_nat) in E. unfold chunk_data in E.
    rewrite slice_length in E by nia. simpl in E. nia.
Qed.

(** *** Examples: an object of 10 bytes in chunks of 4 *)

Definition sample_object : str := bs "0123456789".

Definition sample_fill (chunks : N) (files : gmap Z str) : fill_state (B := N) :=
  mkFill (mkMetadata FlagCache (NewID (bs "http://a/x")) 4 chunks 0%N 200 10 0 0 0 0 ∅ []) files None [].

(** The bytes 2..9 arrive in one read; both jobs are sent and written. *)
Definition sample_step_read (a : savepartAsyncReader (R := memfile) (Σ := fill_state (B := N))) :=
  match async_Read flushFailed 0 a 10 with Some (_, _, a') => a' | None => a end.
Definition sample_send (a : savepartAsyncReader (R := memfile) (Σ := fill_state (B := N))) :=
  mkAsync (as_R a) (as_st a) [] (as_queue a ++ as_pending a) (as_chClosed a) (as_writeErr a) (as_events a)
    (as_finished a) (as_done a) (as_read a) (as_eof a).
Definition sample_write (a : savepartAsyncReader (R := memfile) (Σ := fill_state (B := N))) :=
  match as_queue a with
  | j :: q => write_job (writerBuffer (λ _, None) (λ _, None) false false 10) flushFailed a j q
  | [] => a
  end.

Definition fill_a0 := SavepartAsyncReader (mkFile (bs "23456789") 0) 4 2 (sample_fill 0%N ∅).
Definition fill_a1 := sample_send (sample_step_read fill_a0).
Definition fill_a2 := sample_send (sample_step_read fill_a1).
Definition fill_a3 := sample_write (sample_write fill_a2).

Lemma fill_run :
  reachable (writerBuffer (λ _, None) (λ _, None) false false 10) flushFailed None (queue_size 8) fill_a0 fill_a3.
Proof.
  eapply rtc_l; [apply (step_read _ _ _ _ 0 10 fill_a0 (bs "23456789") None (sample_step_read fill_a0));
    [reflexivity|reflexivity|reflexivity|lia|intros f _; reflexivity]|].
  eapply rtc_l; [eapply (step_send _ _ _ _ (sample_step_read fill_a0)); [reflexivity|vm_compute; lia]|].
  eapply rtc_l; [apply (step_read _ _ _ _ 0 10 fill_a1 [] (Some EOF) (sample_step_read fill_a1));
    [reflexivity|reflexivity|reflexivity|lia|intros f _; reflexivity]|].
  eapply rtc_l; [eapply (step_send _ _ _ _ (sample_step_read fill_a1)); [reflexivity|vm_compute; lia]|].
  eapply rtc_l; [apply (step_write _ _ _ _ fill_a2); reflexivity|].
  eapply rtc_l; [apply (step_write _ _ _ _ (sample_write fill_a2)); reflexivity|].
  apply rtc_refl.
Qed.

Lemma sample_fill_consistent : consistent sample_object (λ _, False) (sample_fill 0%N ∅).
Proof. intros i Hi Hc. simpl in Hc. by rewrite andb_false_r in Hc. Qed.

Lemma response_saved_witness :
  as_read fill_a3 = slice sample_object 2 (9 + 1)
  ∧ consistent sample_object (partial sample_object 4 2 9) (as_events fill_a3)
  ∧ (∀ i, 0 <= i → bm_contains i (md_Chunks (fs_md (as_events fill_a3))) = true ↔
       bm_contains i (md_Chunks (fs_md (sample_fill 0%N ∅))) = true ∨ aligned_start 4 2 <= i * 4 <= 9 ∧ whole sample_object 4 9 i)
  ∧ (∀ i, aligned_start 4 2 <= i * 4 <= 9 → whole sample_object 4 9 i →
       fs_files (as_events fill_a3) !! i = Some (chunk_data sample_object 4 i))
  ∧ (∀ i, partial sample_object 4 2 9 i → fs_files (as_events fill_a3) !! i = Some [])
  ∧ (∀ i, ¬ aligned_start 4 2 <= i * 4 <= 9 → fs_files (as_events fill_a3) !! i = fs_files (sample_fill 0%N ∅) !! i).
Proof.
  apply (response_saved sample_object 4 2 9 false false None (mkFile (bs "23456789") 0)
           (sample_fill 0%N ∅) 8 fill_a3);
    [unfold max_uint32; lia|lia|simpl; lia|vm_compute; congruence|vm_compute; congruence|reflexivity
    |exact sample_fill_consistent|apply file_delivers|exact fill_run|vm_compute; reflexivity..].
Defined.

Definition sample_events : list block_event :=
  [mkEvent (bs "0123") 0 4 false; mkEvent (bs "45") 1 6 true].

Lemma partial_block_clobbers_witness :
  let s0 := sample_fill 2%N {[1 := bs "4567"]} in
  let s' := run (writerBuffer (λ _, None) (λ _, None) false false 10) s0 sample_events in
  bm_contains 1 (md_Chunks (fs_md s')) = true ∧ fs_files s' !! 1 = Some []
  ∧ fs_files s0 !! 1 = Some (chunk_data sample_object 4 1) ∧ chunk_data sample_object 4 1 ≠ [].
Proof.
  apply (partial_block_clobbers sample_object 4 0 5 1 false false sample_events
           (sample_fill 2%N {[1 := bs "4567"]})).
  - unfold max_uint32; lia.
  - lia.
  - simpl; lia.
  - reflexivity.
  - intros i Hi Hc _. assert (i ∈ bm_range 2%N) as Hin by by apply range_elem.
    vm_compute in Hin. apply list_elem_of_singleton in Hin as ->. vm_compute. reflexivity.
  - split; [vm_compute; reflexivity|]. intros [|[|k]] e; simpl; intros; simplify_eq; split; vm_compute; reflexivity.
  - vm_compute. reflexivity.
  - split; [vm_compute; split; congruence|]. unfold whole. vm_compute. congruence.
Defined.
