(* ===== verification/Cycle.v ===== *)
(** * A fetched object is served from the cache

    [FillPath] says what the saving reader leaves of a response, [HitPath] what a
    hit makes of chunk files and metadata.  This file puts them together: the chunk files that
    the saving of a whole response wrote are the ones a later hit reads, under the
    metadata that is in the index.  A chunk file is read as a file over its bytes.

    Proved: after a whole object was fetched, every request for it or for a range of
    it is a hit with exactly its bytes, and the origin is not asked again. *)

From S2P Require Import Prelude GoStrings Headers HttpRange Blocks IoReader Object HitPath Savepart FillPath.

(** ** The files of the object *)

Section files.
Context {B : Type} `{BitmapLaws B}.

Definition stored_read (s : fill_state (B := B)) (i : Z) : result open_error memfile :=
  match fs_files s !! i with Some d => Ok (mkFile d 0) | None => Err NotExist end.
Definition stored_stat (f : memfile) : option Z := Some (Z.of_nat (length (f_data f))).

(** *** All blocks of a whole object *)

(** What the writing of a block keeps of the metadata. *)
Definition same_object (m m' : Metadata B) : Prop :=
  md_Size m' = md_Size m ∧ md_BlockSize m' = md_BlockSize m ∧ md_Headers m' = md_Headers m ∧ md_Code m' = md_Code m
  ∧ md_ID m' = md_ID m ∧ md_Flags m' = md_Flags m ∧ md_ExpiresAt m' = md_ExpiresAt m.

Section whole.
Variables (data : str) (bsize : Z) (in_memory : bool).
Hypothesis Hb : 0 < bsize <= max_uint32.
Hypothesis Hd : data ≠ [].
Local Abbreviation size := (Z.of_nat (length data)).
Local Abbreviation write := (writerBuffer (B := B) (λ _, None) (λ _, None) in_memory false size).

Lemma size_pos : 0 < size.
Proof. destruct data; [done|cbn [length]; lia]. Qed.

Lemma aligned_zero : aligned_start bsize 0 = 0.
Proof.
  destruct (aligned_start_spec bsize 0 Hb) as [Hr Hm]. rewrite Z.mod_small in Hm; lia.
Qed.

Lemma all_whole i : FillPath.whole data bsize (size - 1) i.
Proof. unfold FillPath.whole. lia. Qed.

(** The last block leaves its metadata in the index. *)
Lemma write_index s e : response_block data bsize 0 (size - 1) e → md_BlockSize (fs_md s) = bsize →
  same_object (fs_md s) (fs_md (write s e).2) ∧ fs_index (write s e).2 = Some (fs_md (write s e).2).
Proof.
  pose proof size_pos as Hsz. intros (Hi & Hib & Hbuf & Hpos) Hbs. rewrite aligned_zero in Hib. unfold writerBuffer.
  assert (chunked size = false) as Hch by (unfold chunked; apply Z.leb_gt; lia). rewrite Hch.
  assert (incomplete size s e = false) as ->; [|done].
  unfold incomplete. rewrite Hch. cbn [negb andb]. rewrite Hbs, Hbuf, slice_length, Hpos by nia.
  apply andb_false_iff. rewrite !negb_false_iff, !Z.eqb_eq. lia.
Qed.

Lemma run_index evs : ∀ s, Forall (response_block data bsize 0 (size - 1)) evs → md_BlockSize (fs_md s) = bsize → evs ≠ [] →
  same_object (fs_md s) (fs_md (run write s evs)) ∧ fs_index (run write s evs) = Some (fs_md (run write s evs)).
Proof.
  induction evs as [|e evs IH]; intros s Hf Hbs Hne; [done|]. apply Forall_cons in Hf as [He Hf].
  destruct (write_index s e He Hbs) as [Hs1 Hi1]. change (run write s (e :: evs)) with (run write (write s e).2 evs).
  destruct (decide (evs = [])) as [->|Hn]; [done|].
  destruct (IH (write s e).2 Hf) as [Hs2 Hi2]; [by destruct Hs1 as (_ & -> & _)|done|]. split; [|done].
  unfold same_object in *. intuition congruence.
Qed.

(** A new object that was written completely: every chunk is there, with its bytes, and
    nothing else. *)
Lemma whole_saved evs s : blocks_of_stream bsize 0 data evs → md_BlockSize (fs_md s) = bsize → fs_files s = ∅ →
  let s' := run write s evs in
  (∀ i, 0 <= i * bsize < size → bm_contains i (md_Chunks (fs_md s')) = true ∧ fs_files s' !! i = Some (chunk_data data bsize i))
  ∧ (∀ i d, fs_files s' !! i = Some d → d = chunk_data data bsize i ∧ 0 <= i * bsize < size)
  ∧ same_object (fs_md s) (fs_md s') ∧ fs_index s' = Some (fs_md s').
Proof.
  pose proof size_pos as Hsz. intros Hbl Hbs Hfs s'.
  assert (slice data 0 (size - 1 + 1) = data) as Hsl.
  { unfold slice. rewrite drop_0. apply take_ge. lia. }
  assert (blocks_of_stream bsize 0 (slice data 0 (size - 1 + 1)) evs) as Hbl' by (by rewrite Hsl).
  pose proof (blocks_response data bsize 0 (size - 1) Hb ltac:(lia) ltac:(lia) evs Hbl') as Hresp.
  destruct (run_blocks data bsize 0 (size - 1) in_memory false Hb ltac:(lia) evs s Hresp Hbs) as (_ & Hc & Hf). fold s' in Hc, Hf.
  assert (∀ i, 0 <= i * bsize < size → ∃ e, e ∈ evs ∧ ev_bitIdx e = i) as Hex.
  { intros i Hi. apply (block_exists data bsize 0 (size - 1) Hb ltac:(lia) ltac:(lia) evs i Hbl'). rewrite aligned_zero. lia. }
  split_and!.
  - intros i Hi. destruct (Hex i Hi) as (e & He & Hei). split.
    + apply Hc; [nia|]. right. split; [apply all_whole|]. by exists e.
    + rewrite Hf, decide_True by (apply list_elem_of_fmap; by exists e). rewrite decide_True by apply all_whole. done.
  - intros i d. rewrite Hf, Hfs. case_decide as Hm; [|by rewrite lookup_empty]. rewrite decide_True by apply all_whole.
    intros [= <-]. split; [done|]. apply list_elem_of_fmap in Hm as (e & -> & He). rewrite Forall_forall in Hresp.
    destruct (Hresp e He) as (_ & Hr & _). rewrite aligned_zero in Hr. lia.
  - apply run_index; [done|done|]. destruct (Hex 0 ltac:(lia)) as (e & He & _). intros ->. by apply elem_of_nil in He.
  - apply run_index; [done|done|]. destruct (Hex 0 ltac:(lia)) as (e & He & _). intros ->. by apply elem_of_nil in He.
Qed.
End whole.
End files.

(** ** Hits that need no origin *)

Section no_origin.
Context {B : Type} `{BitmapLaws B} {A : Type} `{Reader A}.
Context (ReadChunkFile : Z → result open_error A) (stat_size : A → option Z) (SliceSize : Z) (md : Metadata B) (rawRange : str).

(** The chunk is on disk with the right size. *)
Definition present (i : Z) : Prop := ∃ f, ReadChunkFile i = Ok f ∧ checkChunkSize stat_size SliceSize md f i = None.

Lemma contents_present up l i idx : l !! i = Some idx → present idx →
  ∃ f, getContents ReadChunkFile stat_size up SliceSize md rawRange l i = Some (Content (inl f) 1).
Proof.
  intros Hl (f & Hf & Hc). exists f. unfold getContents. rewrite Hl.
  destruct (last l) as [z|] eqn:El; [|apply last_None in El; by subst]. unfold getSliceChunkFile. by rewrite Hf, Hc.
Qed.

Lemma loop_present up up' l start stop off : Forall present l → ∀ fuel i readers,
  respond_loop ReadChunkFile stat_size up SliceSize md rawRange fuel l start stop off i readers
  = respond_loop ReadChunkFile stat_size up' SliceSize md rawRange fuel l start stop off i readers.
Proof.
  intros Hp fuel. induction fuel as [|fuel IH]; intros i readers; [done|]. cbn [respond_loop].
  destruct (Nat.ltb_spec i (length l)) as [Hi|_]; [|done].
  destruct (lookup_lt_is_Some_2 l i Hi) as [idx Hidx]. rewrite Forall_forall in Hp.
  pose proof (Hp idx (list_elem_of_lookup_2 _ _ _ Hidx)) as (f & Hf & Hc).
  assert (∀ u, getContents ReadChunkFile stat_size u SliceSize md rawRange l i = Some (Content (inl f) 1)) as Hget.
  { intros u. unfold getContents. rewrite Hidx. destruct (last l) as [z|] eqn:El; [|apply last_None in El; by subst].
    unfold getSliceChunkFile. by rewrite Hf, Hc. }
  rewrite !Hget. case_if; [done|]. apply IH.
Qed.

Lemma respond_present up up' isHead start stop :
  (∀ l, Build (u64 start) (u64 stop) (md_BlockSize md) = Some l → Forall present l) →
  lazilyRespond ReadChunkFile stat_size up SliceSize md rawRange isHead start stop
  = lazilyRespond ReadChunkFile stat_size up' SliceSize md rawRange isHead start stop.
Proof.
  intros Hp. unfold lazilyRespond. destruct (Build _ _ _) as [l|]; [|done]. destruct isHead; [done|].
  by rewrite (loop_present up up' l start stop _ (Hp l eq_refl)).
Qed.
End no_origin.

(** ** The cycle *)

Section cycle.
Context {B : Type} `{BitmapLaws B}.
Variables (data : str) (s : fill_state (B := B)) (SliceSize : Z).
Local Abbreviation md := (fs_md s).
Local Abbreviation BS := (md_BlockSize md).
Local Abbreviation size := (Z.of_nat (length data)).

(** All chunks of the object are there, with their bytes, and nothing else. *)
Hypothesis Hsize : md_Size md = size.
Hypothesis Hblock : 0 < BS <= max_uint32.
Hypothesis Hsmall : 0 < size <= max_uint32.
Hypothesis Hall : ∀ i, 0 <= i * BS < size → bm_contains i (md_Chunks md) = true ∧ fs_files s !! i = Some (chunk_data data BS i).
Hypothesis Honly : ∀ i d, fs_files s !! i = Some d → d = chunk_data data BS i ∧ 0 <= i * BS < size.

Definition honest (from to : Z) : result cache_error memfile := Ok (mkFile (slice data from (to + 1)) 0).

Lemma stored_consistent : ConsistentStore (stored_read s) stored_stat honest SliceSize md data.
Proof.
  split; [done|done| |].
  - intros i f _ Hf _. unfold stored_read in Hf. destruct (fs_files s !! i) as [d|] eqn:Ed; [|done]. injection Hf as <-.
    destruct (Honly i d Ed) as [-> _]. rewrite Hsize. apply file_stream.
  - intros from to r _ _ [= <-]. apply file_stream.
Qed.

Lemma stored_present i : 0 <= i * BS < size → present (stored_read s) stored_stat SliceSize md i.
Proof.
  intros Hi. exists (mkFile (chunk_data data BS i) 0). destruct (Hall i Hi) as [_ Hf]. split; [unfold stored_read; by rewrite Hf|].
  unfold checkChunkSize, stored_stat, part_size. cbn [f_data]. rewrite (proj2 (Z.gtb_gt BS 0)) by lia.
  unfold chunk_data. rewrite slice_length, Hsize by nia.
  pose proof (Z.div_mod size BS ltac:(lia)) as Hdm. pose proof (Z.mod_pos_bound size BS ltac:(lia)) as Hmb.
  assert (0 <= size / BS <= max_uint32) as Hq.
  { split; [apply Z.div_pos; lia|]. apply Z.div_le_upper_bound; [lia|]. unfold_ints. nia. }
  rewrite (u32_id (size / BS)) by (unfold_ints; lia). unfold max_uint32 in *.
  assert (i <= size / BS) as Hle by (apply Z.div_le_lower_bound; lia).
  destruct (Z.eqb_spec i (size / BS)) as [->|Hne].
  - rewrite i64_id by (unfold_ints; lia). rewrite (proj2 (Z.eqb_eq _ _)); [done|]. nia.
  - rewrite i64_id by (unfold_ints; lia). rewrite (proj2 (Z.eqb_eq _ _)); [done|]. nia.
Qed.

Lemma stored_sound : ¬ store_fault (stored_read s) stored_stat honest SliceSize md.
Proof.
  intros [(i & e & He & Hn)|[(from & to & e & He)|(i & f & e & Hf & Hc)]]; [|done|].
  - unfold stored_read in He. destruct (fs_files s !! i); [done|]. by injection He as <-.
  - unfold stored_read in Hf. destruct (fs_files s !! i) as [d|] eqn:Ed; [|done]. injection Hf as <-.
    destruct (Honly i d Ed) as [-> Hi]. destruct (stored_present i Hi) as (f & Hf & Hc').
    unfold stored_read in Hf. rewrite Ed in Hf. injection Hf as <-. congruence.
Qed.

(** A request for a complete object, whatever the origin would do. *)
Lemma complete_hit up rawRange c : ∃ f0, ∀ fuel, (f0 <= fuel)%nat →
  ∃ res c', respondFromCache (stored_read s) stored_stat up SliceSize md rawRange fuel false c = Some (res, c') ∧
  match SingleParse rawRange size with
  | Err _ => res = Err ERangeNotSatisfiable
  | Ok rng => ∃ resp b, res = Ok resp ∧ resp_Body resp = Some b ∧ delivers b (slice data (r_Start rng) (r_End rng + 1)) EOF
      ∧ header_get (bs "Content-Length") (resp_Header resp) = format_int (r_End rng - r_Start rng + 1)
      ∧ (cf_migration c = false → cf_cacheStatus c' = CacheHit)
  end.
Proof.
  unfold respondFromCache. cbv zeta. rewrite Hsize. destruct (SingleParse rawRange size) as [[start stop]|e] eqn:Hr.
  2: { exists 0%nat. intros fuel _. eauto. }
  destruct (SingleParse_in rawRange size (mkRange start stop)) as [Hse Hlt]; [unfold_ints; lia|done|]. cbn [r_Start r_End] in *.
  pose proof stored_consistent as Hcs. assert (SingleParse rawRange (md_Size md) = Ok (mkRange start stop)) as Hr' by (by rewrite Hsize).
  assert (stop < md_Size md) as Hlt' by (by rewrite Hsize). assert (md_Size md <= max_uint32) as Hsm by (rewrite Hsize; lia).
  exists (hit_fuel (start / BS) (stop / BS)). intros fuel Hf.
  destruct (markCacheStatus_returns (stored_read s) stored_stat honest SliceSize md data rawRange start stop Hr' Hse Hlt' Hsm
    (mkFlags CacheHit (cf_migration c)) fuel Hf) as (c' & -> & Hst).
  rewrite (respond_present (stored_read s) stored_stat SliceSize md rawRange up honest).
  2: { unfold max_uint32 in *. rewrite !u64_id by (unfold_ints; lia). rewrite Build_span; [| lia|lia|].
       - intros l [= <-]. apply Forall_forall. intros i Hi%elem_of_seqZ. apply stored_present.
         pose proof (Z.div_pos start BS). pose proof (Z.mul_div_le stop BS ltac:(lia)). nia.
       - apply Z.div_le_upper_bound; [lia|]. unfold_ints. nia. }
  pose proof (lazilyRespond_good (stored_read s) stored_stat honest SliceSize md data rawRange start stop Hr' Hse Hlt' Hsm) as Hl.
  destruct (lazilyRespond _ _ _ _ _ _ _ _ _) as [[resp|e]|]; [|by destruct (stored_sound Hl)|done].
  exists (Ok resp), c'. split; [done|]. destruct Hl as (b & Hb & Hd & _ & Hh). exists resp, b. split_and!; [done|done|done| |].
  - rewrite Hh, Content_Length_header, (i64_id (stop - start)), i64_id by (unfold_ints; lia). done.
  - intros Hm. apply Hst. split; [done|]. intros i Hi. apply Hall.
    pose proof (Z.div_pos start BS). pose proof (Z.mul_div_le stop BS ltac:(lia)). nia.
Qed.
End cycle.

(** C3: An object that was fetched once is served from the cache.  Let the whole
    object arrive in any pieces through the saving reader into an empty place of
    the bucket, and the reader end with all blocks written.  Then the client got the
    object; the index holds its metadata with every chunk marked; and every later
    request for it, with any Range header, is answered (416 if the header selects
    nothing) with exactly the requested bytes and their length, as a hit, whatever
    the origin would answer by then: it is not asked. *)
Theorem fetched_then_hit {B} `{BitmapLaws B} {R} `{Reader R} (data : str) (bsize : Z) (in_memory : bool)
    (onClose : option (fill_state (B := B) → bool → fill_state)) (r : R) (s0 : fill_state (B := B)) (qsize : Z)
    (a : savepartAsyncReader (R := R) (Σ := fill_state)) (SliceSize : Z) :
  0 < bsize <= max_uint32 → data ≠ [] → Z.of_nat (length data) <= max_uint32 →
  md_BlockSize (fs_md s0) = bsize → md_Size (fs_md s0) = Z.of_nat (length data) → fs_files s0 = ∅ →
  delivers r data EOF →
  reachable (writerBuffer (λ _, None) (λ _, None) in_memory false (Z.of_nat (length data)))
    flushFailed onClose (queue_size qsize) (SavepartAsyncReader r bsize 0 s0) a →
  as_eof a = true → as_queue a = [] → as_pending a = [] → as_finished a = false →
  let s := as_events a in
  as_read a = data ∧ fs_index s = Some (fs_md s) ∧ same_object (fs_md s0) (fs_md s)
  ∧ ∀ up rawRange c, ∃ f0, ∀ fuel, (f0 <= fuel)%nat →
    ∃ res c', respondFromCache (stored_read s) stored_stat up SliceSize (fs_md s) rawRange fuel false c = Some (res, c') ∧
    match SingleParse rawRange (Z.of_nat (length data)) with
    | Err _ => res = Err ERangeNotSatisfiable
    | Ok rng => ∃ resp b, res = Ok resp ∧ resp_Body resp = Some b ∧ delivers b (slice data (r_Start rng) (r_End rng + 1)) EOF
        ∧ header_get (bs "Content-Length") (resp_Header resp) = format_int (r_End rng - r_Start rng + 1)
        ∧ (cf_migration c = false → cf_cacheStatus c' = CacheHit)
    end.
Proof.
  intros Hb Hd Hmax Hbs Hsz Hfs Hdel Hreach Heof Hq Hp Hfin s. pose proof (size_pos data Hd) as Hpos.
  assert (slice data 0 (Z.of_nat (length data) - 1 + 1) = data) as Hsl by (unfold slice; rewrite drop_0; apply take_ge; lia).
  assert ((Z.of_nat (length data) - 1 + 1) / bsize <= max_uint32) as Hq32 by (apply Z.div_le_upper_bound; unfold_ints; nia).
  destruct (saved_run data bsize 0 (Z.of_nat (length data) - 1) in_memory false onClose r s0 qsize a) as (Hread & Hbl & Hev);
    try done; try lia; [unfold_ints; lia|by rewrite Hsl|].
  rewrite Hsl in Hread, Hbl. pose proof (whole_saved data bsize in_memory Hb Hd (as_done a) s0 Hbl Hbs Hfs) as Hw.
  cbv zeta in Hw. rewrite <-Hev in Hw. fold s in Hw. destruct Hw as (Hall & Honly & Hsame & Hidx).
  split; [done|]. split; [done|]. split; [done|]. intros up rawRange c. destruct Hsame as (Hs1 & Hs2 & _).
  apply complete_hit; rewrite ?Hs1, ?Hs2, ?Hsz, ?Hbs; try done.
Qed.

(** *** Example: an object of 10 bytes in chunks of 4 *)

Definition cycle_a0 := SavepartAsyncReader (mkFile sample_object 0) 4 0 (sample_fill 0%N ∅).
Definition cycle_a1 := sample_step_read cycle_a0.
Definition cycle_a2 := sample_send cycle_a1.
Definition cycle_a3 := sample_send (sample_step_read cycle_a2).
Definition cycle_a4 := sample_write (sample_write (sample_write cycle_a3)).

Lemma cycle_run :
  reachable (writerBuffer (λ _, None) (λ _, None) false false 10) flushFailed None (queue_size 8) cycle_a0 cycle_a4.
Proof.
  eapply rtc_l; [apply (step_read _ _ _ _ 0 10 cycle_a0 sample_object None cycle_a1);
    [reflexivity|reflexivity|reflexivity|lia|intros f _; reflexivity]|].
  eapply rtc_l; [eapply (step_send _ _ _ _ cycle_a1); [reflexivity|vm_compute; lia]|].
  eapply rtc_l; [eapply step_send; [reflexivity|vm_compute; lia]|].
  eapply rtc_l; [apply (step_read _ _ _ _ 0 10 cycle_a2 [] (Some EOF) (sample_step_read cycle_a2));
    [reflexivity|reflexivity|reflexivity|lia|intros f _; reflexivity]|].
  eapply rtc_l; [eapply (step_send _ _ _ _ (sample_step_read cycle_a2)); [reflexivity|vm_compute; lia]|].
  eapply rtc_l; [apply (step_write _ _ _ _ cycle_a3); reflexivity|].
  eapply rtc_l; [apply (step_write _ _ _ _ (sample_write cycle_a3)); reflexivity|].
  eapply rtc_l; [apply (step_write _ _ _ _ (sample_write (sample_write cycle_a3))); reflexivity|].
  apply rtc_refl.
Qed.

(** The bytes 3 to 6, over a chunk boundary, from an origin that is gone. *)
Lemma fetched_then_hit_witness :
  as_read cycle_a4 = sample_object ∧ fs_index (as_events cycle_a4) = Some (fs_md (as_events cycle_a4))
  ∧ ∃ f0, ∀ fuel, (f0 <= fuel)%nat → ∃ resp b c',
    respondFromCache (stored_read (as_events cycle_a4)) stored_stat (λ _ _, Err (EUpstream 502)) 4 (fs_md (as_events cycle_a4))
      (bs "bytes=3-6") fuel false (mkFlags CacheMiss false) = Some (Ok resp, c')
    ∧ resp_Body resp = Some b ∧ delivers b (bs "3456") EOF
    ∧ header_get (bs "Content-Length") (resp_Header resp) = bs "4" ∧ cf_cacheStatus c' = CacheHit.
Proof.
  destruct (fetched_then_hit sample_object 4 false None (mkFile sample_object 0) (sample_fill 0%N ∅) 8 cycle_a4 4)
    as (Hread & Hidx & _ & Hhit);
    [unfold max_uint32; lia|discriminate|vm_compute; congruence|reflexivity|reflexivity|reflexivity|apply file_delivers
    |exact cycle_run|vm_compute; reflexivity..|].
  split; [exact Hread|]. split; [exact Hidx|].
  destruct (Hhit (λ _ _, Err (EUpstream 502)) (bs "bytes=3-6") (mkFlags CacheMiss false)) as (f0 & Hf0).
  assert (SingleParse (bs "bytes=3-6") (Z.of_nat (length sample_object)) = Ok (mkRange 3 6)) as Hp by (vm_compute; reflexivity).
  exists f0. intros fuel Hf. destruct (Hf0 fuel Hf) as (res & c' & Hres & Hm). rewrite Hp in Hm.
  destruct Hm as (resp & b & -> & Hb & Hdel & Hlen & Hst). exists resp, b, c'.
  split; [exact Hres|]. split; [exact Hb|]. split; [exact Hdel|]. split; [exact Hlen|]. exact (Hst eq_refl).
Defined.
