(* ===== verification/Verifier.v ===== *)
(** * The verifier plugin: plugin/verifier and the event bus

    A complete object is published on the bus (api/defined/v1/event); the plugin
    samples the objects by a checksum of their key, sums up the chunk files and
    reports the sum to a service.

    CRC-32 and the paths of chunks are computed; the digest of xxhash, a file read
    and the answer of the service are parameters.

    Proved: the files that are read are the chunk files of the object in order, so
    the sum is the digest of the object; the announced chunk size never matters;
    which objects are reported for which ratio; who gets what is published. *)

From S2P Require Import Prelude GoStrings Headers Blocks Object IoReader Savepart FillPath.

Local Open Scope Z_scope.

(** ** The event bus *)

(** A topic has its listeners once a publisher has made it; an emitted payload
    goes to every listener. *)
Section event.
Context {H : Type}.

Definition subscribers : Type := gmap str (list H).

Definition NewPublish (topic : str) (m : subscribers) : subscribers :=
  match m !! topic with Some _ => m | None => <[topic := []]> m end.

(** [None]: the topic is not there, an error. *)
Definition Subscribe (topic : str) (handler : H) (m : subscribers) : option subscribers :=
  match m !! topic with Some hs => Some (<[topic := hs ++ [handler]]> m) | None => None end.

(** The listeners a payload ixs handed to. *)
Definition Emit (topic : str) (m : subscribers) : list H := default [] (m !! topic).
End event.

Definition CacheCompletedKey : str := bs "cache.completed".

Record cacheCompleted := mkCompleted {
  cc_ratio : Z; cc_storeUrl : str; cc_storeKey : str; cc_storePath : str; cc_lastModified : str;
  cc_contentLength : Z; cc_chunkCount : Z; cc_chunkSize : Z }.

(** ** Files *)

(** [filepath.Dir]: up to the last slash, cleaned. *)
Fixpoint after_slash (p : str) : option str :=   (* of the reversed path *)
  match p with [] => None | c :: p' => if bool_decide (c = "/"%char) then Some p else after_slash p' end.
Definition path_dir (p : str) : str := match after_slash (rev p) with Some q => clean (rev q) | None => clean [] end.

Definition buildPaths (basepath cacheKey : str) (count : Z) : list str :=
  map (λ i, path_join [basepath; cacheKey ++ "-"%char :: pad6 i]) (seqZ 0 count).

(** What the code publishes for a complete object whose last chunk was written to
    [wpath]. *)
Definition completed {B} `{BitmapOps B} (m : Metadata B) (wpath : str) : cacheCompleted :=
  mkCompleted 0 (Key (md_ID m)) (HashStr (md_ID m)) (path_dir wpath) (header_get (bs "Last-Modified") (md_Headers m)) (i64 (md_Size m))
    (bm_count (md_Chunks m)) (md_BlockSize m).

(** ** CRC-32 (IEEE) *)

Definition crc_bit (c : Z) : Z := if Z.odd c then Z.lxor (Z.shiftr c 1) 3988292384 else Z.shiftr c 1.
Definition crc_byte (c : Z) (b : ascii) : Z := Nat.iter 8 crc_bit (Z.lxor c (byte_val b)).
Definition ChecksumIEEE (s : str) : Z := Z.lxor (fold_left crc_byte s 4294967295) 4294967295.

(** ** The plugin *)

Inductive verify_error := OpenFailed (path : str) | ReadFailed (path : str) | SizeDiffers (path : str).

Section verifier.
(** [hex.EncodeToString(h.Sum(nil))] after the bytes that were written; the bytes
    of a file, or the error that reading it ends with. *)
Variable xxhash_sum : str → str.
Variable open_file : str → option (str * bool).

(** The loop over the files: [h] are the bytes written to the hash so far. *)
Fixpoint sum_files (count chunkSize : Z) (idx : Z) (paths : list str) (h : str) : result verify_error str :=
  match paths with
  | [] => Ok h
  | p :: paths =>
      match open_file p with
      | None => Err (OpenFailed p)
      | Some (data, failed) =>
          if failed : bool then Err (ReadFailed p)
          else if (idx >? count) && negb (Z.of_nat (length data) =? chunkSize) then Err (SizeDiffers p)
          else sum_files count chunkSize (idx + 1) paths (h ++ data)
      end
  end.

Definition ReadAndSumHash (basepath cacheKey : str) (count chunkSize : Z) : result verify_error str :=
  match sum_files count chunkSize 0 (buildPaths basepath cacheKey count) [] with Ok h => Ok (xxhash_sum h) | Err e => Err e end.

Record ReportPayload := mkReport { rp_Url : str; rp_Hash : str; rp_Lm : str; rp_Cl : Z }.

(** What becomes of an event. *)
Inductive verdict :=
| Disabled
| Skipped
| NotSummed (e : verify_error)
| Reported (p : ReportPayload).

Definition eventLoop (ReportRatio : Z) (payload : cacheCompleted) : verdict :=
  let ratio := ChecksumIEEE (cc_storeKey payload) mod 100 in
  let upsRatio := cc_ratio payload in
  if upsRatio =? -1 then Disabled
  else
    let upsRatio := if upsRatio =? 0 then ReportRatio else upsRatio in
    if ratio >=? upsRatio then Skipped
    else match ReadAndSumHash (cc_storePath payload) (cc_storeKey payload) (cc_chunkCount payload) (cc_chunkSize payload) with
    | Err e => NotSummed e
    | Ok hash => Reported (mkReport (cc_storeUrl payload) hash (cc_lastModified payload) (u64 (cc_contentLength payload)))
    end.

(** The answer of the service to a report, [None] without one; the result and the
    label that is counted. *)
Inductive report_result := ReportOk | ReportConflict | ReportRefused (code : Z) | ReportUnsent.
Definition doReport (answer : option Z) : report_result * str :=
  match answer with
  | None => (ReportUnsent, bs "0")
  | Some code =>
      (if code =? 409 then ReportConflict else if negb (code =? 200) then ReportRefused code else ReportOk, format_int code)
  end.

(** ** The paths *)

(** The components [Clean] leaves, reversed: plain ones on dots, which only a
    relative path has. *)
Inductive good (rooted : bool) : list str → Prop :=
| good_dots n : (rooted = true → n = 0%nat) → good rooted (repeat (bs "..") n)
| good_plain c acc : plain c → good rooted acc → good rooted (c :: acc).

Lemma clean_step_good rooted acc c : "/"%char ∉ c → good rooted acc → good rooted (clean_step rooted acc c).
Proof.
  intros Hc Hg. unfold clean_step. destruct (bool_decide (c = []) || bool_decide (c = bs ".")) eqn:E1; [done|]. apply orb_false_iff in E1 as [H1%bool_decide_eq_false H2%bool_decide_eq_false].
  destruct (bool_decide (c = bs "..")) eqn:E2.
  - apply bool_decide_eq_true in E2 as ->. destruct Hg as [n Hn|x acc Hx Hg].
    + destruct n as [|n]; cbn [repeat].
      * destruct rooted; [apply (good_dots true 0); done|apply (good_dots false 1); done].
      * rewrite bool_decide_eq_true_2 by done. apply (good_dots rooted (S (S n))). intros Hr. specialize (Hn Hr). done.
    + destruct Hx as (_ & _ & Hd & _). by rewrite bool_decide_eq_false_2.
  - apply bool_decide_eq_false in E2. apply good_plain; [by repeat split|done].
Qed.

Lemma clean_fold_good rooted l : ∀ acc, Forall (λ w, "/"%char ∉ w) l → good rooted acc → good rooted (fold_left (clean_step rooted) l acc).
Proof.
  induction l as [|c l IH]; intros acc Hl Hg; [done|]. apply Forall_cons in Hl as [Hc Hl]. cbn [fold_left]. apply IH; [done|]. by apply clean_step_good.
Qed.

Lemma dots_fold n : fold_left (clean_step false) (repeat (bs "..") n) [] = repeat (bs "..") n.
Proof.
  induction n as [|n IH]; [done|]. cbn [repeat]. rewrite repeat_cons at 1. rewrite fold_left_app, IH. cbn [fold_left]. unfold clean_step.
  rewrite (bool_decide_eq_false_2 (bs ".." = [])), (bool_decide_eq_false_2 (bs ".." = bs ".")), (bool_decide_eq_true_2 (bs ".." = bs "..")) by done. cbn [orb].
  destruct n as [|n]; [done|]. cbn [repeat]. by rewrite bool_decide_eq_true_2.
Qed.

(** Cleaned components are left alone. *)
Lemma good_fold rooted acc : good rooted acc → fold_left (clean_step rooted) (rev acc) [] = acc.
Proof.
  induction 1 as [n Hn|c acc Hc Hg IH].
  - destruct rooted; [by rewrite Hn|]. rewrite <-(dots_fold n) at 2. f_equal. clear Hn. induction n as [|n IH]; [done|]. cbn [repeat rev]. rewrite IH. by rewrite <-repeat_cons.
  - cbn [rev]. rewrite fold_left_app, IH. cbn [fold_left]. by apply clean_step_plain.
Qed.

Lemma good_app rooted l acc : Forall plain l → good rooted acc → good rooted (l ++ acc).
Proof. intros Hl Hg. induction Hl as [|c l Hc Hl IH]; [done|]. by apply good_plain. Qed.

Lemma dir_parts_good pwd : good (dir_rooted pwd) (dir_parts pwd) ∧ Forall (λ w, "/"%char ∉ w) (rev (dir_parts pwd)).
Proof.
  assert (Forall (λ w, "/"%char ∉ w) (split_byte "/"%char pwd)) as Hs by (apply Forall_forall; intros w; apply split_byte_elems).
  unfold dir_parts. destruct pwd as [|a pwd]; [split; [apply (good_dots _ 0); done|constructor]|]. split.
  - apply clean_fold_good; [done|]. apply (good_dots _ 0). done.
  - apply Forall_rev. by apply clean_fold_slash.
Qed.

Lemma split_join_slash l : l ≠ [] → Forall (λ w, "/"%char ∉ w) l → split_byte "/"%char (join (bs "/") l) = l.
Proof. intros Hne Hl. change (bs "/") with ["/"%char]. by apply split_join. Qed.

(** A cleaned path with one more slash, or a slash and a component. *)
Lemma clean_good rooted acc (tail : list str) : good rooted acc → acc ≠ [] → Forall (λ w, "/"%char ∉ w) (rev acc) → Forall (λ w, "/"%char ∉ w) tail → tail ≠ [] →
  fold_left (clean_step rooted) tail acc ≠ [] → let p := (if rooted then ["/"%char] else []) ++ join (bs "/") (rev acc) ++ "/"%char :: join (bs "/") tail in
  clean p = (if rooted then ["/"%char] else []) ++ join (bs "/") (rev (fold_left (clean_step rooted) tail acc)).
Proof.
  intros Hg Hne Hs Ht Htn Hout p. assert (rev acc ≠ []) as Hr by (intros E; apply (f_equal (@rev str)) in E; rewrite rev_involutive in E; done).
  assert (has_prefix (bs "/") p = rooted) as Hroot.
  { unfold p. destruct rooted; [done|]. cbn [app]. destruct (rev acc) as [|c ws] eqn:E; [done|].
    assert (c ≠ []) as Hc.
    { intros ->. assert (([] : str) ∈ acc) as Hin by (apply list_elem_of_In, in_rev; rewrite E; by left). clear -Hg Hin. induction Hg as [n Hn|x acc (Hx & _) Hg IH].
      - apply list_elem_of_In, repeat_spec in Hin. done.
      - apply elem_of_cons in Hin as [Hx0|Hin]; [congruence|auto]. }
    destruct c as [|a c]; [done|]. apply Forall_cons in Hs as [Hs _]. destruct ws; cbn; rewrite bool_decide_eq_false_2 by set_solver; done. }
  assert (fold_left (clean_step rooted) (split_byte "/"%char p) [] = fold_left (clean_step rooted) tail acc) as Hf.
  { assert (split_byte "/"%char (join (bs "/") (rev acc) ++ "/"%char :: join (bs "/") tail) = rev acc ++ tail) as Hsp
      by (by rewrite split_byte_app_sep, !split_join_slash).
    unfold p. destruct rooted; cbn [app].
    - cbn [split_byte]. rewrite bool_decide_eq_true_2 by done. rewrite Hsp. cbn [fold_left]. unfold clean_step at 2. rewrite bool_decide_eq_true_2 by done. cbn [orb].
      by rewrite fold_left_app, good_fold.
    - by rewrite Hsp, fold_left_app, good_fold. }
  unfold clean. rewrite Hroot, Hf. destruct rooted; [done|]. cbn [app].
  destruct (rev (fold_left (clean_step false) tail acc)) eqn:E; [|done].
  apply (f_equal (@rev str)) in E. rewrite rev_involutive in E. done.
Qed.

(** The directory of a joined path, and a name joined to it. *)
Lemma join_dir pwd l name : l ≠ [] → Forall plain l → plain name →
  path_dir (path_join (pwd :: l ++ [name])) = path_join (pwd :: l) ∧ path_join [path_join (pwd :: l); name] = path_join (pwd :: l ++ [name]).
Proof.
  intros Hne Hl Hn. destruct (dir_parts_good pwd) as [Hg Hs]. set (acc := rev l ++ dir_parts pwd).
  assert (good (dir_rooted pwd) acc) as Hga by (apply good_app; [by apply Forall_rev|done]).
  assert (Forall (λ w, "/"%char ∉ w) l) as Hls by (eapply Forall_impl; [exact Hl|]; by intros w (_ & _ & _ & ?)).
  assert (rev acc = rev (dir_parts pwd) ++ l) as Hra by (unfold acc; by rewrite rev_app_distr, rev_involutive).
  assert (Forall (λ w, "/"%char ∉ w) (rev acc)) as Hsa by (rewrite Hra; by apply Forall_app).
  assert (acc ≠ []) as Hna by (unfold acc; intros [E _]%app_nil; apply (f_equal (@rev str)) in E; rewrite rev_involutive in E; done).
  assert (path_join (pwd :: l) = (if dir_rooted pwd then ["/"%char] else []) ++ join (bs "/") (rev acc)) as Hj by (rewrite path_join_tail by done; by rewrite Hra).
  assert (path_join (pwd :: l ++ [name]) = (if dir_rooted pwd then ["/"%char] else []) ++ join (bs "/") (rev acc) ++ "/"%char :: name) as Hjn.
  { rewrite path_join_tail; [|by destruct l|by apply Forall_app; split; [|constructor]]. f_equal. rewrite app_assoc, <-Hra.
    apply join_snoc. rewrite Hra. by intros [_ ?]%app_nil. }
  destruct Hn as (Hn0 & Hn1 & Hn2 & Hn3). split.
  - rewrite Hjn. set (q := (if dir_rooted pwd then ["/"%char] else []) ++ join (bs "/") (rev acc)). rewrite app_assoc. fold q. unfold path_dir.
    assert (after_slash (rev (q ++ "/"%char :: name)) = Some ("/"%char :: rev q)) as ->.
    { rewrite rev_app_distr. cbn [rev]. rewrite <-app_assoc. cbn [app]. assert ("/"%char ∉ rev name) as Hrn by (intros Hin; apply Hn3; apply list_elem_of_In, in_rev; by apply list_elem_of_In in Hin).
      induction (rev name) as [|c w IH]; cbn [app after_slash]; [by rewrite bool_decide_eq_true_2|]. apply not_elem_of_cons in Hrn as [Hc Hw]. rewrite bool_decide_eq_false_2 by done. by apply IH. }
    cbn [rev]. rewrite rev_involutive. unfold q. rewrite <-app_assoc, Hj.
    pose proof (clean_good (dir_rooted pwd) acc [[]] Hga Hna Hsa) as Hc. cbn [join fold_left] in Hc. rewrite Hc; [done|by constructor; [apply not_elem_of_nil|]|done|done].
  - rewrite Hj, Hjn. set (q := (if dir_rooted pwd then ["/"%char] else []) ++ join (bs "/") (rev acc)).
    assert (q ≠ []) as Hq.
    { unfold q. intros [_ E]%app_nil. pose proof (split_join_slash (rev acc)) as Hsp. rewrite E in Hsp. cbn in Hsp.
      assert (rev acc ≠ []) as Hr by (rewrite Hra; by intros [_ ?]%app_nil). specialize (Hsp Hr Hsa). rewrite Hra in Hsp.
      destruct (rev (dir_parts pwd)) as [|x xs] eqn:Ex; cbn [app] in Hsp.
      - subst l. apply Forall_cons in Hl as [(? & _) _]. done.
      - injection Hsp as _ Hx. symmetry in Hx. apply app_nil in Hx as [_ ?]. done. }
    unfold path_join. rewrite !filter_cons, decide_True, decide_True by done. cbn [filter list_filter join]. unfold q. rewrite <-!app_assoc. change (bs "/" ++ name) with ("/"%char :: name).
    pose proof (clean_good (dir_rooted pwd) acc [name] Hga Hna Hsa) as Hc. cbn [join fold_left] in Hc. rewrite Hc; [|by constructor|done|by rewrite clean_step_plain].
    rewrite clean_step_plain by done. cbn [rev]. f_equal. apply join_snoc. rewrite Hra. by intros [_ ?]%app_nil.
Qed.

(** The paths the plugin reads are those of the chunk files. *)
Lemma buildPaths_slices id pwd k count : length (id_hash id) = 20%nat → in_u32 k → count <= max_uint32 →
  buildPaths (path_dir (WPathSlice id pwd k)) (HashStr id) count = map (WPathSlice id pwd) (seqZ 0 count).
Proof.
  intros Hl Hk Hc. destruct (hex_hash_plain id id Hl Hl id Hl) as (Hh & _ & Hp). unfold buildPaths. apply map_ext_in. intros i Hi%list_elem_of_In%elem_of_seqZ.
  unfold WPathSlice, hash_path, HashStr. set (h := hex (id_hash id)) in *. set (dirs := [take 1 h; take 2 (drop 2 h)]).
  assert (∀ name, plain name → Forall plain (dirs ++ [name])) as Hpl by (intros name Hn; apply hash_path_plain; [lia|apply hex_chars|done]).
  assert (Forall plain dirs) as Hd by (pose proof (Hpl _ (Hp k Hk)) as Hx; by apply Forall_app in Hx as [? _]).
  change (path_join [path_dir (path_join (pwd :: dirs ++ [h ++ "-"%char :: pad6 k])); h ++ "-"%char :: pad6 i] = path_join (pwd :: dirs ++ [h ++ "-"%char :: pad6 i])).
  destruct (join_dir pwd dirs (h ++ "-"%char :: pad6 k)) as [-> _]; [done|done|by apply Hp|].
  apply (join_dir pwd dirs (h ++ "-"%char :: pad6 i)); [done|done|apply Hp]. unfold_ints. lia.
Qed.

Lemma sum_files_app count cs (chunk : Z → str) (path : Z → str) : ∀ ixs idx h, (∀ i, i ∈ ixs → open_file (path i) = Some (chunk i, false)) →
  idx + Z.of_nat (length ixs) <= count + 1 → sum_files count cs idx (map path ixs) h = Ok (h ++ concat (map chunk ixs)).
Proof.
  induction ixs as [|i ixs IH]; intros idx h Hf Hi; cbn [map sum_files concat]; [by rewrite app_nil_r|].
  rewrite (Hf i) by (by left). cbn [length] in Hi. rewrite Z.gtb_ltb, (proj2 (Z.ltb_ge _ _)) by lia. cbn [andb].
  rewrite IH; [by rewrite <-app_assoc|intros j Hj; apply Hf; by right|lia].
Qed.

Lemma concat_chunks (data : str) bsize k : 0 < bsize → 0 <= k → (k = 0 ∨ (k - 1) * bsize < Z.of_nat (length data)) →
  concat (map (chunk_data data bsize) (seqZ 0 k)) = slice data 0 (Z.min (k * bsize) (Z.of_nat (length data))).
Proof.
  intros Hb Hk. pattern k. apply natlike_ind; [|clear k Hk; intros k Hk IH Hl|done].
  - intros _. rewrite Z.min_l by lia. done.
  - replace (Z.succ k) with (k + 1) in * by lia. rewrite (seqZ_app 0 k 1), map_app, concat_app by lia. destruct Hl as [|Hl]; [lia|].
    rewrite IH by nia. rewrite Z.min_l by nia. rewrite Z.add_0_l. change (seqZ k 1) with [k]. cbn [map concat]. rewrite app_nil_r. unfold chunk_data.
    apply slice_app; nia.
Qed.

Lemma sum_files_fails count cs (path : Z → str) i : ∀ ixs idx h, i ∈ ixs →
  match open_file (path i) with None => True | Some (_, failed) => failed = true end → ∃ e, sum_files count cs idx (map path ixs) h = Err e.
Proof.
  induction ixs as [|j ixs IH]; intros idx h Hi Hf; [by apply elem_of_nil in Hi|]. cbn [map sum_files].
  destruct (decide (i = j)) as [-> |Hne].
  - destruct (open_file (path j)) as [[d failed]|]; [subst failed|]; by eexists.
  - apply elem_of_cons in Hi as [?|Hi]; [done|]. destruct (open_file (path j)) as [[d [|]]|]; [by eexists| |by eexists].
    case_if; [by eexists|]. by apply IH.
Qed.

(** C32: what is reported of a completed object.  Let the event of an object on disk be
    published, whose last chunk was written somewhere among its chunk files.  If the
    checksum of its key modulo 100 is not below the configured ratio, nothing is read or
    reported; a ratio of 100 lets every object through and one of 0 none.  Otherwise
    the plugin reads exactly the chunk files of the object in order and makes one report with its URL,
    its Last-Modified header, its size and the digest of all its bytes; if one of the
    files cannot be opened or read, it makes none. *)
Theorem object_reported {B} `{BitmapOps B} (m : Metadata B) (data pwd : str) (k R : Z) :
  length (id_hash (md_ID m)) = 20%nat → in_u32 k → 0 < md_BlockSize m → 0 < md_Size m → md_Size m = Z.of_nat (length data) → md_Size m <= max_int64 →
  bm_count (md_Chunks m) = chunk_count (md_Size m) (md_BlockSize m) → bm_count (md_Chunks m) <= max_uint32 →
  let chosen := ChecksumIEEE (HashStr (md_ID m)) mod 100 <? R in
  let event := completed m (WPathSlice (md_ID m) pwd k) in
  (100 <= R → chosen = true) ∧ (R <= 0 → chosen = false)
  ∧ (chosen = false → eventLoop R event = Skipped)
  ∧ (chosen = true → (∀ i, 0 <= i < bm_count (md_Chunks m) → open_file (WPathSlice (md_ID m) pwd i) = Some (chunk_data data (md_BlockSize m) i, false)) →
       eventLoop R event = Reported (mkReport (Key (md_ID m)) (xxhash_sum data) (header_get (bs "Last-Modified") (md_Headers m)) (md_Size m)))
  ∧ (chosen = true → ∀ i, 0 <= i < bm_count (md_Chunks m) →
       match open_file (WPathSlice (md_ID m) pwd i) with None => True | Some (_, failed) => failed = true end → ∃ e, eventLoop R event = NotSummed e).
Proof.
  intros Hl Hk Hb Hs Hd Hmax Hn Hc chosen event. pose proof (Z.mod_pos_bound (ChecksumIEEE (HashStr (md_ID m))) 100 ltac:(lia)) as Hm.
  set (n := bm_count (md_Chunks m)) in *. assert (0 <= n) as Hn0 by (rewrite Hn; unfold chunk_count; pose proof (Z.div_pos (md_Size m) (md_BlockSize m)); case_if; lia).
  assert (eventLoop R event = if chosen then match ReadAndSumHash (path_dir (WPathSlice (md_ID m) pwd k)) (HashStr (md_ID m)) n (md_BlockSize m) with
      | Err e => NotSummed e
      | Ok hash => Reported (mkReport (Key (md_ID m)) hash (header_get (bs "Last-Modified") (md_Headers m)) (u64 (i64 (md_Size m))))
      end else Skipped) as ->.
  { unfold eventLoop, event, completed. cbn [cc_ratio cc_storeKey cc_storePath cc_chunkCount cc_chunkSize cc_storeUrl cc_lastModified cc_contentLength].
    change (0 =? -1) with false. change (0 =? 0) with true. cbv iota. rewrite Z.geb_leb, Z.leb_antisym. fold chosen. by destruct chosen. }
  unfold ReadAndSumHash. rewrite buildPaths_slices by done. split_and!; [unfold chosen; lia|unfold chosen; lia|by intros ->| |].
  - intros -> Hf. rewrite (sum_files_app n _ (chunk_data data (md_BlockSize m))); [|intros i Hi%elem_of_seqZ; apply Hf; lia|rewrite length_seqZ; lia].
    cbn [app]. rewrite concat_chunks; [|done|done|].
    + assert (Z.of_nat (length data) <= n * md_BlockSize m) as Hge.
      { rewrite <-Hd. destruct (Z.le_gt_cases (md_Size m) (n * md_BlockSize m)) as [|Hlt]; [done|].
        apply (chunk_count_spec (md_Size m) (md_BlockSize m) n) in Hlt; lia. }
      rewrite Z.min_r by done. unfold slice. rewrite Z.sub_0_r, Nat2Z.id. change (drop (Z.to_nat 0) data) with data. rewrite take_ge by lia. by rewrite i64_id, u64_id by (unfold_ints; lia).
    + destruct (Z.eq_dec n 0); [by left|right]. rewrite <-Hd. apply (chunk_count_spec (md_Size m) (md_BlockSize m) (n - 1)); lia.
  - intros -> i Hi Hf. destruct (sum_files_fails n (md_BlockSize m) (WPathSlice (md_ID m) pwd) i (seqZ 0 n) 0 []) as [e ->]; [apply elem_of_seqZ; lia|done|by eexists].
Qed.

(** the announced chunk size is never compared with a file: the sum is the same
    whatever size the event announces. *)
Theorem size_check_dead basepath key count cs1 cs2 : ReadAndSumHash basepath key count cs1 = ReadAndSumHash basepath key count cs2.
Proof.
  unfold ReadAndSumHash. assert (∀ (ixs : list Z) path idx h, idx + Z.of_nat (length ixs) <= count + 1 ∨ ixs = [] → sum_files count cs1 idx (map path ixs) h = sum_files count cs2 idx (map path ixs) h) as Hs.
  { induction ixs as [|i ixs IH]; intros path idx h Hi; [done|]. destruct Hi as [Hi|]; [|done]. cbn [map sum_files length] in *. destruct (open_file (path i)) as [[d [|]]|]; [done| |done].
    rewrite !Z.gtb_ltb, (proj2 (Z.ltb_ge count idx)) by lia. cbn [andb]. apply IH. left. lia. }
  unfold buildPaths. rewrite (Hs (seqZ 0 count)); [done|]. destruct (Z.le_gt_cases 0 count); [left; rewrite length_seqZ; lia|right]. by apply seqZ_nil; lia.
Qed.
End verifier.

(** ** Concrete events *)

Definition v_id : ID := NewID (bs "http://a/x").
Definition v_md : Metadata N := mkMetadata FlagCache v_id 4 7%N 0%N 200 10 0 0 0 0 {[bs "Last-Modified" := [bs "lm"]]} [].
Definition v_data : str := bs "0123456789".
Definition v_open (p : str) : option (str * bool) :=
  if bool_decide (p = WPathSlice v_id (bs "/cache") 0) then Some (bs "0123", false)
  else if bool_decide (p = WPathSlice v_id (bs "/cache") 1) then Some (bs "4567", false)
  else if bool_decide (p = WPathSlice v_id (bs "/cache") 2) then Some (bs "89", false) else None.

Example crc32_check : ChecksumIEEE (bs "123456789") = 3421780262.
Proof. vm_compute. reflexivity. Qed.

Lemma object_reported_witness :
  eventLoop (λ s, s) v_open 100 (completed v_md (WPathSlice v_id (bs "/cache") 2)) = Reported (mkReport (bs "http://a/x") v_data (bs "lm") 10).
Proof.
  destruct (object_reported (λ s, s) v_open v_md v_data (bs "/cache") 2 100) as (H1 & _ & _ & H2 & _).
  all: cycle -1.
  { refine (eq_trans (H2 (H1 ltac:(lia)) _) _); [|vm_compute; reflexivity].
    intros i Hi. assert (i ∈ seqZ 0 3) as Hin by (apply elem_of_seqZ; vm_compute in Hi |- *; exact Hi). vm_compute in Hin.
    repeat (apply elem_of_cons in Hin as [->|Hin]; [vm_compute; reflexivity|]). exfalso. clear -Hin. by apply elem_of_nil in Hin. }
  all: try (vm_compute; reflexivity).
  - split; vm_compute; discriminate.
  - vm_compute. discriminate.
  - vm_compute. discriminate.
Defined.
