(* ===== verification/Lfu.v ===== *)
(** * The object index of a bucket: pkg/algorithm/lru

    A least-frequently-used cache: a map of values and a list of frequency
    buckets in ascending order, each with its keys from the oldest to the
    newest.  The Go code links the entries of the map to their bucket and
    position by pointers; here an entry is found by its key, and a doubly linked
    list of contrib/container/list is the list of its values.

    Proved: the structural invariant of every reachable state (buckets non-empty
    and strictly ascending, every key in exactly one bucket, the size bound),
    the effect of [Set] and [Get], that eviction takes the least frequently
    used, oldest keys first, and when a new key evicts itself. *)

From S2P Require Import Prelude.

Section lfu.
Context {K V : Type} `{Countable K}.

(** [freqs] lists each [listEntry]: its frequency and the keys of its entries. *)
Record Cache := mkCache {
  UpperBound : Z; LowerBound : Z; values : gmap K V; freqs : list (Z * list K); c_len : Z }.

Definition New (cap : Z) : Cache :=
  if cap >? 0 then mkCache cap cap ∅ [] 0 else mkCache 0 0 ∅ [] 0.

Definition Has (c : Cache) (k : K) : bool := bool_decide (is_Some (values c !! k)).
Definition Peek (c : Cache) (k : K) : option V := values c !! k.
Definition Len (c : Cache) : Z := c_len c.

Definition with_freqs (c : Cache) (fs : list (Z * list K)) : Cache :=
  mkCache (UpperBound c) (LowerBound c) (values c) fs (c_len c).
Definition with_values (c : Cache) (vs : gmap K V) : Cache :=
  mkCache (UpperBound c) (LowerBound c) vs (freqs c) (c_len c).

(** The frequency of a key: that of its bucket. *)
Fixpoint freq_of (k : K) (fs : list (Z * list K)) : option Z :=
  match fs with
  | [] => None
  | (f, ks) :: fs' => if decide (k ∈ ks) then Some f else freq_of k fs'
  end.

Definition GetFrequency (c : Cache) (k : K) : Z :=
  if Has c k then default 0 (freq_of k (freqs c)) else 0.

(** Removing an entry from its bucket, and the bucket when it gets empty. *)
Definition rem_bucket (f : Z) (ks : list K) (rest : list (Z * list K)) : list (Z * list K) :=
  match ks with [] => rest | _ => (f, ks) :: rest end.

(** [increment] of an entry that has a place: to the next bucket if its
    frequency is one higher, else to a new bucket inserted after the current. *)
Definition push_next (k : K) (f : Z) (post : list (Z * list K)) : list (Z * list K) :=
  match post with
  | (g, js) :: r => if g =? f + 1 then (g, js ++ [k]) :: r else (f + 1, [k]) :: post
  | [] => [(f + 1, [k])]
  end.

Fixpoint promote (k : K) (fs : list (Z * list K)) : list (Z * list K) :=
  match fs with
  | [] => []
  | (f, ks) :: post =>
      if decide (k ∈ ks) then rem_bucket f (filter (λ x, x ≠ k) ks) (push_next k f post)
      else (f, ks) :: promote k post
  end.

(** [increment] of a new entry: frequency 1, at the front. *)
Definition push_new (k : K) (fs : list (Z * list K)) : list (Z * list K) := push_next k 0 fs.

(** [remEntry] *)
Fixpoint rem_entry (k : K) (fs : list (Z * list K)) : list (Z * list K) :=
  match fs with
  | [] => []
  | (f, ks) :: post =>
      if decide (k ∈ ks) then rem_bucket f (filter (λ x, x ≠ k) ks) post
      else (f, ks) :: rem_entry k post
  end.

Definition Get (c : Cache) (k : K) : option V * Cache :=
  match values c !! k with
  | Some v => (Some v, with_freqs c (promote k (freqs c)))
  | None => (None, c)
  end.

(** [evict]: the first entry of the first bucket, [count] times.  The evicted
    pairs are returned in order; an empty first bucket would make the Go loop
    run forever, which is [None]. *)
Fixpoint evict (count : nat) (c : Cache) : option (list (K * V) * Cache) :=
  match count with
  | O => Some ([], c)
  | S n =>
      match freqs c with
      | [] => Some ([], c)
      | (_, []) :: _ => None
      | (f, k :: ks) :: rest =>
          let c' := mkCache (UpperBound c) (LowerBound c) (delete k (values c))
                      (rem_bucket f ks rest) (c_len c - 1) in
          match evict n c' with
          | None => None
          | Some (evs, c'') =>
              Some (match values c !! k with Some v => (k, v) :: evs | None => evs end, c'')
          end
      end
  end.

Definition Set_ (c : Cache) (k : K) (v : V) : option (list (K * V) * Cache) :=
  match values c !! k with
  | Some _ => Some ([], with_freqs (with_values c (<[k := v]> (values c))) (promote k (freqs c)))
  | None =>
      let c' := mkCache (UpperBound c) (LowerBound c) (<[k := v]> (values c))
                  (push_new k (freqs c)) (c_len c + 1) in
      if (UpperBound c >? 0) && (LowerBound c >? 0) && (c_len c' >? UpperBound c)
      then evict (Z.to_nat (c_len c' - LowerBound c)) c'
      else Some ([], c')
  end.

Definition Evict (c : Cache) (count : Z) : option (list (K * V) * Cache) := evict (Z.to_nat count) c.

Definition Remove (c : Cache) (k : K) : bool * Cache :=
  match values c !! k with
  | Some _ =>
      (true, mkCache (UpperBound c) (LowerBound c) (delete k (values c))
               (rem_entry k (freqs c)) (c_len c - 1))
  | None => (false, c)
  end.

Definition Purge (c : Cache) : Cache := mkCache (UpperBound c) (LowerBound c) ∅ [] 0.

(** The keys in eviction order. *)
Definition order (fs : list (Z * list K)) : list K := concat (map snd fs).

(** From the highest frequency down, newest first; the length is tested after a
    key is appended.  A negative [k] panics in [make]. *)
Definition TopK (c : Cache) (k : Z) : option (list K) :=
  if k <? 0 then None else Some (take (Z.to_nat (Z.max 1 k)) (rev (order (freqs c)))).

Definition Keys (c : Cache) : list K := map fst (map_to_list (values c)).

(** ** Invariant *)

Fixpoint ascending (lo : Z) (fs : list (Z * list K)) : Prop :=
  match fs with
  | [] => True
  | (f, ks) :: fs' => lo < f ∧ ks ≠ [] ∧ ascending f fs'
  end.

Definition wf (c : Cache) : Prop :=
  ascending 0 (freqs c) ∧ NoDup (order (freqs c))
  ∧ (∀ k, k ∈ order (freqs c) ↔ is_Some (values c !! k))
  ∧ c_len c = Z.of_nat (size (values c)).

(** *** Elements of the bucket lists *)

Lemma order_cons f ks fs : order ((f, ks) :: fs) = ks ++ order fs.
Proof. done. Qed.

Lemma order_rem f ks fs : order (rem_bucket f ks fs) = ks ++ order fs.
Proof. by destruct ks. Qed.

Lemma order_push_next k f post : order (push_next k f post) ≡ₚ k :: order post.
Proof.
  destruct post as [|[g js] r]; simpl; [done|]. case_if; rewrite !order_cons; [|done].
  rewrite <-app_assoc. simpl. by rewrite <-Permutation_middle.
Qed.

Lemma filter_ne_perm k (l : list K) : NoDup l → k ∈ l → l ≡ₚ k :: filter (λ x, x ≠ k) l.
Proof.
  intros Hnd Hin. apply NoDup_Permutation; [done| |].
  - constructor; [|by apply NoDup_filter]. rewrite list_elem_of_filter. naive_solver.
  - intros x. rewrite elem_of_cons, list_elem_of_filter. destruct (decide (x = k)); naive_solver.
Qed.

Lemma freq_of_order k fs : k ∈ order fs ↔ is_Some (freq_of k fs).
Proof.
  induction fs as [|[f ks] fs IH]; simpl.
  - split; [by intros ?%elem_of_nil|by intros []].
  - rewrite order_cons, elem_of_app, IH. case_decide; naive_solver.
Qed.

Lemma promote_perm k fs : NoDup (order fs) → k ∈ order fs → order (promote k fs) ≡ₚ order fs.
Proof.
  induction fs as [|[f ks] fs IH]; simpl; [done|]. rewrite order_cons. intros Hnd Hin.
  apply NoDup_app in Hnd as (H1 & H2 & H3). case_decide as Hk.
  - rewrite order_rem, order_push_next, <-Permutation_middle, app_comm_cons, <-filter_ne_perm; done.
  - apply elem_of_app in Hin as [?|Hin]; [done|]. rewrite order_cons, IH; done.
Qed.

Lemma rem_entry_perm k fs : NoDup (order fs) → k ∈ order fs → order fs ≡ₚ k :: order (rem_entry k fs).
Proof.
  induction fs as [|[f ks] fs IH]; simpl; [by intros _ ?%elem_of_nil|]. rewrite order_cons. intros Hnd Hin.
  apply NoDup_app in Hnd as (H1 & H2 & H3). case_decide as Hk.
  - rewrite order_rem, app_comm_cons, <-filter_ne_perm; done.
  - apply elem_of_app in Hin as [?|Hin]; [done|].
    rewrite order_cons, (IH H3 Hin), <-Permutation_middle. done.
Qed.

(** *** The order of the frequencies *)

Lemma ascending_mono lo lo' fs : lo <= lo' → ascending lo' fs → ascending lo fs.
Proof. destruct fs as [|[f ks] fs]; simpl; [done|]. intros ? (? & ? & ?). repeat split; auto with lia. Qed.

Lemma ascending_push k f post : ascending f post → ascending f (push_next k f post).
Proof.
  destruct post as [|[g js] r]; simpl; [intros _; repeat split; [lia|done]|].
  intros (H1 & H2 & H3). case_if; simpl; repeat split; auto with lia.
  by destruct js.
Qed.

Lemma ascending_rem lo f ks rest : lo < f → ascending f rest → ascending lo (rem_bucket f ks rest).
Proof. intros ? ?. destruct ks; simpl; [by apply (ascending_mono _ f); [lia|]|done]. Qed.

Lemma ascending_promote k lo fs : ascending lo fs → ascending lo (promote k fs).
Proof.
  revert lo. induction fs as [|[f ks] fs IH]; intros lo; simpl; [done|]. intros (? & ? & ?).
  case_decide; simpl; [|by auto]. apply ascending_rem; [done|]. by apply ascending_push.
Qed.

Lemma ascending_rem_entry k lo fs : ascending lo fs → ascending lo (rem_entry k fs).
Proof.
  revert lo. induction fs as [|[f ks] fs IH]; intros lo; simpl; [done|]. intros (? & ? & ?).
  case_decide; simpl; [|by auto]. by apply ascending_rem.
Qed.

Lemma ascending_push_new k fs : ascending 0 fs → ascending 0 (push_new k fs).
Proof. apply ascending_push. Qed.

Lemma freq_above lo fs k f : ascending lo fs → freq_of k fs = Some f → lo < f.
Proof.
  revert lo. induction fs as [|[g ks] fs IH]; intros lo; simpl; [done|]. intros (? & ? & Ha).
  case_decide; [naive_solver|]. intros Hf. specialize (IH _ Ha Hf). lia.
Qed.

Lemma freq_not_in k fs : k ∉ order fs → freq_of k fs = None.
Proof. intros Hn. apply eq_None_not_Some. by rewrite <-freq_of_order. Qed.

Lemma freq_cons k f ks fs :
  freq_of k ((f, ks) :: fs) = if decide (k ∈ ks) then Some f else freq_of k fs.
Proof. done. Qed.

Lemma freq_rem k f ks rest :
  freq_of k (rem_bucket f ks rest) = if decide (k ∈ ks) then Some f else freq_of k rest.
Proof. destruct ks; [|done]. rewrite decide_False; [done|]. by intros ?%elem_of_nil. Qed.

Lemma freq_push k f post j : k ∉ order post →
  freq_of j (push_next k f post) = if decide (j = k) then Some (f + 1) else freq_of j post.
Proof.
  intros Hk. destruct post as [|[g js] r]; simpl push_next.
  - rewrite freq_cons. repeat case_decide; rewrite ?list_elem_of_singleton in *; naive_solver.
  - rewrite order_cons, elem_of_app in Hk.
    case_if; rewrite !freq_cons; repeat case_decide; rewrite ?elem_of_app, ?list_elem_of_singleton in *;
      naive_solver.
Qed.

(** A use raises the frequency of its key by one and no other. *)
Lemma freq_promote k fs j : NoDup (order fs) → k ∈ order fs →
  freq_of j (promote k fs) = if decide (j = k) then (λ f, f + 1) <$> freq_of k fs else freq_of j fs.
Proof.
  induction fs as [|[f ks] fs IH]; simpl; [by intros _ ?%elem_of_nil|]. rewrite order_cons. intros Hnd Hin.
  apply NoDup_app in Hnd as (H1 & H2 & H3). destruct (decide (k ∈ ks)) as [Hk|Hk].
  - rewrite freq_rem, freq_push by auto. simpl.
    repeat case_decide; subst; rewrite ?list_elem_of_filter in *; naive_solver.
  - apply elem_of_app in Hin as [?|Hin]; [done|]. rewrite freq_cons, IH by done.
    destruct (decide (j ∈ ks)); [|done]. rewrite decide_False by naive_solver. done.
Qed.

Lemma freq_rem_entry k fs j : NoDup (order fs) → j ≠ k → freq_of j (rem_entry k fs) = freq_of j fs.
Proof.
  induction fs as [|[f ks] fs IH]; simpl; [done|]. rewrite order_cons. intros Hnd Hj.
  apply NoDup_app in Hnd as (H1 & H2 & H3). destruct (decide (k ∈ ks)) as [Hk|Hk].
  - rewrite freq_rem. repeat case_decide; rewrite ?list_elem_of_filter in *; naive_solver.
  - rewrite freq_cons, IH by done. done.
Qed.

(** The eviction order is ascending in the frequency. *)
Lemma order_by_freq lo fs n x y fx fy :
  ascending lo fs → NoDup (order fs) → x ∈ take n (order fs) → y ∈ drop n (order fs) →
  freq_of x fs = Some fx → freq_of y fs = Some fy → fx <= fy.
Proof.
  revert lo n. induction fs as [|[f ks] fs IH]; intros lo n; simpl; [done|].
  rewrite order_cons. intros (H1 & H2 & Ha) Hnd. apply NoDup_app in Hnd as (N1 & N2 & N3).
  rewrite take_app, drop_app, !elem_of_app.
  intros Hx Hy Hfx Hfy. destruct (decide (x ∈ ks)) as [Hxk|Hxk].
  - simplify_eq. case_decide; [by simplify_eq|]. apply (freq_above _ _ _ _ Ha) in Hfy. lia.
  - destruct Hx as [Hx|Hx]; [by apply elem_of_take in Hx as (? & ? & ?); exfalso; eapply Hxk, list_elem_of_lookup_2|].
    destruct Hy as [Hy|Hy].
    + assert (length ks <= n)%nat as Hl.
      { destruct (decide (length ks <= n)%nat); [done|]. replace (n - length ks)%nat with 0%nat in Hx by lia.
        by apply elem_of_nil in Hx. }
      rewrite drop_ge in Hy by done. by apply elem_of_nil in Hy.
    + rewrite decide_False in Hfy; [by eapply IH|].
      intros Hyk. apply (N2 _ Hyk).
      rewrite <-(take_drop (n - length ks) (order fs)). apply elem_of_app. by right.
Qed.

(** *** Operations *)

Lemma wf_size c : wf c → c_len c = Z.of_nat (length (order (freqs c))).
Proof.
  intros (_ & Hnd & Hdom & ->). f_equal. rewrite <-(size_dom (values c)), <-(size_list_to_set (C:=gset K)) by done.
  f_equal. apply set_eq. intros k. by rewrite elem_of_dom, elem_of_list_to_set, Hdom.
Qed.

Definition evict1 (c : Cache) (k : K) (fs : list (Z * list K)) : Cache :=
  mkCache (UpperBound c) (LowerBound c) (delete k (values c)) fs (c_len c - 1).

Lemma wf_delete c k fs : wf c → order (freqs c) ≡ₚ k :: order fs → ascending 0 fs → wf (evict1 c k fs).
Proof.
  intros (Ha & Hnd & Hdom & Hl) Hp Ha'. rewrite Hp in Hnd. apply NoDup_cons in Hnd as [Hk Hnd'].
  assert (is_Some (values c !! k)) as Hin by (apply Hdom; rewrite Hp; by left).
  split_and!; simpl; [done|done| |].
  - intros j. destruct (decide (j = k)) as [->|Hj].
    + rewrite lookup_delete_eq. split; [done|by intros []].
    + rewrite lookup_delete_ne by done. rewrite <-Hdom, Hp, elem_of_cons. naive_solver.
  - rewrite Hl, map_size_delete_Some by done.
    assert (size (values c) ≠ 0%nat); [|lia]. rewrite map_size_non_empty_iff. intros E.
    rewrite E, lookup_empty in Hin. by destruct Hin.
Qed.

Lemma evict_ok n c : wf c → ∃ evs c', evict n c = Some (evs, c') ∧ wf c'
  ∧ map fst evs = take n (order (freqs c)) ∧ order (freqs c') = drop n (order (freqs c))
  ∧ (∀ k, k ∉ take n (order (freqs c)) → values c' !! k = values c !! k)
  ∧ (∀ k, k ∈ order (freqs c') → freq_of k (freqs c') = freq_of k (freqs c))
  ∧ Forall (λ kv, values c !! kv.1 = Some kv.2) evs
  ∧ UpperBound c' = UpperBound c ∧ LowerBound c' = LowerBound c.
Proof.
  revert c. induction n as [|n IH]; intros c Hwf; simpl evict.
  { exists [], c. rewrite drop_0. split_and!; auto. }
  pose proof Hwf as (Ha & Hnd & Hdom & Hl).
  destruct (freqs c) as [|[f [|k ks]] rest] eqn:Ef.
  - exists [], c. rewrite Ef. simpl. split_and!; auto.
  - simpl in Ha. naive_solver.
  - simpl in Ha. destruct Ha as (Hf & _ & Har).
    change (order ((f, k :: ks) :: rest)) with (k :: ks ++ order rest) in *.
    fold (evict1 c k (rem_bucket f ks rest)).
    assert (wf (evict1 c k (rem_bucket f ks rest))) as Hwf'.
    { apply wf_delete; [done| |by apply ascending_rem]. by rewrite Ef, order_rem. }
    destruct (IH _ Hwf') as (evs & c' & -> & W & Hev & Ho & Hv & Hfr & Hvs & HU & HL).
    simpl in Hev, Ho, Hv, Hfr, Hvs, HU, HL. rewrite order_rem in Hev, Ho, Hv.
    apply NoDup_cons in Hnd as [Hk Hnd'].
    assert (is_Some (values c !! k)) as [v Ev] by (apply Hdom; by left). rewrite Ev.
    exists ((k, v) :: evs), c'. split_and!; auto.
    + simpl. by rewrite Hev.
    + intros j Hj. simpl in Hj. rewrite elem_of_cons in Hj. rewrite Hv by naive_solver.
      apply lookup_delete_ne. naive_solver.
    + intros j Hj. rewrite (Hfr j Hj), freq_rem, freq_cons.
      assert (j ≠ k); [|repeat case_decide; rewrite ?elem_of_cons in *; naive_solver].
      intros ->. apply Hk. rewrite Ho in Hj. rewrite <-(take_drop n (ks ++ order rest)), elem_of_app. by right.
    + constructor; [done|]. eapply Forall_impl; [exact Hvs|]. intros [j w]; simpl.
      rewrite lookup_delete_Some. naive_solver.
Qed.

Lemma wf_promote c k vs : wf c → is_Some (values c !! k) → (∀ j, is_Some (vs !! j) ↔ is_Some (values c !! j)) →
  size vs = size (values c) → wf (with_freqs (with_values c vs) (promote k (freqs c))).
Proof.
  intros (Ha & Hnd & Hdom & Hl) Hk Hvs Hs. pose proof (proj2 (Hdom k) Hk) as Hin.
  split_and!; simpl; [by apply ascending_promote| | |by rewrite Hs].
  - by rewrite promote_perm.
  - intros j. rewrite Hvs, <-Hdom, promote_perm by done. done.
Qed.

Lemma Get_wf c k : wf c → wf (snd (Get c k)).
Proof.
  intros Hwf. unfold Get. destruct (values c !! k) eqn:E; simpl; [|done].
  destruct c. simpl in *. refine (wf_promote _ k values0 Hwf _ _ _); [by exists v|done|done].
Qed.

Lemma push_new_perm k fs : order (push_new k fs) ≡ₚ k :: order fs.
Proof. apply order_push_next. Qed.

(** The state of [Set] on a new key before the bounds are managed. *)
Definition inserted (c : Cache) (k : K) (v : V) : Cache :=
  mkCache (UpperBound c) (LowerBound c) (<[k := v]> (values c)) (push_new k (freqs c)) (c_len c + 1).

Lemma wf_inserted c k v : wf c → values c !! k = None → wf (inserted c k v).
Proof.
  intros (Ha & Hnd & Hdom & Hl) Hk.
  assert (k ∉ order (freqs c)) as Hn by (rewrite Hdom, Hk; by intros []).
  split_and!; simpl; [by apply ascending_push_new| | |].
  - rewrite push_new_perm. by constructor.
  - intros j. rewrite push_new_perm, elem_of_cons, Hdom. destruct (decide (j = k)) as [->|].
    + rewrite lookup_insert_eq. naive_solver.
    + rewrite lookup_insert_ne by done. naive_solver.
  - rewrite map_size_insert_None by done. lia.
Qed.

Lemma Set_wf c k v : wf c → ∃ evs c', Set_ c k v = Some (evs, c') ∧ wf c'
  ∧ UpperBound c' = UpperBound c ∧ LowerBound c' = LowerBound c
  ∧ (0 < LowerBound c <= UpperBound c → c_len c <= UpperBound c → c_len c' <= UpperBound c).
Proof.
  intros Hwf. unfold Set_. destruct (values c !! k) as [w|] eqn:E.
  - eexists [], _. split_and!; [done| |done|done|simpl; lia]. apply wf_promote; [done|by rewrite E| |].
    + intros j. destruct (decide (j = k)) as [->|]; [rewrite lookup_insert_eq, E; naive_solver|].
      by rewrite lookup_insert_ne.
    + by apply map_size_insert_Some; rewrite E.
  - fold (inserted c k v). pose proof (wf_inserted c k v Hwf E) as Hwi. case_if.
    + destruct (evict_ok (Z.to_nat (c_len (inserted c k v) - LowerBound c)) _ Hwi)
        as (evs & c' & -> & W & _ & Ho & _ & _ & _ & HU & HL).
      exists evs, c'. split_and!; auto. intros ? ?. rewrite (wf_size c' W), Ho, length_drop.
      pose proof (wf_size _ Hwi). lia.
    + exists [], (inserted c k v). split_and!; auto. simpl. intros. simpl in *. lia.
Qed.

Lemma Remove_wf c k : wf c → wf (snd (Remove c k)).
Proof.
  intros Hwf. unfold Remove. pose proof Hwf as (Ha & Hnd & Hdom & _).
  destruct (values c !! k) eqn:E; simpl; [|done].
  apply (wf_delete c k (rem_entry k (freqs c))); [done| |by apply ascending_rem_entry].
  apply rem_entry_perm; [done|]. by apply Hdom; rewrite E.
Qed.

Lemma wf_empty u l : wf (mkCache u l ∅ [] 0).
Proof.
  split_and!; simpl; [done|by constructor| |done]. intros k. rewrite lookup_empty.
  split; [by intros ?%elem_of_nil|by intros []].
Qed.

(** The operations that change a cache; each runs under the mutex, so any
    interleaving of callers is a sequence of them. *)
Inductive lfu_step (c : Cache) : Cache → Prop :=
| step_Get k : lfu_step c (snd (Get c k))
| step_Set k v evs c' : Set_ c k v = Some (evs, c') → lfu_step c c'
| step_Evict n evs c' : Evict c n = Some (evs, c') → lfu_step c c'
| step_Remove k : lfu_step c (snd (Remove c k))
| step_Purge : lfu_step c (Purge c).

Definition within (cap : Z) (c : Cache) : Prop :=
  wf c ∧ UpperBound c = cap ∧ LowerBound c = cap ∧ (0 < cap → Len c <= cap).

Lemma New_within cap : 0 <= cap → within cap (New cap).
Proof.
  unfold New, within, Len. intros ?. case_if; simpl; split_and!; try lia; by apply wf_empty.
Qed.

Lemma step_within cap c c' : within cap c → lfu_step c c' → within cap c'.
Proof.
  unfold within, Len. intros (Hwf & HU & HL & Hlen) [k|k v evs d E|n evs d E|k|].
  - split; [by apply Get_wf|]. unfold Get. by destruct (values c !! k).
  - destruct (Set_wf c k v Hwf) as (evs' & d' & E' & W & ? & ? & Hb). rewrite E in E'. simplify_eq.
    split_and!; auto with congruence. intros. apply Hb; lia.
  - destruct (evict_ok (Z.to_nat n) c Hwf) as (evs' & d' & E' & W & _ & Ho & _ & _ & _ & ? & ?).
    unfold Evict in E. rewrite E in E'. simplify_eq. split_and!; auto with congruence.
    rewrite (wf_size _ W), Ho, length_drop. rewrite (wf_size _ Hwf) in Hlen. lia.
  - split; [by apply Remove_wf|]. unfold Remove. destruct (values c !! k); simpl; split_and!; auto with lia.
  - simpl. split_and!; [apply wf_empty|done|done|lia].
Qed.

(** *** What a use does *)

Lemma freq_present c k : wf c → is_Some (values c !! k) → Some (GetFrequency c k) = freq_of k (freqs c).
Proof.
  intros (_ & _ & Hdom & _) Hk. unfold GetFrequency, Has. rewrite bool_decide_true by done.
  apply Hdom, freq_of_order in Hk as [f ->]. done.
Qed.

Lemma promote_frequency c k vs j : wf c → is_Some (values c !! k) →
  (∀ i, is_Some (vs !! i) ↔ is_Some (values c !! i)) →
  GetFrequency (with_freqs (with_values c vs) (promote k (freqs c))) j
  = GetFrequency c j + (if decide (j = k) then 1 else 0).
Proof.
  intros (_ & Hnd & Hdom & _) Hk Hvs. pose proof (proj2 (Hdom k) Hk) as Hin.
  unfold GetFrequency, Has. simpl. rewrite freq_promote by done.
  rewrite (bool_decide_ext _ _ (Hvs j)). case_decide as Hj; [subst j|case_if; lia].
  rewrite bool_decide_true by done. apply freq_of_order in Hin as [f ->]. simpl. lia.
Qed.

Lemma insert_present (vs : gmap K V) k v : is_Some (vs !! k) → ∀ j, is_Some (<[k:=v]> vs !! j) ↔ is_Some (vs !! j).
Proof.
  intros Hk j. destruct (decide (j = k)) as [->|]; [rewrite lookup_insert_eq; naive_solver|].
  by rewrite lookup_insert_ne.
Qed.

Lemma inserted_frequency c k v j : wf c → values c !! k = None →
  GetFrequency (inserted c k v) j = if decide (j = k) then 1 else GetFrequency c j.
Proof.
  intros (_ & Hnd & Hdom & _) Hk. assert (k ∉ order (freqs c)) as Hn by (rewrite Hdom, Hk; by intros []).
  unfold GetFrequency, Has. simpl. unfold push_new. rewrite freq_push by done. case_decide as Hj.
  - subst j. by rewrite lookup_insert_eq, bool_decide_true by done.
  - by rewrite lookup_insert_ne by done.
Qed.

(** The victim of a new key in a full cache. *)
Definition victim (c : Cache) (k : K) : K :=
  match freqs c with (1, j :: _) :: _ => j | _ => k end.

Lemma order_push_new_head c k : wf c → head (order (push_new k (freqs c))) = Some (victim c k).
Proof.
  intros (Ha & _). unfold push_new, push_next, victim. destruct (freqs c) as [|[g js] r]; [done|].
  destruct Ha as (Hg & Hne & _). case_if.
  - replace g with 1 by lia. by destruct js.
  - destruct g as [|[| |]|]; try done.
Qed.

Lemma victim_cases c k : wf c →
  (victim c k = k ∧ ∀ j, Has c j = true → 2 <= GetFrequency c j)
  ∨ (Has c (victim c k) = true ∧ GetFrequency c (victim c k) = 1).
Proof.
  intros Hwf. pose proof Hwf as (Ha & Hnd & Hdom & _). unfold victim.
  destruct (freqs c) as [|[g [|i js]] r] eqn:Ef; simpl in Ha.
  - left. split; [done|]. intros j Hj%bool_decide_eq_true. apply Hdom in Hj. by apply elem_of_nil in Hj.
  - naive_solver.
  - destruct Ha as (Hg & _ & Har). destruct (decide (g = 1)) as [->|Hg1].
    + right. assert (is_Some (values c !! i)) as Hi by (apply Hdom; by left).
      unfold GetFrequency, Has. rewrite !bool_decide_true by done. split; [done|].
      rewrite Ef, freq_cons, decide_True by (by left). done.
    + left. split; [destruct g as [|[]|]; naive_solver|]. intros j Hj%bool_decide_eq_true.
      pose proof (freq_present c j Hwf Hj) as Hf. symmetry in Hf. rewrite Ef, freq_cons in Hf.
      case_decide; [simplify_eq; lia|]. apply (freq_above _ _ _ _ Har) in Hf. lia.
Qed.

(** A new key in a full cache: one key leaves, the least frequent and oldest,
    counting the new key, whose frequency is 1. *)
Lemma Set_full c k v : wf c → values c !! k = None → UpperBound c = LowerBound c →
  0 < LowerBound c → c_len c = LowerBound c →
  ∃ w c', Set_ c k v = Some ([(victim c k, w)], c') ∧ wf c' ∧ Len c' = Len c
  ∧ ∀ j, Peek c' j = if decide (j = victim c k) then None else if decide (j = k) then Some v else Peek c j.
Proof.
  intros Hwf Hk HU HL Hlen. unfold Set_. rewrite Hk. fold (inserted c k v).
  pose proof (wf_inserted c k v Hwf Hk) as Hwi.
  assert ((UpperBound c >? 0) && (LowerBound c >? 0) && (c_len (inserted c k v) >? UpperBound c) = true)
    as -> by (simpl; lia).
  replace (Z.to_nat _) with 1%nat by (simpl; lia).
  destruct (evict_ok 1 _ Hwi) as (evs & c' & -> & W & Hev & Ho & Hv & _ & Hvs & _).
  pose proof (order_push_new_head c k Hwf) as Hh. simpl in Hev, Ho, Hv.
  destruct (order (push_new k (freqs c))) as [|x l] eqn:Eo; [done|]. simpl in Hh. injection Hh as ->.
  destruct evs as [|[x w] [|]]; simplify_eq/=. exists w, c'. split_and!; auto.
  - unfold Len. rewrite (wf_size _ W), Ho. pose proof (wf_size _ Hwi) as Hs. simpl in Hs.
    rewrite Eo in Hs. simpl in Hs. rewrite drop_0. lia.
  - intros j. case_decide as Hj.
    + subst j. destruct W as (_ & _ & Hd & _). apply eq_None_not_Some. unfold Peek. rewrite <-Hd, Ho.
      destruct Hwi as (_ & Hnd & _). simpl in Hnd. rewrite Eo in Hnd. apply NoDup_cons in Hnd as [? _]. by rewrite drop_0.
    + unfold Peek. rewrite Hv by (rewrite take_0, list_elem_of_singleton; done).
      case_decide as Hjk; [subst j; by rewrite lookup_insert_eq|by rewrite lookup_insert_ne].
Qed.

Lemma TopK_ok c n : wf c → 0 < n → ∃ ks, TopK c n = Some ks
  ∧ length ks = Z.to_nat (Z.min n (Len c))
  ∧ (∀ j i, j ∈ ks → Has c i = true → i ∉ ks → GetFrequency c i <= GetFrequency c j).
Proof.
  intros Hwf Hn. unfold TopK, Len. rewrite (proj2 (Z.ltb_ge _ _)) by lia. eexists. split; [done|].
  pose proof (wf_size c Hwf) as Hs. pose proof Hwf as (Ha & Hnd & Hdom & _).
  split; [rewrite length_take, length_rev; lia|]. rewrite Z.max_r by lia. rewrite firstn_rev.
  set (m := (length (order (freqs c)) - Z.to_nat n)%nat). intros j i Hj Hi Hni.
  apply bool_decide_eq_true in Hi. rewrite list_elem_of_In, <-in_rev, <-list_elem_of_In in Hj, Hni.
  pose proof (proj2 (Hdom i) Hi) as Hio. rewrite <-(take_drop m) in Hio. apply elem_of_app in Hio as [Hio|?]; [|done].
  assert (is_Some (values c !! j)) as Hjs.
  { apply Hdom. rewrite <-(take_drop m), elem_of_app. by right. }
  by eapply (order_by_freq 0 (freqs c) m); eauto using eq_sym, freq_present.
Qed.

Lemma evicted_first c n i j : wf c → i ∈ take n (order (freqs c)) → j ∈ drop n (order (freqs c)) →
  GetFrequency c i <= GetFrequency c j.
Proof.
  intros Hwf Hi Hj. pose proof Hwf as (Ha & Hnd & Hdom & _).
  assert (is_Some (values c !! i)) by (apply Hdom; rewrite <-(take_drop n), elem_of_app; by left).
  assert (is_Some (values c !! j)) by (apply Hdom; rewrite <-(take_drop n), elem_of_app; by right).
  by eapply (order_by_freq 0 (freqs c) n); eauto using eq_sym, freq_present.
Qed.

(** C27: In every state a cache of capacity [cap] reaches by any sequence of
    Get, Set, Evict, Remove and Purge, the buckets are non-empty and strictly
    ascending in frequency, every key of the map is in exactly one bucket, the
    length counter is the size of the map and stays within the capacity (0 is
    unbounded); and from there Set and Evict always return: their eviction loop
    never meets an empty bucket. *)
Theorem lfu_invariant cap c : 0 <= cap → rtc lfu_step (New cap) c →
  wf c ∧ (0 < cap → Len c <= cap)
  ∧ (∀ k v, is_Some (Set_ c k v)) ∧ (∀ n, is_Some (Evict c n)).
Proof.
  intros Hcap Hr. assert (within cap c) as (Hwf & _ & _ & Hlen).
  { revert c Hr. refine (rtc_ind_r _ _ _ _); eauto using New_within, step_within. }
  split_and!; [done|done| |].
  - intros k v. destruct (Set_wf c k v Hwf) as (? & ? & -> & _). done.
  - intros n. destruct (evict_ok (Z.to_nat n) c Hwf) as (? & ? & E & _). unfold Evict. by rewrite E.
Qed.

(** A use of a present key, by Get or by Set, raises its frequency by one
    and changes no other frequency; Get returns the stored value and keeps every
    value, Set replaces just that value; a new key below the bound is stored
    with frequency 1; Remove drops exactly its key. *)
Theorem lfu_use c k v : wf c →
  (∀ w, Peek c k = Some w →
     fst (Get c k) = Some w
     ∧ (∀ j, Peek (snd (Get c k)) j = Peek c j
        ∧ GetFrequency (snd (Get c k)) j = GetFrequency c j + (if decide (j = k) then 1 else 0))
     ∧ ∃ c', Set_ c k v = Some ([], c') ∧ ∀ j,
         Peek c' j = (if decide (j = k) then Some v else Peek c j)
         ∧ GetFrequency c' j = GetFrequency c j + (if decide (j = k) then 1 else 0))
  ∧ (Peek c k = None → Len c < UpperBound c →
     Get c k = (None, c)
     ∧ ∃ c', Set_ c k v = Some ([], c') ∧ ∀ j,
         Peek c' j = (if decide (j = k) then Some v else Peek c j)
         ∧ GetFrequency c' j = (if decide (j = k) then 1 else GetFrequency c j))
  ∧ (∀ j, Peek (snd (Remove c k)) j = if decide (j = k) then None else Peek c j)
  ∧ fst (Remove c k) = Has c k.
Proof.
  intros Hwf. unfold Peek at 1. split_and!.
  - intros w Hk. unfold Get, Set_. rewrite Hk. assert (is_Some (values c !! k)) as Hs by (by exists w).
    split_and!; [done| |].
    + intros j. split; [done|]. destruct c. exact (promote_frequency _ k values0 j Hwf Hs (λ _, iff_refl _)).
    + eexists. split; [done|]. intros j. split; [|by apply promote_frequency, insert_present].
      unfold Peek. simpl. case_decide; [subst; apply lookup_insert_eq|by apply lookup_insert_ne].
  - intros Hk Hlen. unfold Peek in Hk. unfold Get, Set_. rewrite Hk. split; [done|]. fold (inserted c k v).
    unfold Len in Hlen. rewrite (proj2 (Bool.andb_false_iff _ _)) by (right; simpl; lia).
    eexists. split; [done|]. intros j. split; [|by apply inserted_frequency].
    unfold Peek. simpl. case_decide; [subst; apply lookup_insert_eq|by apply lookup_insert_ne].
  - intros j. unfold Remove, Peek. destruct (values c !! k) eqn:E; simpl; case_decide; subst; auto.
    + apply lookup_delete_eq.
    + by apply lookup_delete_ne.
  - unfold Remove, Has. by destruct (values c !! k).
Qed.

(** Evict removes the first [n] keys of the eviction order, reports each
    with its value, and none of them was used more often than a key that stays,
    whose value and frequency are kept.  A new key in a full cache takes part
    in that order with frequency 1: if a key of frequency 1 is there the oldest
    such key leaves, otherwise the new key itself is evicted at once and the
    cache keeps its old content.  TopK returns the [n] most used keys. *)
Theorem lfu_eviction c n k v : wf c → 0 < n →
  (∃ evs c', Evict c n = Some (evs, c')
     ∧ map fst evs = take (Z.to_nat n) (order (freqs c))
     ∧ Forall (λ kv, Peek c kv.1 = Some kv.2) evs
     ∧ (∀ i j, i ∈ map fst evs → Has c' j = true → GetFrequency c i <= GetFrequency c j)
     ∧ (∀ j, j ∉ map fst evs → Peek c' j = Peek c j ∧ GetFrequency c' j = GetFrequency c j))
  ∧ (Has c k = false → UpperBound c = LowerBound c → 0 < LowerBound c → Len c = LowerBound c →
     ∃ w c', Set_ c k v = Some ([(victim c k, w)], c') ∧ Len c' = Len c
     ∧ (∀ j, Peek c' j = if decide (j = victim c k) then None else if decide (j = k) then Some v else Peek c j)
     ∧ ((victim c k = k ∧ ∀ j, Has c j = true → 2 <= GetFrequency c j)
        ∨ (Has c (victim c k) = true ∧ GetFrequency c (victim c k) = 1)))
  ∧ ∃ ks, TopK c n = Some ks ∧ length ks = Z.to_nat (Z.min n (Len c))
     ∧ (∀ j i, j ∈ ks → Has c i = true → i ∉ ks → GetFrequency c i <= GetFrequency c j).
Proof.
  intros Hwf Hn. split_and!; [| |by apply TopK_ok].
  - destruct (evict_ok (Z.to_nat n) c Hwf) as (evs & c' & E & W & Hev & Ho & Hv & Hf & Hvs & _).
    exists evs, c'. split_and!; [done|done|done| |].
    + intros i j Hi Hj%bool_decide_eq_true. rewrite Hev in Hi. apply W in Hj. rewrite Ho in Hj.
      by apply (evicted_first c (Z.to_nat n)).
    + intros j Hj. rewrite Hev in Hj. unfold Peek. rewrite (Hv j Hj). split; [done|].
      unfold GetFrequency, Has. rewrite (Hv j Hj). case_bool_decide as Hs; [|done].
      rewrite Hf; [done|]. apply W. by rewrite Hv.
  - intros Hk%bool_decide_eq_false HU HL Hl. apply eq_None_not_Some in Hk.
    destruct (Set_full c k v Hwf Hk HU HL Hl) as (w & c' & E & W & Hlen & Hp).
    exists w, c'. split_and!; [done|done|done|by apply victim_cases].
Qed.
End lfu.

(** ** Concrete runs *)

(** Three keys of frequency 2 in a cache of capacity 3. *)
Definition sample : Cache (K:=Z) (V:=Z) :=
  mkCache 3 3 {[ 1 := 10; 2 := 20; 3 := 30 ]} [(1, [2]); (2, [1; 3])] 3.

Lemma sample_wf : wf sample.
Proof.
  split_and!; simpl.
  - repeat split; done || lia.
  - by apply (bool_decide_eq_true_1 (NoDup [2; 1; 3])).
  - intros k. cbn. rewrite !elem_of_cons, elem_of_nil.
    rewrite !lookup_insert_is_Some', lookup_singleton_is_Some. naive_solver.
  - by vm_compute.
Qed.

Lemma lfu_invariant_witness : ∃ c, rtc lfu_step (New (K:=Z) (V:=Z) 1) c ∧ Peek c 5 = Some 50
  ∧ wf c ∧ Len c <= 1.
Proof.
  set (c1 := inserted (New (K:=Z) (V:=Z) 1) 5 50).
  assert (rtc lfu_step (New 1) c1) as Hr.
  { apply rtc_once. by apply (step_Set _ 5 50 []). }
  exists c1. destruct (lfu_invariant 1 c1 ltac:(lia) Hr) as (Hwf & Hl & _). split_and!; [done|done|done|by apply Hl].
Defined.

Lemma lfu_use_witness : wf sample ∧ Peek sample 1 = Some 10
  ∧ GetFrequency (snd (Get sample 1)) 1 = GetFrequency sample 1 + 1.
Proof.
  split_and!; [exact sample_wf|done|].
  exact (proj2 (proj1 (proj2 (proj1 (lfu_use sample 1 0 sample_wf) 10 eq_refl)) 1)).
Defined.

Lemma lfu_eviction_witness : wf sample ∧ ∃ evs c', Evict sample 2 = Some (evs, c') ∧ map fst evs = [2; 1].
Proof.
  split; [exact sample_wf|].
  destruct (lfu_eviction sample 2 7 70 sample_wf ltac:(lia)) as ((evs & c' & E & Hev & _) & _).
  exists evs, c'. split; [exact E|]. rewrite Hev. reflexivity.
Defined.
