(* ===== verification/HashRing.v ===== *)
(** * Choosing a bucket: storage/selector/hashring

    The consistent-hash circle (consistent.go) and the balancer that walks it
    until it finds a bucket that can be used (hashring.go).  A node is whatever
    the caller puts on the circle, with the [ID] and [Weight] of the [Node]
    interface; the buckets' [UseAllow] and [HasBad] are parameters too.  The
    iteration orders of the Go maps are arguments, so that the theorems hold for
    every order.

    Proved: [Get] returns the owner of the next point clockwise, adding a node
    moves names only to that node, [GetN] returns the first distinct nodes
    clockwise, and [Select] the first usable bucket. *)

From S2P Require Import Prelude GoStrings GoSort.

(** ** Hashes *)

(** hash/fnv [New32a] *)
Definition fnv1a (s : str) : Z :=
  fold_left (λ h c, u32 (Z.lxor h (byte_val c) * 16777619)) s 2166136261.

(** hash/crc32 [ChecksumIEEE], a bit at a time *)
Definition crc_bit (c : Z) : Z :=
  if Z.odd c then Z.lxor (Z.shiftr c 1) 3988292384 else Z.shiftr c 1.
Definition crc_byte (c : Z) (b : ascii) : Z := Nat.iter 8 crc_bit (Z.lxor c (byte_val b)).
Definition crc32 (s : str) : Z := Z.lxor (fold_left crc_byte s 4294967295) 4294967295.

(** The copy into a scratch array does not change the bytes. *)
Definition hashKeyCRC32 (key : str) : Z := crc32 key.
Definition hashKeyFnv (key : str) : Z := fnv1a key.

Variant ring_error := ErrEmptyCircle.

Section ring.
Context {Node : Type} (ID : Node → str) (Weight : Node → Z).

Record Consistent := mkRing {
  circles : gmap Z Node; members : gset (list ascii); sortedHashes : list Z;
  NumberOfReplicas : Z; count : Z; UseFnv : bool }.

Definition hashKey (c : Consistent) (key : str) : Z :=
  if UseFnv c then hashKeyFnv key else hashKeyCRC32 key.

Definition eltKey (elt : str) (idx weight : Z) : str :=
  format_int idx ++ "|"%char :: format_int weight ++ "|"%char :: elt.

(** The sorted keys of the map; reusing the old slice changes only its
    capacity.  [None] is the division by a zero number of replicas. *)
Definition updateSortedHashes (c : Consistent) : option Consistent :=
  if i64 (NumberOfReplicas c * 4) =? 0 then None
  else Some (mkRing (circles c) (members c) (sort_ints (map fst (map_to_list (circles c))))
               (NumberOfReplicas c) (count c) (UseFnv c)).

(** The points of an element, in the order of the two loops. *)
Definition points (c : Consistent) (elt : str) (weight : Z) : list Z :=
  concat (map (λ i, map (λ j, hashKey c (eltKey elt i j)) (seqZ 0 weight))
    (seqZ 0 (NumberOfReplicas c))).

Definition add (c : Consistent) (cache : Node) (weight : Z) : option Consistent :=
  let elt := ID cache in
  let circ := fold_left (λ m h, <[h := cache]> m) (points c elt weight) (circles c) in
  let c1 := mkRing circ ({[elt]} ∪ members c) (sortedHashes c) (NumberOfReplicas c) (count c) (UseFnv c) in
  c2 ← updateSortedHashes c1;
  Some (mkRing (circles c2) (members c2) (sortedHashes c2) (NumberOfReplicas c2) (count c2 + 1) (UseFnv c2)).

Definition Add := add.

Definition remove (c : Consistent) (elt : str) (weight : Z) : option Consistent :=
  let circ := fold_left (λ m h, delete h m) (points c elt weight) (circles c) in
  let c1 := mkRing circ (members c ∖ {[elt]}) (sortedHashes c) (NumberOfReplicas c) (count c) (UseFnv c) in
  c2 ← updateSortedHashes c1;
  Some (mkRing (circles c2) (members c2) (sortedHashes c2) (NumberOfReplicas c2) (count c2 - 1) (UseFnv c2)).

Definition Remove (c : Consistent) (cache : Node) (weight : Z) : option Consistent :=
  remove c (ID cache) weight.

(** [elts]: the caches by their ID, the last of equal ones winning. *)
Definition elts_of (caches : list Node) : gmap (list ascii) Node :=
  fold_left (λ m n, <[ID n := n]> m) caches ∅.

(** [mo] and [eo] are the orders in which [members] and [elts] are ranged over. *)
Definition Set_ (c : Consistent) (mo : list str) (eo : list Node) : option Consistent :=
  c1 ← fold_left (λ oc k, c ← oc;
         if existsb (λ v, bool_decide (k = ID v)) eo then Some c else remove c k 1) mo (Some c);
  fold_left (λ oc v, c ← oc;
    if bool_decide (ID v ∈ members c) then Some c else add c v (Weight v)) eo (Some c1).

Definition empty_ring (replicas : Z) : Consistent := mkRing ∅ ∅ [] replicas 0 true.

Definition NewConsistent (eo : list Node) (replicas : Z) : option Consistent :=
  Set_ (empty_ring replicas) [] eo.

Definition SetNumberOfReplicas (c : Consistent) (num : Z) : Consistent :=
  mkRing (circles c) (members c) (sortedHashes c) (if num <? 1 then 1 else num) (count c) (UseFnv c).

(** [sort.Search] for the first hash above the key, wrapping around. *)
Definition search (c : Consistent) (key : Z) : nat :=
  let i := Search (length (sortedHashes c)) (λ x, default 0 (sortedHashes c !! x) >? key) in
  if (length (sortedHashes c) <=? i)%nat then 0%nat else i.

(** The node of a position: an index out of range panics ([None]); a hash that
    is not on the circle would give the nil node, on which [ID] panics. *)
Definition node_at (c : Consistent) (i : nat) : option Node :=
  h ← sortedHashes c !! i; circles c !! h.

Definition Get (c : Consistent) (name : str) : option (result ring_error Node) :=
  if bool_decide (circles c = ∅) then Some (Err ErrEmptyCircle)
  else Ok <$> node_at c (search c (hashKey c name)).

Definition sliceContainsMember (set : list Node) (member : Node) : bool :=
  existsb (λ m, bool_decide (ID m = ID member)) set.

(** The loop of [GetN] from position [i].  [None]: out of fuel, or a panic. *)
Fixpoint getn_loop (fuel : nat) (c : Consistent) (start n i : nat) (res : list Node) : option (list Node) :=
  match fuel with
  | O => None
  | S f =>
      if (i =? start)%nat then Some res
      else
        let i := if (length (sortedHashes c) <=? i)%nat then 0%nat else i in
        elem ← node_at c i;
        let res := if sliceContainsMember res elem then res else res ++ [elem] in
        if (length res =? n)%nat then Some res else getn_loop f c start n (S i) res
  end.

(** A negative [n] panics in [make]. *)
Definition GetN (fuel : nat) (c : Consistent) (name : str) (n : Z)
    : option (result ring_error (list Node)) :=
  if bool_decide (circles c = ∅) then Some (Err ErrEmptyCircle)
  else
    let n := if count c <? n then count c else n in
    if n <? 0 then None
    else
      let start := search c (hashKey c name) in
      elem ← node_at c start;
      if n =? 1 then Some (Ok [elem])
      else Ok <$> getn_loop fuel c start (Z.to_nat n) (S start) [elem].

(** ** The balancer *)

Variables UseAllow HasBad : Node → bool.

Record Balancer := mkBalancer { buckets : list Node; replicas : Z; hashring : Consistent }.

Definition Rebuild (b : Balancer) (bks eo : list Node) : option Balancer :=
  mkBalancer bks (replicas b) <$> NewConsistent eo (replicas b).

(** The loop of [Select] from [i].  The result is [None] when it panics or does
    not return, [Some None] for nil. *)
Fixpoint select_loop (fuel k : nat) (b : Balancer) (name : str) (i : Z) : option (option Node) :=
  match k with
  | O => Some None
  | S k' =>
      match GetN fuel (hashring b) name i with
      | None => None
      | Some (Err _) => Some None
      | Some (Ok groups) =>
          bucket ← groups !! Z.to_nat (i - 1);
          if UseAllow bucket
          then if HasBad bucket then select_loop fuel k' b name (i + 1) else Some (Some bucket)
          else select_loop fuel k' b name (i + 1)
      end
  end.

Definition Select (fuel : nat) (b : Balancer) (name : str) : option (option Node) :=
  select_loop fuel (length (buckets b)) b name 1.

(** ** Invariant *)

(** The sorted hashes are the keys of the circle in ascending order. *)
Definition ring_ok (c : Consistent) : Prop :=
  StronglySorted Z.lt (sortedHashes c) ∧ (∀ h, h ∈ sortedHashes c ↔ is_Some (circles c !! h)).

(** The points from a position on, around the circle, and their nodes. *)
Definition clockwise (c : Consistent) (key : Z) : list Z :=
  filter (λ h, key < h) (sortedHashes c) ++ filter (λ h, h <= key) (sortedHashes c).

Definition nodes (c : Consistent) (hs : list Z) : list Node := omap (λ h, circles c !! h) hs.

(** The first occurrence of each node. *)
Definition distinct (l : list Node) : list Node :=
  fold_left (λ res x, if sliceContainsMember res x then res else res ++ [x]) l [].

Lemma sort_ints_lt l : NoDup l → StronglySorted Z.lt (sort_ints l).
Proof.
  intros Hnd. assert (StronglySorted Z.le (sort_ints l)) as Hs by (apply StronglySorted_merge_sort; apply _).
  assert (NoDup (sort_ints l)) as Hn by (unfold sort_ints; by rewrite merge_sort_Permutation).
  clear Hnd. induction Hs as [|x l' Hs IH Hx]; [constructor|]. apply NoDup_cons in Hn as [Hni Hn].
  constructor; [by apply IH|]. rewrite Forall_forall in *. intros y Hy. specialize (Hx y Hy).
  assert (x ≠ y) by (by intros ->). lia.
Qed.

Lemma update_ok c c' : updateSortedHashes c = Some c' →
  ring_ok c' ∧ circles c' = circles c ∧ members c' = members c ∧ count c' = count c
  ∧ NumberOfReplicas c' = NumberOfReplicas c ∧ UseFnv c' = UseFnv c.
Proof.
  unfold updateSortedHashes. case_if; [done|]. intros [= <-]. split; [|done]. split; simpl.
  - apply sort_ints_lt, NoDup_fst_map_to_list.
  - intros h. unfold sort_ints. rewrite merge_sort_Permutation, list_elem_of_fmap.
    setoid_rewrite is_Some_alt. split.
    + intros ((k & v) & -> & Hm%elem_of_map_to_list). simpl. by rewrite Hm.
    + destruct (circles c !! h) as [v|] eqn:E; [|done]. intros _.
      exists (h, v). split; [done|]. by apply elem_of_map_to_list.
Qed.

(** *** Positions *)

Lemma filter_all {A} (P : A → Prop) `{∀ x, Decision (P x)} (l : list A) : Forall P l → filter P l = l.
Proof. induction 1; [done|]. rewrite filter_cons_True by done. by f_equal. Qed.

Lemma filter_none {A} (P : A → Prop) `{∀ x, Decision (P x)} (l : list A) :
  Forall (λ x, ¬ P x) l → filter P l = [].
Proof. induction 1; [done|]. by rewrite filter_cons_False. Qed.

Lemma sorted_lt_nth (l : list Z) i j x y :
  StronglySorted Z.lt l → (i <= j)%nat → l !! i = Some x → l !! j = Some y → x <= y.
Proof.
  intros Hs. revert i j. induction Hs as [|a l Hs IH Ha]; intros i j Hij Hi Hj; [done|].
  destruct i, j; simplify_eq/=; [lia| |lia|].
  - rewrite Forall_forall in Ha. apply Z.lt_le_incl, Ha. by eapply list_elem_of_lookup_2.
  - by apply (IH i j); [lia|..].
Qed.

(** The binary search finds the start of the clockwise walk. *)
Lemma search_clockwise c key : ring_ok c →
  drop (search c key) (sortedHashes c) ++ take (search c key) (sortedHashes c) = clockwise c key.
Proof.
  intros [Hs _]. unfold search, clockwise. set (hs := sortedHashes c) in *.
  set (f := λ x, default 0 (hs !! x) >? key). set (i := Search (length hs) f).
  destruct (Search_spec (length hs) f) as (Hi & Hhi & Hlo). fold i in Hi, Hhi, Hlo.
  assert (Forall (λ h, h <= key) (take i hs)) as Ht.
  { apply Forall_lookup. intros j x Hj. apply lookup_take_Some in Hj as [Hj Hji].
    destruct Hlo as [Hlo|Hlo]; [lia|]. unfold f in Hlo.
    destruct (lookup_lt_is_Some_2 hs (i - 1)) as [y Hy]; [lia|]. rewrite Hy in Hlo. simpl in Hlo.
    pose proof (sorted_lt_nth hs j (i - 1) x y Hs ltac:(lia) Hj Hy). lia. }
  assert (Forall (λ h, key < h) (drop i hs)) as Hd.
  { apply Forall_lookup. intros j x Hj. rewrite lookup_drop in Hj.
    destruct Hhi as [Hhi|Hhi]; [apply lookup_lt_Some in Hj; lia|]. unfold f in Hhi.
    destruct (lookup_lt_is_Some_2 hs i) as [y Hy]; [apply lookup_lt_Some in Hj; lia|]. rewrite Hy in Hhi. simpl in Hhi.
    pose proof (sorted_lt_nth hs i (i + j) y x Hs ltac:(lia) Hy Hj). lia. }
  assert (filter (λ h, key < h) hs = drop i hs ∧ filter (λ h, h <= key) hs = take i hs) as [-> ->].
  { rewrite <-(take_drop i hs) at 1 3. rewrite !filter_app. split.
    - rewrite (filter_none _ (take i hs)), filter_all; [done|done|]. eapply Forall_impl; [exact Ht|]. simpl. lia.
    - rewrite (filter_all _ (take i hs)), filter_none, app_nil_r; [done| |done].
      eapply Forall_impl; [exact Hd|]. simpl. lia. }
  destruct (Nat.leb_spec (length hs) i) as [Hl|Hl]; [|done].
  rewrite drop_0, take_0, (drop_ge hs i), (take_ge hs i) by lia. by rewrite app_nil_r.
Qed.

Lemma search_lt c key : ring_ok c → circles c ≠ ∅ → (search c key < length (sortedHashes c))%nat.
Proof.
  intros [_ Hk] Hne. unfold search. match goal with |- context [(_ <=? ?i)%nat] => destruct (Nat.leb_spec (length (sortedHashes c)) i); [|done] end.
  destruct (sortedHashes c) as [|x l]; [|simpl; lia]. exfalso. apply Hne, map_empty. intros h.
  apply eq_None_not_Some. rewrite <-Hk. by intros ?%elem_of_nil.
Qed.

Lemma nodes_app c l l' : nodes c (l ++ l') = nodes c l ++ nodes c l'.
Proof. apply omap_app. Qed.

Lemma nodes_cons c h l n : circles c !! h = Some n → nodes c (h :: l) = n :: nodes c l.
Proof. intros E. unfold nodes. simpl. by rewrite E. Qed.

Lemma node_at_ok c i : ring_ok c → (i < length (sortedHashes c))%nat →
  ∃ h n, sortedHashes c !! i = Some h ∧ circles c !! h = Some n ∧ node_at c i = Some n.
Proof.
  intros [_ Hk] Hi. destruct (lookup_lt_is_Some_2 (sortedHashes c) i) as [h Hh]; [done|].
  destruct (proj1 (Hk h)) as [n Hn]; [by eapply list_elem_of_lookup_2|].
  exists h, n. unfold node_at. rewrite Hh. split_and!; [done|done|]. simpl. by rewrite Hn.
Qed.

(** [Get] is the first node clockwise. *)
Lemma Get_ok c name : ring_ok c → circles c ≠ ∅ →
  ∃ n, Get c name = Some (Ok n) ∧ head (nodes c (clockwise c (hashKey c name))) = Some n.
Proof.
  intros Hok Hne. pose proof (search_lt c (hashKey c name) Hok Hne) as Hlt.
  destruct (node_at_ok c _ Hok Hlt) as (h & n & Hh & Hn & Ha). exists n. unfold Get.
  rewrite bool_decide_false, Ha by done. split; [done|]. rewrite <-(search_clockwise c _ Hok).
  rewrite (drop_S _ h) by done. rewrite <-app_comm_cons, (nodes_cons _ _ _ n) by done. done.
Qed.

(** *** The successor on the circle *)

Definition nearest (key h g : Z) : Prop :=
  (key < h ∧ (key < g → h <= g)) ∨ (h <= key ∧ g <= key ∧ h <= g).

Lemma sorted_head (l : list Z) h :
  StronglySorted Z.lt l → head l = Some h ↔ h ∈ l ∧ (∀ g, g ∈ l → h <= g).
Proof.
  intros Hs. destruct Hs as [|x l Hs Hx]; simpl.
  - split; [done|]. by intros [?%elem_of_nil _].
  - rewrite Forall_forall in Hx. split.
    + intros [= ->]. split; [by left|]. intros g [->|Hg]%elem_of_cons; [lia|]. by apply Z.lt_le_incl, Hx.
    + intros [[->|Hh]%elem_of_cons Hm]; [done|]. pose proof (Hx h Hh). pose proof (Hm x ltac:(by left)). lia.
Qed.

Lemma head_clockwise c key h : ring_ok c →
  head (clockwise c key) = Some h ↔ h ∈ sortedHashes c ∧ ∀ g, g ∈ sortedHashes c → nearest key h g.
Proof.
  intros [Hs _]. unfold clockwise, nearest. set (hs := sortedHashes c) in *.
  pose proof (sorted_head _ h (strongly_sorted_filter _ (λ h, key < h) hs Hs)) as H1.
  pose proof (sorted_head _ h (strongly_sorted_filter _ (λ h, h <= key) hs Hs)) as H2.
  setoid_rewrite list_elem_of_filter in H1. setoid_rewrite list_elem_of_filter in H2.
  destruct (filter (λ h, key < h) hs) as [|x l] eqn:Ef.
  - rewrite app_nil_l, H2. assert (∀ g, g ∈ hs → g <= key) as Hle.
    { intros g Hg. destruct (decide (key < g)); [|lia]. exfalso.
      apply (not_elem_of_nil g). rewrite <-Ef. by apply list_elem_of_filter. }
    split.
    + intros [[Hk Hin] Hm]. split; [done|]. intros g Hg. right. split_and!; [done|by apply Hle|]. apply Hm; auto.
    + intros [Hin Hn]. split; [by split; [apply Hle|]|]. intros g [_ Hg]. pose proof (Hle h Hin).
      destruct (Hn g Hg); lia.
  - simpl in *. rewrite H1. assert (key < x ∧ x ∈ hs) as [Hx Hxh].
    { apply (list_elem_of_filter (λ h, key < h) hs x). rewrite Ef. by left. }
    split.
    + intros [[Hk Hin] Hm]. split; [done|]. intros g Hg. left. split; [done|]. auto.
    + intros [Hin Hn]. assert (key < h) by (destruct (Hn x Hxh); lia). split; [done|].
      intros g [Hg Hgin]. destruct (Hn g Hgin) as [[_ ?]|?]; [auto|lia].
Qed.

Lemma insert_points_lookup (ps : list Z) (m : gmap Z Node) (n : Node) h :
  fold_left (λ m h, <[h := n]> m) ps m !! h = if decide (h ∈ ps) then Some n else m !! h.
Proof.
  revert m. induction ps as [|p ps IH]; intros m; cbn [fold_left]; [by rewrite decide_False by (by intros ?%elem_of_nil)|].
  rewrite IH. destruct (decide (h ∈ ps)); [by rewrite decide_True by (by right)|].
  destruct (decide (h = p)) as [->|]; [rewrite lookup_insert_eq, decide_True by (by left); done|].
  rewrite lookup_insert_ne, decide_False; [done| |done]. intros [?|?]%elem_of_cons; congruence.
Qed.

Lemma add_ok c n w c' : add c n w = Some c' →
  ring_ok c' ∧ (∀ h, circles c' !! h = if decide (h ∈ points c (ID n) w) then Some n else circles c !! h)
  ∧ members c' = {[ID n]} ∪ members c ∧ count c' = count c + 1
  ∧ NumberOfReplicas c' = NumberOfReplicas c ∧ UseFnv c' = UseFnv c.
Proof.
  unfold add. destruct (updateSortedHashes _) as [c2|] eqn:E; simpl; [|done]. intros [= <-].
  apply update_ok in E as (Hok & Hc & Hm & Hn & Hr & Hf). simpl in *.
  split_and!; auto; [|by rewrite Hn]. intros h. rewrite Hc. apply insert_points_lookup.
Qed.

(** A point of the larger circle that is nearest and belongs to the smaller one
    is nearest there. *)
Lemma add_moves c n w c' name m : ring_ok c → circles c ≠ ∅ → add c n w = Some c' →
  Get c' name = Some (Ok m) → m = n ∨ Get c name = Some (Ok m).
Proof.
  intros Hok Hne Hadd Hget. pose proof (add_ok _ _ _ _ Hadd) as (Hok' & Hl & _ & _ & _ & Hf).
  assert (∀ h, h ∈ sortedHashes c → h ∈ sortedHashes c') as Hsub.
  { intros h Hh. apply Hok in Hh. apply Hok'. rewrite Hl. case_decide; [done|done]. }
  assert (circles c' ≠ ∅) as Hne'.
  { intros E. apply Hne, map_empty. intros h. apply eq_None_not_Some. intros Hh.
    apply Hok, Hsub, Hok' in Hh. rewrite E, lookup_empty in Hh. by destruct Hh. }
  assert (hashKey c' name = hashKey c name) as Hhk by (unfold hashKey; by rewrite Hf).
  destruct (Get_ok c' name Hok' Hne') as (m' & E & Hm). rewrite E in Hget. simplify_eq.
  rewrite Hhk in Hm. destruct (clockwise c' (hashKey c name)) as [|h l] eqn:Ec; [done|].
  pose proof (proj1 (head_clockwise c' _ h Hok') ltac:(by rewrite Ec)) as [Hin Hnear].
  destruct (proj1 (proj2 Hok' h) Hin) as [m' Hm']. rewrite (nodes_cons _ _ _ m') in Hm by done. simplify_eq/=.
  rewrite Hl in Hm'. case_decide as Hp; [left; by simplify_eq|]. right.
  destruct (Get_ok c name Hok Hne) as (k & -> & Hk). do 2 f_equal.
  assert (head (clockwise c (hashKey c name)) = Some h) as Hh.
  { apply (head_clockwise c _ h Hok). split; [apply Hok; by rewrite Hm'|]. auto. }
  destruct (clockwise c (hashKey c name)) as [|h' l']; [done|]. injection Hh as ->. rewrite (nodes_cons _ _ _ m) in Hk by done. by simplify_eq/=.
Qed.

(** *** The walk of [GetN] *)

Abbreviation keep_new := (λ res x, if sliceContainsMember res x then res else res ++ [x]).

Lemma keep_new_extends l res : ∃ t, fold_left keep_new l res = res ++ t.
Proof.
  revert res. induction l as [|x l IH]; intros res; simpl; [exists []; by rewrite app_nil_r|].
  destruct (sliceContainsMember res x); [apply IH|]. destruct (IH (res ++ [x])) as [t ->].
  exists (x :: t). by rewrite <-app_assoc.
Qed.

Definition node_of (c : Consistent) (i : nat) : list Node :=
  match node_at c i with Some n => [n] | None => [] end.

(** The positions still to visit from [i]. *)
Definition remaining (len start i : nat) : list nat :=
  if (start <? i)%nat then seq i (len - i) ++ seq 0 start else seq i (start - i).

Lemma remaining_cons len start i p r :
  (start < len)%nat → (i <= len)%nat → remaining len start i = p :: r →
  i ≠ start ∧ p = (if (len <=? i)%nat then 0%nat else i) ∧ (p < len)%nat ∧ remaining len start (S p) = r.
Proof.
  unfold remaining. intros Hs Hi. destruct (Nat.ltb_spec start i).
  - destruct (len - i)%nat as [|k] eqn:Ek; simpl.
    + destruct start; simpl; [done|]. intros [= <- <-].
      rewrite (proj2 (Nat.leb_le len i)) by lia. split_and!; [lia|done|lia|].
      destruct (Nat.ltb_spec (S start) 1); [lia|]. f_equal. lia.
    + intros [= <- <-]. rewrite (proj2 (Nat.leb_gt len i)) by lia. split_and!; [lia|done|lia|].
      rewrite (proj2 (Nat.ltb_lt _ _)) by lia. do 2 f_equal. lia.
  - destruct (start - i)%nat as [|k] eqn:Ek; simpl; [done|]. intros [= <- <-].
    rewrite (proj2 (Nat.leb_gt len i)) by lia. split_and!; [lia|done|lia|].
    destruct (Nat.ltb_spec start (S i)); [lia|]. f_equal. lia.
Qed.

Lemma getn_walk c start n r : ring_ok c → (start < length (sortedHashes c))%nat →
  ∀ fuel i res, remaining (length (sortedHashes c)) start i = r → (i <= length (sortedHashes c))%nat →
  (length res < n)%nat → (length r < fuel)%nat →
  (n <= length (fold_left keep_new (concat (map (node_of c) r)) res))%nat →
  getn_loop fuel c start n i res = Some (take n (fold_left keep_new (concat (map (node_of c) r)) res)).
Proof.
  intros Hok Hst. induction r as [|p r IH]; intros fuel i res Hr Hi Hn Hf Hd; [simpl in Hd; lia|].
  destruct fuel as [|fuel]; [simpl in Hf; lia|].
  apply remaining_cons in Hr as (Hne & Hp & Hlt & Hr); [|done|done]. cbn [getn_loop].
  rewrite (proj2 (Nat.eqb_neq i start)) by done. rewrite <-Hp.
  destruct (node_at_ok c p Hok Hlt) as (h & x & _ & _ & Hx). rewrite Hx. cbn [mbind option_bind].
  cbn [map concat] in *. unfold node_of in Hd at 1. unfold node_of at 1. rewrite Hx in Hd |- *.
  rewrite fold_left_app in Hd |- *. cbn [fold_left] in Hd |- *.
  set (res' := if sliceContainsMember res x then res else res ++ [x]) in *.
  assert (length res' <= S (length res))%nat as Hlen
    by (unfold res'; destruct (sliceContainsMember res x); rewrite ?length_app; simpl; lia).
  destruct (Nat.eqb_spec (length res') n) as [E|E].
  - destruct (keep_new_extends (concat (map (node_of c) r)) res') as [t ->].
    by rewrite <-E, take_app_length.
  - apply IH; [done|lia|lia|simpl in Hf; lia|done].
Qed.

(** The nodes at a run of positions are those of the hashes there. *)
Lemma nodes_slice c i k : ring_ok c → (i + k <= length (sortedHashes c))%nat →
  concat (map (node_of c) (seq i k)) = nodes c (take k (drop i (sortedHashes c))).
Proof.
  intros Hok. revert i. induction k as [|k IH]; intros i Hi; [done|].
  destruct (node_at_ok c i Hok) as (h & x & Hh & Hx & Ha); [lia|].
  rewrite (drop_S _ h) by done. cbn [seq map concat take]. rewrite IH by lia.
  rewrite (nodes_cons _ _ _ x) by done. unfold node_of at 1. by rewrite Ha.
Qed.

Lemma GetN_ok c name n fuel : ring_ok c → circles c ≠ ∅ → (length (sortedHashes c) < fuel)%nat →
  0 < n <= count c → n <= Z.of_nat (length (distinct (nodes c (clockwise c (hashKey c name))))) →
  GetN fuel c name n = Some (Ok (take (Z.to_nat n) (distinct (nodes c (clockwise c (hashKey c name)))))).
Proof.
  intros Hok Hne Hf Hn Hd. unfold GetN. rewrite bool_decide_false by done.
  rewrite (proj2 (Z.ltb_ge (count c) n)), (proj2 (Z.ltb_ge n 0)) by lia.
  pose proof (search_lt c (hashKey c name) Hok Hne) as Hlt. set (s := search c (hashKey c name)) in *.
  destruct (node_at_ok c s Hok Hlt) as (h & x & Hh & Hx & Ha). rewrite Ha. cbn [mbind option_bind].
  assert (nodes c (clockwise c (hashKey c name)) =
    x :: concat (map (node_of c) (remaining (length (sortedHashes c)) s (S s)))) as Hw.
  { rewrite <-(search_clockwise c _ Hok). fold s. rewrite (drop_S _ h) by done.
    rewrite <-app_comm_cons, (nodes_cons _ _ _ x), nodes_app by done. f_equal.
    unfold remaining. rewrite (proj2 (Nat.ltb_lt _ _)) by lia.
    rewrite map_app, concat_app, !nodes_slice by (done || lia). rewrite drop_0.
    rewrite (take_ge (drop (S s) _)); [done|]. rewrite length_drop. lia. }
  rewrite Hw in *. unfold distinct in *. cbn [fold_left sliceContainsMember existsb app] in *.
  destruct (Z.eqb_spec n 1) as [->|Hn1].
  - destruct (keep_new_extends (concat (map (node_of c) (remaining (length (sortedHashes c)) s (S s)))) [x]) as [t ->].
    done.
  - erewrite getn_walk; [done|done|done|done|lia|simpl; lia| |lia].
    unfold remaining. rewrite (proj2 (Nat.ltb_lt _ _)) by lia. rewrite length_app, !length_seq. lia.
Qed.

(** *** Distinct nodes *)

Lemma contains_member res x : sliceContainsMember res x = true ↔ ID x ∈ map ID res.
Proof.
  unfold sliceContainsMember. rewrite existsb_exists. setoid_rewrite bool_decide_eq_true.
  setoid_rewrite <-list_elem_of_In. rewrite list_elem_of_fmap. naive_solver.
Qed.

Lemma keep_new_ids l res : NoDup (map ID res) →
  NoDup (map ID (fold_left keep_new l res))
  ∧ (∀ i, i ∈ map ID (fold_left keep_new l res) ↔ i ∈ map ID res ∨ i ∈ map ID l)
  ∧ (∀ x, x ∈ fold_left keep_new l res → x ∈ res ∨ x ∈ l).
Proof.
  revert res. induction l as [|x l IH]; intros res Hnd; cbn [fold_left map].
  { split_and!; [done| |by auto]. intros i. rewrite elem_of_nil. naive_solver. }
  destruct (sliceContainsMember res x) eqn:E.
  - apply contains_member in E. destruct (IH res Hnd) as (H1 & H2 & H3). split_and!; [done| |].
    + intros i. rewrite H2, elem_of_cons. naive_solver.
    + intros y Hy. rewrite elem_of_cons. destruct (H3 y Hy); auto.
  - assert (ID x ∉ map ID res) as Hx by (rewrite <-contains_member, E; done).
    destruct (IH (res ++ [x])) as (H1 & H2 & H3).
    { rewrite map_app. apply NoDup_app. split_and!; [done| |apply NoDup_singleton].
      intros i Hi Hj. apply list_elem_of_singleton in Hj. by subst. }
    split_and!; [done| |].
    + intros i. rewrite H2, map_app, elem_of_app, elem_of_cons. cbn [map]. rewrite list_elem_of_singleton. naive_solver.
    + intros y Hy. destruct (H3 y Hy) as [[?|?%list_elem_of_singleton]%elem_of_app|?]; rewrite elem_of_cons; naive_solver.
Qed.

(** Every bucket of the list is reached if it owns a point. *)
Definition owned (c : Consistent) (bks : list Node) : Prop :=
  ∀ b, b ∈ bks → ∃ h, circles c !! h = Some b.

Lemma elem_of_nodes c l n : n ∈ nodes c l ↔ ∃ h, h ∈ l ∧ circles c !! h = Some n.
Proof. unfold nodes. rewrite list_elem_of_omap. done. Qed.

Lemma elem_of_clockwise c key h : h ∈ clockwise c key ↔ h ∈ sortedHashes c.
Proof.
  unfold clockwise. rewrite elem_of_app, !list_elem_of_filter. split; [naive_solver|].
  intros Hh. destruct (decide (key < h)); [by left|]. right. split; [lia|done].
Qed.

Lemma distinct_buckets c key bks : ring_ok c → NoDup (map ID bks) → owned c bks →
  (∀ h n, circles c !! h = Some n → n ∈ bks) →
  distinct (nodes c (clockwise c key)) ≡ₚ bks.
Proof.
  intros Hok Hnd Hown Hin. destruct (keep_new_ids (nodes c (clockwise c key)) [] (NoDup_nil_2)) as (H1 & H2 & H3).
  fold (distinct (nodes c (clockwise c key))) in *.
  assert (∀ x, x ∈ distinct (nodes c (clockwise c key)) → x ∈ bks) as Hsub.
  { intros x Hx. destruct (H3 x Hx) as [?%elem_of_nil|(h & _ & Hh)%elem_of_nodes]; [done|]. by apply (Hin h). }
  apply NoDup_Permutation; [by apply NoDup_fmap_1 in H1|by apply NoDup_fmap_1 in Hnd|]. intros x. split; [apply Hsub|].
  intros Hx. destruct (Hown x Hx) as [h Hh].
  assert (ID x ∈ map ID (distinct (nodes c (clockwise c key)))) as Hi.
  { apply H2. right. apply list_elem_of_fmap. exists x. split; [done|]. apply elem_of_nodes. exists h. split; [|done].
    apply elem_of_clockwise, Hok. by rewrite Hh. }
  apply list_elem_of_fmap in Hi as (y & Hxy & Hy). assert (x = y) as ->; [|done].
  pose proof (Hsub y Hy) as Hyb. apply list_elem_of_lookup in Hx as [i Hi]. apply list_elem_of_lookup in Hyb as [j Hj].
  assert (i = j) as ->; [|congruence]. eapply (NoDup_lookup (map ID bks)); [done|rewrite list_lookup_fmap, Hi; done|].
  rewrite list_lookup_fmap, Hj. simpl. by rewrite Hxy.
Qed.

(** *** Building the ring *)

Lemma add_fold eo c c' :
  fold_left (λ oc v, c ← oc; if bool_decide (ID v ∈ members c) then Some c else add c v (Weight v))
    eo (Some c) = Some c' →
  ring_ok c → NoDup (map ID eo) → (∀ v, v ∈ eo → ID v ∉ members c) →
  ring_ok c' ∧ count c' = count c + Z.of_nat (length eo)
  ∧ NumberOfReplicas c' = NumberOfReplicas c ∧ UseFnv c' = UseFnv c
  ∧ (∀ h n, circles c' !! h = Some n → circles c !! h = Some n ∨ n ∈ eo).
Proof.
  revert c. induction eo as [|v eo IH]; intros c; cbn [fold_left map].
  { intros [= <-] Hok _ _. split_and!; auto. simpl. lia. }
  cbn [mbind option_bind]. intros E Hok [Hv Hnd]%NoDup_cons Hmem.
  rewrite bool_decide_false in E by (apply Hmem; by left).
  destruct (add c v (Weight v)) as [c1|] eqn:Ea.
  - pose proof (add_ok _ _ _ _ Ea) as (Hok1 & Hl & Hm & Hc & Hr & Hf).
    destruct (IH c1 E Hok1 Hnd) as (H1 & H2 & H3 & H4 & H5).
    { intros u Hu. rewrite Hm. intros [Hu'%elem_of_singleton|Hu']%elem_of_union.
      - apply Hv. rewrite <-Hu'. by apply list_elem_of_fmap_2.
      - by apply (Hmem u); [right|]. }
    split_and!; [done| |by rewrite H3|by rewrite H4|].
    + rewrite H2, Hc. simpl. lia.
    + intros h n Hh. destruct (H5 h n Hh) as [Hn|Hn]; [|right; by right].
      rewrite Hl in Hn. case_decide; [right; simplify_eq; by left|by left].
  - exfalso. clear -E. induction eo as [|x eo IH]; [done|]. by apply IH.
Qed.

Lemma empty_ring_ok r : ring_ok (empty_ring r).
Proof.
  split; simpl; [constructor|]. intros h. rewrite lookup_empty. split; [by intros ?%elem_of_nil|by intros []].
Qed.

Lemma NewConsistent_ok eo r c : NewConsistent eo r = Some c → NoDup (map ID eo) →
  ring_ok c ∧ count c = Z.of_nat (length eo) ∧ (∀ h n, circles c !! h = Some n → n ∈ eo).
Proof.
  intros E Hnd. unfold NewConsistent, Set_ in E. cbn [fold_left mbind option_bind] in E.
  destruct (add_fold eo _ c E (empty_ring_ok r) Hnd) as (H1 & H2 & _ & _ & H5).
  { intros v _. apply not_elem_of_empty. }
  split_and!; [done|done|]. intros h n Hh. destruct (H5 h n Hh) as [Hx|]; [|done].
  simpl in Hx. by rewrite lookup_empty in Hx.
Qed.

(** The map of the caches holds each once when their IDs differ. *)
Lemma elts_of_perm bks : NoDup (map ID bks) → map snd (map_to_list (elts_of bks)) ≡ₚ bks.
Proof.
  intros Hnd. assert (elts_of bks = list_to_map (rev (map (λ n, (ID n, n)) bks))) as ->.
  { unfold elts_of. rewrite <-fold_left_rev_right. clear Hnd. rewrite <-map_rev.
    induction (rev bks) as [|x l IH]; simpl; [done|]. by rewrite IH. }
  rewrite map_to_list_to_map.
  - rewrite map_rev, map_map. simpl. rewrite map_id. symmetry. apply Permutation_rev.
  - change (fmap fst) with (map (fst (A:=list ascii) (B:=Node))).
    rewrite map_rev, map_map. simpl. by rewrite <-Permutation_rev.
Qed.

(** *** The walk of [Select] *)

Definition usable (b : Node) : bool := UseAllow b && negb (HasBad b).

Lemma select_walk fuel b name D :
  (∀ i, 0 < i <= Z.of_nat (length D) → GetN fuel (hashring b) name i = Some (Ok (take (Z.to_nat i) D))) →
  ∀ k i, 0 < i → Z.of_nat k + i = Z.of_nat (length D) + 1 →
  select_loop fuel k b name i = Some (find usable (drop (Z.to_nat (i - 1)) D)).
Proof.
  intros HG k. induction k as [|k IH]; intros i Hi Hk; cbn [select_loop].
  { rewrite drop_ge by lia. done. }
  rewrite HG by lia. destruct (lookup_lt_is_Some_2 D (Z.to_nat (i - 1))) as [x Hx]; [lia|].
  rewrite lookup_take_lt, Hx by lia. cbn [mbind option_bind]. rewrite (drop_S _ x) by done. cbn [find].
  unfold usable at 1. specialize (IH (i + 1) ltac:(lia) ltac:(lia)).
  replace (Z.to_nat (i + 1 - 1)) with (S (Z.to_nat (i - 1))) in IH by lia.
  destruct (UseAllow x), (HasBad x); simpl; done.
Qed.

(** On a circle built from buckets with distinct IDs, in whatever order the
    map of them is ranged over, [Get] always returns a bucket: the owner of the
    first point after the hash of the name, or of the lowest point when there is
    none after it.  Adding a node moves names only to that node: every name
    keeps its bucket or goes to the new one. *)
Theorem ring_lookup bks eo r c name : NoDup (map ID bks) →
  eo ≡ₚ map snd (map_to_list (elts_of bks)) → NewConsistent eo r = Some c → circles c ≠ ∅ →
  (∃ h n, Get c name = Some (Ok n) ∧ n ∈ bks ∧ circles c !! h = Some n
     ∧ ∀ g, is_Some (circles c !! g) → nearest (hashKey c name) h g)
  ∧ ∀ x w c' m, add c x w = Some c' → Get c' name = Some (Ok m) → m = x ∨ Get c name = Some (Ok m).
Proof.
  intros Hnd Heo Hnew Hne. rewrite elts_of_perm in Heo by done.
  destruct (NewConsistent_ok eo r c Hnew) as (Hok & _ & Hin); [by rewrite Heo|]. split.
  - destruct (Get_ok c name Hok Hne) as (n & HG & Hh).
    destruct (clockwise c (hashKey c name)) as [|h l] eqn:Ec; [done|].
    destruct (proj1 (head_clockwise c (hashKey c name) h Hok)) as [Hhs Hnear]; [by rewrite Ec|].
    destruct (proj1 (proj2 Hok h) Hhs) as [n' Hn']. rewrite (nodes_cons _ _ _ n') in Hh by done. simplify_eq/=.
    exists h, n. split_and!; [done|rewrite <-Heo; by eapply Hin|done|]. intros g Hg. by apply Hnear, Hok.
  - intros x w c' m. by apply add_moves.
Qed.

(** Select returns, whatever the name: the first usable bucket (one that
    allows use and is not bad) of the clockwise walk from the hash of the name,
    and nil exactly when no bucket is usable.  The walk visits every bucket
    exactly once, provided each owns a point of the circle; the fuel bounds the
    number of positions one GetN visits. *)
Theorem select_first_usable bks eo b b' name fuel :
  NoDup (map ID bks) → bks ≠ [] → eo ≡ₚ map snd (map_to_list (elts_of bks)) →
  Rebuild b bks eo = Some b' → owned (hashring b') bks →
  (length (sortedHashes (hashring b')) < fuel)%nat →
  ∃ walk, walk ≡ₚ bks
    ∧ walk = distinct (nodes (hashring b') (clockwise (hashring b') (hashKey (hashring b') name)))
    ∧ Select fuel b' name = Some (find usable walk)
    ∧ (Select fuel b' name = Some None ↔ Forall (λ x, usable x = false) bks).
Proof.
  intros Hnd Hne Heo Hreb Hown Hf. rewrite elts_of_perm in Heo by done.
  unfold Rebuild in Hreb. destruct (NewConsistent eo (replicas b)) as [c|] eqn:Hnew; simplify_eq/=.
  destruct (NewConsistent_ok eo _ c Hnew) as (Hok & Hcount & Hin); [by rewrite Heo|].
  setoid_rewrite Heo in Hin. pose proof (distinct_buckets c (hashKey c name) bks Hok Hnd Hown Hin) as HD.
  set (D := distinct (nodes c (clockwise c (hashKey c name)))) in *.
  assert (circles c ≠ ∅) as Hcne.
  { intros E. destruct bks as [|x bks]; [done|]. destruct (Hown x ltac:(by left)) as [h Hh]. by rewrite E, lookup_empty in Hh. }
  assert (Select fuel (mkBalancer bks (replicas b) c) name = Some (find usable D)) as HS.
  { unfold Select. simpl buckets. rewrite (select_walk fuel _ name D); [by rewrite drop_0| |lia|rewrite HD; lia].
    intros i Hi. apply GetN_ok; simpl; [done|done|done|rewrite Hcount, Heo, <-HD; lia|fold D; lia]. }
  exists D. do 3 (split; [done|]). rewrite HS, <-HD. clear. split.
  - intros [= Hfd]. apply Forall_forall. intros x Hx. apply (find_none _ _ Hfd). by apply list_elem_of_In.
  - intros Ha. destruct (find usable D) as [x|] eqn:E; [|done]. apply find_some in E as [Hx Hu].
    rewrite Forall_forall in Ha. apply list_elem_of_In, Ha in Hx. congruence.
Qed.
End ring.

(** ** Concrete rings *)

(** Buckets by their path, three points each; [/a] is full. *)
Definition sample_buckets : list (list ascii) := [bs "/a"; bs "/b"; bs "/c"].
Definition sample_ring := Eval vm_compute in NewConsistent (Node:=list ascii) (λ x, x) (λ _, 3) sample_buckets 1.

Example fnv_value : fnv1a (bs "hello") = 1335831723.
Proof. reflexivity. Qed.

Example crc_value : crc32 (bs "123456789") = 3421780262.
Proof. reflexivity. Qed.

Definition sample_balancer : Balancer :=
  mkBalancer sample_buckets 1 (default (empty_ring 1) sample_ring).

Lemma sample_distinct : NoDup (map (λ x : list ascii, x) sample_buckets).
Proof. apply (bool_decide_eq_true_1 _). by vm_compute. Qed.

Lemma sample_owned : owned (hashring sample_balancer) sample_buckets.
Proof.
  intros b Hb. assert (Exists (λ h, circles (hashring sample_balancer) !! h = Some b) (sortedHashes (hashring sample_balancer))) as He.
  { unfold sample_buckets in Hb. rewrite !elem_of_cons, elem_of_nil in Hb. destruct Hb as [->|[->|[->|[]]]];
      apply (bool_decide_eq_true_1 _); by vm_compute. }
  apply Exists_exists in He as (h & _ & Hh). by exists h.
Qed.

Lemma sample_built :
  NewConsistent (Node:=list ascii) (λ x, x) (λ _, 3) sample_buckets 1 = Some (hashring sample_balancer).
Proof. vm_cast_no_check (eq_refl (Some (hashring sample_balancer))). Qed.

Lemma ring_lookup_witness : NewConsistent (Node:=list ascii) (λ x, x) (λ _, 3) sample_buckets 1 = Some (hashring sample_balancer)
  ∧ ∃ n, Get (hashring sample_balancer) (bs "http://x/y") = Some (Ok n) ∧ n ∈ sample_buckets.
Proof.
  split; [exact sample_built|].
  destruct (ring_lookup (λ x, x) (λ _, 3) sample_buckets sample_buckets 1 (hashring sample_balancer)
    (bs "http://x/y") sample_distinct) as ((h & n & HG & Hin & _) & _).
  - symmetry. apply elts_of_perm, sample_distinct.
  - exact sample_built.
  - intros E. destruct (sample_owned (bs "/a")) as [h Hh]; [by left|]. by rewrite E, lookup_empty in Hh.
  - exists n. exact (conj HG Hin).
Defined.

Lemma select_first_usable_witness :
  Select (λ x : list ascii, x) (λ x, negb (bool_decide (x = bs "/a"))) (λ _, false) 20 sample_balancer (bs "obj") = Some (Some (bs "/b"))
  ∧ ∃ walk, walk ≡ₚ sample_buckets
    ∧ Select (λ x : list ascii, x) (λ x, negb (bool_decide (x = bs "/a"))) (λ _, false) 20 sample_balancer (bs "obj")
      = Some (find (usable (λ x, negb (bool_decide (x = bs "/a"))) (λ _, false)) walk).
Proof.
  split; [vm_compute; reflexivity|].
  destruct (select_first_usable (λ x : list ascii, x) (λ _, 3) (λ x, negb (bool_decide (x = bs "/a"))) (λ _, false)
    sample_buckets sample_buckets (mkBalancer [] 1 (empty_ring 1)) sample_balancer (bs "obj") 20 sample_distinct)
    as (walk & Hp & _ & HS & _).
  - done.
  - symmetry. apply elts_of_perm, sample_distinct.
  - unfold Rebuild. simpl replicas. by rewrite sample_built.
  - exact sample_owned.
  - vm_compute. lia.
  - exists walk. exact (conj Hp HS).
Defined.
