(* ===== verification/CachingState.v ===== *)
(** * The state of a request in the caching middleware

    The [Caching] value of server/middleware/caching/internal.go with the
    request, the response and the bucket it works on.  A metadata pointer is an
    optional record: every metadata value is reachable from one pointer only, so
    nothing is lost by copying.  The bucket is an interface: operations on an
    abstract store, with a view of its index; a plain map is the reference
    instance.  The context values of a request (the original ranges the
    processors leave for each other) are fields. *)

From Stdlib Require SpecFloat.
From S2P Require Import Prelude GoStrings Headers HttpRange Blocks Object.

(** ** Bodies *)

(** How a response body is put together; the readers themselves are those of
    pkg/iobuf.  [Cached] is the body [lazilyRespond] assembles, [Piped] the pipe of a
    flight over the body of its leader. *)
Inductive rbody :=
| Upstream
| Saving (b : rbody) (blockSize startAt objSize : Z)
| Window (b : rbody) (newStart newEnd rawStart rawEnd : Z)
| Cached (start stop : Z)
| Piped (src : option rbody).

Record Resp := mkResp {
  rs_StatusCode : Z; rs_Header : header; rs_ContentLength : Z; rs_Body : option rbody; rs_Trailer : header }.

Definition resp_with_header (r : Resp) (h : header) : Resp :=
  mkResp (rs_StatusCode r) h (rs_ContentLength r) (rs_Body r) (rs_Trailer r).
Definition resp_with_body (r : Resp) (b : option rbody) : Resp :=
  mkResp (rs_StatusCode r) (rs_Header r) (rs_ContentLength r) b (rs_Trailer r).
Definition resp_with_status (r : Resp) (code : Z) : Resp :=
  mkResp code (rs_Header r) (rs_ContentLength r) (rs_Body r) (rs_Trailer r).

(** ** Requests *)

Record fillRangeContext := mkFillCtx {
  newStart : Z; newEnd : Z; rawStart : Z; rawEnd : Z; fill_flag : bool }.

(** [rq_url] is [URL.String()]; the last three fields are the context values
    under [fillRangeKey], [rawRangeKey] and [prefetchRangeKey]. *)
Record Request := mkReq {
  rq_Method : str; rq_Scheme : str; rq_Host : str; rq_Path : str; rq_url : str; rq_Header : header;
  rq_fill : option fillRangeContext; rq_rawRange : option str; rq_prefetchRange : option str }.

Definition req_with_header (r : Request) (h : header) : Request :=
  mkReq (rq_Method r) (rq_Scheme r) (rq_Host r) (rq_Path r) (rq_url r) h
    (rq_fill r) (rq_rawRange r) (rq_prefetchRange r).
Definition req_with_fill (r : Request) (f : option fillRangeContext) : Request :=
  mkReq (rq_Method r) (rq_Scheme r) (rq_Host r) (rq_Path r) (rq_url r) (rq_Header r)
    f (rq_rawRange r) (rq_prefetchRange r).
Definition req_with_rawRange (r : Request) (s : option str) : Request :=
  mkReq (rq_Method r) (rq_Scheme r) (rq_Host r) (rq_Path r) (rq_url r) (rq_Header r)
    (rq_fill r) s (rq_prefetchRange r).
Definition req_with_prefetchRange (r : Request) (s : option str) : Request :=
  mkReq (rq_Method r) (rq_Scheme r) (rq_Host r) (rq_Path r) (rq_url r) (rq_Header r)
    (rq_fill r) (rq_rawRange r) s.

Definition isHead (r : Request) : bool := bool_decide (rq_Method r = bs "HEAD").
Definition isGet (r : Request) : bool := bool_decide (rq_Method r = bs "GET").

(** [cloneRequest]: the copy has the headers without the hop-by-hop ones and no
    context values.  (The URL gets the host and scheme of the request, which the
    model keeps apart.) *)
Definition cloneRequest (r : Request) : Request :=
  mkReq (rq_Method r) (rq_Scheme r) (rq_Host r) (rq_Path r) (rq_url r)
    (RemoveHopByHopHeaders (CopyHeader ∅ (rq_Header r))) None None None.

Definition newObjectIDFromRequest (r : Request) (vd : str) (includeQuery : bool) : ID :=
  if includeQuery then NewVirtualID (rq_url r) vd
  else NewVirtualID (rq_Scheme r ++ bs "://" ++ rq_Host r ++ rq_Path r) vd.

(** ** The bucket *)

(** What the middleware uses of [storage.Bucket]; every call may change the
    store.  The callers that are modelled ignore the error of a lookup and use its metadata:
    absence and a database error come with nil.  A record that does not decode comes with
    what was decoded of it; no bucket of the theorems holds one, since it holds what the
    codec wrote. *)
Class BucketOps (B S : Type) := {
  bk_lookup : S → ID → option (Metadata B) * S;
  bk_store : S → Metadata B → S;
  bk_discard : S → ID → S;
  bk_touch : S → ID → S }.

(** Identifiers are only made by [NewID] and [NewVirtualID]. *)
Definition id_wf (id : ID) : Prop := id = NewVirtualID (id_path id) (id_ext id).

Lemma id_wf_hash id : id_wf id → id_hash id = sha1_sum (Key id).
Proof. intros ->. done. Qed.

Lemma id_wf_length id : id_wf id → length (id_hash id) = 20%nat.
Proof. intros Hw. rewrite id_wf_hash by done. apply sha1_sum_length. Qed.

Lemma request_id_wf r vd q : id_wf (newObjectIDFromRequest r vd q).
Proof. unfold newObjectIDFromRequest. by destruct q. Qed.

(** The headers a bucket may drop when it stores metadata. *)
Definition internal_headers : list str := [bs "X-Protocol"; bs "X-Protocol-Cache"; bs "X-Protocol-Request-Id"].

(** The promise: an index by object hash, whose entries are the metadata that
    was stored, less the internal headers.  A discard removes at least the
    object; a bucket may remove more (the variants of a Vary index).  It holds of
    a bucket whose index operations do not fail. *)
Class ReliableBucket (B S : Type) `{BucketOps B S} := {
  bk_view : S → gmap (list ascii) (Metadata B);
  bk_stored : Metadata B → Metadata B;
  bk_stored_same : ∀ m, bk_stored m = mkMetadata (md_Flags m) (md_ID m) (md_BlockSize m) (md_Chunks m) (md_Parts m) (md_Code m)
    (md_Size m) (md_RespUnix m) (md_LastRefUnix m) (md_Refs m) (md_ExpiresAt m) (md_Headers (bk_stored m)) (md_VirtualKey m);
  bk_stored_headers : ∀ m k, canonical_key k ∉ internal_headers →
    header_values k (md_Headers (bk_stored m)) = header_values k (md_Headers m);
  bk_lookup_view : ∀ s id, fst (bk_lookup s id) = bk_view s !! id_hash id
                         ∧ bk_view (snd (bk_lookup s id)) = bk_view s;
  bk_store_view : ∀ s m, id_wf (md_ID m) → bk_view (bk_store s m) = <[id_hash (md_ID m) := bk_stored m]> (bk_view s);
  bk_discard_view : ∀ s id, bk_view (bk_discard s id) !! id_hash id = None ∧ bk_view (bk_discard s id) ⊆ bk_view s;
  bk_touch_view : ∀ s id, bk_view (bk_touch s id) = bk_view s }.

#[export] Instance map_bucket {B} : BucketOps B (gmap (list ascii) (Metadata B)) := {
  bk_lookup s id := (s !! id_hash id, s);
  bk_store s m := <[id_hash (md_ID m) := m]> s;
  bk_discard s id := delete (id_hash id) s;
  bk_touch s id := s }.

#[export] Instance map_bucket_reliable {B} : ReliableBucket B (gmap (list ascii) (Metadata B)).
Proof.
  refine {| bk_view := λ s, s; bk_stored := λ m, m |}; [by intros []|done..| |done].
  intros s id. split; [apply lookup_delete_eq|apply delete_subseteq].
Defined.

(** ** Errors *)

Inductive proc_error :=
| BizError (code : Z) (h : header)
| RangeError (e : range_error)
| UpstreamStatus (code : Z)
| ProxyError (code : Z)
| PreRequestFailed (e : proc_error)
| RespondError (code : Z).

(** ** Options and the caching value *)

Record cachingOption := mkOption {
  IncludeQueryInCacheKey : bool; FuzzyRefresh : bool; FuzzyRefreshRate : SpecFloat.spec_float; opt_SliceSize : Z; opt_VaryLimit : Z;
  opt_FillRangePercent : Z; opt_Hostname : str }.

(** Refreshing ahead of the expiry is on: it is wanted and has a rate. *)
Definition refresh_on (o : cachingOption) : bool :=
  FuzzyRefresh o && SpecFloat.SFltb (SpecFloat.S754_zero false) (FuzzyRefreshRate o).

Record Caching (B S : Type) := mkCaching {
  c_id : ID; c_md : option (Metadata B); c_rootmd : option (Metadata B); c_bucket : S;
  c_cacheStatus : CacheStatus; c_cacheable : bool; c_hit : bool; c_prefetch : bool;
  c_revalidate : bool; c_fileChanged : bool; c_noContentLen : bool; c_migration : bool }.
Arguments mkCaching {B S}. Arguments c_id {B S}. Arguments c_md {B S}. Arguments c_rootmd {B S}.
Arguments c_bucket {B S}. Arguments c_cacheStatus {B S}. Arguments c_cacheable {B S}.
Arguments c_hit {B S}. Arguments c_prefetch {B S}. Arguments c_revalidate {B S}.
Arguments c_fileChanged {B S}. Arguments c_noContentLen {B S}. Arguments c_migration {B S}.

Section setters.
Context {B S : Type}.
Implicit Types c : Caching B S.
Implicit Types m : Metadata B.

Definition set_id c x := mkCaching x (c_md c) (c_rootmd c) (c_bucket c) (c_cacheStatus c) (c_cacheable c)
  (c_hit c) (c_prefetch c) (c_revalidate c) (c_fileChanged c) (c_noContentLen c) (c_migration c).
Definition set_md c x := mkCaching (c_id c) x (c_rootmd c) (c_bucket c) (c_cacheStatus c) (c_cacheable c)
  (c_hit c) (c_prefetch c) (c_revalidate c) (c_fileChanged c) (c_noContentLen c) (c_migration c).
Definition set_rootmd c x := mkCaching (c_id c) (c_md c) x (c_bucket c) (c_cacheStatus c) (c_cacheable c)
  (c_hit c) (c_prefetch c) (c_revalidate c) (c_fileChanged c) (c_noContentLen c) (c_migration c).
Definition set_bucket c (x : S) : Caching B S := mkCaching (c_id c) (c_md c) (c_rootmd c) x (c_cacheStatus c) (c_cacheable c)
  (c_hit c) (c_prefetch c) (c_revalidate c) (c_fileChanged c) (c_noContentLen c) (c_migration c).
Definition set_status c x := mkCaching (c_id c) (c_md c) (c_rootmd c) (c_bucket c) x (c_cacheable c)
  (c_hit c) (c_prefetch c) (c_revalidate c) (c_fileChanged c) (c_noContentLen c) (c_migration c).
Definition set_cacheable c x := mkCaching (c_id c) (c_md c) (c_rootmd c) (c_bucket c) (c_cacheStatus c) x
  (c_hit c) (c_prefetch c) (c_revalidate c) (c_fileChanged c) (c_noContentLen c) (c_migration c).
Definition set_hit c x := mkCaching (c_id c) (c_md c) (c_rootmd c) (c_bucket c) (c_cacheStatus c) (c_cacheable c)
  x (c_prefetch c) (c_revalidate c) (c_fileChanged c) (c_noContentLen c) (c_migration c).
Definition set_prefetch c x := mkCaching (c_id c) (c_md c) (c_rootmd c) (c_bucket c) (c_cacheStatus c) (c_cacheable c)
  (c_hit c) x (c_revalidate c) (c_fileChanged c) (c_noContentLen c) (c_migration c).
Definition set_revalidate c x := mkCaching (c_id c) (c_md c) (c_rootmd c) (c_bucket c) (c_cacheStatus c) (c_cacheable c)
  (c_hit c) (c_prefetch c) x (c_fileChanged c) (c_noContentLen c) (c_migration c).
Definition set_fileChanged c x := mkCaching (c_id c) (c_md c) (c_rootmd c) (c_bucket c) (c_cacheStatus c) (c_cacheable c)
  (c_hit c) (c_prefetch c) (c_revalidate c) x (c_noContentLen c) (c_migration c).
Definition set_noContentLen c x := mkCaching (c_id c) (c_md c) (c_rootmd c) (c_bucket c) (c_cacheStatus c) (c_cacheable c)
  (c_hit c) (c_prefetch c) (c_revalidate c) (c_fileChanged c) x (c_migration c).

Definition md_with_headers m h := mkMetadata (md_Flags m) (md_ID m) (md_BlockSize m) (md_Chunks m) (md_Parts m)
  (md_Code m) (md_Size m) (md_RespUnix m) (md_LastRefUnix m) (md_Refs m) (md_ExpiresAt m) h (md_VirtualKey m).
Definition md_with_flags m f := mkMetadata f (md_ID m) (md_BlockSize m) (md_Chunks m) (md_Parts m)
  (md_Code m) (md_Size m) (md_RespUnix m) (md_LastRefUnix m) (md_Refs m) (md_ExpiresAt m) (md_Headers m) (md_VirtualKey m).
Definition md_with_id m i := mkMetadata (md_Flags m) i (md_BlockSize m) (md_Chunks m) (md_Parts m)
  (md_Code m) (md_Size m) (md_RespUnix m) (md_LastRefUnix m) (md_Refs m) (md_ExpiresAt m) (md_Headers m) (md_VirtualKey m).
Definition md_with_chunks m b := mkMetadata (md_Flags m) (md_ID m) (md_BlockSize m) b (md_Parts m)
  (md_Code m) (md_Size m) (md_RespUnix m) (md_LastRefUnix m) (md_Refs m) (md_ExpiresAt m) (md_Headers m) (md_VirtualKey m).
Definition md_with_parts m b := mkMetadata (md_Flags m) (md_ID m) (md_BlockSize m) (md_Chunks m) b
  (md_Code m) (md_Size m) (md_RespUnix m) (md_LastRefUnix m) (md_Refs m) (md_ExpiresAt m) (md_Headers m) (md_VirtualKey m).
Definition md_with_size m s := mkMetadata (md_Flags m) (md_ID m) (md_BlockSize m) (md_Chunks m) (md_Parts m)
  (md_Code m) s (md_RespUnix m) (md_LastRefUnix m) (md_Refs m) (md_ExpiresAt m) (md_Headers m) (md_VirtualKey m).
Definition md_with_code m k := mkMetadata (md_Flags m) (md_ID m) (md_BlockSize m) (md_Chunks m) (md_Parts m)
  k (md_Size m) (md_RespUnix m) (md_LastRefUnix m) (md_Refs m) (md_ExpiresAt m) (md_Headers m) (md_VirtualKey m).
Definition md_with_virtual m v := mkMetadata (md_Flags m) (md_ID m) (md_BlockSize m) (md_Chunks m) (md_Parts m)
  (md_Code m) (md_Size m) (md_RespUnix m) (md_LastRefUnix m) (md_Refs m) (md_ExpiresAt m) (md_Headers m) v.
(** The response, last-use and expiry times. *)
Definition md_with_times m r l e := mkMetadata (md_Flags m) (md_ID m) (md_BlockSize m) (md_Chunks m) (md_Parts m)
  (md_Code m) (md_Size m) r l (md_Refs m) e (md_Headers m) (md_VirtualKey m).

Definition hasNoCache c : bool := match c_md c with None => true | Some _ => false end.

Definition reset c : Caching B S :=
  mkCaching (c_id c) (c_md c) (c_rootmd c) (c_bucket c) (c_cacheStatus c)
    false false false false false false false.
End setters.
