(* ===== verification/VaryControl.v ===== *)
(** * Vary keys: pkg/x/http/varycontrol

    The names of a [Vary] header as a sorted list without repetition, and the
    string that identifies the variant of a request.  Proved: [Clean] is the
    sorted set of the listed names, whatever their order, repetition and
    distribution over header lines; two requests get the same variant string
    exactly when their values agree, as long as no value contains the separator;
    and a concrete pair of requests that share a variant string because of it. *)

From S2P Require Import Prelude GoStrings GoSort Headers.

Definition comma : ascii := ","%char.

Definition canonical_names (val : str) : list str :=
  let s := trim_space val in
  if bool_decide (s = []) || bool_decide (s = [comma]) then []
  else filter (λ k, k ≠ []) (map trim_space (split_byte comma s)).

Definition Clean (values : list str) : list str :=
  compact (sort_strings (concat (map canonical_names values))).

Definition Key_String (k : list str) : str := join [comma] k.

(** [Append] tests for the raw value and adds the names of it. *)
Definition Append (k : list str) (val : str) : list str :=
  match canonical_names val with
  | [] => k
  | keys => if bool_decide (val ∈ k) then k else k ++ keys
  end.

Definition splitTrimSpace (s : str) : list str :=
  match s with [] => [] | _ => map trim_space (split_byte comma s) end.

Definition sortValue (val : str) : str :=
  match trim_space val with
  | [] => []
  | v => join [comma] (sort_strings (splitTrimSpace v))
  end.

Definition sortValues (vals : list str) : str :=
  match vals with
  | [v] => sortValue v
  | _ => join [comma] (sort_strings (map sortValue vals))
  end.

(** The map from the names to their values, and its keys sorted. *)
Definition vary_map (k : list str) (h : header) : gmap (list ascii) (list ascii) :=
  fold_left (λ m key, <[key := sortValues (header_values key h)]> m) k ∅.

Definition vary_pair (kv : gmap (list ascii) (list ascii)) (key : str) : str :=
  key ++ "="%char :: default [] (kv !! key).

(** A separator before each pair but the first: the buffer is then not empty. *)
Definition VaryData (k : list str) (h : header) : str :=
  match k with
  | [] => []
  | _ => let kv := vary_map k h in
         join ["&"%char] (map (vary_pair kv) (sort_strings (map fst (map_to_list kv))))
  end.

Definition Compare (k k2 : list str) : bool := bool_decide (k = k2).

(** ** Clean *)

(** A name as [Clean] leaves it. *)
Definition name_of (v : str) (k : str) : Prop := k ∈ canonical_names v.

Lemma elem_of_Clean k vs : k ∈ Clean vs ↔ ∃ v, v ∈ vs ∧ k ∈ canonical_names v.
Proof.
  unfold Clean. rewrite elem_of_compact, sort_strings_perm, list_elem_of_In, in_concat.
  setoid_rewrite in_map_iff. setoid_rewrite <-list_elem_of_In. naive_solver.
Qed.

Lemma Clean_sorted vs : StronglySorted StrLe (Clean vs) ∧ NoDup (Clean vs).
Proof. apply compact_sorted, sort_strings_sorted. Qed.

(** Sorted lists without repetition are equal when they have the same elements. *)
Lemma sorted_set_eq (l l' : list str) : StronglySorted StrLe l → NoDup l → StronglySorted StrLe l' → NoDup l' →
  (∀ x, x ∈ l ↔ x ∈ l') → l = l'.
Proof. intros. apply (StronglySorted_unique StrLe); [done|done|]. by apply NoDup_Permutation. Qed.

Lemma Clean_eq vs vs' : (∀ k, k ∈ Clean vs ↔ k ∈ Clean vs') → Clean vs = Clean vs'.
Proof. intros. apply sorted_set_eq; try apply Clean_sorted. done. Qed.

(** *** Trimming twice is trimming once *)

Lemma strip_one_shorter seqs s t : Forall (λ p, p ≠ []) seqs → strip_one seqs s = Some t →
  (length t < length s)%nat ∧ ∃ p, s = p ++ t.
Proof.
  intros Hne. unfold strip_one. destruct (List.find _ seqs) as [p|] eqn:E; [|done]. intros [= <-].
  apply List.find_some in E as [Hin Hp]. apply has_prefix_spec in Hp as [u ->].
  rewrite Forall_forall in Hne. apply list_elem_of_In in Hin. specialize (Hne p Hin).
  rewrite drop_app_length, length_app. split; [destruct p; simpl; [done|lia]|by exists p].
Qed.

Lemma strip_all_done fuel seqs s : Forall (λ p, p ≠ []) seqs → (length s <= fuel)%nat →
  strip_one seqs (strip_all fuel seqs s) = None ∧ ∃ p, s = p ++ strip_all fuel seqs s.
Proof.
  intros Hne. revert s. induction fuel as [|fuel IH]; intros s Hl; simpl.
  - destruct s; [|simpl in Hl; lia]. split; [|by exists []]. destruct (strip_one seqs []) eqn:E; [|done].
    apply strip_one_shorter in E as [? _]; [simpl in *; lia|done].
  - destruct (strip_one seqs s) as [t|] eqn:E; [|split; [done|by exists []]].
    apply strip_one_shorter in E as [Hlt [p ->]]; [|done].
    destruct (IH t ltac:(lia)) as [H1 [q Hq]]. split; [done|]. exists (p ++ q). by rewrite <-app_assoc, <-Hq.
Qed.

Lemma strip_one_prefix seqs s t : strip_one seqs (s ++ t) = None → strip_one seqs s = None.
Proof.
  unfold strip_one. destruct (List.find _ seqs) as [p|] eqn:E; [done|]. intros _.
  destruct (List.find (λ p, has_prefix p s) seqs) as [p|] eqn:E'; [|done].
  apply List.find_some in E' as [Hin Hp]. apply has_prefix_spec in Hp as [u ->].
  pose proof (List.find_none _ _ E p Hin) as Hn. simpl in Hn.
  by rewrite <-app_assoc, has_prefix_app in Hn.
Qed.

Lemma space_seqs_ne : Forall (λ p, p ≠ []) space_seqs ∧ Forall (λ p, p ≠ []) (map (rev (A:=ascii)) space_seqs).
Proof. split; repeat (constructor; [done|]); constructor. Qed.

Lemma trim_right_prefix s : ∃ t, s = trim_right_space s ++ t.
Proof.
  unfold trim_right_space.
  destruct (strip_all_done (length s) (map (rev (A:=ascii)) space_seqs) (rev s) (proj2 space_seqs_ne)) as [_ [p Hp]];
    [by rewrite length_rev|].
  exists (rev p). rewrite <-rev_app_distr, <-Hp. by rewrite rev_involutive.
Qed.

Lemma trim_space_idemp s : trim_space (trim_space s) = trim_space s.
Proof.
  unfold trim_space. set (l := trim_left_space s).
  assert (strip_one space_seqs l = None) as Hl by (apply strip_all_done; [apply space_seqs_ne|done]).
  destruct (trim_right_prefix l) as [t Ht].
  assert (trim_left_space (trim_right_space l) = trim_right_space l) as ->.
  { apply strip_all_None. apply (strip_one_prefix _ _ t). by rewrite <-Ht. }
  unfold trim_right_space at 1. rewrite strip_all_None.
  - by rewrite rev_involutive.
  - unfold trim_right_space. rewrite rev_involutive. apply strip_all_done; [apply space_seqs_ne|by rewrite length_rev].
Qed.

Lemma trim_space_sub c s : c ∈ trim_space s → c ∈ s.
Proof.
  unfold trim_space. intros Hc. destruct (trim_right_prefix (trim_left_space s)) as [t Ht].
  assert (c ∈ trim_left_space s) as Hc' by (rewrite Ht, elem_of_app; by left).
  destruct (strip_all_done (length s) space_seqs s (proj1 space_seqs_ne)) as [_ [p Hp]]; [done|].
  rewrite Hp. apply elem_of_app. by right.
Qed.

Lemma split_byte_sep c s w : w ∈ split_byte c s → c ∉ w.
Proof.
  revert w. induction s as [|a s IH]; intros w; simpl.
  - intros ->%list_elem_of_singleton. by intros ?%elem_of_nil.
  - case_bool_decide as Ha.
    + intros [->|Hw]%elem_of_cons; [by intros ?%elem_of_nil|by apply IH].
    + destruct (split_byte c s) as [|x xs]; [intros ->%list_elem_of_singleton|intros [->|Hw]%elem_of_cons].
      * intros [?|?%elem_of_nil]%elem_of_cons; congruence.
      * intros [?|Hx]%elem_of_cons; [congruence|]. by apply (IH x); [left|].
      * apply IH. by right.
Qed.

(** A name is not empty, has no comma, and is its own list of names. *)
Lemma canonical_name v k : k ∈ canonical_names v → k ≠ [] ∧ comma ∉ k ∧ canonical_names k = [k].
Proof.
  unfold canonical_names at 1. case_if; [by intros ?%elem_of_nil|].
  rewrite list_elem_of_filter, list_elem_of_fmap. intros [Hk (w & -> & Hw)].
  assert (comma ∉ trim_space w) as Hc by (intros ?%trim_space_sub; by eapply split_byte_sep).
  split_and!; [done|done|]. unfold canonical_names. rewrite trim_space_idemp.
  rewrite bool_decide_false by done. rewrite bool_decide_false by (intros E; apply Hc; rewrite E; by left).
  simpl. rewrite split_byte_notin by done. simpl. rewrite trim_space_idemp.
  by rewrite filter_cons_True, filter_nil.
Qed.

Lemma Clean_idemp vs vs' : Clean (Clean vs ++ vs') = Clean (vs ++ vs').
Proof.
  apply Clean_eq. intros k. rewrite !elem_of_Clean. setoid_rewrite elem_of_app. setoid_rewrite elem_of_Clean. split.
  - intros (v & [(w & Hw & Hv)|Hv] & Hk); [|by eauto]. exists w. split; [by left|].
    destruct (canonical_name w v Hv) as (_ & _ & E). rewrite E in Hk. apply list_elem_of_singleton in Hk. by subst.
  - intros (v & [Hv|Hv] & Hk); [|by eauto]. exists k. split; [left; by exists v|].
    destruct (canonical_name v k Hk) as (_ & _ & ->). by left.
Qed.

(** *** Variant strings *)

Lemma vary_map_lookup (ks : list str) (h : header) (m : gmap (list ascii) (list ascii)) (key : str) :
  fold_left (λ m key, <[key := sortValues (header_values key h)]> m) ks m !! key
  = if decide (key ∈ ks) then Some (sortValues (header_values key h)) else m !! key.
Proof.
  revert m. induction ks as [|x ks IH]; intros m; cbn [fold_left]; [by rewrite decide_False by (by intros ?%elem_of_nil)|].
  rewrite IH. destruct (decide (key ∈ ks)); [by rewrite decide_True by (by right)|].
  destruct (decide (key = x)) as [->|]; [rewrite lookup_insert_eq, decide_True by (by left); done|].
  rewrite lookup_insert_ne, decide_False; [done| |done]. intros [?|?]%elem_of_cons; congruence.
Qed.

Lemma vary_keys ks h : StronglySorted StrLe ks → NoDup ks →
  sort_strings (map fst (map_to_list (vary_map ks h))) = ks.
Proof.
  intros Hs Hnd. apply (StronglySorted_unique StrLe); [apply sort_strings_sorted|done|]. rewrite sort_strings_perm.
  apply NoDup_Permutation; [apply NoDup_fst_map_to_list|done|]. intros k. rewrite list_elem_of_fmap. split.
  - intros ([x y] & -> & Hx%elem_of_map_to_list). unfold vary_map in Hx. rewrite vary_map_lookup, lookup_empty in Hx.
    simpl. by case_decide.
  - intros Hk. exists (k, sortValues (header_values k h)). split; [done|]. apply elem_of_map_to_list.
    unfold vary_map. by rewrite vary_map_lookup, decide_True.
Qed.

(** The variant string of a clean key. *)
Definition variant (h : header) (key : str) : str := key ++ "="%char :: sortValues (header_values key h).

Lemma VaryData_clean ks h : StronglySorted StrLe ks → NoDup ks →
  VaryData ks h = join ["&"%char] (map (variant h) ks).
Proof.
  intros Hs Hnd. unfold VaryData. destruct ks as [|k ks'] eqn:E; [done|]. rewrite <-E in *.
  rewrite vary_keys by done. f_equal. apply map_ext_in. intros x Hx%list_elem_of_In.
  unfold vary_pair, vary_map, variant. by rewrite vary_map_lookup, decide_True.
Qed.

(** Splitting on the separator recovers the pairs. *)
Lemma join_variants_inj ks h h' : ks ≠ [] →
  Forall (λ k, "&"%char ∉ variant h k ∧ "&"%char ∉ variant h' k) ks →
  join ["&"%char] (map (variant h) ks) = join ["&"%char] (map (variant h') ks) →
  Forall (λ k, sortValues (header_values k h) = sortValues (header_values k h')) ks.
Proof.
  intros Hne Hs E. apply (f_equal (split_byte "&"%char)) in E. rewrite !split_join in E.
  - clear Hne. induction ks as [|k ks IH]; [constructor|]. apply Forall_cons in Hs as [_ Hs]. cbn [map] in E.
    injection E as Ek E. constructor; [|by apply IH]. unfold variant in Ek. apply app_inv_head in Ek. by injection Ek.
  - by destruct ks.
  - apply Forall_map. eapply Forall_impl; [exact Hs|]. naive_solver.
  - by destruct ks.
  - apply Forall_map. eapply Forall_impl; [exact Hs|]. naive_solver.
Qed.

(** [Clean] returns the names of the Vary lines sorted and without
    repetition, so the result depends only on the set of names and cleaning a
    cleaned key (alone or with further lines) changes nothing; and for a clean
    key two requests get the same variant string if their normalised values of
    every named header agree, and only if, when neither the names nor the values
    contain an ampersand. *)
Theorem vary_key_correct (vs vs' : list str) (h h' : header) :
  (∀ k, k ∈ Clean vs ↔ ∃ v, v ∈ vs ∧ k ∈ canonical_names v)
  ∧ StronglySorted StrLe (Clean vs) ∧ NoDup (Clean vs)
  ∧ (vs ≡ₚ vs' → Clean vs = Clean vs')
  ∧ Clean (Clean vs ++ vs') = Clean (vs ++ vs')
  ∧ (Forall (λ k, sortValues (header_values k h) = sortValues (header_values k h')) (Clean vs) →
     VaryData (Clean vs) h = VaryData (Clean vs) h')
  ∧ (Forall (λ k, "&"%char ∉ variant h k ∧ "&"%char ∉ variant h' k) (Clean vs) →
     VaryData (Clean vs) h = VaryData (Clean vs) h' →
     Forall (λ k, sortValues (header_values k h) = sortValues (header_values k h')) (Clean vs)).
Proof.
  destruct (Clean_sorted vs) as [Hs Hnd]. split_and!; [intros k; apply elem_of_Clean|done|done| | | |].
  - intros Hp. apply Clean_eq. intros k. rewrite !elem_of_Clean. by setoid_rewrite Hp.
  - apply Clean_idemp.
  - intros Hv. rewrite !VaryData_clean by done. f_equal. apply map_ext_in. intros k Hk%list_elem_of_In.
    rewrite Forall_forall in Hv. unfold variant. by rewrite Hv.
  - intros Hf. rewrite !VaryData_clean by done. destruct (decide (Clean vs = [])) as [->|Hne]; [by constructor|].
    by apply join_variants_inj.
Qed.

Definition vary_sample : list str := [bs "Accept-Encoding, Accept-Language"].
Definition vary_h1 : header := {[bs "Accept-Encoding" := [bs "gzip,br"]; bs "Accept-Language" := [bs "de"]]}.
Definition vary_h2 : header := {[bs "Accept-Encoding" := [bs "br, gzip"]; bs "Accept-Language" := [bs "de"]]}.

Lemma vary_key_correct_witness :
  Clean vary_sample = [bs "Accept-Encoding"; bs "Accept-Language"]
  ∧ VaryData (Clean vary_sample) vary_h1 = VaryData (Clean vary_sample) vary_h2.
Proof.
  split; [vm_compute; reflexivity|].
  destruct (vary_key_correct vary_sample [] vary_h1 vary_h2) as (_ & _ & _ & _ & _ & Heq & _). apply Heq.
  apply (bool_decide_eq_true_1 _). vm_compute. reflexivity.
Defined.

(** The variant string does not escape its separators: two requests with
    different values of both headers get the same string, hence the same cached
    variant. *)
Theorem vary_data_collision : ∃ (k : list str) (h h' : header),
  k = Clean [bs "A, B"]
  ∧ sortValues (header_values (bs "A") h) ≠ sortValues (header_values (bs "A") h')
  ∧ sortValues (header_values (bs "B") h) ≠ sortValues (header_values (bs "B") h')
  ∧ VaryData k h = VaryData k h'.
Proof.
  exists [bs "A"; bs "B"], {[bs "A" := [bs "x&B=y"]; bs "B" := [bs "z"]]}, {[bs "A" := [bs "x"]; bs "B" := [bs "y&B=z"]]}.
  split_and!; [vm_compute; reflexivity| | |vm_compute; reflexivity]; intros E; vm_compute in E; discriminate E.
Qed.
