(* ===== verification/VaryProcessor.v ===== *)
(** * The Vary processor: server/middleware/caching/caching_vary.go

    Objects whose responses vary are kept as an index entry (the root metadata,
    with the names of the Vary header) and one metadata per variant, found by an
    identifier that contains the variant string.

    Proved: the response that makes an object vary is found again by every later
    request whose values agree, and no request with another variant string is
    answered with it; once the origin drops a name from its Vary header, the
    index keeps the old names while the variant is filed under the new ones, and
    the same request misses. *)

From S2P Require Import Prelude GoStrings GoSort Headers HttpRange Blocks Object VaryControl CachingState.

Variant vary_error :=
| ErrHeaderNoMatchVaryKey | ErrHeaderNoMatchVaryData | ErrVarySizeLimited | ErrVaryDowngradeNormal.

Definition vary : str := bs "Vary".

Section vary.
Context {B S : Type} `{BitmapOps B} `{BucketOps B S}.
Variable opt : cachingOption.
Variable maxLimit : Z.

(** The variant metadata the bucket has for the request. *)
Definition vary_lookup (c : Caching B S) (m : Metadata B) (req : Request) : option (Metadata B) * Caching B S :=
  let varyKey := Clean (header_values vary (md_Headers m)) in
  let vid := newObjectIDFromRequest req (VaryData varyKey (rq_Header req)) (IncludeQueryInCacheKey opt) in
  let '(r, s) := bk_lookup (c_bucket c) vid in (r, set_bucket c s).

Definition vary_Lookup (c : Caching B S) (req : Request) : bool * Caching B S :=
  match c_md c with
  | None => (false, c)
  | Some m =>
      if negb (IsVary m) then (true, c)
      else match vary_lookup c m req with
      | (None, c) => (false, c)
      | (Some vmd, c) => (true, set_md (set_id (set_rootmd c (Some m)) (md_ID vmd)) (Some vmd))
      end
  end.

(** [upgrade]; [m] is [c.md], which is changed. *)
Definition upgrade (now : Z) (c : Caching B S) (m : Metadata B) (resp : Resp) (id : ID) (varyData : str)
    : result vary_error (Metadata B) * Caching B S :=
  let virtualKey := Clean (md_VirtualKey m ++ [varyData]) in
  if Z.of_nat (length virtualKey) >? maxLimit then (Err ErrVarySizeLimited, c)
  else
    let m' := md_with_flags (md_with_id (md_with_virtual m virtualKey) id) FlagVaryIndex in
    let newVaryKey := header_values vary (rs_Header resp) ++ header_values vary (md_Headers m') in
    let headers := fold_left (λ h k, header_add vary k h) (Clean newVaryKey) (header_del vary (md_Headers m')) in
    let '(cr, _) := ParseContentRange (rs_Header resp) in
    (Ok (mkMetadata FlagVaryCache id (md_BlockSize m') bm_empty bm_empty (rs_StatusCode resp) (cr_ObjSize cr)
           now now 0 (md_ExpiresAt m') headers []),
     set_md c (Some m')).

(** The origin sent no Vary header. *)
Definition handleNoResponseVary (now : Z) (c : Caching B S) (m : Metadata B) (oreq : Request) (resp : Resp)
    (metaVary : list str) : result vary_error (Metadata B) * Caching B S :=
  match metaVary with
  | [] => (Err ErrHeaderNoMatchVaryKey, c)
  | _ =>
      let varyData := VaryData metaVary (rq_Header oreq) in
      if bool_decide (varyData = []) then
        (Err ErrHeaderNoMatchVaryData, set_rootmd (set_bucket c (bk_discard (c_bucket c) (c_id c))) None)
      else if maxLimit <=? Z.of_nat (length (md_VirtualKey m)) then (Err ErrVarySizeLimited, c)
      else
        let m' := if bool_decide (varyData ∈ md_VirtualKey m) then m
                  else md_with_virtual m (md_VirtualKey m ++ [varyData]) in
        let l2MetaID := newObjectIDFromRequest oreq varyData (IncludeQueryInCacheKey opt) in
        let '(cl, _) := atoi (header_get (bs "Content-Length") (rs_Header resp)) in
        (Ok (mkMetadata FlagVaryCache l2MetaID (md_BlockSize m') bm_empty bm_empty (rs_StatusCode resp) (u64 cl)
               now 0 0 (md_ExpiresAt m') (rs_Header resp) []),
         set_md c (Some m'))
  end.

(** The origin sent a Vary header. *)
Definition handleResponseVary (now : Z) (c : Caching B S) (m : Metadata B) (oreq : Request) (resp : Resp)
    (metaVary respVary : list str) : result vary_error (Metadata B) * Caching B S :=
  let build c m varyData :=
    upgrade now c m resp (newObjectIDFromRequest oreq varyData (IncludeQueryInCacheKey opt)) varyData in
  match metaVary with
  | _ :: _ =>
      if Compare metaVary respVary then
        let varyData := VaryData metaVary (rq_Header oreq) in
        let varyKey := newObjectIDFromRequest oreq varyData (IncludeQueryInCacheKey opt) in
        match bk_lookup (c_bucket c) varyKey with
        | (Some varyMeta, s) => (Ok varyMeta, set_bucket c s)
        | (None, s) => build (set_bucket c s) m varyData
        end
      else
        let c := set_bucket c (bk_discard (c_bucket c) (c_id c)) in
        let m := md_with_virtual m [] in
        match respVary with
        | [] => (Err ErrVaryDowngradeNormal,
                 set_md c (Some (md_with_flags (md_with_headers m (header_del vary (md_Headers m))) FlagCache)))
        | _ => build (set_md c (Some m)) m (VaryData respVary (rq_Header oreq))
        end
  | [] =>
      let c := if bm_count (md_Chunks m) >? 0 then set_bucket c (bk_discard (c_bucket c) (c_id c)) else c in
      let m := md_with_virtual m [] in
      build (set_md c (Some m)) m (VaryData respVary (rq_Header oreq))
  end.

Definition convertVaryMetadata (now : Z) (c : Caching B S) (m : Metadata B) (oreq : Request) (resp : Resp)
    : result vary_error (Metadata B) * Caching B S :=
  let metaVary := Clean (header_values vary (md_Headers m)) in
  let respVary := Clean (header_values vary (rs_Header resp)) in
  match respVary with
  | [] => handleNoResponseVary now c m oreq resp metaVary
  | _ => handleResponseVary now c m oreq resp metaVary respVary
  end.

(** [oreq] is [c.req].  The response is returned unchanged on every path.
    [None]: [c.md] is nil, which panics. *)
Definition vary_PostRequest (now : Z) (c : Caching B S) (oreq : Request) (resp : Resp) : option (Caching B S) :=
  match c_md c with
  | None => None
  | Some m =>
      if IsVaryCache m then Some c
      else match convertVaryMetadata now c m oreq resp with
      | (Err _, c) => Some c
      | (Ok varyMetadata, c) =>
          match c_md c with
          | None => None
          | Some m =>
              let originVary := header_values vary (md_Headers m) ++ header_values vary (rs_Header resp) in
              let root := mkMetadata FlagVaryIndex (c_id c) (md_BlockSize m) bm_empty bm_empty (md_Code m) 0
                (md_RespUnix m) (md_LastRefUnix m) (md_Refs m) (md_ExpiresAt m)
                {[vary := Clean originVary]} (md_VirtualKey m) in
              let v := md_with_times varyMetadata (md_RespUnix root) (md_LastRefUnix root) (md_ExpiresAt root) in
              Some (set_id (set_md (set_rootmd c (Some root)) (Some v)) (md_ID v))
          end
      end
  end.
End vary.

(** ** Lemmas *)

Lemma vary_values (l : list str) : header_values vary ({[vary := l]} : header) = l.
Proof.
  unfold header_values. change (canonical_key vary) with vary. by rewrite lookup_singleton_eq.
Qed.

Section vary_theorems.
Context {B S : Type} `{BitmapOps B} `{RB : ReliableBucket B S}.
Variable opt : cachingOption.
Variable maxLimit now : Z.

(** Requests for the same object. *)
Definition same_object (r r' : Request) : Prop :=
  ∀ vd, newObjectIDFromRequest r vd (IncludeQueryInCacheKey opt)
        = newObjectIDFromRequest r' vd (IncludeQueryInCacheKey opt).

Definition variant_id (r : Request) (key : list str) : ID :=
  newObjectIDFromRequest r (VaryData key (rq_Header r)) (IncludeQueryInCacheKey opt).

Lemma vary_Lookup_view (c : Caching B S) root req : c_md c = Some root → IsVary root = true →
  let key := Clean (header_values vary (md_Headers root)) in
  match bk_view (c_bucket c) !! id_hash (variant_id req key) with
  | None => fst (vary_Lookup opt c req) = false
  | Some vmd => fst (vary_Lookup opt c req) = true
      ∧ c_md (snd (vary_Lookup opt c req)) = Some vmd
      ∧ c_rootmd (snd (vary_Lookup opt c req)) = Some root
      ∧ c_id (snd (vary_Lookup opt c req)) = md_ID vmd
  end.
Proof.
  intros Hm Hv key. unfold vary_Lookup, vary_lookup. rewrite Hm, Hv. simpl negb. cbv iota.
  fold key. fold (variant_id req key).
  destruct (bk_lookup_view (c_bucket c) (variant_id req key)) as [Hl _].
  destruct (bk_lookup (c_bucket c) (variant_id req key)) as [r s]. simpl in Hl. rewrite <-Hl.
  by destruct r.
Qed.

(** What [PostRequest] leaves behind when a variant is built: the index entry
    with the names of both headers, and the variant filed under [key]. *)
Definition upgraded (c c' : Caching B S) (oreq : Request) (resp : Resp) (m : Metadata B) (key : list str) : Prop :=
  ∃ root v, c_rootmd c' = Some root ∧ c_md c' = Some v
  ∧ md_ID root = c_id c ∧ IsVary root = true
  ∧ Clean (header_values vary (md_Headers root))
    = Clean (header_values vary (md_Headers m) ++ header_values vary (rs_Header resp))
  ∧ md_ID v = variant_id oreq key ∧ IsVaryCache v = true ∧ IsVary v = false
  ∧ md_Chunks v = bm_empty ∧ md_Size v = cr_ObjSize (fst (ParseContentRange (rs_Header resp)))
  ∧ md_ExpiresAt v = md_ExpiresAt m ∧ md_BlockSize v = md_BlockSize m.

Lemma header_values_same (m : Metadata B) v : md_Headers (md_with_virtual m v) = md_Headers m.
Proof. done. Qed.

Lemma upgrade_post (c : Caching B S) m oreq resp key :
  (Z.of_nat (length (Clean (md_VirtualKey m ++ [VaryData key (rq_Header oreq)]))) <= maxLimit) →
  ∃ v c1 m1, upgrade maxLimit now c m resp (variant_id oreq key) (VaryData key (rq_Header oreq)) = (Ok v, c1)
  ∧ c_md c1 = Some m1 ∧ md_Headers m1 = md_Headers m ∧ c_id c1 = c_id c ∧ c_bucket c1 = c_bucket c
  ∧ md_ExpiresAt m1 = md_ExpiresAt m
  ∧ md_ID v = variant_id oreq key ∧ md_Flags v = FlagVaryCache ∧ md_Chunks v = bm_empty
  ∧ md_Size v = cr_ObjSize (fst (ParseContentRange (rs_Header resp))) ∧ md_BlockSize v = md_BlockSize m.
Proof.
  intros Hl. unfold upgrade.  case_if; [lia|]. destruct (ParseContentRange (rs_Header resp)) as [cr e].
  eexists _, _, _. split; [done|]. by simpl.
Qed.

(** The variant is built when the names changed or are new. *)
Lemma post_builds (c : Caching B S) m oreq resp :
  let meta := Clean (header_values vary (md_Headers m)) in
  let key := Clean (header_values vary (rs_Header resp)) in
  c_md c = Some m → IsVaryCache m = false → key ≠ [] → meta ≠ key → 
  (Z.of_nat (length (Clean [VaryData key (rq_Header oreq)])) <= maxLimit) →
  ∃ c', vary_PostRequest opt maxLimit now c oreq resp = Some c' ∧ upgraded c c' oreq resp m key.
Proof.
  intros meta key Hm Hv Hkey Hne Hl. unfold vary_PostRequest. rewrite Hm, Hv.
  unfold convertVaryMetadata. fold meta key. clearbody meta key. destruct key as [|k0 ks]; [done|].
  set (key := k0 :: ks) in *.
  assert (∃ c0, handleResponseVary opt maxLimit now c m oreq resp meta key
    = upgrade maxLimit now (set_md c0 (Some (md_with_virtual m []))) (md_with_virtual m []) resp (variant_id oreq key)
        (VaryData key (rq_Header oreq)) ∧ c_id c0 = c_id c) as (c0 & -> & Hid).
  { unfold handleResponseVary. destruct meta as [|x xs] eqn:Em.
    - case_if; (eexists; split; [done|done]).
    - unfold Compare. rewrite bool_decide_false by done. eexists. split; [done|done]. }
  destruct (upgrade_post (set_md c0 (Some (md_with_virtual m []))) (md_with_virtual m []) oreq resp key)
    as (v & c1 & m1 & -> & E1 & E2 & E3 & E4 & E5 & E6 & E7 & E8 & E9 & E10); [done|].
  rewrite E1. eexists. split; [done|]. eexists _, _. split; [done|]. split; [done|]. simpl.
  rewrite E2, E3, vary_values. simpl. rewrite Hid. split_and!; try done.
  - pose proof (Clean_idemp (header_values vary (md_Headers m) ++ header_values vary (rs_Header resp)) []) as Hc.
    by rewrite !app_nil_r in Hc.
  - unfold IsVaryCache. simpl. by rewrite E7.
  - unfold IsVary. simpl. by rewrite E7.
Qed.

(** So it is for a further variant under the same names. *)
Lemma post_extends (c : Caching B S) m oreq resp :
  let key := Clean (header_values vary (rs_Header resp)) in
  c_md c = Some m → IsVaryCache m = false → key ≠ [] → Clean (header_values vary (md_Headers m)) = key →
  bk_view (c_bucket c) !! id_hash (variant_id oreq key) = None →
  (Z.of_nat (length (Clean (md_VirtualKey m ++ [VaryData key (rq_Header oreq)]))) <= maxLimit) →
  ∃ c', vary_PostRequest opt maxLimit now c oreq resp = Some c' ∧ upgraded c c' oreq resp m key.
Proof.
  intros key Hm Hv Hkey Heq Hnone Hl. unfold vary_PostRequest. rewrite Hm, Hv. unfold convertVaryMetadata. rewrite Heq. fold key.
  destruct (bk_lookup_view (c_bucket c) (variant_id oreq key)) as [Hlk _]. rewrite Hnone in Hlk.
  assert (∃ s', handleResponseVary opt maxLimit now c m oreq resp key key
    = upgrade maxLimit now (set_bucket c s') m resp (variant_id oreq key) (VaryData key (rq_Header oreq))) as (s' & E0).
  { unfold handleResponseVary. destruct key as [|x xs] eqn:Ek; [done|]. unfold Compare. rewrite bool_decide_true by done.
    rewrite <-Ek in *. fold (variant_id oreq key). destruct (bk_lookup (c_bucket c) (variant_id oreq key)) as [r s']. cbn [fst] in Hlk. subst r. by eexists. }
  destruct (upgrade_post (set_bucket c s') m oreq resp key) as (v & c1 & m1 & E & E1 & E2 & E3 & E4 & E5 & E6 & E7 & E8 & E9 & E10); [done|].
  destruct key as [|x xs] eqn:Ek; [done|]. rewrite <-Ek in *. rewrite E0, E, E1.
  eexists. split; [done|]. eexists _, _. split; [done|]. split; [done|]. simpl.
  rewrite E2, E3, vary_values. simpl. split_and!; try done.
  - pose proof (Clean_idemp (header_values vary (md_Headers m) ++ header_values vary (rs_Header resp)) []) as Hc.
    by rewrite !app_nil_r in Hc.
  - unfold IsVaryCache. simpl. by rewrite E7.
  - unfold IsVary. simpl. by rewrite E7.
Qed.

(** The metadata of the request that made the object vary, saved by the fill
    path, and the index entry saved after it. *)
Definition saved_both (c' : Caching B S) (s : S) : S :=
  match c_md c', c_rootmd c' with Some v, Some root => bk_store (bk_store s v) root | _, _ => s end.

(** A later request finds the index entry as [c.md]. *)
Definition looked_up (c : Caching B S) (s : S) (req : Request) : Caching B S :=
  let id := newObjectIDFromRequest req [] (IncludeQueryInCacheKey opt) in
  let '(md, s) := bk_lookup s id in set_id (set_md (set_rootmd (set_bucket c s) None) md) id.

Lemma later_lookup (c c' : Caching B S) oreq resp m key s req :
  upgraded c c' oreq resp m key → c_id c = newObjectIDFromRequest oreq [] (IncludeQueryInCacheKey opt) →
  same_object oreq req → id_hash (variant_id oreq key) ≠ id_hash (c_id c) →
  ∃ v root, c_md c' = Some v ∧ c_md (looked_up c (saved_both c' s) req) = Some root ∧ IsVary root = true
  ∧ bk_view (c_bucket (looked_up c (saved_both c' s) req))
    = <[id_hash (c_id c) := root]> (<[id_hash (variant_id oreq key) := bk_stored v]> (bk_view s))
  ∧ Clean (header_values vary (md_Headers root))
    = Clean (header_values vary (md_Headers m) ++ header_values vary (rs_Header resp)).
Proof.
  intros (root & v & Hr & Hv & Hid & Hvar & Hkey & Hvid & _) Hc Hsame Hne. exists v, (bk_stored root).
  unfold looked_up, saved_both. rewrite Hv, Hr. rewrite <-(Hsame []), <-Hc.
  assert (id_wf (md_ID root)) as Hw1 by (rewrite Hid, Hc; apply request_id_wf).
  assert (id_wf (md_ID v)) as Hw2 by (rewrite Hvid; apply request_id_wf).
  destruct (bk_lookup_view (bk_store (bk_store s v) root) (c_id c)) as [Hl Hs].
  destruct (bk_lookup _ (c_id c)) as [r s']. simpl in *.
  rewrite bk_store_view, bk_store_view, Hid, Hvid in Hl, Hs by done.
  rewrite lookup_insert_eq in Hl. subst r. split; [done|]. split; [done|]. split; [|split; [done|]].
  - unfold IsVary. by rewrite bk_stored_same.
  - rewrite bk_stored_headers; [done|]. apply (bool_decide_eq_true_1 _). by vm_compute.
Qed.

(** The normalised values of the named headers agree. *)
Definition agree (key : list str) (r r' : Request) : Prop :=
  Forall (λ k, sortValues (header_values k (rq_Header r)) = sortValues (header_values k (rq_Header r'))) key.

(** No value contains the separator of the variant string. *)
Definition unambiguous (key : list str) (r : Request) : Prop := Forall (λ k, "&"%char ∉ variant (rq_Header r) k) key.

Lemma variant_agree key vs r r' : key = Clean vs → same_object r r' → agree key r r' → variant_id r' key = variant_id r key.
Proof.
  intros -> Hs Hag. unfold variant_id. destruct (Clean_sorted vs) as [Hso Hnd].
  rewrite !VaryData_clean by done. rewrite <-Hs. f_equal. f_equal. apply map_ext_in. intros k Hin%list_elem_of_In.
  unfold agree in Hag. rewrite Forall_forall in Hag. unfold variant. by rewrite (Hag k Hin).
Qed.

Lemma variant_differs key vs r r' : key = Clean vs → key ≠ [] → unambiguous key r → unambiguous key r' → ¬ agree key r r' →
  VaryData key (rq_Header r) ≠ VaryData key (rq_Header r').
Proof.
  intros -> Hne Hr Hr' Hag E. destruct (Clean_sorted vs) as [Hso Hnd]. rewrite !VaryData_clean in E by done.
  apply Hag, join_variants_inj; [done| |done]. unfold unambiguous in *. rewrite Forall_forall in Hr, Hr' |- *. auto.
Qed.


(** When the origin drops a name from its Vary header, the variant is
    filed under the new names while the index entry lists the old and the new
    ones; a repetition of the very same request then computes another variant
    string and misses (the separator does not occur in its values, and the
    bucket has nothing under that other string). *)
Theorem vary_change_misses (c : Caching B S) m oreq resp s :
  let meta := Clean (header_values vary (md_Headers m)) in
  let key := Clean (header_values vary (rs_Header resp)) in
  let both := Clean (header_values vary (md_Headers m) ++ header_values vary (rs_Header resp)) in
  c_md c = Some m → IsVaryCache m = false → key ≠ [] →
  (∃ k, k ∈ meta ∧ k ∉ key) →
  Z.of_nat (length (Clean [VaryData key (rq_Header oreq)])) <= maxLimit →
  c_id c = newObjectIDFromRequest oreq [] (IncludeQueryInCacheKey opt) →
  id_hash (variant_id oreq key) ≠ id_hash (c_id c) →
  id_hash (variant_id oreq both) ≠ id_hash (c_id c) →
  (VaryData both (rq_Header oreq) ≠ VaryData key (rq_Header oreq) →
     id_hash (variant_id oreq both) ≠ id_hash (variant_id oreq key)) →
  bk_view s !! id_hash (variant_id oreq both) = None →
  Forall (λ k, "&"%char ∉ variant (rq_Header oreq) k) both →
  ∃ c', vary_PostRequest opt maxLimit now c oreq resp = Some c' ∧ is_Some (c_md c')
  ∧ fst (vary_Lookup opt (looked_up c (saved_both c' s) oreq) oreq) = false.
Proof.
  intros meta key both Hm Hv Hk (k0 & Hk0 & Hk0') Hl Hc Hn1 Hn2 Hsha Hfresh Hamp.
  destruct (post_builds c m oreq resp Hm Hv Hk) as (c' & HP & Hup); [intros E; apply Hk0'; unfold key; by rewrite <-E|done|].
  destruct (later_lookup c c' oreq resp m key s oreq Hup Hc ltac:(done) Hn1) as (v & r & Ev & E & V & W & K).
  fold both in K.
  assert (∀ k, k ∈ key → k ∈ both) as Hsub.
  { intros k. unfold key, both. rewrite !elem_of_Clean. setoid_rewrite elem_of_app. naive_solver. }
  assert (VaryData both (rq_Header oreq) ≠ VaryData key (rq_Header oreq)) as Hd.
  { destruct (Clean_sorted (header_values vary (rs_Header resp))) as [S1 N1].
    destruct (Clean_sorted (header_values vary (md_Headers m) ++ header_values vary (rs_Header resp))) as [S2 N2].
    fold key in S1, N1. fold both in S2, N2. rewrite !VaryData_clean by done. intros Ed.
    apply (f_equal (split_byte "&"%char)) in Ed. assert (k0 ∈ both) as Hb.
    { unfold meta in Hk0. unfold both. rewrite elem_of_Clean in Hk0 |- *. setoid_rewrite elem_of_app. naive_solver. }
    rewrite Forall_forall in Hamp. rewrite !split_join in Ed.
    - apply (f_equal length) in Ed. rewrite !length_map in Ed.
      assert (length (k0 :: key) <= length both)%nat; [|simpl in *; lia].
      apply submseteq_length, NoDup_submseteq; [by constructor|]. intros k [->|?]%elem_of_cons; auto.
    - by destruct key.
    - apply Forall_map, Forall_forall. auto.
    - by destruct both; [apply elem_of_nil in Hb|].
    - apply Forall_map, Forall_forall. auto. }
  pose proof (vary_Lookup_view (looked_up c (saved_both c' s) oreq) r oreq E V) as L. cbv zeta in L.
  rewrite K, W, !lookup_insert_ne, Hfresh in L; [|by intros E'; symmetry in E'; apply Hsha in E'|done].
  exists c'. split_and!; [done|by rewrite Ev|done].
Qed.
End vary_theorems.

(** ** Concrete requests *)

Definition vp_opt : cachingOption := mkOption false false (SpecFloat.S754_zero false) 4 100 100 [].
Definition vp_req (enc lang : str) : Request :=
  mkReq (bs "GET") (bs "http") (bs "h") (bs "/p") (bs "http://h/p")
    {[bs "Accept-Encoding" := [enc]; bs "Accept-Language" := [lang]]} None None None.
Definition vp_id : ID := Eval vm_compute in NewVirtualID (bs "http://h/p") [].
Definition vp_md (h : header) : Metadata N :=
  mkMetadata 0 vp_id 4 0%N 0%N 200 10 1 1 0 100 h [].
Definition vp_caching (m : Metadata N) : Caching N (gmap (list ascii) (Metadata N)) :=
  mkCaching vp_id (Some m) None ∅ CacheMiss true false false false false false false.
Definition vp_resp (v : str) : Resp :=
  mkResp 200 {[bs "Vary" := [v]; bs "Content-Length" := [bs "10"]]} 10 (Some Upstream) ∅.

(** Refutes an equation between computed byte strings. *)
Ltac differs := let E := fresh in intros E; vm_compute in E; discriminate E.

Lemma vp_same opt r r' : rq_Scheme r = rq_Scheme r' → rq_Host r = rq_Host r' → rq_Path r = rq_Path r' →
  rq_url r = rq_url r' → same_object opt r r'.
Proof. intros E1 E2 E3 E4 vd. unfold newObjectIDFromRequest. by rewrite E1, E2, E3, E4. Qed.


Definition vp_root : Metadata N :=
  md_with_flags (vp_md {[bs "Vary" := [bs "Accept-Encoding"; bs "Accept-Language"]]}) FlagVaryIndex.

Lemma vary_change_misses_witness :
  ∃ c', vary_PostRequest vp_opt 100 7 (vp_caching vp_root) (vp_req (bs "gzip") (bs "de")) (vp_resp (bs "Accept-Encoding")) = Some c'
  ∧ fst (vary_Lookup vp_opt (looked_up vp_opt (vp_caching vp_root) (saved_both c' ∅) (vp_req (bs "gzip") (bs "de")))
       (vp_req (bs "gzip") (bs "de"))) = false.
Proof.
  destruct (vary_change_misses vp_opt 100 7 (vp_caching vp_root) vp_root (vp_req (bs "gzip") (bs "de"))
    (vp_resp (bs "Accept-Encoding")) ∅) as (c' & HP & _ & HL).
  - reflexivity.
  - reflexivity.
  - differs.
  - exists (bs "Accept-Language"). split; apply (bool_decide_eq_true_1 _); vm_compute; reflexivity.
  - vm_compute. discriminate.
  - vm_compute. reflexivity.
  - differs.
  - differs.
  - intros _. differs.
  - exact (lookup_empty (M:=gmap (list ascii)) (A:=Metadata N) _).
  - apply (bool_decide_eq_true_1 _). vm_compute. reflexivity.
  - exists c'. exact (conj HP HL).
Defined.
