(* ===== verification/FillRange.v ===== *)
(** * The range-fill processor: server/middleware/caching/caching_fillrange.go

    A ranged request is widened to whole blocks before it goes upstream, so that
    whole chunks can be cached, and the answer is cut back to what the client
    asked for.

    Proved: the range sent upstream is the one the fill percentage gives over the
    integers, whole blocks at 100 percent; with an upstream that answers it, the
    client reads exactly the requested bytes that exist, under the right Content-Range
    and Content-Length if the range ends in the object; for an open-ended range of an
    object that is not cached yet the headers promise bytes beyond its end. *)

From S2P Require Import Prelude GoStrings Headers HttpRange Blocks IoReader Object CachingState.

Record fillRange := mkFillRange { fillRangePercent : Z; chunkSize : Z }.

Definition range_key : str := bs "Range".
Definition InternalFillRangePercent : str := bs "i-x-fp".

Definition parseFillPercent (h : header) (def : Z) : Z :=
  let fp := header_get InternalFillRangePercent h in
  if bool_decide (fp = []) then def
  else match parse_uint fp with
  | (p, None) => if (p <=? 0) || (p >? 100) then 0 else p
  | _ => 0
  end.

(** The bounds of the widened range.  [None] is the division by a zero chunk
    size. *)
Definition fill_bounds (f : fillRange) (fp : Z) (rng : Range) : option fillRangeContext :=
  let cs := chunkSize f in
  if cs =? 0 then None
  else
    let maxFillSize := u64 (cs * fp) / 100 in
    let rawStart := r_Start rng in
    let newStart := i64 (u64 (u64 rawStart / cs * cs)) in
    let newStart := if i64 (rawStart - newStart) >? i64 maxFillSize then rawStart else newStart in
    let rawEnd := r_End rng in
    let newEnd := i64 (u64 (u64 (u64 (u64 rawEnd / cs + 1) * cs) - 1)) in
    let newEnd := if i64 (newEnd - rawEnd) >? i64 maxFillSize then rawEnd else newEnd in
    Some (mkFillCtx newStart newEnd rawStart rawEnd false).

Definition fill_invalid (x : fillRangeContext) : bool :=
  (rawStart x <? 0) || (rawEnd x <? 0)
  || ((rawEnd x >=? 0) && (rawEnd x <? rawStart x))
  || ((newEnd x >=? 0) && (newEnd x <? newStart x)).

(** Too much to fill, or too little wanted: the range is kept as it is. *)
Definition fill_limit (f : fillRange) (fp : Z) (x : fillRangeContext) : fillRangeContext :=
  let maxFillSize := u64 (chunkSize f * fp) / 100 in
  let minFillSize := u64 (chunkSize f * u64 (100 - fp)) / 100 in
  if ((i64 (newEnd x - newStart x) <=? i64 (chunkSize f))
      && (i64 (i64 (i64 (rawStart x - newStart x) + newEnd x) - rawEnd x) >? i64 maxFillSize))
     || (i64 (i64 (rawEnd x - rawStart x) + 1) <? i64 minFillSize)
  then mkFillCtx (rawStart x) (rawEnd x) (rawStart x) (rawEnd x) (fill_flag x)
  else x.

Definition fill_header (x : fillRangeContext) : str :=
  bs "bytes=" ++ (if newStart x >=? 0 then format_int (newStart x) else [])
  ++ "-"%char :: (if newEnd x >=? 0 then format_int (newEnd x) else []).

Section fill.
Context {B S : Type}.

(** [None] is the panic of a zero chunk size. *)
Definition fill (f : fillRange) (c : Caching B S) (req : Request) (rawRange : str) : option Request :=
  let objSize := match c_md c with Some m => md_Size m | None => max_int64 end in
  match SingleParse rawRange objSize with
  | Err _ => Some req
  | Ok rng =>
      let fp := parseFillPercent (rq_Header req) (fillRangePercent f) in
      match fill_bounds f fp rng with
      | None => None
      | Some x =>
          if fill_invalid x then Some req
          else
            let x := fill_limit f fp x in
            let req := req_with_header req (header_set range_key (fill_header x) (rq_Header req)) in
            let flag := negb (newStart x =? rawStart x) || negb (newEnd x =? rawEnd x) in
            Some (req_with_fill req
              (Some (mkFillCtx (newStart x) (newEnd x) (rawStart x) (rawEnd x) flag)))
      end
  end.

Definition fill_PreRequest (f : fillRange) (c : Caching B S) (req : Request) : option Request :=
  let rawRange := header_get range_key (rq_Header req) in
  if bool_decide (rawRange = []) || (fillRangePercent f =? 0) then Some req
  else if isHead req then Some req
  else fill f c req rawRange.

(** The context value is shared with the request: its ends are adjusted. *)
Definition adjust_fill (x : fillRangeContext) (objSize : Z) : fillRangeContext :=
  let newEnd' := if i64 (newEnd x - newStart x) >? i64 objSize
                 then i64 (i64 (newStart x + i64 objSize) - 1) else newEnd x in
  let rawEnd' := if rawEnd x >? newEnd' then newEnd' else rawEnd x in
  mkFillCtx (newStart x) newEnd' (rawStart x) rawEnd' (fill_flag x).

Definition fill_PostRequest (req : Request) (resp : Resp) : result proc_error Resp :=
  match rq_fill req with
  | Some x =>
      if (rs_StatusCode resp =? 206) && fill_flag x then
        match ParseContentRange (rs_Header resp) with
        | (_, Some err) => Err (RangeError err)
        | (cr, None) =>
            if cr_ObjSize cr <? u64 (rawStart x) then
              let headers := CopyHeadersWithout ∅ (rs_Header resp) [bs "Content-Length"; bs "Content-Range"] in
              let headers := header_set (bs "Content-Range") (bs "bytes */" ++ format_uint (cr_ObjSize cr)) headers in
              Err (BizError 416 headers)
            else
              let x := adjust_fill x (cr_ObjSize cr) in
              let body := (λ b, Window b (newStart x) (newEnd x) (rawStart x) (rawEnd x)) <$> rs_Body resp in
              let h := header_set (bs "Content-Range")
                         (BuildHeaderRange (u64 (rawStart x)) (u64 (rawEnd x)) (cr_ObjSize cr)) (rs_Header resp) in
              let h := header_set (bs "Content-Length") (format_int (i64 (i64 (rawEnd x - rawStart x) + 1))) h in
              Ok (mkResp (rs_StatusCode resp) h (rs_ContentLength resp) body (rs_Trailer resp))
        end
      else Ok resp
  | None => Ok resp
  end.
End fill.

(** ** The bounds *)

(** The widened range covers the requested one, and each end is either the
    requested one or on a block boundary. *)
Definition covers (cs : Z) (x : fillRangeContext) (a b : Z) : Prop :=
  rawStart x = a ∧ rawEnd x = b ∧ 0 <= newStart x <= a ∧ b <= newEnd x < (b / cs + 1) * cs
  ∧ (newStart x = a ∨ newStart x = a / cs * cs) ∧ (newEnd x = b ∨ newEnd x = (b / cs + 1) * cs - 1).

(** Both ends moved to block boundaries, each one if that adds at most [maxFill]. *)
Definition outward (cs maxFill a b : Z) : Z * Z :=
  (if a mod cs <=? maxFill then a - a mod cs else a,
   if cs - 1 - b mod cs <=? maxFill then b + (cs - 1 - b mod cs) else b).

(** The range that is asked for upstream, over the integers: of a block of [cs] bytes
    at most [fp] percent are filled, and a range below the rest of the percentage, or one
    whose single block needs more at both ends together, is kept. *)
Definition widened (cs fp a b : Z) : Z * Z :=
  let maxFill := cs * fp / 100 in
  let '(s, e) := outward cs maxFill a b in
  if ((e - s <=? cs) && (a - s + (e - b) >? maxFill)) || (b - a + 1 <? cs * (100 - fp) / 100) then (a, b) else (s, e).

(** With all of a block to fill, the range is widened to whole blocks. *)
Lemma widened_full cs a b : 0 < cs → 0 <= a <= b → widened cs 100 a b = (a / cs * cs, (b / cs + 1) * cs - 1).
Proof.
  intros Hc Hab. unfold widened, outward. rewrite Z.div_mul, Z.sub_diag, Z.mul_0_r, Z.div_0_l by lia.
  pose proof (Z.div_mod a cs ltac:(lia)). pose proof (Z.mod_pos_bound a cs ltac:(lia)).
  pose proof (Z.div_mod b cs ltac:(lia)). pose proof (Z.mod_pos_bound b cs ltac:(lia)).
  pose proof (Z.div_le_mono a b cs ltac:(lia) ltac:(lia)).
  rewrite (proj2 (Z.leb_le (a mod cs) cs)), (proj2 (Z.leb_le (cs - 1 - b mod cs) cs)), (proj2 (Z.ltb_ge (b - a + 1) 0)) by lia. rewrite orb_false_r.
  destruct (_ && _) eqn:E; [exfalso; apply andb_true_iff in E as [E1 E2]; zbool; nia|]. f_equal; lia.
Qed.

Section bounds.
Variables (f : fillRange) (fp a b : Z).
Hypothesis Hc : 0 < chunkSize f.
Hypothesis Hab : 0 <= a <= b.
Hypothesis Hmax : (b / chunkSize f + 1) * chunkSize f <= max_int64 + 1.
Local Abbreviation cs := (chunkSize f).
Local Abbreviation maxFill := (i64 (u64 (cs * fp) / 100)).

Lemma fill_bounds_outward : fill_bounds f fp (mkRange a b) =
  Some (mkFillCtx (fst (outward cs maxFill a b)) (snd (outward cs maxFill a b)) a b false).
Proof.
  unfold fill_bounds, outward. cbn [r_Start r_End fst snd]. rewrite (proj2 (Z.eqb_neq cs 0)) by lia.
  pose proof (Z.div_mod a cs ltac:(lia)). pose proof (Z.mod_pos_bound a cs ltac:(lia)).
  pose proof (Z.div_mod b cs ltac:(lia)). pose proof (Z.mod_pos_bound b cs ltac:(lia)).
  pose proof (Z.div_pos a cs ltac:(lia) ltac:(lia)). pose proof (Z.div_pos b cs ltac:(lia) ltac:(lia)).
  unfold_ints. assert (b / cs + 1 <= 9223372036854775808) by nia.
  rewrite (u64_id a), (u64_id b) by (unfold_ints; lia).
  rewrite (u64_id (a / cs * cs)), (u64_id (b / cs + 1)) by (unfold_ints; nia).
  rewrite (u64_id ((b / cs + 1) * cs)) by (unfold_ints; nia).
  rewrite (u64_id ((b / cs + 1) * cs - 1)) by (unfold_ints; nia).
  rewrite (i64_id (a / cs * cs)), (i64_id ((b / cs + 1) * cs - 1)) by (unfold_ints; nia).
  rewrite (i64_id (a - a / cs * cs)), (i64_id ((b / cs + 1) * cs - 1 - b)) by (unfold_ints; nia).
  replace (a / cs * cs) with (a - a mod cs) by lia. replace ((b / cs + 1) * cs - 1) with (b + (cs - 1 - b mod cs)) by lia.
  replace (a - (a - a mod cs)) with (a mod cs) by lia. replace (b + (cs - 1 - b mod cs) - b) with (cs - 1 - b mod cs) by lia.
  do 2 f_equal; repeat case_if; try done; lia.
Qed.

Lemma fill_bounds_covers : ∃ x, fill_bounds f fp (mkRange a b) = Some x ∧ covers cs x a b.
Proof.
  rewrite fill_bounds_outward. eexists. split; [reflexivity|]. unfold covers, outward. cbn [newStart newEnd rawStart rawEnd fst snd].
  pose proof (Z.div_mod a cs ltac:(lia)). pose proof (Z.mod_pos_bound a cs ltac:(lia)).
  pose proof (Z.div_mod b cs ltac:(lia)). pose proof (Z.mod_pos_bound b cs ltac:(lia)).
  pose proof (Z.div_pos a cs ltac:(lia) ltac:(lia)).
  split_and!; try done; repeat case_if; lia || (left; lia) || (right; lia) || nia.
Qed.

Lemma fill_limit_covers x : covers cs x a b →
  covers cs (fill_limit f fp x) a b ∧ fill_flag (fill_limit f fp x) = fill_flag x.
Proof.
  intros Hx. unfold fill_limit. case_if; [|done]. split; [|done].
  destruct Hx as (-> & -> & ? & ? & _). unfold covers. simpl.
  pose proof (Z.div_mod b cs ltac:(lia)). pose proof (Z.mod_pos_bound b cs ltac:(lia)).
  split_and!; auto; nia.
Qed.

(** Without wrap-around the range is the one the integers give. *)
Lemma fill_limit_widened x : b < max_int64 → 0 <= fp <= 100 → cs * 100 <= max_uint64 → cs <= max_int64 → fill_bounds f fp (mkRange a b) = Some x →
  (newStart (fill_limit f fp x), newEnd (fill_limit f fp x)) = widened cs fp a b.
Proof.
  intros Hb Hfp Hcs Hcs'. rewrite fill_bounds_outward. intros <-%Some_inj.
  assert (0 <= cs * fp / 100 <= cs ∧ 0 <= cs * (100 - fp) / 100 <= cs) as [Hm1 Hm2].
  { split; (split; [apply Z.div_pos; nia|apply Z.div_le_upper_bound; nia]). }
  assert (maxFill = cs * fp / 100) as Em.
  { unfold_ints. rewrite u64_id by (unfold_ints; nia). apply i64_id. unfold_ints. lia. }
  assert (i64 (u64 (cs * u64 (100 - fp)) / 100) = cs * (100 - fp) / 100) as En.
  { unfold_ints. rewrite (u64_id (100 - fp)), u64_id by (unfold_ints; nia). apply i64_id. unfold_ints. lia. }
  pose proof (Z.div_mod a cs ltac:(lia)). pose proof (Z.mod_pos_bound a cs ltac:(lia)).
  pose proof (Z.div_mod b cs ltac:(lia)). pose proof (Z.mod_pos_bound b cs ltac:(lia)).
  pose proof (Z.div_pos a cs ltac:(lia) ltac:(lia)).
  unfold fill_limit, widened. cbn [newStart newEnd rawStart rawEnd fill_flag]. rewrite Em, En.
  destruct (outward cs (cs * fp / 100) a b) as [s e] eqn:Eo.
  assert (a - cs < s <= a ∧ 0 <= s ∧ b <= e < b + cs ∧ e <= max_int64) as (Hs & Hs0 & He & Hem).
  { unfold outward in Eo. injection Eo as <- <-. unfold_ints. repeat case_if; nia. }
  cbn [fst snd]. unfold_ints.
  rewrite (i64_id (e - s)), (i64_id cs), (i64_id (a - s)), (i64_id (b - a)) by (unfold_ints; lia).
  rewrite (i64_id (b - a + 1)), i64_sub, (i64_id (a - s + e - b)) by (unfold_ints; lia).
  replace (a - s + e - b) with (a - s + (e - b)) by lia. case_if; done.
Qed.
End bounds.

(** ** Answering the client *)

(** What a client reads from a body, when [r] is the reader of the body [up]. *)
Inductive reads {R} `{Reader R} (r : R) (up : rbody) : rbody → str → Prop :=
| reads_up d : delivers r d EOF → reads r up up d
| reads_window ns ne rs re d : delivers (RangeReader r ns ne rs re) d EOF → reads r up (Window up ns ne rs re) d.

Definition no_overflow (cs b size : Z) : Prop := (b / cs + 1) * cs <= max_int64 ∧ size <= max_int64.

(** The end that the answer announces when the range runs past the end of the object:
    the size bounds the length of the widened range, not its end. *)
Definition announced_end (x : fillRangeContext) (size : Z) : Z :=
  if newEnd x - newStart x >? size then Z.min (rawEnd x) (newStart x + size - 1) else rawEnd x.

Lemma adjust_fill_ends cs x a b size : 0 < cs → covers cs x a b → 0 <= a <= b → a < size →
  (b / cs + 1) * cs <= max_int64 + 1 → no_overflow cs (Z.min b (size - 1)) size →
  ∃ ne, adjust_fill x size = mkFillCtx (newStart x) ne a (announced_end x size) (fill_flag x)
  ∧ announced_end x size <= b ∧ announced_end x size <= ne <= newEnd x ∧ Z.min (newEnd x) (size - 1) <= ne
  ∧ (b < size → announced_end x size = b ∧ ne < max_int64)
  ∧ (size <= b → announced_end x size = size - 1 ∧ ne = size - 1 ∧ size < max_int64 ∨ size <= announced_end x size).
Proof.
  intros Hc (Hrs & Hre & Hns & Hne & _) Hab Ha Hb [Hov Hs]. unfold adjust_fill, announced_end. rewrite Hrs, Hre. unfold_ints.
  rewrite (i64_id size), (i64_id (newEnd x - newStart x)) by (unfold_ints; lia).
  destruct (newEnd x - newStart x >? size) eqn:E; zbool.
  - rewrite (i64_id (newStart x + size)) by (unfold_ints; lia).
    rewrite (i64_id (newStart x + size - 1)) by (unfold_ints; lia).
    exists (newStart x + size - 1). split; [f_equal; case_if; lia|]. split_and!; lia.
  - exists (newEnd x). split; [f_equal; case_if; lia|]. split_and!; try lia. intros Hlt. split; [done|].
    rewrite Z.min_l in Hov by lia. lia.
Qed.

Lemma slice_window (data : str) ns a b m : 0 <= ns <= a → a <= b → b <= m → m < Z.of_nat (length data) →
  take (Z.to_nat (b - a + 1)) (drop (Z.to_nat (a - ns)) (slice data ns (m + 1))) = slice data a (b + 1).
Proof.
  intros ? ? ? ?. rewrite slice_drop, slice_take by lia. f_equal; lia.
Qed.

Section answer.
Context {B S R : Type} `{Reader R}.
Variable f : fillRange.

(** The size the range is parsed against. *)
Definition known_size (c : Caching B S) : Z := match c_md c with Some m => md_Size m | None => max_int64 end.

Lemma parseFillPercent_range h def : 0 <= def <= 100 → 0 <= parseFillPercent h def <= 100.
Proof.
  intros Hd. unfold parseFillPercent. case_bool_decide; [done|]. destruct (parse_uint _) as [p [e|]]; [lia|]. case_if; lia.
Qed.

(** What [PreRequest] does with a requested range [a-b]: the range sent upstream and the
    note left for [PostRequest]. *)
Lemma fill_PreRequest_parsed (c : Caching B S) req a b :
  0 < chunkSize f → fillRangePercent f ≠ 0 → isHead req = false →
  let raw := header_get range_key (rq_Header req) in
  raw ≠ [] → SingleParse raw (known_size c) = Ok (mkRange a b) →
  0 <= a <= b → b < max_int64 → (b / chunkSize f + 1) * chunkSize f <= max_int64 + 1 →
  let fp := parseFillPercent (rq_Header req) (fillRangePercent f) in
  ∃ req' x, fill_PreRequest f c req = Some req' ∧ rq_fill req' = Some x ∧ covers (chunkSize f) x a b
  ∧ fill_flag x = negb (newStart x =? a) || negb (newEnd x =? b)
  ∧ header_get range_key (rq_Header req') = Range_String (mkRange (newStart x) (newEnd x))
  ∧ (0 <= fp <= 100 → chunkSize f * 100 <= max_uint64 → (newStart x, newEnd x) = widened (chunkSize f) fp a b).
Proof.
  intros Hc Hp Hh raw Hne Hr Hab Hb Hov fp. unfold fill_PreRequest. fold raw.
  rewrite bool_decide_false, (proj2 (Z.eqb_neq _ _)), Hh by done. cbn [orb].
  unfold fill. fold (known_size c). rewrite Hr. fold fp.
  destruct (fill_bounds_covers f fp a b Hc Hab Hov) as (x & Hx0 & Hx). rewrite Hx0.
  assert (fill_invalid x = false) as ->.
  { destruct Hx as (E1 & E2 & ? & ? & _). unfold fill_invalid. rewrite E1, E2. lia. }
  destruct (fill_limit_covers f fp a b Hc Hab x Hx) as [Hx' _].
  pose proof (fill_limit_widened f fp a b Hc Hab Hov x Hb) as Hw. set (y := fill_limit f fp x) in *.
  eexists _, _. split; [done|]. split; [done|]. cbn [rq_Header req_with_header req_with_fill newStart newEnd fill_flag]. rewrite header_get_set.
  pose proof Hx' as (E1 & E2 & ? & ? & _). split; [by destruct y|]. rewrite E1, E2. split; [done|]. split.
  - unfold fill_header, Range_String. simpl. case_if; [|lia]. case_if; [|lia]. case_if; [lia|]. done.
  - intros Hfp Hcs. apply Hw; [done|done| |done]. unfold_ints. lia.
Qed.

Lemma fill_PreRequest_covers (c : Caching B S) req a b size :
  0 < chunkSize f → fillRangePercent f ≠ 0 → isHead req = false →
  header_get range_key (rq_Header req) = Range_String (mkRange a b) →
  0 <= a <= b → b < size → no_overflow (chunkSize f) b size →
  match c_md c with Some m => md_Size m = size | None => True end →
  ∃ req' x, fill_PreRequest f c req = Some req' ∧ rq_fill req' = Some x ∧ covers (chunkSize f) x a b
  ∧ fill_flag x = negb (newStart x =? a) || negb (newEnd x =? b)
  ∧ header_get range_key (rq_Header req') = Range_String (mkRange (newStart x) (newEnd x)).
Proof.
  intros Hc Hp Hh Hr Hab Hb [Hov Hsz] Hmd.
  destruct (fill_PreRequest_parsed c req a b Hc Hp Hh) as (req' & x & ? & ? & ? & ? & ? & _); [| |done|lia|lia|by exists req', x].
  - rewrite Hr. unfold Range_String. case_if; done.
  - rewrite Hr. apply SingleParse_render; [|split; simpl]; unfold known_size; destruct (c_md c); unfold_ints; lia.
Qed.

(** C9: A client that asks for a range of an object of [size] bytes gets exactly its
    bytes.  Let the Range header, in any form the parser accepts, select [a-b], where
    [b] lies in the object if its size is known and may lie beyond it if not.  The
    request goes upstream with a range that covers [a-b]; it is the one the fill
    percentage gives over the integers, and whole blocks at 100 percent.  When the
    upstream answers 206 with the bytes of that range up to the end of the object, the
    body passed on is [a] to the smaller of [b] and the last byte, and nothing else.  Its
    Content-Range is the one of [a-b], with its length as Content-Length if it was cut,
    if [b] lies in the object; beyond it, a range that was cut announces the end
    [announced_end], and one that was not keeps the headers of the upstream. *)
Theorem fill_range_exact (c : Caching B S) req a b (data : str) (r : R) :
  let size := Z.of_nat (length data) in
  let cs := chunkSize f in
  let raw := header_get range_key (rq_Header req) in
  let fp := parseFillPercent (rq_Header req) (fillRangePercent f) in
  0 < cs → 0 < fillRangePercent f <= 100 → cs * 100 <= max_uint64 → isHead req = false →
  raw ≠ [] → SingleParse raw (known_size c) = Ok (mkRange a b) → 0 <= a < size →
  match c_md c with Some m => md_Size m = size | None => True end →
  (b / cs + 1) * cs <= max_int64 + 1 → no_overflow cs (Z.min b (size - 1)) size →
  ∃ req' x, fill_PreRequest f c req = Some req' ∧ covers cs x a b
  ∧ header_get range_key (rq_Header req') = Range_String (mkRange (newStart x) (newEnd x))
  ∧ (newStart x, newEnd x) = widened cs fp a b
  ∧ (fp = 100 → newStart x = a / cs * cs ∧ newEnd x = (b / cs + 1) * cs - 1)
  ∧ ∀ h up cl tr, let last := Z.min (newEnd x) (size - 1) in
      delivers_steadily r (slice data (newStart x) (last + 1)) EOF →
      ∃ resp' b', fill_PostRequest req'
          (mkResp 206 (header_set (bs "Content-Range") (BuildHeaderRange (newStart x) last size) h) cl (Some up) tr) = Ok resp'
      ∧ rs_Body resp' = Some b' ∧ reads r up b' (slice data a (Z.min b (size - 1) + 1))
      ∧ (b < size → header_get (bs "Content-Range") (rs_Header resp') = BuildHeaderRange a b size)
      ∧ (newStart x = a → newEnd x = b →
           rs_Header resp' = header_set (bs "Content-Range") (BuildHeaderRange (newStart x) last size) h)
      ∧ (newStart x ≠ a ∨ newEnd x ≠ b → let e := if b <? size then b else announced_end x size in
           header_get (bs "Content-Range") (rs_Header resp') = BuildHeaderRange a e size
           ∧ header_get (bs "Content-Length") (rs_Header resp') = format_int (e - a + 1)).
Proof.
  intros size cs raw fp Hc Hp Hcs Hh Hne Hr Ha Hmd Hb1 Hov.
  assert (0 <= a <= b ∧ b < known_size c) as [Hab Hbk].
  { apply (SingleParse_in raw _ (mkRange a b)); [|done]. unfold known_size. destruct (c_md c); [|done].
    destruct Hov. rewrite Hmd. lia. }
  assert (b < max_int64) as Hbm by (unfold known_size in Hbk; destruct Hov; destruct (c_md c); lia).
  destruct (fill_PreRequest_parsed c req a b Hc ltac:(lia) Hh Hne Hr Hab Hbm Hb1) as (req' & x & HP & Hx & Hcov & Hflag & Hhd & Hw).
  specialize (Hw (parseFillPercent_range (rq_Header req) (fillRangePercent f) ltac:(lia)) Hcs). fold fp in Hw.
  exists req', x. do 4 (split; [done|]). split.
  { intros Hfp. rewrite Hfp, widened_full in Hw by lia. by injection Hw. }
  intros h up cl tr last Hd. unfold fill_PostRequest. rewrite Hx.
  cbn [rs_StatusCode rs_Header rs_Body rs_ContentLength]. rewrite Z.eqb_refl.
  pose proof Hcov as (E1 & E2 & Hns & Hne' & _). pose proof Hov as [Hov1 Hsz]. unfold max_int64 in *.
  destruct (fill_flag x) eqn:Ef; cbn [andb].
  - rewrite ParseContentRange_build by (unfold max_int64, max_uint64; lia). cbn [cr_ObjSize]. rewrite E1.
    rewrite (u64_id a) by (unfold_ints; lia). rewrite (proj2 (Z.ltb_ge size a)) by lia.
    destruct (adjust_fill_ends cs x a b size Hc Hcov Hab (proj2 Ha) Hb1 Hov) as (ne & -> & Hleb & Hle & Hlast & Hin & Hout).
    cbn [newStart newEnd rawStart rawEnd fmap option_fmap option_map].
    assert ((if b <? size then b else announced_end x size) = announced_end x size) as Ee by (case_if; [|done]; zbool; by destruct Hin).
    assert (a <= announced_end x size) as Hae by (destruct (Z.lt_ge_cases b size) as [Hlt|Hge]; [destruct (Hin Hlt)|destruct (Hout Hge) as [(? & _)|?]]; lia).
    eexists _, _. split; [done|]. cbn [rs_Body rs_Header]. split; [done|]. split_and!.
    + apply reads_window. destruct (Z.lt_ge_cases b size) as [Hlt|Hge].
      * destruct (Hin Hlt) as [-> Hnm]. rewrite Z.min_l by lia. rewrite <-(slice_window data (newStart x) a b last) by lia.
        apply (range_delivers_short r _ EOF); [done|lia|lia|unfold_ints; lia|]. rewrite slice_length by lia. lia.
      * rewrite Z.min_r by lia. destruct (Hout Hge) as [(Hae' & Hne'' & Hsm)|Hae'].
        -- rewrite Hae', <-(slice_window data (newStart x) a (size - 1) last) by lia.
           apply (range_delivers_short r _ EOF); [done|lia|lia|unfold_ints; lia|]. rewrite slice_length by lia. lia.
        -- replace (slice data a (size - 1 + 1)) with (drop (Z.to_nat (a - newStart x)) (slice data (newStart x) (last + 1)))
             by (rewrite slice_drop by lia; f_equal; lia).
           apply range_delivers_beyond; [by apply delivers_steadily_delivers|lia| |unfold_ints; lia]. rewrite slice_length by lia. lia.
    + intros Hlt. destruct (Hin Hlt) as [-> _]. rewrite header_get_set_ne, header_get_set by done. rewrite (u64_id a), (u64_id b) by (unfold_ints; lia). done.
    + intros Hn1 Hn2. rewrite Hn1, Hn2, !Z.eqb_refl in Hflag. done.
    + intros _. cbv zeta. rewrite Ee, header_get_set. split.
      * rewrite header_get_set_ne, header_get_set by done. rewrite (u64_id a), u64_id by (unfold_ints; lia). done.
      * f_equal. rewrite (i64_id (_ - a)) by (unfold_ints; lia). apply i64_id. unfold_ints. lia.
  - assert (newStart x = a ∧ newEnd x = b) as [Hn1 Hn2].
    { symmetry in Hflag. apply orb_false_iff in Hflag as [F1 F2]. zbool. lia. }
    eexists _, _. split; [done|]. simpl. split; [done|]. split_and!.
    + apply reads_up. unfold last in Hd. rewrite Hn1, Hn2 in Hd. by apply delivers_steadily_delivers.
    + intros Hlt. rewrite header_get_set, Hn1. f_equal. unfold last. lia.
    + done.
    + lia.
Qed.
End answer.

(** ** Concrete requests *)

Definition fr_req (range : str) : Request :=
  mkReq (bs "GET") (bs "http") (bs "h") (bs "/p") (bs "http://h/p") {[bs "Range" := [range]]} None None None.
Definition fr_miss : Caching N unit :=
  mkCaching (mkID [] [] [] []) None None tt CacheMiss false false false false false false false.

Lemma fill_range_exact_witness : ∃ req' resp' b', fill_PreRequest (mkFillRange 100 4) fr_miss (fr_req (bs "bytes=5-6")) = Some req'
  ∧ header_get range_key (rq_Header req') = bs "bytes=4-7"
  ∧ fill_PostRequest req' (mkResp 206 (header_set (bs "Content-Range") (bs "bytes 4-7/10") ∅) 4 (Some Upstream) ∅) = Ok resp'
  ∧ rs_Body resp' = Some b' ∧ reads (mkFile (bs "4567") 0) Upstream b' (bs "56")
  ∧ header_get (bs "Content-Range") (rs_Header resp') = bs "bytes 5-6/10" ∧ header_get (bs "Content-Length") (rs_Header resp') = bs "2".
Proof.
  destruct (fill_range_exact (mkFillRange 100 4) fr_miss (fr_req (bs "bytes=5-6")) 5 6 (bs "0123456789")
    (mkFile (bs "4567") 0)) as (req' & x & HP & _ & HR & _ & Hfull & Hpost).
  - reflexivity.
  - split; vm_compute; congruence.
  - vm_compute. congruence.
  - reflexivity.
  - vm_compute. congruence.
  - vm_compute. reflexivity.
  - split; vm_compute; congruence.
  - exact I.
  - vm_compute. congruence.
  - split; vm_compute; congruence.
  - destruct (Hfull eq_refl) as [E1 E2]. change (newStart x = 4) in E1. change (newEnd x = 7) in E2. rewrite E1, E2 in *.
    destruct (Hpost ∅ Upstream 4 ∅ (file_delivers_steadily (bs "4567"))) as (resp' & b' & H1 & H2 & H3 & _ & _ & H4).
    assert (4 ≠ 5 ∨ 7 ≠ 6) as Hne by (left; lia). specialize (H4 Hne). cbv zeta in H4. destruct H4 as [H5 H6].
    exists req', resp', b'. split; [exact HP|]. split; [exact HR|]. split; [exact H1|]. split; [exact H2|]. split; [exact H3|]. split; [exact H5|exact H6].
Defined.

(** An open-ended range of an object that is not cached yet, starting
    after the first block: the answer to the client claims bytes beyond the end
    of the object.  Here the object has 6 bytes in blocks of 4, the client asks
    for [5-], the upstream answers bytes 4-5 of 6, and the response announces
    [bytes 5-9/6] and five bytes of body, where one byte is left. *)
Theorem open_range_overstated :
  ∃ req' resp', fill_PreRequest (mkFillRange 100 4) fr_miss (fr_req (bs "bytes=5-")) = Some req'
  ∧ header_get range_key (rq_Header req') = bs "bytes=4-9223372036854775807"
  ∧ fill_PostRequest req'
      (mkResp 206 {[bs "Content-Range" := [BuildHeaderRange 4 5 6]; bs "Content-Length" := [bs "2"]]} 2 (Some Upstream) ∅)
    = Ok resp'
  ∧ header_get (bs "Content-Range") (rs_Header resp') = bs "bytes 5-9/6"
  ∧ header_get (bs "Content-Length") (rs_Header resp') = bs "5"
  ∧ rs_Body resp' = Some (Window Upstream 4 9 5 9).
Proof.
  set (req := default (fr_req []) (fill_PreRequest (mkFillRange 100 4) fr_miss (fr_req (bs "bytes=5-")))).
  set (resp := mkResp 206 {[bs "Content-Range" := [BuildHeaderRange 4 5 6]; bs "Content-Length" := [bs "2"]]} 2 (Some Upstream) ∅).
  exists req, (match fill_PostRequest req resp with Ok r => r | Err _ => resp end).
  split_and!; vm_compute; reflexivity.
Qed.
