(* ===== verification/Flight.v ===== *)
(** * Collapsed forwarding: chunk_flight.go and object_flight.go

    Concurrent requests share one upstream request.  Callers of
    [ChunkFlightGroup.Do] register byte ranges of an object under its key; the
    first one, the leader, waits, asks the upstream for the union of the ranges,
    and every caller cuts its own range out of the shared stream.  Callers of
    [ObjectFlightGroup.Do] share a whole response.

    The state has the map of the flights in progress and every flight ever
    started; the steps are the critical sections of the callers and of the
    leader, in any order the mutexes allow.

    Proved by induction over the steps: at most one flight per key is open, every
    caller registered when the union is computed is covered by it and reads
    exactly its range, and every caller of an object flight gets the leader's
    response or its error.  A caller can still join between the computation of
    the union and the removal of the key; it then reads nothing. *)

From S2P Require Import Prelude IoReader.

(** ** Chunk flights *)

(** [cc_union] is set with the number of callers it was computed from;
    [cc_removed]: the key was deleted from the map; [cc_fetched]: the outcome of
    [fn], an error code or success. *)
Record chunkCall := mkCall {
  cc_key : str; cc_ranges : list (Z * Z); cc_union : option (Z * Z * nat);
  cc_removed : bool; cc_fetched : option (option Z) }.

Record ChunkFlightGroup := mkGroup { fg_m : gmap (list ascii) nat; fg_calls : list chunkCall }.

(** The loop over the registered ranges. *)
Definition widen (u r : Z * Z) : Z * Z :=
  (if fst r <? fst u then fst r else fst u, if snd r >? snd u then snd r else snd u).
Definition union_of (rs : list (Z * Z)) : Z * Z :=
  match rs with [] => (0, 0) | r :: rs' => fold_left widen rs' r end.

Definition set_call (g : ChunkFlightGroup) (c : nat) (call : chunkCall) : ChunkFlightGroup :=
  mkGroup (fg_m g) (<[c := call]> (fg_calls g)).

(** The first critical section of [Do]: join the flight of the key, or start one. *)
Definition join (g : ChunkFlightGroup) (key : str) (r : Z * Z) : ChunkFlightGroup :=
  match fg_m g !! key with
  | Some c =>
      match fg_calls g !! c with
      | Some call => set_call g c (mkCall (cc_key call) (cc_ranges call ++ [r]) (cc_union call)
                                     (cc_removed call) (cc_fetched call))
      | None => g
      end
  | None => mkGroup (<[key := length (fg_calls g)]> (fg_m g)) (fg_calls g ++ [mkCall key [r] None false None])
  end.

Inductive chunk_step (g : ChunkFlightGroup) : ChunkFlightGroup → Prop :=
| step_join key r : chunk_step g (join g key r)
| step_union c call :
    (* the leader, after its pause; the waiters are released *)
    fg_calls g !! c = Some call → cc_union call = None →
    chunk_step g (set_call g c (mkCall (cc_key call) (cc_ranges call)
      (Some (union_of (cc_ranges call), length (cc_ranges call))) (cc_removed call) (cc_fetched call)))
| step_remove c call :
    (* the leader deletes the key *)
    fg_calls g !! c = Some call → is_Some (cc_union call) → cc_removed call = false →
    chunk_step g (mkGroup (delete (cc_key call) (fg_m g))
      (<[c := mkCall (cc_key call) (cc_ranges call) (cc_union call) true (cc_fetched call)]> (fg_calls g)))
| step_fetch c call e :
    (* the background goroutine: fn returned, and the pipes are taken *)
    fg_calls g !! c = Some call → cc_removed call = true → cc_fetched call = None →
    chunk_step g (set_call g c (mkCall (cc_key call) (cc_ranges call) (cc_union call) true (Some e))).

(** What [Do] returns to the [i]-th caller of a flight once the union is there:
    an error that is already known, or the arguments of its [RangeReader]. *)
Definition do_result (call : chunkCall) (i : nat) : option (result Z (Z * Z * Z * Z)) :=
  match cc_union call, cc_ranges call !! i with
  | Some (f, t, _), Some (a, b) =>
      match cc_fetched call with
      | Some (Some err) => if (i =? 0)%nat then Some (Ok (f, t, a, b)) else Some (Err err)
      | _ => Some (Ok (f, t, a, b))
      end
  | _, _ => None
  end.

Definition empty_group : ChunkFlightGroup := mkGroup ∅ [].

(** *** Invariant *)

Definition call_ok (call : chunkCall) : Prop :=
  cc_ranges call ≠ []
  ∧ (∀ u n, cc_union call = Some (u, n) →
       (0 < n <= length (cc_ranges call))%nat ∧ u = union_of (take n (cc_ranges call)))
  ∧ (cc_removed call = true → is_Some (cc_union call)).

Definition group_ok (g : ChunkFlightGroup) : Prop :=
  Forall call_ok (fg_calls g)
  ∧ (∀ k c, fg_m g !! k = Some c ↔
       ∃ call, fg_calls g !! c = Some call ∧ cc_key call = k ∧ cc_removed call = false).

(** Replacing a flight by one with the same key that is still in the map. *)
Lemma group_ok_set g c call call' : group_ok g → fg_calls g !! c = Some call → call_ok call' →
  cc_key call' = cc_key call → cc_removed call' = cc_removed call → group_ok (set_call g c call').
Proof.
  intros [Hf Hm] Hc Hok Hk Hr. split; simpl; [by apply Forall_insert|]. intros k d. rewrite Hm. split.
  - intros (x & Hx & Hkx & Hrx). destruct (decide (c = d)) as [->|Hne].
    + exists call'. rewrite list_lookup_insert_eq by (by eapply lookup_lt_Some). rewrite Hc in Hx. simplify_eq.
      split_and!; congruence.
    + exists x. by rewrite list_lookup_insert_ne.
  - intros (x & Hx & Hkx & Hrx). destruct (decide (c = d)) as [->|Hne].
    + rewrite list_lookup_insert_eq in Hx by (by eapply lookup_lt_Some). simplify_eq. exists call. split_and!; congruence.
    + rewrite list_lookup_insert_ne in Hx by done. by exists x.
Qed.

Lemma join_ok g key r : group_ok g → group_ok (join g key r).
Proof.
  intros Hg. pose proof Hg as [Hf Hm]. unfold join. destruct (fg_m g !! key) as [c|] eqn:Ek.
  - destruct (fg_calls g !! c) as [call|] eqn:Ec; [|done]. pose proof (Forall_lookup_1 _ _ _ _ Hf Ec) as (Hne & Hu & Hr).
    apply (group_ok_set g c call); [done|done| |done|done]. split_and!; simpl; [by destruct (cc_ranges call)| |done].
    intros u n E. destruct (Hu u n E) as [Hn ->]. rewrite length_app. split; [lia|]. by rewrite take_app_le by lia.
  - split; simpl.
    + apply Forall_app. split; [done|]. constructor; [|done]. by split_and!.
    + intros k c. destruct (decide (k = key)) as [->|Hne].
      * rewrite lookup_insert_eq. split.
        -- intros [= <-]. eexists. rewrite lookup_app_r, Nat.sub_diag by lia. by split.
        -- intros (call & Hc & Hk & Hr). destruct (decide (c < length (fg_calls g))%nat).
           ++ rewrite lookup_app_l in Hc by done. exfalso.
              assert (fg_m g !! key = Some c) by (apply Hm; by exists call). congruence.
           ++ f_equal. apply lookup_lt_Some in Hc. rewrite length_app in Hc. simpl in Hc. lia.
      * rewrite lookup_insert_ne, Hm by done. split; intros (call & Hc & Hk & Hr).
        -- exists call. rewrite lookup_app_l by (by eapply lookup_lt_Some). done.
        -- destruct (decide (c < length (fg_calls g))%nat); [rewrite lookup_app_l in Hc by done; by exists call|].
           rewrite lookup_app_r in Hc by lia. apply list_lookup_singleton_Some in Hc as [_ <-]. simpl in Hk. congruence.
Qed.

Lemma remove_ok g c call : group_ok g → fg_calls g !! c = Some call → is_Some (cc_union call) → cc_removed call = false →
  group_ok (mkGroup (delete (cc_key call) (fg_m g))
    (<[c := mkCall (cc_key call) (cc_ranges call) (cc_union call) true (cc_fetched call)]> (fg_calls g))).
Proof.
  intros [Hf Hm] Hc Hu Hr. pose proof (Forall_lookup_1 _ _ _ _ Hf Hc) as (Hne & Hun & _).
  pose proof (lookup_lt_Some _ _ _ Hc) as Hlt.
  split; simpl; [by apply Forall_insert|]. intros k d. destruct (decide (k = cc_key call)) as [->|Hk].
  - rewrite lookup_delete_eq. split; [done|]. intros (x & Hx & Hkx & Hrx).
    destruct (decide (c = d)) as [->|Hcd].
    + rewrite list_lookup_insert_eq in Hx by done. by simplify_eq/=.
    + rewrite list_lookup_insert_ne in Hx by done. exfalso.
      assert (fg_m g !! cc_key call = Some d) by (apply Hm; by exists x).
      assert (fg_m g !! cc_key call = Some c) by (apply Hm; by exists call). congruence.
  - rewrite lookup_delete_ne, Hm by done. split; intros (x & Hx & Hkx & Hrx).
    + exists x. rewrite list_lookup_insert_ne; [done|]. intros ->. rewrite Hc in Hx. by simplify_eq.
    + destruct (decide (c = d)) as [->|Hcd]; [rewrite list_lookup_insert_eq in Hx by done; by simplify_eq/=|].
      rewrite list_lookup_insert_ne in Hx by done. by exists x.
Qed.

Lemma chunk_step_ok g g' : group_ok g → chunk_step g g' → group_ok g'.
Proof.
  intros Hg [key r|c call Hc Hu|c call Hc Hu Hr|c call e Hc Hr Hn]; [by apply join_ok| |by apply remove_ok|];
    pose proof (Forall_lookup_1 _ _ _ _ (proj1 Hg) Hc) as (Hne & Hun & Hrm);
    apply (group_ok_set g c call); try done.
  - split_and!; simpl; [done| |done]. intros u n [= <- <-]. rewrite take_ge by lia. split; [|done].
    destruct (cc_ranges call); simpl; [done|lia].
  - split_and!; simpl; [done|done|]. by intros _; apply Hrm.
Qed.

Lemma chunk_reachable_ok g : rtc chunk_step empty_group g → group_ok g.
Proof.
  intros Hr. revert g Hr. refine (rtc_ind_r _ _ _ _); [|by eauto using chunk_step_ok].
  split; simpl; [constructor|]. intros k c. rewrite lookup_empty. split; [done|]. by intros (? & ? & _).
Qed.

(** *** The union *)

Lemma widen_fold rs u : let v := fold_left widen rs u in
  fst v <= fst u ∧ snd u <= snd v ∧ (∀ r, r ∈ rs → fst v <= fst r ∧ snd r <= snd v)
  ∧ (∃ r, r ∈ u :: rs ∧ fst v = fst r) ∧ (∃ r, r ∈ u :: rs ∧ snd v = snd r).
Proof.
  revert u. induction rs as [|x rs IH]; intros u; cbn [fold_left].
  { split_and!; [lia|lia|by intros r ?%elem_of_nil| |]; exists u; by split; [left|]. }
  destruct (IH (widen u x)) as (H1 & H2 & H3 & (r1 & M1 & E1) & (r2 & M2 & E2)).
  assert (fst (widen u x) <= fst u ∧ fst (widen u x) <= fst x ∧ snd u <= snd (widen u x) ∧ snd x <= snd (widen u x)) as (?&?&?&?).
  { unfold widen. simpl. repeat case_if; lia. }
  split_and!; [lia|lia| | |].
  - intros r [->|Hr]%elem_of_cons; [lia|]. by apply H3.
  - apply elem_of_cons in M1 as [->|M1]; [|exists r1; split; [by do 2 right|done]].
    rewrite E1. unfold widen. simpl. case_if; [exists x; split; [by right; left|done]|exists u; split; [by left|done]].
  - apply elem_of_cons in M2 as [->|M2]; [|exists r2; split; [by do 2 right|done]].
    rewrite E2. unfold widen. simpl. case_if; [exists x; split; [by right; left|done]|exists u; split; [by left|done]].
Qed.

Lemma union_of_spec rs : rs ≠ [] →
  (∀ r, r ∈ rs → fst (union_of rs) <= fst r ∧ snd r <= snd (union_of rs))
  ∧ (∃ r, r ∈ rs ∧ fst (union_of rs) = fst r) ∧ (∃ r, r ∈ rs ∧ snd (union_of rs) = snd r).
Proof.
  destruct rs as [|u rs]; [done|]. intros _. cbn [union_of].
  destruct (widen_fold rs u) as (H1 & H2 & H3 & H4 & H5). split_and!; [|done|done].
  intros r [->|Hr]%elem_of_cons; [done|]. by apply H3.
Qed.

(** C24: In every reachable state of a chunk flight group at most one flight
    per key is open, and every caller registered when the union of a flight was
    computed is served: the union is the smallest range that contains all theirs,
    and from a stream of the union's bytes of the object each of them reads
    exactly the bytes of its own range. *)
Theorem chunk_flight_serves {R} `{Reader R} (g : ChunkFlightGroup) c call f t n i a b (data : str) (r : R) e :
  rtc chunk_step empty_group g → fg_calls g !! c = Some call →
  cc_union call = Some (f, t, n) → cc_ranges call !! i = Some (a, b) → (i < n)%nat →
  Forall (λ x, 0 <= fst x <= snd x ∧ snd x < Z.of_nat (length data)) (take n (cc_ranges call)) →
  Z.of_nat (length data) <= max_int64 → delivers r (slice data f (t + 1)) e →
  (∀ d call', fg_calls g !! d = Some call' → cc_key call' = cc_key call →
     cc_removed call' = false → cc_removed call = false → d = c)
  ∧ (∃ x y, x ∈ take n (cc_ranges call) ∧ y ∈ take n (cc_ranges call) ∧ f = fst x ∧ t = snd y)
  ∧ delivers (RangeReader r f t a b) (slice data a (b + 1)) EOF.
Proof.
  intros Hr Hc Hu Hi Hin Hval Hmax Hd. pose proof (chunk_reachable_ok g Hr) as [Hf Hm].
  pose proof (Forall_lookup_1 _ _ _ _ Hf Hc) as (_ & Hun & _). destruct (Hun (f, t) n Hu) as [Hn Hft].
  assert (take n (cc_ranges call) ≠ []) as Hne by (destruct n, (cc_ranges call); simpl in *; lia || done).
  destruct (union_of_spec _ Hne) as (Hcov & (x & Hx & Ex) & (y & Hy & Ey)). rewrite <-Hft in Hcov, Ex, Ey. simpl in *.
  assert ((a, b) ∈ take n (cc_ranges call)) as Hab.
  { apply (list_elem_of_lookup_2 _ i). by rewrite lookup_take_lt. }
  destruct (Hcov _ Hab) as [Hfa Hbt]. simpl in *. rewrite Forall_forall in Hval.
  pose proof (Hval _ Hab) as [Hv1 Hv2]. pose proof (Hval _ Hx) as [Hx1 Hx2]. pose proof (Hval _ Hy) as [Hy1 Hy2]. simpl in *.
  split_and!.
  - intros d call' Hd' Hk Hr1 Hr2.
    assert (fg_m g !! cc_key call = Some d) by (apply Hm; by exists call').
    assert (fg_m g !! cc_key call = Some c) by (apply Hm; by exists call). congruence.
  - by exists x, y.
  - replace (slice data a (b + 1)) with
      (take (Z.to_nat (b - a + 1)) (drop (Z.to_nat (a - f)) (slice data f (t + 1)))).
    + apply (range_delivers r _ e); [done|lia|lia|unfold_ints; lia|]. rewrite slice_length by lia. lia.
    + rewrite slice_drop, slice_take by lia. f_equal; lia.
Qed.

(** The states of a flight with a leader (0-3) and a waiter (4-6). *)
Definition flight_g1 := join empty_group (bs "k") (0, 3).
Definition flight_g2 := join flight_g1 (bs "k") (4, 6).
Definition flight_call (rs : list (Z * Z)) (u : option (Z * Z * nat)) : chunkCall := mkCall (bs "k") rs u false None.
Definition flight_g3 := set_call flight_g2 0 (flight_call [(0, 3); (4, 6)] (Some (0, 6, 2%nat))).

Lemma flight_reachable : rtc chunk_step empty_group flight_g3.
Proof.
  eapply rtc_l; [exact (step_join _ (bs "k") (0, 3))|]. eapply rtc_l; [exact (step_join _ (bs "k") (4, 6))|].
  apply rtc_once. exact (step_union flight_g2 0 (flight_call [(0, 3); (4, 6)] None) eq_refl eq_refl).
Qed.

Lemma chunk_flight_serves_witness :
  rtc chunk_step empty_group flight_g3
  ∧ delivers (RangeReader (mkFile (bs "0123456") 0) 0 6 4 6) (slice (bs "0123456789") 4 7) EOF.
Proof.
  split; [exact flight_reachable|].
  refine (proj2 (proj2 (chunk_flight_serves flight_g3 0 (flight_call [(0, 3); (4, 6)] (Some (0, 6, 2%nat))) 0 6 2 1 4 6
    (bs "0123456789") (mkFile (bs "0123456") 0) EOF flight_reachable eq_refl eq_refl eq_refl _ _ _ _))).
  - lia.
  - repeat constructor; simpl; lia.
  - vm_compute. discriminate.
  - exact (file_delivers (bs "0123456")).
Defined.

(** A caller may join a flight after its union was computed and before its
    key is removed from the map.  It is given the reader of its own range over a
    stream that does not contain it, and reads an empty body without an error. *)
Theorem late_waiter_reads_nothing :
  ∃ g call, rtc chunk_step empty_group g ∧ fg_calls g !! 0%nat = Some call
  ∧ cc_fetched call = Some None ∧ cc_ranges call !! 1%nat = Some (20, 29)
  ∧ do_result call 1 = Some (Ok (0, 9, 20, 29))
  ∧ copy_loop range_Read 10 5 (RangeReader (mkFile (bs "0123456789") 0) 0 9 20 29)
    = Some ([], None, RangeReader (mkFile (bs "0123456789") 10) 0 9 20 29).
Proof.
  set (call rs u rm e := mkCall (bs "k") rs u rm e).
  set (u := Some (0, 9, 1%nat)).
  set (g1 := join empty_group (bs "k") (0, 9)).
  set (g2 := set_call g1 0 (call [(0, 9)] u false None)).
  set (g3 := join g2 (bs "k") (20, 29)).
  set (g4 := mkGroup (delete (bs "k") (fg_m g3)) (<[0%nat := call [(0, 9); (20, 29)] u true None]> (fg_calls g3))).
  set (last := call [(0, 9); (20, 29)] u true (Some None)).
  exists (set_call g4 0 last), last. split; [|split_and!; vm_compute; reflexivity].
  apply (rtc_l _ _ g1); [exact (step_join _ (bs "k") (0, 9))|].
  apply (rtc_l _ _ g2); [exact (step_union g1 0 (call [(0, 9)] None false None) eq_refl eq_refl)|].
  apply (rtc_l _ _ g3); [exact (step_join g2 (bs "k") (20, 29))|].
  apply (rtc_l _ _ g4).
  - exact (step_remove g3 0 (call [(0, 9); (20, 29)] u false None) eq_refl (ex_intro _ _ eq_refl) eq_refl).
  - apply rtc_once. exact (step_fetch g4 0 (call [(0, 9); (20, 29)] u true None) None eq_refl eq_refl eq_refl).
Qed.

(** ** Object flights *)

(** [oc_pipes] counts the registered pipes, the leader's first; [oc_result] is
    the outcome of [fn]: a response or an error; [oc_fanout] the number of pipes
    the body is copied to. *)
Record objectFlightCall (A : Type) := mkObjectCall {
  oc_key : str; oc_pipes : nat; oc_result : option (result Z A); oc_fanout : option nat }.
Arguments mkObjectCall {A}. Arguments oc_key {A}. Arguments oc_pipes {A}.
Arguments oc_result {A}. Arguments oc_fanout {A}.

Section object_flight.
Context {A : Type}.

Record ObjectFlightGroup := mkObjectGroup {
  og_m : gmap (list ascii) nat; og_calls : list (objectFlightCall A) }.

Definition object_join (g : ObjectFlightGroup) (key : str) : ObjectFlightGroup :=
  match og_m g !! key with
  | Some c =>
      match og_calls g !! c with
      | Some call => mkObjectGroup (og_m g)
          (<[c := mkObjectCall (oc_key call) (S (oc_pipes call)) (oc_result call) (oc_fanout call)]> (og_calls g))
      | None => g
      end
  | None => mkObjectGroup (<[key := length (og_calls g)]> (og_m g)) (og_calls g ++ [mkObjectCall key 1 None None])
  end.

(** [fn] returned (a panic is an error): under the group's mutex the key is
    deleted, the result published and, on success, the pipes copied.  On an
    error every registered pipe is closed with it. *)
Inductive object_step (g : ObjectFlightGroup) : ObjectFlightGroup → Prop :=
| ostep_join key : object_step g (object_join g key)
| ostep_finish c call r :
    og_calls g !! c = Some call → oc_result call = None →
    object_step g (mkObjectGroup (delete (oc_key call) (og_m g))
      (<[c := mkObjectCall (oc_key call) (oc_pipes call) (Some r) (Some (oc_pipes call))]> (og_calls g))).

(** What the [i]-th caller of a flight gets. *)
Definition object_result (call : objectFlightCall A) (i : nat) : option (result Z A) :=
  if (i <? oc_pipes call)%nat then oc_result call else None.

Definition empty_objects : ObjectFlightGroup := mkObjectGroup ∅ [].

Definition object_ok (g : ObjectFlightGroup) : Prop :=
  (∀ k c, og_m g !! k = Some c ↔
     ∃ call, og_calls g !! c = Some call ∧ oc_key call = k ∧ oc_result call = None)
  ∧ Forall (λ call, (0 < oc_pipes call)%nat
       ∧ (is_Some (oc_result call) → oc_fanout call = Some (oc_pipes call))) (og_calls g).

Lemma object_join_ok g key : object_ok g → object_ok (object_join g key).
Proof.
  intros [Hm Hf]. unfold object_join. destruct (og_m g !! key) as [c|] eqn:Ek.
  - destruct (proj1 (Hm key c) Ek) as (call & Hc & Hk & Hr). rewrite Hc. pose proof (lookup_lt_Some _ _ _ Hc) as Hlt.
    split; simpl.
    + intros k d. rewrite Hm. destruct (decide (c = d)) as [<-|Hne].
      * rewrite Hc. setoid_rewrite list_lookup_insert_eq; [|done]. naive_solver.
      * by setoid_rewrite list_lookup_insert_ne.
    + apply Forall_insert; [done|]. simpl. rewrite Hr. split; [lia|]. by intros [].
  - split; simpl; [|apply Forall_app; split; [done|]; constructor; [|done]; simpl; split; [lia|by intros []]].
    intros k c. destruct (decide (k = key)) as [->|Hne].
    + rewrite lookup_insert_eq. split.
      * intros [= <-]. eexists. rewrite lookup_app_r, Nat.sub_diag by lia. by split.
      * intros (call & Hc & Hk & Hr). destruct (decide (c < length (og_calls g))%nat).
        -- rewrite lookup_app_l in Hc by done. exfalso.
           assert (og_m g !! key = Some c) by (apply Hm; by exists call). congruence.
        -- f_equal. apply lookup_lt_Some in Hc. rewrite length_app in Hc. simpl in Hc. lia.
    + rewrite lookup_insert_ne, Hm by done. split; intros (call & Hc & Hk & Hr).
      * exists call. by rewrite lookup_app_l by (by eapply lookup_lt_Some).
      * destruct (decide (c < length (og_calls g))%nat); [rewrite lookup_app_l in Hc by done; by exists call|].
        rewrite lookup_app_r in Hc by lia. apply list_lookup_singleton_Some in Hc as [_ <-]. simpl in Hk. congruence.
Qed.

Lemma object_finish_ok g c call r : object_ok g → og_calls g !! c = Some call → oc_result call = None →
  object_ok (mkObjectGroup (delete (oc_key call) (og_m g))
    (<[c := mkObjectCall (oc_key call) (oc_pipes call) (Some r) (Some (oc_pipes call))]> (og_calls g))).
Proof.
  intros [Hm Hf] Hc Hr. pose proof (lookup_lt_Some _ _ _ Hc) as Hlt.
  assert (og_m g !! oc_key call = Some c) as Hkc by (apply Hm; by exists call). split; simpl.
  - intros k d. destruct (decide (k = oc_key call)) as [->|Hk].
    + rewrite lookup_delete_eq. split; [done|]. intros (x & Hx & Hkx & Hrx). destruct (decide (c = d)) as [->|Hcd].
      * rewrite list_lookup_insert_eq in Hx by done. by simplify_eq/=.
      * rewrite list_lookup_insert_ne in Hx by done. exfalso.
        assert (og_m g !! oc_key call = Some d) by (apply Hm; by exists x). congruence.
    + rewrite lookup_delete_ne, Hm by done. split; intros (x & Hx & Hkx & Hrx).
      * exists x. rewrite list_lookup_insert_ne; [done|]. intros ->. rewrite Hc in Hx. by simplify_eq.
      * destruct (decide (c = d)) as [->|Hcd]; [rewrite list_lookup_insert_eq in Hx by done; by simplify_eq/=|].
        rewrite list_lookup_insert_ne in Hx by done. by exists x.
  - apply Forall_insert; [done|]. simpl. split; [|done]. by apply (Forall_lookup_1 _ _ _ _ Hf Hc).
Qed.

Lemma object_reachable_ok g : rtc object_step empty_objects g → object_ok g.
Proof.
  intros Hr. revert g Hr. refine (rtc_ind_r _ _ _ _).
  - split; simpl; [|constructor]. intros k c. rewrite lookup_empty. split; [done|]. by intros (? & ? & _).
  - intros g g' _ [key|c call r Hc Hr] Hg; [by apply object_join_ok|by apply object_finish_ok].
Qed.

(** In every reachable state of an object flight group at most one flight
    per key is waiting for its response, and once the response or the error is
    there every caller that joined, the leader included, gets it, and the body is
    copied to exactly the registered pipes: nobody joins unnoticed while the
    flight is being closed. *)
Theorem object_flight_all_served (g : ObjectFlightGroup) c call :
  rtc object_step empty_objects g → og_calls g !! c = Some call →
  (∀ d call', og_calls g !! d = Some call' → oc_key call' = oc_key call →
     oc_result call = None → oc_result call' = None → d = c)
  ∧ (∀ r, oc_result call = Some r →
       oc_fanout call = Some (oc_pipes call)
       ∧ (∀ i, (i < oc_pipes call)%nat → object_result call i = Some r)
       ∧ (∀ key, og_m g !! key ≠ Some c))
  ∧ (0 < oc_pipes call)%nat.
Proof.
  intros Hr Hc. pose proof (object_reachable_ok g Hr) as [Hm Hf].
  destruct (Forall_lookup_1 _ _ _ _ Hf Hc) as [Hp Hs]. split_and!; [| |done].
  - intros d call' Hd Hk Hr1 Hr2.
    assert (og_m g !! oc_key call = Some d) by (apply Hm; by exists call').
    assert (og_m g !! oc_key call = Some c) by (apply Hm; by exists call). congruence.
  - intros r E. split_and!; [apply Hs; by rewrite E| |].
    + intros i Hi. unfold object_result. by rewrite (proj2 (Nat.ltb_lt _ _)), E by done.
    + intros key Hk. apply Hm in Hk as (x & Hx & _ & Hrx). congruence.
Qed.
End object_flight.

Definition object_g2 := object_join (object_join (A:=Z) empty_objects (bs "k")) (bs "k").
Definition object_done (r : result Z Z) : objectFlightCall Z := mkObjectCall (bs "k") 2 (Some r) (Some 2%nat).
Definition object_g3 := mkObjectGroup (delete (bs "k") (og_m object_g2)) (<[0%nat := object_done (Ok 200)]> (og_calls object_g2)).

Lemma object_flight_all_served_witness :
  rtc object_step empty_objects object_g3 ∧ object_result (object_done (Ok 200)) 1 = Some (Ok 200).
Proof.
  assert (rtc object_step empty_objects object_g3) as Hr.
  { apply (rtc_l _ _ (object_join empty_objects (bs "k"))); [exact (ostep_join _ (bs "k"))|].
    apply (rtc_l _ _ object_g2); [exact (ostep_join _ (bs "k"))|]. apply rtc_once.
    exact (ostep_finish object_g2 0 (mkObjectCall (bs "k") 2 None None) (Ok 200) eq_refl eq_refl). }
  split; [exact Hr|].
  destruct (object_flight_all_served object_g3 0 (object_done (Ok 200)) Hr eq_refl) as (_ & H2 & _).
  destruct (H2 (Ok 200) eq_refl) as (_ & H3 & _). exact (H3 1%nat ltac:(simpl; lia)).
Defined.
