(* ===== verification/MissPath.v ===== *)
(** * Requests that go upstream: caching.go, processor.go and the processors

    The processor chain (state, prefetch, vary, revalidation, file change, range
    fill, in this order), [doProxy], which sends a request upstream through the
    chain and prepares the response and the metadata, the middleware's entry
    ([preCacheProcessor], the decision between hit, bypass and miss,
    [postCacheProcessor]).

    The upstream client is a function from requests to responses, the clock and
    the parsing of dates are arguments, and [lazilyRespond] of [HitPath] appears
    as a response with the body [Cached]; whether the assembly of that body fails
    is a parameter.

    Proved: the body of a response is saved exactly when the code decided that it
    may be, a stale object is revalidated and served from the cache on 304 and
    dropped otherwise, and a change of the object's size at the origin is never
    noticed by the file-change processor. *)

From S2P Require Import Prelude GoStrings Headers HttpRange Blocks Object CacheControl CachingState.
From S2P Require Import VaryControl VaryProcessor FillRange.

(** Header names of internal/protocol. *)
Definition ProtocolCacheStatusKey : str := bs "X-Cache".
Definition ProtocolPrefetchCacheKey : str := bs "X-Prefetch".
Definition ProtocolCacheTime : str := bs "X-CacheTime".
Definition InternalCacheErrCode : str := bs "i-x-ct-code".
Definition InternalTraceKey : str := bs "i-xtrace".
Definition InternalStoreUrl : str := bs "i-x-store-url".
Definition InternalSwapfile : str := bs "i-x-swapfile".
Definition FlagOn : str := bs "1".

Definition hasConditionHeader (h : header) : bool :=
  negb (bool_decide (header_get (bs "ETag") h = [])) || negb (bool_decide (header_get (bs "Last-Modified") h = [])).

(** The number of a status; the first is 1. *)
Definition CacheStatus_code (s : CacheStatus) : Z :=
  match s with
  | CacheMiss => 1 | CacheHit => 2 | CacheParentHit => 3 | CachePartHit => 4 | CacheRevalidateHit => 5
  | CacheRevalidateMiss => 6 | CachePartMiss => 7 | CacheHotHit => 8 | BYPASS => 9
  end.

(** Nanoseconds and seconds of the clock. *)
Definition unix (ns : Z) : Z := ns / Second.
Definition hasExpired {B} (now : Z) (m : Metadata B) : bool := md_ExpiresAt m * Second <? now.

Section miss.
Context {B S : Type} `{BitmapOps B} `{BucketOps B S}.
Variable opt : cachingOption.
Variable fr : fillRange.

(** [time.Parse(time.RFC1123, _)] in nanoseconds; the assembly of a body from the
    cache ([None] is success); the point from which a refresh may be triggered
    early, which the code computes with a floating-point factor. *)
Variable parse_time : str → option Z.
Variable assembly_error : Metadata B → Request → Z → Z → option proc_error.
Variable soft_ttl : Z → Z → Z.

(** [bucket.StoreType()] and [bucket.Path()]. *)
Variables StoreType bucket_path : str.

Implicit Types c : Caching B S.

(** ** Lookup *)

Definition state_Lookup c : bool := match c_md c with None => false | Some _ => true end.

(** The last component says whether a background refresh is started. *)
Definition revalidate_Lookup (now : Z) (trigger : bool) c (req : Request) : option (bool * Caching B S * bool) :=
  match c_md c with
  | None => Some (false, c, false)
  | Some m =>
      let n := unix now in
      let soft := soft_ttl (md_RespUnix m) (md_ExpiresAt m) in
      if refresh_on opt && (soft <=? n) && (n <? md_ExpiresAt m) then
        match HasComplete m with
        | None => if trigger then None else Some (true, c, false)
        | Some full => Some (true, c, trigger && full && hasConditionHeader (md_Headers m))
        end
      else if negb (hasExpired now m) then Some (true, c, false)
      else match HasComplete m with
      | None => None
      | Some full =>
          if full && hasConditionHeader (md_Headers m) then
            Some (false, set_status (set_revalidate c true) CacheRevalidateHit, false)
          else
            let c := set_status (set_revalidate c false) CacheMiss in
            let c := set_md c (Some (md_with_chunks m bm_empty)) in
            Some (false, set_bucket c (bk_discard (c_bucket c) (c_id c)), false)
      end
  end.

(** The chain: [caching.hit] is the answer of the last processor asked.  The
    prefetch, file-change and fill processors always answer true. *)
Definition chain_Lookup (now : Z) (trigger : bool) c (req : Request) : option (bool * Caching B S * bool) :=
  if negb (state_Lookup c) then Some (false, set_hit c false, false)
  else
    let '(hit, c) := vary_Lookup opt (set_hit c true) req in
    if negb hit then Some (false, set_hit c false, false)
    else match revalidate_Lookup now trigger c req with
    | None => None
    | Some (hit, c, spawn) => Some (hit, set_hit c hit, spawn)
    end.

(** ** PreRequest *)

Definition prefetch_PreRequest c (req : Request) : Request * Caching B S :=
  if bool_decide (header_get ProtocolPrefetchCacheKey (rq_Header req) = []) then (req, c)
  else
    let rawRange := header_get range_key (rq_Header req) in
    let req := if bool_decide (rawRange = []) then req
               else req_with_prefetchRange (req_with_header req (header_del range_key (rq_Header req))) (Some rawRange) in
    (req_with_header req (header_del ProtocolPrefetchCacheKey (rq_Header req)), set_prefetch c true).

(** The conditions of a revalidation. *)
Definition conditional (m : Metadata B) (h : header) : header :=
  let etag := header_get (bs "ETag") (md_Headers m) in
  let lm := header_get (bs "Last-Modified") (md_Headers m) in
  let h := if bool_decide (etag = []) then h else header_set (bs "If-None-Match") etag h in
  if bool_decide (lm = []) then h else header_set (bs "If-Modified-Since") lm h.

(** [None]: revalidation without metadata. *)
Definition revalidate_PreRequest c (req : Request) : option (Request * Caching B S) :=
  if negb (c_revalidate c) then Some (req, c)
  else match c_md c with
  | None => None
  | Some m =>
      let h := conditional m (rq_Header req) in
      let req := req_with_header req h in
      if negb (hasConditionHeader (md_Headers m) || (300 <=? md_Code m)) then
        Some (req, set_bucket (set_md c (Some (md_with_chunks m bm_empty))) (bk_discard (c_bucket c) (c_id c)))
      else
        let rawRange := header_get range_key h in
        Some (if bool_decide (rawRange = []) then req else req_with_rawRange req (Some rawRange), c)
  end.

Definition chain_PreRequest c (req : Request) : option (Request * Caching B S) :=
  let '(req, c) := prefetch_PreRequest c req in
  match revalidate_PreRequest c req with
  | None => None
  | Some (req, c) => (λ req, (req, c)) <$> fill_PreRequest fr c req
  end.

(** ** Answers from the cache *)

Definition bytes_total (start stop size : Z) : str :=
  bs "bytes " ++ format_int start ++ "-"%char :: format_int stop ++ "/"%char :: format_int size.

(** [lazilyRespond]: the headers of [buildNoBodyRespond] and the assembled body;
    a HEAD request has none. *)
Definition lazily (m : Metadata B) (req : Request) (start stop : Z) : result proc_error Resp :=
  match (if isHead req then None else assembly_error m req start stop) with
  | Some e => Err e
  | None =>
      let h := CopyHeader ∅ (md_Headers m) in
      let h := header_del (bs "Content-Length") (header_del (bs "Content-Range") h) in
      let ranged := negb (bool_decide (header_get range_key (rq_Header req) = [])) in
      let h := if ranged then header_set (bs "Content-Range") (bytes_total start stop (md_Size m)) h else h in
      let cl := i64 (i64 (stop - start) + 1) in
      Ok (mkResp (if ranged then 206 else md_Code m) (header_set (bs "Content-Length") (format_int cl) h) cl
            (if isHead req then None else Some (Cached start stop)) ∅)
  end.

(** The status line, and two debug headers when the client asks for a trace. *)
Definition setXCache c (oreq : Request) (resp : Resp) : Resp :=
  let h := header_set ProtocolCacheStatusKey
    (join (bs " ") [CacheStatus_String (c_cacheStatus c); bs "from"; opt_Hostname opt; StoreType; bs "(tavern/4.0)"])
    (rs_Header resp) in
  let h := if bool_decide (header_get InternalTraceKey (rq_Header oreq) = []) then h
           else header_set InternalSwapfile (WPath (c_id c) bucket_path)
                  (header_set InternalStoreUrl (format_int (CacheStatus_code (c_cacheStatus c))) h) in
  resp_with_header resp h.

(** ** PostRequest *)

(** [None]: the context has no raw range, and the type assertion panics. *)
Definition prefetch_PostRequest c (req : Request) (resp : Resp) : option Resp :=
  if negb (c_prefetch c) then Some resp
  else if negb (rs_StatusCode resp =? 200) then Some resp
  else
    let '(sizeof, _) := atoi (header_get (bs "Content-Length") (rs_Header resp)) in
    match rq_prefetchRange req with
    | None => None
    | Some rawRange =>
        if bool_decide (rawRange = []) then Some resp
        else match SingleParse rawRange (u64 sizeof) with
        | Err _ => None
        | Ok rng =>
            let h := header_set (bs "Content-Range") (Range_ContentRange rng (u64 sizeof)) (rs_Header resp) in
            let h := header_set (bs "Content-Length") (format_int (Length rng)) h in
            Some (mkResp 206 h (rs_ContentLength resp)
              ((λ b, Window b 0 sizeof (r_Start rng) (r_End rng)) <$> rs_Body resp) (rs_Trailer resp))
        end
    end.

(** [freshness]: the metadata is renewed and stored. *)
Definition freshness (now : Z) c (m : Metadata B) (resp : Resp) : Caching B S :=
  let '(expiredAt, cacheable) := ParseCacheTime parse_time now [] (rs_Header resp) in
  if negb cacheable then c
  else
    let m' := md_with_times (Clone m) (unix now) (unix now) (unix (now + expiredAt)) in
    let m' := md_with_headers m' (CopyHeader (md_Headers m') (rs_Header resp)) in
    let c := set_md (set_cacheable c true) (Some m') in
    set_bucket c (bk_store (c_bucket c) m').

Definition revalidate (now : Z) c (m : Metadata B) (resp : Resp) (oreq req : Request)
    : result proc_error Resp * Caching B S * Request :=
  if negb (rs_StatusCode resp =? 304) then
    let c := set_status c CacheRevalidateMiss in
    let c := set_md c (Some (md_with_chunks m bm_empty)) in
    (Ok (setXCache c oreq resp), set_bucket c (bk_discard (c_bucket c) (c_id c)), req)
  else
    let c := freshness now c m resp in
    match c_md c with
    | None => (Ok resp, c, req)
    | Some m =>
        match rq_rawRange req with
        | Some rawRange =>
            match SingleParse rawRange (md_Size m) with
            | Err _ => (Err (BizError 416 ∅), c, req)
            | Ok rng =>
                let req := req_with_fill req None in
                (lazily m req (r_Start rng) (r_End rng), c, req)
            end
        | None =>
            let stop := if md_Size m >? 0 then i64 (md_Size m - 1) else 0 in
            (lazily m req 0 stop, c, req)
        end
    end.

Definition revalidate_PostRequest (now : Z) c (resp : Resp) (oreq req : Request)
    : option (result proc_error Resp * Caching B S * Request) :=
  if negb (c_revalidate c) then Some (Ok resp, c, req)
  else match c_md c with
  | None => None
  | Some m => Some (revalidate now (set_revalidate c false) m resp oreq req)
  end.

(** The three tests of [FileChangedProcessor.PostRequest]. *)
Definition last_modified_differs (old new : str) : bool :=
  match parse_time old, parse_time new with
  | Some a, Some b => negb (a =? b)
  | _, _ => true
  end.

Definition file_differs (m : Metadata B) (resp : Resp) : bool :=
  let size := match ParseContentRange (rs_Header resp) with (rr, None) => cr_ObjSize rr | _ => md_Size m end in
  let oldEtag := to_lower (header_get (bs "ETag") (md_Headers m)) in
  let newEtag := to_lower (header_get (bs "ETag") (rs_Header resp)) in
  let oldLm := header_get (bs "Last-Modified") (md_Headers m) in
  let newLm := header_get (bs "Last-Modified") (rs_Header resp) in
  negb (md_Size m =? size)
  || (negb (bool_decide (oldEtag = [])) && negb (bool_decide (newEtag = [])) && negb (equal_fold oldEtag newEtag))
  || (negb (bool_decide (oldLm = [])) && negb (bool_decide (newLm = [])) && last_modified_differs oldLm newLm).

Definition filechanged_PostRequest c (resp : Resp) : Caching B S :=
  let c :=
    match c_md c with
    | Some m =>
        if negb (c_revalidate c) && negb (c_noContentLen c) && negb (IsVary m) && file_differs m resp then
          set_bucket (set_fileChanged c true) (bk_discard (c_bucket c) (c_id c))
        else c
    | None => c
    end in
  match c_fileChanged c, c_rootmd c, c_md c with
  | true, None, Some m => set_md c (Some (md_with_chunks m bm_empty))
  | _, _, _ => c
  end.

(** [oreq] is the client's request, [req] the one sent upstream. *)
Definition chain_PostRequest (now : Z) c (oreq req : Request) (resp : Resp)
    : option (result proc_error Resp * Caching B S) :=
  match prefetch_PostRequest c req resp with
  | None => None
  | Some resp =>
      match vary_PostRequest opt (opt_VaryLimit opt) (unix now) c oreq resp with
      | None => None
      | Some c =>
          match revalidate_PostRequest now c resp oreq req with
          | None => None
          | Some (Err e, c, _) => Some (Err e, c)
          | Some (Ok resp, c, req) =>
              let c := filechanged_PostRequest c resp in
              Some (fill_PostRequest req resp, c)
          end
      end
  end.

(** ** doProxy *)

(** The metadata of an object seen for the first time; the zero value of a Go
    field is zero. *)
Definition new_md c (now objSize : Z) : Metadata B :=
  mkMetadata 0 (c_id c) (opt_SliceSize opt) bm_empty bm_empty 200 objSize (unix now) (unix now) 0 0 ∅ [].

(** The part for a response that is not 304: status, size, the error codes and
    the saving of the body.  The second component says whether the error of an
    error status is dropped. *)
Definition store_response c (m : Metadata B) (resp : Resp) (respRange : ContentRange)
    : Resp * bool * Caching B S :=
  let resp := resp_with_header resp (RemoveHopByHopHeaders (rs_Header resp)) in
  let statusCode := if rs_StatusCode resp =? 206 then 200 else rs_StatusCode resp in
  let m := md_with_size (md_with_code m statusCode) (cr_ObjSize respRange) in
  let '(c, m, allowed) :=
    if 400 <=? statusCode then
      if negb (bool_decide (header_get InternalCacheErrCode (rs_Header resp) = FlagOn))
      then (set_cacheable c false, md_with_headers m (CopyHeader ∅ (rs_Header resp)), false)
      else (c, m, true)
    else (c, m, false) in
  let body :=
    if c_cacheable c
    then (λ b, Saving b (md_BlockSize m) (u64 (cr_Start respRange)) (cr_ObjSize respRange)) <$> rs_Body resp
    else rs_Body resp in
  (resp_with_body resp body, allowed, set_md c (Some m)).

(** The end of [doProxy]: flags and headers of the metadata. *)
Definition finish_md c (m : Metadata B) (resp : Resp) (statusOK subRequest : bool) : Caching B S :=
  let m := if c_noContentLen c && statusOK then md_with_flags m (Z.lor (md_Flags m) FlagChunkedCache) else m in
  let h := if c_fileChanged c || negb subRequest then CopyHeader (md_Headers m) (rs_Header resp) else md_Headers m in
  let h := header_del (bs "X-Protocol-Request-Id") (header_del (bs "X-Protocol-Cache") (header_del (bs "X-Protocol") h)) in
  set_md c (Some (md_with_headers m h)).

(** The error of [ParseContentRange] that ends the request. *)
Definition bad_range (code : Z) (err : option range_error) : option range_error :=
  match err with
  | Some e =>
      if negb (code =? 304) && negb (code =? 200) && negb (bool_decide (e = ErrContentRangeHeaderNotFound))
      then Some e else None
  | None => None
  end.

(** An upstream response that [doProxy] returns as it is, with its error. *)
Definition passed_on (r : Resp) : option (option proc_error) :=
  let code := rs_StatusCode r in
  if (code =? 302) || (code =? 301) then Some None
  else if code =? 416 then Some (Some (BizError code (rs_Header r)))
  else match bad_range code (snd (ParseContentRange (rs_Header r))) with
  | Some e => Some (Some (RangeError e))
  | None => None
  end.

(** The metadata of the object, made if there is none, with the times of this
    response. *)
Definition receive (now : Z) c (r : Resp) : Caching B S * Metadata B :=
  let '(respRange, err) := ParseContentRange (rs_Header r) in
  let c := if bool_decide (err = None) then c else set_noContentLen c true in
  let m := default (new_md c now (cr_ObjSize respRange)) (c_md c) in
  let '(expiredAt, cacheable) := ParseCacheTime parse_time now ProtocolCacheTime (rs_Header r) in
  let m := md_with_times m (unix now) (unix now) (unix (now + expiredAt)) in
  (set_cacheable (set_md c (Some m)) cacheable, m).

(** The error of a status that is one; it is dropped when the code is cached. *)
Definition status_error c (r : Resp) : option proc_error :=
  match c_md c with
  | Some _ => if (400 <=? rs_StatusCode r) && negb (c_revalidate c) then Some (UpstreamStatus (rs_StatusCode r)) else None
  | None => None
  end.

Definition prepare (now : Z) c (r : Resp) : Resp * bool * Caching B S :=
  let '(c, m) := receive now c r in
  if rs_StatusCode r =? 304 then (r, false, c)
  else store_response c m r (fst (ParseContentRange (rs_Header r))).

(** The response and the error are both returned; [None] is a panic.  What the chain
    returns beside an error is left out: every caller only closes its body. *)
Definition doProxy (upstream : Request → result Z Resp) (now : Z) c (oreq req : Request) (subRequest : bool)
    : option (option Resp * option proc_error * Caching B S) :=
  match chain_PreRequest c (cloneRequest req) with
  | None => None
  | Some (proxyReq, c) =>
      match upstream proxyReq with
      | Err e => Some (None, Some (ProxyError e), c)
      | Ok resp =>
          match passed_on resp with
          | Some e => Some (Some resp, e, c)
          | None =>
              let proxyErr := status_error c resp in
              let statusOK := rs_StatusCode resp =? 200 in
              let '(resp, allowed, c) := prepare now c resp in
              let proxyErr := if allowed then None else proxyErr in
              match chain_PostRequest now c oreq proxyReq resp with
              | None => None
              | Some (Err e, c) => Some (None, Some e, c)
              | Some (Ok resp, c) =>
                  match c_md c with
                  | None => None
                  | Some m => Some (Some resp, proxyErr, finish_md c m resp statusOK subRequest)
                  end
              end
          end
      end
  end.

(** ** The middleware *)

(** [md] is what the bucket's lookup returned. *)
Definition preCacheProcessor (now : Z) (trigger : bool) (s : S) (req : Request) : option (Caching B S * bool) :=
  let id := newObjectIDFromRequest req [] (IncludeQueryInCacheKey opt) in
  let '(md, s) := bk_lookup s id in
  let c := mkCaching id md None s CacheMiss false false false false false false false in
  match chain_Lookup now trigger c req with
  | None => None
  | Some (hit, c, spawn) => Some (set_hit c hit, spawn)
  end.

Variable http_time : Z → str.   (* time.Unix(_, 0).UTC().Format(http.TimeFormat) *)

(** The last component says whether the body is read to its end here, which a
    prefetch does. *)
Definition postCacheProcessor (now : Z) c (req : Request) (resp : Resp) : Resp * Caching B S * bool :=
  let resp := setXCache c req resp in
  let resp :=
    match c_md c with
    | Some m =>
        let h := header_set (bs "Age") (format_int (i64 (unix now - md_RespUnix m))) (rs_Header resp) in
        let h := header_set (bs "Date") (http_time (md_RespUnix m)) h in
        resp_with_header resp (header_set (bs "Expires") (http_time (md_ExpiresAt m)) h)
    | None => resp
    end in
  let c :=
    if c_cacheable c then
      let c := match c_md c with
               | Some m => if isHead req then set_bucket c (bk_store (c_bucket c) m) else c
               | None => c
               end in
      match c_rootmd c with Some m => set_bucket c (bk_store (c_bucket c) m) | None => c end
    else c in
  (resp, set_bucket c (bk_touch (c_bucket c) (c_id c)), c_prefetch c).

(** A request through the middleware, with a bucket selected and no collapsed
    forwarding: [hit] is [respondFromCache] up to the post-processing it ends with.
    The result is the response or the error. *)
Definition roundTrip (upstream : Request → result Z Resp) (now : Z) (trigger : bool)
    (hit : Caching B S → result proc_error Resp * Caching B S) (s : S) (req : Request)
    : option (result proc_error Resp * S) :=
  if negb (isGet req) && negb (isHead req) then
    Some (match upstream req with Ok r => Ok r | Err e => Err (ProxyError e) end, s)
  else match preCacheProcessor now trigger s req with
  | None => None
  | Some (c, _) =>
      if c_hit c then
        match hit c with
        | (Err e, c) => Some (Err e, c_bucket c)
        | (Ok resp, c) => let '(resp, c, _) := postCacheProcessor now c req resp in Some (Ok resp, c_bucket c)
        end
      else match doProxy upstream now c req req false with
      | None => None
      | Some (_, Some e, c) => Some (Err e, c_bucket c)
      | Some (None, None, c) => None
      | Some (Some resp, None, c) =>
          let '(resp, c, _) := postCacheProcessor now c req resp in Some (Ok resp, c_bucket c)
      end
  end.

(** ** Which bodies are saved *)

(** The body under the windows that cut it. *)
Fixpoint core (b : rbody) : rbody := match b with Window b _ _ _ _ => core b | _ => b end.
Definition inner (r : Resp) : option rbody := core <$> rs_Body r.
Definition is_saving (b : rbody) : bool := match b with Saving _ _ _ _ => true | _ => false end.
Definition saved (r : Resp) : bool := match inner r with Some b => is_saving b | None => false end.

(** The decision of [doProxy] about an upstream response. *)
Definition storable (now : Z) (r : Resp) : bool :=
  bool_decide (passed_on r = None) && negb (rs_StatusCode r =? 304)
  && snd (ParseCacheTime parse_time now ProtocolCacheTime (rs_Header r))
  && ((rs_StatusCode r <? 400)
      || bool_decide (header_get InternalCacheErrCode (RemoveHopByHopHeaders (rs_Header r)) = FlagOn)).

Lemma prefetch_inner c req r r' : prefetch_PostRequest c req r = Some r' →
  inner r' = inner r ∧ (rs_StatusCode r' =? 304) = (rs_StatusCode r =? 304).
Proof.
  unfold prefetch_PostRequest. repeat case_if; try (intros [= <-]; done). destruct (atoi _) as [sizeof e].
  destruct (rq_prefetchRange req); [|done]. case_if; [intros [= <-]; done|].
  destruct (SingleParse _ _); [|done]. intros [= <-]. unfold inner. simpl.
  replace (rs_StatusCode r) with 200 by lia. by destruct (rs_Body r).
Qed.

Lemma fill_inner req r r' : fill_PostRequest req r = Ok r' → inner r' = inner r.
Proof.
  unfold fill_PostRequest. destruct (rq_fill req); [|by intros [= <-]]. case_if; [|by intros [= <-]].
  destruct (ParseContentRange _) as [cr [e|]]; [done|]. case_if; [done|]. intros [= <-]. unfold inner. simpl.
  by destruct (rs_Body r).
Qed.

Lemma lazily_unsaved m req a b r : lazily m req a b = Ok r → saved r = false.
Proof.
  unfold lazily. destruct (if isHead req then None else _); [done|]. intros [= <-]. unfold saved, inner. simpl.
  by destruct (isHead req).
Qed.

Lemma revalidate_inner now c oreq req r r' c' req' :
  revalidate_PostRequest now c r oreq req = Some (Ok r', c', req') →
  inner r' = inner r ∨ ((rs_StatusCode r =? 304) = true ∧ saved r' = false).
Proof.
  unfold revalidate_PostRequest. case_if; [intros [= <- <- <-]; by left|]. destruct (c_md c); [|done]. unfold revalidate.
  case_if; [intros [= <- <- <-]; by left|]. intros E.
  destruct (c_md (freshness now _ _ r)); [|simplify_eq; by left]. right. split; [lia|].
  destruct (rq_rawRange req); [destruct (SingleParse _ _); [|done]|];
    injection E as E <- <-; by apply lazily_unsaved in E.
Qed.

Lemma chain_inner now c oreq req r r' c' : chain_PostRequest now c oreq req r = Some (Ok r', c') →
  inner r' = inner r ∨ ((rs_StatusCode r =? 304) = true ∧ saved r' = false).
Proof.
  unfold chain_PostRequest. destruct (prefetch_PostRequest c req r) as [r1|] eqn:E1; [|done].
  destruct (prefetch_inner _ _ _ _ E1) as [S1 C1]. destruct (vary_PostRequest _ _ _ _ _ _) as [c1|]; [|done].
  destruct (revalidate_PostRequest _ _ _ _ _) as [[[[r2|e] c2] req2]|] eqn:E2; [|done|done].
  intros [= E3 <-]. apply fill_inner in E3. unfold saved. rewrite E3.
  apply revalidate_inner in E2 as [E2|[C2 S2]]; [left; congruence|right]. unfold saved in S2. split; [congruence|done].
Qed.

(** The saving of a response that is not 304. *)
Lemma store_response_inner c m r cr r' allowed c' : store_response c m r cr = (r', allowed, c') →
  rs_Body r = Some Upstream →
  rs_StatusCode r' = rs_StatusCode r
  ∧ inner r' = Some (if c_cacheable c && ((rs_StatusCode r <? 400)
        || bool_decide (header_get InternalCacheErrCode (RemoveHopByHopHeaders (rs_Header r)) = FlagOn))
      then Saving Upstream (md_BlockSize m) (u64 (cr_Start cr)) (cr_ObjSize cr) else Upstream).
Proof.
  unfold store_response. intros E Hb. cbn [resp_with_header rs_StatusCode rs_Header rs_Body] in E. rewrite Hb in E.
  assert ((400 <=? (if rs_StatusCode r =? 206 then 200 else rs_StatusCode r)) = negb (rs_StatusCode r <? 400)) as Ec
    by (repeat case_if; lia).
  rewrite Ec in E. destruct (rs_StatusCode r <? 400); cbn [negb orb] in *.
  - rewrite andb_true_r. injection E as <- <- <-. split; [done|]. unfold inner. cbn. by destruct (c_cacheable c).
  - case_bool_decide; cbn [negb] in E; injection E as <- <- <-; (split; [done|]); unfold inner; cbn.
    + rewrite andb_true_r. by destruct (c_cacheable c).
    + by rewrite andb_false_r.
Qed.

(** The block size the object has or will get. *)
Definition block_size c : Z := match c_md c with Some m => md_BlockSize m | None => opt_SliceSize opt end.

Lemma pre_block_size c req q c1 : chain_PreRequest c req = Some (q, c1) → block_size c1 = block_size c.
Proof.
  unfold chain_PreRequest. destruct (prefetch_PreRequest c req) as [q0 c0] eqn:E0.
  assert (c_md c0 = c_md c) as M0.
  { unfold prefetch_PreRequest in E0. case_bool_decide; by injection E0 as <- <-. }
  destruct (revalidate_PreRequest c0 q0) as [[q2 c2]|] eqn:E2; [|done].
  assert (block_size c2 = block_size c0) as M2.
  { unfold revalidate_PreRequest in E2. destruct (negb (c_revalidate c0)); [by injection E2 as <- <-|].
    unfold block_size. destruct (c_md c0) as [m|] eqn:Em; [|done]. cbv zeta in E2.
    destruct (negb (_ || _)); injection E2 as <- <-; [done|].
    by rewrite Em. }
  destruct (fill_PreRequest fr c2 q2) as [q3|]; [|done]. intros [= <- <-]. rewrite M2. unfold block_size. by rewrite M0.
Qed.

Lemma receive_block_size now c r c2 m : receive now c r = (c2, m) →
  md_BlockSize m = block_size c ∧ c_cacheable c2 = snd (ParseCacheTime parse_time now ProtocolCacheTime (rs_Header r)).
Proof.
  unfold receive, block_size. destruct (ParseContentRange _) as [cr err], (ParseCacheTime _ _ _ _) as [x k].
  intros [= <- <-]. split; [|done]. case_bool_decide; cbn [set_noContentLen c_md]; by destruct (c_md c).
Qed.

(** What the chain is given. *)
Lemma prepare_inner now c r r' allowed c' : prepare now c r = (r', allowed, c') →
  passed_on r = None → rs_Body r = Some Upstream →
  let cr := fst (ParseContentRange (rs_Header r)) in
  rs_StatusCode r' = rs_StatusCode r
  ∧ inner r' = Some (if storable now r then Saving Upstream (block_size c) (u64 (cr_Start cr)) (cr_ObjSize cr) else Upstream).
Proof.
  unfold prepare, storable. intros E Hp Hb. destruct (receive now c r) as [c2 m] eqn:Er.
  apply receive_block_size in Er as [<- <-]. rewrite bool_decide_eq_true_2 by done.
  destruct (rs_StatusCode r =? 304); [|by apply store_response_inner in E].
  injection E as <- <- <-. unfold inner. by rewrite Hb.
Qed.

(** C6: The body of a response that comes back from [doProxy] is saved exactly
    when the upstream response may be stored: not a redirect, 304 or 416, a
    readable size unless it is a 200, cacheable by its headers, and no error
    status unless the origin allows error codes to be cached; what is saved is
    then the upstream body, in blocks of the object's block size from the first
    byte of the response's range. *)
Theorem body_saved_iff upstream now c oreq req sub resp e c' :
  doProxy upstream now c oreq req sub = Some (Some resp, e, c') →
  (∀ q r, upstream q = Ok r → rs_Body r = Some Upstream) →
  ∃ q r, fst <$> chain_PreRequest c (cloneRequest req) = Some q ∧ upstream q = Ok r ∧ saved resp = storable now r
  ∧ (storable now r = true → let cr := fst (ParseContentRange (rs_Header r)) in
       inner resp = Some (Saving Upstream (block_size c) (u64 (cr_Start cr)) (cr_ObjSize cr))).
Proof.
  unfold doProxy. intros HP Hup. destruct (chain_PreRequest c (cloneRequest req)) as [[q c1]|] eqn:Epre; [|done].
  cbn [fst fmap option_fmap option_map]. rewrite <-(pre_block_size _ _ _ _ Epre). destruct (upstream q) as [r|] eqn:Er; [|done].
  pose proof (Hup q r Er) as Hb. exists q, r. do 2 (split; [done|]).
  destruct (passed_on r) eqn:Ep.
  { injection HP as <- <- <-. unfold storable, saved, inner. by rewrite Ep, Hb. }
  destruct (prepare now c1 r) as [[r1 allowed] c2] eqn:E1. apply prepare_inner in E1 as [Hc Hi]; [|done..].
  destruct (chain_PostRequest _ _ _ _ _) as [[[r2|] c3]|] eqn:E2; [|done|done].
  destruct (c_md c3); [|done]. injection HP as <- <- <-. unfold saved.
  apply chain_inner in E2 as [->|[H304 Hs]]; [rewrite Hi; by destruct (storable now r)|].
  assert (storable now r = false) as -> by (unfold storable; by rewrite <-Hc, H304, andb_false_r).
  by split.
Qed.
(** ** Revalidation *)

(** A condition is sent for each validator the object has. *)
Lemma conditional_get m h :
  (header_get (bs "ETag") (md_Headers m) ≠ [] →
     header_get (bs "If-None-Match") (conditional m h) = header_get (bs "ETag") (md_Headers m))
  ∧ (header_get (bs "Last-Modified") (md_Headers m) ≠ [] →
     header_get (bs "If-Modified-Since") (conditional m h) = header_get (bs "Last-Modified") (md_Headers m)).
Proof.
  unfold conditional. split; intros Hn; repeat case_bool_decide; try done.
  - by rewrite header_get_set.
  - rewrite header_get_set_ne by (by vm_compute). by rewrite header_get_set.
  - by rewrite header_get_set.
  - by rewrite header_get_set.
Qed.

Lemma conditional_range m h : header_get range_key (conditional m h) = header_get range_key h.
Proof. unfold conditional. repeat case_bool_decide; by rewrite ?header_get_set_ne by (by vm_compute). Qed.

(** A request for the whole object, not a prefetch. *)
Definition whole (req : Request) : Prop :=
  header_get range_key (rq_Header (cloneRequest req)) = []
  ∧ header_get ProtocolPrefetchCacheKey (rq_Header (cloneRequest req)) = [].
#[local] Instance whole_dec req : Decision (whole req).
Proof. unfold whole. apply _. Defined.

Lemma pre_revalidate c m req : c_md c = Some m → c_revalidate c = true → hasConditionHeader (md_Headers m) = true →
  whole req →
  chain_PreRequest c (cloneRequest req)
  = Some (req_with_header (cloneRequest req) (conditional m (rq_Header (cloneRequest req))), c).
Proof.
  intros Hm Hr Hc [Hrange Hpre]. unfold chain_PreRequest, prefetch_PreRequest, revalidate_PreRequest.
  rewrite Hpre, bool_decide_eq_true_2, Hr, Hm, Hc by done. cbn [negb orb].
  unfold fill_PreRequest. cbn [rq_Header req_with_header]. rewrite conditional_range, Hrange.
  rewrite (bool_decide_eq_true_2 (@nil ascii = [])) by done. cbn [orb rq_Header req_with_header].
  by rewrite conditional_range, Hrange, bool_decide_eq_true_2 by done.
Qed.

(** The vary processor leaves the request alone: a variant, or no Vary header on
    either side. *)
Definition vary_free (m : Metadata B) (r : Resp) : bool :=
  IsVaryCache m || (bool_decide (Clean (header_values vary (md_Headers m)) = [])
                    && bool_decide (Clean (header_values vary (rs_Header r)) = [])).

Lemma vary_free_post limit now c m oreq r : c_md c = Some m → vary_free m r = true →
  vary_PostRequest opt limit now c oreq r = Some c.
Proof.
  intros Hm Hv. unfold vary_PostRequest, vary_free in *. rewrite Hm. destruct (IsVaryCache m); [done|].
  cbn [orb] in Hv. apply andb_true_iff in Hv as [H1%bool_decide_eq_true H2%bool_decide_eq_true].
  unfold convertVaryMetadata. by rewrite H1, H2.
Qed.

Lemma vary_free_stable m m' r r' : md_Flags m' = md_Flags m → md_Headers m' = md_Headers m →
  rs_Header r' = rs_Header r → vary_free m' r' = vary_free m r.
Proof. intros E1 E2 E3. unfold vary_free, IsVaryCache. by rewrite E1, E2, E3. Qed.

(** What [freshness] keeps of the object, and what it renews. *)
Definition renewed (now ttl : Z) (m m' : Metadata B) : Prop :=
  md_ID m' = md_ID m ∧ md_Size m' = md_Size m ∧ md_Code m' = md_Code m ∧ md_Chunks m' = md_Chunks m
  ∧ md_BlockSize m' = md_BlockSize m ∧ md_RespUnix m' = unix now ∧ md_ExpiresAt m' = unix (now + ttl).

(** The answer of the chain to 304: the assembled body, under renewed metadata
    that is stored. *)
Lemma chain_not_modified now c m ttl oreq req r : c_md c = Some m → c_revalidate c = true → c_prefetch c = false →
  c_noContentLen c = true → c_fileChanged c = false → rs_StatusCode r = 304 → vary_free m r = true →
  rq_rawRange req = None → rq_fill req = None → (∀ m' a b, assembly_error m' req a b = None) →
  ParseCacheTime parse_time now [] (rs_Header r) = (ttl, true) →
  ∃ m' resp, renewed now ttl m m'
  ∧ lazily m' req 0 (if md_Size m >? 0 then i64 (md_Size m - 1) else 0) = Ok resp
  ∧ chain_PostRequest now c oreq req r
    = Some (Ok resp, set_bucket (set_md (set_cacheable (set_revalidate c false) true) (Some m'))
                       (bk_store (c_bucket c) m')).
Proof.
  intros Hm Hr Hp Hn Hf H304 Hv Hraw Hfill Ha Ht. unfold chain_PostRequest, prefetch_PostRequest. rewrite Hp. cbn [negb].
  rewrite (vary_free_post _ _ _ m) by done. unfold revalidate_PostRequest. rewrite Hr, Hm. cbn [negb].
  unfold revalidate. rewrite H304. cbn [Z.eqb Pos.eqb negb]. unfold freshness. rewrite Ht. cbn [negb].
  set (m' := md_with_headers _ _). exists m'. cbn [c_md set_bucket set_md]. rewrite Hraw.
  change (md_Size m') with (md_Size m). set (stop := if md_Size m >? 0 then _ else _).
  destruct (lazily m' req 0 stop) as [resp|e] eqn:El.
  2: { exfalso. unfold lazily in El. rewrite Ha in El. by destruct (isHead req). }
  exists resp. split; [done|]. split; [done|]. unfold filechanged_PostRequest.
  cbn [c_md c_revalidate c_noContentLen c_fileChanged set_bucket set_md set_cacheable set_revalidate].
  rewrite Hn. cbn [negb andb c_fileChanged set_bucket set_md set_cacheable set_revalidate]. rewrite Hf.
  unfold fill_PostRequest. by rewrite Hfill.
Qed.

(** The whole object from the cache. *)
Lemma lazily_whole m req resp : lazily m req 0 (if md_Size m >? 0 then i64 (md_Size m - 1) else 0) = Ok resp →
  isHead req = false → header_get range_key (rq_Header req) = [] → 0 < md_Size m <= max_int64 →
  rs_Body resp = Some (Cached 0 (md_Size m - 1)) ∧ rs_StatusCode resp = md_Code m ∧ rs_ContentLength resp = md_Size m.
Proof.
  unfold lazily. intros E Hh Hr Hs. rewrite Hh in E. destruct (assembly_error _ _ _ _); [done|].
  rewrite Hr, bool_decide_eq_true_2 in E by done. cbn [negb] in E.
  assert ((if md_Size m >? 0 then i64 (md_Size m - 1) else 0) = md_Size m - 1) as Hz.
  { case_if; [|lia]. apply i64_id. unfold_ints. lia. }
  rewrite Hz in E. injection E as <-. cbn [rs_Body rs_StatusCode rs_ContentLength]. split_and!; [done..|].
  rewrite (i64_id (md_Size m - 1 - 0)), i64_id; unfold_ints; lia.
Qed.

(** C4: revalidation that the origin confirms.  A request for a whole object
    that is to be revalidated is sent with the object's validators; on a 304
    that carries a lifetime and no size, the answer is the cached body from the
    first byte to the last with the object's own status and length, nothing is
    saved, no error is reported, and the object's index entry is stored with its
    chunks and size unchanged and its lifetime renewed. *)
Theorem not_modified_served `{!ReliableBucket B S} upstream now c m oreq req r ttl :
  c_md c = Some m → c_revalidate c = true → c_prefetch c = false → c_fileChanged c = false →
  hasConditionHeader (md_Headers m) = true → whole req → isHead req = false →
  let q := req_with_header (cloneRequest req) (conditional m (rq_Header (cloneRequest req))) in
  upstream q = Ok r → rs_StatusCode r = 304 → vary_free m r = true →
  snd (ParseContentRange (rs_Header r)) ≠ None →
  ParseCacheTime parse_time now [] (rs_Header r) = (ttl, true) →
  (∀ m' q a b, assembly_error m' q a b = None) → 0 < md_Size m <= max_int64 → id_wf (md_ID m) →
  (header_get (bs "ETag") (md_Headers m) ≠ [] →
     header_get (bs "If-None-Match") (rq_Header q) = header_get (bs "ETag") (md_Headers m))
  ∧ (header_get (bs "Last-Modified") (md_Headers m) ≠ [] →
     header_get (bs "If-Modified-Since") (rq_Header q) = header_get (bs "Last-Modified") (md_Headers m))
  ∧ ∃ resp m' c', doProxy upstream now c oreq req false = Some (Some resp, None, c')
  ∧ rs_Body resp = Some (Cached 0 (md_Size m - 1)) ∧ rs_StatusCode resp = md_Code m
  ∧ rs_ContentLength resp = md_Size m
  ∧ renewed now ttl m m' ∧ bk_view (c_bucket c') = <[id_hash (md_ID m) := bk_stored m']> (bk_view (c_bucket c)).
Proof.
  intros Hm Hr Hp Hf Hc Hw Hh q Hup H304 Hv Hcr Ht Ha Hsz Hwf.
  destruct (conditional_get m (rq_Header (cloneRequest req))) as [Hq1 Hq2]. split; [done|]. split; [done|].
  unfold doProxy. rewrite (pre_revalidate c m req) by done. fold q. rewrite Hup.
  destruct (ParseContentRange (rs_Header r)) as [cr [err|]] eqn:Ecr; [|done].
  assert (passed_on r = None) as -> by (unfold passed_on, bad_range; by rewrite Ecr, H304).
  unfold prepare, receive, status_error. rewrite Ecr, Hm, H304.
  destruct (ParseCacheTime parse_time now ProtocolCacheTime _) as [exp ca].
  rewrite bool_decide_eq_false_2 by done. cbn [set_noContentLen c_md]. rewrite Hm. cbn [Z.eqb Pos.eqb].
  match goal with |- context [chain_PostRequest now ?x oreq q r] => set (c1 := x) end.
  destruct (chain_not_modified now c1 (md_with_times m (unix now) (unix now) (unix (now + exp))) ttl oreq q r)
    as (m' & resp & Hren & Hl & ->); try done.
  destruct Hren as (Ei & Es & Ek & Hren'). cbn [md_with_times md_Size] in Hl. change (md_Size m) with
    (md_Size (md_with_times m (unix now) (unix now) (unix (now + exp)))) in Hl. rewrite <-Es in Hl.
  apply lazily_whole in Hl as (H1 & H2 & H3); [|done| |by rewrite Es].
  2: { subst q. cbn [rq_Header req_with_header]. rewrite conditional_range. by destruct Hw. }
  rewrite Es in H1, H3. rewrite Ek in H2. eexists resp, m', _. split; [reflexivity|]. do 4 (split; [done|]).
  change (bk_view (bk_store (c_bucket c) m') = <[id_hash (md_ID m):=bk_stored m']> (bk_view (c_bucket c))).
  rewrite bk_store_view by (by rewrite Ei). by rewrite Ei.
Qed.
(** The file-change processor on an object whose chunks are cleared already. *)
Lemma filechanged_cleared c m r : c_md c = Some m → md_Chunks m = bm_empty →
  (∃ m', c_md (filechanged_PostRequest c r) = Some m' ∧ md_Chunks m' = bm_empty)
  ∧ c_cacheStatus (filechanged_PostRequest c r) = c_cacheStatus c
  ∧ (c_bucket (filechanged_PostRequest c r) = c_bucket c
     ∨ c_bucket (filechanged_PostRequest c r) = bk_discard (c_bucket c) (c_id c)).
Proof.
  intros Hm Hc. unfold filechanged_PostRequest. rewrite Hm. destruct (negb (c_revalidate c) && _ && _ && _);
    cbn [c_fileChanged c_rootmd c_md set_bucket set_fileChanged];
    [destruct (c_rootmd c)|destruct (c_fileChanged c); [destruct (c_rootmd c)|]]; rewrite ?Hm; cbn; eauto 10.
Qed.

Lemma finish_md_keeps c m r ok sub : ∃ m', c_md (finish_md c m r ok sub) = Some m' ∧ md_Chunks m' = md_Chunks m
  ∧ md_Size m' = md_Size m ∧ c_bucket (finish_md c m r ok sub) = c_bucket c
  ∧ c_cacheStatus (finish_md c m r ok sub) = c_cacheStatus c ∧ c_fileChanged (finish_md c m r ok sub) = c_fileChanged c.
Proof. eexists. split; [reflexivity|]. by destruct (c_noContentLen c && ok). Qed.

(** A response that is prepared without an error status. *)
Lemma prepare_ok now c m r : c_md c = Some m → rs_StatusCode r < 400 → (rs_StatusCode r =? 304) = false →
  ∃ r1 m1 c1, prepare now c r = (r1, false, c1)
  ∧ rs_StatusCode r1 = rs_StatusCode r ∧ rs_Header r1 = RemoveHopByHopHeaders (rs_Header r)
  ∧ c_md c1 = Some m1 ∧ md_Flags m1 = md_Flags m ∧ md_Headers m1 = md_Headers m ∧ md_Chunks m1 = md_Chunks m
  ∧ md_Size m1 = cr_ObjSize (fst (ParseContentRange (rs_Header r)))
  ∧ c_id c1 = c_id c ∧ c_bucket c1 = c_bucket c ∧ c_prefetch c1 = c_prefetch c ∧ c_revalidate c1 = c_revalidate c
  ∧ c_fileChanged c1 = c_fileChanged c ∧ c_rootmd c1 = c_rootmd c.
Proof.
  intros Hm Hlt H304. unfold prepare, receive, store_response. rewrite H304.
  destruct (ParseContentRange (rs_Header r)) as [cr err], (ParseCacheTime _ _ _ _) as [x k].
  cbn [rs_StatusCode rs_Header resp_with_header fst].
  assert ((400 <=? (if rs_StatusCode r =? 206 then 200 else rs_StatusCode r)) = false) as -> by (case_if; lia).
  eexists _, _, _. split; [reflexivity|]. cbn. do 3 (split; [done|]).
  case_bool_decide; cbn [c_md set_noContentLen]; rewrite Hm; by split_and!.
Qed.

(** C5: revalidation that the origin does not confirm.  When the answer to a
    conditional request is a fresh response and not 304, the object's index
    entry is discarded and its chunks are forgotten before the new body is
    read, the request counts as a revalidation miss, and the new body is saved
    exactly if it may be stored. *)
Theorem changed_object_replaced `{!ReliableBucket B S} upstream now c m oreq req r :
  c_md c = Some m → c_revalidate c = true → c_prefetch c = false →
  hasConditionHeader (md_Headers m) = true → whole req →
  upstream (req_with_header (cloneRequest req) (conditional m (rq_Header (cloneRequest req)))) = Ok r →
  passed_on r = None → rs_StatusCode r < 400 → rs_StatusCode r ≠ 304 → rs_Body r = Some Upstream →
  vary_free m (resp_with_header r (RemoveHopByHopHeaders (rs_Header r))) = true →
  ∃ resp m' c', doProxy upstream now c oreq req false = Some (Some resp, None, c')
  ∧ c_md c' = Some m' ∧ md_Chunks m' = bm_empty ∧ c_cacheStatus c' = CacheRevalidateMiss
  ∧ bk_view (c_bucket c') !! id_hash (c_id c) = None ∧ bk_view (c_bucket c') ⊆ bk_view (c_bucket c)
  ∧ saved resp = storable now r.
Proof.
  intros Hm Hr Hp Hc Hw Hup Hpass Hlt H304 Hb Hv. apply Z.eqb_neq in H304 as E304.
  unfold doProxy. rewrite (pre_revalidate c m req) by done. set (q := req_with_header _ _) in *. rewrite Hup, Hpass.
  destruct (prepare_ok now c m r Hm Hlt E304)
    as (r1 & m1 & c1 & Ep & Hs1 & Hh1 & Hm1 & Hf & Hhd & _ & _ & Hid & Hbk & Hpf & Hrv & _).
  rewrite Ep. apply prepare_inner in Ep as [_ Hin]; [|done..].
  unfold chain_PostRequest, prefetch_PostRequest. rewrite Hpf, Hp. cbn [negb].
  rewrite (vary_free_post _ _ _ m1) by (done || by rewrite <-Hv; apply vary_free_stable).
  unfold revalidate_PostRequest, revalidate. rewrite Hrv, Hr, Hm1, Hs1, E304. cbn [negb].
  match goal with |- context [filechanged_PostRequest ?x ?y] => set (c2 := x); set (r2 := y) end.
  destruct (filechanged_cleared c2 (md_with_chunks m1 bm_empty) r2) as ((m3 & Hm3 & Hk) & Hst & Hbk'); [done..|].
  unfold fill_PostRequest. cbn [rq_fill q req_with_header cloneRequest]. rewrite Hm3.
  unfold status_error. rewrite Hm, Hr, andb_false_r.
  destruct (finish_md_keeps (filechanged_PostRequest c2 r2) m3 r2 (rs_StatusCode r =? 200) false)
    as (m' & E1 & E2 & E3 & E4 & E5 & E6).
  eexists r2, m', _. split; [reflexivity|]. do 2 (split; [congruence|]). split; [by rewrite E5, Hst|]. apply and_assoc. split.
  - rewrite E4. destruct (bk_discard_view (c_bucket c) (c_id c)) as [Hn1 Hsub1].
    assert (c_bucket c2 = bk_discard (c_bucket c) (c_id c)) as Hb2 by (cbn; by rewrite Hbk, Hid).
    assert (c_id c2 = c_id c) as Hid2 by (cbn; exact Hid).
    destruct Hbk' as [-> | ->]; rewrite Hb2; [done|]. rewrite Hid2.
    destruct (bk_discard_view (bk_discard (c_bucket c) (c_id c)) (c_id c)) as [Hn2 Hsub2]. split; [done|]. by etrans.
  - unfold saved. change (inner r2) with (inner r1). rewrite Hin. by destruct (storable now r).
Qed.

(** Without a validator on both sides only the sizes are compared. *)
Lemma file_differs_size m r :
  md_Size m = cr_ObjSize (fst (ParseContentRange (rs_Header r))) →
  (header_get (bs "ETag") (rs_Header r) = [] ∨ header_get (bs "ETag") (md_Headers m) = []) →
  (header_get (bs "Last-Modified") (rs_Header r) = [] ∨ header_get (bs "Last-Modified") (md_Headers m) = []) →
  file_differs m r = false.
Proof.
  intros Hs Het Hlm. unfold file_differs.
  assert (negb (md_Size m =? match ParseContentRange (rs_Header r) with (rr, None) => cr_ObjSize rr | _ => md_Size m end)
    = false) as ->.
  { destruct (ParseContentRange (rs_Header r)) as [rr [x|]]; cbn [fst] in Hs; rewrite ?Hs; by rewrite Z.eqb_refl. }
  cbn [orb]. apply orb_false_iff. split.
  - destruct Het as [-> | ->]; change (to_lower []) with (@nil ascii); rewrite (bool_decide_eq_true_2 (@nil ascii = [])) by done;
      cbn [negb andb]; by rewrite ?andb_false_r.
  - destruct Hlm as [-> | ->]; rewrite (bool_decide_eq_true_2 (@nil ascii = [])) by done;
      cbn [negb andb]; by rewrite ?andb_false_r.
Qed.

(** a change of size alone is not noticed.  When a response for a stored
    object without Vary announces another size, and validators are missing on
    one side, the object is not marked as changed, its index entry is kept, and
    its old chunks stay valid under the new size: the recorded size is replaced
    before the file-change processor compares it. *)
Theorem size_change_undetected upstream now c m oreq req r sub resp e c' :
  c_md c = Some m → c_revalidate c = false → c_prefetch c = false → c_fileChanged c = false →
  header_get ProtocolPrefetchCacheKey (rq_Header (cloneRequest req)) = [] →
  (∀ q, upstream q = Ok r) → passed_on r = None → rs_StatusCode r < 400 → rs_StatusCode r ≠ 304 →
  let h := RemoveHopByHopHeaders (rs_Header r) in
  fst (ParseContentRange h) = fst (ParseContentRange (rs_Header r)) →
  vary_free m (resp_with_header r h) = true →
  (header_get (bs "ETag") h = [] ∨ header_get (bs "ETag") (md_Headers m) = []) →
  (header_get (bs "Last-Modified") h = [] ∨ header_get (bs "Last-Modified") (md_Headers m) = []) →
  doProxy upstream now c oreq req sub = Some (Some resp, e, c') →
  ∃ m', c_md c' = Some m' ∧ md_Size m' = cr_ObjSize (fst (ParseContentRange (rs_Header r)))
  ∧ md_Chunks m' = md_Chunks m ∧ c_fileChanged c' = false ∧ c_bucket c' = c_bucket c.
Proof.
  intros Hm Hr Hp Hfc Hpre Hup Hpass Hlt H304 h Hcr Hv Het Hlm HP. apply Z.eqb_neq in H304 as E304.
  unfold doProxy, chain_PreRequest, prefetch_PreRequest, revalidate_PreRequest in HP.
  rewrite Hpre, bool_decide_eq_true_2, Hr in HP by done. cbn [negb] in HP.
  destruct (fill_PreRequest fr c (cloneRequest req)) as [q|]; [|done]. cbn [fmap option_fmap option_map] in HP.
  rewrite Hup, Hpass in HP.
  destruct (prepare_ok now c m r Hm Hlt E304)
    as (r1 & m1 & c1 & Ep & Hs1 & Hh1 & Hm1 & Hf & Hhd & Hch & Hsz & Hid & Hbk & Hpf & Hrv & Hfc1 & Hrt).
  rewrite Ep in HP. unfold chain_PostRequest, prefetch_PostRequest in HP. rewrite Hpf, Hp in HP. cbn [negb] in HP.
  rewrite (vary_free_post _ _ _ m1) in HP by (done || by rewrite <-Hv; apply vary_free_stable).
  unfold revalidate_PostRequest in HP. rewrite Hrv, Hr in HP. cbn [negb] in HP.
  assert (file_differs m1 r1 = false) as Hfd.
  { apply file_differs_size; rewrite ?Hh1, ?Hhd; [by rewrite Hsz, <-Hcr|done..]. }
  assert (filechanged_PostRequest c1 r1 = c1) as Efc.
  { unfold filechanged_PostRequest. by rewrite Hm1, Hfd, andb_false_r, Hfc1, Hfc. }
  rewrite Efc in HP. destruct (fill_PostRequest q r1) as [r2|]; [|done]. rewrite Hm1 in HP.
  injection HP as <- <- <-.
  destruct (finish_md_keeps c1 m1 r2 (rs_StatusCode r =? 200) sub) as (m' & E1 & E2 & E3 & E4 & E5 & E6).
  exists m'. rewrite E1, E2, E3, E4, E6. split_and!; congruence.
Qed.
(** An expired object that is no Vary index is never a hit. *)
Lemma expired_not_hit now trigger (s s' : S) req (m : Metadata B) :
  bk_lookup s (newObjectIDFromRequest req [] (IncludeQueryInCacheKey opt)) = (Some m, s') →
  hasExpired now m = true → IsVary m = false → md_BlockSize m ≠ 0 →
  ∃ c, preCacheProcessor now trigger s req = Some (c, false) ∧ c_hit c = false.
Proof.
  intros El He Hv Hb. unfold preCacheProcessor. rewrite El. unfold chain_Lookup, state_Lookup. cbn [c_md negb].
  unfold vary_Lookup. cbn [c_md set_hit]. rewrite Hv. cbn [negb]. unfold revalidate_Lookup. cbn [c_md set_hit].
  assert (unix now <? md_ExpiresAt m = false) as ->.
  { unfold hasExpired in He. apply Z.ltb_ge. apply Z.ltb_lt in He. unfold unix. apply Z.div_le_lower_bound; [done|]. lia. }
  rewrite andb_false_r, He. cbn [negb]. destruct (HasComplete m) as [full|] eqn:Ec.
  - destruct (full && _); eexists; (split; [reflexivity|done]).
  - exfalso. unfold HasComplete in Ec. rewrite Hv in Ec. repeat case_if; done.
Qed.
End miss.

(** ** Concrete requests *)

(** An origin that always answers the same, dates that do not parse, and an
    assembly that succeeds. *)
Definition mp_req : Request :=
  mkReq (bs "GET") (bs "http") (bs "h") (bs "/p") (bs "http://h/p") ∅ None None None.
Definition mp_md : Metadata N := vp_md {[bs "Etag" := [bs "v1"]]}.
Definition mp_caching (m : Metadata N) (rev : bool) : Caching N (gmap (list ascii) (Metadata N)) :=
  mkCaching vp_id (Some m) None {[id_hash vp_id := m]} CacheMiss true false false rev false false false.
Definition mp_resp (code : Z) (h : header) : Resp := mkResp code h 10 (Some Upstream) ∅.
Definition mp_len (n : str) : header := {[bs "Content-Length" := [n]; bs "Cache-Control" := [bs "max-age=60"]]}.
Definition mp_proxy (r : Resp) (c : Caching N (gmap (list ascii) (Metadata N))) (req : Request) (sub : bool) :=
  doProxy vp_opt (mkFillRange 100 4) (λ _, None) (λ _ _ _ _, None) (bs "disk") (bs "/cache") (λ _, Ok r)
    (7 * Second) c req req sub.

(** What is left of a result to compare. *)
Definition mp_body (x : option (option Resp * option proc_error * Caching N (gmap (list ascii) (Metadata N)))) : option rbody :=
  match x with Some (Some r, _, _) => rs_Body r | _ => None end.

Definition mp_ok (x : option (option Resp * option proc_error * Caching N (gmap (list ascii) (Metadata N)))) : bool :=
  match x with Some (Some _, _, _) => true | _ => false end.
Lemma mp_ok_inv x : mp_ok x = true → ∃ r e c', x = Some (Some r, e, c').
Proof. destruct x as [[[[r|] e] c']|]; eauto; done. Qed.

Lemma body_saved_iff_witness : ∃ r, mp_proxy (mp_resp 200 (mp_len (bs "10"))) (mp_caching mp_md false) mp_req false = Some r
  ∧ mp_body (Some r) = Some (Saving Upstream 4 0 10)
  ∧ ∃ q, fst <$> chain_PreRequest (mkFillRange 100 4) (mp_caching mp_md false) (cloneRequest mp_req) = Some q.
Proof.
  destruct (mp_ok_inv (mp_proxy (mp_resp 200 (mp_len (bs "10"))) (mp_caching mp_md false) mp_req false)) as (r & e & c' & E);
    [vm_compute; reflexivity|].
  destruct (body_saved_iff _ _ _ _ _ _ _ _ _ _ _ _ _ _ _ E) as (q & r' & Hq & Hr & _).
  - intros q r' [= <-]. reflexivity.
  - exists (Some r, e, c'). split; [exact E|]. split; [|by exists q].
    rewrite <-E. vm_compute. reflexivity.
Defined.

Lemma not_modified_served_witness : ∃ resp m' c',
  mp_proxy (mp_resp 304 {[bs "Cache-Control" := [bs "max-age=60"]]}) (mp_caching mp_md true) mp_req false = Some (Some resp, None, c')
  ∧ rs_Body resp = Some (Cached 0 9) ∧ md_ExpiresAt m' = 67
  ∧ c_bucket c' = <[id_hash vp_id := m']> {[id_hash vp_id := mp_md]}.
Proof.
  destruct (not_modified_served vp_opt (mkFillRange 100 4) (λ _, None) (λ _ _ _ _, None) (bs "disk") (bs "/cache")
    (λ _, Ok (mp_resp 304 {[bs "Cache-Control" := [bs "max-age=60"]]})) (7 * Second) (mp_caching mp_md true) mp_md
    mp_req mp_req (mp_resp 304 {[bs "Cache-Control" := [bs "max-age=60"]]}) (60 * Second))
    as (_ & _ & resp & m' & c' & HP & Hb & _ & _ & (_ & _ & _ & _ & _ & _ & He) & Hv).
  all: try (vm_compute; reflexivity).
  - apply (bool_decide_eq_true_1 _). vm_compute. reflexivity.
  - vm_compute. discriminate.
  - vm_compute. split; [reflexivity|discriminate].
  - exists resp, m', c'. exact (conj HP (conj Hb (conj He Hv))).
Defined.

Lemma changed_object_replaced_witness : ∃ resp c',
  mp_proxy (mp_resp 200 (mp_len (bs "12"))) (mp_caching mp_md true) mp_req false = Some (Some resp, None, c')
  ∧ c_bucket c' !! id_hash vp_id = None ∧ saved resp = true.
Proof.
  destruct (changed_object_replaced vp_opt (mkFillRange 100 4) (λ _, None) (λ _ _ _ _, None) (bs "disk") (bs "/cache")
    (λ _, Ok (mp_resp 200 (mp_len (bs "12")))) (7 * Second) (mp_caching mp_md true) mp_md
    mp_req mp_req (mp_resp 200 (mp_len (bs "12")))) as (resp & m' & c' & HP & _ & _ & _ & Hv & _ & Hs).
  all: try (vm_compute; reflexivity).
  - apply (bool_decide_eq_true_1 _). vm_compute. reflexivity.
  - discriminate.
  - exists resp, c'. split; [exact HP|]. split; [exact Hv|]. rewrite Hs. vm_compute. reflexivity.
Defined.

(** An object of 10 bytes without validators, all chunks present; the origin
    now has 12 bytes. *)
Definition mp_old : Metadata N := md_with_chunks (vp_md ∅) 7%N.

Lemma size_change_undetected_witness :
  ∃ x m', mp_proxy (mp_resp 200 (mp_len (bs "12"))) (mp_caching mp_old false) mp_req false = Some x
  ∧ c_md (snd x) = Some m' ∧ md_Size m' = 12 ∧ md_Chunks m' = 7%N ∧ c_fileChanged (snd x) = false.
Proof.
  destruct (mp_ok_inv (mp_proxy (mp_resp 200 (mp_len (bs "12"))) (mp_caching mp_old false) mp_req false)) as (r & e & c' & E);
    [vm_compute; reflexivity|].
  destruct (size_change_undetected vp_opt (mkFillRange 100 4) (λ _, None) (λ _ _ _ _, None) (bs "disk") (bs "/cache")
    (λ _, Ok (mp_resp 200 (mp_len (bs "12")))) (7 * Second) (mp_caching mp_old false) mp_old
    mp_req mp_req (mp_resp 200 (mp_len (bs "12"))) false r e c') as (m' & H1 & H2 & H3 & H4 & _).
  all: try exact E; try (vm_compute; reflexivity).
  - discriminate.
  - left. vm_compute. reflexivity.
  - left. vm_compute. reflexivity.
  - exists (Some r, e, c'), m'. split; [exact E|]. split; [exact H1|]. split; [exact H2|]. split; [exact H3|exact H4].
Defined.
