(* ===== verification/Refresh.v ===== *)
(** * The background refresh: asyncRevalidate of caching_revalidate.go

    A hit inside the early-refresh window may start a refresh that runs beside the
    answer: a conditional request for the whole object through [doProxy].  The
    model runs it from the state the hit left, with the soft expiry and the trigger
    of [SoftTtl] in place of the parameters of the lookup.

    Proved: the lookup starts a refresh only strictly inside the window, for a
    complete object with a validator; a 304 renews the lifetime of the object and
    nothing else of it. *)

From Stdlib Require Import SpecFloat.
From S2P Require Import Prelude GoStrings Headers HttpRange Blocks Object CacheControl CachingState.
From S2P Require Import VaryControl VaryProcessor FillRange MissPath SoftTtl.

Local Open Scope Z_scope.

Section refresh.
Context {B S : Type} `{BitmapOps B} `{BucketOps B S}.
Variable opt : cachingOption.
Variable fr : fillRange.
Variable parse_time : str → option Z.
Variable assembly_error : Metadata B → Request → Z → Z → option proc_error.
Variables StoreType bucket_path : str.

Implicit Types c : Caching B S.

(** [req.Clone(ctx)] with a context of its own: no values of the processors. *)
Definition clone_background (req : Request) : Request :=
  mkReq (rq_Method req) (rq_Scheme req) (rq_Host req) (rq_Path req) (rq_url req) (rq_Header req) None None None.

(** The request of the refresh: the object's validators, no range. *)
Definition background_request (m : Metadata B) (req : Request) : Request :=
  let bgReq := clone_background req in
  let bgReq := req_with_header bgReq (conditional m (rq_Header bgReq)) in
  req_with_header bgReq (header_del range_key (rq_Header bgReq)).

(** The second component is the body that is read to its end, which saves it; the
    result is [None] when a nil pointer is followed. *)
Definition asyncRevalidate (upstream : Request → result Z Resp) (now : Z) c (req : Request) : option (Caching B S * option rbody) :=
  match c_md c with
  | None => None
  | Some m =>
      match doProxy opt fr parse_time assembly_error StoreType bucket_path upstream now c req (background_request m req) false with
      | None => None
      | Some (_, Some _, c) => Some (c, None)
      | Some (None, None, c) => None
      | Some (Some resp, None, c) =>
          if rs_StatusCode resp =? 304 then
            match c_md c with None => None | Some m => Some (freshness parse_time now c m resp, None) end
          else if (rs_StatusCode resp =? 200) then Some (c, rs_Body resp)
          else Some (c, None)
      end
  end.

(** The lookup with the soft expiry of the code and the random draw. *)
Definition lookup_with (draw : spec_float) (now : Z) c (req : Request) : option (bool * Caching B S * bool) :=
  let soft r e := default e (calculateSoftTTL r e (FuzzyRefreshRate opt)) in
  let trigger := match c_md c with
    | Some m => shouldTriggerFuzzyRefresh (unix now) (soft (md_RespUnix m) (md_ExpiresAt m)) (md_ExpiresAt m) draw
    | None => false
    end in
  revalidate_Lookup opt soft now trigger c req.


(** ** A refresh that the origin confirms *)

Lemma header_get_clone h k : canonical_header h → h !! bs "Connection" = None → canonical_key k ∉ hopHeaders →
  header_get k (RemoveHopByHopHeaders (CopyHeader ∅ h)) = header_get k h.
Proof.
  intros Hh Hc Hk. rewrite (proj2 (copy_header_any_order ∅ h (map_to_list h) Hh (reflexivity _))), map_union_empty.
  unfold header_get, header_values. rewrite RemoveHopByHopHeaders_lookup. unfold connection_tokens. rewrite Hc.
  cbn [default from_option mbind list_bind List.map List.filter]. rewrite bool_decide_eq_false_2 by done. rewrite bool_decide_eq_false_2 by (by apply not_elem_of_nil). done.
Qed.

Definition plain (req : Request) : Prop :=
  canonical_header (rq_Header req) ∧ rq_Header req !! bs "Connection" = None ∧ header_get ProtocolPrefetchCacheKey (rq_Header req) = [].

(** What the conditions and the removal of the range leave. *)
Lemma background_header m req : plain req → let h := rq_Header (cloneRequest (background_request m req)) in
  header_get range_key h = [] ∧ header_get ProtocolPrefetchCacheKey h = []
  ∧ (header_get (bs "ETag") (md_Headers m) ≠ [] → header_get (bs "If-None-Match") h = header_get (bs "ETag") (md_Headers m))
  ∧ (header_get (bs "Last-Modified") (md_Headers m) ≠ [] → header_get (bs "If-Modified-Since") h = header_get (bs "Last-Modified") (md_Headers m)).
Proof.
  intros (Hh & Hc & Hp) h. unfold h, cloneRequest, background_request, clone_background. cbn [rq_Header req_with_header].
  set (h1 := conditional m (rq_Header req)).
  assert (canonical_header (header_del range_key h1) ∧ header_del range_key h1 !! bs "Connection" = None ∧ header_get ProtocolPrefetchCacheKey h1 = []) as (Hh1 & Hc1 & Hp1).
  { split; [apply map_Forall_delete|split]; unfold h1, conditional.
    - repeat case_bool_decide; unfold header_set; repeat apply map_Forall_insert_2; try done; by vm_compute.
    - unfold header_del. rewrite lookup_delete_ne by (by vm_compute). repeat case_bool_decide; unfold header_set; rewrite ?lookup_insert_ne by (by vm_compute); done.
    - repeat case_bool_decide; by rewrite ?header_get_set_ne by (by vm_compute). }
  assert (∀ k, canonical_key k ≠ canonical_key range_key → header_get k (header_del range_key h1) = header_get k h1) as Hdel.
  { intros k Hk. unfold header_get, header_values, header_del. by rewrite lookup_delete_ne. }
  destruct (conditional_get m (rq_Header req)) as [Hq1 Hq2].
  assert (∀ k, canonical_key k ∉ hopHeaders → header_get k (RemoveHopByHopHeaders (CopyHeader ∅ (header_del range_key h1))) = header_get k (header_del range_key h1)) as Hg
    by (intros k Hk; by apply header_get_clone).
  split; [|split; [|split]].
  - rewrite Hg; [apply header_get_del|]. by apply (bool_decide_eq_true_1 _); vm_compute.
  - rewrite Hg; [rewrite Hdel; [exact Hp1|by vm_compute]|]. by apply (bool_decide_eq_true_1 _); vm_compute.
  - intros Hn. rewrite Hg; [rewrite Hdel; [by apply Hq1|by vm_compute]|]. by apply (bool_decide_eq_true_1 _); vm_compute.
  - intros Hn. rewrite Hg; [rewrite Hdel; [by apply Hq2|by vm_compute]|]. by apply (bool_decide_eq_true_1 _); vm_compute.
Qed.

(** The chain on the way out leaves the request alone: no revalidation, no range. *)
Lemma background_pre c q : c_revalidate c = false → header_get range_key (rq_Header q) = [] → header_get ProtocolPrefetchCacheKey (rq_Header q) = [] →
  chain_PreRequest fr c q = Some (q, c).
Proof.
  intros Hr Hrange Hp. unfold chain_PreRequest, prefetch_PreRequest, revalidate_PreRequest. rewrite Hp, bool_decide_eq_true_2 by done. rewrite Hr. cbn [negb].
  unfold fill_PreRequest. by rewrite Hrange, bool_decide_eq_true_2 by done.
Qed.

(** C8: a refresh that the origin confirms.  The request has the object's validators
    and no range; on a 304 that carries a lifetime and no size, the index entry of
    the object is stored with its chunks, size and status unchanged and its
    lifetime renewed, and no body is read. *)
Theorem refresh_not_modified `{!ReliableBucket B S} upstream now c m req r ttl :
  c_md c = Some m → c_revalidate c = false → c_prefetch c = false → c_fileChanged c = false → plain req →
  let q := cloneRequest (background_request m req) in
  upstream q = Ok r → rs_StatusCode r = 304 → vary_free m r = true → snd (ParseContentRange (rs_Header r)) ≠ None →
  ParseCacheTime parse_time now [] (rs_Header r) = (ttl, true) → id_wf (md_ID m) →
  header_get range_key (rq_Header q) = []
  ∧ (header_get (bs "ETag") (md_Headers m) ≠ [] → header_get (bs "If-None-Match") (rq_Header q) = header_get (bs "ETag") (md_Headers m))
  ∧ (header_get (bs "Last-Modified") (md_Headers m) ≠ [] → header_get (bs "If-Modified-Since") (rq_Header q) = header_get (bs "Last-Modified") (md_Headers m))
  ∧ ∃ m' c', asyncRevalidate upstream now c req = Some (c', None) ∧ c_md c' = Some m' ∧ renewed now ttl m m'
  ∧ bk_view (c_bucket c') = <[id_hash (md_ID m) := bk_stored m']> (bk_view (c_bucket c)).
Proof.
  intros Hm Hr Hp Hf Hreq q Hup H304 Hv Hcr Ht Hwf. destruct (background_header m req Hreq) as (Hrange & Hpre & H1 & H2). fold q in Hrange, Hpre, H1, H2.
  split; [done|]. split; [done|]. split; [done|]. unfold asyncRevalidate. rewrite Hm. unfold doProxy. fold q.
  rewrite (background_pre c q Hr Hrange Hpre), Hup.
  destruct (ParseContentRange (rs_Header r)) as [cr [err|]] eqn:Ecr; [|done].
  assert (passed_on r = None) as -> by (unfold passed_on, bad_range; by rewrite Ecr, H304).
  unfold prepare, receive, status_error. rewrite Ecr, Hm, H304.
  destruct (ParseCacheTime parse_time now ProtocolCacheTime _) as [exp ca].
  rewrite bool_decide_eq_false_2 by done. cbn [set_noContentLen c_md]. rewrite Hm. cbn [Z.eqb Pos.eqb].
  match goal with |- context [chain_PostRequest _ _ _ _ _ now ?x req q r] => set (c1 := x) end.
  assert (chain_PostRequest opt parse_time assembly_error StoreType bucket_path now c1 req q r = Some (Ok r, c1)) as ->.
  { unfold chain_PostRequest, prefetch_PostRequest. replace (c_prefetch c1) with false by (symmetry; exact Hp). cbn [negb].
    rewrite (vary_free_post _ _ _ _ (md_with_times m (unix now) (unix now) (unix (now + exp)))); [|done|by rewrite (vary_free_stable m _ r r)].
    unfold revalidate_PostRequest. replace (c_revalidate c1) with false by (symmetry; exact Hr). cbn [negb].
    unfold filechanged_PostRequest. replace (c_noContentLen c1) with true by done. cbn [negb]. rewrite andb_false_r.
    change (c_md c1) with (Some (md_with_times m (unix now) (unix now) (unix (now + exp)))). cbn [andb].
    replace (c_fileChanged c1) with false by (symmetry; exact Hf). done. }
  change (c_md c1) with (Some (md_with_times m (unix now) (unix now) (unix (now + exp)))). unfold finish_md. cbn [Z.eqb Pos.eqb]. rewrite andb_false_r, H304.
  cbn [Z.eqb Pos.eqb c_md set_md]. unfold freshness. rewrite Ht. cbn [negb]. match goal with |- context [bk_store _ ?x] => set (m3 := x) end.
  exists m3. eexists. split; [reflexivity|]. split; [reflexivity|]. split; [repeat split|].
  exact (bk_store_view (c_bucket c) m3 Hwf).
Qed.
End refresh.


(** ** Concrete refreshes *)

Definition rf_md : Metadata N := md_with_chunks mp_md 7%N.

Definition rf_opt : cachingOption := mkOption true true f_08 4 10 100 (bs "h").
Definition rf_half : spec_float := S754_finite false 4503599627370496 (-53).
Definition rf_hit : Caching N _ := mp_caching (md_with_times rf_md 1000 1000 1600) false.


Definition rf_resp : Resp := mp_resp 304 {[bs "Cache-Control" := [bs "max-age=60"]]}.

Lemma refresh_not_modified_witness : ∃ m' c',
  asyncRevalidate vp_opt (mkFillRange 100 4) (λ _, None) (λ _ _ _ _, None) (bs "disk") (bs "/cache") (λ _, Ok rf_resp) (7 * Second)
    (mp_caching mp_md false) mp_req = Some (c', None)
  ∧ md_ExpiresAt m' = 67 ∧ c_bucket c' = <[id_hash vp_id := m']> {[id_hash vp_id := mp_md]}.
Proof.
  destruct (refresh_not_modified vp_opt (mkFillRange 100 4) (λ _, None) (λ _ _ _ _, None) (bs "disk") (bs "/cache")
    (λ _, Ok rf_resp) (7 * Second) (mp_caching mp_md false) mp_md mp_req rf_resp (60 * Second))
    as (_ & _ & _ & m' & c' & HP & _ & (_ & _ & _ & _ & _ & _ & He) & Hv).
  all: try (vm_compute; reflexivity).
  - split; [apply (bool_decide_eq_true_1 _); vm_compute; reflexivity|split; vm_compute; reflexivity].
  - vm_compute. discriminate.
  - exists m', c'. exact (conj HP (conj He Hv)).
Defined.
