(* ===== verification/Upstream.v ===== *)
(** * Fetching missing chunks: getUpstreamReader of caching.go

    A hit that misses chunks fetches them with a sub-request for the byte range:
    through the chunk flight when forwarding is collapsed, through the asynchronous
    reader, or at once.  The sub-request is the client's request with another range
    and goes through [doProxy] like any other.

    Proved: the range that is sent covers the bytes that are missing and is made of
    them and whole blocks; an answer that is not 206 is an error with its status and
    headers; the way that is taken never changes the bytes that are asked for. *)

From S2P Require Import Prelude GoStrings Headers HttpRange Blocks Object CacheControl CachingState.
From S2P Require Import VaryControl VaryProcessor FillRange MissPath SoftTtl Refresh.

Local Open Scope Z_scope.

Section upstream.
Context {B S : Type} `{BitmapOps B} `{BucketOps B S}.
Variable opt : cachingOption.
Variable fr : fillRange.
Variable parse_time : str → option Z.
Variable assembly_error : Metadata B → Request → Z → Z → option proc_error.
Variables StoreType bucket_path : str.

Implicit Types c : Caching B S.

(** The sub-request for the bytes [from-to]. *)
Definition sub_request (req : Request) (from to : Z) : Request :=
  let newRange := bs "bytes=" ++ format_uint from ++ "-"%char :: format_uint to in
  let subReq := clone_background req in
  req_with_header subReq (header_del ProtocolCacheStatusKey (header_set range_key newRange (rq_Header subReq))).

(** The response and the error are both returned; [None] is a panic. *)
Definition doSubRequest (upstream : Request → result Z Resp) (now : Z) c (req : Request) (from to : Z)
    : option (option Resp * option proc_error * Caching B S) :=
  match doProxy opt fr parse_time assembly_error StoreType bucket_path upstream now c req (sub_request req from to) true with
  | None => None
  | Some (_, Some e, c) => Some (None, Some e, c)
  | Some (None, None, c) => None
  | Some (Some resp, None, c) =>
      if negb (rs_StatusCode resp =? 206) then Some (Some resp, Some (BizError (rs_StatusCode resp) (rs_Header resp)), c)
      else Some (Some resp, None, c)
  end.

(** Where the bytes come from: the chunk flight of the object, the asynchronous
    reader with [doSubRequest] as its callback, or the body of a response. *)
Inductive source :=
| FromFlight (key : str) (from to : Z)
| FromPipe (from to : Z)
| FromBody (b : option rbody).

(** [collapsed]: [c.opt.CollapsedRequest], with the chunk flight of the middleware
    and an identifier, which every request has.  No source is a nil reader. *)
Definition getUpstreamReader (upstream : Request → result Z Resp) (now : Z) (collapsed : bool) c (req : Request) (from to : Z) (async : bool)
    : option (option source * option proc_error * Caching B S) :=
  if collapsed then Some (Some (FromFlight (HashStr (c_id c)) from to), None, c)
  else if async then Some (Some (FromPipe from to), None, c)
  else match doSubRequest upstream now c req from to with
  | None => None
  | Some (Some resp, e, c) => Some (Some (FromBody (rs_Body resp)), e, c)
  | Some (None, e, c) => Some (None, e, c)
  end.

(** ** The request that is sent *)

Lemma header_get_del_ne k k' h : canonical_key k ≠ canonical_key k' → header_get k (header_del k' h) = header_get k h.
Proof. intros Hk. unfold header_get, header_values, header_del. by rewrite lookup_delete_ne. Qed.

Lemma sub_range_string from to : 0 <= from <= to → bs "bytes=" ++ format_uint from ++ "-"%char :: format_uint to = Range_String (mkRange from to).
Proof.
  intros Hb. unfold Range_String, format_int. cbn [r_Start r_End]. rewrite (proj2 (Z.ltb_ge from 0)), (proj2 (Z.ltb_ge to 0)) by lia.
  destruct ((to <=? 0) && (from >? 0)) eqn:E; [lia|done].
Qed.

Lemma sub_header req from to : plain req → 0 <= from <= to → let h := rq_Header (cloneRequest (sub_request req from to)) in
  header_get range_key h = Range_String (mkRange from to) ∧ header_get ProtocolPrefetchCacheKey h = [] ∧ header_get ProtocolCacheStatusKey h = [].
Proof.
  intros (Hh & Hc & Hp) Hb h. unfold h, cloneRequest, sub_request, clone_background. cbn [rq_Header req_with_header]. rewrite (sub_range_string from to Hb).
  set (h1 := header_set range_key _ _). assert (canonical_header (header_del ProtocolCacheStatusKey h1) ∧ header_del ProtocolCacheStatusKey h1 !! bs "Connection" = None) as [Hh1 Hc1].
  { split.
    - apply map_Forall_delete. unfold h1, header_set. apply map_Forall_insert_2; [by vm_compute|done].
    - unfold header_del. rewrite lookup_delete_ne by (by vm_compute). unfold h1, header_set. by rewrite lookup_insert_ne by (by vm_compute). }
  assert (∀ k, canonical_key k ∉ hopHeaders → header_get k (RemoveHopByHopHeaders (CopyHeader ∅ (header_del ProtocolCacheStatusKey h1))) = header_get k (header_del ProtocolCacheStatusKey h1)) as Hg
    by (intros k Hk; by apply header_get_clone).
  split; [|split]; (rewrite Hg; [|apply (bool_decide_eq_true_1 _); vm_compute; reflexivity]).
  - rewrite header_get_del_ne by (by vm_compute). apply header_get_set.
  - rewrite header_get_del_ne by (by vm_compute). unfold h1. by rewrite header_get_set_ne by (by vm_compute).
  - apply header_get_del.
Qed.

(** Widening changes no other header. *)
Lemma fill_PreRequest_header c req q k : fill_PreRequest fr c req = Some q → canonical_key k ≠ canonical_key range_key →
  header_get k (rq_Header q) = header_get k (rq_Header req).
Proof.
  unfold fill_PreRequest, fill. intros Hq Hk. repeat case_match; simplify_eq; try done; cbn [rq_Header req_with_fill req_with_header]; by apply header_get_set_ne.
Qed.

(** An answer of the client or a status that [doProxy] passes on. *)
Lemma sub_request_passed upstream now c req from to q c1 : chain_PreRequest fr c (cloneRequest (sub_request req from to)) = Some (q, c1) →
  (∀ e, upstream q = Err e → doSubRequest upstream now c req from to = Some (None, Some (ProxyError e), c1))
  ∧ (∀ r, upstream q = Ok r → rs_StatusCode r = 301 ∨ rs_StatusCode r = 302 →
       doSubRequest upstream now c req from to = Some (Some r, Some (BizError (rs_StatusCode r) (rs_Header r)), c1))
  ∧ (∀ r, upstream q = Ok r → rs_StatusCode r = 416 → doSubRequest upstream now c req from to = Some (None, Some (BizError 416 (rs_Header r)), c1)).
Proof.
  intros Hq. unfold doSubRequest, doProxy. rewrite Hq. split; [|split].
  - intros e He. by rewrite He.
  - intros r Hr Hs. rewrite Hr. unfold passed_on. destruct Hs as [E|E]; rewrite E; cbn [Z.eqb Pos.eqb orb negb]; by rewrite E.
  - intros r Hr Hs. rewrite Hr. unfold passed_on. by rewrite Hs.
Qed.

(** A success of [doSubRequest] is a 206. *)
Lemma sub_request_partial upstream now c req from to resp c' : doSubRequest upstream now c req from to = Some (Some resp, None, c') → rs_StatusCode resp = 206.
Proof.
  unfold doSubRequest. destruct (doProxy _ _ _ _ _ _ _ _ _ _ _ _) as [[[[r|] [e|]] c1]|]; [done| |done|done|done].
  destruct (rs_StatusCode r =? 206) eqn:E; [|done]. intros [= <- <-]. by apply Z.eqb_eq.
Qed.

(** C7: what is asked for.  The sub-request for the bytes [from-to] of a known object
    reaches the client with a range that covers them, each end being one of them or
    a block boundary, and without the status header of this cache.  An error of the
    client is passed on, a redirect or any other answer that is not 206 is an error
    with its status and headers, and no response that is returned without an error
    has another status than 206.  With collapsed forwarding or an asynchronous read
    nothing is sent here, and the range handed on is [from-to]. *)
Theorem upstream_range c m req from to : c_md c = Some m → c_revalidate c = false → plain req → isHead req = false →
  0 < chunkSize fr → fillRangePercent fr ≠ 0 → 0 <= from <= to → to < md_Size m → no_overflow (chunkSize fr) to (md_Size m) →
  (∃ q x, chain_PreRequest fr c (cloneRequest (sub_request req from to)) = Some (q, c) ∧ covers (chunkSize fr) x from to
    ∧ header_get range_key (rq_Header q) = Range_String (mkRange (newStart x) (newEnd x)) ∧ header_get ProtocolCacheStatusKey (rq_Header q) = []
    ∧ ∀ upstream now,
       (∀ e, upstream q = Err e → getUpstreamReader upstream now false c req from to false = Some (None, Some (ProxyError e), c))
     ∧ (∀ r, upstream q = Ok r → rs_StatusCode r = 301 ∨ rs_StatusCode r = 302 →
          getUpstreamReader upstream now false c req from to false = Some (Some (FromBody (rs_Body r)), Some (BizError (rs_StatusCode r) (rs_Header r)), c))
     ∧ (∀ resp c', doSubRequest upstream now c req from to = Some (Some resp, None, c') → rs_StatusCode resp = 206
          ∧ getUpstreamReader upstream now false c req from to false = Some (Some (FromBody (rs_Body resp)), None, c')))
  ∧ (∀ upstream now async, getUpstreamReader upstream now true c req from to async = Some (Some (FromFlight (HashStr (c_id c)) from to), None, c))
  ∧ (∀ upstream now, getUpstreamReader upstream now false c req from to true = Some (Some (FromPipe from to), None, c)).
Proof.
  intros Hm Hr Hreq Hh Hcs Hfp Hb Hsz Hov. split; [|done]. destruct (sub_header req from to Hreq Hb) as (H1 & H2 & H3).
  destruct (fill_PreRequest_covers fr c (cloneRequest (sub_request req from to)) from to (md_Size m) Hcs Hfp) as (q & x & Hq & _ & Hx & _ & Hrange); [done|done|done|done|done|by rewrite Hm|].
  assert (chain_PreRequest fr c (cloneRequest (sub_request req from to)) = Some (q, c)) as Hpre.
  { unfold chain_PreRequest, prefetch_PreRequest, revalidate_PreRequest. rewrite H2, bool_decide_eq_true_2 by done. rewrite Hr. cbn [negb]. by rewrite Hq. }
  exists q, x. split; [done|]. split; [done|]. split; [done|]. split.
  { rewrite (fill_PreRequest_header c _ q _ Hq) by (by vm_compute). done. }
  intros upstream now. destruct (sub_request_passed upstream now c req from to q c Hpre) as (P1 & P2 & _). unfold getUpstreamReader. split; [|split].
  - intros e He. by rewrite (P1 e He).
  - intros r Hu Hs. by rewrite (P2 r Hu Hs).
  - intros resp c' Hd. split; [by eapply sub_request_partial|]. by rewrite Hd.
Qed.
End upstream.

Lemma upstream_range_witness : ∃ q x,
  chain_PreRequest (mkFillRange 100 4) (mp_caching mp_md false) (cloneRequest (sub_request mp_req 5 6)) = Some (q, mp_caching mp_md false)
  ∧ covers 4 x 5 6 ∧ header_get range_key (rq_Header q) = Range_String (mkRange (newStart x) (newEnd x)).
Proof.
  destruct (upstream_range vp_opt (mkFillRange 100 4) (λ _, None) (λ _ _ _ _, None) (bs "disk") (bs "/cache") (mp_caching mp_md false) mp_md mp_req 5 6)
    as ((q & x & Hq & Hx & Hr & _) & _).
  all: try (vm_compute; reflexivity).
  - split; [apply (bool_decide_eq_true_1 _); vm_compute; reflexivity|split; vm_compute; reflexivity].
  - discriminate.
  - lia.
  - split; vm_compute; discriminate.
  - exists q, x. exact (conj Hq (conj Hx Hr)).
Defined.
