(* ===== verification/SharedKv.v ===== *)
(** * The shared key-value store: storage/sharedkv

    The store in front of the pebble database: values, 32-bit counters in
    big-endian form, prefix iteration and prefix deletion, and the store that
    keeps nothing.  The database itself is an interface: the operations with
    their errors, and the laws of an ordered map that a database without errors
    satisfies; a plain map is an instance.

    Proved: iteration over a prefix visits exactly the keys that have it, in
    order, whatever bytes it ends with; [DropPrefix] removes exactly those keys,
    unless the prefix ends with the byte 0xFF, when it removes nothing; counters
    add modulo the width and never go below zero. *)

From S2P Require Import Prelude GoStrings GoSort.

(** ** The database *)

Inductive db_error := DbNotFound | DbOther (code : Z).

(** The keys of an iterator with a lower bound and an optional upper bound. *)
Definition in_bounds (lo : str) (hi : option str) (k : str) : bool :=
  str_le lo k && match hi with Some h => negb (str_le h k) | None => true end.

(** Pebble; a value of an iterator that cannot be read is [None].  An iterator
    works on a snapshot, so it is the list it will visit. *)
Class PebbleOps (D : Type) := {
  pb_get : D → str → result db_error str;
  pb_set : D → str → str → result db_error D;
  pb_delete : D → str → result db_error D;
  pb_delete_range : D → str → str → result db_error D;
  pb_iter : D → str → option str → result db_error (list (str * option str)) }.

(** What a database that does not fail does; the end of a range is exclusive. *)
Class PebbleLaws (D : Type) `{PebbleOps D} := {
  pb_view : D → gmap (list ascii) (list ascii);
  pb_get_view : ∀ d k, pb_get d k = match pb_view d !! k with Some v => Ok v | None => Err DbNotFound end;
  pb_set_view : ∀ d k v, ∃ d', pb_set d k v = Ok d' ∧ pb_view d' = <[k := v]> (pb_view d);
  pb_delete_view : ∀ d k, ∃ d', pb_delete d k = Ok d' ∧ pb_view d' = delete k (pb_view d);
  pb_delete_range_view : ∀ d lo hi, ∃ d', pb_delete_range d lo hi = Ok d'
    ∧ ∀ k, pb_view d' !! k = if in_bounds lo (Some hi) k then None else pb_view d !! k;
  pb_iter_view : ∀ d lo hi, ∃ l, pb_iter d lo hi = Ok l
    ∧ StronglySorted StrLe (l.*1) ∧ NoDup (l.*1)
    ∧ ∀ k v, (k, v) ∈ l ↔ in_bounds lo hi k = true ∧ ∃ x, v = Some x ∧ pb_view d !! k = Some x }.

(** ** Big-endian numbers *)

(** [binary.BigEndian.Uint32]; [None] is the panic of a short slice. *)
Definition be32 (v : str) : option Z :=
  if (length v <? 4)%nat then None else Some (le_val (rev (take 4 v))).

Definition put_be32 (n : Z) : str := rev (le_bytes 4 n).

(** ** nonekv.go *)

(** From the last byte on: the first byte that does not wrap is increased and
    the rest is cut off. *)
Fixpoint upper_rev (r : str) : option str :=
  match r with
  | [] => None
  | b :: r' =>
      let b' := byte_of ((byte_val b + 1) mod 256) in
      if byte_val b' =? 0 then upper_rev r' else Some (b' :: r')
  end.

Definition keyUpperBound (b : str) : option str := rev (A:=ascii) <$> upper_rev (rev b).

Section kv.
Context {D : Type} `{PebbleOps D}.
Implicit Types d : D.

Definition kv_Get d (key : str) : result db_error str := pb_get d key.
Definition kv_Set d (key val : str) : result db_error D := pb_set d key val.
Definition kv_Delete d (key : str) : result db_error D := pb_delete d key.

(** The counter under a key: any error counts as zero. *)
Definition counter_of d (key : str) : option Z :=
  match pb_get d key with Err _ => Some 0 | Ok val => be32 val end.

Definition put_counter d (key : str) (n : Z) : result db_error (Z * D) :=
  match pb_set d key (put_be32 n) with Err e => Err e | Ok d' => Ok (n, d') end.

Definition kv_Incr d (key : str) (delta : Z) : option (result db_error (Z * D)) :=
  (λ n, put_counter d key (u32 (n + delta))) <$> counter_of d key.

Definition kv_Decr d (key : str) (delta : Z) : option (result db_error (Z * D)) :=
  (λ n, put_counter d key (if n >? delta then n - delta else 0)) <$> counter_of d key.

Definition kv_GetCounter d (key : str) : option (result db_error Z) :=
  match pb_get d key with Err e => Some (Err e) | Ok val => Ok <$> be32 val end.

(** The last byte of the prefix is increased, as a byte; an empty prefix is an
    index out of range. *)
Definition drop_end (prefix : str) : option str :=
  match rev prefix with
  | [] => None
  | b :: r => Some (rev (byte_of ((byte_val b + 1) mod 256) :: r))
  end.

Definition kv_DropPrefix d (prefix : str) : option (result db_error D) :=
  (λ hi, pb_delete_range d prefix hi) <$> drop_end prefix.

(** The callback changes a state; its error does not end the loop, and a value
    that cannot be read is skipped. *)
Definition run_iter {A} (f : A → str → str → A) (l : list (str * option str)) (s : A) : A :=
  fold_left (λ s kv, match kv with (k, Some v) => f s k v | (_, None) => s end) l s.

Definition kv_Iterate {A} d (f : A → str → str → A) (s : A) : result db_error A :=
  match pb_iter d [] None with Err e => Err e | Ok l => Ok (run_iter f l s) end.

Definition kv_IteratePrefix {A} d (prefix : str) (f : A → str → str → A) (s : A) : result db_error A :=
  match pb_iter d prefix (keyUpperBound prefix) with Err e => Err e | Ok l => Ok (run_iter f l s) end.
End kv.

(** ** empty.go *)

(** The store that keeps nothing: reads find no key, writes succeed, and an
    increment reports a missing key. *)
Definition empty_Get (key : str) : result db_error str := Err DbNotFound.
Definition empty_GetCounter (key : str) : result db_error Z := Err DbNotFound.
Definition empty_Incr (key : str) (delta : Z) : result db_error Z := Err DbNotFound.
Definition empty_Decr (key : str) (delta : Z) : result db_error Z := Ok 0.

(** ** A map as the database *)

Definition map_iter (d : gmap (list ascii) (list ascii)) (lo : str) (hi : option str) : list (str * option str) :=
  (λ k, (k, d !! k)) <$> filter (λ k, in_bounds lo hi k = true) (sort_strings (elements (dom d))).

#[export] Instance map_pebble : PebbleOps (gmap (list ascii) (list ascii)) := {
  pb_get d k := match d !! k with Some v => Ok v | None => Err DbNotFound end;
  pb_set d k v := Ok (<[k := v]> d);
  pb_delete d k := Ok (delete k d);
  pb_delete_range d lo hi := Ok (filter (λ kv, in_bounds lo (Some hi) kv.1 = false) d);
  pb_iter d lo hi := Ok (map_iter d lo hi) }.

Lemma map_iter_keys d lo hi : (map_iter d lo hi).*1 = filter (λ k, in_bounds lo hi k = true) (sort_strings (elements (dom d))).
Proof. unfold map_iter. rewrite <-list_fmap_compose. apply list_fmap_id. Qed.

Lemma map_iter_elem d lo hi k v :
  (k, v) ∈ map_iter d lo hi ↔ in_bounds lo hi k = true ∧ ∃ x, v = Some x ∧ d !! k = Some x.
Proof.
  unfold map_iter. rewrite list_elem_of_fmap. split.
  - intros (k' & [= -> ->] & Hk). apply list_elem_of_filter in Hk as [Hb Hk]. split; [done|].
    rewrite sort_strings_perm, elem_of_elements, elem_of_dom in Hk. destruct Hk as [x Hx]. by exists x.
  - intros (Hb & x & -> & Hx). exists k. split; [by rewrite Hx|]. apply list_elem_of_filter. split; [done|].
    rewrite sort_strings_perm, elem_of_elements, elem_of_dom. by exists x.
Qed.

#[export] Instance map_pebble_laws : PebbleLaws (gmap (list ascii) (list ascii)).
Proof.
  refine {| pb_view := λ d, d |}.
  - done.
  - intros d k v. by exists (<[k := v]> d).
  - intros d k. by exists (delete k d).
  - intros d lo hi. eexists. split; [reflexivity|]. intros k. rewrite map_lookup_filter.
    destruct (d !! k) as [x|] eqn:E; simpl; [|by case_if]. case_if; case_guard; try done; congruence.
  - intros d lo hi. eexists. split; [reflexivity|]. rewrite map_iter_keys. split; [|split].
    + apply strongly_sorted_filter, sort_strings_sorted.
    + apply NoDup_filter. rewrite sort_strings_perm. apply NoDup_elements.
    + intros. apply map_iter_elem.
Defined.

(** ** Prefix bounds *)

(** The successor of a byte wraps at 255 only. *)
Lemma byte_succ (b : ascii) :
  byte_val (byte_of ((byte_val b + 1) mod 256)) = if byte_val b =? 255 then 0 else byte_val b + 1.
Proof.
  pose proof (byte_val_range b). rewrite byte_val_of by (apply Z.mod_pos_bound; lia).
  case_if; [subst; by replace (byte_val b) with 255|]. apply Z.mod_small. lia.
Qed.

Lemma upper_rev_snoc r b : upper_rev (r ++ [b])
  = match upper_rev r with
    | Some u => Some (u ++ [b])
    | None => if byte_val b =? 255 then None else Some [byte_of ((byte_val b + 1) mod 256)]
    end.
Proof.
  induction r as [|a r IH]; cbn [upper_rev app]; rewrite byte_succ.
  - pose proof (byte_val_range b). destruct (byte_val b =? 255) eqn:E; [done|].
    replace (byte_val b + 1 =? 0) with false by lia. done.
  - destruct (_ =? 0); [exact IH|done].
Qed.

Lemma keyUpperBound_cons b p : keyUpperBound (b :: p)
  = match keyUpperBound p with
    | Some u => Some (b :: u)
    | None => if byte_val b =? 255 then None else Some [byte_of ((byte_val b + 1) mod 256)]
    end.
Proof.
  unfold keyUpperBound. cbn [rev]. rewrite upper_rev_snoc. destruct (upper_rev (rev p)) as [u|]; simpl.
  - by rewrite rev_app_distr.
  - by destruct (_ =? 255).
Qed.

(** The interval of an iteration is the set of the keys with the prefix. *)
Lemma prefix_bounds p k : in_bounds p (keyUpperBound p) k = has_prefix p k.
Proof.
  revert k. induction p as [|b p IH]; intros k; [done|]. rewrite keyUpperBound_cons.
  destruct k as [|c k]; [done|]. unfold in_bounds. cbn [str_le has_prefix].
  pose proof (byte_val_range b). pose proof (byte_val_range c). specialize (IH k). unfold in_bounds in IH.
  destruct (Z.lt_trichotomy (byte_val b) (byte_val c)) as [Hlt|[Heq|Hgt]].
  - replace (byte_val b <? byte_val c) with true by lia. rewrite bool_decide_eq_false_2 by (intros ->; lia).
    destruct (keyUpperBound p) as [u|].
    + cbn [str_le]. by replace (byte_val b <? byte_val c) with true by lia.
    + replace (byte_val b =? 255) with false by lia. cbn [str_le]. rewrite byte_succ.
      replace (byte_val b =? 255) with false by lia.
      destruct (Z.ltb_spec (byte_val b + 1) (byte_val c)); [done|]. by replace (byte_val c <? byte_val b + 1) with false by lia.
  - apply byte_val_inj in Heq as ->. rewrite !Z.ltb_irrefl, bool_decide_eq_true_2 by done. rewrite <-IH.
    cbn [andb]. f_equal. destruct (keyUpperBound p) as [u|].
    + cbn [str_le]. by rewrite !Z.ltb_irrefl.
    + destruct (byte_val c =? 255) eqn:E; [done|]. cbn [str_le]. rewrite byte_succ, E.
      replace (byte_val c + 1 <? byte_val c) with false by lia. by replace (byte_val c <? byte_val c + 1) with true by lia.
  - replace (byte_val b <? byte_val c) with false by lia. replace (byte_val c <? byte_val b) with true by lia.
    by rewrite bool_decide_eq_false_2 by (intros ->; lia).
Qed.

Lemma drop_end_snoc q b : drop_end (q ++ [b]) = Some (q ++ [byte_of ((byte_val b + 1) mod 256)]).
Proof. unfold drop_end. rewrite rev_app_distr. simpl. by rewrite rev_involutive. Qed.

(** Below a prefix that ends with 0xFF nothing is left after the wrap. *)
Lemma wrapped_bounds q b k : byte_val b = 255 → in_bounds (q ++ [b]) (Some (q ++ [byte_of ((byte_val b + 1) mod 256)])) k = false.
Proof.
  intros Hb. assert (byte_val (byte_of ((byte_val b + 1) mod 256)) = 0) as H0 by (rewrite byte_succ, Hb; done).
  set (z := byte_of _) in *. clearbody z. revert k. induction q as [|a q IH]; intros [|c k]; unfold in_bounds; cbn [app str_le]; try done.
  - pose proof (byte_val_range c). rewrite Hb, H0. replace (255 <? byte_val c) with false by lia.
    destruct (Z.ltb_spec (byte_val c) 255); [done|]. by replace (0 <? byte_val c) with true by lia.
  - specialize (IH k). unfold in_bounds in IH. destruct (byte_val a <? byte_val c); [done|].
    by destruct (byte_val c <? byte_val a).
Qed.

Lemma keyUpperBound_snoc q b : byte_val b ≠ 255 → keyUpperBound (q ++ [b]) = drop_end (q ++ [b]).
Proof.
  intros Hb. rewrite drop_end_snoc. unfold keyUpperBound. rewrite rev_app_distr. cbn [rev app upper_rev].
  rewrite byte_succ. pose proof (byte_val_range b). replace (byte_val b =? 255) with false by lia.
  replace (byte_val b + 1 =? 0) with false by lia. simpl. by rewrite rev_involutive.
Qed.

(** ** Counters *)

Lemma be32_put n : in_u32 n → be32 (put_be32 n) = Some n.
Proof.
  unfold_ints. intros Hn. unfold put_be32, be32. rewrite length_rev, le_bytes_length. cbn [Nat.ltb Nat.leb].
  rewrite take_ge by (by rewrite length_rev, le_bytes_length). rewrite rev_involutive, le_val_bytes by lia. done.
Qed.

(** ** Theorems *)

Section kv_theorems.
Context {D : Type} `{PebbleLaws D}.
Implicit Types d : D.

Lemma run_iter_values {A} (f : A → str → str → A) (l : list (str * str)) (s : A) :
  run_iter f ((λ kv, (kv.1, Some kv.2)) <$> l) s = fold_left (λ s kv, f s kv.1 kv.2) l s.
Proof. revert s. induction l as [|[k v] l IH]; intros s; simpl; [done|apply IH]. Qed.

(** What the iterator of a prefix visits. *)
Lemma prefix_pairs d p : ∃ l : list (str * str),
  pb_iter d p (keyUpperBound p) = Ok ((λ kv, (kv.1, Some kv.2)) <$> l)
  ∧ StronglySorted StrLe (l.*1) ∧ NoDup (l.*1)
  ∧ ∀ k v, (k, v) ∈ l ↔ has_prefix p k = true ∧ pb_view d !! k = Some v.
Proof.
  destruct (pb_iter_view d p (keyUpperBound p)) as (l & Hl & Hs & Hnd & He).
  assert (∃ l', l = (λ kv : str * str, (kv.1, Some kv.2)) <$> l') as (l' & ->).
  { clear Hl Hs Hnd. assert (∀ k v, (k, v) ∈ l → is_Some v) as Hv by (intros k v Hin; apply He in Hin as (_ & x & -> & _); eauto).
    clear He. induction l as [|[k [v|]] l IH]; [by exists []|..].
    - destruct IH as (l' & ->); [intros k' v' Hin; apply (Hv k'); by right|]. by exists ((k, v) :: l').
    - destruct (Hv k None) as [x Hx]; [by left|done]. }
  exists l'. rewrite <-list_fmap_compose in Hs, Hnd. split; [done|]. split; [done|]. split; [done|]. intros k v. split.
  - intros Hin. destruct (proj1 (He k (Some v))) as (Hb & x & [= <-] & Hx).
    { apply list_elem_of_fmap. by exists (k, v). }
    by rewrite <-prefix_bounds.
  - intros [Hp Hx]. assert ((k, Some v) ∈ (λ kv : str * str, (kv.1, Some kv.2)) <$> l') as Hin by (apply He; rewrite prefix_bounds; eauto).
    apply list_elem_of_fmap in Hin as ([k' v'] & [= -> ->] & Hin). done.
Qed.

(** The iteration as a fold over these pairs. *)
Lemma prefix_fold d p : ∃ l : list (str * str),
  (∀ A (f : A → str → str → A) s, kv_IteratePrefix d p f s = Ok (fold_left (λ s kv, f s kv.1 kv.2) l s))
  ∧ StronglySorted StrLe (l.*1) ∧ NoDup (l.*1)
  ∧ ∀ k v, (k, v) ∈ l ↔ has_prefix p k = true ∧ pb_view d !! k = Some v.
Proof.
  destruct (prefix_pairs d p) as (l & Hl & Hrest). exists l. split; [|done].
  intros A f s. unfold kv_IteratePrefix. by rewrite Hl, run_iter_values.
Qed.

(** iteration over a prefix hands the callback exactly the pairs whose key
    has the prefix, each once and in the order of the keys, whatever bytes the
    prefix consists of (the empty prefix and a tail of 0xFF bytes included). *)
Theorem prefix_iteration_exact d p : ∃ l : list (str * str),
  (∀ A (f : A → str → str → A) s, kv_IteratePrefix d p f s = Ok (fold_left (λ s kv, f s kv.1 kv.2) l s))
  ∧ StronglySorted StrLe (l.*1) ∧ NoDup (l.*1)
  ∧ ∀ k v, (k, v) ∈ l ↔ has_prefix p k = true ∧ pb_view d !! k = Some v.
Proof. apply prefix_fold. Qed.

(** deleting a prefix.  A prefix whose last byte is not 0xFF is removed with
    exactly the keys that have it; after a last byte 0xFF the end of the range
    wraps below its start and nothing at all is removed. *)
Theorem drop_prefix_exact d q b : ∃ d', kv_DropPrefix d (q ++ [b]) = Some (Ok d')
  ∧ ∀ k, pb_view d' !! k = if negb (byte_val b =? 255) && has_prefix (q ++ [b]) k then None else pb_view d !! k.
Proof.
  unfold kv_DropPrefix. destruct (Z.eqb_spec (byte_val b) 255) as [Hb|Hb].
  - rewrite drop_end_snoc. destruct (pb_delete_range_view d (q ++ [b]) (q ++ [byte_of ((byte_val b + 1) mod 256)])) as (d' & E & Hv).
    exists d'. split; [simpl; by rewrite E|]. intros k. rewrite Hv. by rewrite wrapped_bounds.
  - pose proof (prefix_bounds (q ++ [b])) as Hp. rewrite keyUpperBound_snoc in Hp by done. rewrite drop_end_snoc in *.
    destruct (pb_delete_range_view d (q ++ [b]) (q ++ [byte_of ((byte_val b + 1) mod 256)])) as (d' & E & Hv).
    exists d'. split; [simpl; by rewrite E|]. intros k. rewrite Hv. by rewrite Hp.
Qed.

Lemma put_counter_ok d k n : in_u32 n → ∃ d', put_counter d k n = Ok (n, d')
  ∧ kv_GetCounter d' k = Some (Ok n) ∧ pb_view d' = <[k := put_be32 n]> (pb_view d).
Proof.
  intros Hn. unfold put_counter. destruct (pb_set_view d k (put_be32 n)) as (d' & -> & Hv).
  exists d'. split; [done|]. split; [|done]. unfold kv_GetCounter.
  by rewrite pb_get_view, Hv, lookup_insert_eq, be32_put.
Qed.

(** counters.  From a counter [n] (zero if there is none), an increment
    stores and returns the sum modulo 2^32, and a decrement the difference, or
    zero when the counter is smaller; the new value is what is read back, and no
    other key changes. *)
Theorem counters_exact d k n delta : counter_of d k = Some n → in_u32 n → in_u32 delta →
  (∃ d', kv_Incr d k delta = Some (Ok ((n + delta) mod 4294967296, d'))
     ∧ kv_GetCounter d' k = Some (Ok ((n + delta) mod 4294967296))
     ∧ ∀ k', k' ≠ k → pb_view d' !! k' = pb_view d !! k')
  ∧ (∃ d', kv_Decr d k delta = Some (Ok (Z.max 0 (n - delta), d'))
     ∧ kv_GetCounter d' k = Some (Ok (Z.max 0 (n - delta)))
     ∧ ∀ k', k' ≠ k → pb_view d' !! k' = pb_view d !! k').
Proof.
  intros Hc Hn Hd. unfold kv_Incr, kv_Decr. rewrite Hc. cbn [fmap option_fmap option_map]. split.
  - destruct (put_counter_ok d k (u32 (n + delta))) as (d' & -> & Hg & Hv); [apply u32_in|].
    exists d'. split; [done|]. split; [done|]. intros k' Hk. by rewrite Hv, lookup_insert_ne.
  - replace (if n >? delta then n - delta else 0) with (Z.max 0 (n - delta)) by (case_if; lia).
    destruct (put_counter_ok d k (Z.max 0 (n - delta))) as (d' & -> & Hg & Hv); [unfold_ints; lia|].
    exists d'. split; [done|]. split; [done|]. intros k' Hk. by rewrite Hv, lookup_insert_ne.
Qed.
End kv_theorems.

Lemma counters_exact_witness :
  ∃ d', kv_Decr (<[bs "n" := put_be32 3]> (∅ : gmap (list ascii) (list ascii))) (bs "n") 5 = Some (Ok (0, d')).
Proof.
  destruct (counters_exact (<[bs "n" := put_be32 3]> (∅ : gmap (list ascii) (list ascii))) (bs "n") 3 5) as [_ (d' & E & _)].
  - vm_compute. reflexivity.
  - vm_compute. split; discriminate.
  - vm_compute. split; discriminate.
  - exists d'. exact E.
Defined.
