(* ===== verification/PathTrie.v ===== *)
(** * The path trie: pkg/pathtrie

    Paths are split at slashes; a node has its children by name, one wildcard
    child (a star or a regular expression), an optional value and the pattern it
    was created for.  [regexp.Compile] is an argument: a compiled expression is
    the function [MatchString].

    Proved, for patterns without regular expressions: [Search] finds a value
    exactly if some inserted pattern matches a prefix of the path, and then the
    value of the one preferred to all others: at the first part where two such
    patterns differ, a name before a star, and going on before ending.
    [FindByPrefix] loses values: a node keeps the pattern that created it. *)

From S2P Require Import Prelude GoStrings.

(** ** pathtrie.go *)

Definition slash : ascii := "/"%char.
Definition star : str := bs "*".

(** One separator is cut from each end; empty parts are dropped. *)
Definition split_path (path : str) : list str :=
  let path := match path with c :: p => if bool_decide (c = slash) then p else path | [] => [] end in
  let path := match rev path with c :: r => if bool_decide (c = slash) then rev r else path | [] => [] end in
  filter (λ p, p ≠ []) (split_byte slash path).

Inductive node (V : Type) : Type :=
| Node (children : list (str * node V)) (value : option V) (wildcard : option (node V)) (pattern : str)
    (regex : option (str → bool)).
Arguments Node {V}.

Definition children {V} (n : node V) := match n with Node c _ _ _ _ => c end.
Definition value {V} (n : node V) := match n with Node _ v _ _ _ => v end.
Definition wildcard {V} (n : node V) := match n with Node _ _ w _ _ => w end.
Definition pattern {V} (n : node V) := match n with Node _ _ _ p _ => p end.
Definition regex {V} (n : node V) := match n with Node _ _ _ _ r => r end.

Definition NewPathTrie {V} : node V := Node [] None None [] None.
Definition new_node {V} (p : str) (re : option (str → bool)) : node V := Node [] None None p re.

(** The map of the children, as an association list with one entry per name. *)
Fixpoint child {V} (c : list (str * node V)) (k : str) : option (node V) :=
  match c with
  | [] => None
  | (k', n) :: c' => if decide (k' = k) then Some n else child c' k
  end.

Fixpoint set_child {V} (c : list (str * node V)) (k : str) (x : node V) : list (str * node V) :=
  match c with
  | [] => [(k, x)]
  | (k', n) :: c' => if decide (k' = k) then (k', x) :: c' else (k', n) :: set_child c' k x
  end.

Definition with_value {V} (n : node V) (v : V) : node V :=
  Node (children n) (Some v) (wildcard n) (pattern n) (regex n).
Definition with_wildcard {V} (n w : node V) : node V :=
  Node (children n) (value n) (Some w) (pattern n) (regex n).
Definition with_child {V} (n : node V) (k : str) (x : node V) : node V :=
  Node (set_child (children n) k x) (value n) (wildcard n) (pattern n) (regex n).

Section trie.
Context {V : Type}.
Variable compile : str → option (str → bool).
Implicit Types n w : node V.

Definition is_regex (part : str) : bool := has_prefix (bs "[") part || has_prefix (bs ".*") part.

(** The walk of [Insert] from the node [n]; an expression that does not compile
    is skipped, and one below a node that has a wildcard is taken literally. *)
Fixpoint insert_parts (p : str) (v : V) (parts : list str) n : node V :=
  match parts with
  | [] => with_value n v
  | part :: rest =>
      let literal :=
        with_child n part (insert_parts p v rest (default (new_node p None) (child (children n) part))) in
      if bool_decide (part = star) then
        with_wildcard n (insert_parts p v rest (default (new_node p None) (wildcard n)))
      else if is_regex part then
        match wildcard n with
        | Some _ => literal
        | None =>
            match compile part with
            | None => insert_parts p v rest n
            | Some re => with_wildcard n (insert_parts p v rest (new_node p (Some re)))
            end
        end
      else literal
  end.

Definition Insert (p : str) (v : V) n : node V := insert_parts p v (split_path p) n.

(** [searchNode]: the exact child, then the wildcard, then the node itself. *)
Fixpoint search_node (parts : list str) n : option V :=
  match parts with
  | [] => value n
  | part :: rest =>
      match (match child (children n) part with Some c => search_node rest c | None => None end) with
      | Some v => Some v
      | None =>
          match (match wildcard n with
                 | Some w =>
                     if match regex w with Some re => re part | None => true end then search_node rest w else None
                 | None => None
                 end) with
          | Some v => Some v
          | None => value n
          end
      end
  end.

Definition Search (path : str) n : option V := search_node (split_path path) n.

(** [FindByPrefix] follows names only; the result is a map from the patterns of
    the nodes. *)
Fixpoint locate (parts : list str) n : option (node V) :=
  match parts with
  | [] => Some n
  | part :: rest => match child (children n) part with Some c => locate rest c | None => None end
  end.

Fixpoint collectValues n (results : gmap (list ascii) V) : gmap (list ascii) V :=
  match n with
  | Node c v w p _ =>
      let results := match v with Some x => <[p := x]> results | None => results end in
      let results := (fix go (l : list (str * node V)) r :=
        match l with [] => r | (_, x) :: l' => go l' (collectValues x r) end) c results in
      match w with Some x => collectValues x results | None => results end
  end.

Definition FindByPrefix (prefix : str) n : gmap (list ascii) V :=
  match locate (split_path prefix) n with Some x => collectValues x ∅ | None => ∅ end.

(** ** What a trie holds *)

(** The node under a list of parts, a star standing for the wildcard. *)
Fixpoint reach (q : list str) n : option (node V) :=
  match q with
  | [] => Some n
  | part :: rest =>
      match (if bool_decide (part = star) then wildcard n else child (children n) part) with
      | Some c => reach rest c
      | None => None
      end
  end.

Definition entry n (q : list str) : option V := reach q n ≫= value.

Definition regex_free n : Prop :=
  regex n = None ∧ ∀ q n', reach q n = Some n' → regex n' = None ∧ child (children n') star = None.

(** A pattern covers a path if it matches the first parts of it. *)
Definition part_matches (pat part : str) : Prop := pat = star ∨ pat = part.
Definition covers_path (pat parts : list str) : Prop :=
  ∃ pre suf, parts = pre ++ suf ∧ Forall2 part_matches pat pre.
End trie.

Example split_examples : split_path (bs "/a//b/") = [bs "a"; bs "b"] ∧ split_path (bs "http://h/p") = [bs "http:"; bs "h"; bs "p"].
Proof. by vm_compute. Qed.

(** The value of the inner node is returned under the pattern of the first
    insertion that went through it, and then overwritten. *)
Example find_loses_a_value :
  FindByPrefix (bs "/a") (Insert (λ _, None) (bs "/a") 2 (Insert (λ _, None) (bs "/a/b") 1 NewPathTrie))
  = ({[bs "/a/b" := 1]} : gmap (list ascii) Z).
Proof. by vm_compute. Qed.

(** ** Lemmas *)

Section trie_lemmas.
Context {V : Type}.
Variable compile : str → option (str → bool).
Implicit Types n w : node V.

Lemma child_set (c : list (str * node V)) k k' x :
  child (set_child c k x) k' = if decide (k = k') then Some x else child c k'.
Proof.
  induction c as [|[a y] c IH]; simpl; [done|]. destruct (decide (a = k)) as [->|Hk]; simpl.
  - by destruct (decide (k = k')).
  - destruct (decide (a = k')) as [->|?]; [by rewrite decide_False by congruence|done].
Qed.

(** A pattern the theorems speak about: no part is a regular expression. *)
Definition literal (parts : list str) : Prop := Forall (λ p, is_regex p = false) parts.

(** One step of the walk, at the name or star [part]. *)
Definition next n (part : str) : option (node V) :=
  if bool_decide (part = star) then wildcard n else child (children n) part.

Lemma insert_step p v part rest n : is_regex part = false → ∃ n',
  insert_parts compile p v (part :: rest) n = n' ∧ value n' = value n ∧ regex n' = regex n
  ∧ (∀ q, next n' q = if decide (q = part) then Some (insert_parts compile p v rest (default (new_node p None) (next n part)))
                      else next n q)
  ∧ (part ≠ star → wildcard n' = wildcard n)
  ∧ (child (children n) star = None → child (children n') star = None).
Proof.
  intros Hr. eexists. split; [reflexivity|]. cbn [insert_parts]. unfold next. destruct (bool_decide_reflect (part = star)) as [->|Hs].
  - split_and!; [done..| |done|done]. intros q. cbn [wildcard with_wildcard children with_child]. destruct (decide (q = star)) as [->|Hq].
    + by rewrite !(bool_decide_eq_true_2 (star = star)).
    + by rewrite !(bool_decide_eq_false_2 (q = star)).
  - rewrite Hr. split_and!; [done..| |done|].
    + intros q. cbn [wildcard with_wildcard children with_child]. destruct (bool_decide_reflect (q = star)) as [->|Hq]; [by rewrite decide_False|].
      rewrite child_set. destruct (decide (part = q)), (decide (q = part)); congruence.
    + cbn [children with_child]. rewrite child_set. by rewrite decide_False.
Qed.

Lemma reach_cons q part n : reach (part :: q) n = next n part ≫= reach q.
Proof. cbn [reach]. unfold next. by destruct (if bool_decide (part = star) then _ else _). Qed.

Lemma entry_cons q part n : entry n (part :: q) = next n part ≫= λ c, entry c q.
Proof. unfold entry. rewrite reach_cons. by destruct (next n part). Qed.

Lemma new_node_entry p re q : entry (new_node p re : node V) q = None.
Proof. destruct q as [|part q]; [done|]. rewrite entry_cons. unfold next. by case_bool_decide. Qed.

Lemma entry_insert p v parts n q : literal parts →
  entry (insert_parts compile p v parts n) q = if decide (q = parts) then Some v else entry n q.
Proof.
  revert n q. induction parts as [|part rest IH]; intros n q Hl.
  - destruct q as [|part q]; [done|]. by rewrite decide_False, !entry_cons by done.
  - apply Forall_cons in Hl as [Hr Hl]. destruct (insert_step p v part rest n Hr) as (n' & -> & Hv & _ & Hn & _).
    destruct q as [|a q]; [by rewrite decide_False by done; unfold entry; cbn; rewrite Hv|].
    rewrite !entry_cons, Hn. destruct (decide (a = part)) as [->|Ha].
    + cbn. rewrite IH by done. destruct (decide (q = rest)) as [->|Hq]; [by rewrite decide_True|].
      rewrite decide_False by congruence. destruct (next n part); [done|]. apply new_node_entry.
    + by rewrite decide_False by congruence.
Qed.

Lemma regex_free_next n part c : regex_free n → next n part = Some c → regex_free c.
Proof.
  intros [_ Hf] Hc. split.
  - apply (Hf [part]). by rewrite reach_cons, Hc.
  - intros q n' Hq. apply (Hf (part :: q)). by rewrite reach_cons, Hc.
Qed.

Lemma regex_free_new p : regex_free (new_node p None : node V).
Proof.
  split; [done|]. intros [|part q] n'; [by intros [= <-]|]. rewrite reach_cons. unfold next. by case_bool_decide.
Qed.

(** A node is free of expressions if it and all its successors are. *)
Lemma regex_free_intro n : regex n = None → child (children n) star = None →
  (∀ part c, next n part = Some c → regex_free c) → regex_free n.
Proof.
  intros Hr Hs Hn. split; [done|]. intros [|part q] n'; [by intros [= <-]|]. rewrite reach_cons.
  destruct (next n part) as [c|] eqn:E; [|done]. apply Hn in E as [_ Hf]. apply Hf.
Qed.

Lemma regex_free_insert p v parts n : literal parts → regex_free n → regex_free (insert_parts compile p v parts n).
Proof.
  revert n. induction parts as [|part rest IH]; intros n Hl Hf.
  - apply regex_free_intro; [by apply Hf|by destruct (proj2 Hf [] n)|]. intros part c E. by apply (regex_free_next n part).
  - apply Forall_cons in Hl as [Hr Hl]. destruct (insert_step p v part rest n Hr) as (n' & -> & _ & Hre & Hn & _ & Hs).
    apply regex_free_intro; [rewrite Hre; apply Hf|apply Hs; by destruct (proj2 Hf [] n)|].
    intros a c. rewrite Hn. destruct (decide (a = part)); [|apply regex_free_next, Hf]. intros [= <-]. apply IH; [done|].
    destruct (next n part) as [x|] eqn:E; [by apply (regex_free_next n part)|apply regex_free_new].
Qed.

(** One step of the search, when there are no expressions. *)
Lemma search_step part rest n : regex_free n →
  search_node (part :: rest) n
  = match (if bool_decide (part = star) then None else next n part ≫= search_node rest) with
    | Some v => Some v
    | None => match next n star ≫= search_node rest with Some v => Some v | None => value n end
    end.
Proof.
  intros Hf. cbn [search_node]. unfold next. rewrite (bool_decide_eq_true_2 (star = star)) by done.
  assert (∀ w, wildcard n = Some w → regex w = None) as Hw.
  { intros w E. apply (regex_free_next n star); [done|]. unfold next. by rewrite bool_decide_eq_true_2. }
  replace (match child (children n) part with Some c => search_node rest c | None => None end)
    with (if bool_decide (part = star) then None else (child (children n) part) ≫= search_node rest).
  2: { case_bool_decide as E; [subst; by destruct (proj2 Hf [] n) as [_ ->]|by destruct (child _ part)]. }
  destruct (if bool_decide (part = star) then _ else _) as [v|] eqn:E.
  - case_bool_decide; [done|]. by rewrite E.
  - case_bool_decide; [|rewrite E]; (destruct (wildcard n) as [w|] eqn:Ew; [by rewrite (Hw w)|done]).
Qed.
Lemma covers_nil pat : covers_path pat [] → pat = [].
Proof.
  intros (pre & suf & E & HF). symmetry in E. apply app_nil in E as [-> ->]. by inversion HF.
Qed.

Lemma covers_cons pat part rest : covers_path pat (part :: rest) →
  pat = [] ∨ ∃ a pat', pat = a :: pat' ∧ part_matches a part ∧ covers_path pat' rest.
Proof.
  intros (pre & suf & E & HF). destruct pre as [|b pre]; [left; by inversion HF|right].
  injection E as -> ->. inversion HF as [|a b' pat' l' Ha HF' E1 E2]; subst. exists a, pat'. split; [done|]. split; [done|].
  by exists pre, suf.
Qed.

Lemma covers_extend a pat part rest : part_matches a part → covers_path pat rest → covers_path (a :: pat) (part :: rest).
Proof. intros Ha (pre & suf & -> & HF). exists (part :: pre), suf. split; [done|by constructor]. Qed.

Lemma covers_self pre suf : covers_path pre (pre ++ suf).
Proof.
  exists pre, suf. split; [done|]. apply Forall2_same_length_lookup_2; [done|]. intros i x y Hx Hy. right. congruence.
Qed.

(** What a search finds, and that it misses nothing. *)
Lemma search_sound n parts v : regex_free n → search_node parts n = Some v →
  ∃ pat, entry n pat = Some v ∧ covers_path pat parts.
Proof.
  revert n. induction parts as [|part rest IH]; intros n Hf Hs.
  - exists []. split; [done|]. by exists [], [].
  - rewrite search_step in Hs by done.
    destruct (if bool_decide (part = star) then _ else _) as [x|] eqn:E1.
    + case_bool_decide; [done|]. destruct (next n part) as [c|] eqn:Ec; [|done]. cbn in E1. simplify_eq.
      destruct (IH c) as (pat & He & Hc); [by apply (regex_free_next n part)|done|].
      exists (part :: pat). split; [by rewrite entry_cons, Ec|]. by apply covers_extend; [right|].
    + destruct (next n star ≫= search_node rest) as [x|] eqn:E2.
      * destruct (next n star) as [c|] eqn:Ec; [|done]. cbn in E2. simplify_eq.
        destruct (IH c) as (pat & He & Hc); [by apply (regex_free_next n star)|done|].
        exists (star :: pat). split; [by rewrite entry_cons, Ec|]. by apply covers_extend; [left|].
      * exists []. split; [done|]. by exists [], (part :: rest).
Qed.

Lemma search_complete n parts pat : regex_free n → search_node parts n = None → covers_path pat parts → entry n pat = None.
Proof.
  revert n pat. induction parts as [|part rest IH]; intros n pat Hf Hs Hc; [by apply covers_nil in Hc as ->|].
  rewrite search_step in Hs by done.
  destruct (if bool_decide (part = star) then _ else _) eqn:E1; [done|].
  destruct (next n star ≫= search_node rest) eqn:E2; [done|].
  apply covers_cons in Hc as [-> |(a & pat' & -> & [-> | ->] & Hc)]; [done|..]; rewrite entry_cons.
  - destruct (next n star) as [c|] eqn:Ec; [|done]. cbn in *. apply IH; [by apply (regex_free_next n star)|done..].
  - case_bool_decide as Hs'; [subst part|]; (destruct (next n _) as [c|] eqn:Ec; [|done]); cbn in *;
      (apply IH; [by eapply regex_free_next|done..]).
Qed.

(** Of two patterns that cover a path the search takes the one that, at the first
    part where they differ, names the part where the other has a star, or goes on
    where the other ends. *)
Fixpoint preferred (pat other : list str) : bool :=
  match pat, other with
  | _, [] => true
  | [], _ :: _ => false
  | a :: pat', b :: other' => if decide (a = b) then preferred pat' other' else bool_decide (b = star)
  end.

Lemma preferred_refl pat : preferred pat pat = true.
Proof. induction pat as [|a pat IH]; simpl; [done|]. by rewrite decide_True. Qed.

Lemma preferred_antisym pat other : preferred pat other = true → preferred other pat = true → pat = other.
Proof.
  revert other. induction pat as [|a pat IH]; intros [|b other]; simpl; try done.
  destruct (decide (a = b)) as [->|Hab]; [rewrite decide_True by done; intros; f_equal; auto|].
  rewrite decide_False by congruence. intros ->%bool_decide_eq_true ->%bool_decide_eq_true. done.
Qed.

(** The value found is that of the pattern preferred to all others. *)
Lemma search_preferred n parts v : regex_free n → search_node parts n = Some v →
  ∃ pat, entry n pat = Some v ∧ covers_path pat parts
  ∧ ∀ other x, covers_path other parts → entry n other = Some x → preferred pat other = true.
Proof.
  revert n. induction parts as [|part rest IH]; intros n Hf Hs.
  - exists []. split; [done|]. split; [by exists [], []|]. by intros other x ->%covers_nil.
  - rewrite search_step in Hs by done.
    destruct (if bool_decide (part = star) then _ else _) as [x|] eqn:E1.
    + case_bool_decide as Hp; [done|]. destruct (next n part) as [c|] eqn:Ec; [|done]. cbn in E1. simplify_eq.
      destruct (IH c) as (pat & He & Hc & Hb); [by apply (regex_free_next n part)|done|].
      exists (part :: pat). split; [by rewrite entry_cons, Ec|]. split; [by apply covers_extend; [right|]|].
      intros other y [-> |(a & other' & -> & Ha & Hc')]%covers_cons; [done|]. rewrite entry_cons. cbn [preferred].
      destruct (decide (part = a)) as [<-|Hne]; [rewrite Ec; by apply Hb|]. intros _. destruct Ha as [->|Ha]; [by apply bool_decide_eq_true|congruence].
    + assert (∀ a other' y, a ≠ star → part_matches a part → covers_path other' rest → entry n (a :: other') = Some y → False) as Hno.
      { intros a other' y Ha [->|<-] Hc' Hy; [done|]. rewrite bool_decide_eq_false_2 in E1 by done. rewrite entry_cons in Hy.
        destruct (next n a) as [c|] eqn:Ec; [|done]. cbn in E1, Hy. rewrite (search_complete c rest other') in Hy; [done|by apply (regex_free_next n a)|done..]. }
      destruct (next n star ≫= search_node rest) as [x|] eqn:E2.
      * destruct (next n star) as [c|] eqn:Ec; [|done]. cbn in E2. simplify_eq.
        destruct (IH c) as (pat & He & Hc & Hb); [by apply (regex_free_next n star)|done|].
        exists (star :: pat). split; [by rewrite entry_cons, Ec|]. split; [by apply covers_extend; [left|]|].
        intros other y [-> |(a & other' & -> & Ha & Hc')]%covers_cons; [done|]. intros Hy. cbn [preferred].
        destruct (decide (star = a)) as [<-|Hne]; [rewrite entry_cons, Ec in Hy; by apply (Hb other' y)|]. by destruct (Hno a other' y).
      * exists []. split; [done|]. split; [by exists [], (part :: rest)|].
        intros other y [-> |(a & other' & -> & Ha & Hc')]%covers_cons; [done|]. intros Hy. exfalso.
        destruct (decide (a = star)) as [->|Hne]; [|by apply (Hno a other' y)]. rewrite entry_cons in Hy. destruct (next n star) as [c|] eqn:Ec; [|done].
        cbn in E2, Hy. rewrite (search_complete c rest other') in Hy; [done|by apply (regex_free_next n star)|done..].
Qed.

(** Without stars the value found is that of the longest prefix. *)
Lemma search_longest n parts v : regex_free n → (∀ q c, entry n q = Some c → star ∉ q) →
  search_node parts n = Some v →
  ∃ pre suf, parts = pre ++ suf ∧ entry n pre = Some v
  ∧ ∀ pre' suf', parts = pre' ++ suf' → (length pre < length pre')%nat → entry n pre' = None.
Proof.
  revert n. induction parts as [|part rest IH]; intros n Hf Hst Hs.
  - exists [], []. split; [done|]. split; [done|]. intros pre' suf' E. symmetry in E. apply app_nil in E as [-> ->]. simpl. lia.
  - rewrite search_step in Hs by done.
    assert (∀ c x, next n star = Some c → search_node rest c = Some x → False) as Hno.
    { intros c x Ec Ex. destruct (search_sound c rest x) as (pat & He & _); [by apply (regex_free_next n star)|done|].
      apply (Hst (star :: pat) x); [by rewrite entry_cons, Ec|by left]. }
    destruct (if bool_decide (part = star) then _ else _) as [x|] eqn:E1.
    + case_bool_decide as Hp; [done|]. destruct (next n part) as [c|] eqn:Ec; [|done]. cbn in E1. simplify_eq.
      destruct (IH c) as (pre & suf & -> & He & Hl); [by apply (regex_free_next n part)| |done|].
      { intros q y Hq Hin. apply (Hst (part :: q) y); [by rewrite entry_cons, Ec|by right]. }
      exists (part :: pre), suf. split; [done|]. split; [by rewrite entry_cons, Ec|].
      intros [|a pre'] suf' E Hlen; [simpl in *; lia|]. injection E as <- E. rewrite entry_cons, Ec. apply (Hl _ _ E). simpl in *. lia.
    + destruct (next n star ≫= search_node rest) as [x|] eqn:E2.
      { destruct (next n star) as [c|] eqn:Ec; [|done]. cbn in E2. exfalso. eauto. }
      exists [], (part :: rest). split; [done|]. split; [done|]. intros [|a pre'] suf' E Hlen; [simpl in *; lia|].
      injection E as <- ->. rewrite entry_cons. case_bool_decide as Hp.
      { subst part. destruct (next n star) as [c|] eqn:Ec; [|done]. cbn in *.
        apply (search_complete c (pre' ++ suf')); [by apply (regex_free_next n star)|done|apply covers_self]. }
      destruct (next n part) as [c|] eqn:Ec; [|done]. cbn in *.
      apply (search_complete c (pre' ++ suf')); [by apply (regex_free_next n part)|done|apply covers_self].
Qed.
End trie_lemmas.

(** ** The search as a function of the entries *)

(** The same order of trials on a map from lists of parts. *)
Fixpoint spec_search {V} (e : list str → option V) (parts : list str) : option V :=
  match parts with
  | [] => e []
  | part :: rest =>
      match (if bool_decide (part = star) then None else spec_search (λ q, e (part :: q)) rest) with
      | Some v => Some v
      | None => match spec_search (λ q, e (star :: q)) rest with Some v => Some v | None => e [] end
      end
  end.

(** Only the patterns that cover the path matter. *)
Lemma spec_search_ext {V} (e e' : list str → option V) parts :
  (∀ q, covers_path q parts → e q = e' q) → spec_search e parts = spec_search e' parts.
Proof.
  revert e e'. induction parts as [|part rest IH]; intros e e' He; simpl; [apply He; by exists [], []|].
  rewrite (IH (λ q, e (part :: q)) (λ q, e' (part :: q))), (IH (λ q, e (star :: q)) (λ q, e' (star :: q))), (He []).
  - done.
  - by exists [], (part :: rest).
  - intros q Hq. apply He, covers_extend; [by left|done].
  - intros q Hq. apply He, covers_extend; [by right|done].
Qed.

Lemma spec_search_none {V} (e : list str → option V) parts : (∀ q, e q = None) → spec_search e parts = None.
Proof.
  revert e. induction parts as [|part rest IH]; intros e He; simpl; [done|]. rewrite !IH, He by done. by case_bool_decide.
Qed.

Lemma search_spec {V} (n : node V) parts : regex_free n → search_node parts n = spec_search (entry n) parts.
Proof.
  revert n. induction parts as [|part rest IH]; intros n Hf; [done|]. rewrite search_step by done. cbn [spec_search].
  assert (∀ a, next n a ≫= search_node rest = spec_search (λ q, entry n (a :: q)) rest) as Hn.
  { intros a. destruct (next n a) as [c|] eqn:Ec; simpl.
    - rewrite IH by (by apply (regex_free_next n a)). apply spec_search_ext. intros q _. by rewrite entry_cons, Ec.
    - symmetry. apply spec_search_none. intros q. by rewrite entry_cons, Ec. }
  by rewrite !Hn.
Qed.

(** ** Tries built by insertions *)

Section built.
Context {V : Type}.
Variable compile : str → option (str → bool).

Definition built (l : list (str * V)) : node V := fold_left (λ n kv, Insert compile kv.1 kv.2 n) l NewPathTrie.

(** The value a list of insertions leaves under a list of parts. *)
Definition latest (l : list (str * V)) (q : list str) : option V :=
  fold_left (λ acc kv, if decide (q = split_path kv.1) then Some kv.2 else acc) l None.

Definition literals (l : list (str * V)) : Prop := Forall (λ kv, literal (split_path kv.1)) l.

Lemma latest_snoc l k v q : latest (l ++ [(k, v)]) q = if decide (q = split_path k) then Some v else latest l q.
Proof. unfold latest. by rewrite fold_left_app. Qed.

Lemma built_snoc l k v : built (l ++ [(k, v)]) = Insert compile k v (built l).
Proof. unfold built. by rewrite fold_left_app. Qed.

Lemma built_ok l : literals l → regex_free (built l) ∧ ∀ q, entry (built l) q = latest l q.
Proof.
  induction l as [|[k v] l IH] using rev_ind; intros Hl.
  - split; [apply regex_free_new|]. intros q. apply (new_node_entry [] None).
  - apply Forall_app in Hl as [Hl Hk]. apply Forall_cons in Hk as [Hk _]. destruct (IH Hl) as [Hf He].
    simpl in Hk. rewrite built_snoc. unfold Insert. split; [by apply regex_free_insert|]. intros q.
    rewrite entry_insert, latest_snoc by done. by case_decide.
Qed.

(** C38: a search over a trie built from patterns without regular expressions, stars
    included.  It finds [v] exactly if [v] is the value last inserted for a pattern that covers the path
    (matches its first parts) and that is preferred to every other inserted pattern that
    covers it: at the first part where the two differ it names the part where the other has
    a star, or it goes on where the other ends.  It finds nothing exactly if no inserted
    pattern covers the path. *)
Theorem trie_search_correct l path : literals l →
  (∀ v, Search path (built l) = Some v ↔
     ∃ pat, latest l pat = Some v ∧ covers_path pat (split_path path)
     ∧ ∀ other x, covers_path other (split_path path) → latest l other = Some x → preferred pat other = true)
  ∧ (Search path (built l) = None ↔ ∀ pat, covers_path pat (split_path path) → latest l pat = None).
Proof.
  intros Hl. destruct (built_ok l Hl) as [Hf He]. unfold Search. setoid_rewrite <-He.
  assert (Search path (built l) = None → ∀ pat, covers_path pat (split_path path) → entry (built l) pat = None) as Hnone.
  { intros Hs pat Hc. by apply (search_complete _ (split_path path)). }
  split; [intros v; split|split; [exact Hnone|]].
  - by apply search_preferred.
  - intros (pat & Hv & Hc & Hb). destruct (search_node (split_path path) (built l)) as [x|] eqn:E.
    + destruct (search_preferred _ _ _ Hf E) as (pat' & Hv' & Hc' & Hb').
      rewrite (preferred_antisym pat pat') in Hv; [congruence|by apply (Hb pat' x)|by apply (Hb' pat v)].
    + rewrite (Hnone E pat Hc) in Hv. done.
  - intros Hn. destruct (search_node (split_path path) (built l)) as [x|] eqn:E; [|done].
    destruct (search_sound _ _ _ Hf E) as (pat & Hv & Hc). rewrite (Hn pat Hc) in Hv. done.
Qed.
End built.

(** A name is preferred to a star even where the pattern with the star is the longer one. *)
Definition two_patterns : list (str * Z) := [(bs "/a/b", 1); (bs "/a/*/c", 2)].

Lemma trie_search_correct_witness :
  (∃ pat, latest two_patterns pat = Some 1 ∧ covers_path pat (split_path (bs "/a/b/c"))
     ∧ ∀ other x, covers_path other (split_path (bs "/a/b/c")) → latest two_patterns other = Some x → preferred pat other = true)
  ∧ Search (bs "/a/x/c") (built (λ _, None) two_patterns) = Some 2 ∧ Search (bs "/b") (built (λ _, None) two_patterns) = None.
Proof.
  assert (literals two_patterns) as Hl
    by (repeat (apply Forall_cons; split; [apply (bool_decide_eq_true_1 _); vm_compute; reflexivity|]); apply Forall_nil_2).
  split; [|split].
  - apply (trie_search_correct (λ _, None) two_patterns (bs "/a/b/c") Hl). vm_compute. reflexivity.
  - apply (trie_search_correct (λ _, None) two_patterns (bs "/a/x/c") Hl). exists [bs "a"; star; bs "c"]. split; [vm_compute; reflexivity|]. split.
    + exists [bs "a"; bs "x"; bs "c"], []. split; [vm_compute; reflexivity|]. repeat (constructor; [by (left + right)|]). constructor.
    + intros other x Hc Hx. unfold two_patterns, latest in Hx. cbn [fold_left fst snd] in Hx. destruct (decide (other = split_path (bs "/a/*/c"))) as [-> |_]; [vm_compute; reflexivity|].
      destruct (decide (other = split_path (bs "/a/b"))) as [-> |_]; [exfalso|discriminate Hx].
      change (covers_path [bs "a"; bs "b"] [bs "a"; bs "x"; bs "c"]) in Hc.
      apply covers_cons in Hc as [Hc|(a & pat' & [= _ <-] & _ & Hc)]; [discriminate Hc|].
      apply covers_cons in Hc as [Hc|(a' & pat' & [= <- _] & [Ha|Ha] & _)]; vm_compute in *; discriminate.
  - apply (trie_search_correct (λ _, None) two_patterns (bs "/b") Hl). intros pat Hc.
    unfold two_patterns, latest. cbn [fold_left fst snd]. destruct (decide (pat = split_path (bs "/a/*/c"))) as [-> |_];
      [|destruct (decide (pat = split_path (bs "/a/b"))) as [-> |_]; [|reflexivity]];
      apply covers_cons in Hc as [Hc|(a & pat' & [= <- _] & [Ha|Ha] & _)]; vm_compute in *; congruence.
Defined.
