(* ===== verification/DirAware.v ===== *)
(** * Directory purges: storage/diraware

    A purge of a directory with a mark does not touch the objects: the directory
    and the time are put into a path trie and into the shared store, and a bucket
    that looks an object up under such a directory returns its metadata as
    expired, if the object was stored before.  The marks are read back from the
    store when the process starts.

    Proved: a purge marks exactly the objects stored before it under the
    directory, unless a longer directory was purged before; after a restart the
    marks are the same; and a marked object is never answered as a hit by the
    middleware.  Two defects: an older purge of a subdirectory hides a newer one
    of its parent, and a directory written with and without a final slash may get
    its older time back on a restart. *)

From S2P Require Import Prelude GoStrings GoSort Headers Blocks Object CacheControl CachingState.
From S2P Require Import SharedKv PathTrie VaryProcessor MissPath.

(** ** diraware.go *)

Section checker.
Context {D : Type} `{PebbleOps D}.
Variable compile : str → option (str → bool).

Record checker := mkChecker { ck_kv : D; ck_trie : node Z; ck_prefix : str }.

(** One record of the store; a value that is not eight bytes long is skipped. *)
Definition reload_entry (prefix : str) (t : node Z) (key val : str) : node Z :=
  if negb (length val =? 8)%nat then t
  else Insert compile (drop (length prefix) key) (i64 (le_val val)) t.

Definition NewChecker (kv : D) (prefix : str) : checker :=
  mkChecker kv
    (match kv_IteratePrefix kv prefix (reload_entry prefix) NewPathTrie with Ok t => t | Err _ => NewPathTrie end)
    prefix.

Definition Marked {B} (c : checker) (id : ID) (m : Metadata B) : bool :=
  match Search (id_path id) (ck_trie c) with Some t => md_RespUnix m <=? t | None => false end.

(** A failed write to the store is only logged. *)
Definition TrieAdd (now : Z) (c : checker) (storePath : str) : checker :=
  let t := unix now in
  mkChecker
    (match kv_Set (ck_kv c) (ck_prefix c ++ storePath) (le_bytes 8 (u64 t)) with Ok kv => kv | Err _ => ck_kv c end)
    (Insert compile storePath t (ck_trie c)) (ck_prefix c).

(** ** bucket.go and storage.go *)

Section bucket.
Context {B S : Type} `{BucketOps B S}.

(** [wrappedBucket.Lookup]: marked metadata is returned as expired one second
    ago, and not stored. *)
Definition wrapped_Lookup (now : Z) (c : checker) (s : S) (id : ID) : option (Metadata B) * S :=
  match bk_lookup s id with
  | (None, s') => (None, s')
  | (Some m, s') =>
      (Some (if Marked c id m then md_with_times m (md_RespUnix m) (md_LastRefUnix m) (unix (now - Second)) else m), s')
  end.

(** The wrapped bucket passes everything else on. *)
Definition wrapped_bucket (now : Z) (c : checker) : BucketOps B S := {|
  bk_lookup := wrapped_Lookup now c;
  bk_store := bk_store;
  bk_discard := bk_discard;
  bk_touch := bk_touch |}.

(** [wrappedStorage.PURGE]; [base] is the purge of the storage below. *)
Definition wrapped_PURGE {E T} (now : Z) (c : checker) (base : str → PurgeControl → T → option E * T)
    (storeUrl : str) (typ : PurgeControl) (t : T) : option E * checker * T :=
  if pc_Dir typ && pc_MarkExpired typ then (None, TrieAdd now c storeUrl, t)
  else let '(e, t) := base storeUrl typ t in (e, c, t).
End bucket.
End checker.
Arguments checker D : clear implicits.

(** ** Marks *)

Section marks.
Context {D : Type} `{PebbleOps D}.
Variable compile : str → option (str → bool).
Implicit Types c : checker D.

Lemma search_built (l : list (str * Z)) path : literals l →
  Search path (built compile l) = spec_search (latest l) (split_path path).
Proof.
  intros Hl. destruct (built_ok compile l Hl) as [Hf He]. unfold Search. rewrite search_spec by done.
  apply spec_search_ext. intros q _. apply He.
Qed.

(** The longest directory above a path decides. *)
Lemma search_deepest (l : list (str * Z)) dir t path suf : literals (l ++ [(dir, t)]) →
  (∀ q v, latest (l ++ [(dir, t)]) q = Some v → star ∉ q) →
  split_path path = split_path dir ++ suf →
  (∀ pre' suf', split_path path = pre' ++ suf' → (length (split_path dir) < length pre')%nat → latest l pre' = None) →
  Search path (built compile (l ++ [(dir, t)])) = Some t.
Proof.
  intros Hl Hst Hp Hdeep. destruct (built_ok compile _ Hl) as [Hf He]. unfold Search.
  assert (latest (l ++ [(dir, t)]) (split_path dir) = Some t) as Hd by (by rewrite latest_snoc, decide_True).
  destruct (search_node (split_path path) (built compile (l ++ [(dir, t)]))) as [v|] eqn:Es.
  2: { pose proof (search_complete _ _ (split_path dir) Hf Es) as Hc. rewrite He, Hd in Hc.
       discriminate Hc. rewrite Hp. apply covers_self. }
  destruct (search_longest _ (split_path path) v Hf) as (pre & suf2 & Hp2 & Hv & Hlong); [by intros q x; rewrite He; apply Hst|done|].
  rewrite He in Hv. destruct (Nat.lt_trichotomy (length pre) (length (split_path dir))) as [Hlt|[Heq|Hgt]].
  - specialize (Hlong _ _ Hp Hlt). rewrite He in Hlong. congruence.
  - rewrite Hp in Hp2. apply app_inj_1 in Hp2 as [<- _]; [|done]. congruence.
  - rewrite latest_snoc, decide_False in Hv by (intros ->; lia). rewrite (Hdeep _ _ Hp2 Hgt) in Hv. done.
Qed.

(** what a purge of a directory marks.  The marks were left by the purges
    [l].  An object that is not under the new directory is marked as before; an
    object under it, with no purged directory between the two, is marked exactly
    if it was stored no later than the purge. *)
Theorem dir_purge_marks {B} now c l dir id (m : Metadata B) :
  ck_trie c = built compile l → literals (l ++ [(dir, unix now)]) →
  (¬ covers_path (split_path dir) (split_path (id_path id)) →
     Marked (TrieAdd compile now c dir) id m = Marked c id m)
  ∧ (∀ suf, (∀ q v, latest (l ++ [(dir, unix now)]) q = Some v → star ∉ q) →
     split_path (id_path id) = split_path dir ++ suf →
     (∀ pre' suf', split_path (id_path id) = pre' ++ suf' → (length (split_path dir) < length pre')%nat →
        latest l pre' = None) →
     Marked (TrieAdd compile now c dir) id m = (md_RespUnix m <=? unix now)).
Proof.
  intros Ht Hl. unfold Marked, TrieAdd. cbn [ck_trie]. rewrite Ht, <-built_snoc. split.
  - intros Hn. apply Forall_app in Hl as Hl'. destruct Hl' as [Hl' _].
    rewrite !search_built by done. rewrite (spec_search_ext (latest (l ++ _)) (latest l)); [done|].
    intros q Hq. rewrite latest_snoc, decide_False; [done|]. by intros ->.
  - intros suf Hst Hp Hdeep. by rewrite (search_deepest l dir (unix now) (id_path id) suf).
Qed.
End marks.

(** ** Restarts *)

Section restart.
Context {D : Type} `{PebbleLaws D}.
Variable compile : str → option (str → bool).
Implicit Types c : checker D.

(** A history of purges, each with the clock at its time. *)
Definition purges (h : list (str * Z)) c : checker D := fold_left (λ c kv, TrieAdd compile kv.2 c kv.1) h c.
Definition marks (h : list (str * Z)) : list (str * Z) := (λ kv, (kv.1, unix kv.2)) <$> h.

(** The time of the last purge of a directory. *)
Definition last_time (h : list (str * Z)) (d : str) : option Z :=
  fold_left (λ acc kv, if decide (d = kv.1) then Some (unix kv.2) else acc) h None.

Lemma last_time_snoc h d t d' : last_time (h ++ [(d, t)]) d' = if decide (d' = d) then Some (unix t) else last_time h d'.
Proof. unfold last_time. by rewrite fold_left_app. Qed.

Lemma purges_snoc h d t c : purges (h ++ [(d, t)]) c = TrieAdd compile t (purges h c) d.
Proof. unfold purges. by rewrite fold_left_app. Qed.

Lemma purges_trie h c : ck_trie c = NewPathTrie →
  ck_trie (purges h c) = built compile (marks h) ∧ ck_prefix (purges h c) = ck_prefix c.
Proof.
  intros Hc. induction h as [|[d t] h [IH1 IH2]] using rev_ind; [done|].
  rewrite purges_snoc. unfold marks. rewrite fmap_app. cbn [fmap list_fmap fst snd].
  rewrite built_snoc. unfold TrieAdd. cbn [ck_trie ck_prefix]. by rewrite IH1.
Qed.

(** The store holds the last time of every directory, and nothing else below
    the prefix. *)
Lemma purges_store h c : (∀ k, has_prefix (ck_prefix c) k = true → pb_view (ck_kv c) !! k = None) →
  ck_trie c = NewPathTrie → ∀ k v, has_prefix (ck_prefix c) k = true →
  pb_view (ck_kv (purges h c)) !! k = Some v ↔
  ∃ d t, k = ck_prefix c ++ d ∧ last_time h d = Some t ∧ v = le_bytes 8 (u64 t).
Proof.
  intros Hempty Hc. induction h as [|[d t] h IH] using rev_ind; intros k v Hk.
  - unfold purges; simpl. rewrite Hempty by done. split; [done|]. by intros (d & t & _ & ? & _).
  - rewrite purges_snoc. destruct (purges_trie h c Hc) as [_ Hpre]. unfold TrieAdd. cbn [ck_kv]. rewrite Hpre. unfold kv_Set.
    destruct (pb_set_view (ck_kv (purges h c)) (ck_prefix c ++ d) (le_bytes 8 (u64 (unix t)))) as (d' & -> & ->).
    destruct (decide (k = ck_prefix c ++ d)) as [->|Hne].
    + rewrite lookup_insert_eq. split.
      * intros [= <-]. exists d, (unix t). by rewrite last_time_snoc, decide_True.
      * intros (d2 & t2 & E & Ht & ->). apply app_inv_head in E as <-. rewrite last_time_snoc, decide_True in Ht by done. congruence.
    + rewrite lookup_insert_ne, IH by done. split; intros (d2 & t2 & -> & Ht & ->); exists d2, t2.
      * rewrite last_time_snoc, decide_False by (intros ->; done). done.
      * rewrite last_time_snoc, decide_False in Ht by (intros ->; done). done.
Qed.

Lemma latest_sound (l : list (str * Z)) q t : latest l q = Some t → ∃ d, split_path d = q ∧ (d, t) ∈ l.
Proof.
  induction l as [|[d x] l IH] using rev_ind; [done|]. rewrite latest_snoc. case_decide as E.
  - intros [= ->]. exists d. split; [done|]. apply elem_of_app. right. by left.
  - intros Ht. destruct (IH Ht) as (d' & ? & ?). exists d'. split; [done|]. apply elem_of_app. by left.
Qed.

Lemma latest_complete (l : list (str * Z)) d t : (d, t) ∈ l → is_Some (latest l (split_path d)).
Proof.
  induction l as [|[d' x] l IH] using rev_ind; [by intros ?%elem_of_nil|]. rewrite latest_snoc, elem_of_app.
  case_decide; [done|]. intros [Hin|Hin]; [by apply IH|]. apply list_elem_of_singleton in Hin as [= -> ->]. done.
Qed.

(** Different names of one directory are not in the history. *)
Definition same_dir (h : list (str * Z)) : Prop :=
  ∀ d d', d ∈ h.*1 → d' ∈ h.*1 → split_path d = split_path d' → d = d'.

Lemma last_time_elem h d t : last_time h d = Some t → d ∈ h.*1.
Proof.
  induction h as [|[d' x] h IH] using rev_ind; [done|]. rewrite last_time_snoc, fmap_app, elem_of_app. case_decide as E.
  - intros _. right. subst. by left.
  - intros Ht. left. by apply IH.
Qed.

Lemma latest_marks h q t : same_dir h →
  latest (marks h) q = Some t ↔ ∃ d, split_path d = q ∧ last_time h d = Some t.
Proof.
  revert t. induction h as [|[d x] h IH] using rev_ind; intros t Hs; [split; [done|by intros (d & _ & ?)]|].
  unfold marks. rewrite fmap_app. cbn [fmap list_fmap fst snd]. fold (marks h). rewrite latest_snoc.
  assert (same_dir h) as Hs'.
  { intros d1 d2 H1 H2. apply Hs; rewrite fmap_app, elem_of_app; by left. }
  assert (d ∈ (h ++ [(d, x)]).*1) as Hd by (rewrite fmap_app, elem_of_app; right; by left).
  case_decide as E.
  - split.
    + intros [= <-]. exists d. by rewrite last_time_snoc, decide_True.
    + intros (d' & Hq & Ht). apply last_time_elem in Ht as Hd'.
      assert (d' = d) as -> by (apply Hs; [done..|congruence]). rewrite last_time_snoc, decide_True in Ht by done. congruence.
  - rewrite IH by done. split; intros (d' & Hq & Ht); exists d'; (split; [done|]).
    + rewrite last_time_snoc, decide_False by (intros ->; done). done.
    + rewrite last_time_snoc, decide_False in Ht by (intros ->; done). done.
Qed.
Lemma i64_u64 z : in_i64 z → i64 (u64 z) = z.
Proof.
  unfold_ints. intros Hz. unfold i64, u64. rewrite Zplus_mod_idemp_l. rewrite Z.mod_small; lia.
Qed.

(** One stored mark read back. *)
Lemma reload_entry_mark prefix n d t : in_i64 t →
  reload_entry compile prefix n (prefix ++ d) (le_bytes 8 (u64 t)) = Insert compile d t n.
Proof.
  intros Ht. unfold reload_entry. rewrite le_bytes_length. cbn [negb Nat.eqb].
  rewrite drop_app_length, le_val_bytes, i64_u64; [done|done|]. pose proof (u64_in t). unfold_ints. lia.
Qed.

Lemma reload_built prefix (l : list (str * str)) (f : str * str → str * Z) :
  (∀ kv, kv ∈ l → in_i64 (f kv).2 ∧ kv = (prefix ++ (f kv).1, le_bytes 8 (u64 (f kv).2))) →
  fold_left (λ n kv, reload_entry compile prefix n kv.1 kv.2) l NewPathTrie = built compile (f <$> l).
Proof.
  unfold built. generalize (NewPathTrie : node Z). induction l as [|kv l IH]; intros n Hl; [done|]. cbn [fold_left fmap list_fmap].
  destruct (Hl kv) as [Ht E]; [by left|]. rewrite E at 1 2. cbn [fst snd]. rewrite reload_entry_mark by done.
  apply IH. intros kv' Hin. apply Hl. by right.
Qed.

Lemma NewChecker_empty kv prefix : (∀ k, has_prefix prefix k = true → pb_view kv !! k = None) →
  ck_trie (NewChecker compile kv prefix) = NewPathTrie.
Proof.
  intros Hempty. unfold NewChecker, kv_IteratePrefix. cbn [ck_trie].
  destruct (prefix_pairs kv prefix) as (l & -> & _ & _ & He).
  destruct l as [|[k v] l]; [done|]. destruct (proj1 (He k v)) as [Hp Hv]; [by left|]. rewrite Hempty in Hv; done.
Qed.

Lemma last_time_range h d t : Forall (λ kv, in_i64 (unix kv.2)) h → last_time h d = Some t → in_i64 t.
Proof.
  induction h as [|[d' x] h IH] using rev_ind; [done|]. intros [Ht Hx]%Forall_app. rewrite last_time_snoc.
  case_decide; [|by apply IH]. intros [= <-]. by apply Forall_cons in Hx as [Hx _].
Qed.

(** The trie read back from a store that holds the marks of a history. *)
Lemma reload_marks kv prefix h : literals (marks h) → same_dir h → Forall (λ kv, in_i64 (unix kv.2)) h →
  (∀ k v, has_prefix prefix k = true → pb_view kv !! k = Some v ↔
     ∃ d t, k = prefix ++ d ∧ last_time h d = Some t ∧ v = le_bytes 8 (u64 t)) →
  ∃ l, ck_trie (NewChecker compile kv prefix) = built compile l ∧ literals l ∧ ∀ q, latest l q = latest (marks h) q.
Proof.
  intros Hl Hs Ht Hstore. destruct (prefix_pairs kv prefix) as (l & Hit & _ & _ & He).
  set (f := λ kv : str * str, (drop (length prefix) kv.1, i64 (le_val kv.2))).
  assert (∀ d t, last_time h d = Some t → f (prefix ++ d, le_bytes 8 (u64 t)) = (d, t)) as Hf.
  { intros d t Hd. unfold f. cbn [fst snd]. rewrite drop_app_length, le_val_bytes, i64_u64; [done|by eapply last_time_range|].
    pose proof (u64_in t). unfold_ints. lia. }
  assert (∀ kv, kv ∈ l ↔ ∃ d t, kv = (prefix ++ d, le_bytes 8 (u64 t)) ∧ last_time h d = Some t) as Hel.
  { intros [k v]. rewrite He. split.
    - intros [Hp Hv]. apply Hstore in Hv as (d & t & -> & Hd & ->); [|done]. eauto.
    - intros (d & t & [= -> ->] & Hd). split; [apply has_prefix_app|]. apply Hstore; [apply has_prefix_app|]. eauto. }
  assert (∀ d t, (d, t) ∈ f <$> l ↔ last_time h d = Some t) as Hfl.
  { intros d t. rewrite list_elem_of_fmap. split.
    - intros (kv' & E & (d' & t' & -> & Hd)%Hel). rewrite Hf in E by done. congruence.
    - intros Hd. eexists. split; [|apply Hel; eauto]. by rewrite Hf. }
  exists (f <$> l). split; [|split].
  - unfold NewChecker, kv_IteratePrefix. cbn [ck_trie]. rewrite Hit, run_iter_values. apply reload_built.
    intros kv' (d & t & -> & Hd)%Hel. rewrite Hf by done. split; [by eapply last_time_range|done].
  - apply Forall_forall. intros [d t] Hd%Hfl%last_time_elem. unfold literals, marks in Hl. rewrite Forall_fmap, Forall_forall in Hl.
    apply list_elem_of_fmap in Hd as ([d' x] & -> & Hin). by apply (Hl _ Hin).
  - intros q. apply option_eq. intros t. rewrite latest_marks by done. split.
    + intros (d & Hq & Hd%Hfl)%latest_sound. eauto.
    + intros (d & <- & Hd). apply Hfl in Hd as Hin. destruct (latest_complete _ _ _ Hin) as [t' Ht']. rewrite Ht'.
      apply latest_sound in Ht' as (d' & Hq & Hd'%Hfl). f_equal.
      assert (d' = d) as -> by (apply Hs; [by eapply last_time_elem..|done]). congruence.
Qed.

(** C37: a restart restores the marks.  After any history of purges (whose
    directories are not written in two ways), a checker made from the store
    marks the same objects as the one that was running. *)
Theorem restart_restores {B} kv prefix h id (m : Metadata B) :
  (∀ k, has_prefix prefix k = true → pb_view kv !! k = None) →
  literals (marks h) → same_dir h → Forall (λ kv, in_i64 (unix kv.2)) h →
  Marked (NewChecker compile (ck_kv (purges h (NewChecker compile kv prefix))) prefix) id m
  = Marked (purges h (NewChecker compile kv prefix)) id m.
Proof.
  intros Hempty Hl Hs Ht. set (c0 := NewChecker compile kv prefix).
  assert (ck_trie c0 = NewPathTrie) as Hc0 by (by apply NewChecker_empty).
  destruct (purges_trie h c0 Hc0) as [Htrie _].
  destruct (reload_marks (ck_kv (purges h c0)) prefix h) as (l & Htrie2 & Hl2 & He); [done..|by apply (purges_store h c0)|].
  unfold Marked. rewrite Htrie, Htrie2, !search_built by done.
  by rewrite (spec_search_ext (latest l) (latest (marks h))) by (intros; apply He).
Qed.
End restart.

(** ** The middleware over a wrapped bucket *)

Section middleware.
Context {D B S : Type} `{PebbleOps D} `{BitmapOps B} `{BucketOps B S}.
Variable opt : cachingOption.
Variable soft_ttl : Z → Z → Z.

Lemma unix_before now : unix (now - Second) = unix now - 1.
Proof. unfold unix. replace (now - Second) with (now + (-1) * Second) by lia. by rewrite Z.div_add. Qed.

Lemma before_expired now : (unix now - 1) * Second <? now = true.
Proof.
  apply Z.ltb_lt. unfold unix, Second. pose proof (Z.mul_div_le now 1000000000). lia.
Qed.

(** a purged directory is never served from the cache.  Over a wrapped
    bucket, the middleware's lookup of a marked object that is no Vary index
    returns and is not a hit, and it starts no background refresh: the request
    goes upstream. *)
Theorem marked_never_hit now trigger (ck : checker D) (s : S) req (m : Metadata B) :
  let id := newObjectIDFromRequest req [] (IncludeQueryInCacheKey opt) in
  fst (bk_lookup s id) = Some m → Marked ck id m = true → IsVary m = false → md_BlockSize m ≠ 0 →
  ∃ c, preCacheProcessor (H0 := wrapped_bucket now ck) opt soft_ttl now trigger s req = Some (c, false)
  ∧ c_hit c = false.
Proof.
  intros id Hm Hk Hv Hb. destruct (bk_lookup s id) as [md s'] eqn:El. cbn [fst] in Hm. subst md.
  eapply (expired_not_hit (H0 := wrapped_bucket now ck)).
  - cbn [bk_lookup wrapped_bucket]. fold id. unfold wrapped_Lookup. by rewrite El, Hk.
  - unfold hasExpired. cbn [md_ExpiresAt md_with_times]. rewrite unix_before. apply before_expired.
  - done.
  - done.
Qed.
End middleware.

(** ** Concrete purges *)

Definition da_store : checker (gmap (list ascii) (list ascii)) := NewChecker (λ _, None) ∅ (bs "dir/").
Definition da_purge (now : Z) (dir : str) (c : checker (gmap (list ascii) (list ascii))) :=
  TrieAdd (λ _, None) (now * Second) c dir.
(** An object below [http://h/a/b/] stored at the given time. *)
Definition da_id : ID := mkID (bs "http://h/a/b/c") [] (bs "hash") [].
Definition da_md (resp : Z) : Metadata N := mkMetadata 0 da_id 4 0%N 0%N 200 10 resp resp 0 9000 ∅ [].

Lemma dir_purge_marks_witness : Marked (da_purge 20 (bs "http://h/a/") da_store) da_id (da_md 20) = true
  ∧ Marked (da_purge 20 (bs "http://h/x/") da_store) da_id (da_md 20) = Marked da_store da_id (da_md 20).
Proof.
  split.
  - destruct (dir_purge_marks (λ _, None) (20 * Second) da_store [] (bs "http://h/a/") da_id (da_md 20)) as [_ Hm].
    + reflexivity.
    + apply (bool_decide_eq_true_1 _). vm_compute. reflexivity.
    + transitivity (md_RespUnix (da_md 20) <=? unix (20 * Second)); [|vm_compute; reflexivity].
      apply (Hm [bs "b"; bs "c"]); [|vm_compute; reflexivity|done].
      intros q v. cbn [latest app fold_left]. case_decide as E; [subst q|done]. intros _.
      apply (bool_decide_eq_true_1 _). vm_compute. reflexivity.
  - apply (dir_purge_marks (λ _, None) (20 * Second) da_store [] (bs "http://h/x/") da_id (da_md 20)).
    + reflexivity.
    + apply (bool_decide_eq_true_1 _). vm_compute. reflexivity.
    + intros (pre & suf & E & HF). vm_compute in HF, E. repeat (apply Forall2_cons_inv_l in HF as (? & ? & ? & HF & ->)).
      apply Forall2_nil_inv_l in HF as ->. simplify_eq. unfold part_matches in *. naive_solver.
Defined.

Lemma restart_restores_witness :
  let c := purges (λ _, None) [(bs "http://h/a/", 20 * Second); (bs "http://h/x/", 30 * Second)] da_store in
  Marked (NewChecker (λ _, None) (ck_kv c) (bs "dir/")) da_id (da_md 5) = Marked c da_id (da_md 5).
Proof.
  apply (restart_restores (λ _, None) ∅ (bs "dir/")
    [(bs "http://h/a/", 20 * Second); (bs "http://h/x/", 30 * Second)] da_id (da_md 5)).
  - intros k _. exact (lookup_empty (M:=gmap (list ascii)) (A:=list ascii) k).
  - apply (bool_decide_eq_true_1 _). vm_compute. reflexivity.
  - intros d d' Hd Hd'. cbn [fmap list_fmap fst] in Hd, Hd'.
    apply elem_of_cons in Hd as [-> |Hd]; [|apply list_elem_of_singleton in Hd as ->];
      (apply elem_of_cons in Hd' as [-> |Hd']; [|apply list_elem_of_singleton in Hd' as ->]);
      intros E; try reflexivity; vm_compute in E; discriminate E.
  - repeat (apply Forall_cons; split; [vm_compute; split; discriminate|]). apply Forall_nil_2.
Defined.

Definition da_req : Request :=
  mkReq (bs "GET") (bs "http") (bs "h") (bs "/a/b/c") (bs "http://h/a/b/c") ∅ None None None.

Lemma marked_never_hit_witness :
  ∃ c, preCacheProcessor (H0 := wrapped_bucket (40 * Second) (da_purge 20 (bs "http://h/a/") da_store))
         vp_opt (λ _ e, e) (40 * Second) true
         (<[id_hash (newObjectIDFromRequest da_req [] false) := da_md 10]> (∅ : gmap (list ascii) (Metadata N))) da_req
       = Some (c, false) ∧ c_hit c = false.
Proof.
  apply (marked_never_hit vp_opt (λ _ e, e) (40 * Second) true (da_purge 20 (bs "http://h/a/") da_store)
    (<[id_hash (newObjectIDFromRequest da_req [] false) := da_md 10]> (∅ : gmap (list ascii) (Metadata N))) da_req (da_md 10)).
  - vm_compute. reflexivity.
  - vm_compute. reflexivity.
  - reflexivity.
  - discriminate.
Defined.

(** an older purge of a subdirectory hides a newer purge of its parent.
    After a purge of [http://h/a/b/] and a later one of [http://h/a/], an object
    below both that was stored between the two is not marked: the search stops at
    the longest directory, and its time is the older one. *)
Theorem nested_purge_hidden t1 t2 (m : Metadata N) : t1 < md_RespUnix m → md_RespUnix m <= t2 →
  Marked (da_purge t2 (bs "http://h/a/") (da_purge t1 (bs "http://h/a/b/") da_store)) da_id m = false
  ∧ Marked (da_purge t2 (bs "http://h/a/") da_store) da_id m = true.
Proof.
  intros H1 H2. unfold Marked, da_purge, TrieAdd. cbn [ck_trie]. unfold unix.
  rewrite !Z.div_mul by done. set (a := bs "http://h/a/"). set (b := bs "http://h/a/b/").
  replace (Search (id_path da_id) (Insert (λ _, None) a t2 (Insert (λ _, None) b t1 (ck_trie da_store)))) with (Some t1)
    by reflexivity.
  replace (Search (id_path da_id) (Insert (λ _, None) a t2 (ck_trie da_store))) with (Some t2) by reflexivity.
  split; lia.
Qed.

Lemma nested_purge_hidden_witness :
  Marked (da_purge 20 (bs "http://h/a/") (da_purge 10 (bs "http://h/a/b/") da_store)) da_id (da_md 15) = false.
Proof. apply (nested_purge_hidden 10 20 (da_md 15)); vm_compute; [reflexivity|discriminate]. Defined.

(** One directory written in two ways: the restart brings the older time back. *)
Example restart_older_time :
  let c := da_purge 20 (bs "http://h/a") (da_purge 10 (bs "http://h/a/") da_store) in
  Marked c da_id (da_md 15) = true ∧ Marked (NewChecker (λ _, None) (ck_kv c) (bs "dir/")) da_id (da_md 15) = false.
Proof. by vm_compute. Qed.
