(* ===== verification/IndexDb.v ===== *)
(** * The index database: storage/indexdb/pebble

    Metadata encoded with a codec in a pebble database.  The codec is a
    parameter: it reads back what it wrote for metadata whose identifier was made
    by [NewID] or [NewVirtualID] (the identifier is encoded as its two strings,
    see [Object], and its hash is computed again). *)

From S2P Require Import Prelude GoStrings GoSort Headers Blocks Object CachingState SharedKv.

Inductive index_error := KeyNotFound | DatabaseError (e : db_error) | DecodeError.

(** [Codec]; a failed encoding is an error of [Set]. *)
Class MetaCodec (B : Type) := {
  cd_marshal : Metadata B → option str;
  cd_unmarshal : str → option (Metadata B) }.

Class CodecLaws (B : Type) `{MetaCodec B} :=
  codec_round_trip : ∀ m : Metadata B, id_wf (md_ID m) → ∃ buf, cd_marshal m = Some buf ∧ cd_unmarshal buf = Some m.

Section index.
Context {D B : Type} `{PebbleOps D} `{MetaCodec B}.
Implicit Types d : D.

Definition index_Get d (key : str) : result index_error (Metadata B) :=
  match pb_get d key with
  | Err DbNotFound => Err KeyNotFound
  | Err e => Err (DatabaseError e)
  | Ok buf => match cd_unmarshal buf with Some m => Ok m | None => Err DecodeError end
  end.

Definition index_Set d (key : str) (m : Metadata B) : result index_error D :=
  match cd_marshal m with
  | None => Err DecodeError
  | Some buf => match pb_set d key buf with Ok d' => Ok d' | Err e => Err (DatabaseError e) end
  end.

Definition index_Delete d (key : str) : result index_error D :=
  match pb_delete d key with Ok d' => Ok d' | Err e => Err (DatabaseError e) end.

Definition index_Exist d (key : str) : bool := match pb_get d key with Ok _ => true | Err _ => false end.

(** [Iterate] with [skipErrRecord], which [New] always sets: every key is
    visited (the prefix is not used), a record that cannot be read or decoded is
    skipped, and the answer of the callback is ignored. *)
Definition index_Iterate {A} d (f : A → str → Metadata B → A) (s : A) : result index_error A :=
  match pb_iter d [] None with
  | Err e => Err (DatabaseError e)
  | Ok l => Ok (run_iter (λ s k v, match cd_unmarshal v with Some m => f s k m | None => s end) l s)
  end.
End index.

(** ** Lemmas *)

Section index_lemmas.
Context {D B : Type} `{PebbleLaws D} `{CodecLaws B}.
Implicit Types d : D.

(** The metadata the index holds. *)
Definition index_view d : gmap (list ascii) (Metadata B) := omap cd_unmarshal (pb_view d).

(** Every record can be decoded. *)
Definition db_clean d : Prop := ∀ k v, pb_view d !! k = Some v → is_Some (cd_unmarshal (B := B) v).

Lemma index_Exist_view d k : db_clean d → index_Exist d k = bool_decide (is_Some (index_view d !! k)).
Proof.
  intros Hc. unfold index_Exist, index_view. rewrite pb_get_view, lookup_omap.
  destruct (pb_view d !! k) as [v|] eqn:E; simpl.
  - symmetry. apply bool_decide_eq_true_2. by eapply Hc.
  - done.
Qed.

Lemma index_Get_view d k : match index_view d !! k with
  | Some m => index_Get d k = Ok m
  | None => ∃ e, index_Get (B := B) d k = Err e
  end.
Proof.
  unfold index_Get, index_view. rewrite pb_get_view, lookup_omap. destruct (pb_view d !! k) as [buf|]; simpl; [|eauto].
  destruct (cd_unmarshal buf); eauto.
Qed.

Lemma index_Set_view d k (m : Metadata B) : id_wf (md_ID m) →
  ∃ d', index_Set d k m = Ok d' ∧ index_view d' = <[k := m]> (index_view d) ∧ (db_clean d → db_clean d').
Proof.
  intros Hw. unfold index_Set. destruct (codec_round_trip m Hw) as (buf & -> & Hb).
  destruct (pb_set_view d k buf) as (d' & -> & Hv). exists d'. split; [done|].
  unfold index_view, db_clean. rewrite Hv. split; [by rewrite (omap_insert_Some _ _ _ _ m)|].
  intros Hc j v. rewrite lookup_insert_Some. intros [[_ <-]|[_ ?]]; [by rewrite Hb|by eapply Hc].
Qed.

Lemma index_Delete_view d k : ∃ d', index_Delete d k = Ok d' ∧ index_view d' = delete k (index_view d)
  ∧ (db_clean d → db_clean d').
Proof.
  unfold index_Delete. destruct (pb_delete_view d k) as (d' & -> & Hv). exists d'. split; [done|].
  unfold index_view, db_clean. rewrite Hv. split; [apply omap_delete|].
  intros Hc j v. rewrite lookup_delete_Some. intros [_ ?]. by eapply Hc.
Qed.

(** The iteration as a fold over the metadata of the index, each entry once. *)
Lemma index_entries d : ∃ l : list (str * Metadata B),
  (∀ A (f : A → str → Metadata B → A) s, index_Iterate d f s = Ok (fold_left (λ s km, f s km.1 km.2) l s))
  ∧ NoDup (l.*1) ∧ ∀ k m, (k, m) ∈ l ↔ index_view d !! k = Some m.
Proof.
  destruct (prefix_pairs d []) as (l & Hl & _ & Hnd & He). change (keyUpperBound []) with (@None str) in Hl.
  exists (omap (λ kv, (kv.1,.) <$> cd_unmarshal kv.2) l). split; [|split].
  - intros A f s. unfold index_Iterate. rewrite Hl, run_iter_values. f_equal. clear Hl He Hnd. revert s.
    induction l as [|[k v] l IH]; intros s; simpl; [done|]. destruct (cd_unmarshal v); simpl; apply IH.
  - clear Hl He. induction l as [|[k v] l IH]; cbn [omap list_omap fmap list_fmap fst snd] in *; [done|]. apply NoDup_cons in Hnd as [Hk Hnd].
    destruct (cd_unmarshal v); cbn [fmap option_fmap option_map list_fmap fst]; [|by apply IH]. apply NoDup_cons. split; [|by apply IH].
    intros ([k' m'] & -> & Hin)%list_elem_of_fmap. apply list_elem_of_omap in Hin as ([k2 v2] & Hin & E). cbn [fst snd] in E, Hk.
    destruct (cd_unmarshal v2); simplify_eq/=. apply Hk, list_elem_of_fmap. by exists (k', v2).
  - intros k m. rewrite list_elem_of_omap. unfold index_view. rewrite lookup_omap, bind_Some. split.
    + intros ([k' v] & Hin & E). apply He in Hin as [_ Hv]. simpl in E. destruct (cd_unmarshal v) eqn:Ev; simplify_eq/=. by exists v.
    + intros (v & Hv & Ev). exists (k, v). rewrite He. simpl. by rewrite Ev.
Qed.

Lemma index_fold d : ∃ l : list (str * Metadata B),
  (∀ A (f : A → str → Metadata B → A) s, index_Iterate d f s = Ok (fold_left (λ s km, f s km.1 km.2) l s))
  ∧ ∀ k m, (k, m) ∈ l ↔ index_view d !! k = Some m.
Proof. destruct (index_entries d) as (l & ? & _ & ?). by exists l. Qed.
End index_lemmas.
