(* ===== verification/DiskBucket.v ===== *)
(** * The disk and the memory bucket: storage/bucket

    A bucket keeps the metadata of its objects in an index database, the use of
    each object in the LFU cache of [Lfu], the chunks in files, and for directory
    purges an entry per object and a counter per domain in the shared store.  The
    evictions of the cache wait in a channel until the eviction goroutine takes
    them.  [url.Parse] (its host) and the verdict of the promotion sketch are
    parameters.

    Proved: the operations of a bucket over databases that do not fail implement
    the index the middleware relies on (an instance of its interface); a discard
    terminates, removes the object, its variants, their chunk files and their
    entries in the shared store, and no file of another object; a migration moves
    an object with all its chunks, and a failed one leaves the source as it was.
    In the memory bucket a discarded object still exists by the cache. *)

From S2P Require Import Prelude GoStrings GoSort Headers Blocks Object CacheControl CachingState.
From S2P Require Import SharedKv Lfu IndexDb.

Section bucket.
Context {D K B : Type} `{PebbleOps D} `{PebbleOps K} `{BitmapOps B} `{MetaCodec B}.

(** The host of a URL; [None] if it does not parse. *)
Variable url_host : str → option str.

(** The drivers of [bucketMap]. *)
Inductive driver := Native | Memory | Empty.

#[export] Instance driver_eq_dec : EqDecision driver.
Proof. solve_decision. Defined.

(** The configuration of a bucket: the driver, [StoreType] and [ID]. *)
Record bucket_conf := mkConf { bc_driver : driver; bc_type : str; bc_path : str }.

Record bucket := mkBucket {
  b_conf : bucket_conf; b_db : D; b_kv : K; b_cache : Cache (K := list ascii) (V := Z);
  b_files : gmap (list ascii) (list ascii); b_evicted : list (list ascii * Z) }.

Implicit Types d : bucket.

Definition b_driver d : driver := bc_driver (b_conf d).
Definition b_type d : str := bc_type (b_conf d).
Definition b_path d : str := bc_path (b_conf d).

(** The queue of evictions holds 100 entries, and an entry that finds it full is
    dropped; the memory bucket has no queue. *)
Definition queue_evictions d (ev : list (list ascii * Z)) : list (list ascii * Z) :=
  match b_driver d with Native => take 100 (b_evicted d ++ ev) | _ => b_evicted d end.

Definition b_with_db d x := mkBucket (b_conf d) x (b_kv d) (b_cache d) (b_files d) (b_evicted d).
Definition b_with_kv d x := mkBucket (b_conf d) (b_db d) x (b_cache d) (b_files d) (b_evicted d).
Definition b_with_cache d x ev := mkBucket (b_conf d) (b_db d) (b_kv d) x (b_files d) (queue_evictions d ev).
Definition b_with_files d x := mkBucket (b_conf d) (b_db d) (b_kv d) (b_cache d) x (b_evicted d).

(** Keys of the shared store. *)
Definition domain_prefix : str := bs "if/domain/".
Definition ix_prefix : str := bs "ix/".
Definition ix_key d (id : ID) : str := ix_prefix ++ b_path d ++ ["/"%char] ++ Key id.

(** [Incr] or [Decr] of the counter of the domain; errors are ignored, and
    [None] is the panic of a counter that is too short. *)
Definition count_domain (op : K → str → Z → option (result db_error (Z * K))) (kv : K) (path : str) : option K :=
  match url_host path with
  | None => Some kv
  | Some host =>
      match op kv (domain_prefix ++ host) 1 with
      | None => None
      | Some (Ok (_, kv')) => Some kv'
      | Some (Err _) => Some kv
      end
  end.

(** The entries an object has in the shared store. *)
Definition kv_register d (id : ID) : option bucket :=
  (λ kv, b_with_kv d (match kv_Set kv (ix_key d id) (id_hash id) with Ok kv' => kv' | Err _ => kv end))
  <$> count_domain kv_Incr (b_kv d) (id_path id).

Definition kv_unregister d (id : ID) : option bucket :=
  let kv := match kv_Delete (b_kv d) (ix_key d id) with Ok kv' => kv' | Err _ => b_kv d end in
  b_with_kv d <$> count_domain kv_Decr kv (id_path id).

(** ** disk.go *)

(** [touch] at the second [now]; the second component says that a promotion is
    started.  [hot] is the verdict of the sketch when migration is on. *)
Definition touch (now : Z) (hasMigration : bool) (hot : ID → bool) d (id : ID) : option (bucket * bool) :=
  match Lfu.Get (b_cache d) (id_hash id) with
  | (None, _) => Some (d, false)
  | (Some mark, cache) =>
      if LastAccess mark <=? 0 then Some (b_with_cache d cache [], false)
      else
        let mark := SetLastAccess mark now in
        let mark := SetRefs mark (Refs mark + 1) in
        match Lfu.Set_ cache (id_hash id) mark with
        | None => None
        | Some (ev, cache) => Some (b_with_cache d cache ev, hasMigration && hot id)
        end
  end.

Definition disk_Lookup (now : Z) (hasMigration : bool) (hot : ID → bool) d (id : ID)
    : option (result index_error (Metadata B) * bucket * bool) :=
  match index_Get (b_db d) (id_hash id) with
  | Err e => Some (Err e, d, false)
  | Ok m => (λ '(d, promote), (Ok m, d, promote)) <$> touch now hasMigration hot d id
  end.

Definition drop_internal (m : Metadata B) : Metadata B :=
  md_with_headers m (fold_left (λ h k, header_del k h) internal_headers (md_Headers m)).

Definition disk_Store d (m : Metadata B) : option (option index_error * bucket) :=
  let m := drop_internal m in
  let h := id_hash (md_ID m) in
  match (if Lfu.Has (b_cache d) h then Some ([], b_cache d)
         else Lfu.Set_ (b_cache d) h (NewMark (md_LastRefUnix m) (md_Refs m))) with
  | None => None
  | Some (ev, cache) =>
      let d := b_with_cache d cache ev in
      match index_Set (b_db d) h m with
      | Err e => Some (Some e, d)
      | Ok db => (None,.) <$> kv_register (b_with_db d db) (md_ID m)
      end
  end.

(** [discard]: the index entry first, then the variants of a Vary index, then
    the chunk files and the entries of the shared store.  [rec] is [Discard]. *)
Definition discard_variants (rec : bucket → ID → option (option index_error * bucket)) d (m : Metadata B) : option bucket :=
  fold_left (λ od varyKey,
    d ← od;
    let oid := NewVirtualID (id_path (md_ID m)) varyKey in
    if equal_fold (HashStr oid) (HashStr (md_ID m)) then Some d else snd <$> rec d oid)
    (md_VirtualKey m) (Some d).

Definition remove_chunks d (m : Metadata B) : bucket :=
  b_with_files d (fold_left (λ fs i, delete (WPathSlice (md_ID m) (b_path d) i) fs) (bm_range (md_Chunks m)) (b_files d)).

Definition discard (rec : bucket → ID → option (option index_error * bucket)) d (m : Metadata B)
    : option (option index_error * bucket) :=
  let d := match index_Delete (b_db d) (id_hash (md_ID m)) with Ok db => b_with_db d db | Err _ => d end in
  d ← (if IsVary m && negb (bool_decide (md_VirtualKey m = [])) then discard_variants rec d m else Some d);
  (None,.) <$> kv_unregister (remove_chunks d m) (md_ID m).

(** Every level of the recursion removes an entry of the index: the size of the
    index is enough fuel. *)
Fixpoint Discard (fuel : nat) d (id : ID) : option (option index_error * bucket) :=
  match fuel with
  | O => None
  | S fuel' =>
      match index_Get (b_db d) (id_hash id) with
      | Err e => Some (Some e, d)
      | Ok m => discard (Discard fuel') d m
      end
  end.

(** [DiscardWithHash] reads the entry under the hash. *)
Definition DiscardWithHash (fuel : nat) d (hash : str) : option (option index_error * bucket) :=
  match index_Get (b_db d) hash with
  | Err e => Some (Some e, d)
  | Ok m => discard (Discard fuel) d m
  end.

Definition disk_Exist d (key : str) : bool := index_Exist (b_db d) key.

Definition disk_Remove d (id : ID) : option index_error * bucket :=
  match index_Delete (b_db d) (id_hash id) with Ok db => (None, b_with_db d db) | Err e => (Some e, d) end.

(** A chunk file that is written and closed.  On disk a temporary file is
    renamed; in memory an existing file is opened and written from its start, and
    what it holds beyond is kept; the empty bucket refuses. *)
Definition mem_write_chunk d (id : ID) (index : Z) (data : str) : bucket :=
  let path := WPathSlice id (b_path d) index in
  let old := match b_files d !! path with Some x => x | None => [] end in
  b_with_files d (<[path := data ++ drop (length data) old]> (b_files d)).

Definition write_chunk d (id : ID) (index : Z) (data : str) : option bucket :=
  match b_driver d with
  | Native => Some (b_with_files d (<[WPathSlice id (b_path d) index := data]> (b_files d)))
  | Memory => Some (mem_write_chunk d id index data)
  | Empty => None
  end.
Definition ReadChunkFile d (id : ID) (index : Z) : option str := b_files d !! WPathSlice id (b_path d) index.

(** One metadata entry that [loadLRU] finds at the start. *)
Definition load_entry (od : option bucket) (m : Metadata B) : option bucket :=
  d ← od;
  match Lfu.Set_ (b_cache d) (id_hash (md_ID m)) (NewMark (md_LastRefUnix m) (md_Refs m)) with
  | None => None
  | Some (ev, cache) => kv_register (b_with_cache d cache ev) (md_ID m)
  end.

Definition loadLRU d : option bucket :=
  match index_Iterate (b_db d) (λ od _ m, load_entry od m) (Some d) with Ok od => od | Err _ => Some d end.

(** ** memory.go *)

(** The entry of the cache is always set anew, after the index. *)
Definition mem_Store d (m : Metadata B) : option (option index_error * bucket) :=
  match index_Set (b_db d) (id_hash (md_ID m)) m with
  | Err e => Some (Some e, d)
  | Ok db =>
      match Lfu.Set_ (b_cache d) (id_hash (md_ID m)) (NewMark (md_LastRefUnix m) (md_Refs m)) with
      | None => None
      | Some (ev, cache) => (None,.) <$> kv_register (b_with_cache (b_with_db d db) cache ev) (md_ID m)
      end
  end.

Definition mem_Lookup d (id : ID) : result index_error (Metadata B) := index_Get (b_db d) (id_hash id).
Definition mem_Touch (now : Z) d (id : ID) : option bucket := fst <$> touch now false (λ _, false) d id.
Definition mem_Exist d (key : str) : bool := Lfu.Has (b_cache d) key.
Definition mem_Remove d (id : ID) : bucket := d.
Definition mem_Discard (fuel : nat) d (id : ID) : option (option index_error * bucket) := Discard fuel d id.

(** ** Any bucket *)

Definition b_Store d (m : Metadata B) : option (option index_error * bucket) :=
  match b_driver d with Native => disk_Store d m | Memory => mem_Store d m | Empty => Some (None, d) end.

Definition b_Lookup (now : Z) (hasMigration : bool) (hot : ID → bool) d (id : ID)
    : option (result index_error (Metadata B) * bucket * bool) :=
  match b_driver d with
  | Native => disk_Lookup now hasMigration hot d id
  | Memory => Some (mem_Lookup d id, d, false)
  | Empty => Some (Err KeyNotFound, d, false)
  end.

Definition b_Exist d (key : str) : bool :=
  match b_driver d with Native => disk_Exist d key | Memory => mem_Exist d key | Empty => false end.

(** [DiscardWithMessage] and [DiscardWithMetadata] call [Discard]. *)
Definition b_Discard (fuel : nat) d (id : ID) : option (option index_error * bucket) :=
  match b_driver d with Native => Discard fuel d id | Memory => mem_Discard fuel d id | Empty => Some (None, d) end.

Definition b_DiscardWithHash (fuel : nat) d (hash : str) : option (option index_error * bucket) :=
  match b_driver d with Empty => Some (None, d) | _ => DiscardWithHash fuel d hash end.

Definition b_Iterate {A} d (f : A → Metadata B → A) (s : A) : result index_error A :=
  match b_driver d with Empty => Ok s | _ => index_Iterate (b_db d) (λ s _ m, f s m) s end.

(** [Migrate] of the disk and of the memory bucket: the chunks are copied in
    order up to the first that cannot be read or written; then the metadata is
    stored, then the source is discarded.  The two buckets have one shared store:
    the one of the source. *)
Inductive migrate_error := IndexFailed (e : index_error) | ChunkFailed (i : Z).

Fixpoint copy_chunks (src dst : bucket) (id : ID) (chunks : list Z) : option Z * bucket :=
  match chunks with
  | [] => (None, dst)
  | i :: rest =>
      match ReadChunkFile src id i with
      | None => (Some i, dst)
      | Some data =>
          match write_chunk dst id i data with
          | None => (Some i, dst)
          | Some dst => copy_chunks src dst id rest
          end
      end
  end.

Definition disk_Migrate (fuel : nat) (src dst : bucket) (id : ID) : option (option migrate_error * bucket * bucket) :=
  match index_Get (b_db src) (id_hash id) with
  | Err e => Some (Some (IndexFailed e), src, dst)
  | Ok m =>
      match copy_chunks src (b_with_kv dst (b_kv src)) id (bm_range (md_Chunks m)) with
      | (Some i, dst) => Some (Some (ChunkFailed i), src, dst)
      | (None, dst) =>
          match b_Store dst m with
          | None => None
          | Some (e, dst) =>
              let src := b_with_kv src (b_kv dst) in
              match e with
              | Some e => Some (Some (IndexFailed e), src, dst)
              | None =>
                  match discard (Discard fuel) src m with
                  | None => None
                  | Some (e, src) => Some (option_map IndexFailed e, src, b_with_kv dst (b_kv src))
                  end
              end
          end
      end
  end.

(** The memory bucket has the same steps. *)
Definition mem_Migrate : nat → bucket → bucket → ID → option (option migrate_error * bucket * bucket) := disk_Migrate.

Definition Migrate (fuel : nat) (src dst : bucket) (id : ID) : option (option migrate_error * bucket * bucket) :=
  match b_driver src with
  | Empty => Some (None, src, dst)
  | Memory => mem_Migrate fuel src dst id
  | Native => disk_Migrate fuel src dst id
  end.
End bucket.
Arguments bucket D K : clear implicits.

(** ** The state of a bucket *)

Section theorems.
Context {D K B : Type} `{PebbleLaws D} `{PebbleLaws K} `{BitmapOps B} `{CodecLaws B}.
Variable url_host : str → option str.
Implicit Types d : bucket D K.

Definition b_index d : gmap (list ascii) (Metadata B) := index_view (b_db d).
Definition b_shared d : gmap (list ascii) (list ascii) := pb_view (b_kv d).

(** Every record of the index can be decoded and is filed under its own hash, the cache is well formed, and the
    counters of the domains are four bytes long. *)
Definition bucket_ok d : Prop :=
  (db_clean (B := B) (b_db d) ∧ ∀ k m, b_index d !! k = Some m → k = id_hash (md_ID m) ∧ id_wf (md_ID m))
  ∧ wf (b_cache d)
  ∧ (∀ k v, has_prefix domain_prefix k = true → b_shared d !! k = Some v → length v = 4%nat).

Lemma put_be32_length n : length (put_be32 n) = 4%nat.
Proof. unfold put_be32. by rewrite length_rev, le_bytes_length. Qed.

Lemma ix_not_domain d id : has_prefix domain_prefix (ix_key d id) = false.
Proof. unfold ix_key. by destruct (b_path d). Qed.

Lemma domain_not_ix x : has_prefix ix_prefix (domain_prefix ++ x) = false.
Proof. done. Qed.

(** A change of the shared store that keeps the counters well formed. *)
Definition shared_ok (kv : gmap (list ascii) (list ascii)) : Prop :=
  ∀ k v, has_prefix domain_prefix k = true → kv !! k = Some v → length v = 4%nat.

Lemma count_domain_ok op (kv : K) path : shared_ok (pb_view kv) →
  op = kv_Incr ∨ op = kv_Decr →
  ∃ kv', count_domain url_host op kv path = Some kv' ∧ shared_ok (pb_view kv')
  ∧ ∀ k, has_prefix ix_prefix k = true → pb_view kv' !! k = pb_view kv !! k.
Proof.
  intros Hok Hop. unfold count_domain. destruct (url_host path) as [host|]; [|by exists kv].
  assert (∃ n, counter_of kv (domain_prefix ++ host) = Some n) as [n Hn].
  { unfold counter_of. rewrite pb_get_view. destruct (pb_view kv !! _) as [v|] eqn:E; [|eauto]. unfold be32.
    rewrite (Hok _ v (has_prefix_app _ _) E). simpl. eauto. }
  assert (∃ x, op kv (domain_prefix ++ host) 1 = Some (put_counter kv (domain_prefix ++ host) x)) as [x ->].
  { destruct Hop as [-> | ->]; unfold kv_Incr, kv_Decr; rewrite Hn; simpl; eauto. }
  unfold put_counter. destruct (pb_set_view kv (domain_prefix ++ host) (put_be32 x)) as (kv' & -> & Hv).
  exists kv'. split; [done|]. split.
  - intros k v Hk. rewrite Hv. destruct (decide (k = domain_prefix ++ host)) as [->|Hne].
    + rewrite lookup_insert_eq. intros [= <-]. apply put_be32_length.
    + rewrite lookup_insert_ne by done. by apply Hok.
  - intros k Hk. rewrite Hv, lookup_insert_ne; [done|]. intros <-. by rewrite domain_not_ix in Hk.
Qed.

Lemma kv_register_ok d id : bucket_ok d → ∃ d', kv_register url_host d id = Some d' ∧ bucket_ok d'
  ∧ b_index d' = b_index d ∧ b_cache d' = b_cache d ∧ b_files d' = b_files d ∧ b_conf d' = b_conf d
  ∧ ∀ k, has_prefix ix_prefix k = true → b_shared d' !! k = <[ix_key d id := id_hash id]> (b_shared d) !! k.
Proof.
  intros (Hi & Hc & Hk). unfold kv_register.
  destruct (count_domain_ok kv_Incr (b_kv d) (id_path id)) as (kv & -> & Hok & Hix); [done|by left|]. simpl. unfold kv_Set.
  destruct (pb_set_view kv (ix_key d id) (id_hash id)) as (kv' & -> & Hv).
  eexists. split; [reflexivity|]. split; [|do 4 (split; [done|])].
  - split; [done|]. split; [done|]. intros k v Hp. unfold b_shared. simpl. rewrite Hv.
    destruct (decide (k = ix_key d id)) as [->|Hne]; [by rewrite ix_not_domain in Hp|].
    rewrite lookup_insert_ne by done. by apply Hok.
  - intros k Hp. unfold b_shared. simpl. rewrite Hv, !lookup_insert. case_decide; [done|]. by apply Hix.
Qed.

Lemma kv_unregister_ok d id : bucket_ok d → ∃ d', kv_unregister url_host d id = Some d' ∧ bucket_ok d'
  ∧ b_index d' = b_index d ∧ b_cache d' = b_cache d ∧ b_files d' = b_files d ∧ b_conf d' = b_conf d
  ∧ ∀ k, has_prefix ix_prefix k = true → b_shared d' !! k = delete (ix_key d id) (b_shared d) !! k.
Proof.
  intros (Hi & Hc & Hk). unfold kv_unregister, kv_Delete.
  destruct (pb_delete_view (b_kv d) (ix_key d id)) as (kv & -> & Hv).
  destruct (count_domain_ok kv_Decr kv (id_path id)) as (kv' & -> & Hok & Hix); [|by right|].
  { intros k v Hp. rewrite Hv, lookup_delete_Some. intros [_ ?]. by eapply Hk. }
  eexists. split; [reflexivity|]. split; [done|]. do 4 (split; [done|]). unfold b_shared. simpl.
  intros k Hp. by rewrite Hix, Hv.
Qed.
(** ** Discards *)

Definition chunk_file d (m : Metadata B) (p : str) : Prop :=
  ∃ i, i ∈ bm_range (md_Chunks m) ∧ p = WPathSlice (md_ID m) (b_path d) i.

(** From [d] to [d'] some objects were removed completely: the index, the files
    and the directory entries only shrink; of an object that is gone nothing is
    left; and a file that is gone belonged to such an object. *)
Record removed d d' : Prop := {
  rm_conf : b_conf d' = b_conf d;
  rm_cache : b_cache d' = b_cache d;
  rm_index : b_index d' ⊆ b_index d;
  rm_files : b_files d' ⊆ b_files d;
  rm_shared : ∀ k, has_prefix ix_prefix k = true → b_shared d' !! k = b_shared d !! k
    ∨ b_shared d' !! k = None ∧ ∃ h m, b_index d !! h = Some m ∧ b_index d' !! h = None ∧ k = ix_key d (md_ID m);
  rm_gone : ∀ k m, b_index d !! k = Some m → b_index d' !! k = None →
    (∀ p, chunk_file d m p → b_files d' !! p = None) ∧ b_shared d' !! ix_key d (md_ID m) = None;
  rm_own : ∀ p x, b_files d !! p = Some x → b_files d' !! p = None →
    ∃ k m, b_index d !! k = Some m ∧ b_index d' !! k = None ∧ chunk_file d m p }.

Lemma removed_refl d : removed d d.
Proof. split; try done; intros; first [congruence|by left]. Qed.

Lemma conf_path d d' : b_conf d' = b_conf d → b_path d' = b_path d.
Proof. intros E. unfold b_path. by rewrite E. Qed.

Lemma rm_path d d' : removed d d' → b_path d' = b_path d.
Proof. intros R. apply conf_path, R. Qed.

Lemma ix_key_path d d' id : b_path d' = b_path d → ix_key d' id = ix_key d id.
Proof. intros E. unfold ix_key. by rewrite E. Qed.

Lemma ix_key_prefix d id : has_prefix ix_prefix (ix_key d id) = true.
Proof. apply has_prefix_app. Qed.

Lemma subset_None {A} (x y : gmap (list ascii) A) k : x ⊆ y → y !! k = None → x !! k = None.
Proof. intros Hs Hn. destruct (x !! k) eqn:E; [|done]. by rewrite (lookup_weaken _ _ _ _ E Hs) in Hn. Qed.

Lemma removed_trans d1 d2 d3 : removed d1 d2 → removed d2 d3 → removed d1 d3.
Proof.
  intros R S. assert (∀ m p, chunk_file d2 m p ↔ chunk_file d1 m p) as Hcf
    by (intros; unfold chunk_file; by rewrite (rm_path _ _ R)).
  split.
  - by rewrite (rm_conf _ _ S), (rm_conf _ _ R).
  - by rewrite (rm_cache _ _ S), (rm_cache _ _ R).
  - etrans; [apply S|apply R].
  - etrans; [apply S|apply R].
  - intros k Hk. destruct (rm_shared _ _ S k Hk) as [->|(Hn & h & m & Hh & Hh' & ->)].
    + destruct (rm_shared _ _ R k Hk) as [->|(Hn & h & m & Hh & Hh' & ->)]; [by left|]. right. split; [done|].
      exists h, m. split; [done|]. split; [|done]. eapply subset_None; [apply S|done].
    + right. split; [done|]. exists h, m. split; [by eapply lookup_weaken, R|]. split; [done|].
      apply ix_key_path, rm_path, R.
  - intros k m Hm Hn. destruct (b_index d2 !! k) as [m2|] eqn:E.
    + assert (m2 = m) as -> by (pose proof (lookup_weaken _ _ _ _ E (rm_index _ _ R)); congruence).
      destruct (rm_gone _ _ S k m E Hn) as [Hp Hi]. rewrite <-(ix_key_path d1 d2) by apply rm_path, R. split; [|done].
      intros p Hcp. apply Hp. by apply Hcf.
    + destruct (rm_gone _ _ R k m Hm E) as [Hp Hi]. split.
      * intros p Hcp. eapply subset_None; [apply S|]. by apply Hp.
      * destruct (rm_shared _ _ S (ix_key d1 (md_ID m)) (ix_key_prefix _ _)) as [->|[-> _]]; done.
  - intros p x Hx Hn. destruct (b_files d2 !! p) as [y|] eqn:E.
    + destruct (rm_own _ _ S p y E Hn) as (k & m & Hm & Hm' & Hc). exists k, m. split; [|split; [done|by apply Hcf]].
      eapply lookup_weaken; [done|apply R].
    + destruct (rm_own _ _ R p x Hx E) as (k & m & Hm & Hm' & Hc). exists k, m. split; [done|split; [|done]].
      eapply subset_None; [apply S|done].
Qed.

Lemma delete_all_lookup {A} (l : list Z) (f : Z → str) (fs : gmap (list ascii) A) p :
  fold_left (λ fs i, delete (f i) fs) l fs !! p = if decide (p ∈ f <$> l) then None else fs !! p.
Proof.
  revert fs. induction l as [|i l IH]; intros fs; cbn [fold_left].
  { case_decide as E; [by apply elem_of_nil in E|done]. }
  rewrite IH. destruct (decide (p = f i)) as [->|Hne].
  - rewrite lookup_delete_eq. destruct (decide (f i ∈ f <$> i :: l)) as [|Hn]; [by case_decide|].
    exfalso. apply Hn. by left.
  - rewrite lookup_delete_ne by done. destruct (decide (p ∈ f <$> l)) as [Hin|Hin].
    + by rewrite decide_True by (by right).
    + rewrite decide_False; [done|]. by intros [?|?]%elem_of_cons.
Qed.

Lemma remove_chunks_files d m p :
  b_files (remove_chunks d m) !! p = None ∧ chunk_file d m p
  ∨ b_files (remove_chunks d m) !! p = b_files d !! p ∧ ¬ chunk_file d m p.
Proof.
  unfold remove_chunks. cbn [b_files b_with_files]. rewrite delete_all_lookup.
  assert (p ∈ (λ i, WPathSlice (md_ID m) (b_path d) i) <$> bm_range (md_Chunks m) ↔ chunk_file d m p) as Hcf.
  { rewrite list_elem_of_fmap. unfold chunk_file. naive_solver. }
  case_decide; [left|right]; naive_solver.
Qed.

(** The steps of a discard after the index entry is deleted. *)
Lemma finish_discard d d1 d2 m : bucket_ok d → bucket_ok d2 → b_index d !! id_hash (md_ID m) = Some m →
  b_conf d1 = b_conf d → b_cache d1 = b_cache d → b_index d1 = delete (id_hash (md_ID m)) (b_index d) →
  b_files d1 = b_files d → b_shared d1 = b_shared d → removed d1 d2 →
  ∃ d3, kv_unregister url_host (remove_chunks d2 m) (md_ID m) = Some d3 ∧ bucket_ok d3 ∧ removed d d3
  ∧ b_index d3 = b_index d2.
Proof.
  intros Hok Hok2 Hm E1 E2 E3 E4 E5 R.
  destruct (kv_unregister_ok (remove_chunks d2 m) (md_ID m)) as (d3 & -> & Hok3 & F1 & F2 & F3 & F4 & F5); [done|].
  exists d3. split; [done|]. split; [done|]. split; [|done].
  change (b_index (remove_chunks d2 m)) with (b_index d2) in F1. change (b_cache (remove_chunks d2 m)) with (b_cache d2) in F2.
  change (b_conf (remove_chunks d2 m)) with (b_conf d2) in F4. change (b_shared (remove_chunks d2 m)) with (b_shared d2) in F5.
  assert (b_conf d2 = b_conf d) as Hc2 by (by rewrite (rm_conf _ _ R)). pose proof (conf_path _ _ Hc2) as Hp2.
  rewrite (ix_key_path d (remove_chunks d2 m)) in F5 by done.
  assert (∀ m' p, chunk_file d2 m' p ↔ chunk_file d m' p) as C2 by (intros; unfold chunk_file; by rewrite Hp2).
  assert (∀ m' p, chunk_file d1 m' p ↔ chunk_file d m' p) as C1 by (intros; unfold chunk_file; by rewrite (conf_path _ _ E1)).
  assert (b_index d3 ⊆ delete (id_hash (md_ID m)) (b_index d)) as Hsub by (rewrite F1, <-E3; apply R).
  assert (b_files d3 ⊆ b_files d2) as Hfs.
  { rewrite F3. apply map_subseteq_spec. intros p x Hx. destruct (remove_chunks_files d2 m p) as [[? _]|[<- _]]; congruence. }
  split.
  - by rewrite F4.
  - rewrite F2, (rm_cache _ _ R). done.
  - etrans; [apply Hsub|apply delete_subseteq].
  - etrans; [apply Hfs|]. rewrite <-E4. apply R.
  - intros k Hk. rewrite F5 by done. rewrite lookup_delete. case_decide as Ek.
    { right. split; [done|]. exists (id_hash (md_ID m)), m. split; [done|]. split; [|done].
      eapply subset_None; [apply Hsub|apply lookup_delete_eq]. }
    destruct (rm_shared _ _ R k Hk) as [->|(Hn & h & mh & Hh & Hh' & Eh)]; [left; by rewrite E5|]. right. split; [done|].
    exists h, mh. rewrite E3, lookup_delete_Some in Hh. split; [apply Hh|]. rewrite F1. split; [done|].
    by rewrite Eh, (ix_key_path d d1) by by apply conf_path.
  - intros k mk Hmk Hn. destruct (decide (k = id_hash (md_ID m))) as [->|Hne].
    + assert (mk = m) as -> by congruence. split; [|rewrite F5 by apply ix_key_prefix; apply lookup_delete_eq].
      intros p Hcp. rewrite F3.
      destruct (remove_chunks_files d2 m p) as [[? _]|[_ Hno]]; [done|]. exfalso. apply Hno, C2, Hcp.
    + assert (b_index d1 !! k = Some mk) as Hk1 by (by rewrite E3, lookup_delete_ne).
      destruct (rm_gone _ _ R k mk Hk1) as [Hp Hi]; [by rewrite <-F1|]. split.
      * intros p Hcp. eapply subset_None; [apply Hfs|]. apply Hp, C1, Hcp.
      * rewrite (ix_key_path d d1) in Hi by by apply conf_path. rewrite F5 by apply ix_key_prefix. by apply lookup_delete_None; right.
  - intros p x Hx Hn. destruct (remove_chunks_files d2 m p) as [[_ Hcp]|[Hf Hno]].
    + exists (id_hash (md_ID m)), m. split; [done|]. split; [|by apply C2].
      eapply subset_None; [apply Hsub|apply lookup_delete_eq].
    + assert (b_files d2 !! p = None) as Hn2 by (by rewrite <-Hf, <-F3). rewrite <-E4 in Hx.
      destruct (rm_own _ _ R p x Hx Hn2) as (k & mk & Hk & Hk' & Hc). exists k, mk. rewrite E3 in Hk.
      apply lookup_delete_Some in Hk as [_ Hk]. split; [done|]. split; [by rewrite F1|by apply C1].
Qed.
(** The variants of [m] that are not filed under the hash of [m] itself. *)
Definition variant_of (m : Metadata B) (k : str) : Prop :=
  ∃ vk, vk ∈ md_VirtualKey m ∧ k = id_hash (NewVirtualID (id_path (md_ID m)) vk)
  ∧ equal_fold (HashStr (NewVirtualID (id_path (md_ID m)) vk)) (HashStr (md_ID m)) = false.

(** An object with its variants, and theirs. *)
Inductive family (index : gmap (list ascii) (Metadata B)) : str → str → Prop :=
| family_self k : family index k k
| family_variant k m v k' : index !! k = Some m → IsVary m = true → variant_of m v → family index v k' → family index k k'.

Lemma family_mono i1 i2 k k' : i1 ⊆ i2 → family i1 k k' → family i2 k k'.
Proof. intros Hs. induction 1 as [|k m v k' Hk]; [constructor|]. econstructor; [by eapply lookup_weaken|done..]. Qed.

(** With an entry its variants are gone. *)
Definition closed d d' : Prop := ∀ k m v, b_index d !! k = Some m → b_index d' !! k = None →
  IsVary m = true → variant_of m v → b_index d' !! v = None.

Lemma closed_refl d : closed d d.
Proof. intros k m v Hk Hn. congruence. Qed.

Lemma closed_trans d1 d2 d3 : removed d1 d2 → removed d2 d3 → closed d1 d2 → closed d2 d3 → closed d1 d3.
Proof.
  intros R S C1 C2 k m v Hk Hn Hv Hm. destruct (b_index d2 !! k) as [m2|] eqn:E.
  - assert (m2 = m) as -> by (pose proof (lookup_weaken _ _ _ _ E (rm_index _ _ R)); congruence). by eapply C2.
  - eapply subset_None; [apply S|]. by eapply C1.
Qed.

(** The family of the entry [root] is gone, and no other entry. *)
Definition swept d d' (root : str) : Prop :=
  b_index d' !! root = None ∧ (∀ k, b_index d' !! k = b_index d !! k ∨ family (b_index d) root k) ∧ closed d d'.

Lemma swept_family d d' root k : swept d d' root → family (b_index d) root k → b_index d' !! k = None.
Proof. intros (Hr & _ & Hc) Hf. induction Hf as [|k m v k' Hk Hv Hm Hf IH]; [done|]. by eapply IH, Hc. Qed.

(** What [Discard] promises of an identifier. *)
Definition discards (rec : bucket D K → ID → option (option index_error * bucket D K)) (n : nat) : Prop :=
  ∀ d oid, bucket_ok d → (size (b_index d) < n)%nat →
  ∃ e d', rec d oid = Some (e, d') ∧ bucket_ok d' ∧ removed d d' ∧ swept d d' (id_hash oid).

Lemma discard_variants_ok rec n d m : discards rec n → bucket_ok d → (size (b_index d) < n)%nat →
  ∃ d', discard_variants rec d m = Some d' ∧ bucket_ok d' ∧ removed d d' ∧ (∀ k, variant_of m k → b_index d' !! k = None)
  ∧ closed d d' ∧ ∀ k, b_index d' !! k = b_index d !! k ∨ ∃ v, variant_of m v ∧ family (b_index d) v k.
Proof.
  intros Hrec Hok Hn. unfold discard_variants, variant_of. generalize (md_VirtualKey m). intros vks.
  revert d Hok Hn. induction vks as [|vk vks IH]; intros d Hok Hn; cbn [fold_left mbind option_bind].
  { exists d. split_and!; [done|done|apply removed_refl| |apply closed_refl|by left]. intros k (vk & Hin & _). by apply elem_of_nil in Hin. }
  destruct (equal_fold _ _) eqn:Eq.
  - destruct (IH d Hok Hn) as (d' & -> & Hok' & R & Hv & Hc & Hs). exists d'. split_and!; [done|done|done| |done|].
    + intros k (vk' & [->|Hin]%elem_of_cons & -> & Hne); [congruence|]. apply Hv. by exists vk'.
    + intros k. destruct (Hs k) as [?|(v & (vk' & Hin & Hvk) & Hf)]; [by left|right]. exists v. split; [|done]. exists vk'. split; [by right|done].
  - destruct (Hrec d (NewVirtualID (id_path (md_ID m)) vk) Hok Hn) as (e & d1 & -> & Hok1 & R1 & Hg & Hs1 & Hc1). simpl.
    destruct (IH d1 Hok1) as (d' & -> & Hok' & R & Hv & Hc & Hs).
    { pose proof (map_subseteq_size _ _ (rm_index _ _ R1)). lia. }
    exists d'. split_and!; [done|done|by eapply removed_trans| |by eapply closed_trans|].
    + intros k (vk' & [->|Hin]%elem_of_cons & -> & Hne); [|apply Hv; by exists vk']. eapply subset_None; [apply R|done].
    + intros k. destruct (Hs k) as [->|(v & (vk' & Hin & Hvk) & Hf)].
      * destruct (Hs1 k) as [->|Hf]; [by left|right]. eexists. split; [|exact Hf]. exists vk. split; [by left|done].
      * right. exists v. split; [exists vk'; split; [by right|done]|]. eapply family_mono; [apply R1|done].
Qed.

(** The entry goes first, then its variants, if it has any. *)
Lemma discard_sweeps rec n d d1 m : discards rec n → bucket_ok d1 → b_index d !! id_hash (md_ID m) = Some m →
  (size (b_index d) <= n)%nat → b_index d1 = delete (id_hash (md_ID m)) (b_index d) →
  ∃ d2, (if IsVary m && negb (bool_decide (md_VirtualKey m = [])) then discard_variants rec d1 m else Some d1) = Some d2
  ∧ bucket_ok d2 ∧ removed d1 d2 ∧ swept d d2 (id_hash (md_ID m)) ∧ (IsVary m = false → d2 = d1).
Proof.
  intros Hrec Hok1 Hm Hn Hi1.
  assert (∃ d2, (if IsVary m && negb (bool_decide (md_VirtualKey m = [])) then discard_variants rec d1 m else Some d1) = Some d2
    ∧ bucket_ok d2 ∧ removed d1 d2 ∧ (IsVary m = true → ∀ k, variant_of m k → b_index d2 !! k = None) ∧ closed d1 d2
    ∧ (∀ k, b_index d2 !! k = b_index d1 !! k ∨ ∃ v, IsVary m = true ∧ variant_of m v ∧ family (b_index d1) v k)
    ∧ (IsVary m = false → d2 = d1)) as (d2 & -> & Hok2 & R & Hv & Hc & Hs & Hnv).
  { assert (IsVary m = false ∨ md_VirtualKey m = [] → bucket_ok d1 ∧ removed d1 d1 ∧ (IsVary m = true → ∀ k, variant_of m k → b_index d1 !! k = None)
      ∧ closed d1 d1 ∧ (∀ k, b_index d1 !! k = b_index d1 !! k ∨ ∃ v, IsVary m = true ∧ variant_of m v ∧ family (b_index d1) v k)) as Hno.
    { intros Hno. split_and!; [done|apply removed_refl| |apply closed_refl|by left].
      intros Ev k (vk & Hin & _). destruct Hno as [?|Evk]; [congruence|]. rewrite Evk in Hin. by apply elem_of_nil in Hin. }
    destruct (IsVary m) eqn:Ev; cbn [andb].
    - case_bool_decide as Evk; cbn [negb]; [exists d1; split; [done|]; destruct Hno as (? & ? & ? & ? & ?); by auto|].
      destruct (discard_variants_ok rec n d1 m Hrec Hok1) as (d2 & -> & ? & ? & ? & ? & Hs).
      + assert (size (b_index d) ≠ 0)%nat by (apply (map_size_ne_0_lookup_2 _ (id_hash (md_ID m))); eauto).
        rewrite Hi1, map_size_delete_Some by eauto. lia.
      + exists d2. split_and!; try done. intros k. destruct (Hs k) as [?|(v & ? & ?)]; [by left|right; eauto].
    - exists d1. split; [done|]. destruct Hno as (? & ? & ? & ? & ?); by auto. }
  assert (b_index d2 !! id_hash (md_ID m) = None) as Hroot by (eapply subset_None; [apply R|]; rewrite Hi1; apply lookup_delete_eq).
  exists d2. split_and!; try done. split_and!; [done| |].
  - intros k. destruct (Hs k) as [->|(v & Ev & Hvk & Hf)].
    + rewrite Hi1. destruct (decide (k = id_hash (md_ID m))) as [->|]; [right; constructor|left; by apply lookup_delete_ne].
    + right. econstructor; [exact Hm|done|exact Hvk|]. eapply family_mono; [|exact Hf]. rewrite Hi1. apply delete_subseteq.
  - intros k mk v Hk Hkn Ev Hvk. destruct (decide (k = id_hash (md_ID m))) as [->|Hne].
    + assert (mk = m) as -> by congruence. by apply Hv.
    + eapply Hc; [|exact Hkn|done|done]. by rewrite Hi1, lookup_delete_ne.
Qed.

Lemma discard_ok rec n d m : discards rec n → bucket_ok d → b_index d !! id_hash (md_ID m) = Some m →
  (size (b_index d) <= n)%nat →
  ∃ d', discard url_host rec d m = Some (None, d') ∧ bucket_ok d' ∧ removed d d' ∧ swept d d' (id_hash (md_ID m))
  ∧ (IsVary m = false → b_index d' = delete (id_hash (md_ID m)) (b_index d)).
Proof.
  intros Hrec Hok Hm Hn. unfold discard.
  destruct (index_Delete_view (B := B) (b_db d) (id_hash (md_ID m))) as (db & -> & Hdb & Hcl).
  set (d1 := b_with_db d db). assert (b_index d1 = delete (id_hash (md_ID m)) (b_index d)) as Hi1 by done.
  assert (bucket_ok d1) as Hok1.
  { destruct Hok as ([Hcd Hi] & Hc & Hk). split; [|done]. split; [by apply Hcl|].
    intros k mk. rewrite Hi1, lookup_delete_Some. intros [_ ?]. by apply Hi. }
  destruct (discard_sweeps rec n d d1 m Hrec Hok1 Hm Hn Hi1) as (d2 & -> & Hok2 & R & Hs & Hnv).
  cbn [mbind option_bind].
  destruct (finish_discard d d1 d2 m) as (d3 & -> & Hok3 & R3 & E3); [done..|]. simpl.
  exists d3. split; [done|]. split; [done|]. split; [done|]. unfold swept, closed in *. rewrite E3. split; [done|].
  intros Ev. by rewrite (Hnv Ev).
Qed.

Lemma Discard_discards fuel : discards (Discard url_host fuel) fuel.
Proof.
  induction fuel as [|fuel IH]; intros d id Hok Hn; [lia|]. cbn [Discard].
  pose proof (index_Get_view (B := B) (b_db d) (id_hash id)) as Hg. fold (b_index d) in Hg.
  destruct (b_index d !! id_hash id) as [m|] eqn:Em.
  - rewrite Hg. pose proof (proj2 (proj1 Hok) _ _ Em) as [Ek _]. rewrite Ek in Em |- *.
    destruct (discard_ok (Discard url_host fuel) fuel d m) as (d' & -> & ? & ? & ? & _); [done|done|done|lia|]. by exists None, d'.
  - destruct Hg as [e ->]. exists (Some e), d. split; [done|]. split; [done|]. split; [apply removed_refl|].
    split; [done|]. split; [by left|apply closed_refl].
Qed.

(** C14: a discard leaves nothing of the object and takes nothing else.  With fuel for the
    size of the index it terminates; the entries that are gone are the object, its
    variants if it is a Vary index, and theirs, and every other entry is unchanged; of
    every object that is gone the chunk files and the directory entry are gone; every
    file that is gone was a chunk of one of these objects; and it fails exactly if the object
    was not there. *)
Theorem discard_leaves_nothing d id : bucket_ok d →
  ∃ e d', Discard url_host (S (size (b_index d))) d id = Some (e, d') ∧ bucket_ok d' ∧ removed d d'
  ∧ (e = None ↔ is_Some (b_index d !! id_hash id))
  ∧ (∀ k, family (b_index d) (id_hash id) k → b_index d' !! k = None)
  ∧ (∀ k, ¬ family (b_index d) (id_hash id) k → b_index d' !! k = b_index d !! k)
  ∧ (∀ p x, b_files d !! p = Some x → b_files d' !! p = None →
       ∃ k m, family (b_index d) (id_hash id) k ∧ b_index d !! k = Some m ∧ chunk_file d m p)
  ∧ (∀ m, b_index d !! id_hash id = Some m → IsVary m = false → b_index d' = delete (id_hash id) (b_index d)).
Proof.
  intros Hok. destruct (Discard_discards (S (size (b_index d))) d id Hok) as (e & d' & E & Hok' & R & Hs); [lia|].
  exists e, d'. split; [done|]. split; [done|]. split; [done|]. pose proof Hs as (Hroot & Hother & _). split_and!.
  - cbn [Discard] in E. pose proof (index_Get_view (B := B) (b_db d) (id_hash id)) as Hg. fold (b_index d) in Hg.
    destruct (b_index d !! id_hash id) as [m|] eqn:Em.
    + rewrite Hg in E. pose proof (proj2 (proj1 Hok) _ _ Em) as [Ek _]. rewrite Ek in Em.
      destruct (discard_ok (Discard url_host (size (b_index d))) (size (b_index d)) d m)
        as (d2 & E2 & _); [apply Discard_discards|done|done|lia|]. by simplify_eq.
    + destruct Hg as [e' He']. rewrite He' in E. simplify_eq. split; [done|]. by intros [? ?].
  - intros k. by apply swept_family.
  - intros k Hk. by destruct (Hother k).
  - intros p x Hx Hn. destruct (rm_own _ _ R p x Hx Hn) as (k & m & Hm & Hm' & Hc). exists k, m.
    destruct (Hother k) as [Heq|Hf]; [congruence|done].
  - intros m Hm Hv. apply map_eq. intros k. destruct (decide (k = id_hash id)) as [->|Hne]; [by rewrite lookup_delete_eq|].
    rewrite lookup_delete_ne by done. destruct (Hother k) as [?|Hf]; [done|].
    inversion Hf as [|? m' v ? Hk Hv' _ _]; subst; [done|]. congruence.
Qed.

(** ** Storing, looking up and touching *)

Lemma touch_ok now mig hot d id : bucket_ok d → ∃ d' promote, touch now mig hot d id = Some (d', promote) ∧ bucket_ok d'
  ∧ b_index d' = b_index d ∧ b_files d' = b_files d ∧ b_conf d' = b_conf d ∧ b_kv d' = b_kv d.
Proof.
  intros (Hi & Hc & Hk). unfold touch. pose proof (Get_wf (b_cache d) (id_hash id) Hc) as Hc1.
  destruct (Lfu.Get (b_cache d) (id_hash id)) as [[mark|] cache]; simpl in Hc1; [|by exists d, false].
  case_if; [by eexists _, false|].
  destruct (Set_wf cache (id_hash id) (SetRefs (SetLastAccess mark now) (Refs (SetLastAccess mark now) + 1)) Hc1)
    as (ev & cache' & -> & Hc2 & _).
  by eexists _, _.
Qed.

Lemma drop_internal_headers m k : canonical_key k ∉ internal_headers →
  header_values k (md_Headers (drop_internal m : Metadata B)) = header_values k (md_Headers m).
Proof.
  intros Hk. unfold drop_internal, header_values. cbn [md_Headers md_with_headers]. rewrite fold_del_lookup.
  assert (map canonical_key internal_headers = internal_headers) as -> by (by vm_compute).
  by rewrite bool_decide_eq_false_2.
Qed.

(** What any store does to the index and to the shared store. *)
Definition stores (m m' : Metadata B) d d' : Prop :=
  bucket_ok d' ∧ b_index d' = <[id_hash (md_ID m) := m']> (b_index d) ∧ b_files d' = b_files d ∧ b_conf d' = b_conf d
  ∧ ∀ k, has_prefix ix_prefix k = true → b_shared d' !! k = <[ix_key d (md_ID m) := id_hash (md_ID m)]> (b_shared d) !! k.

Lemma index_store_ok d db cache ev m m' : bucket_ok d → id_wf (md_ID m) → md_ID m' = md_ID m → wf cache →
  index_view db = <[id_hash (md_ID m) := m']> (b_index d) → db_clean (B := B) db →
  ∃ d', kv_register url_host (b_with_db (b_with_cache d cache ev) db) (md_ID m) = Some d' ∧ stores m m' d d'.
Proof.
  intros ([Hcd Hi] & Hc & Hk) Hw Eid Hc' Hdb Hcl.
  destruct (kv_register_ok (b_with_db (b_with_cache d cache ev) db) (md_ID m)) as (d' & -> & Hok & E1 & _ & E3 & E4 & E5).
  { split; [|by split]. split; [done|]. intros k mk. unfold b_index. cbn [b_db b_with_db]. rewrite Hdb, lookup_insert_Some.
    intros [[<- <-]|[_ ?]]; [by rewrite Eid|by apply Hi]. }
  exists d'. split; [done|]. split; [done|]. rewrite E1, E3, E4. by split.
Qed.

Lemma disk_Store_ok d m : bucket_ok d → id_wf (md_ID m) →
  ∃ d', disk_Store url_host d m = Some (None, d') ∧ stores m (drop_internal m) d d'.
Proof.
  intros Hok Hw. pose proof Hok as ([Hcd Hi] & Hc & Hk). unfold disk_Store. change (md_ID (drop_internal m)) with (md_ID m).
  assert (∃ ev cache, (if Lfu.Has (b_cache d) (id_hash (md_ID m)) then Some ([], b_cache d)
    else Lfu.Set_ (b_cache d) (id_hash (md_ID m)) (NewMark (md_LastRefUnix (drop_internal m)) (md_Refs (drop_internal m))))
    = Some (ev, cache) ∧ wf cache) as (ev & cache & -> & Hc').
  { destruct (Lfu.Has _ _); [by exists [], (b_cache d)|].
    destruct (Set_wf (b_cache d) (id_hash (md_ID m)) (NewMark (md_LastRefUnix (drop_internal m)) (md_Refs (drop_internal m))) Hc)
      as (ev & cache & -> & ? & _). by exists ev, cache. }
  destruct (index_Set_view (b_db (b_with_cache d cache ev)) (id_hash (md_ID m)) (drop_internal m)) as (db & -> & Hdb & Hcl); [done|].
  destruct (index_store_ok d db cache ev m (drop_internal m)) as (d' & -> & HS); [done..|by apply Hcl|]. by exists d'.
Qed.

Lemma mem_Store_ok d m : bucket_ok d → id_wf (md_ID m) →
  ∃ d', mem_Store url_host d m = Some (None, d') ∧ stores m m d d'.
Proof.
  intros Hok Hw. pose proof Hok as ([Hcd Hi] & Hc & Hk). unfold mem_Store.
  destruct (index_Set_view (b_db d) (id_hash (md_ID m)) m) as (db & -> & Hdb & Hcl); [done|].
  destruct (Set_wf (b_cache d) (id_hash (md_ID m)) (NewMark (md_LastRefUnix m) (md_Refs m)) Hc) as (ev & cache & -> & Hc' & _).
  destruct (index_store_ok d db cache ev m m) as (d' & HR & HS); [done..|by apply Hcl|]. exists d'. split; [|done].
  by change (b_with_cache (b_with_db d db) cache ev) with (b_with_db (b_with_cache d cache ev) db); rewrite HR.
Qed.

(** ** The index the middleware relies on *)

#[export] Instance id_wf_dec id : Decision (id_wf id).
Proof. unfold id_wf. apply _. Defined.

(** Buckets in a good state. *)
Record good_bucket := mkGood { gb : bucket D K; gb_ok : bucket_ok gb }.

Definition good_run (o : option (bucket D K)) (s : good_bucket) (Hp : ∀ d', o = Some d' → bucket_ok d') : good_bucket :=
  match o as x return o = x → good_bucket with
  | Some d' => λ E, mkGood d' (Hp d' E)
  | None => λ _, s
  end eq_refl.

Lemma good_run_eq o s Hp d' : o = Some d' → gb (good_run o s Hp) = d'.
Proof. intros ->. done. Qed.
Section instance.
Variable now : Z.
Variable hasMigration : bool.
Variable hot : ID → bool.

Lemma lookup_run_ok s id d' : (λ x, snd (fst x)) <$> disk_Lookup (B := B) now hasMigration hot (gb s) id = Some d' → bucket_ok d'.
Proof.
  unfold disk_Lookup. destruct (index_Get _ _) as [m|e]; [|intros [= <-]; apply gb_ok].
  destruct (touch_ok now hasMigration hot (gb s) id (gb_ok s)) as (d1 & p & -> & Hok & _). by intros [= <-].
Qed.

Lemma store_run_ok s m d' : id_wf (md_ID m) → snd <$> disk_Store url_host (gb s) m = Some d' → bucket_ok d'.
Proof.
  intros Hw. destruct (disk_Store_ok (gb s) m (gb_ok s) Hw) as (d1 & -> & Hok & _). by intros [= <-].
Qed.

Lemma discard_run_ok s id d' : snd <$> Discard url_host (S (size (b_index (gb s)))) (gb s) id = Some d' → bucket_ok d'.
Proof.
  destruct (Discard_discards (S (size (b_index (gb s)))) (gb s) id (gb_ok s)) as (e & d1 & -> & Hok & _); [lia|].
  by intros [= <-].
Qed.

Lemma touch_run_ok s id d' : fst <$> touch now hasMigration hot (gb s) id = Some d' → bucket_ok d'.
Proof. destruct (touch_ok now hasMigration hot (gb s) id (gb_ok s)) as (d1 & p & -> & Hok & _). by intros [= <-]. Qed.

(** The operations of the interface; identifiers that no constructor makes do
    not occur. *)
#[export] Instance disk_ops : BucketOps B good_bucket := {
  bk_lookup s id :=
    (match disk_Lookup now hasMigration hot (gb s) id with Some (Ok m, _, _) => Some m | _ => None end,
     good_run _ s (lookup_run_ok s id));
  bk_store s m :=
    match decide (id_wf (md_ID m)) with
    | left Hw => good_run _ s (λ d', store_run_ok s m d' Hw)
    | right _ => s
    end;
  bk_discard s id := good_run _ s (discard_run_ok s id);
  bk_touch s id := good_run _ s (touch_run_ok s id) }.

(** C11: the disk bucket implements the index the middleware relies on: over
    databases that do not fail, every law of the interface holds of its
    operations. *)
Theorem disk_refines_index : ∃ R : ReliableBucket B good_bucket,
  (∀ s, bk_view s = b_index (gb s)) ∧ (∀ m : Metadata B, bk_stored m = drop_internal m).
Proof.
  unshelve eexists.
  { refine {| bk_view := λ s, b_index (gb s); bk_stored := drop_internal |}.
    - done.
    - intros m k. apply drop_internal_headers.
    - intros s id. cbn [bk_lookup disk_ops fst snd].
      pose proof (index_Get_view (B := B) (b_db (gb s)) (id_hash id)) as Hg. fold (b_index (gb s)) in Hg.
      unfold disk_Lookup at 1. destruct (b_index (gb s) !! id_hash id) as [m|] eqn:Em.
      + rewrite Hg. destruct (touch_ok now hasMigration hot (gb s) id (gb_ok s)) as (d1 & p & Et & _ & Ei & _).
        rewrite Et. simpl. split; [done|]. erewrite good_run_eq; [exact Ei|]. unfold disk_Lookup. by rewrite Hg, Et.
      + destruct Hg as [e Hg]. rewrite Hg. split; [done|]. erewrite good_run_eq; [done|]. unfold disk_Lookup. by rewrite Hg.
    - intros s m Hw. cbn [bk_store disk_ops]. destruct (decide (id_wf (md_ID m))) as [Hw'|]; [|done].
      destruct (disk_Store_ok (gb s) m (gb_ok s) Hw) as (d1 & Es & _ & Ei & _). erewrite good_run_eq; [exact Ei|]. by rewrite Es.
    - intros s id. cbn [bk_discard disk_ops].
      destruct (Discard_discards (S (size (b_index (gb s)))) (gb s) id (gb_ok s)) as (e & d1 & Es & _ & R & Hn & _); [lia|].
      erewrite good_run_eq by (by rewrite Es). split; [done|apply R].
    - intros s id. cbn [bk_touch disk_ops].
      destruct (touch_ok now hasMigration hot (gb s) id (gb_ok s)) as (d1 & p & Et & _ & Ei & _).
      erewrite good_run_eq; [exact Ei|]. by rewrite Et. }
  done.
Qed.
End instance.
(** ** Migration *)

Lemma write_chunk_native d id i data : b_driver d = Native →
  write_chunk d id i data = Some (b_with_files d (<[WPathSlice id (b_path d) i := data]> (b_files d))).
Proof. intros E. unfold write_chunk. by rewrite E. Qed.

Lemma copy_chunks_keeps (src dst : bucket D K) (id : ID) (l : list Z) :
  let dst' := snd (copy_chunks src dst id l) in
  b_db dst' = b_db dst ∧ b_kv dst' = b_kv dst ∧ b_cache dst' = b_cache dst ∧ b_conf dst' = b_conf dst
  ∧ ∀ p, p ∉ (WPathSlice id (b_path dst) <$> l) → b_files dst' !! p = b_files dst !! p.
Proof.
  revert dst. induction l as [|i l IH]; intros dst; simpl; [done|]. destruct (ReadChunkFile src id i) as [data|]; [|done].
  destruct (write_chunk dst id i data) as [dst1|] eqn:Ew; [|done].
  assert (∃ x, dst1 = b_with_files dst (<[WPathSlice id (b_path dst) i := x]> (b_files dst))) as [x ->].
  { unfold write_chunk, mem_write_chunk in Ew. destruct (b_driver dst); simplify_eq; eauto. }
  destruct (IH (b_with_files dst (<[WPathSlice id (b_path dst) i := x]> (b_files dst)))) as (E1 & E2 & E3 & E4 & E5).
  split_and!; [done..|]. intros p [Hp Hl]%not_elem_of_cons. rewrite E5 by done. simpl. by rewrite lookup_insert_ne.
Qed.

Lemma copy_chunks_all (src dst : bucket D K) (id : ID) (l : list Z) : b_driver dst = Native →
  length (id_hash id) = 20%nat → Forall in_u32 l → NoDup l →
  (∀ i, i ∈ l → is_Some (ReadChunkFile src id i)) →
  fst (copy_chunks src dst id l) = None
  ∧ ∀ i, i ∈ l → ReadChunkFile (snd (copy_chunks src dst id l)) id i = ReadChunkFile src id i.
Proof.
  intros Hn Hid. revert dst Hn. induction l as [|i l IH]; intros dst Hn Hu Hnd Hr; simpl; [split; [done|by intros i ?%elem_of_nil]|].
  apply NoDup_cons in Hnd as [Hni Hnd]. apply Forall_cons in Hu as [Hi Hu].
  destruct (Hr i) as [data Hd]; [by left|]. rewrite Hd, write_chunk_native by done. set (dst1 := b_with_files dst _).
  destruct (IH dst1) as [Hnone Hsame]; [done..|intros j Hj; apply Hr; by right|]. split; [done|].
  intros j [->|Hj]%elem_of_cons; [|by apply Hsame].
  destruct (copy_chunks_keeps src dst1 id l) as (_ & _ & _ & E4%conf_path & E5).
  rewrite Hd. unfold ReadChunkFile. rewrite E4, E5; [simpl; apply lookup_insert_eq|].
  rewrite list_elem_of_fmap. intros (j & E & Hj). apply WPathSlice_inj in E as [_ ->]; [done..|].
  rewrite Forall_forall in Hu. by apply Hu.
Qed.

Lemma copy_chunks_missing (src dst : bucket D K) (id : ID) (l : list Z) (i : Z) : i ∈ l → ReadChunkFile src id i = None →
  ∃ j, fst (copy_chunks src dst id l) = Some j.
Proof.
  revert dst. induction l as [|k l IH]; intros dst Hin Hi; [by apply elem_of_nil in Hin|]. simpl.
  destruct (ReadChunkFile src id k) as [data|] eqn:Ek; [|by exists k].
  destruct (write_chunk dst id k data); [|by exists k]. apply elem_of_cons in Hin as [->|Hin]; [congruence|]. by apply IH.
Qed.

Lemma with_kv_ok (d d' : bucket D K) : bucket_ok d → bucket_ok d' → bucket_ok (b_with_kv d (b_kv d')).
Proof. intros (Hi & Hc & _) (_ & _ & Hk). split; [done|]. by split. Qed.

Lemma migrate_ok (src dst : bucket D K) (id : ID) (m : Metadata B) (fuel : nat) : bucket_ok src → bucket_ok (b_with_kv dst (b_kv src)) →
  b_driver src ≠ Empty → b_driver dst = Native → b_index src !! id_hash id = Some m →
  Forall in_u32 (bm_range (md_Chunks m)) → NoDup (bm_range (md_Chunks m)) →
  (∀ i, i ∈ bm_range (md_Chunks m) → is_Some (ReadChunkFile src id i)) → (size (b_index src) <= fuel)%nat →
  ∃ src' dst', Migrate url_host fuel src dst id = Some (None, src', dst')
  ∧ bucket_ok src' ∧ bucket_ok dst'
  ∧ (∃ kv, removed (b_with_kv src kv) src') ∧ b_index src' !! id_hash id = None
  ∧ b_index dst' = <[id_hash id := drop_internal m]> (b_index dst)
  ∧ (∀ i, i ∈ bm_range (md_Chunks m) → ReadChunkFile dst' id i = ReadChunkFile src id i)
  ∧ (∀ p, p ∉ (WPathSlice id (b_path dst) <$> bm_range (md_Chunks m)) → b_files dst' !! p = b_files dst !! p)
  ∧ b_kv dst' = b_kv src' ∧ b_conf dst' = b_conf dst.
Proof.
  intros Hs Hd Hse Hdn Hm Hu Hnd Hr Hf. destruct (proj2 (proj1 Hs) _ _ Hm) as [Ek Hw].
  assert (length (id_hash id) = 20%nat) as Hid by (rewrite Ek; by apply id_wf_length).
  pose proof (index_Get_view (B := B) (b_db src) (id_hash id)) as Hg. fold (b_index src) in Hg. rewrite Hm in Hg.
  unfold Migrate, mem_Migrate, disk_Migrate. rewrite Hg. rename Hd into Hd0. set (dst0 := b_with_kv dst (b_kv src)) in *.
  destruct (copy_chunks_keeps src dst0 id (bm_range (md_Chunks m))) as (E1 & E2 & E3 & E4 & E5).
  destruct (copy_chunks_all src dst0 id (bm_range (md_Chunks m)) Hdn Hid Hu Hnd Hr) as [Hnone Hsame].
  destruct (copy_chunks src dst0 id (bm_range (md_Chunks m))) as [o dst1]. simpl in *. subst o.
  assert (b_driver dst1 = Native) as Hdn1 by (unfold b_driver; by rewrite E4). unfold b_Store. rewrite Hdn1.
  destruct (disk_Store_ok dst1 m) as (dst2 & -> & Hok2 & F1 & F2 & F3 & F4); [|done|].
  { unfold bucket_ok, b_index, b_shared. by rewrite E1, E2, E3. }
  pose proof (with_kv_ok src dst2 Hs Hok2) as Hs1. set (src1 := b_with_kv src (b_kv dst2)) in *. rewrite Ek in Hm.
  destruct (discard_ok (Discard url_host fuel) fuel src1 m)
    as (src' & -> & Hs' & R & (Hn & _) & _); [apply Discard_discards|done|done|done|].
  exists src', (b_with_kv dst2 (b_kv src')). split; [by destruct (b_driver src)|]. split; [done|].
  split; [by apply with_kv_ok|]. split; [by exists (b_kv dst2)|]. rewrite Ek. split; [done|].
  change (b_index (b_with_kv dst2 (b_kv src'))) with (b_index dst2). rewrite F1. split; [unfold b_index; by rewrite E1|].
  pose proof (conf_path _ _ F3) as Fp. split; [|split; [intros p Hp; simpl; rewrite F2; by apply E5|]].
  - intros i Hi. rewrite <-Hsame by done. unfold ReadChunkFile. simpl. rewrite F2. by change (b_path (b_with_kv _ _)) with (b_path dst2); rewrite Fp.
  - split; [done|]. simpl. by rewrite F3, E4.
Qed.

(** a migration.  If every chunk of the object can be read, it ends with the
    object, its metadata and all its chunk files in the destination, the same
    bytes under every index, and with nothing of it left in the source; if a
    chunk is missing, it fails with the source unchanged and no entry in the
    index of the destination.  The destination is a disk bucket. *)
Theorem migrate_moves (src dst : bucket D K) (id : ID) (m : Metadata B) : bucket_ok src → bucket_ok dst →
  b_driver src ≠ Empty → b_driver dst = Native → b_index src !! id_hash id = Some m →
  Forall in_u32 (bm_range (md_Chunks m)) → NoDup (bm_range (md_Chunks m)) →
  ((∀ i, i ∈ bm_range (md_Chunks m) → is_Some (ReadChunkFile src id i)) →
    ∃ src' dst', Migrate url_host (size (b_index src)) src dst id = Some (None, src', dst')
    ∧ (∃ kv, removed (b_with_kv src kv) src') ∧ b_index src' !! id_hash id = None
    ∧ b_index dst' = <[id_hash id := drop_internal m]> (b_index dst)
    ∧ (∀ i, i ∈ bm_range (md_Chunks m) → ReadChunkFile dst' id i = ReadChunkFile src id i)
    ∧ (∀ p, p ∉ (WPathSlice id (b_path dst) <$> bm_range (md_Chunks m)) → b_files dst' !! p = b_files dst !! p))
  ∧ (∀ i, i ∈ bm_range (md_Chunks m) → ReadChunkFile src id i = None →
    ∃ j dst', Migrate url_host (size (b_index src)) src dst id = Some (Some (ChunkFailed j), src, dst')
    ∧ b_index dst' = b_index dst).
Proof.
  intros Hs Hd Hse Hdn Hm Hu Hnd. split.
  - intros Hr. destruct (migrate_ok src dst id m (size (b_index src))) as (src' & dst' & HM & _ & _ & ? & ? & ? & ? & ? & _);
      [done|by apply with_kv_ok|done..|]. exists src', dst'. by split_and!.
  - intros i Hi Hn. pose proof (index_Get_view (B := B) (b_db src) (id_hash id)) as Hg. fold (b_index src) in Hg. rewrite Hm in Hg.
    unfold Migrate, mem_Migrate, disk_Migrate. rewrite Hg. destruct (copy_chunks_missing src (b_with_kv dst (b_kv src)) id _ i Hi Hn) as [j Hj].
    destruct (copy_chunks_keeps src (b_with_kv dst (b_kv src)) id (bm_range (md_Chunks m))) as (E1 & _).
    destruct (copy_chunks src (b_with_kv dst (b_kv src)) id (bm_range (md_Chunks m))) as [o dst1]. simpl in *. subst o.
    exists j, dst1. split; [by destruct (b_driver src)|]. unfold b_index. by rewrite E1.
Qed.
End theorems.

(** ** A concrete bucket *)

(** A codec that writes the bits of a number that encodes the metadata. *)
Fixpoint pos_string (p : positive) : str :=
  match p with xH => [] | xO p => "0"%char :: pos_string p | xI p => "1"%char :: pos_string p end.
Fixpoint string_pos (s : str) : positive :=
  match s with [] => xH | b :: s => if Ascii.eqb b "1"%char then xI (string_pos s) else xO (string_pos s) end.

Lemma string_pos_string p : string_pos (pos_string p) = p.
Proof. induction p; simpl; by f_equal. Qed.

Definition md_tuple (m : Metadata N) :=
  ((md_Flags m, (id_path (md_ID m), id_ext (md_ID m)), md_BlockSize m, md_Chunks m, md_Parts m, md_Code m),
   (md_Size m, md_RespUnix m, md_LastRefUnix m, md_Refs m, md_ExpiresAt m, md_Headers m, md_VirtualKey m)).

#[export] Instance N_codec : MetaCodec N := {
  cd_marshal m := Some (pos_string (encode (md_tuple m)));
  cd_unmarshal s :=
    (λ '((f, (p, x), bsz, ch, pa, code), (size, resp, last, refs, expires, h, vk)),
      mkMetadata f (NewVirtualID p x) bsz ch pa code size resp last refs expires h vk) <$> decode (string_pos s) }.

#[export] Instance N_codec_laws : CodecLaws N.
Proof.
  intros m Hw. eexists. split; [reflexivity|]. cbn [cd_unmarshal N_codec]. rewrite string_pos_string, decode_encode.
  cbn [fmap option_fmap option_map md_tuple]. rewrite <-Hw. by destruct m.
Qed.

Notation map_bucket := (bucket (gmap (list ascii) (list ascii)) (gmap (list ascii) (list ascii))).

Definition ex_host (path : str) : option str := Some (bs "h").
Definition ex_bucket (path : str) : map_bucket := mkBucket (mkConf Native (bs "warm") path) ∅ ∅ (Lfu.New 8) ∅ [].
Definition ex_id : ID := NewID (bs "http://h/a").
Definition ex_md (flags : Z) (chunks : N) (vk : list str) (id : ID) : Metadata N :=
  mkMetadata flags id 8 chunks 0%N 200 16 1 1 1 9 ∅ vk.

Definition ex_store (m : Metadata N) (d : map_bucket) : map_bucket :=
  match disk_Store ex_host d m with Some (_, d) => d | None => d end.

Definition ex_write (d : map_bucket) (id : ID) (i : Z) (data : str) : map_bucket :=
  match write_chunk d id i data with Some d => d | None => d end.

(** An object of two chunks; and a Vary index with a variant that has a chunk. *)
Definition ex_full : map_bucket :=
  ex_write (ex_write (ex_store (ex_md 0 3 [] ex_id) (ex_bucket (bs "/c"))) ex_id 0 (bs "12345678")) ex_id 1 (bs "abcdefgh").
Definition ex_variant : ID := NewVirtualID (bs "http://h/a") (bs "#gzip").
Definition ex_vary : map_bucket :=
  ex_write (ex_store (ex_md 0 1 [] ex_variant) (ex_store (ex_md FlagVaryIndex 0 [bs "#gzip"] ex_id) (ex_bucket (bs "/c"))))
    ex_variant 0 (bs "12345678").

Lemma ex_bucket_ok path : bucket_ok (B := N) (ex_bucket path).
Proof. split; [|split; [apply wf_empty|done]]. done. Qed.

Lemma ex_store_ok m d : bucket_ok (B := N) d → id_wf (md_ID m) → bucket_ok (B := N) (ex_store m d).
Proof. intros Hd Hw. unfold ex_store. by destruct (disk_Store_ok ex_host d m Hd Hw) as (d' & -> & ? & _). Qed.

Lemma ex_write_ok d id i data : bucket_ok (B := N) d → bucket_ok (B := N) (ex_write d id i data).
Proof. unfold ex_write, write_chunk, mem_write_chunk. by destruct (b_driver d). Qed.

Lemma virtual_wf path vk : id_wf (NewVirtualID path vk).
Proof. done. Qed.

Lemma ex_id_wf : id_wf ex_id.
Proof. apply (bool_decide_eq_true_1 _). vm_compute. reflexivity. Qed.

Lemma ex_full_ok : bucket_ok (B := N) ex_full.
Proof. do 2 apply ex_write_ok. apply ex_store_ok; [apply ex_bucket_ok|apply ex_id_wf]. Qed.

Lemma ex_vary_ok : bucket_ok (B := N) ex_vary.
Proof.
  apply ex_write_ok, ex_store_ok; [|apply virtual_wf]. apply ex_store_ok; [apply ex_bucket_ok|apply ex_id_wf].
Qed.

Lemma discard_leaves_nothing_witness : ∃ e (d' : map_bucket),
  Discard ex_host (S (size (b_index (B := N) ex_vary))) ex_vary ex_id = Some (e, d')
  ∧ removed (B := N) ex_vary d' ∧ b_index (B := N) d' !! id_hash ex_id = None.
Proof.
  destruct (discard_leaves_nothing (B := N) ex_host ex_vary ex_id ex_vary_ok) as (e & d' & E & _ & R & _ & Hn & _).
  exists e, d'. split; [exact E|]. split; [exact R|]. apply Hn. constructor.
Defined.

(** The discard of the Vary index removes the variant and its chunk file. *)
Example discard_vary_run :
  (λ '(e, d), (bool_decide (e = None), size (b_db d), size (b_files d))) <$> Discard ex_host 3 ex_vary ex_id = Some (true, 0%nat, 0%nat)
  ∧ (size (b_db ex_vary), size (b_files ex_vary)) = (2%nat, 1%nat).
Proof. split; vm_compute; reflexivity. Qed.

Lemma migrate_moves_witness : ∃ src' dst' : map_bucket,
  Migrate ex_host (size (b_index (B := N) ex_full)) ex_full (ex_bucket (bs "/d")) ex_id = Some (None, src', dst')
  ∧ b_index (B := N) src' !! id_hash ex_id = None
  ∧ b_index (B := N) dst' !! id_hash ex_id = Some (ex_md 0 3 [] ex_id)
  ∧ ReadChunkFile dst' ex_id 1 = Some (bs "abcdefgh").
Proof.
  destruct (migrate_moves (B := N) ex_host ex_full (ex_bucket (bs "/d")) ex_id (ex_md 0 3 [] ex_id) ex_full_ok (ex_bucket_ok _))
    as [Hmove _].
  - apply (bool_decide_eq_true_1 _). vm_compute. reflexivity.
  - vm_compute. reflexivity.
  - vm_compute. reflexivity.
  - apply (bool_decide_eq_true_1 _). vm_compute. reflexivity.
  - apply (bool_decide_eq_true_1 _). vm_compute. reflexivity.
  - destruct Hmove as (src' & dst' & E & _ & Hs & Hd & Hc & _).
    + change (bm_range (md_Chunks (ex_md 0 3 [] ex_id))) with [0; 1].
      intros i [->|[->|[]%elem_of_nil]%elem_of_cons]%elem_of_cons; apply (bool_decide_eq_true_1 _); vm_compute; reflexivity.
    + exists src', dst'. split; [exact E|]. split; [exact Hs|]. split.
      * rewrite Hd. rewrite lookup_insert_eq. vm_compute. reflexivity.
      * rewrite Hc; [vm_compute; reflexivity|]. apply list_elem_of_further, list_elem_of_here.
Defined.

Lemma disk_refines_index_witness :
  let ops := disk_ops (D := gmap (list ascii) (list ascii)) (K := gmap (list ascii) (list ascii)) (B := N) ex_host 5 false (λ _, false) in
  ∃ R : @ReliableBucket N _ ops, ∀ m : Metadata N, @bk_stored N _ ops R m = drop_internal m.
Proof.
  intros ops.
  destruct (disk_refines_index (D := gmap (list ascii) (list ascii)) (K := gmap (list ascii) (list ascii)) (B := N) ex_host 5 false (λ _, false))
    as (R & _ & HR).
  exists R. exact HR.
Defined.

(** ** The memory bucket *)

Section memory.
Context {D K B : Type} `{PebbleLaws D} `{PebbleLaws K} `{BitmapOps B} `{CodecLaws B}.
Variable url_host : str → option str.

(** a discard in the memory bucket removes the object from the index but not
    from the cache, and [Exist] asks the cache: afterwards the object is not found
    by a lookup, and it exists as before. *)
Theorem mem_exists_discarded (d : bucket D K) (id : ID) : bucket_ok (B := B) d →
  ∃ e d', mem_Discard (B := B) url_host (S (size (b_index (B := B) d))) d id = Some (e, d')
  ∧ (∃ e', mem_Lookup (B := B) d' id = Err e') ∧ ∀ k, mem_Exist d' k = mem_Exist d k.
Proof.
  intros Hok. destruct (Discard_discards url_host (S (size (b_index (B := B) d))) d id Hok) as (e & d' & E & _ & R & Hn & _); [lia|].
  exists e, d'. split; [exact E|]. split.
  - pose proof (index_Get_view (B := B) (b_db d') (id_hash id)) as Hg. fold (b_index (B := B) d') in Hg. by rewrite Hn in Hg.
  - intros k. unfold mem_Exist. by rewrite (rm_cache _ _ R).
Qed.
End memory.

Lemma mem_exists_discarded_witness : mem_Exist ex_full (id_hash ex_id) = true ∧ ∃ e (d' : map_bucket),
  mem_Discard (B := N) ex_host (S (size (b_index (B := N) ex_full))) ex_full ex_id = Some (e, d')
  ∧ (∃ e', mem_Lookup (B := N) d' ex_id = Err e') ∧ mem_Exist d' (id_hash ex_id) = true.
Proof.
  split; [vm_compute; reflexivity|].
  destruct (mem_exists_discarded (B := N) ex_host ex_full ex_id ex_full_ok) as (e & d' & E & Hl & Hx).
  exists e, d'. split; [exact E|]. split; [exact Hl|]. rewrite Hx. vm_compute. reflexivity.
Defined.
