(* ===== verification/Nuts.v ===== *)
(** * The other index database and the registry: storage/indexdb, storage/indexdb/nutsdb

    Index databases are registered under a name and created by it; nutsdb is the
    second one.  The database is an interface: values, transactions and an iterator, which is a
    list of entries and a position in it.  Where a new iterator stands is left open:
    [nt_start] is the position, [None] the nil iterator.

    Proved: names are found in any case; what is set is read back and nothing else
    changes, a deleted key is gone; which entries an iteration visits, with
    and without a prefix. *)

From S2P Require Import Prelude GoStrings GoSort Headers Blocks Object CachingState SharedKv IndexDb DiskBucket.

(** ** The registry *)

Section registry.
Context {F : Type}.

Definition createTypedName (name : str) : str := bs "tavern.indexdb." ++ to_lower name.
Definition Register (r : gmap (list ascii) F) (name : str) (factory : F) : gmap (list ascii) F := <[createTypedName name := factory]> r.

(** The factory that is called with the path of the option; [None] is the error. *)
Definition Create (r : gmap (list ascii) F) (name : str) : option F := r !! createTypedName name.

(** a database is found under its name in any case, the factory registered
    last under it; a name that differs otherwise finds what it found before. *)
Theorem registry_any_case r name factory other :
  Create (Register r name factory) other = if bool_decide (to_lower other = to_lower name) then Some factory else Create r other.
Proof.
  unfold Create, Register, createTypedName. case_bool_decide as Hn; [by rewrite Hn, lookup_insert_eq|].
  rewrite lookup_insert_ne; [done|]. intros E. apply Hn. by apply app_inv_head in E.
Qed.
End registry.

(** ** The database *)

Class NutsOps (D : Type) := {
  nt_get : D → str → result db_error (option str);   (* Tx.Get; the value may be nil *)
  nt_put : D → str → str → result db_error D;
  nt_delete : D → str → result db_error D;
  nt_begin : D → result db_error unit;
  nt_commit : D → result db_error unit;
  nt_entries : D → list (str * option str);           (* None: Value fails *)
  nt_start : D → option nat }.

Class NutsLaws (D : Type) `{NutsOps D} := {
  nt_view : D → gmap (list ascii) (list ascii);
  nt_get_view : ∀ d k, nt_get d k = match nt_view d !! k with Some v => Ok (Some v) | None => Err DbNotFound end;
  nt_put_view : ∀ d k v, ∃ d', nt_put d k v = Ok d' ∧ nt_view d' = <[k := v]> (nt_view d);
  nt_delete_view : ∀ d k, is_Some (nt_view d !! k) → ∃ d', nt_delete d k = Ok d' ∧ nt_view d' = delete k (nt_view d);
  nt_begin_ok : ∀ d, nt_begin d = Ok tt;
  nt_commit_ok : ∀ d, nt_commit d = Ok tt;
  nt_entries_view : ∀ d, StronglySorted StrLe ((nt_entries d).*1)
    ∧ ∀ k v, (k, v) ∈ nt_entries d ↔ ∃ x, v = Some x ∧ nt_view d !! k = Some x }.

Section nuts.
Context {D B : Type} `{NutsOps D} `{MetaCodec B}.
Variable zero_md : Metadata B.   (* a metadata value with nothing set *)
Implicit Types d : D.

Definition nuts_Get d (key : str) : result index_error (Metadata B) :=
  match nt_get d key with
  | Err e => Err (DatabaseError e)
  | Ok None => Ok zero_md
  | Ok (Some v) => match cd_unmarshal v with Some m => Ok m | None => Err DecodeError end
  end.

Definition nuts_Set d (key : str) (m : Metadata B) : result index_error D :=
  match cd_marshal m with
  | None => Err DecodeError
  | Some buf => match nt_put d key buf with Ok d' => Ok d' | Err e => Err (DatabaseError e) end
  end.

Definition nuts_Delete d (key : str) : result index_error D :=
  match nt_delete d key with Ok d' => Ok d' | Err e => Err (DatabaseError e) end.

Definition nuts_Exist d (key : str) : bool := match nt_get d key with Ok (Some _) => true | _ => false end.

Definition nuts_Expired d : option index_error := None.
Definition nuts_GC d : option index_error := None.

(** One entry: what cannot be read or decoded is skipped; the answer of the
    callback is ignored. *)
Definition nuts_load {A} (f : A → str → Metadata B → A) (s : A) (e : str * option str) : A :=
  match snd e with
  | None => s
  | Some v => match cd_unmarshal v with Some m => f s (fst e) m | None => s end
  end.

(** [Seek]: the first entry that is not below the key. *)
Fixpoint seek (prefix : str) (l : list (str * option str)) : list (str * option str) :=
  match l with
  | [] => []
  | e :: rest => if str_le prefix (fst e) then l else seek prefix rest
  end.

(** Without a prefix the loop advances before it reads. *)
Definition nuts_Iterate {A} d (prefix : str) (f : A → str → Metadata B → A) (s : A) : result db_error A :=
  match nt_begin d with
  | Err e => Err e
  | Ok _ =>
      let s' :=
        match nt_start d with
        | None => s
        | Some start =>
            match prefix with
            | [] => fold_left (nuts_load f) (drop (S start) (nt_entries d)) s
            | _ => fold_left (nuts_load f) (seek prefix (nt_entries d)) s
            end
        end in
      match nt_commit d with Ok _ => Ok s' | Err e => Err e end
  end.
End nuts.

(** ** Theorems *)

Section nuts_theorems.
Context {D B : Type} `{NutsLaws D} `{CodecLaws B}.
Variable zero_md : Metadata B.
Implicit Types d : D.

Definition nuts_view d : gmap (list ascii) (Metadata B) := omap cd_unmarshal (nt_view d).

Lemma nuts_Get_view d k m : nuts_Get zero_md d k = Ok m ↔ nuts_view d !! k = Some m.
Proof.
  unfold nuts_Get, nuts_view. rewrite nt_get_view, lookup_omap. destruct (nt_view d !! k) as [v|]; cbn [mbind option_bind]; [|naive_solver].
  destruct (cd_unmarshal v); naive_solver.
Qed.

(** nutsdb as an index: metadata that is set is read back and exists, all
    other keys keep theirs; a key that is deleted is gone and only that. *)
Theorem nuts_is_a_map d k (m : Metadata B) : id_wf (md_ID m) →
  (∃ d', nuts_Set d k m = Ok d' ∧ nuts_view d' = <[k := m]> (nuts_view d) ∧ nuts_Get zero_md d' k = Ok m ∧ nuts_Exist d' k = true)
  ∧ (is_Some (nuts_view d !! k) → ∃ d', nuts_Delete d k = Ok d' ∧ nuts_view d' = delete k (nuts_view d)
       ∧ nuts_Exist d' k = false ∧ ∀ m', nuts_Get zero_md d' k ≠ Ok m').
Proof.
  intros Hw. split.
  - unfold nuts_Set. destruct (codec_round_trip m Hw) as (buf & -> & Hb). destruct (nt_put_view d k buf) as (d' & -> & Hv).
    assert (nuts_view d' = <[k := m]> (nuts_view d)) as Hn by (unfold nuts_view; rewrite Hv; by apply omap_insert_Some).
    exists d'. split_and!; [done|done|by rewrite nuts_Get_view, Hn, lookup_insert_eq|].
    unfold nuts_Exist. by rewrite nt_get_view, Hv, lookup_insert_eq.
  - intros [x Hx]. unfold nuts_view in Hx. rewrite lookup_omap in Hx. apply bind_Some in Hx as (v & Hx & _).
    destruct (nt_delete_view d k) as (d' & Hd & Hv); [by rewrite Hx|]. exists d'. unfold nuts_Delete. rewrite Hd.
    assert (nuts_view d' = delete k (nuts_view d)) as Hn by (unfold nuts_view; rewrite Hv; apply omap_delete).
    split_and!; [done|done|unfold nuts_Exist; by rewrite nt_get_view, Hv, lookup_delete_eq|].
    intros m'. rewrite nuts_Get_view, Hn, lookup_delete_eq. done.
Qed.

Lemma seek_spec prefix l : StronglySorted StrLe (l.*1) → ∀ e, e ∈ seek prefix l ↔ e ∈ l ∧ str_le prefix (fst e) = true.
Proof.
  induction l as [|x l IH]; intros Hs e; cbn [seek]; [rewrite elem_of_nil; naive_solver|].
  apply StronglySorted_inv in Hs as [Hs Hx]. destruct (str_le prefix (fst x)) eqn:Ex.
  - split; [|by intros []]. intros He. split; [done|]. apply elem_of_cons in He as [->|He]; [done|].
    rewrite Forall_forall in Hx. assert (StrLe (fst x) (fst e)) as Hle by (apply Hx, list_elem_of_fmap; by exists e).
    by apply (StrLe_trans prefix (fst x)).
  - rewrite IH by done. rewrite elem_of_cons. split; [naive_solver|]. intros [[->|?] ?]; [congruence|done].
Qed.

(** The keys an iteration visits, in order. *)
Definition visited d (prefix : str) : result db_error (list str) := nuts_Iterate d prefix (λ l k (_ : Metadata B), l ++ [k]) [].

Lemma visit_fold (l : list (str * option str)) acc :
  fold_left (nuts_load (B := B) (λ l k _, l ++ [k])) l acc
  = acc ++ omap (λ e, v ← snd e; (λ _ : Metadata B, fst e) <$> cd_unmarshal v) l.
Proof.
  revert acc. induction l as [|[k [v|]] l IH]; intros acc; cbn [fold_left omap list_omap]; [by rewrite app_nil_r| |].
  - rewrite IH. unfold nuts_load. cbn [fst snd mbind option_bind]. destruct (cd_unmarshal v); cbn [fmap option_fmap option_map]; [by rewrite <-app_assoc|done].
  - rewrite IH. done.
Qed.

(** which entries an iteration of nutsdb visits.  With a prefix: all keys
    from the prefix on, also those that do not have it.  Without a prefix and with
    a new iterator that stands on the first entry, that entry is left out. *)
Theorem nuts_iteration d :
  (∀ prefix, prefix ≠ [] → nt_start d ≠ None → ∃ l, visited d prefix = Ok l
     ∧ ∀ k, k ∈ l ↔ str_le prefix k = true ∧ is_Some (nuts_view d !! k))
  ∧ (∀ k v rest, nt_start d = Some 0%nat → nt_entries d = (k, v) :: rest → NoDup ((nt_entries d).*1) →
     ∃ l, visited d [] = Ok l ∧ k ∉ l).
Proof.
  unfold visited, nuts_Iterate. rewrite nt_begin_ok, nt_commit_ok. destruct (nt_entries_view d) as [Hs Hv]. split.
  - intros prefix Hp Hst. destruct (nt_start d); [|done]. destruct prefix as [|c p]; [done|]. rewrite visit_fold. cbn [app].
    eexists. split; [reflexivity|]. intros k. rewrite list_elem_of_omap. setoid_rewrite (seek_spec (c :: p) _ Hs).
    unfold nuts_view. rewrite lookup_omap. split.
    + intros ([k' v] & [Hin Hle] & E). apply Hv in Hin as (x & -> & Hx). cbn [fst snd mbind option_bind] in *.
      apply fmap_Some in E as (m & Hm & ->). by rewrite Hx, Hle; cbn [mbind option_bind]; rewrite Hm.
    + intros [Hle [m (v & Hx & Hm)%bind_Some]]. exists (k, Some v). split; [split; [apply Hv; by exists v|done]|].
      cbn [fst snd mbind option_bind]. by rewrite Hm.
  - intros k v rest Hst He Hnd. rewrite Hst, He. cbn [drop]. rewrite drop_0, visit_fold. cbn [app].
    eexists. split; [reflexivity|]. rewrite list_elem_of_omap. intros ([k' v'] & Hin & E).
    rewrite He in Hnd. cbn [fmap list_fmap fst] in Hnd. apply NoDup_cons in Hnd as [Hk _]. apply Hk.
    destruct v' as [x|]; cbn [fst snd mbind option_bind] in E; [|done]. apply fmap_Some in E as (m & _ & ->).
    apply list_elem_of_fmap. by exists (k', Some x).
Qed.
End nuts_theorems.

(** ** A map as the database *)

#[local] Instance map_nuts : NutsOps (gmap (list ascii) (list ascii)) := {
  nt_get d k := match d !! k with Some v => Ok (Some v) | None => Err DbNotFound end;
  nt_put d k v := Ok (<[k := v]> d);
  nt_delete d k := match d !! k with Some _ => Ok (delete k d) | None => Err DbNotFound end;
  nt_begin _ := Ok tt; nt_commit _ := Ok tt;
  nt_entries d := map_iter d [] None;
  nt_start _ := Some 0%nat }.

#[local] Instance map_nuts_laws : NutsLaws (gmap (list ascii) (list ascii)).
Proof.
  refine {| nt_view := λ d, d |}.
  - done.
  - intros d k v. by exists (<[k := v]> d).
  - intros d k [x Hx]. exists (delete k d). cbn [nt_delete map_nuts]. by rewrite Hx.
  - done.
  - done.
  - intros d. cbn [nt_entries map_nuts]. split.
    + rewrite map_iter_keys. apply strongly_sorted_filter, sort_strings_sorted.
    + intros k v. rewrite map_iter_elem. split; [by intros [_ ?]|]. intros ?. split; [|done].
      unfold in_bounds. by destruct k.
Defined.

Definition nuts_md : Metadata N := ex_md 0 7%N [] ex_id.
Definition nuts_db : gmap (list ascii) (list ascii) :=
  let buf := default [] (cd_marshal nuts_md) in <[bs "a" := buf]> (<[bs "b" := buf]> (<[bs "c" := buf]> ∅)).

Lemma nuts_is_a_map_witness : ∃ d, nuts_Set (∅ : gmap (list ascii) (list ascii)) (bs "k") nuts_md = Ok d
  ∧ nuts_Get nuts_md d (bs "k") = Ok nuts_md ∧ nuts_Exist d (bs "k") = true.
Proof.
  destruct (nuts_is_a_map nuts_md (∅ : gmap (list ascii) (list ascii)) (bs "k") nuts_md) as [(d & H1 & _ & H2 & H3) _].
  - vm_compute. reflexivity.
  - exists d. exact (conj H1 (conj H2 H3)).
Defined.

Lemma nuts_db_entries : nt_entries nuts_db = (bs "a", cd_marshal nuts_md) :: drop 1 (nt_entries nuts_db).
Proof. apply (bool_decide_eq_true_1 _). vm_compute. reflexivity. Qed.
Lemma nuts_db_keys : NoDup ((nt_entries nuts_db).*1).
Proof. apply (bool_decide_eq_true_1 _). vm_compute. reflexivity. Qed.

(** Three objects, of which an iteration over everything visits two, and one for the
    prefix [b] those from [b] on. *)
Lemma nuts_iteration_witness :
  visited (B := N) nuts_db [] = Ok [bs "b"; bs "c"]
  ∧ visited (B := N) nuts_db (bs "b") = Ok [bs "b"; bs "c"]
  ∧ ∃ l, visited (B := N) nuts_db [] = Ok l ∧ bs "a" ∉ l.
Proof.
  split; [vm_compute; reflexivity|]. split; [vm_compute; reflexivity|].
  exact (proj2 (nuts_iteration (B := N) nuts_db) (bs "a") (cd_marshal nuts_md) (drop 1 (nt_entries nuts_db)) eq_refl
    nuts_db_entries nuts_db_keys).
Defined.
