(* ===== verification/Storage.v ===== *)
(** * The storage: storage/storage.go, storage/migrator.go, storage/builder.go

    The storage owns the buckets in layers, one selector per layer and the store
    the buckets share.  Without migration an object lives in the warm layer; with
    migration it is looked for in the hot, the warm and the cold layer, evicted
    objects are demoted by one layer and busy ones promoted.  [PURGE] removes or
    expires one object, or removes all objects whose key has a prefix.

    The buckets are those of [DiskBucket]; the store they share is kept beside
    them and is handed to the bucket that runs an operation.  If directory marks
    have a path of their own, the storage reads another store than the one the
    buckets write ([st_own]).  The selector is an interface; [HashRing] is the
    one the code uses.

    Proved: the layers a configuration gives; a soft purge makes the object
    expired at once, so that it is not answered as a hit, but not its variants; a
    hard purge removes it; a directory purge leaves no object with the prefix in
    any bucket; a demotion keeps the object reachable with its bytes.  An
    eviction from the coldest layer removes nothing. *)

From S2P Require Import Prelude GoStrings GoSort Headers Blocks Object CacheControl CachingState.
From S2P Require Import SharedKv Lfu IndexDb DiskBucket VaryProcessor MissPath.

Definition TypeInMemory : str := bs "memory".
Definition TypeNormal : str := bs "normal".
Definition TypeWarm : str := bs "warm".
Definition TypeCold : str := bs "cold".
Definition TypeHot : str := bs "hot".

(** ** The selector *)

(** [selector.New(buckets, policy).Select]: the buckets by their position. *)
Class Selector := sel_pick : list nat → ID → option nat.

(** A bucket of the list, and one if there is any: no bucket of the code refuses
    use or is bad. *)
Class SelectorLaws `{Selector} := {
  sel_member : ∀ l id i, sel_pick l id = Some i → i ∈ l;
  sel_some : ∀ l id, l ≠ [] → is_Some (sel_pick l id) }.

(** ** Layers *)

Record layers := mkLayers { l_hot : list nat; l_warm : list nat; l_cold : list nat; l_memory : option nat }.

(** The loop of [reinit] over the buckets; the native storage knows no cold
    layer.  A second memory bucket is an error. *)
Definition add_layer (migrator : bool) (l : layers) (i : nat) (typ : str) : option layers :=
  if bool_decide (typ = TypeNormal) || bool_decide (typ = TypeWarm)
  then Some (mkLayers (l_hot l) (l_warm l ++ [i]) (l_cold l) (l_memory l))
  else if bool_decide (typ = TypeHot) then Some (mkLayers (l_hot l ++ [i]) (l_warm l) (l_cold l) (l_memory l))
  else if migrator && bool_decide (typ = TypeCold)
  then Some (mkLayers (l_hot l) (l_warm l) (l_cold l ++ [i]) (l_memory l))
  else if bool_decide (typ = TypeInMemory) then
    match l_memory l with Some _ => None | None => Some (mkLayers (l_hot l) (l_warm l) (l_cold l) (Some i)) end
  else Some l.

Fixpoint add_layers (migrator : bool) (l : layers) (i : nat) (types : list str) : option layers :=
  match types with
  | [] => Some l
  | t :: rest => match add_layer migrator l i t with None => None | Some l => add_layers migrator l (S i) rest end
  end.

(** With no warm bucket the memory bucket is the warm layer. *)
Definition reinit (migrator : bool) (types : list str) : option layers :=
  match add_layers migrator (mkLayers [] [] [] None) 0 types with
  | None => None
  | Some l =>
      Some (match l_warm l, l_memory l with
            | [], Some i => mkLayers (l_hot l) [i] (l_cold l) (l_memory l)
            | _, _ => l
            end)
  end.

(** ** builder.go *)

(** [bucketMap] *)
Definition NewBucket_driver (name : str) : option driver :=
  if bool_decide (name = bs "empty") then Some Empty
  else if bool_decide (name = bs "native") then Some Native
  else if bool_decide (name = bs "memory") then Some Memory
  else None.

(** The fields of [conf.Bucket] and [storage.BucketConfig] that [mergeConfig]
    computes; the others are copied. *)
Record bucket_options := mkOptions {
  bo_Path : str; bo_Driver : str; bo_Type : str; bo_DBType : str; bo_DBPath : str; bo_MaxObjectLimit : Z }.

Record global_options := mkGlobal { go_Driver : str; go_DBType : str; go_DBPath : str }.

Definition or_default (x y : str) : str := match x with [] => y | _ => x end.

Definition mergeConfig (g : global_options) (b : bucket_options) : bucket_options :=
  let typ := or_default (bo_Type b) TypeWarm in
  let dbPath := or_default (bo_DBPath b) (go_DBPath g) in
  mkOptions (bo_Path b) (or_default (bo_Driver b) (go_Driver g))
    (if bool_decide (typ = TypeNormal) then TypeWarm else typ)
    (or_default (bo_DBType b) (go_DBType g))
    (if has_prefix (bs "/") dbPath then dbPath else path_join [bo_Path b; dbPath])
    (if bo_MaxObjectLimit b <=? 0 then 10000000 else bo_MaxObjectLimit b).

(** ** The storage *)

Section storage.
Context {D K B : Type} `{PebbleOps D} `{PebbleOps K} `{BitmapOps B} `{MetaCodec B} `{Selector}.
Variable url_host : str → option str.

Record storage := mkStorage {
  st_layers : layers; st_buckets : list (bucket D K); st_kv : K; st_own : option K }.
Implicit Types st : storage.

(** Run an operation of bucket [i] on the common store. *)
Definition on_bucket {A} st (i : nat) (op : bucket D K → option (A * bucket D K)) : option (A * storage) :=
  match st_buckets st !! i with
  | None => None
  | Some d =>
      match op (b_with_kv d (st_kv st)) with
      | None => None
      | Some (a, d') => Some (a, mkStorage (st_layers st) (<[i := d']> (st_buckets st)) (b_kv d') (st_own st))
      end
  end.

(** The store [SharedKV] returns. *)
Definition SharedKV st : K := match st_own st with Some kv => kv | None => st_kv st end.
Definition SharedKV_Delete st (key : str) : storage :=
  match kv_Delete (SharedKV st) key with
  | Err _ => st
  | Ok kv =>
      match st_own st with
      | Some _ => mkStorage (st_layers st) (st_buckets st) (st_kv st) (Some kv)
      | None => mkStorage (st_layers st) (st_buckets st) kv None
      end
  end.

(** ** Selection *)

Definition native_Select st (id : ID) : option nat := sel_pick (l_warm (st_layers st)) id.
Definition native_Buckets st : list nat := l_warm (st_layers st) ++ l_hot (st_layers st).
Definition migrator_Buckets st : list nat := l_warm (st_layers st) ++ l_hot (st_layers st) ++ l_cold (st_layers st).

Definition exists_in st (i : nat) (id : ID) : bool :=
  match st_buckets st !! i with Some d => b_Exist d (id_hash id) | None => false end.

(** The selectors of the hot and of the cold layer are nil when they are empty. *)
Definition opt_pick (l : list nat) (id : ID) : option nat := match l with [] => None | _ => sel_pick l id end.

Fixpoint chainSelector st (id : ID) (picks : list (option nat)) : option nat :=
  match picks with
  | [] => sel_pick (l_warm (st_layers st)) id
  | Some i :: rest => if exists_in st i id then Some i else chainSelector st id rest
  | None :: rest => chainSelector st id rest
  end.

Definition migrator_Select st (id : ID) : option nat :=
  let l := st_layers st in
  chainSelector st id [opt_pick (l_hot l) id; sel_pick (l_warm l) id; opt_pick (l_cold l) id].

Definition SelectLayer st (id : ID) (layer : str) : option nat :=
  let l := st_layers st in
  if bool_decide (layer = TypeHot) then opt_pick (l_hot l) id
  else if bool_decide (layer = TypeNormal) || bool_decide (layer = TypeWarm) then sel_pick (l_warm l) id
  else if bool_decide (layer = TypeCold) then opt_pick (l_cold l) id
  else if bool_decide (layer = TypeInMemory) then l_memory l
  else None.

(** ** Migration *)

Inductive move_error := NoTarget | MigrateFailed (e : migrate_error).

Definition migrate_between (fuel : nat) st (i j : nat) (id : ID) : option (option move_error * storage) :=
  match st_buckets st !! i, st_buckets st !! j with
  | Some src, Some dst =>
      match Migrate (B := B) url_host fuel (b_with_kv src (st_kv st)) dst id with
      | None => None
      | Some (e, src, dst) =>
          Some (option_map MigrateFailed e,
                mkStorage (st_layers st) (<[j := dst]> (<[i := src]> (st_buckets st))) (b_kv src) (st_own st))
      end
  | _, _ => None
  end.

(** Both directions: the layer of the target by the type of the source. *)
Definition move_object (target : str → option str) (fuel : nat) st (id : ID) (i : nat) : option (option move_error * storage) :=
  match st_buckets st !! i with
  | None => None
  | Some src =>
      match target (b_type src) with
      | None => Some (None, st)
      | Some layer =>
          match SelectLayer st id layer with
          | None => Some (Some NoTarget, st)
          | Some j => migrate_between fuel st i j id
          end
      end
  end.

Definition demote_target (t : str) : option str :=
  if bool_decide (t = TypeHot) then Some TypeWarm else if bool_decide (t = TypeWarm) then Some TypeCold else None.
Definition promote_target (t : str) : option str :=
  if bool_decide (t = TypeCold) then Some TypeWarm else if bool_decide (t = TypeWarm) then Some TypeHot else None.

Definition Demote : nat → storage → ID → nat → option (option move_error * storage) := move_object demote_target.
Definition Promote : nat → storage → ID → nat → option (option move_error * storage) := move_object promote_target.

(** A turn of the eviction goroutine of bucket [i]; with migration the object is
    demoted, and discarded if that fails.  The error of the discard is ignored. *)
Definition pop_evicted (d : bucket D K) (rest : list (list ascii * Z)) : bucket D K :=
  mkBucket (b_conf d) (b_db d) (b_kv d) (b_cache d) (b_files d) rest.

Definition evict (migration : bool) (fuel : nat) st (i : nat) : option storage :=
  match st_buckets st !! i with
  | None => None
  | Some d =>
      match b_evicted d with
      | [] => Some st
      | (k, _) :: rest =>
          let st := mkStorage (st_layers st) (<[i := pop_evicted d rest]> (st_buckets st)) (st_kv st) (st_own st) in
          let discard st := snd <$> on_bucket st i (λ d, DiscardWithHash (B := B) url_host fuel d k) in
          if migration then
            match index_Get (B := B) (b_db d) k with
            | Err _ => discard st
            | Ok m =>
                match Demote fuel st (md_ID m) i with
                | None => None
                | Some (None, st) => Some st
                | Some (Some _, st) => discard st
                end
            end
          else discard st
      end
  end.

(** ** Purges *)

Inductive purge_error := PurgeIndex (e : index_error) | BucketNotFound.

Section purge.
Variables (now : Z) (hasMigration : bool) (hot : ID → bool) (fuel : nat).

(** The callback of [IteratePrefix]: [n] counts the objects removed. *)
Definition purge_entry (typ : PurgeControl) (i : nat) (acc : option (nat * storage)) (key val : str) : option (nat * storage) :=
  match acc with
  | None => None
  | Some (n, st) =>
      if (length val <? 20)%nat then Some (n, st)
      else
        match (if pc_Hard typ || negb (pc_MarkExpired typ)
               then on_bucket st i (λ d, (λ '(e, d), (bool_decide (is_Some e), d)) <$> b_DiscardWithHash (B := B) url_host fuel d (take 20 val))
               else Some (true, st)) with
        | None => None
        | Some (failed, st) => Some (if failed then n else S n, SharedKV_Delete st key)
        end
  end.

Definition ix_prefix_of (d : bucket D K) (storeUrl : str) : str := ix_prefix ++ b_path d ++ ["/"%char] ++ storeUrl.

Definition purge_by_index (typ : PurgeControl) (storeUrl : str) (acc : option (nat * storage)) (i : nat) : option (nat * storage) :=
  match acc with
  | None => None
  | Some (n, st) =>
      match st_buckets st !! i with
      | None => None
      | Some d =>
          match kv_IteratePrefix (SharedKV st) (ix_prefix_of d storeUrl) (purge_entry typ i) (Some (n, st)) with
          | Ok r => r
          | Err _ => Some (n, st)
          end
      end
  end.

(** The scan of an index when the shared store knew nothing. *)
Definition scan_entry (typ : PurgeControl) (storeUrl : str) (i : nat) (acc : option (nat * storage)) (m : Metadata B) : option (nat * storage) :=
  match acc with
  | None => None
  | Some (n, st) =>
      if has_prefix storeUrl (id_path (md_ID m)) then
        (λ r, (S n, snd r)) <$>
          (if pc_Hard typ || negb (pc_MarkExpired typ)
           then on_bucket st i (λ d, b_Discard (B := B) url_host fuel d (md_ID m))
           else on_bucket st i (λ d, b_Store url_host d (md_with_times m (md_RespUnix m) (md_LastRefUnix m) (unix (now - 1)))))
      else Some (n, st)
  end.

Definition purge_by_scan (typ : PurgeControl) (storeUrl : str) (acc : option (nat * storage)) (i : nat) : option (nat * storage) :=
  match acc with
  | None => None
  | Some (n, st) =>
      match st_buckets st !! i with
      | None => None
      | Some d =>
          match b_Iterate d (scan_entry typ storeUrl i) (Some (n, st)) with Ok r => r | Err _ => Some (n, st) end
      end
  end.

Definition purge_dir (buckets : list nat) st (storeUrl : str) (typ : PurgeControl) : option (option purge_error * storage) :=
  if pc_MarkExpired typ then Some (None, st)
  else
    match fold_left (purge_by_index typ storeUrl) buckets (Some (0%nat, st)) with
    | None => None
    | Some (n, st) =>
        match (if (n =? 0)%nat then fold_left (purge_by_scan typ storeUrl) buckets (Some (n, st)) else Some (n, st)) with
        | None => None
        | Some (n, st) => Some (if (n =? 0)%nat then Some (PurgeIndex KeyNotFound) else None, st)
        end
    end.

(** A single object.  The promotion that the lookup may start runs later. *)
Definition purge_object (select : storage → ID → option nat) st (storeUrl : str) (typ : PurgeControl)
    : option (option purge_error * storage) :=
  let cacheKey := NewID storeUrl in
  match select st cacheKey with
  | None => Some (Some BucketNotFound, st)
  | Some i =>
      if pc_Hard typ then
        (λ '(e, st), (option_map PurgeIndex e, st)) <$> on_bucket st i (λ d, b_Discard (B := B) url_host fuel d cacheKey)
      else
        match on_bucket st i (λ d, (λ '(r, d, _), (r, d)) <$> b_Lookup (B := B) (unix now) hasMigration hot d cacheKey) with
        | None => None
        | Some (Err e, st) => Some (Some (PurgeIndex e), st)
        | Some (Ok m, st) =>
            (λ '(e, st), (option_map PurgeIndex e, st))
            <$> on_bucket st i (λ d, b_Store url_host d (md_with_times m (md_RespUnix m) (md_LastRefUnix m) (unix (now - 1))))
        end
  end.

Definition native_PURGE st (storeUrl : str) (typ : PurgeControl) : option (option purge_error * storage) :=
  if pc_Dir typ then purge_dir (native_Buckets st) st storeUrl typ else purge_object native_Select st storeUrl typ.

Definition migrator_PURGE st (storeUrl : str) (typ : PurgeControl) : option (option purge_error * storage) :=
  if pc_Dir typ then purge_dir (migrator_Buckets st) st storeUrl typ else purge_object migrator_Select st storeUrl typ.
End purge.
End storage.
Arguments storage D K : clear implicits.

(** ** The invariant of a storage *)

Section invariant.
Context {D K B : Type} `{PebbleLaws D} `{PebbleLaws K} `{BitmapOps B} `{CodecLaws B}.
Variable url_host : str → option str.
Implicit Types (st : storage D K) (d : bucket D K).

(** Every object of the bucket is registered in the shared store under its key. *)
Definition registered d : Prop :=
  ∀ k m, b_index (B := B) d !! k = Some m → b_shared d !! ix_key d (md_ID m) = Some k.

Lemma ix_key_inj d id id' : ix_key d id = ix_key d id' → Key id = Key id'.
Proof. unfold ix_key. intros E%app_inj_1; [|done]. destruct E as [_ E]. apply app_inj_1 in E as [_ E]; [|done]. by simplify_list_eq. Qed.

Lemma removed_registered d d' : bucket_ok (B := B) d → removed (B := B) d d' → registered d → registered d'.
Proof.
  intros Hok R Hr k m Hm. pose proof (lookup_weaken _ _ _ _ Hm (rm_index _ _ R)) as Hm0.
  rewrite (ix_key_path d d') by (by apply rm_path in R). specialize (Hr _ _ Hm0).
  destruct (rm_shared _ _ R (ix_key d (md_ID m)) (ix_key_prefix _ _)) as [->|(_ & h & mh & Hh & Hh' & E)]; [done|].
  apply ix_key_inj in E. destruct (proj2 (proj1 Hok) _ _ Hm0) as [-> Hw]. destruct (proj2 (proj1 Hok) _ _ Hh) as [-> Hwh].
  rewrite id_wf_hash in Hm, Hh' by done. rewrite E in Hm. congruence.
Qed.

Lemma stores_registered d d' m m' : bucket_ok (B := B) d → id_wf (md_ID m) → md_ID m' = md_ID m →
  stores m m' d d' → registered d → registered d'.
Proof.
  intros Hok Hw Eid (_ & Ei & _ & Ec & Hs) Hr k x Hx. rewrite (ix_key_path d d') by by apply conf_path.
  rewrite Hs by apply ix_key_prefix. rewrite Ei in Hx.
  destruct (decide (ix_key d (md_ID m) = ix_key d (md_ID x))) as [E|Hne].
  - rewrite E, lookup_insert_eq. apply ix_key_inj in E. apply lookup_insert_Some in Hx as [[<- _]|[_ Hx]]; [done|].
    destruct (proj2 (proj1 Hok) _ _ Hx) as [-> Hwx]. rewrite !id_wf_hash by done. by rewrite E.
  - rewrite lookup_insert_ne by done. apply lookup_insert_Some in Hx as [[_ <-]|[_ Hx]]; [congruence|]. by apply Hr.
Qed.

(** One path does not lead into another bucket. *)
Definition apart (c c' : bucket_conf) : Prop :=
  has_prefix (bc_path c ++ ["/"%char]) (bc_path c' ++ ["/"%char]) = false
  ∧ has_prefix (bc_path c' ++ ["/"%char]) (bc_path c ++ ["/"%char]) = false.

Lemma apart_keys d d' x y : apart (b_conf d) (b_conf d') →
  ix_prefix ++ b_path d ++ "/"%char :: x ≠ ix_prefix ++ b_path d' ++ "/"%char :: y.
Proof.
  intros [Ha Hb] E. apply app_inv_head in E. rewrite !(cons_middle "/"%char), !app_assoc in E.
  unfold b_path in E. set (a := bc_path (b_conf d) ++ ["/"%char]) in *. set (b := bc_path (b_conf d') ++ ["/"%char]) in *.
  destruct (Nat.le_ge_cases (length a) (length b)) as [Hl|Hl].
  - assert (has_prefix a b = true); [|congruence]. apply has_prefix_spec.
    exists (drop (length a) b). rewrite <-(take_drop (length a) b) at 1. f_equal.
    apply (f_equal (take (length a))) in E. rewrite take_app_length in E. by rewrite take_app_le in E.
  - assert (has_prefix b a = true); [|congruence]. apply has_prefix_spec.
    exists (drop (length b) a). rewrite <-(take_drop (length b) a) at 1. f_equal.
    apply (f_equal (take (length b))) in E. rewrite take_app_length in E. by rewrite take_app_le in E.
Qed.

(** The state of every bucket with the common store, buckets that keep objects,
    paths apart and objects registered; the storage reads the common store. *)
Record storage_ok st : Prop := {
  so_bucket : ∀ i d, st_buckets st !! i = Some d → bucket_ok (B := B) (b_with_kv d (st_kv st)) ∧ b_driver d ≠ Empty;
  so_apart : ∀ i j d d', i ≠ j → st_buckets st !! i = Some d → st_buckets st !! j = Some d' → apart (b_conf d) (b_conf d') }.

Definition all_registered st : Prop := ∀ i d, st_buckets st !! i = Some d → registered (b_with_kv d (st_kv st)).

Definition index_of st (i : nat) : gmap (list ascii) (Metadata B) :=
  match st_buckets st !! i with Some d => b_index d | None => ∅ end.

(** From [st] to [st'] objects were only removed. *)
Record shrinks st st' : Prop := {
  sh_layers : st_layers st' = st_layers st;
  sh_own : st_own st' = st_own st;
  sh_conf : ∀ i, b_conf <$> st_buckets st' !! i = b_conf <$> st_buckets st !! i;
  sh_index : ∀ i, index_of st' i ⊆ index_of st i;
  sh_files : ∀ i d d', st_buckets st !! i = Some d → st_buckets st' !! i = Some d' → b_files d' ⊆ b_files d }.

Lemma shrinks_refl st : shrinks st st.
Proof. split; try done. by intros i d d' -> [= <-]. Qed.

Lemma shrinks_bucket st st' i d : shrinks st st' → st_buckets st !! i = Some d →
  ∃ d', st_buckets st' !! i = Some d' ∧ b_conf d' = b_conf d.
Proof.
  intros R Hd. pose proof (sh_conf _ _ R i) as E. rewrite Hd in E. apply fmap_Some in E as (d' & ? & E). eauto.
Qed.

Lemma shrinks_trans st1 st2 st3 : shrinks st1 st2 → shrinks st2 st3 → shrinks st1 st3.
Proof.
  intros R S. split.
  - by rewrite (sh_layers _ _ S), (sh_layers _ _ R).
  - by rewrite (sh_own _ _ S), (sh_own _ _ R).
  - intros i. by rewrite (sh_conf _ _ S), (sh_conf _ _ R).
  - intros i. etrans; [apply S|apply R].
  - intros i d d3 Hd Hd3. destruct (shrinks_bucket _ _ _ _ R Hd) as (d2 & Hd2 & _).
    etrans; [by eapply S|by eapply R].
Qed.

Lemma index_of_some st i d : st_buckets st !! i = Some d → index_of st i = b_index d.
Proof. unfold index_of. by intros ->. Qed.

(** An operation of one bucket that leaves it in a good state. *)
Lemma on_bucket_ok {A} st i d (op : bucket D K → option (A * bucket D K)) a d' :
  storage_ok st → st_buckets st !! i = Some d → op (b_with_kv d (st_kv st)) = Some (a, d') →
  bucket_ok (B := B) d' → b_conf d' = b_conf d →
  let st' := mkStorage (st_layers st) (<[i := d']> (st_buckets st)) (b_kv d') (st_own st) in
  on_bucket st i op = Some (a, st') ∧ storage_ok st'
  ∧ (∀ j e, st_buckets st' !! j = Some e → (j = i ∧ e = d') ∨ (j ≠ i ∧ st_buckets st !! j = Some e))
  ∧ (∀ j, b_conf <$> st_buckets st' !! j = b_conf <$> st_buckets st !! j)
  ∧ index_of st' i = b_index d' ∧ ∀ j, j ≠ i → index_of st' j = index_of st j.
Proof.
  intros Hok Hd Hop Hok' Ec st'. unfold on_bucket. rewrite Hd, Hop. split; [done|].
  assert (i < length (st_buckets st))%nat as Hi by (by eapply lookup_lt_Some).
  assert (∀ j e, st_buckets st' !! j = Some e → (j = i ∧ e = d') ∨ (j ≠ i ∧ st_buckets st !! j = Some e)) as Hcase.
  { intros j e. cbn [st_buckets st']. rewrite list_lookup_insert_Some. intros [(-> & -> & _)|[? ?]]; [by left|right; by split; [congruence|]]. }
  assert (∀ e j, st_buckets st' !! j = Some e → ∃ e', st_buckets st !! j = Some e' ∧ b_conf e = b_conf e') as Hconf.
  { intros e j [[-> ->]|[_ ?]]%Hcase; [by exists d|by exists e]. }
  split; [|split; [done|split; [|split]]].
  - split.
    + intros j e [[-> ->]|[Hne He]]%Hcase.
      * split; [|unfold b_driver; rewrite Ec; by apply (so_bucket _ Hok _ _ Hd)].
        destruct Hok' as (Hi' & Hc' & Hk'). by split.
      * destruct (so_bucket _ Hok _ _ He) as [(Hie & Hce & _) Hdr]. split; [|done]. split; [done|]. split; [done|]. apply Hok'.
    + intros j j' e e' Hne (e0 & He0 & ->)%Hconf (e0' & He0' & ->)%Hconf. by eapply (so_apart _ Hok).
  - intros j. cbn [st_buckets st']. destruct (decide (j = i)) as [->|Hne]; [|by rewrite list_lookup_insert_ne].
    rewrite list_lookup_insert_eq, Hd by done. simpl. by rewrite Ec.
  - unfold index_of. cbn [st_buckets st']. by rewrite list_lookup_insert_eq.
  - intros j Hne. unfold index_of. cbn [st_buckets st']. by rewrite list_lookup_insert_ne.
Qed.

(** An operation that removes objects of one bucket. *)
Lemma on_bucket_removed {A} st i d (op : bucket D K → option (A * bucket D K)) a d' :
  storage_ok st → all_registered st → st_buckets st !! i = Some d →
  op (b_with_kv d (st_kv st)) = Some (a, d') → bucket_ok (B := B) d' → removed (B := B) (b_with_kv d (st_kv st)) d' →
  ∃ st', on_bucket st i op = Some (a, st') ∧ storage_ok st' ∧ all_registered st' ∧ shrinks st st'
  ∧ index_of st' i = b_index d' ∧ ∀ j, j ≠ i → index_of st' j = index_of st j.
Proof.
  intros Hok Hreg Hd Hop Hok' R.
  destruct (on_bucket_ok st i d op a d' Hok Hd Hop Hok' (rm_conf _ _ R)) as (-> & Hok1 & Hcase & Hconf & Hi & Hj).
  set (st' := mkStorage _ _ _ _) in *. exists st'. split; [done|]. split; [done|]. split; [|split; [|done]].
  - intros j e [[-> ->]|[Hne He]]%Hcase k m Hm.
    + change (b_shared (b_with_kv d' (st_kv st'))) with (b_shared d').
      apply (removed_registered (b_with_kv d (st_kv st)) d'); [apply (proj1 (so_bucket _ Hok _ _ Hd))|done|by eapply Hreg|done].
    + change (b_shared (b_with_kv e (st_kv st'))) with (b_shared d').
      destruct (rm_shared _ _ R (ix_key (b_with_kv e (st_kv st')) (md_ID m)) (ix_key_prefix _ _)) as [->|(_ & h & mh & _ & _ & E)].
      * by eapply (Hreg j e He).
      * exfalso. revert E. apply (apart_keys e d). by eapply (so_apart _ Hok j i).
  - split; [done|done|done|..].
    + intros j. destruct (decide (j = i)) as [->|Hne]; [|by rewrite Hj]. rewrite Hi, (index_of_some _ _ _ Hd). apply (rm_index _ _ R).
    + intros j e e' He [[-> ->]|[_ He']]%Hcase; [|by simplify_eq]. simplify_eq. apply (rm_files _ _ R).
Qed.

(** ** Discards in a storage *)

Lemma discard_hash_ok fuel d k : bucket_ok (B := B) d → b_driver d ≠ Empty → (size (b_index (B := B) d) <= fuel)%nat →
  ∃ e d', b_DiscardWithHash (B := B) url_host fuel d k = Some (e, d') ∧ bucket_ok (B := B) d' ∧ removed (B := B) d d'
  ∧ b_index (B := B) d' !! k = None ∧ (is_Some e → d' = d) ∧ (e = None → is_Some (b_index (B := B) d !! k)).
Proof.
  intros Hok Hdr Hf. unfold b_DiscardWithHash, DiscardWithHash.
  pose proof (index_Get_view (B := B) (b_db d) k) as Hg. fold (b_index (B := B) d) in Hg.
  destruct (b_index d !! k) as [m|] eqn:Em.
  - destruct (proj2 (proj1 Hok) _ _ Em) as [-> _].
    destruct (discard_ok url_host (Discard url_host fuel) fuel d m) as (d' & E & ? & ? & (? & _) & _); [apply Discard_discards|done..|].
    exists None, d'. split; [rewrite Hg, E; by destruct (b_driver d)|]. do 3 (split; [done|]). split; [by intros [? ?]|eauto].
  - destruct Hg as [e Hg]. exists (Some e), d. split; [rewrite Hg; by destruct (b_driver d)|]. split; [done|].
    split; [apply removed_refl|]. by split.
Qed.

Lemma discard_id_ok fuel d id : bucket_ok (B := B) d → b_driver d ≠ Empty → (size (b_index (B := B) d) < fuel)%nat →
  ∃ e d', b_Discard (B := B) url_host fuel d id = Some (e, d') ∧ bucket_ok (B := B) d' ∧ removed (B := B) d d'
  ∧ b_index (B := B) d' !! id_hash id = None.
Proof.
  intros Hok Hdr Hf. destruct (Discard_discards url_host fuel d id Hok Hf) as (e & d' & E & ? & ? & ? & _).
  exists e, d'. split; [|done]. unfold b_Discard, mem_Discard. by destruct (b_driver d).
Qed.

Definition fits (fuel : nat) st : Prop := ∀ i, (size (index_of st i) < fuel)%nat.

Lemma shrinks_fits fuel st st' : shrinks st st' → fits fuel st → fits fuel st'.
Proof. intros R Hf i. pose proof (map_subseteq_size _ _ (sh_index _ _ R i)). specialize (Hf i). lia. Qed.

(** ** Directory purges *)

(** Removing the mapping of a key that no object has. *)
Lemma delete_mapping st i d key : storage_ok st → all_registered st → st_own st = None → st_buckets st !! i = Some d →
  has_prefix (ix_prefix ++ b_path d ++ ["/"%char]) key = true →
  (∀ k m, index_of st i !! k = Some m → ix_key d (md_ID m) ≠ key) →
  storage_ok (SharedKV_Delete st key) ∧ all_registered (SharedKV_Delete st key) ∧ shrinks st (SharedKV_Delete st key)
  ∧ ∀ j, index_of (SharedKV_Delete st key) j = index_of st j.
Proof.
  intros Hok Hreg Hown Hd (rest & ->)%has_prefix_spec Hno. unfold SharedKV_Delete, SharedKV, kv_Delete. rewrite Hown.
  destruct (pb_delete_view (st_kv st) ((ix_prefix ++ b_path d ++ ["/"%char]) ++ rest)) as (kv & -> & Hv).
  set (st' := mkStorage _ _ _ _). split; [|split; [|split; [|done]]].
  - split; [|apply Hok]. intros j e He. destruct (so_bucket _ Hok _ _ He) as [(Hi & Hc & Hk) Hdr]. split; [|done].
    split; [done|]. split; [done|]. intros k v Hp. unfold b_shared. cbn [b_kv b_with_kv st_kv st']. rewrite Hv, lookup_delete_Some.
    intros [_ ?]. by eapply Hk.
  - intros j e He k m Hm. change (st_buckets st') with (st_buckets st) in He. unfold b_shared. cbn [b_kv b_with_kv st_kv st']. rewrite Hv, lookup_delete_ne; [by eapply Hreg|].
    intros E. destruct (decide (j = i)) as [->|Hne].
    + assert (e = d) as -> by congruence. eapply (Hno k m); [by rewrite (index_of_some _ _ _ Hd)|]. by rewrite E.
    + rewrite <-!app_assoc in E. revert E. apply (apart_keys d e). by eapply (so_apart _ Hok i j).
  - split; try done. intros j e e' He He'. cbn [st_buckets st'] in He'. by simplify_eq.
Qed.

(** One entry of the shared store, on the way through the entries of bucket [i]:
    [st0] is the storage the iteration started from. *)
Lemma purge_entry_ok typ fuel i d st0 n st key val : pc_MarkExpired typ = false →
  storage_ok st → all_registered st → all_registered st0 → shrinks st0 st → st_own st = None → fits fuel st →
  st_buckets st0 !! i = Some d → has_prefix (ix_prefix ++ b_path d ++ ["/"%char]) key = true →
  pb_view (st_kv st0) !! key = Some val →
  ∃ n' st', purge_entry (B := B) url_host fuel typ i (Some (n, st)) key val = Some (n', st')
  ∧ storage_ok st' ∧ all_registered st' ∧ shrinks st st' ∧ (n <= n')%nat
  ∧ (n' = n → ∀ j, index_of st' j = index_of st j)
  ∧ ∀ k m, index_of st' i !! k = Some m → ix_key d (md_ID m) ≠ key.
Proof.
  intros Hm Hok Hreg Hreg0 R0 Hown Hf Hd Hp Hv. destruct (shrinks_bucket _ _ _ _ R0 Hd) as (e & He & Ec).
  assert (∀ k m, index_of st i !! k = Some m → ix_key d (md_ID m) = key → val = k ∧ length k = 20%nat) as Hsame.
  { intros k m Hk E. pose proof (lookup_weaken _ _ _ _ Hk (sh_index _ _ R0 i)) as Hk0. rewrite (index_of_some _ _ _ Hd) in Hk0.
    pose proof (Hreg0 i d Hd k m Hk0) as Hr. change (b_shared (b_with_kv d (st_kv st0))) with (pb_view (st_kv st0)) in Hr.
    change (ix_key (b_with_kv d (st_kv st0)) (md_ID m)) with (ix_key d (md_ID m)) in Hr. rewrite E in Hr. split; [congruence|].
    rewrite (index_of_some _ _ _ He) in Hk. destruct (proj1 (so_bucket _ Hok _ _ He)) as [[_ Hi] _].
    destruct (Hi k m Hk) as [-> Hw]. by apply id_wf_length. }
  unfold purge_entry. destruct (length val <? 20)%nat eqn:El.
  { exists n, st. do 2 (split; [done|]). split; [done|]. split; [apply shrinks_refl|]. split; [done|]. split; [done|].
    intros k m Hk E. destruct (Hsame k m Hk E) as [-> Hl]. apply Nat.ltb_lt in El. lia. }
  rewrite Hm. cbn [negb]. rewrite orb_true_r. destruct (so_bucket _ Hok _ _ He) as [Hoke Hdr].
  destruct (discard_hash_ok fuel (b_with_kv e (st_kv st)) (take 20 val)) as (er & d' & E & Hok' & R & Hn & Hsm & _);
    [done|done|specialize (Hf i); rewrite (index_of_some _ _ _ He) in Hf; unfold b_index in *; simpl; lia|].
  destruct (on_bucket_removed st i e
    (λ d, (λ '(e, d), (bool_decide (is_Some e), d)) <$> b_DiscardWithHash (B := B) url_host fuel d (take 20 val))
    (bool_decide (is_Some er)) d') as (st1 & -> & Hok1 & Hreg1 & R1 & Hi1 & Hj1); [done..|by rewrite E|done|done|].
  assert (∀ k m, index_of st1 i !! k = Some m → ix_key d (md_ID m) ≠ key) as Hno.
  { intros k m Hk Ek. pose proof (lookup_weaken _ _ _ _ Hk (sh_index _ _ R1 i)) as Hk'. destruct (Hsame k m Hk' Ek) as [-> Hl].
    rewrite Hi1 in Hk. rewrite take_ge in Hn by lia. congruence. }
  destruct (shrinks_bucket _ _ _ _ R1 He) as (e1 & He1 & Ec1).
  destruct (delete_mapping st1 i e1 key) as (Hok2 & Hreg2 & R2 & Hi2); [done|done|by rewrite (sh_own _ _ R1)|done|..].
  { unfold b_path. rewrite Ec1, Ec. exact Hp. }
  { intros k m Hk. rewrite (ix_key_path d e1); [by eapply Hno|]. apply conf_path. by rewrite Ec1. }
  eexists _, _. split; [reflexivity|]. do 2 (split; [done|]). split; [by eapply shrinks_trans|].
  split; [case_bool_decide; lia|]. split.
  - intros Hn' j. rewrite Hi2. case_bool_decide as Eb; [|lia]. destruct (decide (j = i)) as [->|Hne]; [|by apply Hj1].
    rewrite Hi1, (Hsm Eb), (index_of_some _ _ _ He). done.
  - intros k m. rewrite Hi2. apply Hno.
Qed.

(** What a part of a purge keeps and counts. *)
Definition purged (n : nat) st (n' : nat) st' : Prop :=
  storage_ok st' ∧ all_registered st' ∧ shrinks st st' ∧ (n <= n')%nat ∧ (n' = n → ∀ j, index_of st' j = index_of st j).

Lemma purged_refl n st : storage_ok st → all_registered st → purged n st n st.
Proof. intros. split; [done|]. split; [done|]. split; [apply shrinks_refl|]. done. Qed.

Lemma purged_trans n1 st1 n2 st2 n3 st3 : purged n1 st1 n2 st2 → purged n2 st2 n3 st3 → purged n1 st1 n3 st3.
Proof.
  intros (_ & _ & R1 & L1 & S1) (Hok & Hreg & R2 & L2 & S2). split; [done|]. split; [done|].
  split; [by eapply shrinks_trans|]. split; [lia|]. intros E j. rewrite S2, S1 by lia. done.
Qed.

Lemma purge_entries_ok typ fuel i d st0 l : pc_MarkExpired typ = false → all_registered st0 → fits fuel st0 → st_own st0 = None →
  st_buckets st0 !! i = Some d →
  (∀ key val, (key, val) ∈ l → has_prefix (ix_prefix ++ b_path d ++ ["/"%char]) key = true ∧ pb_view (st_kv st0) !! key = Some val) →
  ∀ n st, storage_ok st → all_registered st → shrinks st0 st →
  ∃ n' st', fold_left (λ s kv, purge_entry (B := B) url_host fuel typ i s kv.1 kv.2) l (Some (n, st)) = Some (n', st')
  ∧ purged n st n' st'
  ∧ ∀ key, key ∈ l.*1 → ∀ k m, index_of st' i !! k = Some m → ix_key d (md_ID m) ≠ key.
Proof.
  intros Hm Hreg0 Hf Hown Hd. induction l as [|[key val] l IH]; intros Hl n st Hok Hreg R.
  { exists n, st. split; [done|]. split; [by apply purged_refl|]. intros key Hk. by apply elem_of_nil in Hk. }
  destruct (Hl key val) as [Hp Hv]; [by left|].
  destruct (purge_entry_ok typ fuel i d st0 n st key val) as (n1 & st1 & E & Hok1 & Hreg1 & R1 & L1 & S1 & Hno);
    [done|done|done|done|done|by rewrite (sh_own _ _ R)|by eapply shrinks_fits|done|done|done|].
  destruct (IH (λ key val H, Hl key val (list_elem_of_further _ _ _ H)) n1 st1) as (n2 & st2 & E2 & P2 & Hno2);
    [done..|by eapply shrinks_trans|].
  exists n2, st2. split; [change (fold_left _ ((key, val) :: l) _) with
    (fold_left (λ s kv, purge_entry (B := B) url_host fuel typ i s kv.1 kv.2) l
       (purge_entry (B := B) url_host fuel typ i (Some (n, st)) key val)); by rewrite E|].
  split; [eapply purged_trans; [|done]; by split_and!|].
  intros key' [->|Hin]%elem_of_cons; [|by apply Hno2]. intros k m Hk. apply (Hno k m).
  destruct P2 as (_ & _ & R2 & _). eapply lookup_weaken; [done|apply R2].
Qed.

(** The index of a bucket has no object whose key begins with [url]. *)
Definition cleared st (url : str) (i : nat) : Prop :=
  ∀ k m, index_of st i !! k = Some m → has_prefix url (Key (md_ID m)) = false.

Lemma cleared_shrinks st st' url i : shrinks st st' → cleared st url i → cleared st' url i.
Proof. intros R Hc k m Hk. apply (Hc k). eapply lookup_weaken; [done|apply R]. Qed.

Lemma purge_by_index_ok typ fuel url n st i d : pc_MarkExpired typ = false → storage_ok st → all_registered st →
  fits fuel st → st_own st = None → st_buckets st !! i = Some d →
  ∃ n' st', purge_by_index (B := B) url_host fuel typ url (Some (n, st)) i = Some (n', st')
  ∧ purged n st n' st' ∧ cleared st' url i.
Proof.
  intros Hm Hok Hreg Hf Hown Hd. unfold purge_by_index. rewrite Hd. unfold SharedKV. rewrite Hown.
  destruct (prefix_fold (st_kv st) (ix_prefix_of d url)) as (l & Hl & _ & _ & He). rewrite Hl.
  destruct (purge_entries_ok typ fuel i d st l) with (n := n) (st := st) as (n' & st' & E & P & Hno);
    [done|done|done|done|done| |done|done|apply shrinks_refl|].
  { intros key val [Hp Hv]%He. split; [|done]. unfold ix_prefix_of in Hp. apply has_prefix_spec in Hp as (rest & ->).
    apply has_prefix_spec. exists (url ++ rest). by rewrite <-!app_assoc. }
  exists n', st'. split; [done|]. split; [done|]. intros k m Hk.
  destruct (has_prefix url (Key (md_ID m))) eqn:Ep; [|done]. exfalso. apply has_prefix_spec in Ep as (rest & Ek).
  destruct P as (_ & _ & R & _). pose proof (lookup_weaken _ _ _ _ Hk (sh_index _ _ R i)) as Hk0. rewrite (index_of_some _ _ _ Hd) in Hk0.
  pose proof (Hreg i d Hd k m Hk0) as Hr. apply (Hno (ix_key d (md_ID m))) with (k := k) (m := m); [|done|done].
  apply list_elem_of_fmap. exists (ix_key d (md_ID m), k). split; [done|]. apply He. split; [|exact Hr].
  apply has_prefix_spec. exists rest. unfold ix_prefix_of, ix_key. rewrite Ek. by rewrite <-!app_assoc.
Qed.

Lemma purge_indexes_ok typ fuel url bks : pc_MarkExpired typ = false →
  ∀ n st, storage_ok st → all_registered st → fits fuel st → st_own st = None →
  (∀ i, i ∈ bks → is_Some (st_buckets st !! i)) →
  ∃ n' st', fold_left (purge_by_index (B := B) url_host fuel typ url) bks (Some (n, st)) = Some (n', st')
  ∧ purged n st n' st' ∧ ∀ i, i ∈ bks → cleared st' url i.
Proof.
  intros Hm. induction bks as [|i bks IH]; intros n st Hok Hreg Hf Hown Hb.
  { exists n, st. split; [done|]. split; [by apply purged_refl|]. intros i Hi. by apply elem_of_nil in Hi. }
  destruct (Hb i) as [d Hd]; [by left|].
  destruct (purge_by_index_ok typ fuel url n st i d) as (n1 & st1 & E1 & P1 & C1); [done..|].
  pose proof P1 as (Hok1 & Hreg1 & R1 & _).
  destruct (IH n1 st1) as (n2 & st2 & E2 & P2 & C2); [done|done|by eapply shrinks_fits|by rewrite (sh_own _ _ R1)|..].
  { intros j Hj. destruct (Hb j) as [e He]; [by right|]. destruct (shrinks_bucket _ _ _ _ R1 He) as (e' & He' & _). eauto. }
  exists n2, st2. cbn [fold_left]. rewrite E1. split; [done|]. split; [by eapply purged_trans|].
  intros j [->|Hj]%elem_of_cons; [|by apply C2]. eapply cleared_shrinks; [apply P2|done].
Qed.

(** ** The scan *)

(** No object of the bucket has a path that begins with [url]. *)
Definition swept st (url : str) (i : nat) : Prop :=
  ∀ k m, index_of st i !! k = Some m → has_prefix url (id_path (md_ID m)) = false.

Lemma cleared_swept st url i : cleared st url i → swept st url i.
Proof.
  intros Hc k m Hk. specialize (Hc k m Hk). destruct (has_prefix url (id_path (md_ID m))) eqn:E; [|done].
  apply has_prefix_spec in E as (t & E). rewrite <-Hc. symmetry. apply has_prefix_spec. exists (t ++ id_ext (md_ID m)).
  unfold Key. by rewrite E, <-app_assoc.
Qed.

Lemma swept_shrinks st st' url i : shrinks st st' → swept st url i → swept st' url i.
Proof. intros R Hc k m Hk. apply (Hc k). eapply lookup_weaken; [done|apply R]. Qed.

Lemma scan_entries_ok now typ fuel url i l : pc_MarkExpired typ = false →
  ∀ n st, storage_ok st → all_registered st → fits fuel st → is_Some (st_buckets st !! i) →
  ∃ n' st', fold_left (λ s (km : str * Metadata B), scan_entry url_host now fuel typ url i s km.2) l (Some (n, st)) = Some (n', st')
  ∧ purged n st n' st'
  ∧ (∀ k m, (k, m) ∈ l → has_prefix url (id_path (md_ID m)) = true → index_of st' i !! id_hash (md_ID m) = None)
  ∧ (Forall (λ km, has_prefix url (id_path (md_ID km.2)) = false) l → n' = n)
  ∧ (n' = n → Forall (λ km, has_prefix url (id_path (md_ID km.2)) = false) l).
Proof.
  intros Hm. induction l as [|[k0 m0] l IH]; intros n st Hok Hreg Hf [d Hd].
  { exists n, st. split; [done|]. split; [by apply purged_refl|]. split; [intros ?? Hk; by apply elem_of_nil in Hk|].
    split; [done|]. intros _. apply Forall_nil_2. }
  cbn [fold_left]. unfold scan_entry at 2. cbn [snd]. destruct (has_prefix url (id_path (md_ID m0))) eqn:Ep.
  - rewrite Hm. cbn [negb]. rewrite orb_true_r. destruct (so_bucket _ Hok _ _ Hd) as [Hokd Hdr].
    destruct (discard_id_ok fuel (b_with_kv d (st_kv st)) (md_ID m0)) as (er & d' & E & Hok' & R & Hn);
      [done|done|specialize (Hf i); rewrite (index_of_some _ _ _ Hd) in Hf; exact Hf|].
    destruct (on_bucket_removed st i d (λ d, b_Discard (B := B) url_host fuel d (md_ID m0)) er d')
      as (st1 & -> & Hok1 & Hreg1 & R1 & Hi1 & Hj1); [done..|]. simpl.
    destruct (IH (S n) st1) as (n2 & st2 & E2 & P2 & Hg2 & _ & _); [done|done|by eapply shrinks_fits|..].
    { destruct (shrinks_bucket _ _ _ _ R1 Hd) as (? & ? & _). eauto. }
    pose proof P2 as (Hok2 & Hreg2 & R2 & L2 & _). exists n2, st2. split; [done|]. split; [|split; [|split]].
    + split; [done|]. split; [done|]. split; [by eapply shrinks_trans|]. split; [lia|]. lia.
    + intros k m [[= -> ->]|Hin]%elem_of_cons; [|by apply (Hg2 k m)]. intros _. rewrite <-Hi1 in Hn.
      eapply subset_None; [apply R2|done].
    + intros [Hc _]%Forall_cons. simpl in Hc. congruence.
    + lia.
  - destruct (IH n st) as (n2 & st2 & E2 & P2 & Hg2 & Hz & Hz'); [done..|by exists d|]. exists n2, st2. split; [done|].
    split; [done|]. split; [|split].
    + intros k m [[= -> ->]|Hin]%elem_of_cons; [congruence|by apply (Hg2 k m)].
    + intros [_ Hc]%Forall_cons. by apply Hz.
    + intros E. apply Forall_cons. by split; [|apply Hz'].
Qed.

Lemma purge_by_scan_ok now typ fuel url n st i : pc_MarkExpired typ = false → storage_ok st → all_registered st →
  fits fuel st → is_Some (st_buckets st !! i) →
  ∃ n' st', purge_by_scan url_host now fuel typ url (Some (n, st)) i = Some (n', st')
  ∧ purged n st n' st' ∧ swept st' url i ∧ (n' = n → swept st url i).
Proof.
  intros Hm Hok Hreg Hf [d Hd]. unfold purge_by_scan. rewrite Hd.
  destruct (index_fold (B := B) (b_db d)) as (l & Hl & He).
  assert (b_Iterate d (scan_entry url_host now fuel typ url i) (Some (n, st))
    = Ok (fold_left (λ s (km : str * Metadata B), scan_entry url_host now fuel typ url i s km.2) l (Some (n, st)))) as ->.
  { unfold b_Iterate. destruct (so_bucket _ Hok _ _ Hd) as [_ Hdr]. rewrite Hl. by destruct (b_driver d). }
  destruct (scan_entries_ok now typ fuel url i l Hm n st) as (n' & st' & E & P & Hg & _ & Hz); [done..|by exists d|].
  exists n', st'. split; [done|]. split; [done|]. split.
  - intros k m Hk. destruct P as (_ & _ & R & _). pose proof (lookup_weaken _ _ _ _ Hk (sh_index _ _ R i)) as Hk0.
    rewrite (index_of_some _ _ _ Hd) in Hk0. destruct (has_prefix url (id_path (md_ID m))) eqn:Ep; [|done].
    apply He in Hk0 as Hin. destruct (proj1 (so_bucket _ Hok _ _ Hd)) as [[_ Hi] _].
    destruct (Hi k m Hk0) as [-> _]. rewrite (Hg _ m Hin Ep) in Hk. done.
  - intros En k m Hk. rewrite (index_of_some _ _ _ Hd) in Hk. apply He in Hk.
    pose proof (proj1 (Forall_forall _ _) (Hz En) _ Hk) as Hf'. exact Hf'.
Qed.

Lemma purge_scans_ok now typ fuel url bks : pc_MarkExpired typ = false →
  ∀ n st, storage_ok st → all_registered st → fits fuel st → (∀ i, i ∈ bks → is_Some (st_buckets st !! i)) →
  ∃ n' st', fold_left (purge_by_scan url_host now fuel typ url) bks (Some (n, st)) = Some (n', st')
  ∧ purged n st n' st' ∧ (∀ i, i ∈ bks → swept st' url i) ∧ (n' = n → ∀ i, i ∈ bks → swept st url i).
Proof.
  intros Hm. induction bks as [|i bks IH]; intros n st Hok Hreg Hf Hb.
  { exists n, st. split; [done|]. split; [by apply purged_refl|]. split; [|intros _]; intros i Hi; by apply elem_of_nil in Hi. }
  destruct (purge_by_scan_ok now typ fuel url n st i) as (n1 & st1 & E1 & P1 & C1 & Z1); [done..|apply Hb; by left|].
  pose proof P1 as (Hok1 & Hreg1 & R1 & L1 & S1).
  destruct (IH n1 st1) as (n2 & st2 & E2 & P2 & C2 & Z2); [done|done|by eapply shrinks_fits|..].
  { intros j Hj. destruct (Hb j) as [e He]; [by right|]. destruct (shrinks_bucket _ _ _ _ R1 He) as (e' & He' & _). eauto. }
  pose proof P2 as (_ & _ & R2 & L2 & _).
  exists n2, st2. cbn [fold_left]. rewrite E1. split; [done|]. split; [by eapply purged_trans|]. split.
  - intros j [->|Hj]%elem_of_cons; [|by apply C2]. by eapply swept_shrinks.
  - intros En j Hj. apply elem_of_cons in Hj as [->|Hj]; [apply Z1; lia|]. intros k m Hk.
    rewrite <-(S1 ltac:(lia)) in Hk. by apply (Z2 ltac:(lia) j Hj k m).
Qed.

(** The store the storage reads knows the objects, or knows none. *)
Definition knows st : Prop :=
  match st_own st with None => True | Some kv => ∀ k, has_prefix ix_prefix k = true → pb_view kv !! k = None end.

Lemma own_index_empty typ fuel url bks n st : storage_ok st → (∃ kv, st_own st = Some kv) → knows st →
  (∀ i, i ∈ bks → is_Some (st_buckets st !! i)) →
  fold_left (purge_by_index (B := B) url_host fuel typ url) bks (Some (n, st)) = Some (n, st).
Proof.
  intros Hok [kv Hown] Hkn. unfold knows in Hkn. rewrite Hown in Hkn. induction bks as [|i bks IH]; intros Hb; [done|].
  destruct (Hb i) as [d Hd]; [by left|]. cbn [fold_left]. unfold purge_by_index at 2. rewrite Hd. unfold SharedKV. rewrite Hown.
  destruct (prefix_fold kv (ix_prefix_of d url)) as (l & Hl & _ & _ & He). rewrite Hl.
  destruct l as [|[k v] l]; [cbn [fold_left]; apply IH; intros j Hj; apply Hb; by right|].
  destruct (proj1 (He k v)) as [Hp Hv]; [by left|]. rewrite Hkn in Hv; [done|].
  apply has_prefix_spec in Hp as (rest & ->). unfold ix_prefix_of. rewrite <-app_assoc. apply has_prefix_app.
Qed.

Lemma purge_dir_ok now fuel st url typ bks : storage_ok st → all_registered st → fits fuel st → knows st →
  pc_MarkExpired typ = false → (∀ i, i ∈ bks → is_Some (st_buckets st !! i)) →
  ∃ e st', purge_dir (B := B) url_host now fuel bks st url typ = Some (e, st')
  ∧ storage_ok st' ∧ all_registered st' ∧ shrinks st st'
  ∧ (∀ i, i ∈ bks → swept st' url i)
  ∧ (e = None ∨ e = Some (PurgeIndex KeyNotFound) ∧ (∀ i, index_of st' i = index_of st i) ∧ ∀ i, i ∈ bks → swept st url i).
Proof.
  intros Hok Hreg Hf Hkn Hm Hb. unfold purge_dir. rewrite Hm.
  assert (∃ n1 st1, fold_left (purge_by_index (B := B) url_host fuel typ url) bks (Some (0%nat, st)) = Some (n1, st1)
    ∧ purged 0 st n1 st1 ∧ (n1 ≠ 0%nat → ∀ i, i ∈ bks → swept st1 url i)) as (n1 & st1 & -> & P1 & C1).
  { destruct (st_own st) as [kv|] eqn:Eo.
    - exists 0%nat, st. split; [apply own_index_empty; eauto|]. split; [by apply purged_refl|done].
    - destruct (purge_indexes_ok typ fuel url bks Hm 0%nat st) as (n1 & st1 & E & P & C); [done..|].
      exists n1, st1. split; [done|]. split; [done|]. intros _ i Hi. by apply cleared_swept, C. }
  pose proof P1 as (Hok1 & Hreg1 & R1 & _ & S1). destruct (Nat.eqb_spec n1 0) as [->|Hn].
  - destruct (purge_scans_ok now typ fuel url bks Hm 0%nat st1) as (n2 & st2 & -> & P2 & C2 & Z2); [done|done|by eapply shrinks_fits|..].
    { intros j Hj. destruct (Hb j Hj) as [e He]. destruct (shrinks_bucket _ _ _ _ R1 He) as (? & ? & _). eauto. }
    pose proof P2 as (Hok2 & Hreg2 & R2 & _ & S2).
    eexists _, st2. split; [reflexivity|]. split; [done|]. split; [done|]. split; [by eapply shrinks_trans|]. split; [done|].
    destruct (Nat.eqb_spec n2 0) as [->|Hn2]; [|by left]. right. split; [done|]. split.
    + intros i. by rewrite S2, S1.
    + intros i Hi k m Hk. rewrite <-S1 in Hk by done. by apply (Z2 eq_refl i Hi k m).
  - exists None, st1. split; [by rewrite (proj2 (Nat.eqb_neq n1 0) Hn)|]. split; [done|]. split; [done|]. split; [done|].
    split; [by apply C1|by left].
Qed.

(** C13: a directory purge is complete.  Over buckets whose objects are registered
    in the store they share, a purge of a directory that does not ask for marks
    terminates; afterwards no bucket has an object whose path begins with the
    directory, objects were only removed, and the storage is as consistent as
    before.  It reports success if there was such an object; otherwise, at most,
    that there is none, with every index unchanged.  The storage reads the store
    the buckets write, or one that knows no object. *)
Theorem dir_purge_complete (migrator : bool) `{Selector} now hasMigration hot fuel st url typ :
  storage_ok st → all_registered st → fits fuel st → knows st → pc_Dir typ = true → pc_MarkExpired typ = false →
  let bks := if migrator then migrator_Buckets st else native_Buckets st in
  let PURGE := if migrator then migrator_PURGE (B := B) else native_PURGE (B := B) in
  (∀ i, i ∈ bks → is_Some (st_buckets st !! i)) →
  ∃ e st', PURGE url_host now hasMigration hot fuel st url typ = Some (e, st')
  ∧ storage_ok st' ∧ all_registered st' ∧ shrinks st st'
  ∧ (∀ i, i ∈ bks → swept st' url i)
  ∧ (e = None ∨ e = Some (PurgeIndex KeyNotFound) ∧ (∀ i, index_of st' i = index_of st i) ∧ ∀ i, i ∈ bks → swept st url i).
Proof.
  intros Hok Hreg Hf Hkn Hdir Hm bks PURGE Hb. subst bks PURGE.
  destruct migrator; unfold migrator_PURGE, native_PURGE; rewrite Hdir; by apply purge_dir_ok.
Qed.

(** ** One object *)

(** What a store leaves of the metadata, by the driver. *)
Definition stored_by (dr : driver) (m : Metadata B) : Metadata B := match dr with Native => drop_internal m | _ => m end.

Lemma store_ok d m : bucket_ok (B := B) d → b_driver d ≠ Empty → id_wf (md_ID m) →
  ∃ d', b_Store url_host d m = Some (None, d') ∧ stores m (stored_by (b_driver d) m) d d'.
Proof.
  intros Hok Hdr Hw. unfold b_Store. destruct (b_driver d); [by apply disk_Store_ok|by apply mem_Store_ok|done].
Qed.

Lemma lookup_ok now mig hot d id : bucket_ok (B := B) d → b_driver d ≠ Empty →
  ∃ r d' p, b_Lookup (B := B) now mig hot d id = Some (r, d', p)
  ∧ match b_index (B := B) d !! id_hash id with Some m => r = Ok m | None => ∃ e, r = Err e end
  ∧ bucket_ok (B := B) d' ∧ b_index (B := B) d' = b_index d ∧ b_conf d' = b_conf d ∧ b_kv d' = b_kv d.
Proof.
  intros Hok Hdr. pose proof (index_Get_view (B := B) (b_db d) (id_hash id)) as Hg. fold (b_index (B := B) d) in Hg.
  unfold b_Lookup, mem_Lookup, disk_Lookup. destruct (b_driver d) eqn:E; [| |done].
  - destruct (touch_ok now mig hot d id Hok) as (d' & p & Et & ? & ? & _ & ? & ?).
    destruct (b_index d !! id_hash id) as [m|]; [|destruct Hg as [e Hg]]; rewrite Hg, ?Et; simpl; do 3 eexists; (split; [reflexivity|]); eauto 10.
  - do 3 eexists. split; [reflexivity|]. destruct (b_index d !! id_hash id); eauto.
Qed.

Lemma just_expired now now' (m : Metadata B) : now <= now' → md_ExpiresAt m = unix (now - 1) → hasExpired now' m = true.
Proof. intros Hle E. unfold hasExpired. rewrite E. apply Z.ltb_lt. unfold unix, Second. pose proof (Z.mul_div_le (now - 1) 1000000000). lia. Qed.

(** A soft purge.  The bucket the storage selects keeps the object, with an
    expiry that every later clock reading finds passed and all else as it was
    stored; no other object of any bucket is changed. *)
Lemma soft_purge_ok (migrator : bool) `{Selector} now mig hot fuel st url typ i m :
  storage_ok st → pc_Dir typ = false → pc_Hard typ = false →
  (if migrator then migrator_Select st (NewID url) else native_Select st (NewID url)) = Some i →
  index_of st i !! id_hash (NewID url) = Some m →
  ∃ st' m', (if migrator then migrator_PURGE (B := B) else native_PURGE (B := B)) url_host now mig hot fuel st url typ = Some (None, st')
  ∧ storage_ok st' ∧ (∀ now', now <= now' → hasExpired now' m' = true)
  ∧ md_ID m' = md_ID m ∧ md_Chunks m' = md_Chunks m ∧ md_Flags m' = md_Flags m ∧ md_BlockSize m' = md_BlockSize m
  ∧ (∀ k, canonical_key k ∉ internal_headers → header_values k (md_Headers m') = header_values k (md_Headers m))
  ∧ index_of st' i = <[id_hash (NewID url) := m']> (index_of st i) ∧ ∀ j, j ≠ i → index_of st' j = index_of st j.
Proof.
  intros Hok Hdir Hhard Hsel Hm. unfold index_of in Hm. destruct (st_buckets st !! i) as [d|] eqn:Hd; [|done].
  set (mx := md_with_times m (md_RespUnix m) (md_LastRefUnix m) (unix (now - 1))).
  assert (∃ st', purge_object (B := B) url_host now mig hot fuel (if migrator then migrator_Select else native_Select) st url typ = Some (None, st')
    ∧ storage_ok st' ∧ index_of st' i = <[id_hash (NewID url) := stored_by (b_driver d) mx]> (index_of st i)
    ∧ ∀ j, j ≠ i → index_of st' j = index_of st j) as (st' & E & Hok' & Hi & Hj).
  { unfold purge_object. replace ((if migrator then migrator_Select else native_Select) st (NewID url)) with (Some i) by (by destruct migrator).
    rewrite Hhard. destruct (so_bucket _ Hok _ _ Hd) as [Hokd Hdr].
    destruct (lookup_ok (unix now) mig hot (b_with_kv d (st_kv st)) (NewID url) Hokd Hdr) as (r & d1 & p & El & Hr & Hok1 & Ei1 & Ec1 & Ek1).
    change (b_index (b_with_kv d (st_kv st))) with (b_index (B := B) d) in Hr, Ei1. rewrite Hm in Hr. subst r.
    destruct (on_bucket_ok st i d (λ d, (λ '(r, d, _), (r, d)) <$> b_Lookup (B := B) (unix now) mig hot d (NewID url)) (Ok m) d1)
      as (-> & Hst1 & _ & _ & Hi1 & Hj1); [done..|by rewrite El|done|done|].
    cbv beta iota. set (st1 := mkStorage _ _ _ _) in *. fold mx.
    assert (st_buckets st1 !! i = Some d1) as Hd1 by (apply list_lookup_insert_eq; by eapply lookup_lt_Some).
    destruct (proj2 (proj1 Hokd) _ _ Hm) as [Ek Hw]. destruct (so_bucket _ Hst1 _ _ Hd1) as [Hokd1 Hdr1].
    destruct (store_ok (b_with_kv d1 (st_kv st1)) mx Hokd1 Hdr1 Hw) as (d2 & Es & Hok2 & Ei2 & _ & Ec2 & _).
    destruct (on_bucket_ok st1 i d1 (λ d, b_Store url_host d mx) None d2) as (-> & Hst2 & _ & _ & Hi2 & Hj2); [done..|].
    eexists. split; [reflexivity|]. split; [done|]. split.
    - rewrite Hi2, Ei2, (index_of_some _ _ _ Hd). change (md_ID mx) with (md_ID m). rewrite <-Ek.
      change (b_index (b_with_kv d1 (st_kv st1))) with (b_index (B := B) d1). rewrite Ei1. f_equal. f_equal. unfold b_driver.
      cbn [b_conf b_with_kv]. by rewrite Ec1.
    - intros j Hne. by rewrite Hj2, Hj1. }
  exists st', (stored_by (b_driver d) mx). split.
  { destruct migrator; unfold migrator_PURGE, native_PURGE; by rewrite Hdir. }
  split; [done|]. split; [intros now' Hle; by apply (just_expired now); [|destruct (b_driver d)]|].
  do 4 (split; [by destruct (b_driver d)|]). split; [|done].
  intros k Hk. destruct (b_driver d); [|done..]. by apply (drop_internal_headers mx).
Qed.

Section middleware.
Context {S : Type} `{ReliableBucket B S} `{Selector}.
Variable opt : cachingOption.
Variable soft_ttl : Z → Z → Z.

Lemma reliable_lookup (s : S) (view : gmap (list ascii) (Metadata B)) id : bk_view s = view →
  ∃ s', bk_lookup s id = (view !! id_hash id, s') ∧ bk_view s' = view.
Proof. intros <-. destruct (bk_lookup_view s id) as [E1 E2]. exists (snd (bk_lookup s id)). by rewrite <-E1, <-surjective_pairing. Qed.

(** What a request for a Vary index is answered with depends on the names of its
    Vary header and on the variant alone. *)
Definition hit_of (r : option (Caching B S * bool)) : option bool := option_map (λ x, c_hit (fst x)) r.

Lemma variant_hit now trigger (s : S) req view m : bk_view s = view →
  view !! id_hash (newObjectIDFromRequest req [] (IncludeQueryInCacheKey opt)) = Some m → IsVary m = true →
  let vid := newObjectIDFromRequest req (VaryControl.VaryData (VaryControl.Clean (header_values vary (md_Headers m))) (rq_Header req))
    (IncludeQueryInCacheKey opt) in
  hit_of (preCacheProcessor opt soft_ttl now trigger s req)
  = match view !! id_hash vid with
    | None => Some false
    | Some v =>
        if refresh_on opt && (soft_ttl (md_RespUnix v) (md_ExpiresAt v) <=? unix now) && (unix now <? md_ExpiresAt v)
        then match HasComplete v with None => if trigger then None else Some true | Some _ => Some true end
        else if negb (hasExpired now v) then Some true
        else match HasComplete v with None => None | Some _ => Some false end
    end.
Proof.
  intros Hs Hm Hv vid. unfold preCacheProcessor.
  destruct (reliable_lookup s view (newObjectIDFromRequest req [] (IncludeQueryInCacheKey opt)) Hs) as (s1 & -> & Hs1). rewrite Hm.
  unfold chain_Lookup, state_Lookup. cbn [c_md negb]. unfold vary_Lookup. cbn [c_md set_hit]. rewrite Hv. cbn [negb].
  unfold vary_lookup. cbn [c_bucket set_hit]. fold vid.
  destruct (reliable_lookup s1 view vid Hs1) as (s2 & -> & _). destruct (view !! id_hash vid) as [v|]; [|done].
  cbn [negb]. unfold revalidate_Lookup. cbn [c_md set_md set_id set_rootmd set_bucket set_hit].
  destruct (refresh_on opt && _ && _); [destruct (HasComplete v), trigger; done|].
  destruct (negb (hasExpired now v)); [done|]. destruct (HasComplete v) as [full|]; [|done]. by destruct (full && _).
Qed.

(** C36: a soft purge of a stored URL.  It succeeds; the object stays in its bucket as it was, but for an expiry
    that every clock reading from then on finds passed (and bookkeeping headers), and nothing else
    in the storage changes.
    If the URL has no variants, a request for it at any time from then on, over any state of the
    bucket that still has the object as the purge left it (as long as
    it was not stored again), is not answered as a hit.
    If it has, the purge does not reach them: only the Vary index expires, whose expiry
    is never looked at, and a request whose variant is filed under another key than
    the purged one is a hit if and only if it was one before. *)
Theorem soft_purge_expires (migrator : bool) now mig hot fuel st url typ i m :
  storage_ok st → pc_Dir typ = false → pc_Hard typ = false →
  (if migrator then migrator_Select st (NewID url) else native_Select st (NewID url)) = Some i →
  index_of st i !! id_hash (NewID url) = Some m →
  ∃ st' m', (if migrator then migrator_PURGE (B := B) else native_PURGE (B := B)) url_host now mig hot fuel st url typ = Some (None, st')
  ∧ storage_ok st' ∧ index_of st' i !! id_hash (NewID url) = Some m'
  ∧ (∀ now', now <= now' → hasExpired now' m' = true)
  ∧ md_ID m' = md_ID m ∧ md_Chunks m' = md_Chunks m ∧ md_Flags m' = md_Flags m ∧ md_BlockSize m' = md_BlockSize m
  ∧ (∀ k, canonical_key k ∉ internal_headers → header_values k (md_Headers m') = header_values k (md_Headers m))
  ∧ (∀ j k, j ≠ i ∨ k ≠ id_hash (NewID url) → index_of st' j !! k = index_of st j !! k)
  ∧ (IsVary m = false → md_BlockSize m ≠ 0 →
      ∀ (s : S) req now' trigger, bk_view s !! id_hash (NewID url) = Some m' → now <= now' →
      newObjectIDFromRequest req [] (IncludeQueryInCacheKey opt) = NewID url →
      ∃ c, preCacheProcessor opt soft_ttl now' trigger s req = Some (c, false) ∧ c_hit c = false)
  ∧ (IsVary m = true →
      ∀ (s s' : S) req now' trigger, bk_view s = index_of st i → bk_view s' = index_of st' i →
      newObjectIDFromRequest req [] (IncludeQueryInCacheKey opt) = NewID url →
      id_hash (newObjectIDFromRequest req (VaryControl.VaryData (VaryControl.Clean (header_values vary (md_Headers m))) (rq_Header req))
        (IncludeQueryInCacheKey opt)) ≠ id_hash (NewID url) →
      hit_of (preCacheProcessor opt soft_ttl now' trigger s' req) = hit_of (preCacheProcessor opt soft_ttl now' trigger s req)).
Proof.
  intros Hok Hdir Hhard Hsel Hm.
  destruct (soft_purge_ok migrator now mig hot fuel st url typ i m) as (st' & m' & E & Hok' & Hx & E1 & E2 & Ef & Eb & Eh & Hi & Hj); [done..|].
  exists st', m'. rewrite Hi at 1. rewrite lookup_insert_eq. do 9 (split; [done|]). split; [|split].
  - intros j k Hne. destruct (decide (j = i)) as [->|Hji]; [|by rewrite Hj]. rewrite Hi, lookup_insert_ne; [done|]. naive_solver.
  - intros Hv Hb s req now' trigger Hs Hle Hreq. destruct (reliable_lookup s _ (NewID url) eq_refl) as (s' & El & _). rewrite Hs in El.
    apply (expired_not_hit opt soft_ttl now' trigger s s' req m'); [by rewrite Hreq|by apply Hx| |congruence].
    unfold IsVary in *. congruence.
  - intros Hv s s' req now' trigger Hs Hs' Hreq Hne.
    rewrite (variant_hit now' trigger s req _ m Hs), (variant_hit now' trigger s' req _ m' Hs'); [|rewrite Hreq, Hi; apply lookup_insert_eq| |by rewrite Hreq|done].
    + rewrite Eh by (by vm_compute; set_solver). by rewrite Hi, lookup_insert_ne.
    + unfold IsVary in *. congruence.
Qed.
End middleware.

(** a hard purge of one object terminates and removes it, from the bucket the
    storage selects, completely; objects are only removed. *)
Theorem hard_purge_removes (migrator : bool) `{Selector} now mig hot fuel st url typ i :
  storage_ok st → all_registered st → fits fuel st → pc_Dir typ = false → pc_Hard typ = true →
  (if migrator then migrator_Select st (NewID url) else native_Select st (NewID url)) = Some i → is_Some (st_buckets st !! i) →
  ∃ e st', (if migrator then migrator_PURGE (B := B) else native_PURGE (B := B)) url_host now mig hot fuel st url typ = Some (e, st')
  ∧ storage_ok st' ∧ all_registered st' ∧ shrinks st st' ∧ index_of st' i !! id_hash (NewID url) = None
  ∧ ∀ j, j ≠ i → index_of st' j = index_of st j.
Proof.
  intros Hok Hreg Hf Hdir Hhard Hsel [d Hd]. destruct (so_bucket _ Hok _ _ Hd) as [Hokd Hdr].
  destruct (discard_id_ok fuel (b_with_kv d (st_kv st)) (NewID url)) as (er & d' & E & Hok' & R & Hn);
    [done|done|specialize (Hf i); rewrite (index_of_some _ _ _ Hd) in Hf; exact Hf|].
  destruct (on_bucket_removed st i d (λ d, b_Discard (B := B) url_host fuel d (NewID url)) er d')
    as (st1 & E1 & Hok1 & Hreg1 & R1 & Hi1 & Hj1); [done..|].
  exists (option_map PurgeIndex er), st1. split; [|rewrite Hi1; by split_and!].
  destruct migrator; unfold migrator_PURGE, native_PURGE, purge_object; by rewrite Hdir, Hsel, Hhard, E1.
Qed.

(** ** Migration *)

Lemma exists_in_index `{Selector} st i d id : storage_ok st → st_buckets st !! i = Some d → b_driver d = Native →
  exists_in st i id = bool_decide (is_Some (index_of st i !! id_hash id)).
Proof.
  intros Hok Hd Hn. unfold exists_in. rewrite Hd. unfold b_Exist, disk_Exist. rewrite Hn, (index_of_some _ _ _ Hd).
  apply index_Exist_view. apply (proj1 (so_bucket _ Hok _ _ Hd)).
Qed.

Lemma migrate_between_ok fuel st i j id src dst (m : Metadata B) : storage_ok st → i ≠ j →
  st_buckets st !! i = Some src → st_buckets st !! j = Some dst → b_driver dst = Native →
  index_of st i !! id_hash id = Some m → Forall in_u32 (bm_range (md_Chunks m)) → NoDup (bm_range (md_Chunks m)) →
  (∀ c, c ∈ bm_range (md_Chunks m) → is_Some (ReadChunkFile src id c)) → fits fuel st →
  ∃ st' dst', migrate_between (B := B) url_host fuel st i j id = Some (None, st') ∧ storage_ok st'
  ∧ st_layers st' = st_layers st ∧ st_buckets st' !! j = Some dst' ∧ (∀ c, c ∈ bm_range (md_Chunks m) → ReadChunkFile dst' id c = ReadChunkFile src id c)
  ∧ (∀ l, b_conf <$> st_buckets st' !! l = b_conf <$> st_buckets st !! l)
  ∧ index_of st' i !! id_hash id = None ∧ index_of st' j = <[id_hash id := drop_internal m]> (index_of st j)
  ∧ ∀ l, l ≠ i → l ≠ j → index_of st' l = index_of st l.
Proof.
  intros Hok Hne Hs Hd Hn Hm Hu Hnd Hr Hf. destruct (so_bucket _ Hok _ _ Hs) as [Hoks Hdr]. destruct (so_bucket _ Hok _ _ Hd) as [Hokd _].
  rewrite (index_of_some _ _ _ Hs) in Hm.
  assert (size (b_index (B := B) src) <= fuel)%nat as Hfs by (specialize (Hf i); rewrite (index_of_some _ _ _ Hs) in Hf; lia).
  unfold migrate_between. rewrite Hs, Hd.
  destruct (migrate_ok url_host (b_with_kv src (st_kv st)) dst id m fuel)
    as (src' & dst' & -> & Hok1 & Hok2 & (kv & R) & Hgone & Hidx & Hch & _ & Ekv & Ec); [done..|].
  eexists _, dst'. split; [reflexivity|]. set (st' := mkStorage _ _ _ _).
  assert (i < length (st_buckets st) ∧ j < length (st_buckets st))%nat as [Hi Hj] by (split; by eapply lookup_lt_Some).
  assert (st_buckets st' !! j = Some dst') as Hj' by (apply list_lookup_insert_eq; by rewrite length_insert).
  assert (st_buckets st' !! i = Some src') as Hi'.
  { cbn [st_buckets st']. rewrite list_lookup_insert_ne by done. by apply list_lookup_insert_eq. }
  assert (∀ l, l ≠ i → l ≠ j → st_buckets st' !! l = st_buckets st !! l) as Hl'.
  { intros l ??. cbn [st_buckets st']. by rewrite !list_lookup_insert_ne. }
  assert (∀ l, b_conf <$> st_buckets st' !! l = b_conf <$> st_buckets st !! l) as Hconf.
  { intros l. destruct (decide (l = i)) as [->|]; [rewrite Hi', Hs; simpl; f_equal; apply (rm_conf _ _ R)|].
    destruct (decide (l = j)) as [->|]; [rewrite Hj', Hd; simpl; by rewrite Ec|]. by rewrite Hl'. }
  assert (∀ l e, st_buckets st' !! l = Some e → ∃ e', st_buckets st !! l = Some e' ∧ b_conf e = b_conf e') as Hback.
  { intros l e He. pose proof (Hconf l) as Hc. rewrite He in Hc. symmetry in Hc. apply fmap_Some in Hc as (e' & ? & ?). eauto. }
  split; [|split; [done|split; [done|split; [done|split; [done|]]]]].
  - split.
    + intros l e He. destruct (Hback l e He) as (e0 & He0 & Hce). destruct (so_bucket _ Hok _ _ He0) as [Hoke Hdre].
      split; [|unfold b_driver; by rewrite Hce]. destruct (decide (l = i)) as [->|].
      { simplify_eq. destruct Hok1 as (? & ? & ?). by split. }
      destruct (decide (l = j)) as [->|]; [simplify_eq; destruct Hok2 as (? & ? & Hk); split; [done|]; split; [done|];
        unfold b_shared in *; simpl in *; by rewrite <-Ekv|].
      rewrite Hl' in He by done. simplify_eq. destruct Hoke as (? & ? & _). split; [done|]. split; [done|]. apply Hok1.
    + intros l l' e e' Hll He He'. destruct (Hback _ _ He) as (? & ? & ->). destruct (Hback _ _ He') as (? & ? & ->). by eapply (so_apart _ Hok l l').
  - rewrite (index_of_some _ _ _ Hi'), (index_of_some _ _ _ Hj'), (index_of_some _ _ _ Hd). split; [done|]. split; [done|].
    intros l ??. unfold index_of. by rewrite Hl'.
Qed.

Lemma chain_finds `{Selector} st id picks j : Some j ∈ picks → (∀ l, Some l ∈ picks → exists_in st l id = bool_decide (l = j)) →
  chainSelector st id picks = Some j.
Proof.
  induction picks as [|p picks IH]; intros Hin He; [by apply elem_of_nil in Hin|]. cbn [chainSelector].
  assert (∀ l, Some l ∈ picks → exists_in st l id = bool_decide (l = j)) as He' by (intros l Hl; apply He; by right).
  destruct p as [l|]; [|apply IH; [|done]; by apply elem_of_cons in Hin as [?|?]].
  rewrite He by (by left). case_bool_decide as E; [by subst|]. apply IH; [|done]. apply elem_of_cons in Hin as [?|?]; [congruence|done].
Qed.

Lemma layer_picked `{Selector} st id layer j : layer = TypeHot ∨ layer = TypeWarm ∨ layer = TypeCold → SelectLayer st id layer = Some j →
  Some j ∈ [opt_pick (l_hot (st_layers st)) id; sel_pick (l_warm (st_layers st)) id; opt_pick (l_cold (st_layers st)) id].
Proof.
  intros [-> |[-> | ->]] E; unfold SelectLayer in E; vm_compute bool_decide in E; cbv beta iota match in E;
    rewrite <-E; rewrite !elem_of_cons; tauto.
Qed.

(** C30: moving an object keeps it.  A demotion or a promotion of an object whose
    chunks can all be read, and that is in no other bucket, ends with success;
    the storage then selects the target bucket for it, which has its metadata and
    the same bytes in every chunk, and the source bucket has it no more; no other
    bucket is changed. *)
Theorem move_keeps_object `{Selector} (demote : bool) fuel st id i j src layer (m : Metadata B) : storage_ok st → fits fuel st →
  (∀ l e, st_buckets st !! l = Some e → b_driver e = Native) →
  st_buckets st !! i = Some src → (if demote then demote_target (b_type src) else promote_target (b_type src)) = Some layer →
  SelectLayer st id layer = Some j → j ≠ i → is_Some (st_buckets st !! j) →
  index_of st i !! id_hash id = Some m → (∀ l, l ≠ i → index_of st l !! id_hash id = None) →
  Forall in_u32 (bm_range (md_Chunks m)) → NoDup (bm_range (md_Chunks m)) →
  (∀ c, c ∈ bm_range (md_Chunks m) → is_Some (ReadChunkFile src id c)) →
  ∃ st' dst', (if demote then Demote (B := B) else Promote (B := B)) url_host fuel st id i = Some (None, st') ∧ storage_ok st'
  ∧ migrator_Select st' id = Some j ∧ st_buckets st' !! j = Some dst'
  ∧ index_of st' j !! id_hash id = Some (drop_internal m) ∧ index_of st' i !! id_hash id = None
  ∧ (∀ c, c ∈ bm_range (md_Chunks m) → ReadChunkFile dst' id c = ReadChunkFile src id c)
  ∧ ∀ l, l ≠ i → l ≠ j → index_of st' l = index_of st l.
Proof.
  intros Hok Hf Hnat Hs Ht Hsel Hne [dst Hd] Hm Hno Hu Hnd Hr.
  destruct (migrate_between_ok fuel st i j id src dst m) as (st' & dst' & E & Hok' & El & Hj' & Hch & Hconf & Hgone & Hidx & Hoth);
    [done|done|done|done|by eapply Hnat|done..|].
  exists st', dst'. split.
  { destruct demote; unfold Demote, Promote, move_object; by rewrite Hs, Ht, Hsel. }
  split; [done|]. split; [|rewrite Hidx, lookup_insert_eq; by split_and!].
  assert (layer = TypeHot ∨ layer = TypeWarm ∨ layer = TypeCold) as Hlay.
  { destruct demote; unfold demote_target, promote_target in Ht; repeat case_bool_decide; simplify_eq; auto. }
  unfold migrator_Select. rewrite El. apply chain_finds; [by apply (layer_picked st id layer)|].
  intros l _. unfold exists_in. destruct (st_buckets st' !! l) as [e|] eqn:He.
  - assert (b_driver e = Native) as Hn.
    { pose proof (Hconf l) as Hc. rewrite He in Hc. symmetry in Hc. apply fmap_Some in Hc as (e' & He' & Hc). unfold b_driver. rewrite Hc. by eapply Hnat. }
    pose proof (exists_in_index st' l e id Hok' He Hn) as Hx. unfold exists_in in Hx. rewrite He in Hx. rewrite Hx.
    apply bool_decide_ext. destruct (decide (l = j)) as [->|Hlj]; [rewrite Hidx, lookup_insert_eq; split; [done|eauto]|].
    split; [|done]. intros [x Hx']. exfalso. destruct (decide (l = i)) as [->|Hli]; [congruence|]. rewrite Hoth, Hno in Hx' by done. done.
  - symmetry. apply bool_decide_eq_false_2. intros ->. congruence.
Qed.

(** with migration on, an eviction from a bucket that is neither hot nor warm
    removes nothing.  [Demote] has no target for it and reports success, so the
    object that was dropped from the cache is not discarded: its metadata, its
    files and its entries stay, and no later eviction returns to them. *)
Theorem cold_eviction_keeps `{Selector} fuel st i d k v rest m : st_buckets st !! i = Some d →
  b_type d ≠ TypeHot → b_type d ≠ TypeWarm → b_evicted d = (k, v) :: rest → b_index (B := B) d !! k = Some m →
  ∃ st', evict (B := B) url_host true fuel st i = Some st'
  ∧ st_buckets st' = <[i := pop_evicted d rest]> (st_buckets st) ∧ st_kv st' = st_kv st
  ∧ ∀ j, index_of st' j = index_of st j.
Proof.
  intros Hd Hh Hw Hev Hm. unfold evict. rewrite Hd, Hev.
  pose proof (index_Get_view (B := B) (b_db d) k) as Hg. fold (b_index (B := B) d) in Hg. rewrite Hm in Hg. rewrite Hg.
  set (st1 := mkStorage _ _ _ _). assert (i < length (st_buckets st))%nat as Hi by (by eapply lookup_lt_Some).
  assert (st_buckets st1 !! i = Some (pop_evicted d rest)) as Hd1 by (by apply list_lookup_insert_eq).
  unfold Demote, move_object. rewrite Hd1. change (b_type (pop_evicted d rest)) with (b_type d). unfold demote_target.
  rewrite !bool_decide_eq_false_2 by done. exists st1. split; [done|]. split; [done|]. split; [done|]. intros j.
  destruct (decide (j = i)) as [->|Hne]; [by rewrite (index_of_some _ _ _ Hd1), (index_of_some _ _ _ Hd)|].
  unfold index_of. cbn [st_buckets st1]. by rewrite list_lookup_insert_ne.
Qed.
End invariant.

(** ** Layers of a configuration *)

(** The type that puts a bucket into the warm layer. *)
Definition warm_type (t : str) : Prop := t = TypeNormal ∨ t = TypeWarm.

(** The buckets of a type among those added from position [i]. *)
Definition at_type (P : str → Prop) (i : nat) (types : list str) (j : nat) : Prop :=
  ∃ n t, types !! n = Some t ∧ P t ∧ j = (i + n)%nat.

Lemma at_type_cons P i t types j : at_type P i (t :: types) j ↔ (P t ∧ j = i) ∨ at_type P (S i) types j.
Proof.
  unfold at_type. split.
  - intros ([|n] & t' & Hn & HP & ->); simplify_eq/=; [left; split; [done|lia]|right; exists n, t'; split_and!; [done..|lia]].
  - intros [[HP ->]|(n & t' & Hn & HP & ->)]; [exists 0%nat, t; split_and!; [done..|lia]|exists (S n), t'; split_and!; [done..|lia]].
Qed.

(** What the loop makes of the types. *)
Lemma add_layers_ok migrator types : ∀ i l l', add_layers migrator l i types = Some l' →
  (∀ j, j ∈ l_hot l' ↔ j ∈ l_hot l ∨ at_type (.= TypeHot) i types j)
  ∧ (∀ j, j ∈ l_warm l' ↔ j ∈ l_warm l ∨ at_type warm_type i types j)
  ∧ (∀ j, j ∈ l_cold l' ↔ j ∈ l_cold l ∨ migrator = true ∧ at_type (.= TypeCold) i types j)
  ∧ (∀ j, l_memory l' = Some j ↔ l_memory l = Some j ∨ at_type (.= TypeInMemory) i types j).
Proof.
  induction types as [|t types IH]; intros i l l' E; cbn [add_layers] in E.
  { simplify_eq. assert (∀ P j, ¬ at_type P i [] j) as Hn by (intros P j (n & t & Hn & _); by rewrite lookup_nil in Hn).
    split_and!; intros j; naive_solver. }
  destruct (add_layer migrator l i t) as [l1|] eqn:E1; [|done]. destruct (IH (S i) l1 l' E) as (Ih & Iw & Ic & Im).
  setoid_rewrite at_type_cons. unfold warm_type in *. unfold add_layer in E1.
  repeat case_bool_decide; subst; destruct migrator; cbn [orb andb] in E1; simplify_eq; cbn [l_hot l_warm l_cold l_memory] in *;
    try (destruct (l_memory l) eqn:El; simplify_eq; cbn [l_hot l_warm l_cold l_memory] in * );
    (split; [intros j; rewrite Ih|split; [intros j; rewrite Iw|split; [intros j; rewrite Ic|intros j; rewrite Im]]]);
    clear Ih Iw Ic Im E IH;
    rewrite ?elem_of_app, ?list_elem_of_singleton; naive_solver.
Qed.

Lemma add_layers_refuses migrator types : ∀ i l, add_layers migrator l i types = None →
  (∃ j, types !! j = Some TypeInMemory ∧ is_Some (l_memory l))
  ∨ ∃ j j', j ≠ j' ∧ types !! j = Some TypeInMemory ∧ types !! j' = Some TypeInMemory.
Proof.
  induction types as [|t types IH]; intros i l E; cbn [add_layers] in E; [done|].
  destruct (add_layer migrator l i t) as [l1|] eqn:E1.
  - assert (is_Some (l_memory l1) → is_Some (l_memory l) ∨ t = TypeInMemory) as Hm.
    { unfold add_layer in E1. repeat (case_match; simplify_eq; cbn [l_memory]; auto).
      right. by apply (bool_decide_eq_true_1 (t = TypeInMemory)). }
    destruct (IH (S i) l1 E) as [(j & Hj & Hs)|(j & j' & Hne & Hj & Hj')].
    + destruct (Hm Hs) as [Hs'| ->]; [left; by exists (S j)|right; by exists 0%nat, (S j)].
    + right. exists (S j), (S j'). split; [congruence|done].
  - unfold add_layer in E1. repeat (case_match; simplify_eq). left. exists 0%nat. split; [|eauto].
    simpl. f_equal. by apply (bool_decide_eq_true_1 (t = TypeInMemory)).
Qed.

(** the layers a configuration gives.  Every bucket of type normal or warm is
    in the warm layer, every hot one in the hot layer, and with migration every
    cold one in the cold layer; the memory bucket is the warm layer if there is no
    other; a bucket of another type is in no layer.  A configuration is refused
    only for a second memory bucket. *)
Theorem layers_of_config migrator types :
  match reinit migrator types with
  | Some l =>
      (∀ j, j ∈ l_hot l ↔ types !! j = Some TypeHot)
      ∧ (∀ j, j ∈ l_warm l ↔ (∃ t, types !! j = Some t ∧ warm_type t)
           ∨ types !! j = Some TypeInMemory ∧ ∀ n t, types !! n = Some t → ¬ warm_type t)
      ∧ (∀ j, j ∈ l_cold l ↔ migrator = true ∧ types !! j = Some TypeCold)
      ∧ (∀ j, l_memory l = Some j ↔ types !! j = Some TypeInMemory)
  | None => ∃ i j, i ≠ j ∧ types !! i = Some TypeInMemory ∧ types !! j = Some TypeInMemory
  end.
Proof.
  unfold reinit. destruct (add_layers migrator (mkLayers [] [] [] None) 0 types) as [l|] eqn:E.
  - destruct (add_layers_ok migrator types 0 _ _ E) as (Ih & Iw & Ic & Im). cbn [l_hot l_warm l_cold l_memory] in *.
    assert (∀ P j, at_type P 0 types j ↔ ∃ t, types !! j = Some t ∧ P t) as Hat.
    { intros P j. unfold at_type. split; [intros (n & t & ? & ? & ->); eauto|intros (t & ? & ?); by exists j, t]. }
    setoid_rewrite Hat in Ih. setoid_rewrite Hat in Iw. setoid_rewrite Hat in Ic. setoid_rewrite Hat in Im.
    assert (∀ j, l_memory l = Some j ↔ types !! j = Some TypeInMemory) as Im' by (intros j; rewrite Im; naive_solver).
    assert (∀ j, j ∈ l_hot l ↔ types !! j = Some TypeHot) as Ih' by (intros j; rewrite Ih; set_solver).
    assert (∀ j, j ∈ l_cold l ↔ migrator = true ∧ types !! j = Some TypeCold) as Ic' by (intros j; rewrite Ic; set_solver).
    assert (∀ j, j ∈ l_warm l ↔ ∃ t, types !! j = Some t ∧ warm_type t) as Iw' by (intros j; rewrite Iw; set_solver).
    destruct (l_warm l) as [|w ws] eqn:Ew.
    + assert (∀ n t, types !! n = Some t → ¬ warm_type t) as Hnw by (intros n t Hn Ht; apply (proj1 (elem_of_nil n)), Iw'; eauto).
      destruct (l_memory l) as [i|] eqn:Em; cbn [l_hot l_warm l_cold l_memory]; (split; [done|split; [|split; [done|]]]).
      * intros j. rewrite list_elem_of_singleton. split.
        -- intros ->. right. split; [by apply Im'|done].
        -- intros [(t & Ht & Hw)|[Ht _]]; [by apply Hnw in Ht|]. apply Im' in Ht. congruence.
      * done.
      * intros j. rewrite Ew, elem_of_nil. split; [done|]. intros [(t & Ht & Hw)|[Ht _]]; [by apply Hnw in Ht|]. by apply Im' in Ht.
      * by rewrite Em.
    + assert (∃ t, types !! w = Some t ∧ warm_type t) as (t & Ht & Hw) by (apply Iw'; by left).
      split; [done|]. split; [|done]. intros j. rewrite Ew, Iw'. split; [auto|]. intros [?|[_ Hn]]; [done|]. by apply Hn in Ht.
  - apply (add_layers_refuses migrator types 0 (mkLayers [] [] [] None)) in E as [(j & _ & [? ?])|(i & j & Hne & Hi & Hj)]; [done|].
    exists i, j. done.
Qed.

(** ** Concrete storages *)

Section witnesses.
Notation map_storage := (storage (gmap (list ascii) (list ascii)) (gmap (list ascii) (list ascii))).

(** The first bucket of a layer. *)
#[local] Instance first_pick : Selector := λ l _, head l.
#[local] Instance first_pick_laws : SelectorLaws.
Proof. split; [intros [|x l] id i [= ->]; by left|intros [|x l] id Hn; [done|by exists x]]. Qed.

(** One warm bucket; and a hot and a warm one. *)
Definition one_bucket (d : map_bucket) : map_storage := mkStorage (mkLayers [] [0%nat] [] None) [d] (b_kv d) None.
Definition with_type (t : str) (d : map_bucket) : map_bucket :=
  mkBucket (mkConf (b_driver d) t (b_path d)) (b_db d) (b_kv d) (b_cache d) (b_files d) (b_evicted d).
Definition hot_bucket : map_bucket := with_type TypeHot ex_full.
Definition pair_storage (d e : map_bucket) : map_storage :=
  mkStorage (mkLayers [0%nat] [1%nat] [] None) [d; e] (b_kv d) None.
Definition two_buckets : map_storage := pair_storage hot_bucket (ex_bucket (bs "/d")).

Lemma with_type_ok t d : bucket_ok (B := N) d → bucket_ok (B := N) (with_type t d).
Proof. done. Qed.

Lemma pair_ok d e : bucket_ok (B := N) d → bucket_ok (B := N) e → b_driver d = Native → b_driver e = Native →
  apart (b_conf d) (b_conf e) → storage_ok (B := N) (pair_storage d e).
Proof.
  intros Hd He Nd Ne [Ha Hb]. split.
  - intros [|[|[|]]] x Hx; simplify_eq/=.
    + split; [|by rewrite Nd]. destruct Hd as (? & ? & ?). by split.
    + split; [|by rewrite Ne]. by apply with_kv_ok.
  - intros [|[|[|]]] [|[|[|]]] x y Hne Hx Hy; simplify_eq/=; by split.
Qed.

Lemma one_bucket_ok d : bucket_ok (B := N) d → b_driver d = Native → storage_ok (B := N) (one_bucket d).
Proof.
  intros Hok Hn. split.
  - intros [|[|]] e He; simplify_eq/=. split; [|by rewrite Hn]. destruct Hok as (? & ? & ?). by split.
  - intros [|[|]] [|[|]] e e' Hne He He'; simplify_eq/=.
Qed.

Lemma ex_registered m d : bucket_ok (B := N) d → id_wf (md_ID m) → registered (B := N) d → registered (B := N) (ex_store m d).
Proof.
  intros Hok Hw Hr. unfold ex_store. destruct (disk_Store_ok ex_host d m Hok Hw) as (d' & -> & HS).
  by apply (stores_registered d d' m (drop_internal m)).
Qed.

Lemma empty_registered path : registered (B := N) (ex_bucket path).
Proof. intros k m Hm. done. Qed.

Lemma ex_write_registered d id i data : registered (B := N) d → registered (B := N) (ex_write d id i data).
Proof. unfold ex_write, write_chunk, mem_write_chunk. by destruct (b_driver d). Qed.

Lemma ex_full_registered : registered (B := N) ex_full.
Proof. do 2 apply ex_write_registered. apply ex_registered; [apply ex_bucket_ok|apply ex_id_wf|apply empty_registered]. Qed.

Lemma one_registered d : registered (B := N) d → all_registered (B := N) (one_bucket d).
Proof. intros Hr [|[|]] e He; simplify_eq/=. exact Hr. Qed.

Lemma one_fits d n : (size (b_index (B := N) d) < S n)%nat → fits (B := N) (S n) (one_bucket d).
Proof. intros Hs [|[|]]; unfold index_of; simpl; [exact Hs|rewrite map_size_empty; lia..]. Qed.

Lemma dir_purge_complete_witness : ∃ e st',
  native_PURGE (B := N) ex_host 5 false (λ _, false) 9 (one_bucket ex_full) (bs "http://h/") (mkPurge true true false) = Some (e, st')
  ∧ (∀ i, i ∈ [0%nat] → swept (B := N) st' (bs "http://h/") i).
Proof.
  destruct (dir_purge_complete (B := N) ex_host false 5 false (λ _, false) 9 (one_bucket ex_full) (bs "http://h/") (mkPurge true true false))
    as (e & st' & E & _ & _ & _ & Hsw & _).
  - apply one_bucket_ok; [apply ex_full_ok|vm_compute; reflexivity].
  - apply one_registered, ex_full_registered.
  - apply one_fits. apply Nat.ltb_lt. vm_compute. reflexivity.
  - exact I.
  - reflexivity.
  - reflexivity.
  - intros i Hi. apply list_elem_of_singleton in Hi as ->. eexists. reflexivity.
  - exists e, st'. split; [exact E|exact Hsw].
Defined.

Example dir_purge_run :
  (λ '(e, st), (bool_decide (is_Some e), (λ d, (size (b_db d), size (b_files d))) <$> st_buckets st)) <$>
    native_PURGE (B := N) ex_host 5 false (λ _, false) 9 (one_bucket ex_full) (bs "http://h/") (mkPurge true true false)
  = Some (false, [(0%nat, 0%nat)]).
Proof. vm_compute. reflexivity. Qed.

(** Without directory marks the default purge of a directory does nothing. *)
Example dir_mark_ignored :
  native_PURGE (B := N) ex_host 5 false (λ _, false) 9 (one_bucket ex_full) (bs "http://h/") (mkPurge false true true)
  = Some (None, one_bucket ex_full).
Proof. reflexivity. Qed.

Definition ex_req : Request :=
  mkReq (bs "GET") (bs "http") (bs "h") (bs "/a") (bs "http://h/a")
    {[bs "Accept-Encoding" := [bs "gzip"]]} None None None.
Definition soft : PurgeControl := mkPurge false false true.

Lemma map_view (v : gmap (list ascii) (Metadata N)) : bk_view v = v.
Proof. done. Qed.

(** A Vary index of one variant, both stored for a long time. *)
Definition vary_md : Metadata N :=
  mkMetadata FlagVaryIndex ex_id 8 0%N 0%N 200 0 1 1 1 99 {[bs "Vary" := [bs "Accept-Encoding"]]} [bs "#gzip"].
Definition vary_id : ID :=
  newObjectIDFromRequest ex_req (VaryControl.VaryData (VaryControl.Clean (header_values vary (md_Headers vary_md))) (rq_Header ex_req)) false.
Definition vary_bucket : map_bucket :=
  ex_store (mkMetadata 0 vary_id 8 1%N 0%N 200 8 1 1 1 99 ∅ []) (ex_store vary_md (ex_bucket (bs "/c"))).

Lemma vary_bucket_ok : bucket_ok (B := N) vary_bucket.
Proof.
  apply ex_store_ok; [|apply request_id_wf]. apply ex_store_ok; [apply ex_bucket_ok|apply ex_id_wf].
Qed.

Lemma vary_id_differs : id_hash vary_id ≠ id_hash (NewID (bs "http://h/a")).
Proof. intros E. apply (f_equal (λ l, byte_val <$> head l)) in E. vm_compute in E. discriminate E. Qed.

Lemma soft_purge_expires_witness :
  (∃ st' c, native_PURGE (B := N) ex_host (5 * Second) false (λ _, false) 9 (one_bucket ex_full) (bs "http://h/a") soft = Some (None, st')
     ∧ preCacheProcessor vp_opt (λ _ e, e) (6 * Second) true (index_of (B := N) st' 0) ex_req = Some (c, false) ∧ c_hit c = false)
  ∧ ∃ st', native_PURGE (B := N) ex_host (5 * Second) false (λ _, false) 9 (one_bucket vary_bucket) (bs "http://h/a") soft = Some (None, st')
     ∧ hit_of (preCacheProcessor vp_opt (λ _ e, e) (6 * Second) true (index_of (B := N) st' 0) ex_req) = Some true.
Proof.
  split.
  - destruct (soft_purge_expires (B := N) ex_host (S := gmap (list ascii) (Metadata N)) vp_opt (λ _ e, e) false (5 * Second) false (λ _, false)
      9 (one_bucket ex_full) (bs "http://h/a") soft 0 (ex_md 0 3 [] ex_id)) as (st' & m' & E & _ & Hm & _ & _ & _ & _ & _ & _ & _ & Hit & _).
    + apply one_bucket_ok; [apply ex_full_ok|vm_compute; reflexivity].
    + reflexivity.
    + reflexivity.
    + reflexivity.
    + vm_compute. reflexivity.
    + destruct (Hit eq_refl ltac:(discriminate) (index_of (B := N) st' 0) ex_req (6 * Second) true) as (c & Ec & Hc).
      * exact Hm.
      * discriminate.
      * vm_compute. reflexivity.
      * exists st', c. split; [exact E|]. split; [exact Ec|exact Hc].
  - destruct (soft_purge_expires (B := N) ex_host (S := gmap (list ascii) (Metadata N)) vp_opt (λ _ e, e) false (5 * Second) false (λ _, false)
      9 (one_bucket vary_bucket) (bs "http://h/a") soft 0 vary_md) as (st' & m' & E & _ & _ & _ & _ & _ & _ & _ & _ & _ & _ & Hit).
    + apply one_bucket_ok; [apply vary_bucket_ok|vm_compute; reflexivity].
    + reflexivity.
    + reflexivity.
    + reflexivity.
    + vm_compute. reflexivity.
    + exists st'. split; [exact E|].
      rewrite (Hit eq_refl (index_of (B := N) (one_bucket vary_bucket) 0) (index_of (B := N) st' 0) ex_req (6 * Second) true
        (map_view _) (map_view _)).
      * vm_compute. reflexivity.
      * vm_compute. reflexivity.
      * apply vary_id_differs.
Defined.

Lemma hard_purge_removes_witness : ∃ e st',
  native_PURGE (B := N) ex_host 5 false (λ _, false) 9 (one_bucket ex_full) (bs "http://h/a") (mkPurge true false false) = Some (e, st')
  ∧ index_of (B := N) st' 0 !! id_hash (NewID (bs "http://h/a")) = None.
Proof.
  destruct (hard_purge_removes (B := N) ex_host false 5 false (λ _, false) 9 (one_bucket ex_full) (bs "http://h/a") (mkPurge true false false) 0)
    as (e & st' & E & _ & _ & _ & Hn & _).
  - apply one_bucket_ok; [apply ex_full_ok|vm_compute; reflexivity].
  - apply one_registered, ex_full_registered.
  - apply one_fits. apply Nat.ltb_lt. vm_compute. reflexivity.
  - reflexivity.
  - reflexivity.
  - reflexivity.
  - eexists. reflexivity.
  - exists e, st'. split; [exact E|exact Hn].
Defined.

Lemma two_buckets_ok : storage_ok (B := N) two_buckets.
Proof.
  apply pair_ok; [apply with_type_ok, ex_full_ok|apply ex_bucket_ok|vm_compute; reflexivity..|].
  split; vm_compute; reflexivity.
Qed.

Lemma move_keeps_object_witness : ∃ st' dst',
  Demote (B := N) ex_host 9 two_buckets ex_id 0 = Some (None, st') ∧ migrator_Select st' ex_id = Some 1%nat
  ∧ st_buckets st' !! 1%nat = Some dst' ∧ ReadChunkFile dst' ex_id 1 = Some (bs "abcdefgh").
Proof.
  destruct (move_keeps_object (B := N) ex_host true 9 two_buckets ex_id 0 1 hot_bucket TypeWarm (ex_md 0 3 [] ex_id))
    as (st' & dst' & E & _ & Hsel & Hd & _ & _ & Hc & _).
  - apply two_buckets_ok.
  - intros [|[|[|]]]; apply Nat.ltb_lt; vm_compute; reflexivity.
  - intros [|[|[|]]] e [= <-]; vm_compute; reflexivity.
  - reflexivity.
  - vm_compute. reflexivity.
  - vm_compute. reflexivity.
  - discriminate.
  - eexists. reflexivity.
  - vm_compute. reflexivity.
  - intros [|[|[|]]] Hl; [done|vm_compute; reflexivity..].
  - apply (bool_decide_eq_true_1 _). vm_compute. reflexivity.
  - apply (bool_decide_eq_true_1 _). vm_compute. reflexivity.
  - change (bm_range (md_Chunks (ex_md 0 3 [] ex_id))) with [0; 1].
    intros i [->|[->|[]%elem_of_nil]%elem_of_cons]%elem_of_cons; apply (bool_decide_eq_true_1 _); vm_compute; reflexivity.
  - exists st', dst'. split; [exact E|]. split; [exact Hsel|]. split; [exact Hd|].
    rewrite Hc; [vm_compute; reflexivity|]. apply list_elem_of_further, list_elem_of_here.
Defined.

(** A cold bucket whose cache has dropped the object. *)
Definition cold_bucket : map_bucket := pop_evicted (with_type TypeCold ex_full) [(id_hash ex_id, 0)].

Lemma cold_eviction_keeps_witness : ∃ st',
  evict (B := N) ex_host true 9 (one_bucket cold_bucket) 0 = Some st' ∧ is_Some (index_of (B := N) st' 0 !! id_hash ex_id).
Proof.
  destruct (cold_eviction_keeps (B := N) ex_host 9 (one_bucket cold_bucket) 0 cold_bucket (id_hash ex_id) 0 [] (ex_md 0 3 [] ex_id))
    as (st' & E & _ & _ & Hi).
  - reflexivity.
  - discriminate.
  - discriminate.
  - vm_compute. reflexivity.
  - vm_compute. reflexivity.
  - exists st'. split; [exact E|]. rewrite Hi. eexists. vm_compute. reflexivity.
Defined.
End witnesses.
