(* ===== verification/SelectorImpl.v ===== *)
(** * The selector the storage uses: storage/selector, with the buckets' answers

    [Storage] is proved against a class [Selector] with two laws.  This file
    builds the selector the program builds (selector.New: a hash ring with 20
    replicas over the buckets of a layer, each with its own path and weight) and
    shows that it has the laws.  The order in which the map of the buckets is
    ranged over stays a parameter: the laws hold for every order.

    Proved: building the ring never fails, [Select] never panics and never
    gives up on a layer that has a bucket, and what it returns is the owner of the
    first point after the hash of the object. *)

From S2P Require Import Prelude GoStrings GoSort Object HashRing IndexDb DiskBucket Storage.

(** ** What a bucket answers *)

(** The drivers differ in the constants; the disk bucket panics in [Allow]. *)
Definition bucket_Weight (d : driver) : Z :=
  match d with Native => 100 | Memory => 100 | Empty => 1000 end.
Definition bucket_ID (c : bucket_conf) : str :=
  match bc_driver c with Native => bc_path c | Memory => bc_path c | Empty => bs "empty:/dev/null" end.
Definition bucket_UseAllow (d : driver) : bool :=
  match d with Native => true | Memory => true | Empty => true end.
Definition bucket_HasBad (d : driver) : bool :=
  match d with Native => false | Memory => false | Empty => false end.
Definition bucket_StoreType (c : bucket_conf) : str :=
  match bc_driver c with Native => bc_type c | Memory => bc_type c | Empty => bs "empty" end.
Definition bucket_Allow (d : driver) (maxSize : Z) : option Z :=
  match d with Native => None | Memory => Some (i64 maxSize) | Empty => Some 100 end.

(** ** Building a ring cannot fail *)

Section build.
Context {Node : Type} (ID : Node → str) (Weight : Node → Z).

Abbreviation add_all := (fold_left (λ oc v, c ← oc;
  if bool_decide (ID v ∈ members c) then Some c else add ID c v (Weight v))).

Lemma add_total c n w : i64 (NumberOfReplicas c * 4) ≠ 0 → is_Some (add ID c n w).
Proof.
  intros Hr. unfold add, updateSortedHashes. cbn [NumberOfReplicas].
  rewrite (proj2 (Z.eqb_neq _ _) Hr). by eexists.
Qed.

Lemma points_nonempty c elt w : 0 < NumberOfReplicas c → 0 < w → ∃ h, h ∈ points (Node := Node) c elt w.
Proof.
  intros Hr Hw. exists (hashKey c (eltKey elt 0 0)). unfold points. apply list_elem_of_In, in_concat.
  exists (map (λ j, hashKey c (eltKey elt 0 j)) (seqZ 0 w)). split; apply in_map_iff; exists 0;
    (split; [done|]); apply list_elem_of_In, elem_of_seqZ; lia.
Qed.

Lemma add_nonempty c n w c' : 0 < NumberOfReplicas c → 0 < w → add ID c n w = Some c' → circles c' ≠ ∅.
Proof.
  intros Hr Hw Ha. destruct (points_nonempty c (ID n) w Hr Hw) as [h Hh].
  destruct (add_ok ID _ _ _ _ Ha) as (_ & Hl & _). specialize (Hl h). rewrite decide_True in Hl by done.
  intros E. by rewrite E, lookup_empty in Hl.
Qed.

Lemma add_all_total eo c : 0 < NumberOfReplicas c → i64 (NumberOfReplicas c * 4) ≠ 0 → (∀ v, 0 < Weight v) →
  ∃ c', add_all eo (Some c) = Some c' ∧ (circles c ≠ ∅ → circles c' ≠ ∅).
Proof.
  intros Hr H4 Hw. revert c Hr H4. induction eo as [|v eo IH]; intros c Hr H4; [by exists c|].
  cbn [fold_left mbind option_bind]. case_bool_decide; [by apply IH|].
  destruct (add_total c v (Weight v) H4) as [c1 E]. rewrite E.
  destruct (add_ok ID _ _ _ _ E) as (_ & _ & _ & _ & Hn & _).
  destruct (IH c1) as (c' & E' & Hc'); [by rewrite Hn..|]. exists c'. split; [done|].
  intros _. apply Hc'. by apply (add_nonempty _ _ _ _ Hr (Hw v) E).
Qed.

Lemma NewConsistent_total eo r : 0 < r → i64 (r * 4) ≠ 0 → (∀ v, 0 < Weight v) →
  ∃ c, NewConsistent ID Weight eo r = Some c ∧ (eo ≠ [] → circles c ≠ ∅).
Proof.
  intros Hr H4 Hw. unfold NewConsistent, Set_. cbn [fold_left mbind option_bind].
  destruct eo as [|v eo]; [by eexists|]. cbn [fold_left mbind option_bind].
  rewrite bool_decide_false by (cbn [members empty_ring]; apply not_elem_of_empty).
  destruct (add_total (empty_ring r) v (Weight v) H4) as [c1 E]. rewrite E.
  destruct (add_ok ID _ _ _ _ E) as (_ & _ & _ & _ & Hn & _).
  destruct (add_all_total eo c1) as (c & Ec & Hc); [by rewrite Hn..|done|]. exists c. split; [done|].
  intros _. apply Hc. by apply (add_nonempty (empty_ring r) v (Weight v) c1 Hr (Hw v) E).
Qed.

(** The map of the caches holds caches of the list, under distinct IDs. *)
Lemma elts_of_in l k n : elts_of ID l !! k = Some n → n ∈ l ∧ ID n = k.
Proof.
  unfold elts_of. rewrite <-fold_left_rev_right. intros Hk.
  assert (n ∈ rev l ∧ ID n = k) as [Hn Hi]; [|split; [|done]; by rewrite list_elem_of_In, <-in_rev, <-list_elem_of_In in Hn].
  revert Hk. induction (rev l) as [|x r IH]; cbn [fold_right]; [by rewrite lookup_empty|].
  destruct (decide (ID x = k)) as [Hx|Hne].
  - rewrite Hx, lookup_insert_eq. intros [= ->]. split; [by left|done].
  - rewrite lookup_insert_ne by done. intros [? ?]%IH. split; [by right|done].
Qed.

Lemma elts_of_nonempty l : l ≠ [] → elts_of ID l ≠ ∅.
Proof.
  intros Hl. destruct (rev l) as [|x r] eqn:E.
  { apply (f_equal (@rev Node)) in E. by rewrite rev_involutive in E. }
  unfold elts_of. rewrite <-fold_left_rev_right, E. cbn [fold_right]. apply insert_non_empty.
Qed.

Lemma order_facts l eo : eo ≡ₚ map snd (map_to_list (elts_of ID l)) →
  (∀ n, n ∈ eo → n ∈ l) ∧ NoDup (map ID eo) ∧ (l ≠ [] → eo ≠ []).
Proof.
  intros Heo. split_and!.
  - intros n. rewrite Heo. intros ((k & m) & -> & Hm%elem_of_map_to_list)%list_elem_of_fmap.
    by apply elts_of_in in Hm as [? _].
  - rewrite Heo, map_map. rewrite (map_ext_in _ fst); [apply NoDup_fst_map_to_list|].
    intros [k m] Hm%list_elem_of_In%elem_of_map_to_list. by apply elts_of_in in Hm as [_ ?].
  - intros Hl%elts_of_nonempty ->. apply Hl. apply map_to_list_empty_iff.
    apply Permutation_nil in Heo. by apply map_eq_nil in Heo.
Qed.
End build.

(** ** selector.New *)

Definition DefaultReplicas : Z := 20.

Section selector.
Context (conf : nat → bucket_conf) (order : list nat → list nat).

Definition ring_id (i : nat) : str := bucket_ID (conf i).
Definition ring_weight (i : nat) : Z := bucket_Weight (bc_driver (conf i)).

(** [hashring.New] with its options applied in order; the second result is
    always nil. *)
Definition hashring_New (l : list nat) (opts : list (Balancer (Node := nat) → Balancer (Node := nat)))
    : option (Balancer (Node := nat)) :=
  let b := fold_left (λ b opt, opt b) opts (mkBalancer l DefaultReplicas (empty_ring 0)) in
  Rebuild ring_id ring_weight b l (order l).

Definition WithReplicas (r : Z) (b : Balancer (Node := nat)) : Balancer (Node := nat) :=
  mkBalancer (buckets b) r (hashring b).

Definition selector_New (l : list nat) : option (Balancer (Node := nat)) := hashring_New l [WithReplicas 20].

(** [Select] on the bytes of the hash.  One position for every point. *)
Definition selector_Select (l : list nat) (id : ID) : option (option nat) :=
  b ← selector_New l;
  Select ring_id (λ i, bucket_UseAllow (bc_driver (conf i))) (λ i, bucket_HasBad (bc_driver (conf i)))
    (S (length (sortedHashes (hashring b)))) b (id_hash id).

#[local] Instance ring_pick : Selector := λ l id, default None (selector_Select l id).

Lemma weight_pos i : 0 < ring_weight i.
Proof. unfold ring_weight. by destruct (bc_driver (conf i)). Qed.

Lemma selector_New_total l : ∃ c, selector_New l = Some (mkBalancer l 20 c)
  ∧ NewConsistent ring_id ring_weight (order l) 20 = Some c ∧ (order l ≠ [] → circles c ≠ ∅).
Proof.
  destruct (NewConsistent_total ring_id ring_weight (order l) 20) as (c & E & Hc); [done|done|apply weight_pos|].
  exists c. unfold selector_New, hashring_New, Rebuild. cbn [fold_left WithReplicas replicas]. by rewrite E.
Qed.

(** A usable bucket is taken at the first step of the walk. *)
Lemma select_first b name n : buckets b ≠ [] → 0 < count (hashring b) →
  Get (hashring b) name = Some (Ok n) →
  Select ring_id (λ i, bucket_UseAllow (bc_driver (conf i))) (λ i, bucket_HasBad (bc_driver (conf i)))
    (S (length (sortedHashes (hashring b)))) b name = Some (Some n).
Proof.
  intros Hb Hc HG. unfold Select. destruct (buckets b) as [|x l]; [done|]. cbn [length select_loop].
  unfold Get in HG. unfold GetN. destruct (bool_decide (circles (hashring b) = ∅)); [done|].
  rewrite (proj2 (Z.ltb_ge (count (hashring b)) 1)) by lia. change (1 <? 0) with false. cbv iota.
  destruct (node_at (hashring b) _) as [m|]; [|done]. injection HG as ->. cbn [mbind option_bind]. change (1 =? 1) with true.
  cbv iota. change ([n] !! Z.to_nat (1 - 1)) with (Some n). cbn [mbind option_bind]. by destruct (bc_driver (conf n)).
Qed.

Hypothesis order_ok : ∀ l, order l ≡ₚ map snd (map_to_list (elts_of ring_id l)).

Lemma selector_owner l id : l ≠ [] → ∃ c n h, selector_New l = Some (mkBalancer l 20 c)
  ∧ selector_Select l id = Some (Some n) ∧ n ∈ l ∧ circles c !! h = Some n
  ∧ ∀ g, is_Some (circles c !! g) → nearest (hashKey c (id_hash id)) h g.
Proof.
  intros Hl. destruct (order_facts ring_id l _ (order_ok l)) as (Hin & Hnd & Hne).
  destruct (selector_New_total l) as (c & E & HN & Hc). specialize (Hne Hl). specialize (Hc Hne).
  destruct (NewConsistent_ok _ _ _ _ _ HN Hnd) as (Hok & Hcount & Hown).
  destruct (Get_ok c (id_hash id) Hok Hc) as (n & HG & Hh).
  destruct (clockwise c (hashKey c (id_hash id))) as [|h t] eqn:Ec; [done|].
  destruct (proj1 (head_clockwise c (hashKey c (id_hash id)) h Hok)) as [Hhs Hnear]; [by rewrite Ec|].
  destruct (proj1 (proj2 Hok h) Hhs) as [n' Hn']. rewrite (nodes_cons _ _ _ n') in Hh by done. simplify_eq/=.
  exists c, n, h. split_and!; [done| |by apply Hin, (Hown h)|done|by intros g Hg; apply Hnear, Hok].
  unfold selector_Select. rewrite E. cbn [mbind option_bind]. apply select_first; [done| |done].
  cbn [hashring]. rewrite Hcount. destruct (order l); [done|cbn [length]; lia].
Qed.

Lemma selector_empty id : selector_Select [] id = Some None.
Proof. unfold selector_Select. destruct (selector_New_total []) as (c & -> & _). done. Qed.

(** C28: The storage's selector keeps the promise the storage relies on: it
    answers for every layer and every object without a panic; on a layer with a
    bucket it returns a bucket of that layer, the owner of the first point of the
    ring after the hash of the object (the lowest point when there is none), and
    on an empty layer nil. *)
Theorem selector_refines_ring : SelectorLaws
  ∧ ∀ l id, (l = [] → selector_Select l id = Some None)
    ∧ (l ≠ [] → ∃ c n h, selector_New l = Some (mkBalancer l 20 c)
       ∧ selector_Select l id = Some (Some n) ∧ n ∈ l ∧ circles c !! h = Some n
       ∧ ∀ g, is_Some (circles c !! g) → nearest (hashKey c (id_hash id)) h g).
Proof.
  split; [|intros l id; split; [intros ->; apply selector_empty|apply selector_owner]].
  split; unfold sel_pick, ring_pick.
  - intros l id i. destruct (decide (l = [])) as [->|Hl]; [by rewrite selector_empty|].
    destruct (selector_owner l id Hl) as (c & n & h & _ & -> & Hn & _). by intros [= <-].
  - intros l id Hl. destruct (selector_owner l id Hl) as (c & n & h & _ & -> & _). by eexists.
Qed.
End selector.

(** ** A layer of two disks *)

Definition two_disks (i : nat) : bucket_conf :=
  mkConf Native (bs "warm") (if (i =? 0)%nat then bs "/cache1" else bs "/cache2").
Definition map_order (l : list nat) : list nat := map snd (map_to_list (elts_of (ring_id two_disks) l)).
Definition sel_id (u : str) : ID := mkID u [] u [].

Lemma selector_refines_ring_witness :
  selector_Select two_disks map_order [] (sel_id (bs "a")) = Some None
  ∧ SelectorLaws (H := ring_pick two_disks map_order)
  ∧ ∃ n, selector_Select two_disks map_order [0; 1]%nat (sel_id (bs "a")) = Some (Some n) ∧ n ∈ [0; 1]%nat.
Proof.
  destruct (selector_refines_ring two_disks map_order (λ l, Permutation_refl _)) as [Hlaws Hs].
  split; [vm_compute; reflexivity|]. split; [exact Hlaws|].
  destruct (proj2 (Hs [0; 1]%nat (sel_id (bs "a"))) ltac:(discriminate)) as (c & n & h & _ & E & Hn & _).
  exists n. exact (conj E Hn).
Defined.
