(* ===== verification/StorageLife.v ===== *)
(** * Opening and closing the storage: storage/storage.go, storage/migrator.go, conf/conf.go

    [New] makes a native storage, wrapped for directory marks, or a storage with
    migration: it opens a store in memory, then the buckets of the configuration one
    after the other, then, if the marks have a path, a second store.  [Close] closes
    what the storage knows.  Whether a database opens and what closing it answers are
    parameters.

    Proved: a storage that opens has opened every bucket and filed it in the layer of
    its type; [Close] closes every bucket of a layer, and the memory bucket that is
    also the warm layer a second time without effect, and reports an error exactly if
    a part that it closes had one; a bucket of a type the storage does not know stays
    open, and so does the store in memory that the path of the marks replaced.  A
    failing [New] leaves open what it has opened. *)

From S2P Require Import Prelude GoStrings Headers Object DiskBucket Storage.

Local Open Scope Z_scope.

(** ** Configuration *)

Record dir_aware := mkDirAware { da_Enabled : bool; da_StorePath : str; da_AutoClear : bool }.

Record storage_conf := mkStorageConf {
  sc_global : global_options; sc_Buckets : list bucket_options;
  sc_DirAware : option dir_aware; sc_Migration : option bool }.

Definition FillDefault (c : storage_conf) : storage_conf :=
  match sc_DirAware c with
  | Some _ => c
  | None => mkStorageConf (sc_global c) (sc_Buckets c) (Some (mkDirAware true (bs "/tmp/.diraware") true)) (sc_Migration c)
  end.

(** [StoreType] of the bucket that the factory makes. *)
Definition StoreType (o : bucket_options) : str := if bool_decide (bo_Driver o = bs "empty") then bs "empty" else bo_Type o.

(** ** Opening *)

(** The parts of a storage that have to be closed. *)
Inductive part := PBucket (i : nat) | PMemKV | PStoreKV (path : str).

#[export] Instance part_eq_dec : EqDecision part.
Proof. solve_decision. Defined.

Inductive open_error := FactoryNotFound (driver : str) | OpenFailed (i : nat) | SecondMemory.

Section open.
(** The index database of bucket [i] opens. *)
Variable opens : nat → bool.

(** The loop of [reinit]; the second component counts the buckets that are open. *)
Fixpoint open_buckets (migrator : bool) (g : global_options) (l : layers) (i : nat) (bks : list bucket_options) : result open_error layers * nat :=
  match bks with
  | [] => (Ok l, i)
  | b :: rest =>
      let o := mergeConfig g b in
      match NewBucket_driver (bo_Driver o) with
      | None => (Err (FactoryNotFound (bo_Driver o)), i)
      | Some _ =>
          if opens i then
            match add_layer migrator l i (StoreType o) with
            | None => (Err SecondMemory, S i)
            | Some l => open_buckets migrator g l (S i) rest
            end
          else (Err (OpenFailed i), i)
      end
  end.

(** With no warm bucket the memory bucket is the warm layer. *)
Definition warm_memory (l : layers) : layers :=
  match l_warm l, l_memory l with
  | [], Some i => mkLayers (l_hot l) [i] (l_cold l) (l_memory l)
  | _, _ => l
  end.

Definition reinit_buckets (migrator : bool) (c : storage_conf) : result open_error layers * nat :=
  match open_buckets migrator (sc_global c) (mkLayers [] [] [] None) 0 (sc_Buckets c) with
  | (Ok l, n) => (Ok (warm_memory l), n)
  | (Err e, n) => (Err e, n)
  end.

(** A storage: the store of [SharedKV], and the clearing of the marks if it is
    wrapped for them. *)
Record made := mkMade { mk_migrator : bool; mk_layers : layers; mk_sharedkv : part; mk_wrapped : option bool }.

(** The second store, if marks are on and have a path. *)
Definition replace_kv (c : storage_conf) : option dir_aware * list part * part :=
  match sc_DirAware c with
  | Some da =>
      if da_Enabled da then
        match da_StorePath da with
        | [] => (Some da, [], PMemKV)
        | path => (Some da, [PStoreKV path], PStoreKV path)
        end
      else (None, [], PMemKV)
  | None => (None, [], PMemKV)
  end.

(** What is open when the constructor returns. *)
Definition make (migrator : bool) (c : storage_conf) : result open_error made * list part :=
  let '(r, n) := reinit_buckets migrator c in
  let opened := PMemKV :: map PBucket (seq 0 n) in
  match r with
  | Err e => (Err e, opened)
  | Ok l =>
      let '(da, kvs, kv) := replace_kv c in
      (Ok (mkMade migrator l kv (if migrator then None else da_AutoClear <$> da)), opened ++ kvs)
  end.

Definition NewMigrator : storage_conf → result open_error made * list part := make true.

Definition New (c : storage_conf) : result open_error made * list part :=
  let c := FillDefault c in
  match sc_Migration c with Some true => NewMigrator c | _ => make false c end.
End open.

(** ** Closing *)

Section close.
Context {E : Type} (close_err : part → option E).

(** Closing a part after others: the bucket of the memory layer, which may be in the warm
    layer too, answers nil the second time.  This is [Close] of the memory driver; a bucket of the disk
    driver that is given the type of the memory layer would close its database again. *)
Definition close_part (memory : option nat) (trace : list part) (p : part) : option E :=
  if bool_decide (p ∈ trace) && bool_decide (PBucket <$> memory = Some p) then None else close_err p.

Definition close_one (memory : option nat) (s : list part * list E) (p : part) : list part * list E :=
  (s.1 ++ [p], match close_part memory s.1 p with Some e => s.2 ++ [e] | None => s.2 end).

(** The parts in the order in which they are closed; [errors.Join] drops the nil
    errors, and is nil if there is no other. *)
Definition close_order (m : made) : list part :=
  let l := mk_layers m in
  map PBucket (l_warm l ++ l_hot l ++ (if mk_migrator m then l_cold l else []) ++ option_list (l_memory l)) ++ [mk_sharedkv m].

Definition Close (m : made) : list part * list E := fold_left (close_one (l_memory (mk_layers m))) (close_order m) ([], []).
End close.

(** ** Theorems *)

(** The types of the buckets of a configuration. *)
Definition types_of (c : storage_conf) : list str := map (λ b, StoreType (mergeConfig (sc_global c) b)) (sc_Buckets c).

(** The types a storage keeps. *)
Definition kept (migrator : bool) (t : str) : Prop := warm_type t ∨ t = TypeHot ∨ t = TypeInMemory ∨ migrator = true ∧ t = TypeCold.

Lemma open_buckets_ok opens migrator g bks : ∀ l i l' n, open_buckets opens migrator g l i bks = (Ok l', n) →
  n = (i + length bks)%nat ∧ add_layers migrator l i (map (λ b, StoreType (mergeConfig g b)) bks) = Some l'.
Proof.
  induction bks as [|b bks IH]; intros l i l' n; cbn [open_buckets add_layers map length]; [intros [= <- <-]; split; [lia|done]|].
  destruct (NewBucket_driver _); [|done]. destruct (opens i); [|done]. destruct (add_layer _ _ _ _) as [l1|]; [|done].
  intros E. apply IH in E as [-> E]. split; [lia|done].
Qed.

(** What a constructor that succeeds has made. *)
Lemma make_ok opens migrator c m opened : make opens migrator c = (Ok m, opened) →
  reinit migrator (types_of c) = Some (mk_layers m) ∧ mk_migrator m = migrator
  ∧ opened = PMemKV :: map PBucket (seq 0 (length (sc_Buckets c))) ++ (if bool_decide (mk_sharedkv m = PMemKV) then [] else [mk_sharedkv m])
  ∧ ∀ i, mk_sharedkv m ≠ PBucket i.
Proof.
  unfold make, reinit_buckets. destruct (open_buckets _ _ _ _ _ _) as [[l|e] n] eqn:E; [|done]. apply open_buckets_ok in E as [-> E].
  destruct (replace_kv c) as [[da kvs] kv] eqn:Ek. intros [= <- <-]. cbn [mk_layers mk_migrator mk_sharedkv].
  split; [|split; [done|]].
  - unfold reinit, types_of. rewrite E. unfold warm_memory. by destruct (l_warm l), (l_memory l).
  - unfold replace_kv in Ek. repeat case_match; simplify_eq; (split; [|done]); cbn [app]; by rewrite ?app_nil_r.
Qed.

Lemma close_trace {E} (close_err : part → option E) mem ps : ∀ s, (fold_left (close_one close_err mem) ps s).1 = s.1 ++ ps.
Proof. induction ps as [|p ps IH]; intros s; cbn [fold_left]; [by rewrite app_nil_r|]. rewrite IH. cbn [close_one fst]. by rewrite <-app_assoc. Qed.

(** Errors are those of the parts that are closed, each part's once. *)
Lemma close_errors {E} (close_err : part → option E) mem ps : ∀ s,
  (∃ e, e ∈ (fold_left (close_one close_err mem) ps s).2) ↔ (∃ e, e ∈ s.2) ∨ ∃ p, p ∈ ps ∧ is_Some (close_err p) ∧ (p ∉ s.1 ∨ PBucket <$> mem ≠ Some p).
Proof.
  induction ps as [|p ps IH]; intros s; cbn [fold_left].
  { split; [by left|]. intros [?|(p & Hp & _)]; [done|]. by apply elem_of_nil in Hp. }
  rewrite IH. cbn [close_one fst snd]. unfold close_part.
  destruct (bool_decide (p ∈ s.1) && bool_decide (PBucket <$> mem = Some p)) eqn:Eb.
  - apply andb_true_iff in Eb as [E1%bool_decide_eq_true_1 E2%bool_decide_eq_true_1]. split.
    + intros [?|(q & Hq & He & Hn)]; [by left|]. right. exists q. split; [by right|]. split; [done|]. set_solver.
    + intros [?|(q & Hq & He & Hn)]; [by left|]. apply elem_of_cons in Hq as [->|Hq]; [by destruct Hn|].
      right. exists q. split; [done|]. split; [done|]. destruct Hn as [Hn|Hn]; [|by right].
      destruct (decide (q = p)) as [->|]; [done|]. left. set_solver.
  - apply andb_false_iff in Eb. destruct (close_err p) as [e|] eqn:Ee.
    + split; intros _; [|left; exists e; set_solver]. right. exists p. split; [by left|]. split; [by rewrite Ee|].
      destruct Eb as [Eb|Eb]; apply bool_decide_eq_false_1 in Eb; auto.
    + split.
      * intros [?|(q & Hq & He & Hn)]; [by left|]. right. exists q. split; [by right|]. split; [done|]. set_solver.
      * intros [?|(q & Hq & He & Hn)]; [by left|]. apply elem_of_cons in Hq as [->|Hq]; [rewrite Ee in He; by destruct He|].
        right. exists q. split; [done|]. split; [done|]. destruct Hn as [Hn|Hn]; [|by right]. destruct (decide (q = p)) as [->|]; [rewrite Ee in He; by destruct He|]. left. set_solver.
Qed.

(** C31: opened and closed.  When a storage has been made, with or without migration,
    every bucket of the configuration is open; closing it closes a bucket exactly if
    its type has a layer, closes the store that [SharedKV] returns, and reports an
    error exactly if one of the parts it closes has one.  A bucket of another type
    stays open, and so does the first store once it is replaced. *)
Theorem storage_closed {E} (close_err : part → option E) opens migrator c m opened : make opens migrator c = (Ok m, opened) →
  (∀ i, PBucket i ∈ opened ↔ is_Some (types_of c !! i))
  ∧ (∀ i, PBucket i ∈ (Close close_err m).1 ↔ ∃ t, types_of c !! i = Some t ∧ kept migrator t)
  ∧ (∀ p, p = PMemKV ∨ (∃ path, p = PStoreKV path) → (p ∈ (Close close_err m).1 ↔ p = mk_sharedkv m))
  ∧ ((∃ e, e ∈ (Close close_err m).2) ↔ ∃ p, p ∈ (Close close_err m).1 ∧ is_Some (close_err p)).
Proof.
  intros Hm. destruct (make_ok opens migrator c m opened Hm) as (Hl & Hmig & -> & Hkv). subst migrator. pose proof (layers_of_config (mk_migrator m) (types_of c)) as Hlay. rewrite Hl in Hlay.
  destruct Hlay as (Hh & Hw & Hc & Hmem). unfold Close. rewrite close_trace. cbn [fst app]. split; [|split; [|split]].
  - intros i. rewrite <-(length_map (λ b, StoreType (mergeConfig (sc_global c) b))). fold (types_of c). rewrite lookup_lt_is_Some, elem_of_cons, elem_of_app, list_elem_of_fmap.
    split; [|intros Hi; right; left; exists i; split; [done|]; apply elem_of_seq; lia].
    intros [?|[(j & [= <-] & Hj%elem_of_seq)|Hin]]; [done|lia|]. case_bool_decide; [by apply elem_of_nil in Hin|]. apply list_elem_of_singleton in Hin. by destruct (Hkv i).
  - intros i. unfold close_order, kept. rewrite elem_of_app, list_elem_of_singleton, list_elem_of_fmap.
    assert (PBucket i = mk_sharedkv m ↔ False) as -> by (split; [|done]; intros Hk; by destruct (Hkv i)).
    assert (∀ j, j ∈ option_list (l_memory (mk_layers m)) ↔ types_of c !! j = Some TypeInMemory) as Hopt.
    { intros j. rewrite <-Hmem. destruct (l_memory (mk_layers m)) as [n|]; cbn [option_list option_rect]; [rewrite list_elem_of_singleton|rewrite elem_of_nil; by split]. split; [by intros ->|congruence]. }
    assert (∀ j, j ∈ (if mk_migrator m then l_cold (mk_layers m) else []) ↔ mk_migrator m = true ∧ types_of c !! j = Some TypeCold) as Hcold.
    { intros j. destruct (mk_migrator m) eqn:Emg; [rewrite Hc; tauto|]. rewrite elem_of_nil. by split; [|intros [? _]]. }
    split.
    + intros [(j & [= <-] & Hj)|?]; [|done]. rewrite !elem_of_app, Hw, Hh, Hcold, Hopt in Hj.
      destruct Hj as [[(t & Ht & Hwt)|[Ht _]]|[Ht|[[Hmg Ht]|Ht]]]; eexists; (split; [exact Ht|]); auto 6.
    + intros (t & Ht & Hk). left. exists i. split; [done|]. rewrite !elem_of_app, Hw, Hh, Hcold, Hopt.
      destruct Hk as [Hk|[->|[->|[Hmg ->]]]]; [left; left; by exists t|auto 6..].
  - intros p Hp. unfold close_order. rewrite elem_of_app, list_elem_of_singleton, list_elem_of_fmap. split; [|by right]. intros [(j & -> & _)|?]; [by destruct Hp as [?|[? ?]]|done].
  - rewrite close_errors. cbn [fst snd]. split.
    + intros [[e He]|(p & ? & ? & _)]; [by apply elem_of_nil in He|by exists p].
    + intros (p & Hp & He). right. exists p. split; [done|]. split; [done|]. left. by apply not_elem_of_nil.
Qed.

(** A configuration whose second bucket does not open: the first one and the store
    stay open. *)
Example failed_open_leaks : ∃ c, New (λ i, (i =? 0)%nat) c = (Err (OpenFailed 1), [PMemKV; PBucket 0]).
Proof.
  set (b := mkOptions (bs "/d") (bs "native") [] (bs "pebble") (bs "/i") 0).
  exists (mkStorageConf (mkGlobal (bs "native") (bs "pebble") (bs "/i")) [b; b] None None). vm_compute. reflexivity.
Qed.

Definition life_bucket (typ : str) : bucket_options := mkOptions (bs "/d") (bs "native") typ (bs "pebble") (bs "/i") 0.
Definition life_conf : storage_conf :=
  mkStorageConf (mkGlobal (bs "native") (bs "pebble") (bs "/i")) [life_bucket (bs "warm"); life_bucket (bs "cold")] None None.

Lemma storage_closed_witness : ∃ m opened, New (λ _, true) life_conf = (Ok m, opened)
  ∧ PBucket 0 ∈ (Close (λ _, None : option unit) m).1 ∧ PBucket 1 ∈ opened ∧ PBucket 1 ∉ (Close (λ _, None : option unit) m).1 ∧ PMemKV ∉ (Close (λ _, None : option unit) m).1.
Proof.
  destruct (make (λ _, true) false (FillDefault life_conf)) as [[m|e] opened] eqn:E; [|vm_compute in E; discriminate E].
  exists m, opened. split; [exact E|].
  destruct (storage_closed (λ _, None : option unit) (λ _, true) false (FillDefault life_conf) m opened E) as (Ho & Hc & Hk & _).
  split; [|split; [|split]].
  - apply Hc. exists (bs "warm"). split; [vm_compute; reflexivity|]. left. right. reflexivity.
  - apply Ho. exists (bs "cold"). vm_compute. reflexivity.
  - intros Hin. apply Hc in Hin as (t & Ht & Hkept). vm_compute in Ht. injection Ht as <-. destruct Hkept as [[H|H]|[H|[H|[H _]]]]; vm_compute in H; discriminate H.
  - intros Hin. apply (proj1 (Hk PMemKV (or_introl eq_refl))) in Hin. vm_compute in E. injection E as <- _. discriminate Hin.
Defined.
