(* ===== verification/Restart.v ===== *)
(** * Restarting a bucket: New of storage/bucket/disk and of storage/bucket/memory

    A disk bucket is made over the index database and the chunk files that are there:
    [New] opens the database, starts the eviction goroutine and loads the use of every
    object into a new cache and its key and its domain into the shared store, which is
    empty after a restart.  The memory bucket starts without anything.

    Proved: if the cache has room for the objects of the index, after a restart every
    one of them is in the cache with the time and the number of its uses, is registered
    for directory purges, and is found and read as before; nothing waits for eviction. *)

From S2P Require Import Prelude GoStrings GoSort Headers Blocks Object CacheControl CachingState.
From S2P Require Import SharedKv Lfu IndexDb DiskBucket Storage.

Section restart.
Context {D K B : Type} `{PebbleOps D} `{PebbleOps K} `{BitmapOps B} `{MetaCodec B}.
Variable url_host : str → option str.

(** The database is open, the files are those of the directory; [loadLRU] runs before
    [New] returns unless loading is asynchronous. *)
Definition disk_New (typ path : str) (MaxObjectLimit : Z) (db : D) (kv : K) (files : gmap (list ascii) (list ascii)) : option (bucket D K) :=
  loadLRU (B := B) url_host (mkBucket (mkConf Native typ path) db kv (Lfu.New MaxObjectLimit) files []).

(** [vfs.NewMem] and a database in memory. *)
Definition mem_New (typ : str) (MaxObjectLimit : Z) (empty_db : D) (kv : K) : bucket D K :=
  mkBucket (mkConf Memory typ (bs "/")) empty_db kv (Lfu.New MaxObjectLimit) ∅ [].
End restart.

(** ** A cache with room *)

Lemma Set_room (c : Cache (K := list ascii) (V := Z)) k v : wf c →
  (is_Some (values c !! k) ∨ c_len c + 1 <= UpperBound c) →
  ∃ c', Lfu.Set_ c k v = Some ([], c') ∧ wf c' ∧ values c' = <[k := v]> (values c) ∧ UpperBound c' = UpperBound c ∧ LowerBound c' = LowerBound c.
Proof.
  intros Hwf Hroom. destruct (Set_wf c k v Hwf) as (evs & c' & Hs & Hw & HU & HL & _). unfold Lfu.Set_ in Hs.
  destruct (values c !! k) as [w|] eqn:Ek.
  - injection Hs as <- <-. eexists. split; [unfold Lfu.Set_; by rewrite Ek|]. done.
  - destruct Hroom as [[? ?]|Hroom]; [done|]. cbn [c_len] in Hs.
    assert ((UpperBound c >? 0) && (LowerBound c >? 0) && (c_len c + 1 >? UpperBound c) = false) as Hf.
    { apply andb_false_iff. right. rewrite Z.gtb_ltb. apply Z.ltb_ge. lia. }
    rewrite Hf in Hs. injection Hs as <- <-. eexists. split; [unfold Lfu.Set_; rewrite Ek; cbn [c_len]; by rewrite Hf|]. done.
Qed.

(** ** Loading *)

Section load.
Context {D K B : Type} `{PebbleLaws D} `{PebbleLaws K} `{BitmapOps B} `{CodecLaws B}.
Variable url_host : str → option str.
Implicit Types d : bucket D K.

Definition mark_of (m : Metadata B) : Z := NewMark (md_LastRefUnix m) (md_Refs m).

(** After the entries [done] have been loaded. *)
Record loaded (d0 : bucket D K) (done : list (list ascii * Metadata B)) d : Prop := {
  ld_ok : bucket_ok (B := B) d;
  ld_conf : b_conf d = b_conf d0;
  ld_db : b_db d = b_db d0;
  ld_files : b_files d = b_files d0;
  ld_evicted : b_evicted d = [];
  ld_bound : UpperBound (b_cache d) = UpperBound (b_cache d0);
  ld_cache : ∀ k v, values (b_cache d) !! k = Some v ↔ ∃ m, (k, m) ∈ done ∧ v = mark_of m;
  ld_registered : ∀ k m, (k, m) ∈ done → b_shared d !! ix_key d (md_ID m) = Some k }.

Lemma load_entry_ok d0 done d k m : bucket_ok (B := B) d0 → Z.of_nat (size (b_index (B := B) d0)) <= UpperBound (b_cache d0) →
  (∀ j x, (j, x) ∈ done → b_index (B := B) d0 !! j = Some x) → b_index (B := B) d0 !! k = Some m →
  loaded d0 done d → ∃ d', load_entry url_host (Some d) m = Some d' ∧ loaded d0 (done ++ [(k, m)]) d'.
Proof.
  intros Hok0 Hsize Hdone Hm [Hok Hconf Hdb Hfiles Hev Hb Hc Hr]. destruct (proj2 (proj1 Hok0) _ _ Hm) as [Hk Hwf].
  pose proof Hok as (Hi & Hw & Hs).
  destruct (Set_room (b_cache d) k (mark_of m) Hw) as (c' & Hset & Hw' & Hv' & HU & _).
  { destruct (values (b_cache d) !! k) eqn:Ek; [by left|right]. destruct Hw as (_ & _ & _ & ->). rewrite Hb.
    assert (S (size (values (b_cache d))) <= size (b_index (B := B) d0))%nat; [|lia].
    assert (size (<[k := mark_of m]> (values (b_cache d))) = S (size (values (b_cache d)))) as <- by (by apply map_size_insert_None). rewrite <-!size_dom. apply subseteq_size. intros j Hj%elem_of_dom. apply elem_of_dom.
    rewrite lookup_insert in Hj. case_decide as Hjk; [subst j; by rewrite Hm|]. destruct Hj as [v Hj]. apply Hc in Hj as (x & Hx & _). by rewrite (Hdone _ _ Hx). }
  cbn [load_entry mbind option_bind]. fold (mark_of m). rewrite <-Hk, Hset. set (d1 := b_with_cache d c' []).
  assert (bucket_ok (B := B) d1) as Hok1 by (split; [exact Hi|]; by split).
  destruct (kv_register_ok (B := B) url_host d1 (md_ID m) Hok1) as (d' & Hreg & Hok' & _ & Hcache & Hfl & Hcf & Hsh). exists d'. split; [exact Hreg|].
  assert (b_evicted d' = b_evicted d1 ∧ b_db d' = b_db d1) as [He' Hd'].
  { unfold kv_register in Hreg. apply fmap_Some in Hreg as (kv & _ & ->). done. }
  assert (b_conf d' = b_conf d) as Hcd by (by rewrite Hcf).
  split; [done|congruence|by rewrite Hd'|by rewrite Hfl| |rewrite Hcache; unfold d1; cbn [b_with_cache b_cache]; congruence| |].
  - rewrite He'. unfold d1. cbn [b_with_cache b_evicted]. unfold queue_evictions. rewrite Hev. by destruct (b_driver d).
  - intros j v. rewrite Hcache. unfold d1. cbn [b_with_cache b_cache]. rewrite Hv', lookup_insert. setoid_rewrite elem_of_app. setoid_rewrite list_elem_of_singleton.
    case_decide as Hj; [subst j|].
    + split; [intros [= <-]; exists m; auto|]. intros (x & [Hx|[= ->]] & ->); [|done]. apply Hdone in Hx. congruence.
    + rewrite Hc. split; [intros (x & ? & ?); exists x; auto|]. intros (x & [?|[= -> ->]] & ?); [by exists x|done].
  - intros j x. rewrite elem_of_app, list_elem_of_singleton. intros Hin. rewrite Hsh by apply ix_key_prefix.
    rewrite (ix_key_path d d') by by apply conf_path. change (ix_key d1 (md_ID m)) with (ix_key d (md_ID m)). change (b_shared d1) with (b_shared d).
    destruct (decide (ix_key d (md_ID m) = ix_key d (md_ID x))) as [E|Hne].
    + rewrite E, lookup_insert_eq. f_equal. destruct Hin as [Hin|[= -> ->]]; [|done]. apply Hdone in Hin. destruct (proj2 (proj1 Hok0) _ _ Hin) as [-> Hwx].
      rewrite !id_wf_hash by done. by apply ix_key_inj in E as ->.
    + rewrite lookup_insert_ne by done. destruct Hin as [Hin|[= -> ->]]; [by apply Hr|done].
Qed.

Lemma load_all d0 l : ∀ done d, bucket_ok (B := B) d0 → Z.of_nat (size (b_index (B := B) d0)) <= UpperBound (b_cache d0) →
  (∀ j x, (j, x) ∈ done ++ l → b_index (B := B) d0 !! j = Some x) → loaded d0 done d →
  ∃ d', fold_left (λ s km, load_entry url_host s km.2) l (Some d) = Some d' ∧ loaded d0 (done ++ l) d'.
Proof.
  induction l as [|[k m] l IH]; intros done d Hok Hsz Hall Hl; [exists d; by rewrite app_nil_r|]. cbn [fold_left snd].
  destruct (load_entry_ok d0 done d k m) as (d' & -> & Hl'); [done|done| | |done|].
  - intros j x Hx. apply Hall, elem_of_app. by left.
  - apply Hall, elem_of_app. right. by left.
  - destruct (IH (done ++ [(k, m)]) d' Hok Hsz) as (d'' & Hf & Hl''); [by rewrite <-app_assoc|done|]. exists d''. by rewrite <-app_assoc in Hl''.
Qed.

(** C35: a restart.  Over an index whose records can be read, each under the hash of
    its own key, with a shared store whose counters are well formed, and with room in
    the cache for all objects, [New] returns a bucket that satisfies the invariant of
    the disk bucket, has the same index and the same files and nothing to evict; its
    cache holds exactly the objects of the index, with the marks their metadata have;
    and every object is registered for directory purges. *)
Theorem bucket_restart typ path limit (db : D) (kv : K) files :
  db_clean (B := B) db → (∀ k m, index_view (B := B) db !! k = Some m → k = id_hash (md_ID m) ∧ id_wf (md_ID m)) →
  (∀ k v, has_prefix domain_prefix k = true → pb_view kv !! k = Some v → length v = 4%nat) →
  0 < limit → Z.of_nat (size (index_view (B := B) db)) <= limit →
  ∃ d, disk_New (B := B) url_host typ path limit db kv files = Some d ∧ bucket_ok (B := B) d
  ∧ b_index d = index_view (B := B) db ∧ b_files d = files ∧ b_evicted d = []
  ∧ (∀ k v, values (b_cache d) !! k = Some v ↔ ∃ m, index_view (B := B) db !! k = Some m ∧ v = mark_of m)
  ∧ registered (B := B) d
  ∧ ∀ now mig hot id, (λ r, r.1.1) <$> disk_Lookup (B := B) now mig hot d id = Some (index_Get db (id_hash id)).
Proof.
  intros Hcl Hwf Hkv Hlim Hsz. unfold disk_New. set (d0 := mkBucket _ _ _ _ _ _).
  assert (b_cache d0 = mkCache limit limit ∅ [] 0) as Hc0 by (unfold d0; cbn [b_cache]; unfold Lfu.New; case_if; [done|lia]).
  assert (bucket_ok (B := B) d0) as Hok0 by (split; [by split|]; split; [rewrite Hc0; apply wf_empty|done]).
  destruct (index_fold (B := B) db) as (l & Hit & Hl).
  destruct (load_all d0 l [] d0 Hok0) as (d & Hrun & [Hok Hconf Hdb Hfiles Hev Hb Hc Hr]).
  - by rewrite Hc0.
  - intros j x Hx. by apply Hl.
  - split; try done; [|intros k m Hm; by apply elem_of_nil in Hm]. intros k v. rewrite Hc0. cbn [values]. rewrite lookup_empty.
    split; [done|]. intros (m & Hm & _). by apply elem_of_nil in Hm.
  - exists d. split; [unfold loadLRU; rewrite Hit; exact Hrun|]. split; [done|]. cbn [app] in *.
    assert (b_index (B := B) d = index_view (B := B) db) as Hix by (unfold b_index; by rewrite Hdb).
    split; [done|]. split; [done|]. split; [done|]. split; [|split].
    + intros k v. rewrite Hc. by setoid_rewrite Hl.
    + intros k m Hm. rewrite Hix in Hm. apply Hr. by apply Hl.
    + intros now mig hot id. unfold disk_Lookup. rewrite Hdb. change (b_db d0) with db. destruct (index_Get db (id_hash id)) as [m|e]; [|done].
      destruct (touch_ok now mig hot d id Hok) as (d' & p & -> & _). done.
Qed.
End load.

(** A bucket with an object of two chunks, started again with an empty store. *)
Definition rs_db : gmap (list ascii) (list ascii) := b_db ex_full.

Lemma bucket_restart_witness : ∃ d, disk_New (B := N) ex_host (bs "warm") (bs "/c") 8 rs_db (∅ : gmap (list ascii) (list ascii)) (b_files ex_full) = Some d
  ∧ (∃ m, b_index (B := N) d !! id_hash ex_id = Some m) ∧ is_Some (values (b_cache d) !! id_hash ex_id).
Proof.
  destruct (bucket_restart (B := N) ex_host (bs "warm") (bs "/c") 8 rs_db (∅ : gmap (list ascii) (list ascii)) (b_files ex_full)) as (d & Hd & _ & Hi & _ & _ & Hc & _).
  - exact (proj1 (proj1 ex_full_ok)).
  - exact (proj2 (proj1 ex_full_ok)).
  - intros k v _ Hv. cbn in Hv. discriminate (eq_trans (eq_sym (lookup_empty (M := gmap (list ascii)) k)) Hv).
  - reflexivity.
  - vm_compute. discriminate.
  - assert (index_view (B := N) rs_db !! id_hash ex_id = Some (ex_md 0 3 [] ex_id)) as Hm by (vm_compute; reflexivity).
    exists d. split; [exact Hd|]. split; [exists (ex_md 0 3 [] ex_id); rewrite Hi; exact Hm|].
    exists (mark_of (ex_md 0 3 [] ex_id)). apply Hc. exists (ex_md 0 3 [] ex_id). exact (conj Hm eq_refl).
Defined.
