(* ===== verification/Purge.v ===== *)
(** * The purge plugin: plugin/purge/purge.go

    The handler of PURGE requests: it checks the address of the client, reads
    from a header what kind of purge is asked for, and calls [PURGE] of the
    storage.  [url.Parse] (its host) and the handler behind it are parameters,
    the storage is an interface with its store and its purge.

    Proved: how the header is read; the answer on every path, and that the
    storage is only changed by an allowed PURGE request.  A purge of a directory
    first looks for a counter of the domain in the store the storage reads; when
    that store is not the one the buckets write, as with directory marks on disk,
    every purge of a directory is dropped, and answered as a success. *)

From S2P Require Import Prelude GoStrings GoSort Headers Blocks Object CachingState SharedKv IndexDb DiskBucket Storage.

Record purge_request := mkPurgeReq {
  pr_Method : str; pr_RemoteAddr : str; pr_Header : header; pr_URL : str }.

Definition PurgeMethod : str := bs "PURGE".
Definition InternalStoreUrl : str := bs "i-x-store-url".

Definition parsePurgeControl (headValue : str) : PurgeControl :=
  let param := split_byte ","%char (to_lower headValue) in
  let dir := match param with p :: _ => bool_decide (p = bs "dir") | [] => false end in
  match param with
  | [_; mode] => let hasHard := bool_decide (mode = bs "hard") in mkPurge hasHard dir (negb hasHard)
  | _ => mkPurge false dir true
  end.

(** The answer of the handler: passed on to the next one, or the status it
    wrote, if any, with the label it counted. *)
Inductive purge_answer := Next | Answered (status : option Z) (label : Z).

(** What the client sees: net/http sends 200 if no status was written. *)
Definition seen_status (a : purge_answer) : option Z :=
  match a with Next => None | Answered None _ => Some 200 | Answered (Some s) _ => Some s end.

(** The URL a request is about. *)
Definition purge_url (req : purge_request) : str :=
  let storeUrl := header_get InternalStoreUrl (pr_Header req) in
  match storeUrl with [] => pr_URL req | _ => storeUrl end.

Section handler.
Context {K T : Type} `{PebbleOps K}.
Variable url_host : str → option str.
Variable SharedKV : T → K.
Variable PURGE : T → str → PurgeControl → option (option purge_error * T).
Variable allowAddr : list str.
Variable HeaderName : str.

(** The answer to what [PURGE] returned. *)
Definition purge_status (e : option purge_error) : Z :=
  match e with None => 200 | Some (PurgeIndex KeyNotFound) => 404 | Some _ => 500 end.

Definition HandleFunc (t : T) (req : purge_request) : option (purge_answer * T) :=
  if negb (bool_decide (pr_Method req = PurgeMethod)) then Some (Next, t)
  else
    let ip := default [] (head (split_byte ":"%char (pr_RemoteAddr req))) in
    if negb (bool_decide (ip ∈ allowAddr)) then Some (Answered (Some 403) 403, t)
    else
      let storeUrl := purge_url req in
      match url_host storeUrl with
      | None => Some (Answered None 500, t)
      | Some host =>
          let ctrl := parsePurgeControl (header_get HeaderName (pr_Header req)) in
          let run :=
            (λ '(e, t), (Answered (Some (purge_status e)) (purge_status e), t)) <$> PURGE t storeUrl ctrl in
          if pc_Dir ctrl then
            match kv_Get (SharedKV t) (domain_prefix ++ host) with
            | Err DbNotFound => Some (Answered None 404, t)
            | _ => run
            end
          else run
      end.

(** The tasks of directory marks: key without its prefix and time; [None] is the
    panic of a short value. *)
Definition add_task (acc : option (list (str * Z))) (key val : str) : option (list (str * Z)) :=
  l ← acc;
  if (length val <? 8)%nat then None else Some (l ++ [(drop 4 key, le_val (take 8 val))]).

Definition purge_tasks (t : T) : option (list (str * Z)) :=
  match kv_IteratePrefix (SharedKV t) (bs "dir/") add_task (Some []) with Ok r => r | Err _ => Some [] end.
End handler.

(** ** The header *)

Lemma split_two c s a b : split_byte c s = [a; b] ↔ s = a ++ c :: b ∧ c ∉ a ∧ c ∉ b.
Proof.
  split.
  - intros E. destruct (decide (c ∈ s)) as [Hc|Hn]; [|by rewrite split_byte_notin in E].
    destruct (list_elem_of_split_l s c Hc) as (x & y & -> & Hx).
    rewrite split_byte_app in E by done. destruct (decide (c ∈ y)) as [Hy|Hy].
    + destruct (split_byte_two c y Hy) as (? & ? & ? & Ey). congruence.
    + rewrite split_byte_notin in E by done. by simplify_eq.
  - intros (-> & Ha & Hb). by rewrite split_byte_app, split_byte_notin.
Qed.

Lemma split_head c s a : head (split_byte c s) = Some a ↔ (s = a ∧ c ∉ s) ∨ ∃ r, s = a ++ c :: r ∧ c ∉ a.
Proof.
  destruct (decide (c ∈ s)) as [Hc|Hn].
  - destruct (list_elem_of_split_l s c Hc) as (x & y & -> & Hx). rewrite split_byte_app by done. simpl. split.
    + intros [= ->]. right. eauto.
    + intros [[_ Hn]|(r & E & Ha)]; [done|]. f_equal.
      assert (∀ x a y r, c ∉ x → c ∉ a → x ++ c :: y = a ++ c :: r → x = a) as Hinj; [|by eapply Hinj].
      clear. induction x as [|h x IH]; intros [|h' a] y r Hx Ha E; simplify_eq/=; [done|set_solver..|]. f_equal. eapply IH; set_solver.
  - rewrite split_byte_notin by done. simpl. split; [intros [= ->]; by left|].
    intros [[-> _]|(r & -> & _)]; [done|]. set_solver.
Qed.

(** how a purge is asked for.  Up to letter case, the purge is of a directory
    exactly if the header is [dir] or begins with [dir] and a comma; it is hard
    exactly if the header has one comma and [hard] behind it; and it is a mark
    whenever it is not hard. *)
Theorem purge_control_read v : let s := to_lower v in let c := parsePurgeControl v in
  (pc_Dir c = true ↔ s = bs "dir" ∨ ∃ r, s = bs "dir" ++ ","%char :: r)
  ∧ (pc_Hard c = true ↔ ∃ a, s = a ++ ","%char :: bs "hard" ∧ ","%char ∉ a)
  ∧ pc_MarkExpired c = negb (pc_Hard c).
Proof.
  intros s c. subst c. unfold parsePurgeControl. fold s.
  assert (","%char ∉ bs "dir") as Hcd by (apply (bool_decide_eq_true_1 _); reflexivity).
  assert (","%char ∉ bs "hard") as Hch by (apply (bool_decide_eq_true_1 _); reflexivity).
  assert (head (split_byte ","%char s) = Some (bs "dir") ↔ s = bs "dir" ∨ ∃ r, s = bs "dir" ++ ","%char :: r) as Hd.
  { rewrite split_head. split; [intros [[-> _]|(r & -> & _)]; eauto|]. intros [->|(r & ->)]; [by left|right; eauto]. }
  assert ((∃ a, split_byte ","%char s = [a; bs "hard"]) ↔ ∃ a, s = a ++ ","%char :: bs "hard" ∧ ","%char ∉ a) as Hh.
  { setoid_rewrite split_two. naive_solver. }
  rewrite <-Hd, <-Hh. clear Hd Hh Hcd Hch. pose proof (split_byte_ne ","%char s) as Hne.
  destruct (split_byte ","%char s) as [|p [|q [|r l]]]; [done|..]; cbn [head pc_Dir pc_Hard pc_MarkExpired];
    rewrite ?bool_decide_eq_true; naive_solver.
Qed.

(** ** The answers *)

Section answers.
Context {K T : Type} `{PebbleOps K}.
Variable url_host : str → option str.
Variable SharedKV : T → K.
Variable PURGE : T → str → PurgeControl → option (option purge_error * T).
Variable allowAddr : list str.
Variable HeaderName : str.

(** C40: the handler of a purge, on every path.  Any other method is passed on and a
    client that is not on the list gets 403; for neither is the storage touched.  For an
    allowed client: if the URL does not parse nothing is purged, 500 is counted and no status is written,
    so that the client sees 200; so it is, with 404 counted, for a
    directory of a domain that has no counter.  Otherwise [PURGE] runs once, on the URL of the request and as
    the header asks (a directory exactly for [dir] up to letter case, alone or before a comma; hard
    exactly if the header has one comma, with [hard] behind it; else soft), and the status written, and counted, is 200 if it
    succeeded, 404 if it found nothing and 500 if it failed; a panic of it is one of the
    handler. *)
Theorem purge_answered (t : T) req : let ip := default [] (head (split_byte ":"%char (pr_RemoteAddr req))) in
  let url := purge_url req in let asked := to_lower (header_get HeaderName (pr_Header req)) in
  let r := HandleFunc url_host SharedKV PURGE allowAddr HeaderName t req in
  (pr_Method req ≠ PurgeMethod → r = Some (Next, t))
  ∧ (pr_Method req = PurgeMethod → ip ∉ allowAddr → r = Some (Answered (Some 403) 403, t))
  ∧ (pr_Method req = PurgeMethod → ip ∈ allowAddr →
      (url_host url = None → r = Some (Answered None 500, t))
      ∧ ∀ host, url_host url = Some host → ∃ ctrl,
          (pc_Dir ctrl = true ↔ asked = bs "dir" ∨ ∃ rest, asked = bs "dir" ++ ","%char :: rest)
          ∧ (pc_Hard ctrl = true ↔ ∃ a, asked = a ++ ","%char :: bs "hard" ∧ ","%char ∉ a)
          ∧ pc_MarkExpired ctrl = negb (pc_Hard ctrl)
          ∧ (pc_Dir ctrl = true → kv_Get (SharedKV t) (domain_prefix ++ host) = Err DbNotFound → r = Some (Answered None 404, t))
          ∧ (pc_Dir ctrl = false ∨ kv_Get (SharedKV t) (domain_prefix ++ host) ≠ Err DbNotFound →
               (∀ e t', PURGE t url ctrl = Some (e, t') →
                  let status := match e with None => 200 | Some (PurgeIndex KeyNotFound) => 404 | Some _ => 500 end in
                  r = Some (Answered (Some status) status, t'))
               ∧ (PURGE t url ctrl = None → r = None))).
Proof.
  intros ip url asked r. unfold r, HandleFunc. fold ip url. split; [|split].
  - intros Hm. by rewrite bool_decide_eq_false_2.
  - intros Hm Hip. by rewrite bool_decide_eq_true_2, bool_decide_eq_false_2.
  - intros Hm Hip. rewrite !bool_decide_eq_true_2 by done. cbn [negb]. split; [by intros ->|]. intros host Hu. rewrite Hu.
    exists (parsePurgeControl (header_get HeaderName (pr_Header req))). set (ctrl := parsePurgeControl _).
    destruct (purge_control_read (header_get HeaderName (pr_Header req))) as (Hd & Hh & Hs). fold asked ctrl in Hd, Hh, Hs.
    split; [exact Hd|]. split; [exact Hh|]. split; [exact Hs|]. split; [by intros -> ->|]. intros Hrun. unfold purge_status. split.
    + intros e t' Hp. rewrite Hp. destruct (pc_Dir ctrl); [|done]. destruct Hrun as [|Hk]; [done|]. destruct (kv_Get _ _) as [v|[|code]]; done.
    + intros Hp. rewrite Hp. destruct (pc_Dir ctrl); [|done]. destruct Hrun as [|Hk]; [done|]. destruct (kv_Get _ _) as [v|[|code]]; done.
Qed.

Lemma unknown_domain (t : T) req host : pr_Method req = PurgeMethod →
  default [] (head (split_byte ":"%char (pr_RemoteAddr req))) ∈ allowAddr →
  url_host (purge_url req) = Some host → pc_Dir (parsePurgeControl (header_get HeaderName (pr_Header req))) = true →
  kv_Get (SharedKV t) (domain_prefix ++ host) = Err DbNotFound →
  HandleFunc url_host SharedKV PURGE allowAddr HeaderName t req = Some (Answered None 404, t).
Proof.
  intros Hm Hip Hu Hd Hg. unfold HandleFunc. rewrite !bool_decide_eq_true_2 by done. cbn [negb]. by rewrite Hu, Hd, Hg.
Qed.
End answers.

(** with directory marks kept on disk, every purge of a directory is dropped.
    The storage then reads another store than the one the buckets write, and
    nothing writes domain counters there; so whatever objects the storage has,
    an allowed purge of a directory changes nothing, and the client sees 200. *)
Theorem dir_purge_dropped {D K B : Type} `{PebbleOps D} `{PebbleLaws K} `{BitmapOps B} `{MetaCodec B} `{Selector}
    url_host now mig hot fuel allowAddr HeaderName (st : storage D K) kv req host : st_own st = Some kv →
  (∀ k, has_prefix domain_prefix k = true → pb_view kv !! k = None) →
  pr_Method req = PurgeMethod → default [] (head (split_byte ":"%char (pr_RemoteAddr req))) ∈ allowAddr →
  url_host (purge_url req) = Some host → pc_Dir (parsePurgeControl (header_get HeaderName (pr_Header req))) = true →
  ∃ a, HandleFunc url_host Storage.SharedKV (native_PURGE (B := B) url_host now mig hot fuel) allowAddr HeaderName st req = Some (a, st)
  ∧ seen_status a = Some 200.
Proof.
  intros Hown Hno Hm Hip Hu Hd. exists (Answered None 404). split; [|done].
  apply (unknown_domain _ _ _ _ _ _ _ host); try done. unfold Storage.SharedKV, kv_Get. rewrite Hown, pb_get_view.
  by rewrite (Hno _ (has_prefix_app _ _)).
Qed.

(** ** Concrete requests *)

Definition purge_req (typ : str) : purge_request :=
  mkPurgeReq PurgeMethod (bs "127.0.0.1:9") {[bs "Purge-Type" := [typ]]} (bs "http://h/a").

#[local] Instance warm_pick : Selector := λ l _, head l.

Definition purge_store : storage (gmap (list ascii) (list ascii)) (gmap (list ascii) (list ascii)) :=
  mkStorage (mkLayers [] [0%nat] [] None) [ex_full] (b_kv ex_full) (Some ∅).

(** A hard purge of one file runs; one with a URL that does not parse does not. *)
Lemma purge_answered_witness :
  (∃ st', HandleFunc ex_host Storage.SharedKV (native_PURGE (B := N) ex_host 5 false (λ _, false) 9) [bs "127.0.0.1"] (bs "Purge-Type")
     purge_store (purge_req (bs "FILE,hard")) = Some (Answered (Some 200) 200, st'))
  ∧ HandleFunc (λ _, None) Storage.SharedKV (native_PURGE (B := N) ex_host 5 false (λ _, false) 9) [bs "127.0.0.1"] (bs "Purge-Type")
     purge_store (purge_req (bs "dir,hard")) = Some (Answered None 500, purge_store).
Proof.
  split.
  - assert (∃ st', native_PURGE (B := N) ex_host 5 false (λ _, false) 9 purge_store (bs "http://h/a") (mkPurge true false false) = Some (None, st')) as [st' E].
    { assert ((λ r, bool_decide (is_Some (fst r))) <$>
        native_PURGE (B := N) ex_host 5 false (λ _, false) 9 purge_store (bs "http://h/a") (mkPurge true false false) = Some false) as Ht
        by (vm_compute; reflexivity).
      destruct (native_PURGE _ _ _ _ _ _ _ _) as [[[e|] st']|]; [discriminate Ht|by exists st'|discriminate Ht]. }
    exists st'.
    destruct (purge_answered ex_host Storage.SharedKV (native_PURGE (B := N) ex_host 5 false (λ _, false) 9) [bs "127.0.0.1"] (bs "Purge-Type")
      purge_store (purge_req (bs "FILE,hard"))) as (_ & _ & Hrun).
    destruct Hrun as [_ Hrun]; [reflexivity|apply list_elem_of_here|].
    destruct (Hrun (bs "h")) as (ctrl & Hd & Hh & Hs & _ & Hp); [reflexivity|].
    assert (ctrl = mkPurge true false false) as ->.
    { destruct ctrl as [h d s]. cbn [pc_Dir pc_Hard pc_MarkExpired] in *. assert (h = true) as ->.
      { apply Hh. exists (bs "file"). split; [vm_compute; reflexivity|apply (bool_decide_eq_true_1 _); vm_compute; reflexivity]. }
      destruct d; [|by rewrite Hs]. destruct Hd as [[Hd|[rest Hd]] _]; [done|vm_compute in Hd; discriminate Hd..]. }
    destruct Hp as [Hp _]; [by left|]. apply (Hp None st'). exact E.
  - destruct (purge_answered (λ _, None) Storage.SharedKV (native_PURGE (B := N) ex_host 5 false (λ _, false) 9) [bs "127.0.0.1"] (bs "Purge-Type")
      purge_store (purge_req (bs "dir,hard"))) as (_ & _ & Hrun).
    apply Hrun; [reflexivity|apply list_elem_of_here|reflexivity].
Defined.

Lemma dir_purge_dropped_witness : ∃ a,
  HandleFunc ex_host Storage.SharedKV (native_PURGE (B := N) ex_host 5 false (λ _, false) 9) [bs "127.0.0.1"] (bs "Purge-Type")
    purge_store (purge_req (bs "dir,hard")) = Some (a, purge_store) ∧ seen_status a = Some 200.
Proof.
  apply (dir_purge_dropped (B := N) ex_host 5 false (λ _, false) 9 [bs "127.0.0.1"] (bs "Purge-Type") purge_store ∅ (purge_req (bs "dir,hard")) (bs "h")).
  - reflexivity.
  - intros k _. reflexivity.
  - reflexivity.
  - apply list_elem_of_here.
  - reflexivity.
  - vm_compute. reflexivity.
Defined.

(** The port is cut at the first colon: no client with an IPv6 address is allowed
    by its address. *)
Example ipv6_refused : head (split_byte ":"%char (bs "[::1]:1234")) = Some (bs "[").
Proof. reflexivity. Qed.
