(* ===== verification/SingleFlight.v ===== *)
(** * Single flight: proxy/singleflight/singleflight.go, proxy/proxy.go

    Identical upstream requests in progress are sent once.  [DoChan] registers a
    caller under a key and gives it a channel; when the call returns, every
    channel of it gets a result.  The caller that started the call gets the
    response with a body that writes what it reads into pipes, one per other
    caller, whose copies of the response read from them.

    The state has the calls in progress by key, every call ever started, and the
    channels.  A step is a critical section: registering, finishing, forgetting.

    Proved by induction over the steps: every caller belongs to one call, gets no
    result while that is in progress and its result once it has returned, and can
    always get one; at most one call per key is in progress; after each read the
    bodies of the other callers are what the first one has read.  They end when the first caller closes its body, whether it was
    read to the end or not, and one of them that closes early makes the reads of
    the first one fail.  The key runs the method, the URL and the range together,
    and a client for a Unix socket is never found again. *)

From S2P Require Import Prelude GoStrings Headers CachingState.

Section flight.
Context {R E : Type}.   (* responses, errors *)

(** What [fn] did. *)
Inductive outcome := Returned (v : option R) (e : option E) | Panicked | Exited.

(** The body of a delivered response: the one [fn] returned, the same read
    through the pipes, or the reading end of a pipe. *)
Inductive body := Original | Teed | Piped (i : nat).

Record Result := mkResult { res_Val : option (R * body); res_Err : option E; res_Shared : bool }.

Record call := mkCall { c_key : str; c_dups : nat; c_chans : list nat; c_out : option outcome }.

(** [g_chans]: what was sent on the channels made so far. *)
Record Group := mkGroup { g_m : gmap (list ascii) nat; g_calls : list call; g_chans : list (option Result) }.

Definition NewGroup : Group := mkGroup ∅ [] [].

(** [DoChan]: the number of the channel and the new state. *)
Definition DoChan (g : Group) (key : str) : nat * Group :=
  let ch := length (g_chans g) in
  let chans := g_chans g ++ [None] in
  match g_m g !! key with
  | Some c =>
      match g_calls g !! c with
      | Some k =>
          (ch, mkGroup (g_m g) (<[c := mkCall (c_key k) (S (c_dups k)) (c_chans k ++ [ch]) (c_out k)]> (g_calls g)) chans)
      | None => (ch, mkGroup (g_m g) (g_calls g) chans)
      end
  | None => (ch, mkGroup (<[key := length (g_calls g)]> (g_m g)) (g_calls g ++ [mkCall key 0 [ch] None]) chans)
  end.

(** [Do], the call itself: it waits on no channel. *)
Definition Do (g : Group) (key : str) : Group :=
  match g_m g !! key with
  | Some c =>
      match g_calls g !! c with
      | Some k => mkGroup (g_m g) (<[c := mkCall (c_key k) (S (c_dups k)) (c_chans k) (c_out k)]> (g_calls g)) (g_chans g)
      | None => g
      end
  | None => mkGroup (<[key := length (g_calls g)]> (g_m g)) (g_calls g ++ [mkCall key 0 [] None]) (g_chans g)
  end.

Definition send (ch : nat) (r : Result) (chans : list (option Result)) : list (option Result) := <[ch := Some r]> chans.

(** The other callers, the [i]-th of them with the [i]-th pipe. *)
Fixpoint send_copies (v : R) (e : option E) (i : nat) (l : list nat) (chans : list (option Result)) : list (option Result) :=
  match l with
  | [] => chans
  | ch :: l => send_copies v e (S i) l (send ch (mkResult (Some (v, Piped i)) e true) chans)
  end.

(** The deliveries of [doCall]; [None] is a panic: of the function, which brings
    the process down, or of an index into no channels. *)
Definition deliver (k : call) (v : option R) (e : option E) (chans : list (option Result)) : option (list (option Result)) :=
  let shared := (0 <? c_dups k)%nat in
  match shared, v with
  | true, None => Some (fold_left (λ chans ch, send ch (mkResult None e true) chans) (c_chans k) chans)
  | _, _ =>
      let chans := match v with
                   | Some x => if shared then send_copies x e 0 (tail (c_chans k)) chans else chans
                   | None => chans
                   end in
      match c_chans k with
      | [] => None
      | ch :: _ => Some (send ch (mkResult ((λ x, (x, if shared then Teed else Original)) <$> v) e shared) chans)
      end
  end.

(** The end of [doCall] of call [c]. *)
Definition finish (g : Group) (c : nat) (out : outcome) : option Group :=
  match g_calls g !! c with
  | None => None
  | Some k =>
      let m := match g_m g !! c_key k with
               | Some c' => if decide (c' = c) then delete (c_key k) (g_m g) else g_m g
               | None => g_m g
               end in
      let calls := <[c := mkCall (c_key k) (c_dups k) (c_chans k) (Some out)]> (g_calls g) in
      match out with
      | Panicked => None
      | Exited => Some (mkGroup m calls (g_chans g))
      | Returned v e => mkGroup m calls <$> deliver k v e (g_chans g)
      end
  end.

Definition Forget (g : Group) (key : str) : Group := mkGroup (delete key (g_m g)) (g_calls g) (g_chans g).

(** A call ends once: when it has no outcome yet. *)
Inductive flight_step : Group → Group → Prop :=
| step_DoChan g key : flight_step g (snd (DoChan g key))
| step_finish g c k out g' : g_calls g !! c = Some k → c_out k = None → finish g c out = Some g' → flight_step g g'
| step_Forget g key : flight_step g (Forget g key).

(** The steps of the proxy, which never forgets a key. *)
Inductive request_step : Group → Group → Prop :=
| request_DoChan g key : request_step g (snd (DoChan g key))
| request_finish g c k out g' : g_calls g !! c = Some k → c_out k = None → finish g c out = Some g' → request_step g g'.
End flight.
Arguments Group : clear implicits.
Arguments Result : clear implicits.
Arguments outcome : clear implicits.
Arguments call : clear implicits.

(** ** Who gets what *)

Section theorems.
Context {R E : Type}.
Implicit Types (g : Group R E) (k : call R E).

(** The result the [i]-th of [n] callers is owed. *)
Definition owed (v : option R) (e : option E) (n i : nat) : Result R E :=
  mkResult ((λ x, (x, if (1 <? n)%nat then match i with O => Teed | S j => Piped j end else Original)) <$> v) e (1 <? n)%nat.

(** A call in a state: its channels exist and have got nothing before it returned,
    and what they are owed after. *)
Definition call_ok g (k : call R E) : Prop :=
  c_chans k ≠ [] ∧ length (c_chans k) = S (c_dups k)
  ∧ ∀ i ch, c_chans k !! i = Some ch →
      g_chans g !! ch = Some (match c_out k with Some (Returned v e) => Some (owed v e (length (c_chans k)) i) | _ => None end).

Record flight_ok g : Prop := {
  fo_map : ∀ key c, g_m g !! key = Some c → ∃ k, g_calls g !! c = Some k ∧ c_key k = key ∧ c_out k = None;
  fo_call : ∀ c k, g_calls g !! c = Some k → call_ok g k;
  fo_chans : mjoin (c_chans <$> g_calls g) ≡ₚ seq 0 (length (g_chans g)) }.

(** ** Deliveries *)

Definition in_range (chans : list (option (Result R E))) (l : list nat) : Prop := Forall (λ ch, (ch < length chans)%nat) l.

Lemma send_copies_spec v e l : ∀ i chans, NoDup l → in_range chans l →
  let chans' := send_copies v e i l chans in
  length chans' = length chans
  ∧ (∀ j ch, l !! j = Some ch → chans' !! ch = Some (Some (mkResult (Some (v, Piped (i + j))) e true)))
  ∧ ∀ ch, ch ∉ l → chans' !! ch = chans !! ch.
Proof.
  induction l as [|c l IH]; intros i chans Hnd Hr; cbn [send_copies].
  { split; [done|]. split; [intros j ch E'; by rewrite lookup_nil in E'|done]. }
  apply NoDup_cons in Hnd as [Hc Hnd]. apply Forall_cons in Hr as [Hcl Hr]. unfold send.
  destruct (IH (S i) (<[c := Some (mkResult (Some (v, Piped i)) e true)]> chans) Hnd) as (Hl & Hs & Ho).
  { unfold in_range. by rewrite length_insert. }
  rewrite length_insert in Hl. split; [done|]. split.
  - intros [|j] ch Hj; simplify_eq/=.
    + rewrite Ho by done. rewrite list_lookup_insert_eq by done. by rewrite Nat.add_0_r.
    + rewrite (Hs j ch Hj). by replace (i + S j)%nat with (S i + j)%nat by lia.
  - intros ch [Hne Hn]%not_elem_of_cons. rewrite Ho by done. by rewrite list_lookup_insert_ne.
Qed.

Lemma send_all_spec (r : Result R E) l : ∀ chans, in_range chans l →
  let chans' := fold_left (λ chans ch, send ch r chans) l chans in
  length chans' = length chans ∧ (∀ ch, ch ∈ l → chans' !! ch = Some (Some r)) ∧ ∀ ch, ch ∉ l → chans' !! ch = chans !! ch.
Proof.
  induction l as [|c l IH]; intros chans Hr; cbn [fold_left].
  { split; [done|]. split; [intros ch Hc; by apply elem_of_nil in Hc|done]. }
  apply Forall_cons in Hr as [Hcl Hr]. unfold send at 2 4 6.
  destruct (IH (<[c := Some r]> chans)) as (Hl & Hs & Ho); [unfold in_range; by rewrite length_insert|].
  rewrite length_insert in Hl. split; [done|]. split.
  - intros ch Hin. destruct (decide (ch ∈ l)) as [?|Hn]; [by apply Hs|]. apply elem_of_cons in Hin as [->|?]; [|done].
    rewrite Ho by done. by apply list_lookup_insert_eq.
  - intros ch [Hne Hn]%not_elem_of_cons. rewrite Ho by done. by rewrite list_lookup_insert_ne.
Qed.

Lemma deliver_spec (k : call R E) v e chans : c_chans k ≠ [] → length (c_chans k) = S (c_dups k) → NoDup (c_chans k) →
  in_range chans (c_chans k) →
  ∃ chans', deliver k v e chans = Some chans' ∧ length chans' = length chans
  ∧ (∀ i ch, c_chans k !! i = Some ch → chans' !! ch = Some (Some (owed v e (length (c_chans k)) i)))
  ∧ ∀ ch, ch ∉ c_chans k → chans' !! ch = chans !! ch.
Proof.
  intros Hne Hl Hnd Hr. unfold deliver, owed. rewrite Hl.
  replace (1 <? S (c_dups k))%nat with (0 <? c_dups k)%nat by (destruct (c_dups k); done).
  destruct (c_chans k) as [|c0 l] eqn:Ec; [done|]. apply NoDup_cons in Hnd as [Hc0 Hnd]. pose proof Hr as Hr'. apply Forall_cons in Hr' as [Hcl Hrl].
  destruct (0 <? c_dups k)%nat eqn:Ed; destruct v as [x|]; cbn [tail].
  - destruct (send_copies_spec x e l 0 chans Hnd Hrl) as (Hlen & Hs & Ho). eexists. split; [reflexivity|]. unfold send. rewrite length_insert.
    split; [done|]. split.
    + intros [|i] ch Hi; simplify_eq/=; [apply list_lookup_insert_eq; by rewrite Hlen|].
      rewrite list_lookup_insert_ne by (intros ->; apply Hc0; by eapply list_elem_of_lookup_2). apply (Hs i ch Hi).
    + intros ch [Hn1 Hn2]%not_elem_of_cons. rewrite list_lookup_insert_ne by done. by apply Ho.
  - destruct (send_all_spec (mkResult None e true) (c0 :: l) chans Hr) as (Hlen & Hs & Ho).
    eexists. split; [reflexivity|]. split; [done|]. split; [|done]. intros i ch Hi. apply Hs. by eapply list_elem_of_lookup_2.
  - eexists. split; [reflexivity|]. unfold send. rewrite length_insert. split; [done|]. destruct l as [|c1 l]; [|apply Nat.ltb_ge in Ed; simpl in Hl; lia].
    split; [intros [|i] ch Hi; simplify_eq/=; by apply list_lookup_insert_eq|].
    intros ch [Hn1 Hn2]%not_elem_of_cons. by rewrite list_lookup_insert_ne.
  - eexists. split; [reflexivity|]. unfold send. rewrite length_insert. split; [done|]. destruct l as [|c1 l]; [|apply Nat.ltb_ge in Ed; simpl in Hl; lia].
    split; [intros [|i] ch Hi; simplify_eq/=; by apply list_lookup_insert_eq|].
    intros ch [Hn1 Hn2]%not_elem_of_cons. by rewrite list_lookup_insert_ne.
Qed.

(** ** The invariant *)

Lemma join_member {A} (ls : list (list A)) c a x : ls !! c = Some a → x ∈ a → x ∈ mjoin ls.
Proof. intros Ha Hx. apply list_elem_of_join. exists a. split; [done|by eapply list_elem_of_lookup_2]. Qed.

Lemma join_nodup {A} (ls : list (list A)) c a : NoDup (mjoin ls) → ls !! c = Some a → NoDup a.
Proof.
  revert c. induction ls as [|b ls IH]; intros [|c] Hnd Ha; simplify_eq/=; apply NoDup_app in Hnd as (? & ? & ?); [done|by eapply IH].
Qed.

Lemma join_disjoint {A} (ls : list (list A)) c c' a b x : NoDup (mjoin ls) → ls !! c = Some a → ls !! c' = Some b →
  x ∈ a → x ∈ b → c = c'.
Proof.
  revert c c'. induction ls as [|d ls IH]; intros [|c] [|c'] Hnd Ha Hb Hxa Hxb; simplify_eq/=; [done|..];
    apply NoDup_app in Hnd as (? & Hd & ?).
  - exfalso. eapply Hd; [done|by eapply join_member].
  - exfalso. eapply Hd; [done|by eapply join_member].
  - f_equal. by eapply IH.
Qed.

Lemma call_chans g c k : flight_ok g → g_calls g !! c = Some k → NoDup (c_chans k) ∧ in_range (g_chans g) (c_chans k)
  ∧ ∀ c' k' ch, g_calls g !! c' = Some k' → ch ∈ c_chans k → ch ∈ c_chans k' → c = c'.
Proof.
  intros Hok Hk. pose proof (fo_chans _ Hok) as Hp. assert (NoDup (mjoin (c_chans <$> g_calls g))) as Hnd by (rewrite Hp; apply NoDup_seq).
  assert ((c_chans <$> g_calls g) !! c = Some (c_chans k)) as Hc by (by rewrite list_lookup_fmap, Hk). split; [by eapply join_nodup|]. split.
  - apply Forall_forall. intros ch Hch. pose proof (join_member _ _ _ _ Hc Hch) as Hin. rewrite Hp in Hin. apply elem_of_seq in Hin. lia.
  - intros c' k' ch Hk' H1 H2. eapply join_disjoint; [done|done| |done|done]. by rewrite list_lookup_fmap, Hk'.
Qed.

Lemma join_insert {A B} (f : A → list B) (l : list A) c a a' x : l !! c = Some a → f a' = f a ++ x →
  mjoin (f <$> <[c := a']> l) ≡ₚ mjoin (f <$> l) ++ x.
Proof.
  revert c. induction l as [|b l IH]; intros [|c] Ha Hf; simplify_eq/=.
  - rewrite Hf, <-!app_assoc. f_equiv. apply Permutation_app_comm.
  - rewrite (IH c Ha Hf). by rewrite app_assoc.
Qed.

Lemma new_flight_ok : flight_ok (NewGroup (R := R) (E := E)).
Proof. split; [|done|done]. intros key c Hc. cbn [g_m NewGroup] in Hc. by rewrite lookup_empty in Hc. Qed.

(** A channel that is added changes no call. *)
Lemma call_ok_grow (g g' : Group R E) k : call_ok g k → (∀ ch x, g_chans g !! ch = Some x → g_chans g' !! ch = Some x) → call_ok g' k.
Proof. intros (Hne & Hl & Hc) Hg. split; [done|]. split; [done|]. intros i ch Hi. apply Hg. by apply Hc. Qed.

Lemma DoChan_ok g key : flight_ok g → flight_ok (snd (DoChan g key)).
Proof.
  intros Hok. unfold DoChan. destruct (g_m g !! key) as [c|] eqn:Em.
  - destruct (fo_map _ Hok _ _ Em) as (k & Hk & Hkey & Hout). rewrite Hk. cbn [snd]. set (k' := mkCall _ _ _ _). set (g' := mkGroup _ _ _).
    assert (∀ c0 k0, g_calls g' !! c0 = Some k0 → (c0 = c ∧ k0 = k') ∨ (c0 ≠ c ∧ g_calls g !! c0 = Some k0)) as Hcase.
    { intros c0 k0. cbn [g_calls g']. rewrite list_lookup_insert_Some. intros [(-> & -> & _)|[? ?]]; [by left|right; by split; [congruence|]]. }
    split.
    + intros key' c' Hm. destruct (fo_map _ Hok _ _ Hm) as (k0 & Hk0 & Hkey' & Hout'). cbn [g_calls g'].
      destruct (decide (c' = c)) as [->|Hne]; [|exists k0; by rewrite list_lookup_insert_ne].
      exists k'. simplify_eq. split; [apply list_lookup_insert_eq; by eapply lookup_lt_Some|done].
    + intros c0 k0 [[-> ->]|[Hne Hk0]]%Hcase.
      * destruct (fo_call _ Hok _ _ Hk) as (Hne & Hl & Hc). split; [by destruct (c_chans k)|]. cbn [c_chans c_dups c_out k' g_chans g'].
        split; [rewrite length_app, Hl; simpl; lia|]. intros i ch Hi. rewrite Hout in Hc |- *.
        apply lookup_app_Some in Hi as [Hi|[Hge Hi]]; [apply lookup_app_l_Some; by apply (Hc i)|].
        apply list_lookup_singleton_Some in Hi as [_ <-]. by rewrite lookup_app_r, Nat.sub_diag by lia.
      * eapply call_ok_grow; [by eapply fo_call|]. intros ch x Hx. by apply lookup_app_l_Some.
    + cbn [g_calls g' g_chans]. rewrite (join_insert c_chans _ c k k' [length (g_chans g)]) by done.
      rewrite (fo_chans _ Hok), length_app. simpl. by rewrite Nat.add_1_r, seq_S.
  - cbn [snd]. set (k' := mkCall _ _ _ _). set (g' := mkGroup _ _ _). split.
    + intros key' c'. cbn [g_m g' g_calls]. rewrite lookup_insert_Some. intros [[<- <-]|[_ Hm]].
      * exists k'. by rewrite lookup_app_r, Nat.sub_diag by lia.
      * destruct (fo_map _ Hok _ _ Hm) as (k0 & Hk0 & ?). exists k0. split; [by apply lookup_app_l_Some|done].
    + intros c0 k0. cbn [g_calls g']. intros [Hk0|[_ Hk0]]%lookup_app_Some.
      * eapply call_ok_grow; [by eapply fo_call|]. intros ch x Hx. by apply lookup_app_l_Some.
      * apply list_lookup_singleton_Some in Hk0 as [_ <-]. split; [done|]. split; [done|]. intros i ch Hi. cbn [c_chans k'] in Hi.
        apply list_lookup_singleton_Some in Hi as [_ <-]. cbn [g_chans g']. by rewrite lookup_app_r, Nat.sub_diag by lia.
    + cbn [g_calls g' g_chans]. rewrite fmap_app, join_app, (fo_chans _ Hok), length_app. simpl. by rewrite Nat.add_1_r, seq_S.
Qed.

(** What the end of a call leaves of the map. *)
Definition closed_map g (c : nat) (k : call R E) : gmap (list ascii) nat :=
  match g_m g !! c_key k with Some c' => if decide (c' = c) then delete (c_key k) (g_m g) else g_m g | None => g_m g end.

Lemma closed_map_spec g c k key c' : flight_ok g → g_calls g !! c = Some k → closed_map g c k !! key = Some c' →
  g_m g !! key = Some c' ∧ c' ≠ c.
Proof.
  intros Hok Hk. unfold closed_map. destruct (g_m g !! c_key k) as [c0|] eqn:Em.
  - case_decide as Ec.
    + subst. rewrite lookup_delete_Some. intros [Hne Hm]. split; [done|]. intros ->.
      destruct (fo_map _ Hok _ _ Hm) as (k0 & Hk0 & Hkey & _). simplify_eq.
    + intros Hm. split; [done|]. intros ->. destruct (fo_map _ Hok _ _ Hm) as (k0 & Hk0 & Hkey & _). simplify_eq.
  - intros Hm. split; [done|]. intros ->. destruct (fo_map _ Hok _ _ Hm) as (k0 & Hk0 & Hkey & _). simplify_eq.
Qed.

(** The state after call [c] ended with [out] and the channels became [chans']. *)
Lemma ended_ok g c k out chans' : flight_ok g → g_calls g !! c = Some k → length chans' = length (g_chans g) →
  (∀ i ch, c_chans k !! i = Some ch →
     chans' !! ch = Some (match out with Returned v e => Some (owed v e (length (c_chans k)) i) | _ => None end)) →
  (∀ ch, ch ∉ c_chans k → chans' !! ch = g_chans g !! ch) →
  flight_ok (mkGroup (closed_map g c k) (<[c := mkCall (c_key k) (c_dups k) (c_chans k) (Some out)]> (g_calls g)) chans').
Proof.
  intros Hok Hk Hl Hown Hoth. destruct (call_chans g c k Hok Hk) as (_ & _ & Hdis).
  set (k' := mkCall _ _ _ _). set (g' := mkGroup _ _ _).
  assert (∀ c0 k0, g_calls g' !! c0 = Some k0 → (c0 = c ∧ k0 = k') ∨ (c0 ≠ c ∧ g_calls g !! c0 = Some k0)) as Hcase.
  { intros c0 k0. cbn [g_calls g']. rewrite list_lookup_insert_Some. intros [(-> & -> & _)|[? ?]]; [by left|right; by split; [congruence|]]. }
  split.
  - intros key c0 [Hm Hne]%(closed_map_spec g c k key c0 Hok Hk). destruct (fo_map _ Hok _ _ Hm) as (k0 & Hk0 & ?).
    exists k0. cbn [g_calls g']. by rewrite list_lookup_insert_ne.
  - intros c0 k0 [[-> ->]|[Hne Hk0]]%Hcase.
    + destruct (fo_call _ Hok _ _ Hk) as (? & ? & _). split; [done|]. split; [done|]. intros i ch Hi. by apply Hown.
    + destruct (fo_call _ Hok _ _ Hk0) as (? & ? & Hc). split; [done|]. split; [done|]. intros i ch Hi. cbn [g_chans g'].
      rewrite Hoth; [by apply Hc|]. intros Hin. apply Hne. symmetry. eapply Hdis; [done|done|by eapply list_elem_of_lookup_2].
  - cbn [g_calls g' g_chans]. rewrite (join_insert c_chans _ c k k' []), app_nil_r, Hl by (by rewrite ?app_nil_r). apply Hok.
Qed.

Lemma finish_ok g c k out g' : flight_ok g → g_calls g !! c = Some k → c_out k = None → finish g c out = Some g' → flight_ok g'.
Proof.
  intros Hok Hk Hout Hf. unfold finish in Hf. rewrite Hk in Hf. fold (closed_map g c k) in Hf.
  destruct (call_chans g c k Hok Hk) as (Hnd & Hr & _). destruct (fo_call _ Hok _ _ Hk) as (Hne & Hl & Hc). rewrite Hout in Hc.
  destruct out as [v e| |]; [|done|].
  - destruct (deliver_spec k v e (g_chans g)) as (chans' & Ed & Hlen & Hs & Ho); [done..|]. rewrite Ed in Hf. simplify_eq/=.
    by apply ended_ok.
  - simplify_eq. by apply ended_ok.
Qed.

Lemma reachable_ok g : rtc flight_step NewGroup g → flight_ok g.
Proof.
  intros Hr. assert (∀ g0, rtc flight_step g0 g → flight_ok g0 → flight_ok g) as Hinv; [|by apply (Hinv NewGroup), new_flight_ok].
  clear Hr. intros g0 Hr. induction Hr as [|x y z Hs _ IH]; [done|]. intros Hok. apply IH.
  destruct Hs as [g1 key|g1 c k out g2 Hk Ho Hf|g1 key]; [by apply DoChan_ok|by eapply finish_ok|].
  split; [|apply Hok|apply Hok]. intros key' c. cbn [g_m Forget]. rewrite lookup_delete_Some. intros [_ Hm]. by apply Hok.
Qed.

Lemma can_finish g c k v e : flight_ok g → g_calls g !! c = Some k → c_out k = None →
  ∃ g', flight_step g g' ∧ ∀ i ch, c_chans k !! i = Some ch → g_chans g' !! ch = Some (Some (owed v e (length (c_chans k)) i)).
Proof.
  intros Hok Hk Hout. destruct (call_chans g c k Hok Hk) as (Hnd & Hr & _). destruct (fo_call _ Hok _ _ Hk) as (Hne & Hl & _).
  destruct (deliver_spec k v e (g_chans g)) as (chans' & Ed & _ & Hs & _); [done..|].
  eexists. split; [apply (step_finish g c k (Returned v e)); [done|done|]|].
  - unfold finish. rewrite Hk, Ed. reflexivity.
  - exact Hs.
Qed.

(** A call in progress is the one its key leads to. *)
Definition registered g : Prop := ∀ c k, g_calls g !! c = Some k → c_out k = None → g_m g !! c_key k = Some c.

Lemma DoChan_registered g key : flight_ok g → registered g → registered (snd (DoChan g key)).
Proof.
  intros Hok Hreg. unfold DoChan. destruct (g_m g !! key) as [c|] eqn:Em.
  - destruct (fo_map _ Hok _ _ Em) as (k & Hk & Hkey & Hout). rewrite Hk. intros c0 k0. cbn [snd g_calls g_m].
    rewrite list_lookup_insert_Some. intros [(<- & <- & _)|[_ Hk0]] Ho; cbn [c_key] in *; by apply Hreg.
  - intros c0 k0. cbn [snd g_calls g_m]. intros [Hk0|[Hge Hk0]]%lookup_app_Some Ho.
    + rewrite lookup_insert_ne; [by apply Hreg|]. intros ->. rewrite (Hreg c0 k0 Hk0 Ho) in Em. done.
    + apply list_lookup_singleton_Some in Hk0 as [Hc <-]. cbn [c_key]. rewrite lookup_insert_eq. f_equal. lia.
Qed.

Lemma finish_registered g c k out g' : flight_ok g → registered g → g_calls g !! c = Some k → finish g c out = Some g' → registered g'.
Proof.
  intros Hok Hreg Hk Hf. unfold finish in Hf. rewrite Hk in Hf. fold (closed_map g c k) in Hf.
  assert (∀ chans, registered (mkGroup (closed_map g c k) (<[c := mkCall (c_key k) (c_dups k) (c_chans k) (Some out)]> (g_calls g)) chans)) as Hall.
  { intros chans c0 k0. cbn [g_calls g_m]. rewrite list_lookup_insert_Some. intros [(_ & <- & _)|[Hne Hk0]] Ho; [done|].
    pose proof (Hreg c0 k0 Hk0 Ho) as Hm. unfold closed_map. destruct (g_m g !! c_key k) as [c'|] eqn:Em; [|done]. case_decide as Ec; [|done].
    rewrite lookup_delete_ne; [done|]. intros Ekey. rewrite Ekey, Hm in Em. simplify_eq. }
  destruct out as [v e| |]; [|done|]; [|simplify_eq; apply Hall].
  destruct (deliver k v e (g_chans g)); simplify_eq/=. apply Hall.
Qed.

Lemma request_ok g : rtc request_step NewGroup g → flight_ok g ∧ registered g.
Proof.
  intros Hr. assert (∀ g0, rtc request_step g0 g → flight_ok g0 ∧ registered g0 → flight_ok g ∧ registered g) as Hinv;
    [|by apply (Hinv NewGroup); [|split; [apply new_flight_ok|]]].
  clear Hr. intros g0 Hr. induction Hr as [|x y z Hs _ IH]; [done|]. intros [Hok Hreg]. apply IH.
  destruct Hs as [g1 key|g1 c k out g2 Hk Ho Hf].
  - split; [by apply DoChan_ok|by apply DoChan_registered].
  - split; [by eapply finish_ok|by eapply finish_registered].
Qed.

(** C15: requests are collapsed.  Whatever callers come and whatever upstream
    calls return, at any time at most one call per key is in progress; and a
    caller starts a call exactly if none with its key is. *)
Theorem one_call_per_key g : rtc request_step NewGroup g →
  (∀ c c' k k', g_calls g !! c = Some k → g_calls g !! c' = Some k' → c_out k = None → c_out k' = None → c_key k = c_key k' → c = c')
  ∧ ∀ key, length (g_calls (snd (DoChan g key))) = length (g_calls g)
      ↔ ∃ c k, g_calls g !! c = Some k ∧ c_key k = key ∧ c_out k = None.
Proof.
  intros [Hok Hreg]%request_ok. split.
  - intros c c' k k' Hk Hk' Ho Ho' Ekey. pose proof (Hreg c k Hk Ho) as H1. rewrite Ekey, (Hreg c' k' Hk' Ho') in H1. by simplify_eq.
  - intros key. unfold DoChan. destruct (g_m g !! key) as [c|] eqn:Em.
    + destruct (fo_map _ Hok _ _ Em) as (k & Hk & Hkey & Hout). rewrite Hk. cbn [snd g_calls]. rewrite length_insert.
      split; [|done]. intros _. by exists c, k.
    + cbn [snd g_calls]. rewrite length_app. simpl. split; [lia|]. intros (c & k & Hk & <- & Ho). rewrite (Hreg c k Hk Ho) in Em. done.
Qed.

(** C16: every caller is served.  In every reachable state each channel belongs to
    exactly one call; it has no result while the call is in progress; once the
    call has returned it has the result of the call, the first caller the response
    itself, each other one a copy with its own pipe, marked as shared exactly if
    there is more than one.  And no caller is stuck: as long as its call is in
    progress the return of the function is a step that serves it, with whatever
    it returns. *)
Theorem collapsed_served g ch : rtc flight_step NewGroup g → (ch < length (g_chans g))%nat →
  ∃ c k i, g_calls g !! c = Some k ∧ c_chans k !! i = Some ch
  ∧ (∀ c' k', g_calls g !! c' = Some k' → ch ∈ c_chans k' → c' = c)
  ∧ g_chans g !! ch = Some (match c_out k with Some (Returned v e) => Some (owed v e (length (c_chans k)) i) | _ => None end)
  ∧ (c_out k = None → ∀ v e, ∃ g', flight_step g g' ∧ g_chans g' !! ch = Some (Some (owed v e (length (c_chans k)) i))).
Proof.
  intros Hr%reachable_ok Hch. assert (ch ∈ mjoin (c_chans <$> g_calls g)) as Hin by (rewrite (fo_chans _ Hr); apply elem_of_seq; lia).
  apply list_elem_of_join in Hin as (l & Hl & Hin). apply list_elem_of_fmap in Hin as (k & -> & Hk).
  apply list_elem_of_lookup in Hk as [c Hk]. apply list_elem_of_lookup in Hl as [i Hi].
  destruct (call_chans g c k Hr Hk) as (_ & _ & Hdis). destruct (fo_call _ Hr _ _ Hk) as (_ & _ & Hc).
  exists c, k, i. split; [done|]. split; [done|]. split; [|split; [by apply Hc|]].
  - intros c' k' Hk' Hch'. symmetry. eapply Hdis; [done| |done]. by eapply list_elem_of_lookup_2.
  - intros Hout v e. destruct (can_finish g c k v e Hr Hk Hout) as (g' & Hs & Hg). exists g'. split; [done|]. by apply Hg.
Qed.
End theorems.

(** ** The shared body *)

(** [sb_src]: what the upstream has not delivered yet; [sb_read]: what the first
    caller has read; [sb_failed]: a read of it has failed. *)
Record pipe := mkPipe { p_got : str; p_open : bool; p_eof : bool }.
Record shared_body := mkShared { sb_src : str; sb_read : str; sb_failed : bool; sb_closed : bool; sb_pipes : list pipe }.

Definition new_shared (src : str) (n : nat) : shared_body := mkShared src [] false false (replicate n (mkPipe [] true false)).

(** [io.MultiWriter] over the pipes: a writer whose reader is closed fails, and
    the ones behind it are not written. *)
Fixpoint multi_write (data : str) (pipes : list pipe) : bool * list pipe :=
  match pipes with
  | [] => (true, [])
  | p :: rest =>
      if p_open p then let '(ok, rest') := multi_write data rest in (ok, mkPipe (p_got p ++ data) true (p_eof p) :: rest')
      else (false, p :: rest)
  end.

(** A read of the first caller for which the upstream has [m] bytes: [TeeReader]
    returns them once all pipes have taken them.  The write is one step, whatever reads
    take it from the pipes, and the upstream does not fail. *)
Definition tee_Read (m : nat) (s : shared_body) : shared_body :=
  match multi_write (take m (sb_src s)) (sb_pipes s) with
  | (true, ps) => mkShared (drop m (sb_src s)) (sb_read s ++ take m (sb_src s)) (sb_failed s) (sb_closed s) ps
  | (false, ps) => mkShared (drop m (sb_src s)) (sb_read s) true (sb_closed s) ps
  end.

(** [allCloser.Close]: the reading ends see the end of the stream. *)
Definition all_Close (s : shared_body) : shared_body :=
  mkShared (sb_src s) (sb_read s) (sb_failed s) true ((λ p, mkPipe (p_got p) (p_open p) true) <$> sb_pipes s).

(** Another caller closes its body. *)
Definition close_pipe (i : nat) (s : shared_body) : shared_body :=
  mkShared (sb_src s) (sb_read s) (sb_failed s) (sb_closed s) (alter (λ p, mkPipe (p_got p) false (p_eof p)) i (sb_pipes s)).

Inductive body_step : shared_body → shared_body → Prop :=
| body_read s m : sb_closed s = false → (0 < m <= length (sb_src s))%nat → body_step s (tee_Read m s)
| body_close s : body_step s (all_Close s)
| body_pipe_close s i : (i < length (sb_pipes s))%nat → body_step s (close_pipe i s).

Definition all_open (s : shared_body) : Prop := Forall (λ p, p_open p = true) (sb_pipes s).

Lemma multi_write_open data ps : Forall (λ p, p_open p = true) ps →
  multi_write data ps = (true, (λ p, mkPipe (p_got p ++ data) true (p_eof p)) <$> ps).
Proof. induction 1 as [|p ps Hp _ IH]; [done|]. simpl. by rewrite Hp, IH. Qed.

Lemma multi_write_closed data ps : ¬ Forall (λ p, p_open p = true) ps → fst (multi_write data ps) = false.
Proof.
  induction ps as [|p ps IH]; intros Hn; [by destruct Hn|]. simpl. destruct (p_open p) eqn:Ep; [|done].
  destruct (multi_write data ps) as [ok rest] eqn:Em. simpl in *. apply IH. intros Hf. apply Hn. by constructor.
Qed.

Lemma multi_write_elem data ps p : p ∈ snd (multi_write data ps) →
  ∃ p0, p0 ∈ ps ∧ p_eof p = p_eof p0 ∧ p_open p = p_open p0 ∧ (p_got p = p_got p0 ∨ p_got p = p_got p0 ++ data).
Proof.
  induction ps as [|q ps IH]; simpl; [intros Hp; by apply elem_of_nil in Hp|]. destruct (p_open q) eqn:Eq.
  - destruct (multi_write data ps) as [ok rest]. simpl in *. intros [->|Hp]%elem_of_cons.
    + exists q. split; [by left|]. simpl. split; [done|]. split; [by rewrite Eq|by right].
    + destruct (IH Hp) as (p0 & ? & ?). exists p0. split; [by right|done].
  - simpl. intros Hp. exists p. split; [done|]. split; [done|]. split; [done|by left].
Qed.

(** The body as delivered so far: open pipes have all of it while none was ever
    closed; each pipe has a part from the start otherwise. *)
Record body_ok (src : str) (s : shared_body) : Prop := {
  bo_src : ∃ done, src = done ++ sb_src s
    ∧ (all_open s → sb_failed s = false ∧ done = sb_read s ∧ Forall (λ p, p_got p = sb_read s) (sb_pipes s));
  bo_end : Forall (λ p, p_eof p = sb_closed s) (sb_pipes s) }.

Lemma body_step_ok src s s' : body_ok src s → body_step s s' → body_ok src s'.
Proof.
  intros [(dn & Hsrc & Hall) Hend] Hs. destruct Hs as [s m Hc Hm|s|s i Hi].
  - unfold tee_Read. destruct (multi_write (take m (sb_src s)) (sb_pipes s)) as [ok ps] eqn:Ew.
    assert (Forall (λ p, p_eof p = sb_closed s) ps) as He.
    { apply Forall_forall. intros p Hp. pose proof (multi_write_elem (take m (sb_src s)) (sb_pipes s) p) as Hel. rewrite Ew in Hel.
      destruct (Hel Hp) as (p0 & Hp0 & -> & _). rewrite Forall_forall in Hend. by apply Hend. }
    assert (all_open s → ok = true ∧ ps = (λ p, mkPipe (p_got p ++ take m (sb_src s)) true (p_eof p)) <$> sb_pipes s) as Hop.
    { intros Ho. pose proof (multi_write_open (take m (sb_src s)) _ Ho) as Hw. rewrite Ew in Hw. by simplify_eq. }
    assert (Forall (λ p, p_open p = true) ps → all_open s) as Hback.
    { intros Hf. destruct (decide (all_open s)) as [|Hn]; [done|]. exfalso. clear -Ew Hf Hn. revert ok ps Ew Hf.
      unfold all_open in Hn. induction (sb_pipes s) as [|q l IH]; intros ok ps Ew Hf; simpl in Ew; simplify_eq; [by destruct Hn|].
      destruct (p_open q) eqn:Eq.
      - destruct (multi_write _ l) as [ok' rest] eqn:El. simplify_eq. apply Forall_cons in Hf as [_ Hf].
        eapply IH; [|done|done]. intros Hl. apply Hn. by constructor.
      - simplify_eq. apply Forall_cons in Hf as [Hq _]. congruence. }
    destruct ok; (split; [exists (dn ++ take m (sb_src s)); cbn [sb_src sb_pipes sb_failed sb_read]; split;
      [rewrite <-app_assoc, take_drop; done|] |exact He]); unfold all_open; cbn [sb_pipes]; intros Hf.
    + destruct (Hall (Hback Hf)) as (Hfl & -> & Hg). split; [done|]. split; [done|]. destruct (Hop (Hback Hf)) as [_ ->].
      apply Forall_fmap. eapply Forall_impl; [exact Hg|]. intros p Hp. simpl in *. by rewrite Hp.
    + destruct (Hop (Hback Hf)) as [? _]. done.
  - assert (all_open (all_Close s) → all_open s) as Hback.
    { unfold all_open. cbn [sb_pipes all_Close]. intros Hf. apply Forall_fmap in Hf. done. }
    split.
    + exists dn. split; [done|]. intros Ho. destruct (Hall (Hback Ho)) as (? & ? & ?). split; [done|]. split; [done|].
      cbn [sb_pipes all_Close]. by apply Forall_fmap.
    + cbn [sb_pipes all_Close sb_closed]. apply Forall_fmap. by apply Forall_true.
  - split.
    + exists dn. split; [done|]. unfold all_open. cbn [sb_pipes close_pipe]. intros Ho.
      exfalso. apply lookup_lt_is_Some in Hi as [p Hp]. eapply Forall_lookup_1 in Ho; [|by rewrite list_lookup_alter_eq, Hp]. done.
    + cbn [sb_pipes close_pipe sb_closed]. apply Forall_alter; [done|]. intros p Hp ?. by eapply Forall_lookup_1 in Hp.
Qed.

Lemma reachable_body src n s : rtc body_step (new_shared src n) s → body_ok src s.
Proof.
  intros Hr. assert (∀ s0, rtc body_step s0 s → body_ok src s0 → body_ok src s) as Hinv.
  { clear Hr. intros s0 Hr. induction Hr as [|x y z Hs _ IH]; [done|]. intros Hok. apply IH. by eapply body_step_ok. }
  apply (Hinv _ Hr). split.
  - exists []. split; [done|]. intros _. split; [done|]. split; [done|]. cbn [sb_pipes new_shared]. by apply Forall_replicate.
  - cbn [sb_pipes new_shared sb_closed]. by apply Forall_replicate.
Qed.

(** C25: as long as no caller closes its body early, the first caller reads the
    upstream body in order and without an error, and after each of its reads every
    other caller has been given exactly what the first one has read; their bodies end
    when the first one closes its own, and not before. *)
Theorem shared_body_exact src n s : rtc body_step (new_shared src n) s → all_open s →
  sb_failed s = false ∧ src = sb_read s ++ sb_src s ∧ ∀ p, p ∈ sb_pipes s → p_got p = sb_read s ∧ p_eof p = sb_closed s.
Proof.
  intros Hr Ho. destruct (reachable_body src n s Hr) as [(dn & Hsrc & Hall) Hend]. destruct (Hall Ho) as (Hf & -> & Hg).
  split; [done|]. split; [done|]. intros p Hp. rewrite Forall_forall in Hg, Hend. split; [by apply Hg|by apply Hend].
Qed.

(** the first caller decides for all.  If it closes its body after a part, the
    others get that part and the regular end of the stream, as if it were the
    whole body; and once another caller has closed its body, the next read of the
    first one fails. *)
Theorem first_caller_decides src n m : (0 < m < length src)%nat →
  (∃ s, rtc body_step (new_shared src n) s ∧ length (sb_pipes s) = n
     ∧ ∀ p, p ∈ sb_pipes s → p_got p = take m src ∧ p_eof p = true ∧ p_got p ≠ src)
  ∧ ∀ s i k, rtc body_step (new_shared src n) s → (i < length (sb_pipes s))%nat →
      let s' := tee_Read k (close_pipe i s) in sb_failed s' = true ∧ sb_read s' = sb_read s.
Proof.
  intros Hm. split.
  - set (s0 := new_shared src n). exists (all_Close (tee_Read m s0)).
    assert (all_open s0) as Ho by (by apply Forall_replicate).
    assert (sb_pipes (tee_Read m s0) = replicate n (mkPipe (take m src) true false)) as Hp.
    { unfold tee_Read. rewrite multi_write_open by done. cbn [sb_pipes s0 new_shared sb_src]. by rewrite fmap_replicate. }
    split; [eapply rtc_l; [apply (body_read s0 m); [done|simpl; lia]|apply rtc_once, body_close]|].
    cbn [sb_pipes all_Close]. rewrite Hp, fmap_replicate, length_replicate. split; [done|].
    intros p [-> _]%elem_of_replicate. cbn [p_got p_eof]. split; [done|]. split; [done|].
    intros E%(f_equal length). rewrite length_take in E. lia.
  - intros s i k _ Hi s'. subst s'. unfold tee_Read.
    pose proof (multi_write_closed (take k (sb_src (close_pipe i s))) (sb_pipes (close_pipe i s))) as Hc.
    destruct (multi_write _ _) as [ok ps]. cbn [fst] in Hc. rewrite Hc; [done|].
    cbn [sb_pipes close_pipe]. intros Hf. apply lookup_lt_is_Some in Hi as [p Hp].
    eapply Forall_lookup_1 in Hf; [|by rewrite list_lookup_alter_eq, Hp]. done.
Qed.

(** ** proxy.go *)

Definition onceKey (req : Request) : str :=
  rq_Method req ++ rq_url req ++ header_get (bs "Range") (rq_Header req).

Definition unix_scheme : str := bs "unix://".

(** [find]: clients are numbers, [next] is a new one. *)
Definition find (clientMap : gmap (list ascii) nat) (next : nat) (addr : str) : nat * gmap (list ascii) nat :=
  match clientMap !! addr with
  | Some client => (client, clientMap)
  | None =>
      let addr := if has_suffix (bs ".sock") addr || has_prefix unix_scheme addr then trim_prefix unix_scheme addr else addr in
      (next, <[addr := next]> clientMap)
  end.

(** a client is reused exactly for the addresses that are not written with the
    scheme of a Unix socket: for those the client is filed under the path alone,
    and the next request makes a new one. *)
Theorem client_reuse m next next' addr : m !! addr = None → next ≠ next' →
  fst (find (snd (find m next addr)) next' addr) = if has_prefix unix_scheme addr then next' else fst (find m next addr).
Proof.
  intros Hm Hn. unfold find at 2 3. rewrite Hm. cbn [fst snd]. destruct (has_prefix unix_scheme addr) eqn:Ep.
  - rewrite orb_true_r. unfold find. rewrite lookup_insert_ne, Hm; [done|]. intros E.
    apply has_prefix_spec in Ep as (t & ->). unfold trim_prefix in E. rewrite has_prefix_app, drop_app_length in E.
    apply (f_equal length) in E. rewrite length_app in E. simpl in E. lia.
  - rewrite orb_false_r.
    assert ((if has_suffix (bs ".sock") addr then trim_prefix unix_scheme addr else addr) = addr) as ->.
    { destruct (has_suffix _ _); [|done]. unfold trim_prefix. by rewrite Ep. }
    unfold find. by rewrite lookup_insert_eq.
Qed.

(** ** Concrete runs *)

(** Two requests for different bytes of different objects that are sent once. *)
Definition plain_req (url : str) (range : list str) : Request :=
  mkReq (bs "GET") (bs "http") (bs "h") (bs "/a") url (match range with [] => ∅ | _ => {[bs "Range" := range]} end) None None None.

Example once_key_collision :
  onceKey (plain_req (bs "http://h/abytes=0-1") []) = onceKey (plain_req (bs "http://h/a") [bs "bytes=0-1"]).
Proof. vm_compute. reflexivity. Qed.

(** [Do] panics when its function returns: it has no channel to index. *)
Example do_panics : finish (Do (NewGroup (R := nat) (E := nat)) (bs "k")) 0 (Returned (Some 7%nat) None) = None.
Proof. reflexivity. Qed.

Definition two_callers : Group nat nat := snd (DoChan (snd (DoChan NewGroup (bs "k"))) (bs "k")).

Lemma one_call_per_key_witness : length (g_calls two_callers) = 1%nat.
Proof.
  destruct (one_call_per_key (snd (DoChan (NewGroup (R := nat) (E := nat)) (bs "k")))) as [_ Hk].
  - apply rtc_once, (request_DoChan _ (bs "k")).
  - change 1%nat with (length (g_calls (snd (DoChan (NewGroup (R := nat) (E := nat)) (bs "k"))))). apply (Hk (bs "k")).
    exists 0%nat, (mkCall (bs "k") 0 [0%nat] None). split; [reflexivity|]. split; reflexivity.
Defined.

Lemma collapsed_served_witness : ∃ g', flight_step two_callers g'
  ∧ g_chans g' !! 1%nat = Some (Some (owed (Some 7%nat) None 2 1)).
Proof.
  destruct (collapsed_served two_callers 1) as (c & k & i & Hk & Hi & _ & _ & Hstep).
  - eapply rtc_l; [apply (step_DoChan _ (bs "k"))|]. apply rtc_once, (step_DoChan _ (bs "k")).
  - apply Nat.ltb_lt. reflexivity.
  - assert (c = 0%nat) as ->.
    { destruct c as [|c]; [done|]. change (g_calls two_callers) with [mkCall (R := nat) (E := nat) (bs "k") 1 [0%nat; 1%nat] None] in Hk. done. }
    change (g_calls two_callers) with [mkCall (R := nat) (E := nat) (bs "k") 1 [0%nat; 1%nat] None] in Hk. injection Hk as <-.
    destruct i as [|[|i]]; try discriminate Hi. destruct (Hstep eq_refl (Some 7%nat) None) as (g' & Hs & Hg). exists g'. split; [exact Hs|exact Hg].
Defined.

Lemma shared_body_exact_witness : ∃ s, rtc body_step (new_shared (bs "abcd") 2) s ∧ all_open s
  ∧ ∀ p, p ∈ sb_pipes s → p_got p = bs "abc".
Proof.
  exists (tee_Read 3 (new_shared (bs "abcd") 2)).
  assert (rtc body_step (new_shared (bs "abcd") 2) (tee_Read 3 (new_shared (bs "abcd") 2))) as Hr
    by (apply rtc_once, body_read; [reflexivity|simpl; lia]).
  assert (all_open (tee_Read 3 (new_shared (bs "abcd") 2))) as Ho by (repeat constructor).
  split; [exact Hr|]. split; [exact Ho|]. intros p Hp.
  destruct (shared_body_exact (bs "abcd") 2 _ Hr Ho) as (_ & _ & Hall). apply (Hall p Hp).
Defined.

Lemma first_caller_decides_witness : ∃ s, rtc body_step (new_shared (bs "abcd") 2) s
  ∧ ∀ p, p ∈ sb_pipes s → p_got p = bs "ab" ∧ p_eof p = true.
Proof.
  destruct (first_caller_decides (bs "abcd") 2 2) as [(s & Hr & _ & Hp) _]; [simpl; lia|].
  exists s. split; [exact Hr|]. intros p Hin. destruct (Hp p Hin) as (H1 & H2 & _). split; [exact H1|exact H2].
Defined.

Lemma client_reuse_witness : fst (find (snd (find ∅ 0 (bs "unix:///s"))) 1 (bs "unix:///s")) = 1%nat.
Proof. apply (client_reuse ∅ 0 1 (bs "unix:///s")); [reflexivity|discriminate]. Defined.
