(* ===== verification/Proxy.v ===== *)
(** * The reverse proxy: proxy/proxy.go

    [Do] selects a node, finds the client of its address and sends the request, at
    once or through the single flight of [SingleFlight].  Clients are numbers; the
    model keeps the network and address each one dials.  The selector and the client
    are libraries: the selected address and the answer are arguments.

    Proved: a request is sent by a client that dials the selected address, whatever
    requests came before; nothing is sent without a node; a collapsed request starts
    a call exactly when none with its key is in progress, and then with its own
    client. *)

From S2P Require Import Prelude GoStrings Headers Object CachingState SingleFlight.

Definition sock_suffix : str := bs ".sock".

(** Where a client connects to. *)
Definition dial_of (addr : str) : str * str :=
  if has_suffix sock_suffix addr || has_prefix unix_scheme addr then (bs "unix", trim_prefix unix_scheme addr) else (bs "tcp", addr).

Section proxy.
Context {R E : Type}.

Record ReverseProxy := mkProxy {
  rp_clients : gmap (list ascii) nat;      (* clientMap *)
  rp_dials : list (str * str);             (* by client: network and address *)
  rp_flight : Group R E;
  rp_calls : list nat }.                   (* by call of the flight: its client *)

Definition New : ReverseProxy := mkProxy ∅ [] NewGroup [].

(** [r.find]: a new client dials the address it is made for. *)
Definition find_client (p : ReverseProxy) (addr : str) : nat * ReverseProxy :=
  let next := length (rp_dials p) in
  let '(c, m) := find (rp_clients p) next addr in
  (c, mkProxy m (if decide (c = next) then rp_dials p ++ [dial_of addr] else rp_dials p) (rp_flight p) (rp_calls p)).

(** What [Do] does with a request: nothing, a request of the client, or a place in
    the flight. *)
Inductive sent := ErrNoAvailable | Direct (client : nat) | Collapsed (client ch : nat).

(** [selected]: the address of the node, [None] for an error of the selector. *)
Definition Do (p : ReverseProxy) (selected : option str) (req : Request) (collapsed : bool) : sent * ReverseProxy :=
  match selected with
  | None => (ErrNoAvailable, p)
  | Some upAddr =>
      let '(client, p) := find_client p upAddr in
      if negb collapsed then (Direct client, p)
      else
        let '(ch, g) := DoChan (rp_flight p) (onceKey req) in
        let calls := if decide (length (g_calls g) = length (g_calls (rp_flight p))) then rp_calls p else rp_calls p ++ [client] in
        (Collapsed client ch, mkProxy (rp_clients p) (rp_dials p) g calls)
  end.

(** The label of an error in the metrics: whether it has a method Timeout, what it
    answers, and whether it is a net.Error. *)
Definition classifyError (err : option (option bool * bool)) : str :=
  match err with
  | None => bs "none"
  | Some (Some true, _) => bs "timeout"
  | Some (_, true) => bs "network"
  | Some (_, false) => bs "unknown"
  end.

(** An address with at most one scheme. *)
Definition single_scheme (addr : str) : Prop := has_prefix unix_scheme (trim_prefix unix_scheme addr) = false.

Inductive proxy_step (p : ReverseProxy) : ReverseProxy → Prop :=
| proxy_Do selected req collapsed : (∀ addr, selected = Some addr → single_scheme addr) → proxy_step p (snd (Do p selected req collapsed))
| proxy_return g : length (g_calls g) = length (g_calls (rp_flight p)) → proxy_step p (mkProxy (rp_clients p) (rp_dials p) g (rp_calls p)).

Record proxy_ok (p : ReverseProxy) : Prop := {
  po_client : ∀ addr c, rp_clients p !! addr = Some c → has_prefix unix_scheme addr = false ∧ snd <$> rp_dials p !! c = Some addr;
  po_calls : length (rp_calls p) = length (g_calls (rp_flight p));
  po_known : Forall (λ c, c < length (rp_dials p))%nat (rp_calls p) }.

Lemma trim_unschemed addr : has_prefix unix_scheme addr = false → trim_prefix unix_scheme addr = addr.
Proof. intros Hp. unfold trim_prefix. by rewrite Hp. Qed.

Lemma dial_address addr : snd (dial_of addr) = trim_prefix unix_scheme addr.
Proof.
  unfold dial_of. destruct (has_prefix unix_scheme addr) eqn:Ep; [by rewrite orb_true_r|]. rewrite (trim_unschemed addr Ep). by destruct (has_suffix _ _).
Qed.

(** The client of an address dials it. *)
Lemma find_client_ok p addr c p' : proxy_ok p → single_scheme addr → find_client p addr = (c, p') →
  proxy_ok p' ∧ snd <$> rp_dials p' !! c = Some (trim_prefix unix_scheme addr) ∧ rp_flight p' = rp_flight p ∧ rp_calls p' = rp_calls p.
Proof.
  intros [Hc Hl Hk] Hs. unfold find_client, find.
  assert ((if has_suffix sock_suffix addr || has_prefix unix_scheme addr then trim_prefix unix_scheme addr else addr) = trim_prefix unix_scheme addr) as Ht.
  { destruct (has_prefix unix_scheme addr) eqn:Ep; [by rewrite orb_true_r|]. rewrite (trim_unschemed addr Ep). by destruct (has_suffix _ _). }
  unfold sock_suffix in Ht. rewrite Ht. clear Ht. destruct (rp_clients p !! addr) as [c0|] eqn:Ea.
  - destruct (Hc addr c0 Ea) as [Hp Hd]. intros [= <- <-]. assert (c0 < length (rp_dials p))%nat as Hlt.
    { apply lookup_lt_is_Some. destruct (rp_dials p !! c0); [by eexists|done]. }
    rewrite decide_False by lia. cbn [rp_dials rp_flight rp_calls]. split; [split; done|]. by rewrite (trim_unschemed addr Hp).
  - intros [= <- <-]. rewrite decide_True by done. cbn [rp_dials rp_flight rp_calls].
    assert (snd <$> (rp_dials p ++ [dial_of addr]) !! length (rp_dials p) = Some (trim_prefix unix_scheme addr)) as Hnew
      by (rewrite list_lookup_middle by done; cbn; by rewrite dial_address).
    split; [|done]. split; cbn [rp_clients rp_dials rp_calls rp_flight].
    + intros a c. rewrite lookup_insert_Some. intros [[<- <-]|[_ Hm]]; [done|]. destruct (Hc a c Hm) as [Hp Hd]. split; [done|].
      destruct (rp_dials p !! c) eqn:El; [|done]. by rewrite (lookup_app_l_Some _ _ _ _ El).
    + done.
    + eapply Forall_impl; [exact Hk|]. intros x Hx. cbn beta in *. rewrite length_app. lia.
Qed.

Lemma DoChan_calls (g : Group R E) key ch g' : DoChan g key = (ch, g') →
  length (g_calls g') = (match g_m g !! key with Some _ => length (g_calls g) | None => S (length (g_calls g)) end).
Proof.
  unfold DoChan. destruct (g_m g !! key) as [c|]; [destruct (g_calls g !! c)|]; intros [= <- <-]; cbn [g_calls]; rewrite ?length_insert, ?length_app; cbn [length]; lia || done.
Qed.

Lemma Do_ok p addr req collapsed s p' : proxy_ok p → single_scheme addr → Do p (Some addr) req collapsed = (s, p') → proxy_ok p'
  ∧ ∃ client, snd <$> rp_dials p' !! client = Some (trim_prefix unix_scheme addr)
    ∧ (collapsed = false → s = Direct client ∧ rp_flight p' = rp_flight p ∧ rp_calls p' = rp_calls p)
    ∧ (collapsed = true → (∃ ch, s = Collapsed client ch ∧ DoChan (rp_flight p) (onceKey req) = (ch, rp_flight p'))
         ∧ rp_calls p' = match g_m (rp_flight p) !! onceKey req with Some _ => rp_calls p | None => rp_calls p ++ [client] end).
Proof.
  intros Hok Hs. unfold Do. destruct (find_client p addr) as [client p1] eqn:Ef. destruct (find_client_ok p addr client p1 Hok Hs Ef) as (Hok1 & Hd & Hfl & Hcl).
  destruct collapsed; cbn [negb].
  - destruct (DoChan (rp_flight p1) (onceKey req)) as [ch g] eqn:Ed. intros [= <- <-]. pose proof (DoChan_calls _ _ _ _ Ed) as Hlen. rewrite Hfl, Hcl in *.
    assert ((if decide (length (g_calls g) = length (g_calls (rp_flight p))) then rp_calls p else rp_calls p ++ [client])
      = match g_m (rp_flight p) !! onceKey req with Some _ => rp_calls p | None => rp_calls p ++ [client] end) as Hcalls
      by (destruct (g_m (rp_flight p) !! onceKey req); case_decide; done || lia).
    rewrite Hcalls. destruct Hok1 as [O1 O2 O3]. rewrite Hcl, Hfl in *. split.
    + split; cbn [rp_clients rp_dials rp_calls rp_flight]; [done| |].
      * destruct (g_m (rp_flight p) !! onceKey req); [congruence|]. rewrite length_app, Hlen, O2. cbn [length]. lia.
      * destruct (g_m (rp_flight p) !! onceKey req); [done|]. apply Forall_app. split; [done|]. constructor; [|constructor].
        apply lookup_lt_is_Some. destruct (rp_dials p1 !! client); [by eexists|done].
    + exists client. split; [done|]. split; [done|]. intros _. split; [by exists ch|done].
  - intros [= <- <-]. split; [done|]. exists client. split; [done|]. split; [done|done].
Qed.

Lemma proxy_reachable p : rtc proxy_step New p → proxy_ok p.
Proof.
  intros Hrun. refine (rtc_ind_r (R := proxy_step) proxy_ok New _ _ p Hrun); [split; [by intros addr c|done|constructor]|].
  intros y z _ Hst IH. destruct Hst as [selected req collapsed Hs|g Hg].
  - destruct selected as [addr|]; [|done]. destruct (Do y (Some addr) req collapsed) as [s z] eqn:Ed. by apply (Do_ok y addr req collapsed s z IH (Hs addr eq_refl) Ed).
  - destruct IH as [O1 O2 O3]. split; cbn [rp_clients rp_dials rp_calls rp_flight]; [done|congruence|done].
Qed.

(** where a request goes.  Whatever requests came before, a request is given a
    client that dials the selected address; a plain request is sent by it and leaves
    the flight alone; a collapsed one joins the call of its key if there is one in
    progress, and otherwise starts one with its own client.  Without a node nothing
    is sent and nothing changes. *)
Theorem request_dials_selected p addr req collapsed s p' : rtc proxy_step New p → single_scheme addr → Do p (Some addr) req collapsed = (s, p') →
  Do p None req collapsed = (ErrNoAvailable, p)
  ∧ ∃ client, snd <$> rp_dials p' !! client = Some (trim_prefix unix_scheme addr)
    ∧ (collapsed = false → s = Direct client ∧ rp_flight p' = rp_flight p ∧ rp_calls p' = rp_calls p)
    ∧ (collapsed = true → (∃ ch, s = Collapsed client ch ∧ DoChan (rp_flight p) (onceKey req) = (ch, rp_flight p'))
         ∧ rp_calls p' = match g_m (rp_flight p) !! onceKey req with Some _ => rp_calls p | None => rp_calls p ++ [client] end).
Proof. intros Hrun Hs HD. split; [done|]. by eapply Do_ok; [apply proxy_reachable|..]. Qed.
End proxy.

Lemma request_dials_selected_witness : ∃ s p', Do (R := nat) (E := nat) New (Some (bs "unix:///run/a.sock")) (plain_req (bs "http://h/a") []) true = (s, p')
  ∧ s = Collapsed 0 0 ∧ rp_dials p' = [(bs "unix", bs "/run/a.sock")] ∧ rp_calls p' = [0%nat].
Proof.
  destruct (Do (R := nat) (E := nat) New (Some (bs "unix:///run/a.sock")) (plain_req (bs "http://h/a") []) true) as [s p'] eqn:E.
  destruct (request_dials_selected New (bs "unix:///run/a.sock") (plain_req (bs "http://h/a") []) true s p') as (_ & client & _ & _ & Hc);
    [apply rtc_refl|vm_compute; reflexivity|exact E|].
  destruct (Hc eq_refl) as ((ch & _ & _) & Hcalls). exists s, p'. split; [reflexivity|]. vm_compute in E. injection E as <- <-.
  split; [reflexivity|]. split; [vm_compute; reflexivity|]. rewrite Hcalls. vm_compute in Hcalls |- *. exact (eq_sym Hcalls).
Defined.
