(* ===== verification/Middlewares.v ===== *)
(** * Middleware around the cache: server/middleware

    The chain of round trippers ([Chain], the registry), and the middleware other
    than the cache: rewrite (header policies), recovery, and multirange, which
    answers a request for several ranges with one multipart response, asking the
    next round tripper for each range.

    A round tripper is an action: it changes the world it runs in (the cache, the
    upstream) and ends with a response, an error or a panic.  A response may be
    nil without an error.  [multipart.Writer] is modelled from its documentation
    and code; its boundary, 30 random bytes in hexadecimal, is a parameter.

    Proved: composing chains; what a header policy does to every header in every
    order of its maps; the answer of multirange on every path; the body it sends,
    and by how much the announced length is off, range by range. *)

From S2P Require Import Prelude GoStrings GoSort Headers RangeControl CachingState.
Local Open Scope Z_scope.

(** ** Actions *)

Section actions.
Context {W E : Type}.   (* the world, errors of other packages *)

Inductive trip_error := BizErr (code : Z) (h : header) | OtherErr (e : E).

(** [Panic]: the goroutine panics. *)
Inductive outcome (A : Type) := Done (a : A) | Failed (e : trip_error) | Panic.

Definition action (A : Type) : Type := W → outcome A * W.

Definition act_ret {A} (a : A) : action A := λ w, (Done A a, w).
Definition act_fail {A} (e : trip_error) : action A := λ w, (Failed A e, w).
Definition act_bind {A B} (m : action A) (f : A → action B) : action B := λ w,
  match m w with
  | (Done _ a, w') => f a w'
  | (Failed _ e, w') => (Failed B e, w')
  | (Panic _, w') => (Panic B, w')
  end.

(** The field of a pointer is read. *)
Definition deref {A} (o : option A) : action A := λ w, (match o with Some a => Done A a | None => Panic A end, w).

(** [m], and [h] if it returns an error. *)
Definition act_else {A} (m h : action A) : action A := λ w,
  match m w with (Failed _ _, w') => h w' | r => r end.
End actions.
Arguments trip_error : clear implicits.
Arguments outcome : clear implicits.
Arguments action : clear implicits.
Arguments Done {E A}. Arguments Failed {E A}. Arguments Panic {E A}.

Notation "'let!' x ':=' m 'in' k" := (act_bind m (λ x, k))
  (at level 10, x pattern, m at level 100, k at level 200,
   format "'[v' 'let!'  x  ':='  m  'in' '/' k ']'") : tavern_scope.
Local Open Scope tavern_scope.

Section middleware.
Context {W E : Type}.
Local Abbreviation error := (trip_error E).
Local Abbreviation act := (action W E).

(** How a body ends: regularly, with an error, or because the goroutine that
    writes it has panicked, which ends the process. *)
Inductive stream_end := Eof | Broken (e : error) | Crashed.

Record stream := mkStream { st_bytes : str; st_end : stream_end }.

Record Reply := mkReply {
  rp_StatusCode : Z; rp_Header : header; rp_ContentLength : Z; rp_TransferEncoding : list str;
  rp_Trailer : header; rp_Body : option stream }.

Definition reply_with_header (r : Reply) (h : header) : Reply :=
  mkReply (rp_StatusCode r) h (rp_ContentLength r) (rp_TransferEncoding r) (rp_Trailer r) (rp_Body r).

Definition RoundTripper : Type := Request → act (option Reply).
Definition Middleware : Type := RoundTripper → RoundTripper.

(** [Chain]: from the last to the first. *)
Definition Chain (ms : list Middleware) : Middleware := λ next,
  fold_left (λ next m, m next) (rev ms) next.

(** ** registry.go *)

(** A factory gives the middleware and its cleanup, which may be nil. *)
Definition Factory (C : Type) : Type := C → option (Middleware * option nat).

Definition createFullName (name : str) : str := to_lower (bs "tavern.middleware." ++ name).

Section registry.
Context {C : Type}.   (* configurations *)
Context (cfg_Name : C → str) (cfg_Required : C → bool).

Definition Register (r : gmap (list ascii) (Factory C)) (name : str) (factory : Factory C) : gmap (list ascii) (Factory C) :=
  <[createFullName name := factory]> r.

Definition getMiddleware (r : gmap (list ascii) (Factory C)) (name : str) : option (Factory C) := r !! to_lower name.

(** [Create]; [None] is an error. *)
Definition Create (r : gmap (list ascii) (Factory C)) (cfg : C) : option (Middleware * option nat) :=
  match getMiddleware r (createFullName (cfg_Name cfg)) with
  | None => None
  | Some method =>
      if cfg_Required cfg then method cfg
      else match method cfg with
           | None => Some (λ tripper, tripper, None)
           | Some x => Some x
           end
  end.
End registry.

(** ** rewrite.go *)

(** The maps are given in the order the loop visits them. *)
Record HeadersPolicy := mkPolicy { hp_Set : list (str * str); hp_Add : list (str * str); hp_Remove : list str }.

Definition apply_policy (p : HeadersPolicy) (h : header) : header :=
  let h := fold_left (λ h kv, header_set kv.1 kv.2 h) (hp_Set p) h in
  let h := fold_left (λ h kv, header_add kv.1 kv.2 h) (hp_Add p) h in
  fold_left (λ h k, header_del k h) (hp_Remove p) h.

Definition rewrite_Middleware (onReq onResp : option HeadersPolicy) : Middleware := λ origin req,
  let req := match onReq with Some p => req_with_header req (apply_policy p (rq_Header req)) | None => req end in
  let! resp := origin req in
  match onResp with
  | None => act_ret resp
  | Some p => let! r := deref resp in act_ret (Some (reply_with_header r (apply_policy p (rp_Header r))))
  end.

(** ** recovery.go *)

(** The results are the unnamed zero values after a panic: no response, no error. *)
Definition recovery_Middleware : Middleware := λ origin req w,
  match origin req w with (Panic, w') => (Done None, w') | r => r end.

(** ** multirange.go, fs.go *)

Definition crlf : str := map byte_of [13; 10].

(** The lines of a part header, in the order of the keys. *)
Definition mime_lines (h : header) : str :=
  mjoin ((λ k, mjoin ((λ v, k ++ bs ": " ++ v ++ crlf) <$> default [] (h !! k))) <$> sort_strings (elements (dom h))).

(** What [CreatePart] writes. *)
Definition part_header (boundary : str) (first : bool) (h : header) : str :=
  (if first then bs "--" else crlf ++ bs "--") ++ boundary ++ crlf ++ mime_lines h ++ crlf.

(** What [Close] of the writer writes. *)
Definition closing (boundary : str) : str := crlf ++ bs "--" ++ boundary ++ bs "--" ++ crlf.

Definition FormDataContentType (boundary : str) : str := bs "multipart/form-data; boundary=" ++ boundary.

(** The writer counts in [w]; [mw] is told whether it has a part. *)
Fixpoint mime_size_loop (boundary : str) (ranges : list ByteRange) (ctype : str) (size : Z) (first : bool) (w encSize : Z) : Z :=
  match ranges with
  | [] => i64 (encSize + i64 (w + Z.of_nat (length (closing boundary))))
  | ra :: rest =>
      mime_size_loop boundary rest ctype size false
        (i64 (w + Z.of_nat (length (part_header boundary first (MimeHeader ra ctype size)))))
        (i64 (encSize + Length ra))
  end.

Definition rangesMIMESize (boundary : str) (ranges : list ByteRange) (ctype : str) (size : Z) : Z :=
  mime_size_loop boundary ranges ctype size true 0 0.

Definition with_range (req : Request) (method range : str) : Request :=
  mkReq method (rq_Scheme req) (rq_Host req) (rq_Path req) (rq_url req) (header_set (bs "Range") range (rq_Header req))
    (rq_fill req) (rq_rawRange req) (rq_prefetchRange req).

Definition backoff (oldReq : Request) (next : RoundTripper) : act (option Reply) :=
  next (with_range oldReq (bs "GET") (bs "bytes=0-0")).

Definition prefetchResource (req : Request) (next : RoundTripper) : act (option Reply) :=
  act_else (next (with_range req (bs "HEAD") (bs "bytes=0-0"))) (backoff req next).

(** The goroutine that writes the parts into the pipe. *)
Fixpoint write_parts (boundary : str) (origin : RoundTripper) (req : Request) (ctype : str) (objSize : Z)
    (ranges : list ByteRange) (first : bool) (w : W) : stream * W :=
  match ranges with
  | [] => (mkStream (closing boundary) Eof, w)
  | ra :: rest =>
      let h := part_header boundary first (MimeHeader ra ctype objSize) in
      match origin (with_range req (rq_Method req) (ByteRange_String ra)) w with
      | (Failed e, w) => (mkStream h (Broken e), w)
      | (Done (Some raResp), w) =>
          match rp_Body raResp with
          | None => (mkStream h Crashed, w)
          | Some b =>
              match st_end b with
              | Eof =>
                  let '(s, w) := write_parts boundary origin req ctype objSize rest false w in
                  (mkStream (h ++ st_bytes b ++ st_bytes s) (st_end s), w)
              | e => (mkStream (h ++ st_bytes b) e, w)
              end
          end
      | (Done None, w) | (Panic, w) => (mkStream h Crashed, w)
      end
  end.

(** [err.Error()] of the two errors. *)
Definition range_error_text (e : byte_range_error) : str :=
  match e with
  | ErrInvalidRange => bs "invalid Range header"
  | ErrOpenEnded s t => bs "open-ended range format err " ++ s ++ bs "-" ++ t
  end.

(** [sizing] and [boundary]: the boundaries of the two writers. *)
Definition multirange_Middleware (sizing boundary : str) : Middleware := λ origin req,
  let rawRange := header_get (bs "Range") (rq_Header req) in
  match rawRange with
  | [] => origin req
  | _ =>
      match RangeControl.Parse rawRange with
      | Err e => act_fail (BizErr 416 (header_set (bs "X-Error") (range_error_text e) ∅))
      | Ok byteRanges =>
          if (length (MergeRanges byteRanges) <=? 1)%nat then origin req
          else
            let! head := prefetchResource req origin in
            let! head := deref head in
            let objSize := match RangeControl.ParseContentRange (header_get (bs "Content-Range") (rp_Header head)) with
                           | Ok cr => u64 (RangeControl.c_Size cr)
                           | Err _ => u64 (rp_ContentLength head)
                           end in
            let ctype := header_get (bs "Content-Type") (rp_Header head) in
            let header := CopyHeadersWithout ∅ (rp_Header head) [bs "Content-Length"; bs "Content-Range"; bs "Content-Type"] in
            let sendSize := rangesMIMESize sizing byteRanges ctype objSize in
            let header := header_set (bs "Accept-Ranges") (bs "bytes") header in
            let header := header_set (bs "Content-Length") (format_int sendSize) header in
            let header := header_set (bs "Content-Type") (FormDataContentType boundary) header in
            λ w, let '(body, w) := write_parts boundary origin req ctype objSize byteRanges true w in
                 (Done (Some (mkReply 206 header 0 [] ∅ (Some body))), w)
      end
  end.
End middleware.
Arguments Reply : clear implicits.
Arguments stream : clear implicits.
Arguments stream_end : clear implicits.
Arguments RoundTripper : clear implicits.
Arguments Middleware : clear implicits.
Arguments HeadersPolicy : clear implicits.

(** ** Chains *)

Section chain_theorems.
Context {W E : Type}.
Implicit Types (ms : list (Middleware W E)) (next : RoundTripper W E).

Lemma chain_cons m ms next : Chain (m :: ms) next = m (Chain ms next).
Proof. unfold Chain. simpl. by rewrite fold_left_app. Qed.

Lemma chain_app ms ms' next : Chain (ms ++ ms') next = Chain ms (Chain ms' next).
Proof. induction ms as [|m ms IH]; [done|]. by rewrite <-app_comm_cons, !chain_cons, IH. Qed.
End chain_theorems.

(** ** Header policies *)

(** The values a list of settings has for a header, in order. *)
Definition named (k : str) (l : list (str * str)) : list str :=
  omap (λ kv, if decide (canonical_key kv.1 = canonical_key k) then Some kv.2 else None) l.

Definition last_or (vs : list str) (d : list str) : list str := match last vs with Some v => [v] | None => d end.

Lemma header_values_set k k' v h :
  header_values k (header_set k' v h) = if decide (canonical_key k' = canonical_key k) then [v] else header_values k h.
Proof.
  unfold header_values, header_set. case_decide as Ek; [by rewrite Ek, lookup_insert_eq|by rewrite lookup_insert_ne].
Qed.

Lemma header_values_add k k' v h :
  header_values k (header_add k' v h) = header_values k h ++ (if decide (canonical_key k' = canonical_key k) then [v] else []).
Proof.
  unfold header_values at 1, header_add. case_decide as Ek.
  - rewrite Ek, lookup_insert_eq. unfold header_values. by rewrite Ek.
  - rewrite lookup_insert_ne by done. by rewrite app_nil_r.
Qed.

Lemma header_values_del k k' h :
  header_values k (header_del k' h) = if decide (canonical_key k' = canonical_key k) then [] else header_values k h.
Proof.
  unfold header_values, header_del. case_decide as Ek; [by rewrite Ek, lookup_delete_eq|by rewrite lookup_delete_ne].
Qed.

Lemma named_cons k k' v l : named k ((k', v) :: l) = (if decide (canonical_key k' = canonical_key k) then [v] else []) ++ named k l.
Proof. unfold named. cbn [omap list_omap fst snd]. by case_decide. Qed.

Lemma fold_set_values k l : ∀ h,
  header_values k (fold_left (λ h kv, header_set kv.1 kv.2 h) l h) = last_or (named k l) (header_values k h).
Proof.
  induction l as [|[k' v] l IH]; intros h; [done|]. cbn [fold_left fst snd]. rewrite IH, header_values_set, named_cons.
  case_decide as Ek; [|done]. unfold last_or. change ([v] ++ named k l) with (v :: named k l). rewrite last_cons. by destruct (last (named k l)).
Qed.

Lemma fold_add_values k l : ∀ h,
  header_values k (fold_left (λ h kv, header_add kv.1 kv.2 h) l h) = header_values k h ++ named k l.
Proof.
  induction l as [|[k' v] l IH]; intros h; [by rewrite app_nil_r|]. cbn [fold_left fst snd]. rewrite IH, header_values_add, <-app_assoc.
  by rewrite named_cons.
Qed.

Lemma fold_del_values k l : ∀ h,
  header_values k (fold_left (λ h k, header_del k h) l h) =
    if decide (canonical_key k ∈ canonical_key <$> l) then [] else header_values k h.
Proof.
  induction l as [|k' l IH]; intros h; cbn [fold_left]; [done|].
  rewrite IH, header_values_del, fmap_cons.
  destruct (decide (canonical_key k ∈ canonical_key <$> l)) as [Hi|Hi]; [by rewrite decide_True by (by apply elem_of_cons; right)|].
  destruct (decide (canonical_key k' = canonical_key k)) as [Ek|Ek]; [by rewrite decide_True by (apply elem_of_cons; by left)|].
  rewrite decide_False; [done|]. intros [Hc|?]%elem_of_cons; [by symmetry in Hc|done].
Qed.

Lemma apply_policy_values p h k : header_values k (apply_policy p h) =
  if decide (canonical_key k ∈ canonical_key <$> hp_Remove p) then []
  else last_or (named k (hp_Set p)) (header_values k h) ++ named k (hp_Add p).
Proof. unfold apply_policy. cbv zeta. by rewrite fold_del_values, fold_add_values, fold_set_values. Qed.

Lemma named_perm k l l' : NoDup (canonical_key ∘ fst <$> l) → l ≡ₚ l' → named k l = named k l'.
Proof.
  intros Hnd Hp. assert (named k l ≡ₚ named k l') as Hq by (unfold named; by rewrite Hp).
  assert (length (named k l) ≤ 1)%nat as Hl.
  { clear Hp Hq. induction l as [|[k' v] l IH]; [simpl; lia|]. apply NoDup_cons in Hnd as [Hn Hnd]. rewrite named_cons.
    case_decide as Ek; [|by apply IH]. assert (named k l = []) as El; [|rewrite El; simpl; lia].
    clear IH Hnd. induction l as [|[k2 v2] l IH]; [done|]. apply not_elem_of_cons in Hn as [Hne Hn]. rewrite named_cons.
    rewrite decide_False by (simpl in Hne; congruence). by apply IH. }
  pose proof (Permutation_length Hq) as Hlen.
  destruct (named k l) as [|x [|y t]], (named k l') as [|x' [|y' t']]; simpl in *; try lia; [done|].
  apply Permutation_singleton_r in Hq. by simplify_eq.
Qed.

(** a header policy does to every header exactly what it says: a removed
    header is gone, whatever is set or added under its name; another one has the
    value set for it, or its own values if none is, followed by the one added;
    and, although Go visits the maps of the policy in any order, the result does
    not depend on it if no two keys of a map name the same header. *)
Theorem header_policy_applied (p : HeadersPolicy) (h : header) :
  (∀ k, header_values k (apply_policy p h) =
     if decide (canonical_key k ∈ canonical_key <$> hp_Remove p) then []
     else last_or (named k (hp_Set p)) (header_values k h) ++ named k (hp_Add p))
  ∧ (∀ sets adds k, hp_Set p ≡ₚ sets → hp_Add p ≡ₚ adds →
       NoDup (canonical_key ∘ fst <$> hp_Set p) → NoDup (canonical_key ∘ fst <$> hp_Add p) →
       header_values k (apply_policy (mkPolicy sets adds (hp_Remove p)) h) = header_values k (apply_policy p h)).
Proof.
  split; [intros k; apply apply_policy_values|]. intros sets adds k Hs Ha Hns Hna. rewrite !apply_policy_values. cbn [hp_Set hp_Add hp_Remove].
  by rewrite (named_perm k (hp_Set p) sets), (named_perm k (hp_Add p) adds).
Qed.

(** ** Several ranges *)

(** A conversion adds a multiple of the modulus, which a later one ignores. *)
Lemma i64_shift z : ∃ k, i64 z = z + k * 18446744073709551616.
Proof.
  unfold i64. exists (- ((z + 9223372036854775808) / 18446744073709551616)).
  pose proof (Z_div_mod_eq_full (z + 9223372036854775808) 18446744073709551616). lia.
Qed.

Lemma i64_period z k : i64 (z + k * 18446744073709551616) = i64 z.
Proof.
  unfold i64. f_equal. replace (z + k * 18446744073709551616 + 9223372036854775808)
    with (z + 9223372036854775808 + k * 18446744073709551616) by lia. apply Z_mod_plus_full.
Qed.

(** The bytes of an object a range stands for, and how many more it asks for:
    an open range counts as ending at -1. *)
Definition served (obj : str) (ra : ByteRange) : str :=
  slice obj (b_Start ra) (if b_End ra =? -1 then Z.of_nat (length obj) else Z.min (b_End ra + 1) (Z.of_nat (length obj))).

Definition excess (n : Z) (ra : ByteRange) : Z :=
  if b_End ra =? -1 then - n else Z.max 0 (b_End ra - (n - 1)).

Definition servable (n : Z) (ra : ByteRange) : Prop :=
  range_wf ra ∧ b_Start ra < n ∧ ¬ (b_Start ra = 0 ∧ b_End ra = -1).

Definition sum_Z (l : list Z) : Z := foldr Z.add 0 l.

(** The multipart body of the ranges. *)
Fixpoint multipart (boundary ctype obj : str) (first : bool) (ranges : list ByteRange) : str :=
  match ranges with
  | [] => closing boundary
  | ra :: rest =>
      part_header boundary first (MimeHeader ra ctype (Z.of_nat (length obj))) ++ served obj ra ++ multipart boundary ctype obj false rest
  end.

Lemma served_length obj ra : servable (Z.of_nat (length obj)) ra →
  Z.of_nat (length (served obj ra)) = b_End ra - b_Start ra + 1 - excess (Z.of_nat (length obj)) ra.
Proof.
  intros ((Hs & He) & Hn & _). unfold served, excess. rewrite slice_length; repeat case_if; lia.
Qed.

Lemma part_header_length b b' first h : length b = length b' → length (part_header b first h) = length (part_header b' first h).
Proof. intros Hl. unfold part_header. destruct first; rewrite !length_app, Hl; done. Qed.

Lemma closing_length b b' : length b = length b' → length (closing b) = length (closing b').
Proof. intros Hl. unfold closing. by rewrite !length_app, Hl. Qed.

Lemma mime_size_exact b b' ctype obj ranges : length b = length b' → Forall (servable (Z.of_nat (length obj))) ranges →
  ∀ first w enc, mime_size_loop b ranges ctype (Z.of_nat (length obj)) first w enc =
    i64 (enc + w + Z.of_nat (length (multipart b' ctype obj first ranges)) + sum_Z (excess (Z.of_nat (length obj)) <$> ranges)).
Proof.
  intros Hb. set (n := Z.of_nat (length obj)). induction 1 as [|ra rest Hra Hrest IH]; intros first w enc; cbn [mime_size_loop multipart].
  - rewrite (closing_length b b' Hb). destruct (i64_shift (w + Z.of_nat (length (closing b')))) as [k ->].
    rewrite <-(i64_period (enc + w + _ + _) k). f_equal. cbn [sum_Z foldr fmap list_fmap]. lia.
  - rewrite IH, (part_header_length b b' _ _ Hb), fmap_cons. unfold sum_Z. cbn [foldr]. fold (sum_Z (excess n <$> rest)).
    rewrite !length_app, !Nat2Z.inj_add, (served_length obj ra Hra). fold n. unfold Length.
    destruct (i64_shift (b_End ra - b_Start ra)) as [k1 ->].
    destruct (i64_shift (b_End ra - b_Start ra + k1 * 18446744073709551616 + 1)) as [k2 ->].
    destruct (i64_shift (w + Z.of_nat (length (part_header b' first (MimeHeader ra ctype n))))) as [k3 ->].
    destruct (i64_shift (enc + (b_End ra - b_Start ra + k1 * 18446744073709551616 + 1 + k2 * 18446744073709551616))) as [k4 ->].
    rewrite <-(i64_period (enc + w + _ + _) (k1 + k2 + k3 + k4)). f_equal. lia.
Qed.

Section multirange_theorems.
Context {W E : Type}.

(** A round tripper that serves an object, in the states [ok]: the probe tells
    its size and type, a range is answered with the bytes of it that exist. *)
Record serves (origin : RoundTripper W E) (ok : W → Prop) (obj ctype : str) : Prop := {
  sv_probe : ∀ req w, ok w → rq_Method req = bs "HEAD" → header_get (bs "Range") (rq_Header req) = bs "bytes=0-0" →
    ∃ r w', origin req w = (Done (Some r), w') ∧ ok w'
      ∧ header_get (bs "Content-Range") (rp_Header r) = content_range_str 0 0 (format_int (Z.of_nat (length obj)))
      ∧ header_get (bs "Content-Type") (rp_Header r) = ctype;
  sv_range : ∀ req w ra, ok w → rq_Method req = bs "GET" → header_get (bs "Range") (rq_Header req) = ByteRange_String ra →
    servable (Z.of_nat (length obj)) ra →
    ∃ r w', origin req w = (Done (Some r), w') ∧ ok w' ∧ rp_Body r = Some (mkStream (served obj ra) Eof) }.

Lemma write_parts_serves origin ok obj ctype boundary req : serves origin ok obj ctype → rq_Method req = bs "GET" →
  ∀ ranges first w, Forall (servable (Z.of_nat (length obj))) ranges → ok w →
  ∃ w', write_parts boundary origin req ctype (Z.of_nat (length obj)) ranges first w =
          (mkStream (multipart boundary ctype obj first ranges) Eof, w') ∧ ok w'.
Proof.
  intros Hs Hg. induction ranges as [|ra rest IH]; intros first w Hf Hw; cbn [write_parts multipart]; [by exists w|].
  apply Forall_cons in Hf as [Hra Hf].
  destruct (sv_range _ _ _ _ Hs (with_range req (rq_Method req) (ByteRange_String ra)) w ra) as (r & w1 & -> & Hw1 & ->);
    [done|done|apply header_get_set|done|].
  cbn [st_end]. destruct (IH false w1 Hf Hw1) as (w2 & -> & Hw2). by exists w2.
Qed.

Lemma probe_size n : 0 < n <= max_int64 →
  RangeControl.ParseContentRange (content_range_str 0 0 (format_int n)) = Ok (mkContentRange 0 0 n false).
Proof.
  intros Hn. rewrite parse_content_range_str by (unfold max_int64 in *; lia || (apply format_nonneg_graphic; lia) || apply format_int_ne).
  unfold total_value. rewrite bool_decide_eq_false_2.
  - rewrite parse_format_int by (unfold_ints; lia). repeat case_if; done || lia.
  - intros Ht. apply (format_notin "*" n eq_refl); [lia|]. rewrite Ht. set_solver.
Qed.

(** C18: a request for several ranges of an object that the rest of the chain
    serves is answered with 206 and one multipart body: per range, in the order
    of the request, a header with the range cut to the object and the bytes of
    it, however the two random boundaries of equal length come out.  The
    announced Content-Length is the length of that body plus, per range, what
    the range asks for beyond the end of the object, where an open range counts
    as if it ended at -1: it is right exactly if these cancel out, as they do
    when every range is closed and inside the object. *)
Theorem multirange_answered origin ok obj ctype sizing boundary req w ranges :
  serves origin ok obj ctype → ok w → rq_Method req = bs "GET" → 0 < Z.of_nat (length obj) <= max_int64 →
  header_get (bs "Range") (rq_Header req) ≠ [] →
  RangeControl.Parse (header_get (bs "Range") (rq_Header req)) = Ok ranges → (1 < length (MergeRanges ranges))%nat →
  Forall (servable (Z.of_nat (length obj))) ranges → length sizing = length boundary →
  ∃ r w', multirange_Middleware sizing boundary origin req w = (Done (Some r), w') ∧ ok w'
  ∧ rp_StatusCode r = 206
  ∧ rp_Body r = Some (mkStream (multipart boundary ctype obj true ranges) Eof)
  ∧ header_get (bs "Content-Length") (rp_Header r) =
      format_int (i64 (Z.of_nat (length (multipart boundary ctype obj true ranges)) + sum_Z (excess (Z.of_nat (length obj)) <$> ranges)))
  ∧ header_get (bs "Content-Type") (rp_Header r) = FormDataContentType boundary.
Proof.
  intros Hs Hw Hg Hn Hne Hp Hm Hf Hb. unfold multirange_Middleware. cbv zeta.
  destruct (header_get (bs "Range") (rq_Header req)) as [|c t] eqn:Er; [done|]. rewrite Hp.
  replace (length (MergeRanges ranges) <=? 1)%nat with false by (symmetry; apply Nat.leb_gt; lia).
  unfold act_bind, prefetchResource, act_else.
  destruct (sv_probe _ _ _ _ Hs (with_range req (bs "HEAD") (bs "bytes=0-0")) w) as (hd & w1 & -> & Hw1 & Hcr & Hct);
    [done|done|apply header_get_set|]. cbn [deref].
  rewrite Hcr, (probe_size _ Hn), Hct. cbn [RangeControl.c_Size]. rewrite u64_id by (unfold_ints; lia).
  destruct (write_parts_serves origin ok obj ctype boundary req Hs Hg ranges true w1 Hf Hw1) as (w2 & -> & Hw2).
  eexists _, w2. split; [reflexivity|]. split; [done|]. cbn [rp_StatusCode rp_Body rp_Header]. split; [done|]. split; [done|].
  split; [|apply header_get_set]. rewrite header_get_set_ne by (vm_compute; discriminate). rewrite header_get_set.
  unfold rangesMIMESize. by rewrite (mime_size_exact sizing boundary ctype obj ranges Hb Hf).
Qed.

(** on every other path: without a Range, and when the ranges as they stand
    merge into one, the next round tripper answers the unchanged request; a
    Range that does not parse is refused with 416 and the reason, without asking
    it; and when both probes fail the request fails with the error of the second. *)
Theorem multirange_paths (origin : RoundTripper W E) sizing boundary req w :
  let range := header_get (bs "Range") (rq_Header req) in
  (range = [] ∨ (∃ ranges, RangeControl.Parse range = Ok ranges ∧ (length (MergeRanges ranges) ≤ 1)%nat) →
     multirange_Middleware sizing boundary origin req w = origin req w)
  ∧ (∀ e, range ≠ [] → RangeControl.Parse range = Err e →
       multirange_Middleware sizing boundary origin req w = (Failed (BizErr 416 {[bs "X-Error" := [range_error_text e]]}), w))
  ∧ (∀ ranges e e' w1 w2, range ≠ [] → RangeControl.Parse range = Ok ranges → (1 < length (MergeRanges ranges))%nat →
       origin (with_range req (bs "HEAD") (bs "bytes=0-0")) w = (Failed e, w1) →
       origin (with_range req (bs "GET") (bs "bytes=0-0")) w1 = (Failed e', w2) →
       multirange_Middleware sizing boundary origin req w = (Failed e', w2)).
Proof.
  intros range. unfold multirange_Middleware. cbv zeta. fold range. split; [|split].
  - intros [->|(ranges & Hp & Hl)]; [done|]. destruct range as [|c t]; [done|]. rewrite Hp.
    by rewrite (proj2 (Nat.leb_le _ _) Hl).
  - intros e Hne Hp. destruct range as [|c t]; [done|]. by rewrite Hp.
  - intros ranges e e' w1 w2 Hne Hp Hm H1 H2. destruct range as [|c t]; [done|]. rewrite Hp.
    replace (length (MergeRanges ranges) <=? 1)%nat with false by (symmetry; apply Nat.leb_gt; lia).
    unfold act_bind, prefetchResource, act_else, backoff. by rewrite H1, H2.
Qed.
End multirange_theorems.

(** ** A concrete object *)

Definition demo_object : str := bs "0123456789".

Definition demo_origin : RoundTripper unit Empty_set := λ req w,
  if decide (rq_Method req = bs "HEAD") then
    (Done (Some (mkReply 206 {[bs "Content-Range" := [content_range_str 0 0 (format_int 10)]; bs "Content-Type" := [bs "text/plain"]]} 1 [] ∅ None)), w)
  else match RangeControl.Parse (header_get (bs "Range") (rq_Header req)) with
       | Ok [ra] => (Done (Some (mkReply 206 ∅ 0 [] ∅ (Some (mkStream (served demo_object ra) Eof)))), w)
       | _ => (Panic, w)
       end.

Lemma servable_round_trip n ra : servable n ra → RangeControl.Parse (ByteRange_String ra) = Ok [ra].
Proof.
  intros (Hw & Hn & Hz). assert (ByteRange_String ra = bs "bytes=" ++ render_range ra) as ->.
  { destruct Hw as [Hs He]. unfold ByteRange_String, render_range. repeat case_if; try lia; done. }
  rewrite strict_Parse_bytes, split_byte_notin by (by apply render_range_comma).
  change [render_range ra] with (map render_range [ra]). apply parse_parts_render. by constructor.
Qed.

Lemma demo_serves : serves demo_origin (λ _, True) demo_object (bs "text/plain").
Proof.
  split.
  - intros req w _ Hm _. unfold demo_origin. rewrite decide_True by exact Hm. eexists _, w. split; [reflexivity|]. split; [done|].
    split; vm_compute; reflexivity.
  - intros req w ra _ Hm Hr Hs. unfold demo_origin. rewrite decide_False by (rewrite Hm; vm_compute; discriminate).
    rewrite Hr, (servable_round_trip _ ra Hs). eexists _, w. split; [reflexivity|]. done.
Qed.

Definition ranges_req (range : str) : Request :=
  mkReq (bs "GET") (bs "http") (bs "h") (bs "/a") (bs "http://h/a") {[bs "Range" := [range]]} None None None.

Lemma multirange_answered_witness : ∃ r w',
  multirange_Middleware (bs "ffff") (bs "beef") demo_origin (ranges_req (bs "bytes=0-1,4-20")) tt = (Done (Some r), w')
  ∧ rp_Body r = Some (mkStream (multipart (bs "beef") (bs "text/plain") demo_object true [mkByteRange 0 1; mkByteRange 4 20]) Eof)
  ∧ header_get (bs "Content-Length") (rp_Header r) =
      format_int (Z.of_nat (length (multipart (bs "beef") (bs "text/plain") demo_object true [mkByteRange 0 1; mkByteRange 4 20])) + 11).
Proof.
  destruct (multirange_answered demo_origin (λ _, True) demo_object (bs "text/plain") (bs "ffff") (bs "beef")
    (ranges_req (bs "bytes=0-1,4-20")) tt [mkByteRange 0 1; mkByteRange 4 20]) as (r & w' & Hr & _ & _ & Hb & Hl & _).
  - exact demo_serves.
  - exact I.
  - reflexivity.
  - vm_compute. split; [reflexivity|discriminate].
  - vm_compute. discriminate.
  - vm_compute. reflexivity.
  - apply Nat.ltb_lt. vm_compute. reflexivity.
  - repeat constructor; vm_compute; try discriminate; try (right; split; discriminate); intros [H1 H2]; discriminate.
  - reflexivity.
  - exists r, w'. split; [exact Hr|]. split; [exact Hb|]. rewrite Hl. vm_compute. reflexivity.
Defined.

Lemma multirange_paths_witness :
  multirange_Middleware (bs "ffff") (bs "beef") demo_origin (ranges_req (bs "bytes=x")) tt
    = (Failed (BizErr 416 {[bs "X-Error" := [bs "invalid Range header"]]}), tt).
Proof.
  destruct (multirange_paths demo_origin (bs "ffff") (bs "beef") (ranges_req (bs "bytes=x")) tt) as (_ & H & _).
  apply (H ErrInvalidRange); [vm_compute; discriminate|vm_compute; reflexivity].
Defined.

Lemma header_policy_applied_witness :
  header_values (bs "X-A") (apply_policy (mkPolicy [(bs "x-b", bs "2"); (bs "x-a", bs "1")] [(bs "X-A", bs "3")] []) ∅) = [bs "1"; bs "3"].
Proof.
  destruct (header_policy_applied (mkPolicy [(bs "x-a", bs "1"); (bs "x-b", bs "2")] [(bs "X-A", bs "3")] []) ∅) as [_ H].
  transitivity (header_values (bs "X-A") (apply_policy (mkPolicy [(bs "x-a", bs "1"); (bs "x-b", bs "2")] [(bs "X-A", bs "3")] []) ∅)).
  - apply (H [(bs "x-b", bs "2"); (bs "x-a", bs "1")] [(bs "X-A", bs "3")] (bs "X-A")).
    + apply Permutation_swap.
    + reflexivity.
    + apply (bool_decide_eq_true_1 _). vm_compute. reflexivity.
    + apply (bool_decide_eq_true_1 _). vm_compute. reflexivity.
  - vm_compute. reflexivity.
Defined.
