(* ===== verification/Server.v ===== *)
(** * The server: server/server.go

    The handler that runs the chain of middleware and writes its answer
    ([buildHandler]), the construction of the chain from the configuration
    ([buildMiddlewareChain]) and of the endpoint with the plugins
    ([buildEndpoint]), the choice between the internal interface and the cache,
    and the end of the server ([Stop]).

    A response writer has the headers to be sent, the status once it is written,
    the body so far, the room the client leaves and whether its connection can be
    taken over.  Counters are the codes that were counted.

    Proved: what the client gets on every path; that a cut body is visible; the
    chain that is built; when the end of the server reaches the storage. *)

From S2P Require Import Prelude GoStrings Headers CachingState Middlewares.
Local Open Scope Z_scope.

(** ** [http.StatusText] *)

Definition status_table : list (Z * string) :=
  [(100, "Continue"); (101, "Switching Protocols"); (102, "Processing"); (103, "Early Hints");
   (200, "OK"); (201, "Created"); (202, "Accepted"); (203, "Non-Authoritative Information"); (204, "No Content");
   (205, "Reset Content"); (206, "Partial Content"); (207, "Multi-Status"); (208, "Already Reported"); (226, "IM Used");
   (300, "Multiple Choices"); (301, "Moved Permanently"); (302, "Found"); (303, "See Other"); (304, "Not Modified");
   (305, "Use Proxy"); (307, "Temporary Redirect"); (308, "Permanent Redirect");
   (400, "Bad Request"); (401, "Unauthorized"); (402, "Payment Required"); (403, "Forbidden"); (404, "Not Found");
   (405, "Method Not Allowed"); (406, "Not Acceptable"); (407, "Proxy Authentication Required"); (408, "Request Timeout");
   (409, "Conflict"); (410, "Gone"); (411, "Length Required"); (412, "Precondition Failed"); (413, "Request Entity Too Large");
   (414, "Request URI Too Long"); (415, "Unsupported Media Type"); (416, "Requested Range Not Satisfiable");
   (417, "Expectation Failed"); (418, "I'm a teapot"); (421, "Misdirected Request"); (422, "Unprocessable Entity");
   (423, "Locked"); (424, "Failed Dependency"); (425, "Too Early"); (426, "Upgrade Required"); (428, "Precondition Required");
   (429, "Too Many Requests"); (431, "Request Header Fields Too Large"); (451, "Unavailable For Legal Reasons");
   (500, "Internal Server Error"); (501, "Not Implemented"); (502, "Bad Gateway"); (503, "Service Unavailable");
   (504, "Gateway Timeout"); (505, "HTTP Version Not Supported"); (506, "Variant Also Negotiates"); (507, "Insufficient Storage");
   (508, "Loop Detected"); (510, "Not Extended"); (511, "Network Authentication Required")]%string.

Definition StatusText (code : Z) : str :=
  match List.find (λ p, p.1 =? code) status_table with Some (_, s) => bs s | None => [] end.

(** ** The response writer of net/http *)

(** [wr_Room] is what the client takes before its connection fails.  An answer to a
    HEAD request has no body; [wr_Limit] is the length that was announced, [wr_Written]
    what was handed to [Write], and [wr_Info] the informational answers. *)
Record writer := mkWriter {
  wr_Header : header; wr_Status : option Z; wr_Sent : header; wr_Body : str;
  wr_Room : option nat; wr_Hijacker : bool; wr_Closed : bool;
  wr_Head : bool; wr_Limit : option Z; wr_Written : Z; wr_Info : list (Z * header) }.

Definition informational (code : Z) : bool := (100 <=? code) && (code <=? 199) && negb (code =? 101).
Definition bodyAllowed (code : Z) : bool := negb ((100 <=? code) && (code <=? 199)) && negb (code =? 204) && negb (code =? 304).
(** [WriteHeader] panics for any other code. *)
Definition valid_code (code : Z) : bool := (100 <=? code) && (code <=? 999).

(** The length a header announces; a value that is no length is not sent. *)
Definition announced_length (h : header) : option Z :=
  match header_get (bs "Content-Length") h with
  | [] => None
  | cl => match parse_int cl with (v, None) => if v >=? 0 then Some v else None | _ => None end
  end.

Definition sent_header (h : header) : header :=
  if bool_decide (header_get (bs "Content-Length") h = []) then h
  else match announced_length h with Some _ => h | None => header_del (bs "Content-Length") h end.

(** The first status that is not informational is sent, with the headers of that
    moment. *)
Definition WriteHeader (code : Z) (w : writer) : writer :=
  match wr_Status w with
  | Some _ => w
  | None =>
      if informational code then
        mkWriter (wr_Header w) None (wr_Sent w) (wr_Body w) (wr_Room w) (wr_Hijacker w) (wr_Closed w)
          (wr_Head w) (wr_Limit w) (wr_Written w) (wr_Info w ++ [(code, wr_Header w)])
      else
        mkWriter (wr_Header w) (Some code) (sent_header (wr_Header w)) (wr_Body w) (wr_Room w) (wr_Hijacker w) (wr_Closed w)
          (wr_Head w) (announced_length (wr_Header w)) (wr_Written w) (wr_Info w)
  end.

Definition count_written (n : nat) (w : writer) : writer :=
  mkWriter (wr_Header w) (wr_Status w) (wr_Sent w) (wr_Body w) (wr_Room w) (wr_Hijacker w) (wr_Closed w)
    (wr_Head w) (wr_Limit w) (wr_Written w + Z.of_nat n) (wr_Info w).

(** What the connection takes; it is lost when that is not all. *)
Definition room_for (n : nat) (room : option nat) : nat := match room with None => n | Some r => Nat.min r n end.

Definition deliver (b : str) (w : writer) : writer :=
  let n := room_for (length b) (wr_Room w) in
  mkWriter (wr_Header w) (wr_Status w) (wr_Sent w) (wr_Body w ++ take n b) ((λ r, r - n)%nat <$> wr_Room w) (wr_Hijacker w)
    (wr_Closed w || (n <? length b)%nat) (wr_Head w) (wr_Limit w) (wr_Written w) (wr_Info w).

Definition exceeds (n : Z) (limit : option Z) : bool := match limit with Some l => n >? l | None => false end.

(** [Write]: the writer, and whether all of it was taken. *)
Definition Write (b : str) (w : writer) : writer * bool :=
  let w := WriteHeader 200 w in
  match b with
  | [] => (w, true)
  | _ =>
      if negb (bodyAllowed (default 200 (wr_Status w))) then (w, false)
      else
        let w := count_written (length b) w in
        if exceeds (wr_Written w) (wr_Limit w) then (w, false)
        else if wr_Head w then (w, true)
        else (deliver b w, (room_for (length b) (wr_Room w) =? length b)%nat)
  end.

(** At the end of the request a status is sent if none was, and the connection is
    closed if the announced length was not written. *)
Definition short (w : writer) : bool :=
  match wr_Limit w with
  | Some l => negb (wr_Head w) && bodyAllowed (default 200 (wr_Status w)) && negb (wr_Written w =? l)
  | None => false
  end.

Definition finishRequest (w : writer) : writer :=
  let w := WriteHeader 200 w in
  mkWriter (wr_Header w) (wr_Status w) (wr_Sent w) (wr_Body w) (wr_Room w) (wr_Hijacker w) (wr_Closed w || short w)
    (wr_Head w) (wr_Limit w) (wr_Written w) (wr_Info w).

Definition on_header (f : header → header) (w : writer) : writer :=
  mkWriter (f (wr_Header w)) (wr_Status w) (wr_Sent w) (wr_Body w) (wr_Room w) (wr_Hijacker w) (wr_Closed w)
    (wr_Head w) (wr_Limit w) (wr_Written w) (wr_Info w).

Definition wrapUpstreamError (w : writer) : writer :=
  mkWriter (wr_Header w) (wr_Status w) (wr_Sent w) (wr_Body w) (wr_Room w) (wr_Hijacker w) (wr_Hijacker w || wr_Closed w)
    (wr_Head w) (wr_Limit w) (wr_Written w) (wr_Info w).

(** [io.CopyBuffer] over the pieces the reads of the body gave. *)
Fixpoint copy_pieces (pieces : list str) (w : writer) : writer * bool :=
  match pieces with
  | [] => (w, true)
  | [] :: rest => copy_pieces rest w
  | p :: rest => match Write p w with (w, true) => copy_pieces rest w | (w, false) => (w, false) end
  end.

Section server.
Context {W E : Type}.

(** What a request leaves: the writer, the codes counted, the bodies cut. *)
Record served := mkServed { sv_writer : writer; sv_codes : list Z; sv_unexpected : nat }.

Definition Handler : Type := Request → writer → action W E served.

Definition bodyBytes : str := StatusText 500.
Definition bodyLen : str := format_int (Z.of_nat (length bodyBytes)).

(** How the reads of a body cut its bytes into pieces. *)
Variable reads : str → list str.

(** [doCopyBody]; a body whose writer crashed took the process with it. *)
Definition doCopyBody (req : Request) (r : Reply E) (w : writer) : outcome E served :=
  match rp_Body r with
  | None => Done (mkServed w [rp_StatusCode r] 0)
  | Some b =>
      if bool_decide (rq_Method req = bs "HEAD") then Done (mkServed w [] 0)
      else
        let want := header_get (bs "Content-Length") (rp_Header r) in
        let hasChunked := bool_decide (bs "chunked" ∈ rp_TransferEncoding r) in
        let '(w, ok) := copy_pieces (reads (st_bytes b)) w in
        match ok, st_end b with
        | true, Crashed => Panic
        | true, Eof => Done (mkServed w [rp_StatusCode r] 0)
        | _, _ => Done (mkServed (if hasChunked || bool_decide (want = []) then wrapUpstreamError w else w) [rp_StatusCode r] 1)
        end
  end.

Definition buildHandler (tripper : RoundTripper W E) : Handler := λ req wr w,
  match tripper req w with
  | (Panic, w) => (Panic, w)
  | (Failed (BizErr code h), w) =>
      let wr := on_header (λ d, header_set (bs "X-Content-Type-Options") (bs "nosniff") (CopyHeader d h)) wr in
      if valid_code code then
        let wr := fst (Write (StatusText code) (WriteHeader code wr)) in
        (Done (mkServed wr [code] 0), w)
      else (Panic, w)
  | (Failed (OtherErr _), w) =>
      let wr := on_header (λ d, header_set (bs "X-Content-Type-Options") (bs "nosniff")
                                  (header_set (bs "Content-Length") bodyLen
                                    (header_set (bs "Content-Type") (bs "text/plain; charset=utf-8") d))) wr in
      let wr := fst (Write bodyBytes (WriteHeader 500 wr)) in
      (Done (mkServed wr [500] 0), w)
  | (Done None, w) => (Panic, w)
  | (Done (Some r), w) =>
      let wr := on_header (λ d, CopyTrailer (CopyHeader d (rp_Header r)) (rp_Trailer r)) wr in
      if valid_code (rp_StatusCode r) then (doCopyBody req r (WriteHeader (rp_StatusCode r) wr), w)
      else (Panic, w)
  end.

(** ** Construction *)

(** The plugins wrap the handler in order; one may leave it as it is. *)
Definition buildEndpoint (plugins : list (Handler → option Handler)) (h : Handler) : Handler :=
  fold_left (λ next plug, default next (plug next)) plugins h.

(** The end of the chain: a nil interface. *)
Definition nil_tripper : RoundTripper W E := λ _ w, (Panic, w).

Section build.
Context {C : Type}.   (* configurations of middleware *)
Context (cfg_Name : C → str) (create : C → option (Middleware W E * option nat)).

(** The loop of [buildMiddlewareChain] over the reversed configuration; [None] is
    the panic for an empty name.  [create] is [middleware.Create] after the global
    options were merged in. *)
Fixpoint build_loop (rcfgs : list C) (tripper : RoundTripper W E) (cleanups : list (option nat))
    : option (RoundTripper W E * list (option nat)) :=
  match rcfgs with
  | [] => Some (tripper, cleanups)
  | c :: rest =>
      if bool_decide (cfg_Name c = []) then None
      else match create c with
           | None => build_loop rest tripper cleanups
           | Some (next, cleanup) => build_loop rest (next tripper) (cleanups ++ [cleanup])
           end
  end.

Definition buildMiddlewareChain (cfgs : list C) : option (RoundTripper W E * list (option nat)) :=
  build_loop (rev cfgs) nil_tripper [].
End build.

(** The cleanups that run, and whether all did: calling a nil one panics. *)
Fixpoint run_cleanups (cleanups : list (option nat)) : list nat * bool :=
  match cleanups with
  | [] => ([], true)
  | None :: _ => ([], false)
  | Some n :: rest => let '(ran, closed) := run_cleanups rest in (n :: ran, closed)
  end.

(** [Stop] with the results of [Shutdown] and [storage.Close]: the cleanups that
    ran and the errors, or the panic, before the storage is closed. *)
Definition Stop {Err} (shutdown close : option Err) (cleanups : list (option nat)) : option (list nat * list Err) :=
  match run_cleanups cleanups with
  | (ran, true) => Some (ran, option_list shutdown ++ option_list close)
  | (_, false) => None
  end.

(** ** Dispatch *)

Definition fmtAddr (addr : str) : str := match index_byte ":" addr with Some i => take i addr | None => addr end.

Definition localMatcher : gset (list ascii) := {[bs "localhost"; bs "127.1"; bs "127.0.0.1"]}.

(** [NewServer]: the handler of the server. *)
Definition serve (allow : list str) (mux next : Handler) : Handler := λ req wr,
  if bool_decide (fmtAddr (rq_Host req) ∈ localMatcher ∪ list_to_set allow)
  then mux req (on_header (header_set (bs "X-Server") (bs "local-plugin")) wr)
  else next req wr.
End server.
Arguments Handler : clear implicits.

(** ** What the client gets *)

Section theorems.
Context {W E : Type}.
Implicit Types (tripper : RoundTripper W E) (wr : writer) (r : Reply E).

Definition fresh_for (head : bool) (room : option nat) (hijack : bool) : writer :=
  mkWriter ∅ None ∅ [] room hijack false head None 0 [].
Definition fresh : option nat → bool → writer := fresh_for false.

Lemma copy_header_empty (h : header) : canonical_header h → CopyHeader ∅ h = h.
Proof.
  intros Hc. destruct (canonical_header_order h (map_to_list h) Hc (Permutation_refl _)) as (Hnd & Hf & Hl).
  unfold CopyHeader. by rewrite copy_header_order_spec, Hl, map_union_empty.
Qed.

(** *** Copying a body *)

(** The status allows a body, the announced length is not exceeded, and the client
    takes it all. *)
Definition fits (c : Z) (limit : option Z) (written : Z) (room : option nat) (n : nat) : bool :=
  (n =? 0)%nat || (bodyAllowed c && negb (exceeds (written + Z.of_nat n) limit) && (room_for n room =? n)%nat).

(** What a write keeps of the writer. *)
Definition same_answer (w w' : writer) : Prop :=
  wr_Status w' = wr_Status w ∧ wr_Sent w' = wr_Sent w ∧ wr_Limit w' = wr_Limit w ∧ wr_Head w' = wr_Head w ∧ wr_Hijacker w' = wr_Hijacker w.

Lemma Write_spec p w c : p ≠ [] → wr_Status w = Some c → wr_Head w = false →
  ∃ w', Write p w = (w', fits c (wr_Limit w) (wr_Written w) (wr_Room w) (length p)) ∧ same_answer w w'
  ∧ if fits c (wr_Limit w) (wr_Written w) (wr_Room w) (length p)
    then wr_Body w' = wr_Body w ++ p ∧ wr_Written w' = wr_Written w + Z.of_nat (length p) ∧ wr_Closed w' = wr_Closed w
         ∧ wr_Room w' = (λ x, x - length p)%nat <$> wr_Room w
    else ∃ x, wr_Body w' = wr_Body w ++ x ∧ x `prefix_of` p ∧ (length x < length p)%nat
         ∧ (wr_Closed w' = true ∨ exceeds (wr_Written w') (wr_Limit w') = true ∨ (bodyAllowed c = false ∧ x = [])).
Proof.
  intros Hp Hs Hh. assert (length p ≠ 0)%nat as Hl by (by destruct p). unfold Write.
  assert (WriteHeader 200 w = w) as -> by (unfold WriteHeader; by rewrite Hs).
  destruct p as [|a p']; [done|]. set (p := a :: p') in *. rewrite Hs. cbn [default from_option id].
  unfold fits. rewrite (proj2 (Nat.eqb_neq _ _) Hl). cbn [orb].
  destruct (bodyAllowed c) eqn:Eb; cbn [negb andb].
  2: { exists w. split; [done|]. split; [done|]. exists []. rewrite app_nil_r. split_and!; [done|apply prefix_nil|cbn; lia|auto]. }
  cbn [count_written wr_Written wr_Limit wr_Head wr_Room]. destruct (exceeds _ _) eqn:Ee; cbn [negb andb].
  { eexists. split; [done|]. split; [done|]. exists []. cbn [count_written wr_Body wr_Written wr_Limit]. rewrite app_nil_r. split_and!; [done|apply prefix_nil|cbn; lia|auto]. }
  rewrite Hh. eexists. split; [done|]. split; [done|]. cbn [deliver count_written wr_Body wr_Written wr_Limit wr_Closed wr_Room].
  destruct (Nat.eqb_spec (room_for (length p) (wr_Room w)) (length p)) as [Er|Er].
  - rewrite Er, firstn_all, Nat.ltb_irrefl, orb_false_r. done.
  - eexists. split; [done|]. split; [apply prefix_take|]. assert (room_for (length p) (wr_Room w) < length p)%nat as Hlt by (destruct (wr_Room w); cbn in *; lia).
    rewrite length_take. split; [lia|]. left. rewrite (proj2 (Nat.ltb_lt _ _) Hlt). apply orb_true_r.
Qed.

Lemma fits_app c limit written room n m : (n ≠ 0)%nat → fits c limit written room (n + m) =
  fits c limit written room n && fits c limit (written + Z.of_nat n) ((λ x, x - n)%nat <$> room) m.
Proof.
  intros Hn. unfold fits. rewrite (proj2 (Nat.eqb_neq _ _) Hn), (proj2 (Nat.eqb_neq (n + m) 0)) by lia. cbn [orb].
  destruct (bodyAllowed c); cbn [andb]; [|done]. rewrite Nat2Z.inj_add, Z.add_assoc.
  destruct (Nat.eqb_spec m 0) as [-> |Hm]; cbn [orb].
  { by rewrite Nat.add_0_r, Z.add_0_r, andb_true_r. }
  destruct limit as [l|], room as [r|]; cbn [exceeds room_for fmap option_fmap option_map negb andb]; apply eq_true_iff_eq;
    rewrite ?andb_true_iff, ?negb_true_iff, ?Nat.eqb_eq; lia.
Qed.

Lemma copy_spec ps : ∀ w c, wr_Status w = Some c → wr_Head w = false →
  ∃ w', copy_pieces ps w = (w', fits c (wr_Limit w) (wr_Written w) (wr_Room w) (length (mjoin ps))) ∧ same_answer w w'
  ∧ if fits c (wr_Limit w) (wr_Written w) (wr_Room w) (length (mjoin ps))
    then wr_Body w' = wr_Body w ++ mjoin ps ∧ wr_Written w' = wr_Written w + Z.of_nat (length (mjoin ps)) ∧ wr_Closed w' = wr_Closed w
    else ∃ x, wr_Body w' = wr_Body w ++ x ∧ x `prefix_of` mjoin ps ∧ (length x < length (mjoin ps))%nat
         ∧ (wr_Closed w' = true ∨ exceeds (wr_Written w') (wr_Limit w') = true ∨ (bodyAllowed c = false ∧ x = [])).
Proof.
  induction ps as [|p ps IH]; intros w c Hs Hh.
  { exists w. split; [done|]. split; [done|]. cbn. by rewrite app_nil_r, Z.add_0_r. }
  change (mjoin (p :: ps)) with (p ++ mjoin ps). destruct p as [|a p']; [by apply IH|]. set (p := a :: p') in *.
  change (copy_pieces (p :: ps) w) with (match Write p w with (w, true) => copy_pieces ps w | (w, false) => (w, false) end).
  assert (length p ≠ 0)%nat as Hl by done. rewrite length_app, (fits_app _ _ _ _ _ _ Hl).
  destruct (Write_spec p w c ltac:(done) Hs Hh) as (w1 & -> & (S1 & S2 & S3 & S4 & S5) & HW).
  destruct (fits c (wr_Limit w) (wr_Written w) (wr_Room w) (length p)) eqn:Ef; cbn [andb].
  - destruct HW as (B1 & B2 & B3 & B4). destruct (IH w1 c) as (w2 & -> & (T1 & T2 & T3 & T4 & T5) & HI); [congruence|congruence|].
    rewrite S3, B2, B4 in *. exists w2. split; [done|]. split; [unfold same_answer; split_and!; congruence|].
    destruct (fits _ _ _ _ (length (mjoin ps))).
    + destruct HI as (-> & -> & ->). rewrite B1, <-app_assoc. split_and!; [done|lia|done].
    + destruct HI as (x & -> & Hx & Hlt & Hr). exists (p ++ x). rewrite B1, <-app_assoc, length_app. split_and!; [done|by apply prefix_app|lia|].
      destruct Hr as [?|[?|[Hb _]]]; [auto|auto|]. exfalso. revert Ef. unfold fits. rewrite Hb. by rewrite (proj2 (Nat.eqb_neq _ _) Hl).
  - exists w1. split; [done|]. split; [done|]. destruct HW as (x & ? & ? & ? & ?). exists x. split_and!; [done|by apply prefix_app_r|lia|done].
Qed.

(** The status that reaches the client at the end. *)
Definition final_code (code : Z) : Z := if informational code then 200 else code.

(** An informational status only delays the status of the answer. *)
Lemma copy_finish ps w : finishRequest (copy_pieces ps w).1 = finishRequest (copy_pieces ps (WriteHeader 200 w)).1
  ∧ finishRequest (wrapUpstreamError (copy_pieces ps w).1) = finishRequest (wrapUpstreamError (copy_pieces ps (WriteHeader 200 w)).1)
  ∧ (copy_pieces ps w).2 = (copy_pieces ps (WriteHeader 200 w)).2.
Proof.
  destruct (wr_Status w) eqn:Es.
  { assert (WriteHeader 200 w = w) as -> by (unfold WriteHeader; by rewrite Es). done. }
  induction ps as [|[|a p] ps IH].
  - cbn [copy_pieces fst snd]. destruct w; cbn in *; subst. done.
  - exact IH.
  - assert (∀ w, Write (a :: p) w = Write (a :: p) (WriteHeader 200 w)) as HW.
    { intros w0. unfold Write. assert (WriteHeader 200 (WriteHeader 200 w0) = WriteHeader 200 w0) as ->; [|done].
      unfold WriteHeader at 1. unfold WriteHeader. by destruct (wr_Status w0) eqn:Es0; cbn; rewrite ?Es0. }
    cbn [copy_pieces]. rewrite (HW w). done.
Qed.

(** What the client has when the handler has returned. *)
Definition client (s : served) : writer := finishRequest (sv_writer s).
Definition got (s : served) (code : Z) (h : header) (body : str) : Prop :=
  wr_Status (client s) = Some code ∧ wr_Sent (client s) = sent_header h ∧ wr_Body (client s) = body.

(** The one piece of an error. *)
Definition text_body (head : bool) (room : option nat) (code : Z) (h : header) (text : str) : str :=
  if head || negb (bodyAllowed code) || exceeds (Z.of_nat (length text)) (announced_length h) then []
  else take (room_for (length text) room) text.

Lemma text_answer head room hijack code h text codes : let w := on_header (λ _, h) (fresh_for head room hijack) in
  got (mkServed (fst (Write text (WriteHeader code w))) codes 0) (final_code code) h (text_body head room (final_code code) h text).
Proof.
  intros w. assert (∃ info, WriteHeader 200 (WriteHeader code w) = mkWriter h (Some (final_code code)) (sent_header h) [] room hijack false head (announced_length h) 0 info) as [info Hw].
  { unfold w, WriteHeader, final_code. cbn. destruct (informational code); cbn; by eexists. }
  unfold got, client, Write. cbn [sv_writer]. rewrite Hw. destruct text as [|a text'] eqn:Et.
  { unfold text_body. cbn [fst finishRequest WriteHeader wr_Status wr_Sent wr_Body length]. rewrite take_nil. split_and!; try done. by case_if. }
  rewrite <-Et. unfold text_body. cbn [wr_Status default from_option id]. destruct (bodyAllowed (final_code code)); cbn [negb orb fst]; [|by rewrite orb_true_r].
  rewrite orb_false_r. cbn [count_written wr_Written wr_Limit wr_Head]. rewrite Z.add_0_l. destruct (exceeds _ _); [by rewrite orb_true_r|].
  by destruct head.
Qed.

(** *** Trailers *)

Lemma CopyTrailer_lookup (h t : header) k : CopyTrailer h t !! (trailer_prefix ++ k) = match t !! k with Some vs => Some vs | None => h !! (trailer_prefix ++ k) end.
Proof.
  unfold CopyTrailer. rewrite <-(list_to_map_to_list t) at 2. generalize (NoDup_fst_map_to_list t). generalize (map_to_list t). intros l.
  revert h. induction l as [|[k' vs'] l IH]; intros h Hn; [done|]. cbn [fold_left fst snd]. apply NoDup_cons in Hn as [Hk Hn].
  rewrite IH by done. cbn [list_to_map foldr fst snd]. destruct (decide (k = k')) as [-> |Hne].
  - rewrite !lookup_insert_eq. by rewrite not_elem_of_list_to_map_1.
  - rewrite (lookup_insert_ne _ k') by done. rewrite (lookup_insert_ne h) by (by intros ?%app_inv_head). done.
Qed.

(** *** A response *)

Section response.
Variables (reads : str → list str) (req : Request) (r : Reply E) (room : option nat) (hijack : bool).
Hypothesis Hreads : ∀ s, mjoin (reads s) = s.
Local Abbreviation head := (bool_decide (rq_Method req = bs "HEAD")).
Local Abbreviation h := (CopyTrailer (rp_Header r) (rp_Trailer r)).
Local Abbreviation code := (final_code (rp_StatusCode r)).
Local Abbreviation w1 := (WriteHeader (rp_StatusCode r) (on_header (λ _, h) (fresh_for head room hijack))).

Lemma response_trailers k vs : rp_Trailer r !! k = Some vs → sent_header h !! (trailer_prefix ++ k) = Some vs.
Proof.
  intros Hk. assert (h !! (trailer_prefix ++ k) = Some vs) as Hh by (by rewrite CopyTrailer_lookup, Hk).
  unfold sent_header. case_bool_decide; [done|]. destruct (announced_length h); [done|]. unfold header_del. by rewrite lookup_delete_ne.
Qed.

Lemma response_started : ∃ info, WriteHeader 200 w1 = mkWriter h (Some code) (sent_header h) [] room hijack false head (announced_length h) 0 info.
Proof. unfold WriteHeader, final_code. cbn. destruct (informational (rp_StatusCode r)); cbn; by eexists. Qed.

Lemma response_empty codes n : got (mkServed w1 codes n) code h [].
Proof. destruct response_started as [info Hw]. unfold got, client, finishRequest. cbn [sv_writer]. by rewrite Hw. Qed.

(** How the copy of a body ends. *)
Lemma response_copied (b : stream E) w2 ok : head = false → copy_pieces (reads (st_bytes b)) w1 = (w2, ok) →
  ok = fits code (announced_length h) 0 room (length (st_bytes b))
  ∧ (∀ w3, w3 = w2 ∨ w3 = wrapUpstreamError w2 → ∃ body, wr_Status (finishRequest w3) = Some code ∧ wr_Sent (finishRequest w3) = sent_header h
     ∧ wr_Body (finishRequest w3) = body ∧ (if ok then body = st_bytes b else body `prefix_of` st_bytes b ∧ (length body < length (st_bytes b))%nat)
     ∧ (∀ n, announced_length h = Some n → bodyAllowed code = true → Z.of_nat (length body) ≠ n → wr_Closed (finishRequest w3) = true))
  ∧ (hijack = true → wr_Closed (finishRequest (wrapUpstreamError w2)) = true).
Proof.
  intros Hh Hcp. destruct response_started as [info Hw].
  destruct (copy_finish (reads (st_bytes b)) w1) as (F1 & F2 & F3). rewrite Hcp, Hw in F1, F2, F3. cbn [fst snd] in F1, F2, F3.
  set (w0 := mkWriter _ _ _ _ _ _ _ _ _ _ _) in *.
  destruct (copy_spec (reads (st_bytes b)) w0 code) as (v & Hv & (S1 & S2 & S3 & S4 & S5) & Hb); [done|done|].
  rewrite Hv in F1, F2, F3. cbn [fst snd] in F1, F2, F3. rewrite Hreads in F3, Hb. cbn [w0 wr_Limit wr_Written wr_Room wr_Body wr_Closed] in F3, Hb.
  subst ok. split; [done|]. assert (finishRequest v = mkWriter (wr_Header v) (Some code) (sent_header h) (wr_Body v) (wr_Room v) (wr_Hijacker v)
    (wr_Closed v || short v) (wr_Head v) (wr_Limit v) (wr_Written v) (wr_Info v)) as Ev.
  { unfold finishRequest, WriteHeader. rewrite S1. cbn [w0 wr_Status]. by rewrite S1, S2. }
  assert (finishRequest (wrapUpstreamError v) = mkWriter (wr_Header v) (Some code) (sent_header h) (wr_Body v) (wr_Room v) (wr_Hijacker v)
    (wr_Hijacker v || wr_Closed v || short v) (wr_Head v) (wr_Limit v) (wr_Written v) (wr_Info v)) as Ev'.
  { unfold finishRequest, WriteHeader. cbn [wrapUpstreamError wr_Status]. rewrite S1. cbn [w0 wr_Status wrapUpstreamError wr_Sent]. rewrite S2.
    unfold short. cbn [wrapUpstreamError wr_Header wr_Status wr_Sent wr_Body wr_Room wr_Hijacker wr_Closed wr_Head wr_Limit wr_Written wr_Info]. by rewrite S1. }
  split.
  - intros w3 Hw3. assert (∃ closed, (∀ P : Prop, wr_Closed v = true ∨ short v = true → closed = true) ∧ finishRequest w3 = mkWriter (wr_Header v) (Some code) (sent_header h) (wr_Body v) (wr_Room v) (wr_Hijacker v)
      closed (wr_Head v) (wr_Limit v) (wr_Written v) (wr_Info v)) as (closed & Hcl & ->).
    { destruct Hw3 as [-> | ->]; [rewrite F1, Ev|rewrite F2, Ev']; (eexists; split; [|done]); intros _ [-> | ->]; by rewrite ?orb_true_r. }
    exists (wr_Body v). cbn [wr_Status wr_Sent wr_Body wr_Closed]. split; [done|]. split; [done|]. split; [done|].
    assert (short v = match announced_length h with Some l => bodyAllowed code && negb (wr_Written v =? l) | None => false end) as Hsh.
    { unfold short. rewrite S3, S4, S1. cbn [w0 wr_Limit wr_Head wr_Status default from_option id]. by rewrite Hh. }
    destruct (fits _ _ _ _ _).
    + destruct Hb as (Hb1 & Hb2 & Hb3). split; [done|]. intros n Hn Ha Hne. apply (Hcl True). right. rewrite Hsh, Hn, Ha, Hb2. cbn [andb].
      rewrite Hb1 in Hne. apply negb_true_iff, Z.eqb_neq. cbn in *. lia.
    + destruct Hb as (x & Hx & Hp & Hlt & Hr). cbn in Hx. rewrite Hx. split; [done|]. intros n Hn Ha Hne. apply (Hcl True).
      destruct Hr as [?|[Hex|[? _]]]; [by left|right|congruence]. rewrite Hsh, Hn, Ha. cbn [andb].
      rewrite S3 in Hex. cbn [w0 wr_Limit] in Hex. rewrite Hn in Hex. cbn [exceeds] in Hex. apply negb_true_iff, Z.eqb_neq. lia.
  - intros Hj. rewrite F2, Ev'. cbn [wr_Closed]. by rewrite S5; cbn [w0 wr_Hijacker]; rewrite Hj.
Qed.

Lemma response_body (w' : W) : match rp_Body r with
  | None => ∃ s, (doCopyBody reads req r w1, w') = (Done s, w') ∧ got s code h [] ∧ sv_codes s = [rp_StatusCode r] ∧ sv_unexpected s = 0%nat
  | Some b =>
      if head then ∃ s, (doCopyBody reads req r w1, w') = (Done s, w') ∧ got s code h [] ∧ sv_codes s = [] ∧ sv_unexpected s = 0%nat
      else
        let whole := fits code (announced_length h) 0 room (length (st_bytes b)) in
        match st_end b with
        | Eof => whole = true → ∃ s, (doCopyBody reads req r w1, w') = (Done s, w') ∧ got s code h (st_bytes b) ∧ sv_codes s = [rp_StatusCode r] ∧ sv_unexpected s = 0%nat
        | Crashed => whole = true → (doCopyBody reads req r w1, w') = (Panic, w')
        | Broken _ => True
        end
        ∧ (whole = false ∨ (∃ e, st_end b = Broken e) → ∃ s body, (doCopyBody reads req r w1, w') = (Done s, w') ∧ got s code h body
            ∧ sv_codes s = [rp_StatusCode r] ∧ sv_unexpected s = 1%nat
            ∧ (if whole then body = st_bytes b else body `prefix_of` st_bytes b ∧ (length body < length (st_bytes b))%nat)
            ∧ (hijack = true → bs "chunked" ∈ rp_TransferEncoding r ∨ header_get (bs "Content-Length") (rp_Header r) = [] → wr_Closed (client s) = true)
            ∧ (∀ n, announced_length h = Some n → bodyAllowed code = true → Z.of_nat (length body) ≠ n → wr_Closed (client s) = true))
  end.
Proof.
  unfold doCopyBody. destruct (rp_Body r) as [b|]; [|eexists; split; [done|]; split; [apply response_empty|done]].
  pose proof (response_empty []) as He. pose proof (response_copied b) as Hcopied. destruct head eqn:Hh; [eexists; split; [done|]; split; [apply He|done]|].
  destruct (copy_pieces (reads (st_bytes b)) _) as [w2 ok] eqn:Hcp.
  destruct (Hcopied w2 ok eq_refl eq_refl) as (-> & Hall & Hclose). cbv zeta. set (whole := fits _ _ _ _ _) in *. split.
  - destruct (st_end b); [|done|by intros ->]. intros Hwh. rewrite Hwh in *. destruct (Hall w2 (or_introl eq_refl)) as (body & G1 & G2 & G3 & -> & _).
    eexists. split; [done|]. by split.
  - intros Hcut. set (cond := bool_decide _ || bool_decide _). set (w3 := if cond then wrapUpstreamError w2 else w2).
    destruct (Hall w3) as (body & G1 & G2 & G3 & G4 & G5); [unfold w3; destruct cond; auto|].
    exists (mkServed w3 [rp_StatusCode r] 1), body. split; [destruct Hcut as [-> |[e ->]]; [done|by destruct whole]|].
    split; [done|]. split; [done|]. split; [done|]. split; [done|]. split; [|done].
    intros Hj Hc. assert (cond = true) as Ec by (unfold cond; apply orb_true_iff; rewrite !bool_decide_eq_true; tauto).
    unfold client, w3. cbn [sv_writer]. rewrite Ec. by apply Hclose.
Qed.
End response.


(** recovery does not save the request: a panic below it still ends in a
    panic of the handler, which reads the headers of the response that is not
    there. *)
Theorem recovery_still_panics reads (origin : RoundTripper W E) req wr w w' : origin req w = (Panic, w') →
  buildHandler reads (recovery_Middleware origin) req wr w = (Panic, w').
Proof. intros H. unfold buildHandler, recovery_Middleware. by rewrite H. Qed.

(** ** Construction of the chain *)

Section chain.
Context {C : Type} (cfg_Name : C → str).
Implicit Types create : C → option (Middleware W E * option nat).

Lemma build_loop_spec create rcfgs : Forall (λ c, cfg_Name c ≠ []) rcfgs → ∀ tripper cleanups,
  build_loop cfg_Name create rcfgs tripper cleanups =
    Some (fold_left (λ next m, m next) (omap create rcfgs).*1 tripper, cleanups ++ (omap create rcfgs).*2).
Proof.
  induction 1 as [|c rcfgs Hc _ IH]; intros tripper cleanups; cbn [build_loop]; [by rewrite app_nil_r|].
  rewrite bool_decide_eq_false_2 by done. cbn [omap list_omap]. destruct (create c) as [[m cl]|]; [|apply IH].
  rewrite IH. by rewrite <-app_assoc.
Qed.

Lemma build_loop_empty create rcfgs : Exists (λ c, cfg_Name c = []) rcfgs → ∀ tripper cleanups,
  build_loop cfg_Name create rcfgs tripper cleanups = None.
Proof.
  induction 1 as [c rcfgs Hc|c rcfgs _ IH]; intros tripper cleanups; cbn [build_loop]; [by rewrite bool_decide_eq_true_2|].
  case_bool_decide; [done|]. destruct (create c) as [[m cl]|]; apply IH.
Qed.

Lemma built_chain create cfgs : Forall (λ c, cfg_Name c ≠ []) cfgs →
  buildMiddlewareChain cfg_Name create cfgs =
    Some (Chain (omap create cfgs).*1 nil_tripper, rev (omap create cfgs).*2).
Proof.
  intros Hf. unfold buildMiddlewareChain. rewrite build_loop_spec by (by apply Forall_rev).
  assert (omap create (rev cfgs) = rev (omap create cfgs)) as ->.
  { clear Hf. induction cfgs as [|c cfgs IH]; [done|]. simpl. rewrite omap_app, IH. simpl. destruct (create c); simpl; [done|by rewrite app_nil_r]. }
  unfold Chain. rewrite <-!map_rev. done.
Qed.

Lemma run_cleanups_panics l : snd (run_cleanups l) = false ↔ None ∈ l.
Proof.
  induction l as [|[n|] l IH]; cbn [run_cleanups]; [by rewrite elem_of_nil| |].
  - destruct (run_cleanups l) as [ran closed]. cbn [snd] in *. rewrite IH, elem_of_cons. split; [by right|by intros [?|?]].
  - rewrite elem_of_cons. split; [by left|done].
Qed.

Lemma stop_panics {Err} (sd cl : option Err) l : Stop sd cl l = None ↔ None ∈ l.
Proof. rewrite <-run_cleanups_panics. unfold Stop. by destruct (run_cleanups l) as [ran []]. Qed.

(** the chain is the one that is configured, less what cannot be built.  The
    first middleware is the outermost; one whose name is unknown or that fails
    although it is required is left out and the server starts without it; an
    optional one that fails is replaced by the identity, but with no cleanup, so
    that the end of the server panics before the storage is closed, exactly if
    there is such a one or a middleware without a cleanup. *)
Theorem chain_as_configured (cfg_Required : C → bool) (reg : gmap (list ascii) (Factory (W := W) (E := E) C)) cfgs :
  Forall (λ c, cfg_Name c ≠ []) cfgs →
  ∃ tripper cleanups, buildMiddlewareChain cfg_Name (Create cfg_Name cfg_Required reg) cfgs = Some (tripper, cleanups)
  ∧ tripper = Chain (omap (Create cfg_Name cfg_Required reg) cfgs).*1 nil_tripper
  ∧ (∀ cfg, cfg ∈ cfgs → (reg !! to_lower (createFullName (cfg_Name cfg)) = None ∨
       (cfg_Required cfg = true ∧ ∃ f : Factory C, reg !! to_lower (createFullName (cfg_Name cfg)) = Some f ∧ f cfg = None)) →
       Create cfg_Name cfg_Required reg cfg = None)
  ∧ (∀ shutdown close : option E, Stop shutdown close cleanups = None ↔ ∃ cfg (f : Factory C), cfg ∈ cfgs ∧ reg !! to_lower (createFullName (cfg_Name cfg)) = Some f
       ∧ ((cfg_Required cfg = false ∧ f cfg = None) ∨ ∃ m, f cfg = Some (m, None))).
Proof.
  intros Hf. set (cr := Create cfg_Name cfg_Required reg). rewrite (built_chain cr cfgs Hf). eexists _, _. split; [reflexivity|]. split; [done|]. split.
  - intros cfg _ Hno. unfold cr, Create, getMiddleware. destruct Hno as [-> |(Hr & f & -> & Hfail)]; [done|]. by rewrite Hr, Hfail.
  - intros sd cs. rewrite stop_panics. split.
    + intros Hx. apply list_elem_of_In in Hx. apply (proj2 (in_rev _ _)) in Hx. apply list_elem_of_In, list_elem_of_fmap in Hx as ([m cl] & Hcl & Hx). cbn [snd] in Hcl. subst cl.
      apply list_elem_of_omap in Hx as (cfg & Hin & Hc). unfold cr, Create, getMiddleware in Hc.
      destruct (reg !! _) as [f|] eqn:Ef; [|done]. exists cfg, f. split; [done|]. split; [done|].
      destruct (cfg_Required cfg) eqn:Er; [right; by exists m|]. destruct (f cfg) as [[m' cl]|] eqn:Efc; [right; exists m; by simplify_eq|by left].
    + intros (cfg & f & Hin & Hr & Hc). apply list_elem_of_In, in_rev. rewrite rev_involutive. apply list_elem_of_In, list_elem_of_fmap.
      assert (∃ m, cr cfg = Some (m, None)) as [m Hm].
      { unfold cr, Create, getMiddleware. rewrite Hr. destruct Hc as [[-> ->]|[m ->]]; [by eexists|]. exists m. by destruct (cfg_Required cfg). }
      exists (m, None). split; [done|]. apply list_elem_of_omap. by exists cfg.
Qed.
End chain.
End theorems.

(** ** Concrete runs *)

Definition demo_reply (b : stream Empty_set) (len : list str) : Reply Empty_set :=
  mkReply 200 (match len with [] => ∅ | _ => {[bs "Content-Length" := len]} end) 0 [] ∅ (Some b).

Definition fixed_tripper (o : outcome Empty_set (option (Reply Empty_set))) : RoundTripper unit Empty_set := λ _ w, (o, w).

Definition get_req : Request := ranges_req (bs "bytes=0-1").

(** Reads of two bytes. *)
Fixpoint pairs (fuel : nat) (s : str) : list str :=
  match fuel, s with S fuel', _ :: _ => take 2 s :: pairs fuel' (drop 2 s) | _, _ => [] end.
Definition by_two (s : str) : list str := pairs (length s) s.

Lemma by_two_join s : mjoin (by_two s) = s.
Proof.
  unfold by_two. assert (∀ n s, (length s <= n)%nat → mjoin (pairs n s) = s) as H; [|by apply H].
  clear s. induction n as [|n IH]; intros s Hs; [by destruct s; [|cbn in Hs; lia]|]. destruct s as [|a s]; [done|].
  change (mjoin (pairs (S n) (a :: s))) with (take 2 (a :: s) ++ mjoin (pairs n (drop 2 (a :: s)))). rewrite IH; [apply take_drop|]. rewrite length_drop. cbn in *. lia.
Qed.


Lemma recovery_still_panics_witness : buildHandler by_two (recovery_Middleware (fixed_tripper Panic)) get_req (fresh None true) tt = (Panic, tt).
Proof. apply (recovery_still_panics by_two (fixed_tripper Panic) get_req (fresh None true) tt tt). reflexivity. Defined.

(** A registry with one middleware whose construction fails. *)
Definition failing_registry : gmap (list ascii) (Factory (W := unit) (E := Empty_set) str) :=
  Register ∅ (bs "rewrite") (λ _, None).

Lemma chain_as_configured_witness : ∃ tripper cleanups,
  buildMiddlewareChain (λ c, c) (Create (λ c, c) (λ _, false) failing_registry) [bs "rewrite"] = Some (tripper, cleanups)
  ∧ Stop (Err := Empty_set) None None cleanups = None.
Proof.
  destruct (chain_as_configured (λ c, c) (λ _, false) failing_registry [bs "rewrite"]) as (tr & cl & Hb & _ & _ & Hc).
  - constructor; [vm_compute; discriminate|constructor].
  - exists tr, cl. split; [exact Hb|]. apply Hc. exists (bs "rewrite"), (λ _, None). split; [apply list_elem_of_here|].
    split; [vm_compute; reflexivity|]. left. split; reflexivity.
Defined.
