(* ===== verification/LocalApi.v ===== *)
(** * The internal interface: server/mod/pprof.go and newServeMux of server.go

    Requests for a local host name are answered by a mux: the profiles behind a
    user name and a password ([basicAuth]), the version, the metrics, the probes
    and the pages of the plugins.  From the standard library this needs SHA-256,
    the decoding of the Authorization header (base64 and the colon) and the part
    of [http.ServeMux] the patterns of the program use: a path, or a path with
    everything under it.  The round constants of SHA-256 are computed from the roots of the
    primes that define them.  The profile pages, the metrics and the plugins' handlers
    are parameters.

    Proved: credentials come back from the header a client sends; a profile is
    served only to a request whose credentials hash to the configured ones,
    everything else under the prefix is answered with 401, whatever the plugins
    add; and what the probes answer. *)

From S2P Require Import Prelude GoStrings Headers Object CachingState Middlewares Server.
Local Open Scope Z_scope.

(** ** SHA-256 *)

Definition sha_primes : list Z :=
  List.filter (λ p, forallb (λ d, negb (p mod d =? 0)) (seqZ 2 (Z.min (p - 2) 16))) (seqZ 2 310).

(** The integer cube root, bit by bit. *)
Definition icbrt (n : Z) : Z :=
  fold_left (λ r k, let t := Z.lor r (2 ^ k) in if t * t * t <=? n then t else r) (rev (seqZ 0 36)) 0.

(** 32 bits of the fractional parts of the cube and of the square roots *)
Definition sha_K : list Z := Eval vm_compute in map (λ p, u32 (icbrt (p * 2 ^ 96))) sha_primes.
Definition sha_H0 : list Z := Eval vm_compute in map (λ p, u32 (Z.sqrt (p * 2 ^ 64))) (take 8 sha_primes).

Definition rotr (n x : Z) : Z := Z.lor (Z.shiftr x n) (u32 (Z.shiftl x (32 - n))).
Definition not32 (x : Z) : Z := 4294967295 - x.

Definition be_word (b : list ascii) : Z := fold_left (λ n c, n * 256 + byte_val c) b 0.
Definition be_bytes (k : nat) (n : Z) : str := rev (le_bytes k n).

Fixpoint chunks_of {A} (k fuel : nat) (l : list A) : list (list A) :=
  match fuel, l with
  | O, _ => []
  | _, [] => []
  | S f, _ => take k l :: chunks_of k f (drop k l)
  end.

Definition sha_pad (m : str) : str :=
  let n := Z.of_nat (length m) in
  m ++ byte_of 128 :: repeat (byte_of 0) (Z.to_nat ((55 - n) mod 64)) ++ be_bytes 8 (u64 (n * 8)).

(** The schedule, latest word first. *)
Fixpoint schedule (k : nat) (w : list Z) : list Z :=
  match k with
  | O => w
  | S k =>
      let x15 := nth 14 w 0 in let x2 := nth 1 w 0 in
      let s0 := Z.lxor (Z.lxor (rotr 7 x15) (rotr 18 x15)) (Z.shiftr x15 3) in
      let s1 := Z.lxor (Z.lxor (rotr 17 x2) (rotr 19 x2)) (Z.shiftr x2 10) in
      schedule k (u32 (nth 15 w 0 + s0 + nth 6 w 0 + s1) :: w)
  end.

Definition sha_round (s : list Z) (kw : Z * Z) : list Z :=
  match s with
  | [a; b; c; d; e; f; g; h] =>
      let t1 := u32 (h + Z.lxor (Z.lxor (rotr 6 e) (rotr 11 e)) (rotr 25 e)
                     + Z.lxor (Z.land e f) (Z.land (not32 e) g) + fst kw + snd kw) in
      let t2 := u32 (Z.lxor (Z.lxor (rotr 2 a) (rotr 13 a)) (rotr 22 a)
                     + Z.lxor (Z.lxor (Z.land a b) (Z.land a c)) (Z.land b c)) in
      [u32 (t1 + t2); a; b; c; u32 (d + t1); e; f; g]
  | _ => s
  end.

Definition sha_block (s : list Z) (block : str) : list Z :=
  let w := rev (schedule 48 (rev (map be_word (chunks_of 4 16 block)))) in
  zip_with (λ x y, u32 (x + y)) s (fold_left sha_round (zip sha_K w) s).

Definition Sum256 (m : str) : str :=
  let p := sha_pad m in
  concat (map (be_bytes 4) (fold_left sha_block (chunks_of 64 (length p) p) sha_H0)).

(** ** base64 *)

Definition b64_alphabet : str := bs "ABCDEFGHIJKLMNOPQRSTUVWXYZabcdefghijklmnopqrstuvwxyz0123456789+/".
Definition b64_char (d : Z) : ascii := nth (Z.to_nat d) b64_alphabet "A"%char.
Definition b64_val (c : ascii) : option Z := Z.of_nat <$> index_byte c b64_alphabet.

Fixpoint b64_encode (s : str) : str :=
  match s with
  | a :: b :: c :: rest =>
      let n := byte_val a * 65536 + byte_val b * 256 + byte_val c in
      b64_char (n / 262144) :: b64_char (n / 4096 mod 64) :: b64_char (n / 64 mod 64) :: b64_char (n mod 64) :: b64_encode rest
  | [a; b] =>
      let n := byte_val a * 1024 + byte_val b * 4 in
      [b64_char (n / 4096); b64_char (n / 64 mod 64); b64_char (n mod 64); "="%char]
  | [a] => let n := byte_val a * 16 in [b64_char (n / 64); b64_char (n mod 64); "="%char; "="%char]
  | [] => []
  end.

(** The quanta of [StdEncoding]: padding only at the end, bits left over are not
    looked at. *)
Fixpoint b64_quanta (s : str) : option str :=
  match s with
  | [] => Some []
  | a :: b :: c :: d :: rest =>
      x ← b64_val a; y ← b64_val b;
      if bool_decide (c = "="%char) then
        if bool_decide (d = "="%char) && bool_decide (rest = []) then Some [byte_of ((x * 64 + y) / 16)] else None
      else z ← b64_val c;
        if bool_decide (d = "="%char) then
          if bool_decide (rest = []) then
            let n := (x * 64 + y) * 64 + z in Some [byte_of (n / 1024); byte_of (n / 4 mod 256)]
          else None
        else t ← b64_val d; r ← b64_quanta rest;
          let n := ((x * 64 + y) * 64 + z) * 64 + t in
          Some (byte_of (n / 65536) :: byte_of (n / 256 mod 256) :: byte_of (n mod 256) :: r)
  | _ => None
  end.

(** Line ends are skipped. *)
Definition b64_decode (s : str) : option str :=
  b64_quanta (List.filter (λ c, negb (bool_decide (c = "010"%char) || bool_decide (c = "013"%char))) s).

(** [Request.BasicAuth] *)
Definition BasicAuth (h : header) : option (str * str) :=
  let auth := header_get (bs "Authorization") h in
  if bool_decide (auth = []) then None
  else if equal_fold (take 6 auth) (bs "Basic ") then
    c ← b64_decode (drop 6 auth);
    i ← index_byte ":"%char c;
    Some (take i c, drop (S i) c)
  else None.

(** ** The guard *)

Section guard.
Context {W E : Type}.
Local Abbreviation H := (Handler W E).

(** [http.Error] *)
Definition http_Error (text : str) (code : Z) (wr : writer) : writer :=
  let wr := on_header (λ h, header_set (bs "X-Content-Type-Options") (bs "nosniff")
                 (header_set (bs "Content-Type") (bs "text/plain; charset=utf-8") (header_del (bs "Content-Length") h))) wr in
  fst (Write (text ++ ["010"%char]) (WriteHeader code wr)).

Definition page (f : writer → writer) : H := λ _ wr w, (Done (mkServed (f wr) [] 0), w).

Definition unauthorized (wr : writer) : writer :=
  http_Error (bs "Unauthorized") 401
    (on_header (header_set (bs "WWW-Authenticate")
       (bs "Basic realm=" ++ ["034"%char] ++ bs "restricted" ++ ["034"%char] ++ bs ", charset=" ++ ["034"%char] ++ bs "UTF-8" ++ ["034"%char])) wr).

(** [ConstantTimeCompare] of two sums of the same length. *)
Definition same_sum (x y : str) : bool := bool_decide (x = y).

Definition basicAuth (uname passw : str) (next : H) : H := λ req wr w,
  match BasicAuth (rq_Header req) with
  | Some (username, password) =>
      if same_sum (Sum256 username) uname && same_sum (Sum256 password) passw then next req wr w
      else page unauthorized req wr w
  | None => page unauthorized req wr w
  end.

(** ** The mux *)

(** A pattern that is registered twice panics ([None]). *)
Definition mux := list (str * H).
Definition Handle (m : option mux) (pattern : str) (h : H) : option mux :=
  m ← m; if existsb (λ e, bool_decide (fst e = pattern)) m then None else Some (m ++ [(pattern, h)]).

Variables Index Cmdline Profile Symbol Trace metrics : H.
Variable BuildInfo : str.   (* the build information as JSON *)

Definition HandlePProf (user pass : str) (r : option mux) : option mux :=
  let guard := basicAuth (Sum256 user) (Sum256 pass) in
  let r := Handle r (bs "/debug/pprof/") (guard Index) in
  let r := Handle r (bs "/debug/pprof/cmdline") (guard Cmdline) in
  let r := Handle r (bs "/debug/pprof/profile") (guard Profile) in
  let r := Handle r (bs "/debug/pprof/symbol") (guard Symbol) in
  Handle r (bs "/debug/pprof/trace") (guard Trace).

Definition version_page (wr : writer) : writer :=
  let wr := on_header (λ h, header_set (bs "Content-Type") (bs "application/json; charset=utf-8")
                              (header_set (bs "Content-Length") (format_int (Z.of_nat (length BuildInfo))) h)) wr in
  fst (Write BuildInfo (WriteHeader 200 wr)).

Definition startup_page (wr : writer) : writer :=
  let payload := bs "ok" in
  fst (Write payload (WriteHeader 200 (on_header (header_set (bs "Content-Length") (format_int (Z.of_nat (length payload)))) wr))).

Definition NotFound (wr : writer) : writer := http_Error (bs "404 page not found") 404 wr.

(** [AddRouter] of a plugin; the plugins come last, in their order. *)
Definition add_routes (routes : mux) (m : option mux) : option mux := fold_left (λ m r, Handle m (fst r) (snd r)) routes m.

Definition newServeMux (user pass : str) (plugins : list mux) : option mux :=
  let m := HandlePProf user pass (Some []) in
  let m := Handle m (bs "/favicon.ico") (page NotFound) in
  let m := Handle m (bs "/version") (page version_page) in
  let m := Handle m (bs "/metrics") metrics in
  let m := Handle m (bs "/healthz/startup-probe") (page startup_page) in
  let m := Handle m (bs "/healthz/liveness-probe") (page (WriteHeader 200)) in
  let m := Handle m (bs "/healthz/readiness-probe") (page (WriteHeader 200)) in
  fold_left (λ m routes, add_routes routes m) plugins m.

(** The pattern that is the path, and the longest one that ends in a slash and
    is a prefix of it. *)
Definition exact (m : mux) (path : str) : option (str * H) := List.find (λ e, bool_decide (fst e = path)) m.
Definition subtree (path pattern : str) : bool := has_suffix (bs "/") pattern && has_prefix pattern path.
Definition longer (path : str) (best : option (str * H)) (e : str * H) : option (str * H) :=
  if subtree path (fst e) then
    match best with
    | Some x => if (length (fst x) <=? length (fst e))%nat then Some e else best
    | None => Some e
    end
  else best.
Definition under (m : mux) (path : str) : option (str * H) := fold_left (longer path) m None.

(** [cleanPath]: a slash at the end is kept. *)
Definition cleanPath (p : str) : str :=
  match p with
  | [] => bs "/"
  | _ =>
      let p := if has_prefix (bs "/") p then p else "/"%char :: p in
      let np := clean p in
      if has_suffix (bs "/") p && negb (bool_decide (np = bs "/")) then np ++ bs "/" else np
  end.

(** Of a redirect the status and the location are kept. *)
Variable redirect_code : Z.
Definition redirect (path : str) (wr : writer) : writer :=
  WriteHeader redirect_code (on_header (header_set (bs "Location") path) wr).

(** The pattern of the path, a redirect to the subtree of which only the slash is
    missing, the longest subtree.  A path that is not clean is redirected. *)
Definition mux_ServeHTTP (m : mux) : H := λ req wr w,
  let path := cleanPath (rq_Path req) in
  let slash := path ++ bs "/" in
  let found (e : option (str * H)) : action W E served :=
    if bool_decide (path = rq_Path req)
    then match e with Some (_, h) => h req wr | None => page NotFound req wr end
    else page (redirect path) req wr in
  match exact m path with
  | Some e => found (Some e) w
  | None =>
      if negb (has_suffix (bs "/") path) && existsb (λ e, bool_decide (fst e = slash)) m then page (redirect slash) req wr w
      else found (under m path) w
  end.
End guard.

(** ** The header a client sends *)

Lemma b64_val_char d : 0 <= d < 64 → b64_val (b64_char d) = Some d ∧ b64_char d ≠ "="%char
  ∧ b64_char d ≠ "010"%char ∧ b64_char d ≠ "013"%char.
Proof.
  intros Hd.
  assert (forallb (λ d, bool_decide (b64_val (b64_char d) = Some d ∧ b64_char d ≠ "="%char
    ∧ b64_char d ≠ "010"%char ∧ b64_char d ≠ "013"%char)) (seqZ 0 64) = true) as Hall by (vm_compute; reflexivity).
  rewrite forallb_forall in Hall. specialize (Hall d). rewrite <-list_elem_of_In, elem_of_seqZ in Hall.
  apply (bool_decide_eq_true_1 _), Hall. lia.
Qed.

Lemma b64_keeps d rest : 0 <= d < 64 →
  List.filter (λ c, negb (bool_decide (c = "010"%char) || bool_decide (c = "013"%char))) (b64_char d :: rest)
  = b64_char d :: List.filter (λ c, negb (bool_decide (c = "010"%char) || bool_decide (c = "013"%char))) rest.
Proof.
  intros Hd. destruct (b64_val_char d Hd) as (_ & _ & H1 & H2). cbn [List.filter].
  by rewrite !bool_decide_eq_false_2.
Qed.

Ltac byte_facts :=
  repeat match goal with
  | c : ascii |- _ =>
      lazymatch goal with H : 0 <= byte_val c < 256 |- _ => fail | _ => pose proof (byte_val_range c) end
  end.

Ltac digit := byte_facts; Z.to_euclidean_division_equations; lia.

Lemma byte_of_eq z c : z = byte_val c → byte_of z = c.
Proof. intros ->. apply byte_val_inj, byte_val_of, byte_val_range. Qed.

Lemma b64_roundtrip s : b64_decode (b64_encode s) = Some s.
Proof.
  unfold b64_decode. induction s as [s IH] using (induction_ltof1 _ (@length ascii)). unfold ltof in IH.
  destruct s as [|a [|b [|c s]]]; cbn [b64_encode].
  - done.
  - rewrite !b64_keeps by digit. cbn [List.filter]. change (bool_decide _ || _) with false. cbn [negb b64_quanta].
    rewrite (proj1 (b64_val_char (byte_val a * 16 / 64) ltac:(digit))), (proj1 (b64_val_char (byte_val a * 16 mod 64) ltac:(digit))).
    cbn [mbind option_bind]. rewrite !bool_decide_eq_true_2 by done. cbn [andb]. do 2 f_equal. apply byte_of_eq. digit.
  - rewrite !b64_keeps by digit. cbn [List.filter]. change (bool_decide _ || _) with false. cbn [negb b64_quanta].
    set (n := byte_val a * 1024 + byte_val b * 4).
    destruct (b64_val_char (n mod 64) ltac:(subst n; digit)) as (Hz & Hz' & _).
    rewrite (proj1 (b64_val_char (n / 4096) ltac:(subst n; digit))), (proj1 (b64_val_char (n / 64 mod 64) ltac:(subst n; digit))), Hz.
    cbn [mbind option_bind]. rewrite (bool_decide_eq_false_2 _ Hz'), !bool_decide_eq_true_2 by done.
    do 2 f_equal; [|f_equal]; apply byte_of_eq; subst n; digit.
  - rewrite !b64_keeps by digit. cbn [b64_quanta]. rewrite (IH s ltac:(cbn [length]; lia)).
    set (n := byte_val a * 65536 + byte_val b * 256 + byte_val c).
    destruct (b64_val_char (n / 64 mod 64) ltac:(subst n; digit)) as (Hz & Hz' & _).
    destruct (b64_val_char (n mod 64) ltac:(subst n; digit)) as (Ht & Ht' & _).
    rewrite (proj1 (b64_val_char (n / 262144) ltac:(subst n; digit))), (proj1 (b64_val_char (n / 4096 mod 64) ltac:(subst n; digit))), Hz, Ht.
    cbn [mbind option_bind]. rewrite (bool_decide_eq_false_2 _ Hz'), (bool_decide_eq_false_2 _ Ht').
    do 2 f_equal; [|f_equal; [|f_equal]]; apply byte_of_eq; subst n; digit.
Qed.

(** The header of a client that knows the credentials. *)
Definition credentials (user pass : str) : str := bs "Basic " ++ b64_encode (user ++ ":"%char :: pass).

Lemma BasicAuth_credentials user pass h : ":"%char ∉ user →
  header_get (bs "Authorization") h = credentials user pass → BasicAuth h = Some (user, pass).
Proof.
  intros Hu Hh. unfold BasicAuth. rewrite Hh. unfold credentials.
  rewrite bool_decide_eq_false_2 by discriminate. rewrite (take_app_exact (bs "Basic ")), (drop_app_exact (bs "Basic ")) by done.
  change (equal_fold (bs "Basic ") (bs "Basic ")) with true. cbv iota. rewrite b64_roundtrip. cbn [mbind option_bind].
  rewrite (index_byte_app _ _ _ Hu). cbn [mbind option_bind]. by rewrite (take_app_exact user), drop_S_app.
Qed.

(** ** Routing *)

Section routing.
Context {W E : Type}.
Local Abbreviation H := (Handler W E).
Local Abbreviation mux := (mux (W := W) (E := E)).
Variables Index Cmdline Profile Symbol Trace metrics : H.
Variable BuildInfo : str.

Lemma Handle_new (m : mux) p (h : H) : p ∉ map fst m → Handle (Some m) p h = Some (m ++ [(p, h)]).
Proof.
  intros Hp. unfold Handle. cbn [mbind option_bind]. destruct (existsb _ m) eqn:Ex; [|done].
  exfalso. apply existsb_exists in Ex as (e & He & <-%bool_decide_eq_true). by apply Hp, list_elem_of_In, in_map.
Qed.

(** What is registered before the plugins, in order. *)
Definition own_routes (user pass : str) : mux :=
  let guard := basicAuth (Sum256 user) (Sum256 pass) in
  [(bs "/debug/pprof/", guard Index); (bs "/debug/pprof/cmdline", guard Cmdline); (bs "/debug/pprof/profile", guard Profile);
   (bs "/debug/pprof/symbol", guard Symbol); (bs "/debug/pprof/trace", guard Trace); (bs "/favicon.ico", page NotFound);
   (bs "/version", page (version_page BuildInfo)); (bs "/metrics", metrics); (bs "/healthz/startup-probe", page startup_page);
   (bs "/healthz/liveness-probe", page (WriteHeader 200)); (bs "/healthz/readiness-probe", page (WriteHeader 200))].

Ltac not_there := cbn [map fst app]; apply (bool_decide_eq_true_1 _); vm_compute; reflexivity.

Lemma add_routes_None (routes : mux) : add_routes routes None = None.
Proof. induction routes as [|r routes IH]; [done|]. exact IH. Qed.

Lemma add_routes_app (routes : mux) : ∀ m m', add_routes routes (Some m) = Some m' → m' = m ++ routes.
Proof.
  induction routes as [|[p h] routes IH]; intros m m'; [intros [= <-]; by rewrite app_nil_r|].
  change (add_routes routes (Handle (Some m) p h) = Some m' → m' = m ++ (p, h) :: routes).
  unfold Handle. cbn [mbind option_bind].
  destruct (existsb _ m); [by rewrite add_routes_None|]. intros ->%IH. by rewrite <-app_assoc.
Qed.

Lemma newServeMux_routes user pass plugins m :
  newServeMux Index Cmdline Profile Symbol Trace metrics BuildInfo user pass plugins = Some m →
  m = own_routes user pass ++ concat plugins.
Proof.
  unfold newServeMux, HandlePProf. rewrite !Handle_new by not_there. cbn [app].
  fold (own_routes user pass). generalize (own_routes user pass). revert m.
  induction plugins as [|routes plugins IH]; intros m m0; cbn [fold_left concat]; [intros [= <-]; by rewrite app_nil_r|].
  destruct (add_routes routes _) as [m1|] eqn:E1.
  - intros ->%IH. apply add_routes_app in E1 as ->. by rewrite <-app_assoc.
  - intros E2. exfalso. revert E2. clear. induction plugins as [|r plugins IH]; [done|]. cbn [fold_left].
    by rewrite add_routes_None.
Qed.

Lemma has_suffix_app (a b : str) : has_suffix b (a ++ b) = true.
Proof. unfold has_suffix. rewrite rev_app_distr. apply has_prefix_app. Qed.

Lemma prefix_cmp (p q l : str) : has_prefix p l = true → has_prefix q l = true → (length q <= length p)%nat → has_prefix q p = true.
Proof.
  intros [t ->]%has_prefix_spec [u Hu]%has_prefix_spec Hl. apply has_prefix_spec. exists (drop (length q) p).
  rewrite <-(take_drop (length q) p) at 1. f_equal.
  apply (f_equal (take (length q))) in Hu. by rewrite take_app_length, take_app_le in Hu.
Qed.

Definition pprof_prefix : str := bs "/debug/pprof/".

(** No page of a plugin is under the profiles. *)
Definition apart (routes : mux) : Prop := Forall (λ e, has_prefix pprof_prefix (fst e) = false) routes.

(** Among the registered pages, one under the profiles is guarded. *)
Definition guarded (user pass : str) (h : H) : Prop :=
  ∃ next, next ∈ [Index; Cmdline; Profile; Symbol; Trace] ∧ h = basicAuth (Sum256 user) (Sum256 pass) next.

Lemma own_guarded user pass p h : (p, h) ∈ own_routes user pass → has_prefix pprof_prefix p = true → guarded user pass h.
Proof.
  unfold own_routes. cbv zeta. intros Hin Hp. rewrite !elem_of_cons in Hin.
  destruct Hin as [E0|[E0|[E0|[E0|[E0|[E0|[E0|[E0|[E0|[E0|[E0|E0]]]]]]]]]]]; try (by apply elem_of_nil in E0); injection E0 as -> ->.
  all: try (exfalso; revert Hp; vm_compute; discriminate).
  all: eexists; (split; [|reflexivity]); rewrite !elem_of_cons; tauto.
Qed.

Lemma own_slash user pass p h : (p, h) ∈ own_routes user pass → has_suffix (bs "/") p = true → p = pprof_prefix.
Proof.
  unfold own_routes. cbv zeta. intros Hin Hp. rewrite !elem_of_cons in Hin.
  destruct Hin as [E0|[E0|[E0|[E0|[E0|[E0|[E0|[E0|[E0|[E0|[E0|E0]]]]]]]]]]]; try (by apply elem_of_nil in E0); injection E0 as -> ->.
  all: first [done|exfalso; revert Hp; vm_compute; discriminate].
Qed.

(** The longest subtree of a path under the profiles is theirs. *)
Lemma under_stays (m : mux) path e : has_prefix pprof_prefix path = true → fst e = pprof_prefix →
  Forall (λ x, subtree path (fst x) = true → (length (fst x) < length pprof_prefix)%nat) m →
  fold_left (longer path) m (Some e) = Some e.
Proof.
  intros Hp He Hm. induction Hm as [|x m Hx _ IH]; [done|]. cbn [fold_left]. unfold longer at 2.
  destruct (subtree path (fst x)); [|exact IH]. specialize (Hx eq_refl). rewrite He.
  rewrite (proj2 (Nat.leb_gt _ _)) by exact Hx. exact IH.
Qed.

Lemma others_shorter user pass (routes : mux) path : has_prefix pprof_prefix path = true → apart routes →
  Forall (λ x, subtree path (fst x) = true → (length (fst x) < length pprof_prefix)%nat)
    (drop 1 (own_routes user pass) ++ routes).
Proof.
  intros Hp Ha. apply Forall_app. split.
  - apply Forall_forall. intros [q h] Hq [Hs _]%andb_true_iff. cbn [fst] in *. exfalso. revert Hs.
    cbn [own_routes drop] in Hq. rewrite !elem_of_cons in Hq.
    destruct Hq as [E0|[E0|[E0|[E0|[E0|[E0|[E0|[E0|[E0|[E0|E0]]]]]]]]]]; try (by apply elem_of_nil in E0); injection E0 as -> ->.
    all: vm_compute; discriminate.
  - apply Forall_forall. intros [q h] Hq [_ Hs]%andb_true_iff. cbn [fst] in *.
    destruct (Nat.lt_ge_cases (length q) (length pprof_prefix)) as [|Hl]; [done|]. exfalso.
    pose proof (prefix_cmp q pprof_prefix path Hs Hp Hl) as Hc.
    unfold apart in Ha. rewrite Forall_forall in Ha. specialize (Ha _ Hq). cbn [fst] in Ha. congruence.
Qed.

Lemma profile_route user pass plugins m rc req wr w : apart (concat plugins) →
  newServeMux Index Cmdline Profile Symbol Trace metrics BuildInfo user pass plugins = Some m →
  has_prefix pprof_prefix (rq_Path req) = true → cleanPath (rq_Path req) = rq_Path req →
  ∃ h, guarded user pass h ∧ mux_ServeHTTP rc m req wr w = h req wr w.
Proof.
  intros Ha ->%newServeMux_routes Hp Hc. unfold mux_ServeHTTP. rewrite Hc.
  set (path := rq_Path req) in *. rewrite bool_decide_eq_true_2 by done.
  assert (∀ q h, (q, h) ∈ own_routes user pass ++ concat plugins → has_prefix pprof_prefix q = true → guarded user pass h) as Hg.
  { intros q h [Hq|Hq]%elem_of_app Hpq; [by apply (own_guarded user pass q)|].
    unfold apart in Ha. rewrite Forall_forall in Ha. specialize (Ha _ Hq). cbn [fst] in Ha. congruence. }
  destruct (exact _ path) as [[q h]|] eqn:Ee.
  { apply find_some in Ee as [Hin Hq%bool_decide_eq_true]. cbn [fst] in Hq. subst q. exists h. split; [|done]. apply (Hg path); [|done].
    by apply list_elem_of_In. }
  assert (negb (has_suffix (bs "/") path) && existsb (λ e, bool_decide (fst e = path ++ bs "/")) (own_routes user pass ++ concat plugins) = false) as ->.
  { apply andb_false_iff. right. apply not_true_iff_false. intros ([q h] & Hin & Hq%bool_decide_eq_true)%existsb_exists.
    cbn [fst] in Hq. subst q. apply list_elem_of_In in Hin. apply elem_of_app in Hin as [Hin|Hin].
    - apply own_slash in Hin as He; [|apply has_suffix_app]. apply has_prefix_spec in Hp as [t Ht]. rewrite Ht in He.
      apply (f_equal length) in He. rewrite !length_app in He. cbn in He. lia.
    - unfold apart in Ha. rewrite Forall_forall in Ha. specialize (Ha _ Hin). cbn [fst] in Ha.
      apply has_prefix_spec in Hp as [t Ht]. rewrite Ht, <-app_assoc, has_prefix_app in Ha. done. }
  exists (basicAuth (Sum256 user) (Sum256 pass) Index). split; [exists Index; split; [by left|done]|].
  unfold under. change (own_routes user pass) with ((pprof_prefix, basicAuth (Sum256 user) (Sum256 pass) Index) :: drop 1 (own_routes user pass)).
  rewrite <-app_comm_cons. cbn [fold_left]. unfold longer at 2. cbn [fst].
  assert (subtree path pprof_prefix = true) as -> by (unfold subtree; by rewrite Hp).
  by rewrite (under_stays _ path (pprof_prefix, basicAuth (Sum256 user) (Sum256 pass) Index) Hp eq_refl
    (others_shorter user pass (concat plugins) path Hp Ha)).
Qed.

(** C33: The profiles are behind the credentials.  As long as the plugins keep
    out of the prefix, a request for a path under it (as the client sends it,
    already clean) reaches one of the five profile pages exactly when it carries
    a user name and a password that hash to the configured ones, which the header
    built from them does if the name has no colon; every other request leaves the
    process as it is and is answered with 401 and the challenge. *)
Theorem profiles_guarded user pass plugins m rc req wr w : apart (concat plugins) →
  newServeMux Index Cmdline Profile Symbol Trace metrics BuildInfo user pass plugins = Some m →
  has_prefix pprof_prefix (rq_Path req) = true → cleanPath (rq_Path req) = rq_Path req →
  (∃ next u p, next ∈ [Index; Cmdline; Profile; Symbol; Trace] ∧ BasicAuth (rq_Header req) = Some (u, p)
     ∧ Sum256 u = Sum256 user ∧ Sum256 p = Sum256 pass ∧ mux_ServeHTTP rc m req wr w = next req wr w)
  ∨ (mux_ServeHTTP rc m req wr w = (Done (mkServed (unauthorized wr) [] 0), w)
     ∧ (":"%char ∉ user → header_get (bs "Authorization") (rq_Header req) ≠ credentials user pass)).
Proof.
  intros Ha Hm Hp Hc. destruct (profile_route user pass plugins m rc req wr w Ha Hm Hp Hc) as (h & (next & Hn & ->) & ->).
  unfold basicAuth. destruct (BasicAuth (rq_Header req)) as [[u p]|] eqn:Eb.
  - unfold same_sum. destruct (bool_decide (Sum256 u = Sum256 user)) eqn:Eu, (bool_decide (Sum256 p = Sum256 pass)) eqn:Ep; cbn [andb].
    1: { left. exists next, u, p. apply bool_decide_eq_true in Eu, Ep. by split_and!. }
    all: right; split; [done|]; intros Hu Hh; rewrite (BasicAuth_credentials user pass) in Eb by done; injection Eb as <- <-;
      rewrite bool_decide_eq_true_2 in Eu by done; rewrite bool_decide_eq_true_2 in Ep by done; done.
  - right. split; [done|]. intros Hu Hh. by rewrite (BasicAuth_credentials user pass) in Eb by done.
Qed.
End routing.

(** ** Concrete requests *)

Lemma Sum256_abc : take 4 (map byte_val (Sum256 (bs "abc"))) = [186; 120; 22; 191].
Proof. vm_compute. reflexivity. Qed.

Definition probe : Handler (list str) Empty_set := λ req wr w, (Done (mkServed (fst (Write (rq_Path req) wr)) [] 0), w ++ [rq_Path req]).
Definition local_mux (user pass : str) : mux :=
  default [] (newServeMux probe probe probe probe probe probe (bs "{}") user pass [[(bs "/plugin/purge/tasks", probe)]]).
Definition local_req (path auth : str) : Request :=
  mkReq (bs "GET") (bs "http") (bs "localhost") path path {[bs "Authorization" := [auth]]} None None None.
Definition ask (user pass path auth : str) : option Z * list str :=
  match mux_ServeHTTP 307 (local_mux user pass) (local_req path auth) (fresh None false) [] with
  | (Done s, w) => (wr_Status (sv_writer s), w)
  | (_, w) => (None, w)
  end.

(** Empty credentials in the configuration are credentials that anybody can send. *)
Example empty_credentials_open :
  ask [] [] (bs "/debug/pprof/cmdline") (bs "Basic Og==") = (Some 200, [bs "/debug/pprof/cmdline"])
  ∧ ask [] [] (bs "/debug/pprof/cmdline") [] = (Some 401, []).
Proof. vm_compute. split; reflexivity. Qed.

Example local_pages :
  map (λ p, fst (ask (bs "root") (bs "pw") p []))
    [bs "/version"; bs "/healthz/startup-probe"; bs "/favicon.ico"; bs "/debug/pprof"; bs "/debug/pprof/heap"; bs "/nothing"]
  = [Some 200; Some 200; Some 404; Some 307; Some 401; Some 404].
Proof. vm_compute. reflexivity. Qed.

Lemma profiles_guarded_witness :
  ask (bs "root") (bs "pw") (bs "/debug/pprof/trace") (credentials (bs "root") (bs "pw"))
    = (Some 200, [bs "/debug/pprof/trace"])
  ∧ mux_ServeHTTP 307 (local_mux (bs "root") (bs "pw")) (local_req (bs "/debug/pprof/trace") (bs "Basic cm9vdDp4")) (fresh None false) []
    = (Done (mkServed (unauthorized (fresh None false)) [] 0), []).
Proof.
  split; [vm_compute; reflexivity|].
  destruct (profiles_guarded probe probe probe probe probe probe (bs "{}") (bs "root") (bs "pw") [[(bs "/plugin/purge/tasks", probe)]]
    (local_mux (bs "root") (bs "pw")) 307 (local_req (bs "/debug/pprof/trace") (bs "Basic cm9vdDp4")) (fresh None false) [])
    as [(next & u & p & _ & Hb & _ & Hs & _)|[Hr _]].
  - apply Forall_singleton. vm_compute. reflexivity.
  - reflexivity.
  - vm_compute. reflexivity.
  - vm_compute. reflexivity.
  - exfalso. assert (p = bs "x") as -> by (revert Hb; vm_compute; by intros [= _ <-]). revert Hs. vm_compute. discriminate.
  - exact Hr.
Defined.
