(* ===== verification/AccessLog.v ===== *)
(** * The access log: server/mod/accesslog.go, field.go, field_buffer.go, wrap.go; pkg/x/http/response_recorder.go, request.go

    [ResponseRecorder] wraps the response writer and remembers the status and the
    size of what was sent; [WithNormalFields] makes the line of a request from it,
    with [FieldBuffer], which separates the fields by a space and marks an empty
    one by a dash.  The formatted times are parameters.

    Proved: the recorder agrees with what the client was sent; the size of the
    head is that of the text on the wire; a log line is read back field by field,
    provided that the fields which are appended as they are have no space, and a
    client address from a list of proxies has. *)

From S2P Require Import Prelude GoStrings Headers CachingState Middlewares Server.
Local Open Scope Z_scope.

(** ** field_buffer.go *)

Record FieldBuffer := mkBuffer { fb_data : str; fb_sep : ascii }.

Definition NewFieldBuffer (sep : ascii) : FieldBuffer := mkBuffer [] sep.

Definition emptyWrap (s : str) : str := match s with [] => bs "-" | _ => s end.

(** [strings.ReplaceAll(s, " ", "+")] *)
Definition plus_for_space (s : str) : str := (λ c, if decide (c = " "%char) then "+"%char else c) <$> s.

Definition append (b : FieldBuffer) (s : str) (rep : bool) : FieldBuffer :=
  let s := emptyWrap s in
  let s := if rep then plus_for_space s else s in
  match fb_data b with
  | [] => mkBuffer s (fb_sep b)
  | _ => mkBuffer (fb_data b ++ fb_sep b :: s) (fb_sep b)
  end.

Definition Append (b : FieldBuffer) (s : str) : FieldBuffer := append b s false.
Definition FAppend (b : FieldBuffer) (s : str) : FieldBuffer := append b s true.

(** ** request.go *)

Definition ClientIP (remoteAddr : str) (h : header) : str :=
  match header_get (bs "Client-Ip") h with
  | [] => match header_get (bs "X-Real-IP") h with
          | [] => match header_get (bs "X-Forwarded-For") h with [] => remoteAddr | a => a end
          | a => a
          end
  | a => a
  end.

Definition Scheme (tls : bool) (h : header) : str :=
  if tls then bs "https"
  else match header_get (bs "X-Forwarded-Proto") h with
       | [] => match header_get (bs "X-Forwarded-Protocol") h with
               | [] => match header_get (bs "X-Url-Scheme") h with
                       | [] => if decide (header_get (bs "X-Forwarded-Ssl") h = bs "on") then bs "https" else bs "http"
                       | s => s
                       end
               | s => s
               end
       | s => s
       end.

(** [fillRequest]: the scheme and the host of the URL of the request. *)
Definition fillRequest (tls : bool) (scheme host reqHost : str) : str * str :=
  (match scheme with [] => if tls then bs "https" else bs "http" | _ => scheme end,
   match host with [] => reqHost | _ => host end).

(** ** response_recorder.go *)

Record ResponseRecorder := mkRecorder { rr_w : writer; rr_status : Z; rr_size : Z }.

Definition NewResponseRecorder (w : writer) : ResponseRecorder := mkRecorder w 0 0.

Definition rr_Write (b : str) (r : ResponseRecorder) : ResponseRecorder :=
  let status := if rr_status r =? 0 then 200 else rr_status r in
  let '(w, ok) := Write b (rr_w r) in
  mkRecorder w status (if ok then u64 (rr_size r + Z.of_nat (length b)) else rr_size r).

Definition rr_WriteHeader (s : Z) (r : ResponseRecorder) : ResponseRecorder :=
  mkRecorder (WriteHeader s (rr_w r)) s (rr_size r).

(** [range] over the headers adds up, in any order. *)
Definition ResponseHeaderSize (code : Z) (h : header) : Z :=
  let n := u64 (Z.of_nat (length (StatusText code)) + 15) in
  let n := fold_left (λ n kv, fold_left (λ n s, u64 (n + Z.of_nat (length s))) kv.2 (u64 (n + u64 (Z.of_nat (length kv.1) + 4))))
             (map_to_list h) n in
  u64 (n + 2).

Definition SentBytes (r : ResponseRecorder) : Z :=
  u64 (ResponseHeaderSize (rr_status r) (wr_Header (rr_w r)) + rr_size r).

(** ** field.go *)

(** What the line needs besides the headers. *)
Record entry := mkEntry {
  e_RemoteAddr : str; e_Hostname : str; e_Time : str; e_Line : str; e_Millis : str; e_CacheStatus : str; e_RequestID : str }.

Definition WithNormalFields (e : entry) (req : header) (resp : ResponseRecorder) : str :=
  let buf := NewFieldBuffer " "%char in
  let buf := Append buf (ClientIP (e_RemoteAddr e) req) in
  let buf := Append buf (e_Hostname e) in
  let buf := FAppend buf (header_get (bs "Content-Type") (wr_Header (rr_w resp))) in
  let buf := Append buf (e_Time e) in
  let buf := FAppend buf (e_Line e) in
  let buf := Append buf (format_int (rr_status resp)) in
  let buf := Append buf (format_int (SentBytes resp)) in
  let buf := FAppend buf (header_get (bs "Referer") req) in
  let buf := FAppend buf (header_get (bs "User-Agent") req) in
  let buf := Append buf (e_Millis e) in
  let buf := Append buf (format_int (rr_size resp)) in
  let buf := FAppend buf (header_get (bs "Content-Length") req) in
  let buf := FAppend buf (header_get (bs "Range") req) in
  let buf := FAppend buf (header_get (bs "X-Forwarded-For") req) in
  let buf := Append buf (e_CacheStatus e) in
  let buf := Append buf (e_RequestID e) in
  fb_data buf.

(** ** Log lines *)

(** A field as it is written. *)
Definition shown (f : str * bool) : str := if f.2 then plus_for_space (emptyWrap f.1) else emptyWrap f.1.

Lemma emptyWrap_ne s : emptyWrap s ≠ [].
Proof. by destruct s. Qed.

Lemma shown_ne f : shown f ≠ [].
Proof. destruct f as [s []]; unfold shown; cbn [fst snd]; [|apply emptyWrap_ne]. by destruct s. Qed.

Lemma join_ne sep (l : list str) : l ≠ [] → Forall (λ s, s ≠ []) l → join sep l ≠ [].
Proof.
  intros Hne Hf. destruct l as [|a l]; [done|]. apply Forall_cons in Hf as [Ha _]. destruct a as [|c a]; [done|]. by destruct l.
Qed.

(** Appending fields joins them. *)
Lemma append_fields sep (fs : list (str * bool)) :
  fold_left (λ b f, append b f.1 f.2) fs (NewFieldBuffer sep) = mkBuffer (join [sep] (shown <$> fs)) sep.
Proof.
  induction fs as [|f fs IH] using rev_ind; [done|]. rewrite fold_left_app, IH. cbn [fold_left]. rewrite fmap_app. cbn [fmap list_fmap].
  unfold append. cbn [fb_data fb_sep]. destruct (decide (fs = [])) as [->|Hne]; [simpl; by destruct f as [? []]|].
  rewrite join_snoc by (by destruct fs). destruct (join [sep] (shown <$> fs)) as [|c t] eqn:Ej.
  - exfalso. revert Ej. apply join_ne; [by destruct fs|]. apply Forall_fmap, Forall_true. intros x. apply shown_ne.
  - by destruct f as [? []].
Qed.

Definition normal_fields (e : entry) (req : header) (resp : ResponseRecorder) : list (str * bool) :=
  [(ClientIP (e_RemoteAddr e) req, false); (e_Hostname e, false); (header_get (bs "Content-Type") (wr_Header (rr_w resp)), true);
   (e_Time e, false); (e_Line e, true); (format_int (rr_status resp), false); (format_int (SentBytes resp), false);
   (header_get (bs "Referer") req, true); (header_get (bs "User-Agent") req, true); (e_Millis e, false);
   (format_int (rr_size resp), false); (header_get (bs "Content-Length") req, true); (header_get (bs "Range") req, true);
   (header_get (bs "X-Forwarded-For") req, true); (e_CacheStatus e, false); (e_RequestID e, false)].

Lemma line_join e req resp : WithNormalFields e req resp = join [" "%char] (shown <$> normal_fields e req resp).
Proof.
  transitivity (fb_data (fold_left (λ b f, append b f.1 f.2) (normal_fields e req resp) (NewFieldBuffer " "%char))).
  - unfold WithNormalFields, normal_fields, Append, FAppend. cbv zeta. cbn [fold_left fst snd]. reflexivity.
  - by rewrite append_fields.
Qed.

Definition spaceless (s : str) : Prop := " "%char ∉ s.

Lemma emptyWrap_spaceless s : spaceless s → spaceless (emptyWrap s).
Proof. unfold spaceless. destruct s; [|done]. intros _. by apply (bool_decide_eq_true_1 _). Qed.

Lemma plus_spaceless s : spaceless (plus_for_space s).
Proof.
  unfold spaceless, plus_for_space. intros (c & Hc & _)%list_elem_of_fmap. by case_decide.
Qed.

Lemma format_spaceless n : 0 <= n → spaceless (format_int n).
Proof. intros Hn. by apply format_notin. Qed.

(** a log line is read back: split at its spaces it has seventeen fields, in
    the documented order, the time taking two of them; empty values are dashes
    and the spaces of free text are plus signs.  It needs the fields that are
    appended as they are to have no space. *)
Theorem log_line_read_back e req resp t1 t2 :
  e_Time e = t1 ++ " "%char :: t2 → spaceless t1 → spaceless t2 → 0 <= rr_status resp → 0 <= rr_size resp →
  spaceless (ClientIP (e_RemoteAddr e) req) → spaceless (e_Hostname e) → spaceless (e_Millis e) →
  spaceless (e_CacheStatus e) → spaceless (e_RequestID e) →
  split_byte " "%char (WithNormalFields e req resp) =
    [emptyWrap (ClientIP (e_RemoteAddr e) req); emptyWrap (e_Hostname e);
     plus_for_space (emptyWrap (header_get (bs "Content-Type") (wr_Header (rr_w resp)))); t1; t2;
     plus_for_space (emptyWrap (e_Line e)); format_int (rr_status resp); format_int (SentBytes resp);
     plus_for_space (emptyWrap (header_get (bs "Referer") req)); plus_for_space (emptyWrap (header_get (bs "User-Agent") req));
     emptyWrap (e_Millis e); format_int (rr_size resp);
     plus_for_space (emptyWrap (header_get (bs "Content-Length") req)); plus_for_space (emptyWrap (header_get (bs "Range") req));
     plus_for_space (emptyWrap (header_get (bs "X-Forwarded-For") req)); emptyWrap (e_CacheStatus e); emptyWrap (e_RequestID e)].
Proof.
  intros Ht H1 H2 Hst Hsz Hip Hh Hm Hc Hr. rewrite line_join. set (fields := [emptyWrap _; _; _; _; _; _; _; _; _; _; _; _; _; _; _; _; _]).
  assert (∀ n, emptyWrap (format_int n) = format_int n) as Hfmt.
  { intros n. pose proof (format_int_ne n). by destruct (format_int n). }
  assert (join [" "%char] (shown <$> normal_fields e req resp) = join [" "%char] fields) as ->.
  { unfold normal_fields, fields, shown. cbn [fmap list_fmap fst snd]. rewrite Ht, !Hfmt.
    assert (emptyWrap (t1 ++ " "%char :: t2) = t1 ++ " "%char :: t2) as -> by (by destruct t1). cbn [join]. by rewrite <-!app_assoc. }
  apply split_join; [done|]. unfold fields.
  repeat (apply Forall_cons; split; [first [apply plus_spaceless|by apply emptyWrap_spaceless|done|by apply format_spaceless|
    apply format_spaceless; apply (proj1 (u64_in _))]|]). constructor.
Qed.

(** with a list of proxies in X-Forwarded-For and no other address header,
    the first two fields of the line are the first two words of that list: the
    host is not where it belongs. *)
Theorem forwarded_list_shifts e req resp a b :
  header_get (bs "Client-Ip") req = [] → header_get (bs "X-Real-IP") req = [] →
  header_get (bs "X-Forwarded-For") req = a ++ " "%char :: b → spaceless a → spaceless b →
  take 2 (split_byte " "%char (WithNormalFields e req resp)) = [a; b].
Proof.
  intros H1 H2 H3 Ha Hb. rewrite line_join. unfold normal_fields. rewrite fmap_cons. unfold shown at 1. cbn [fst snd].
  assert (emptyWrap (ClientIP (e_RemoteAddr e) req) = a ++ " "%char :: b) as ->.
  { unfold ClientIP. rewrite H1, H2, H3. by destruct a. }
  set (rest := shown <$> _). assert (∃ x, join [" "%char] ((a ++ " "%char :: b) :: rest) = a ++ " "%char :: b ++ " "%char :: x) as [x ->].
  { exists (join [" "%char] rest). unfold rest. cbn [fmap list_fmap join]. by rewrite <-!app_assoc. }
  rewrite split_byte_app by done. cbn [take]. rewrite split_byte_app by done. done.
Qed.

(** ** The recorder *)

Lemma rr_Write_open b r hd : wr_Status (rr_w r) = Some hd → wr_Head (rr_w r) = false →
  fits hd (wr_Limit (rr_w r)) (wr_Written (rr_w r)) (wr_Room (rr_w r)) (length b) = true →
  ∃ w', rr_Write b r = mkRecorder w' (if rr_status r =? 0 then 200 else rr_status r) (u64 (rr_size r + Z.of_nat (length b)))
  ∧ same_answer (rr_w r) w' ∧ wr_Body w' = wr_Body (rr_w r) ++ b ∧ wr_Written w' = wr_Written (rr_w r) + Z.of_nat (length b)
  ∧ wr_Room w' = (λ x, x - length b)%nat <$> wr_Room (rr_w r).
Proof.
  intros Hw Hh Hf. unfold rr_Write. destruct (decide (b = [])) as [-> |Hb].
  - exists (rr_w r). unfold Write, WriteHeader. rewrite Hw, app_nil_r, !Z.add_0_r. split_and!; try done.
    destruct (wr_Room (rr_w r)) as [x|]; cbn; [by rewrite Nat.sub_0_r|done].
  - destruct (Write_spec b (rr_w r) hd Hb Hw Hh) as (w' & -> & Hs & HW). rewrite Hf in HW |- *. destruct HW as (B1 & B2 & _ & B4). by exists w'.
Qed.

Lemma writes_recorded writes : ∀ (hd : Z) r, rr_status r = hd → hd ≠ 0 → wr_Status (rr_w r) = Some hd → wr_Head (rr_w r) = false →
  fits hd (wr_Limit (rr_w r)) (wr_Written (rr_w r)) (wr_Room (rr_w r)) (length (mjoin writes)) = true →
  rr_size r = u64 (Z.of_nat (length (wr_Body (rr_w r)))) →
  let r' := fold_left (λ r b, rr_Write b r) writes r in
  rr_status r' = hd ∧ wr_Status (rr_w r') = Some hd ∧ rr_size r' = u64 (Z.of_nat (length (wr_Body (rr_w r'))))
  ∧ wr_Body (rr_w r') = wr_Body (rr_w r) ++ mjoin writes.
Proof.
  induction writes as [|b writes IH]; intros hd r Hs Hne Hw Hh Hf Hsz; cbn [fold_left]; [by rewrite app_nil_r|].
  change (mjoin (b :: writes)) with (b ++ mjoin writes) in *. rewrite length_app in Hf.
  assert (fits hd (wr_Limit (rr_w r)) (wr_Written (rr_w r)) (wr_Room (rr_w r)) (length b) = true
    ∧ fits hd (wr_Limit (rr_w r)) (wr_Written (rr_w r) + Z.of_nat (length b)) ((λ x, x - length b)%nat <$> wr_Room (rr_w r)) (length (mjoin writes)) = true) as [Hf1 Hf2].
  { destruct (decide (length b = 0%nat)) as [E0|Hb].
    - rewrite E0 in *. rewrite Z.add_0_r. split; [done|]. cbn [Nat.add] in Hf. destruct (wr_Room (rr_w r)) as [x|]; cbn; [by rewrite Nat.sub_0_r|done].
    - rewrite fits_app in Hf by done. by apply andb_true_iff. }
  destruct (rr_Write_open b r hd Hw Hh Hf1) as (w' & -> & (S1 & S2 & S3 & S4 & S5) & B1 & B2 & B3). set (r1 := mkRecorder _ _ _).
  destruct (IH hd r1) as (I1 & I2 & I3 & I4); unfold r1; cbn [rr_status rr_w rr_size]; [|done|congruence|congruence| | |].
  - by rewrite Hs, (proj2 (Z.eqb_neq hd 0) Hne).
  - by rewrite S3, B2, B3.
  - rewrite Hsz, B1, length_app, Nat2Z.inj_add. unfold u64. by rewrite Zplus_mod_idemp_l.
  - split; [exact I1|]. split; [exact I2|]. split; [exact I3|]. unfold r1 in I4. cbn [rr_w] in I4. by rewrite I4, B1, <-app_assoc.
Qed.

(** What goes over the wire before the body: the status line, a line per header
    value, an empty line. *)
Definition head_text (code : Z) (h : header) : str :=
  bs "HTTP/1.1 " ++ format_int code ++ bs " " ++ StatusText code ++ crlf
  ++ mjoin ((λ kv, mjoin ((λ v, kv.1 ++ bs ": " ++ v ++ crlf) <$> kv.2)) <$> map_to_list h) ++ crlf.

(** What [ResponseHeaderSize] misses: the name of a header counts once, not once
    per value. *)
Definition repeated (h : header) : Z :=
  foldr Z.add 0 ((λ kv : str * list str, (Z.of_nat (length kv.1) + 4) * (Z.of_nat (length kv.2) - 1)) <$> map_to_list h).

Lemma mjoin_cons {A} (v : list A) vs : mjoin (v :: vs) = v ++ mjoin vs.
Proof. done. Qed.

Lemma u64_add_l a b : u64 (u64 a + b) = u64 (a + b).
Proof. unfold u64. apply Zplus_mod_idemp_l. Qed.

Lemma fold_values (vs : list str) : ∀ n, fold_left (λ n s, u64 (n + Z.of_nat (length s))) vs (u64 n) = u64 (n + Z.of_nat (length (mjoin vs))).
Proof.
  induction vs as [|v vs IH]; intros n; cbn [fold_left]; [by rewrite Z.add_0_r|].
  rewrite u64_add_l, IH, mjoin_cons, length_app. f_equal. lia.
Qed.

Lemma value_lines_length (k : str) (vs : list str) :
  Z.of_nat (length (mjoin ((λ v, k ++ bs ": " ++ v ++ crlf) <$> vs))) =
    (Z.of_nat (length k) + 4) * Z.of_nat (length vs) + Z.of_nat (length (mjoin vs)).
Proof.
  induction vs as [|v vs IH]; [cbn; lia|]. rewrite fmap_cons, !mjoin_cons. cbn [length]. rewrite !length_app, !Nat2Z.inj_add, IH. change (length (bs ": ")) with 2%nat. change (length crlf) with 2%nat. lia.
Qed.

Lemma fold_headers (l : list (str * list str)) : ∀ n,
  fold_left (λ n (kv : str * list str), fold_left (λ n s, u64 (n + Z.of_nat (length s))) kv.2 (u64 (n + u64 (Z.of_nat (length kv.1) + 4)))) l (u64 n) =
  u64 (n + Z.of_nat (length (mjoin ((λ kv, mjoin ((λ v, kv.1 ++ bs ": " ++ v ++ crlf) <$> kv.2)) <$> l)))
         - foldr Z.add 0 ((λ kv : str * list str, (Z.of_nat (length kv.1) + 4) * (Z.of_nat (length kv.2) - 1)) <$> l)).
Proof.
  induction l as [|[k vs] l IH]; intros n; cbn [fold_left]; [cbn; f_equal; lia|]. cbn [fst snd].
  assert (u64 (u64 n + u64 (Z.of_nat (length k) + 4)) = u64 (n + (Z.of_nat (length k) + 4))) as ->.
  { unfold u64. by rewrite <-Zplus_mod. }
  rewrite fold_values, IH. f_equal. rewrite !fmap_cons, mjoin_cons. cbn [foldr fst snd]. rewrite length_app, Nat2Z.inj_add, value_lines_length. lia.
Qed.

(** the recorder tells the truth.  However a body that the status and the
    announced length allow is written, piece by piece, the recorded status is the one that was sent and the recorded size is
    the length of the body, modulo 2^64; the size of the head is that of the text
    sent, less what a header with several values repeats. *)
Theorem recorder_exact (code : Z) (h : header) writes hijack :
  code ≠ 0 → informational code = false → fits code (announced_length h) 0 None (length (mjoin writes)) = true →
  let r := fold_left (λ r b, rr_Write b r) writes (rr_WriteHeader code (NewResponseRecorder (on_header (λ _, h) (fresh None hijack)))) in
  wr_Status (rr_w r) = Some (rr_status r) ∧ rr_status r = code ∧ wr_Body (rr_w r) = mjoin writes
  ∧ rr_size r = u64 (Z.of_nat (length (mjoin writes)))
  ∧ (length (format_int code) = 3%nat → ResponseHeaderSize code h = u64 (Z.of_nat (length (head_text code h)) - repeated h)).
Proof.
  intros Hc Hi Hfit r.
  assert (WriteHeader code (on_header (λ _, h) (fresh None hijack)) = mkWriter h (Some code) (sent_header h) [] None hijack false false (announced_length h) 0 []) as Ew
    by (unfold WriteHeader; cbn; by rewrite Hi).
  destruct (writes_recorded writes code (rr_WriteHeader code (NewResponseRecorder (on_header (λ _, h) (fresh None hijack)))))
    as (I1 & I2 & I3 & I4); unfold rr_WriteHeader; cbn [NewResponseRecorder rr_w rr_status rr_size]; rewrite ?Ew; [done..|].
  fold r in I1, I2, I3, I4. unfold rr_WriteHeader in I4. cbn [NewResponseRecorder rr_w rr_status rr_size] in I4. rewrite Ew in I4. cbn [wr_Body app] in I4. rewrite I4 in I3.
  split; [by rewrite I1|]. split; [done|]. split; [done|]. split; [done|]. intros Hl.
  unfold ResponseHeaderSize. cbv zeta. rewrite fold_headers, u64_add_l. unfold repeated, head_text. rewrite !length_app, Hl. change (length (bs "HTTP/1.1 ")) with 9%nat. change (length (bs " ")) with 1%nat.
  change (length crlf) with 2%nat. f_equal. lia.
Qed.

(** ** Concrete runs *)

Definition demo_entry : entry :=
  mkEntry (bs "10.0.0.1") (bs "example.org") (bs "[01/Jan/2026:00:00:00 +0000]") (bs "GET /a HTTP/1.1") (bs "3") (bs "HIT") (bs "id").

Definition demo_recorder : ResponseRecorder :=
  rr_Write (bs "hello") (rr_WriteHeader 200 (NewResponseRecorder (fresh None true))).

Lemma log_line_read_back_witness : nth 1 (split_byte " "%char (WithNormalFields demo_entry ∅ demo_recorder)) [] = bs "example.org".
Proof.
  rewrite (log_line_read_back demo_entry ∅ demo_recorder (bs "[01/Jan/2026:00:00:00") (bs "+0000]")).
  - vm_compute. reflexivity.
  - vm_compute. reflexivity.
  - apply (bool_decide_eq_true_1 _). vm_compute. reflexivity.
  - apply (bool_decide_eq_true_1 _). vm_compute. reflexivity.
  - vm_compute. discriminate.
  - vm_compute. discriminate.
  - apply (bool_decide_eq_true_1 _). vm_compute. reflexivity.
  - apply (bool_decide_eq_true_1 _). vm_compute. reflexivity.
  - apply (bool_decide_eq_true_1 _). vm_compute. reflexivity.
  - apply (bool_decide_eq_true_1 _). vm_compute. reflexivity.
  - apply (bool_decide_eq_true_1 _). vm_compute. reflexivity.
Defined.

Lemma forwarded_list_shifts_witness :
  take 2 (split_byte " "%char (WithNormalFields demo_entry {[bs "X-Forwarded-For" := [bs "1.1.1.1, 2.2.2.2"]]} demo_recorder))
    = [bs "1.1.1.1,"; bs "2.2.2.2"].
Proof.
  apply (forwarded_list_shifts demo_entry {[bs "X-Forwarded-For" := [bs "1.1.1.1, 2.2.2.2"]]} demo_recorder (bs "1.1.1.1,") (bs "2.2.2.2")).
  - vm_compute. reflexivity.
  - vm_compute. reflexivity.
  - vm_compute. reflexivity.
  - apply (bool_decide_eq_true_1 _). vm_compute. reflexivity.
  - apply (bool_decide_eq_true_1 _). vm_compute. reflexivity.
Defined.

Lemma recorder_exact_witness :
  rr_size (fold_left (λ r b, rr_Write b r) [bs "ab"; bs "cde"] (rr_WriteHeader 200 (NewResponseRecorder (on_header (λ _, ∅) (fresh None true))))) = 5.
Proof.
  destruct (recorder_exact 200 ∅ [bs "ab"; bs "cde"] true) as (_ & _ & _ & H & _); [discriminate|reflexivity|vm_compute; reflexivity|]. rewrite H. vm_compute. reflexivity.
Defined.
