(* ===== verification/LogHandler.v ===== *)
(** * Who writes the access log: server/mod/accesslog.go, wrap.go and pkg/traces

    [AccessLog] has the recorder and the line; here are the handlers around the
    request: [wrap], which only traces it, and [HandleAccessLog], which also writes
    a line when the request is over, also when it panics.  The next handler is a
    parameter: it changes the trace and the recorder and may panic.  The text of a
    time and of a URL and the random bytes of a request id are parameters.

    Proved: one line for each request, written after it, about what was sent; when no
    line is written at all; the request id a client sends is kept; the rotations of
    the file follow the minutes. *)

From S2P Require Import Prelude GoStrings Headers Object CachingState Middlewares Server AccessLog.
Local Open Scope Z_scope.

(** ** Traces *)

Record Trace := mkTrace { tr_StartAt : Z; tr_RequestID : str; tr_SentResp : Z; tr_CacheStatus : str }.

(** [generateRequestID]; [None]: the random source failed. *)
Definition generateRequestID (random : option str) : str := match random with Some b => hex b | None => [] end.

Definition MustParseRequestID (h : header) (random : option str) : str :=
  match header_get (bs "X-Request-ID") h with [] => generateRequestID random | id => id end.

(** ** Requests *)

Record incoming := mkIn {
  in_Header : header; in_TLS : bool; in_Scheme : str; in_URLHost : str; in_Host : str; in_RemoteAddr : str;
  in_Method : str; in_Proto : str }.

Definition WithTrace (now : Z) (random : option str) (req : incoming) : Trace :=
  mkTrace now (MustParseRequestID (in_Header req) random) 0 [].

Definition filled (req : incoming) : incoming :=
  let '(scheme, host) := fillRequest (in_TLS req) (in_Scheme req) (in_URLHost req) (in_Host req) in
  mkIn (in_Header req) (in_TLS req) scheme host (in_Host req) (in_RemoteAddr req) (in_Method req) (in_Proto req).

(** [URL.Hostname]: without a valid port, without brackets. *)
Definition last_index (c : ascii) (s : str) : option nat := (λ i, (length s - 1 - i)%nat) <$> index_byte c (rev s).
Definition hostname (host : str) : str :=
  let host :=
    match last_index ":"%char host with
    | Some i => if forallb is_digit (drop (S i) host) then take i host else host
    | None => host
    end in
  if has_prefix (bs "[") host && has_suffix (bs "]") host then take (length host - 2) (drop 1 host) else host.

Section handlers.
Variable layout : Z → str.          (* time.Now().Format(layout) *)
Variable url_text : incoming → str. (* req.URL *)

(** What is over when the handler returns, or panics. *)
Record handled := mkHandled { hd_panic : bool; hd_trace : Trace; hd_rec : ResponseRecorder }.
Variable next : incoming → Trace → ResponseRecorder → handled.

Definition entry_of (now : Z) (req : incoming) (tr : Trace) : entry :=
  mkEntry (in_RemoteAddr req) (hostname (in_URLHost req)) (layout now)
    (in_Method req ++ bs " " ++ url_text req ++ bs " " ++ in_Proto req)
    (format_int ((now - tr_StartAt tr) ÷ 1000000)) (tr_CacheStatus tr) (tr_RequestID tr).

(** [wrap]: the deferred function notes the bytes that were sent. *)
Definition wrap (now : Z) (random : option str) (req : incoming) (w : writer) : handled :=
  let req := filled req in
  let h := next req (WithTrace now random req) (NewResponseRecorder w) in
  let tr := hd_trace h in
  mkHandled (hd_panic h) (mkTrace (tr_StartAt tr) (tr_RequestID tr) (SentBytes (hd_rec h)) (tr_CacheStatus tr)) (hd_rec h).

Record ServerAccessLog := mkAccessLog { al_Enabled : bool; al_Path : str; al_Encrypt : bool }.

(** The lines that are written.  [now] and [later] are the times at which the
    request begins and is over. *)
Definition HandleAccessLog (opt : ServerAccessLog) (now later : Z) (random : option str)
    (req : incoming) (w : writer) (lines : list str) : handled * list str :=
  if negb (al_Enabled opt) then (wrap now random req w, lines)
  else if bool_decide (al_Path opt = []) then (wrap now random req w, lines)
  else
    let write buf lines := if al_Encrypt opt then lines else lines ++ [buf] in
    let req := filled req in
    let h := next req (WithTrace now random req) (NewResponseRecorder w) in
    (h, write (WithNormalFields (entry_of later req (hd_trace h)) (in_Header req) (hd_rec h)) lines).

(** ** Rotation *)

Definition Minute : Z := 60000000000.

(** [now.Truncate(time.Minute).Add(time.Minute)], from the zero time on *)
Definition next_rotation (now : Z) : Z := now / Minute * Minute + Minute.

(** The loop of [tickRotate]: a rotation that takes [d], the next one set after it. *)
Fixpoint rotations (now : Z) (ds : list Z) : list Z :=
  match ds with
  | [] => []
  | d :: ds => let t := next_rotation now in t :: rotations (t + d) ds
  end.

(** ** Theorems *)

Lemma filled_header req : in_Header (filled req) = in_Header req.
Proof. unfold filled. by destruct (fillRequest _ _ _ _). Qed.

(** With the log enabled, a file and no encryption, every request adds
    exactly one line, whether it returns or panics: the line of the recorder and
    the trace as the request left them, so that its status and sizes are those that
    were sent and its last field the id of the request, the one the client sent if
    it sent one.  The handler runs in every configuration, on the same request,
    trace and recorder; when the log is off, its path is empty or it is to be
    encrypted, no line is written. *)
Theorem access_log_once opt now later random req w lines :
  let tr := WithTrace now random req in
  let h := next (filled req) tr (NewResponseRecorder w) in
  let '(h', lines') := HandleAccessLog opt now later random req w lines in
  hd_rec h' = hd_rec h ∧ hd_panic h' = hd_panic h
  ∧ (header_get (bs "X-Request-ID") (in_Header req) ≠ [] → tr_RequestID tr = header_get (bs "X-Request-ID") (in_Header req))
  ∧ lines' = lines ++ (if al_Enabled opt && negb (bool_decide (al_Path opt = [])) && negb (al_Encrypt opt)
                       then [WithNormalFields (entry_of later (filled req) (hd_trace h)) (in_Header req) (hd_rec h)] else []).
Proof.
  cbv zeta.
  assert (WithTrace now random (filled req) = WithTrace now random req) as Ht by (unfold WithTrace; by rewrite filled_header).
  assert (header_get (bs "X-Request-ID") (in_Header req) ≠ [] →
    tr_RequestID (WithTrace now random req) = header_get (bs "X-Request-ID") (in_Header req)) as Hid.
  { unfold WithTrace, MustParseRequestID. cbn [tr_RequestID]. by destruct (header_get _ (in_Header req)). }
  unfold HandleAccessLog, wrap. rewrite Ht, filled_header.
  destruct (al_Enabled opt); cbn [negb andb]; [|by rewrite app_nil_r].
  destruct (bool_decide (al_Path opt = [])); cbn [negb andb]; [by rewrite app_nil_r|].
  destruct (al_Encrypt opt); cbn [negb]; by rewrite ?app_nil_r.
Qed.
End handlers.

Lemma next_rotation_spec now : now < next_rotation now <= now + Minute ∧ next_rotation now mod Minute = 0.
Proof.
  unfold next_rotation. pose proof (Z.mod_pos_bound now Minute ltac:(done)). pose proof (Z.div_mod now Minute ltac:(done)).
  split; [lia|]. replace (now / Minute * Minute + Minute) with ((now / Minute + 1) * Minute) by lia. by rewrite Z.mod_mul.
Qed.

(** the file is rotated at full minutes, once at each of them as long as a
    rotation takes less than a minute; a longer one skips the minutes it takes. *)
Theorem rotations_by_minute ds : ∀ now, Forall (λ d, 0 <= d < Minute) ds →
  rotations now ds = map (λ k, (now / Minute + 1 + k) * Minute) (seqZ 0 (Z.of_nat (length ds))).
Proof.
  induction ds as [|d ds IH]; intros now Hds; [done|]. apply Forall_cons in Hds as [Hd Hds]. cbn [rotations length].
  rewrite Nat2Z.inj_succ, seqZ_cons by lia. rewrite Z.pred_succ. cbn [map].
  assert (next_rotation now = (now / Minute + 1 + 0) * Minute) as E by (unfold next_rotation; lia).
  f_equal; [exact E|]. rewrite IH by done.
  replace ((next_rotation now + d) / Minute) with (now / Minute + 1).
  - change (Z.succ 0) with (1 + 0). rewrite <-fmap_add_seqZ. change (Z.add 1 <$> ?l) with (map (Z.add 1) l).
    rewrite map_map. apply map_ext. intros x. lia.
  - rewrite E, (Z.add_0_r (now / Minute + 1)), Z.div_add_l, (Z.div_small d) by (unfold Minute in *; lia). lia.
Qed.

(** ** A request *)

Definition log_next (req : incoming) (tr : Trace) (r : ResponseRecorder) : handled :=
  mkHandled false (mkTrace (tr_StartAt tr) (tr_RequestID tr) 0 (bs "HIT")) (rr_Write (bs "body") (rr_WriteHeader 200 r)).
Definition log_req : incoming :=
  mkIn {[bs "X-Request-Id" := [bs "id1"]]} false [] [] (bs "h:80") (bs "1.2.3.4") (bs "GET") (bs "HTTP/1.1").

Example access_log_line :
  snd (HandleAccessLog (λ _, bs "[t +0]") (λ q, in_Scheme q ++ bs "://" ++ in_URLHost q) log_next
    (mkAccessLog true (bs "/log") false) 0 5000000 None log_req (fresh None false) [])
  = [bs "1.2.3.4 h - [t +0] GET+http://h:80+HTTP/1.1 200 23 - - 5 4 - - - HIT id1"].
Proof. vm_compute. reflexivity. Qed.

Lemma rotations_by_minute_witness : rotations 90000000000 [5; 59000000000; 0] = [120000000000; 180000000000; 240000000000].
Proof.
  rewrite (rotations_by_minute [5; 59000000000; 0] 90000000000); [vm_compute; reflexivity|].
  repeat constructor; vm_compute; (split; [discriminate|reflexivity]) || discriminate || reflexivity.
Defined.
