(* ===== verification/HeavyKeeper.v ===== *)
(** * The sketch of hot objects: pkg/algorithm/heavykeeper/heavykeeper.go

    [depth] rows of [width] counters; a key has one counter per row, owned by the
    fingerprint it carries.  A counter of another key decays at random: the
    outcomes of [r.Float64() < pow(decay, count)] are given by an oracle, a
    function of the row and the count, so that a theorem for every oracle covers
    every decay and every sequence of random numbers.

    Proved for every sequence of keys and every oracle: the shape of the table,
    that indexing stays inside it, and that the estimate of a key never exceeds
    the number of times a key with its fingerprint was added, which it equals if
    nothing else was added; clearing forgets everything. *)

From S2P Require Import Prelude GoStrings.
Local Open Scope Z_scope.

Record bucket := mkBucket { b_fingerprint : Z; b_count : Z }.

Record HeavyKeeper := mkHeavy { hk_buckets : list (list bucket); hk_depth : nat; hk_width : nat }.

Definition zero_bucket : bucket := mkBucket 0 0.

Definition New (depth width : nat) : HeavyKeeper := mkHeavy (replicate depth (replicate width zero_bucket)) depth width.

(** FNV-1a, 64 bits. *)
Definition hash (key : str) : Z :=
  fold_left (λ h c, u64 (Z.lxor h (byte_val c) * 1099511628211)) key 14695981039346656037.

Definition hash2 (key : str) : Z :=
  Z.lxor (fold_left (λ h c, Z.lxor (u64 (h * 16777619)) (byte_val c)) key 2166136261) 11400714819323198485.

(** The column of row [i]; [None] is the division by zero. *)
Definition column (hk : HeavyKeeper) (key : str) (i : nat) : option nat :=
  match hk_width hk with
  | O => None
  | w => Some (Z.to_nat (u64 (hash key + u64 (Z.of_nat i * hash2 key)) mod Z.of_nat w))
  end.

(** [hk.buckets[i][idx]] *)
Definition cell (rows : list (list bucket)) (i idx : nat) : option bucket := rows !! i ≫= λ row, row !! idx.

(** What [Add] does to the counter of a row; [decays] is the outcome of the draw. *)
Definition bump (fingerprint : Z) (decays : Z → bool) (b : bucket) : bucket :=
  if b_count b =? 0 then mkBucket fingerprint 1
  else if b_fingerprint b =? fingerprint then mkBucket (b_fingerprint b) (u32 (b_count b + 1))
  else if decays (b_count b) then
    let count := u32 (b_count b - 1) in
    if count =? 0 then mkBucket fingerprint 1 else mkBucket (b_fingerprint b) count
  else b.

Fixpoint add_rows (hk : HeavyKeeper) (key : str) (decays : nat → Z → bool) (i n : nat) (rows : list (list bucket)) : option (list (list bucket)) :=
  match n with
  | O => Some rows
  | S n =>
      match column hk key i with
      | None => None
      | Some idx =>
          match cell rows i idx with
          | None => None
          | Some b => add_rows hk key decays (S i) n (alter (λ row, <[idx := bump (hash key) (decays i) b]> row) i rows)
          end
      end
  end.

Definition Add (hk : HeavyKeeper) (key : str) (decays : nat → Z → bool) : option HeavyKeeper :=
  (λ rows, mkHeavy rows (hk_depth hk) (hk_width hk)) <$> add_rows hk key decays 0 (hk_depth hk) (hk_buckets hk).

Fixpoint query_rows (hk : HeavyKeeper) (key : str) (i n : nat) (maxCount : Z) : option Z :=
  match n with
  | O => Some maxCount
  | S n =>
      match column hk key i with
      | None => None
      | Some idx =>
          match cell (hk_buckets hk) i idx with
          | None => None
          | Some b =>
              query_rows hk key (S i) n
                (if b_fingerprint b =? hash key then (if b_count b >? maxCount then b_count b else maxCount) else maxCount)
          end
      end
  end.

Definition Query (hk : HeavyKeeper) (key : str) : option Z := query_rows hk key 0 (hk_depth hk) 0.

Definition Clear (hk : HeavyKeeper) : HeavyKeeper :=
  mkHeavy ((λ row : list bucket, (λ _ : bucket, zero_bucket) <$> row) <$> hk_buckets hk) (hk_depth hk) (hk_width hk).

(** Keys added in order, each with its draws. *)
Fixpoint add_all (hk : HeavyKeeper) (l : list (str * (nat → Z → bool))) : option HeavyKeeper :=
  match l with
  | [] => Some hk
  | (key, decays) :: l => Add hk key decays ≫= λ hk, add_all hk l
  end.

(** How many of the keys have a fingerprint. *)
Definition adds (fp : Z) (l : list (str * (nat → Z → bool))) : Z :=
  Z.of_nat (length (filter (λ x, hash x.1 = fp) l)).

(** ** The table *)

Definition shaped (depth width : nat) (rows : list (list bucket)) : Prop :=
  length rows = depth ∧ Forall (λ row, length row = width) rows.

Lemma cell_shaped depth width rows i c : shaped depth width rows → (i < depth)%nat → (c < width)%nat → ∃ b, cell rows i c = Some b.
Proof.
  intros [Hl Hf] Hi Hc. unfold cell. destruct (lookup_lt_is_Some_2 rows i) as [row Hr]; [lia|]. rewrite Hr. cbn [mbind option_bind].
  eapply Forall_lookup_1 in Hf; [|done]. apply lookup_lt_is_Some_2. cbn in Hf. lia.
Qed.

Lemma shaped_alter depth width rows i c b : shaped depth width rows → shaped depth width (alter (λ row, <[c := b]> row) i rows).
Proof.
  intros [Hl Hf]. split; [by rewrite length_alter|]. apply Forall_alter; [done|]. intros row _ Hr. by rewrite length_insert.
Qed.

Lemma cell_alter rows i c b b0 j d : cell rows i c = Some b0 →
  cell (alter (λ row, <[c := b]> row) i rows) j d = if decide (j = i ∧ d = c) then Some b else cell rows j d.
Proof.
  unfold cell. intros Hb. destruct (decide (j = i)) as [->|Hne].
  - rewrite list_lookup_alter_eq. destruct (rows !! i) as [row|] eqn:Er; [|done]. cbn [mbind option_bind fmap option_fmap option_map] in *.
    destruct (decide (d = c)) as [->|Hd].
    + rewrite decide_True by done. apply list_lookup_insert_eq. by eapply lookup_lt_Some.
    + rewrite decide_False by (by intros [_ ?]). by apply list_lookup_insert_ne.
  - rewrite list_lookup_alter_ne by done. by rewrite decide_False by (by intros [? _]).
Qed.

Lemma column_bound hk key i : (0 < hk_width hk)%nat → ∃ c, column hk key i = Some c ∧ (c < hk_width hk)%nat.
Proof.
  intros Hw. unfold column. destruct (hk_width hk) as [|w] eqn:Ew; [lia|]. eexists. split; [reflexivity|].
  pose proof (Z.mod_pos_bound (u64 (hash key + u64 (Z.of_nat i * hash2 key))) (Z.of_nat (S w))). lia.
Qed.

(** The rows [i .. i+n) have the counter of the key bumped, and nothing else
    changes. *)
Lemma add_rows_spec hk key decays : (0 < hk_width hk)%nat → ∀ n i rows, shaped (hk_depth hk) (hk_width hk) rows → (i + n ≤ hk_depth hk)%nat →
  ∃ rows', add_rows hk key decays i n rows = Some rows' ∧ shaped (hk_depth hk) (hk_width hk) rows'
  ∧ ∀ j d, cell rows' j d =
      if decide ((i ≤ j < i + n)%nat ∧ column hk key j = Some d) then bump (hash key) (decays j) <$> cell rows j d else cell rows j d.
Proof.
  intros Hw. induction n as [|n IH]; intros i rows Hs Hi; cbn [add_rows].
  { exists rows. split; [done|]. split; [done|]. intros j d. rewrite decide_False; [done|]. intros [? _]. lia. }
  destruct (column_bound hk key i Hw) as (c & Hc & Hcw). rewrite Hc. destruct (cell_shaped _ _ rows i c Hs) as [b Hb]; [lia|done|]. rewrite Hb.
  destruct (IH (S i) (alter (λ row, <[c:=bump (hash key) (decays i) b]> row) i rows)) as (rows' & -> & Hs' & Hcell); [by apply shaped_alter|lia|].
  exists rows'. split; [done|]. split; [done|]. intros j d. rewrite Hcell, (cell_alter _ _ _ _ b) by done.
  destruct (decide (j = i)) as [->|Hne].
  - rewrite (decide_False (P := (S i ≤ i < S i + n)%nat ∧ _)) by (intros [? _]; lia).
    destruct (decide (d = c)) as [->|Hd].
    + rewrite decide_True by done. rewrite decide_True by (split; [lia|done]). by rewrite Hb.
    + rewrite decide_False by (by intros [_ ?]). rewrite decide_False; [done|]. intros [_ ?]. simplify_eq.
  - rewrite (decide_False (P := j = i ∧ d = c)) by (by intros [? _]).
    apply decide_ext. split; intros [? ?]; (split; [lia|done]).
Qed.

Lemma Add_spec hk key decays : (0 < hk_width hk)%nat → shaped (hk_depth hk) (hk_width hk) (hk_buckets hk) →
  ∃ hk', Add hk key decays = Some hk' ∧ hk_depth hk' = hk_depth hk ∧ hk_width hk' = hk_width hk
  ∧ shaped (hk_depth hk) (hk_width hk) (hk_buckets hk')
  ∧ ∀ j d, cell (hk_buckets hk') j d =
      if decide (column hk key j = Some d) then bump (hash key) (decays j) <$> cell (hk_buckets hk) j d else cell (hk_buckets hk) j d.
Proof.
  intros Hw Hs. unfold Add. destruct (add_rows_spec hk key decays Hw (hk_depth hk) 0 (hk_buckets hk) Hs) as (rows' & -> & Hs' & Hc); [lia|].
  eexists. split; [reflexivity|]. cbn [hk_depth hk_width hk_buckets]. split; [done|]. split; [done|]. split; [done|].
  intros j d. rewrite Hc. destruct (decide (column hk key j = Some d)) as [Hcol|Hcol].
  - destruct (decide (j < hk_depth hk)%nat) as [Hj|Hj]; [by rewrite decide_True by (split; [lia|done])|].
    rewrite decide_False by (intros [? _]; lia). unfold cell. rewrite lookup_ge_None_2; [done|]. destruct Hs as [-> _]. lia.
  - by rewrite decide_False by (by intros [_ ?]).
Qed.

Lemma query_rows_spec hk key : (0 < hk_width hk)%nat → shaped (hk_depth hk) (hk_width hk) (hk_buckets hk) →
  ∀ n i mx, (i + n ≤ hk_depth hk)%nat →
  ∃ m, query_rows hk key i n mx = Some m ∧ mx <= m
  ∧ (m = mx ∨ ∃ j d b, (i ≤ j < i + n)%nat ∧ column hk key j = Some d ∧ cell (hk_buckets hk) j d = Some b ∧ b_fingerprint b = hash key ∧ b_count b = m)
  ∧ ∀ j d b, (i ≤ j < i + n)%nat → column hk key j = Some d → cell (hk_buckets hk) j d = Some b → b_fingerprint b = hash key → b_count b <= m.
Proof.
  intros Hw Hs. induction n as [|n IH]; intros i mx Hi; cbn [query_rows].
  { exists mx. split; [done|]. split; [lia|]. split; [by left|]. intros. lia. }
  destruct (column_bound hk key i Hw) as (c & Hc & Hcw). rewrite Hc. destruct (cell_shaped _ _ _ i c Hs) as [b Hb]; [lia|done|]. rewrite Hb.
  set (mx' := if b_fingerprint b =? hash key then _ else _).
  assert (mx <= mx' ∧ (mx' = mx ∨ (b_fingerprint b = hash key ∧ b_count b = mx')) ∧ (b_fingerprint b = hash key → b_count b <= mx')) as (H1 & H2 & H3).
  { unfold mx'. repeat case_if; lia. }
  destruct (IH (S i) mx') as (m & -> & Hm & Hsrc & Hall); [lia|]. exists m. split; [done|]. split; [lia|]. split.
  - destruct Hsrc as [->|(j & d & b' & Hj & ?)]; [|right; exists j, d, b'; split; [lia|done]].
    destruct H2 as [->|[? ?]]; [by left|]. right. exists i, c, b. split; [lia|done].
  - intros j d b' Hj Hcol Hcell Hfp. destruct (decide (j = i)) as [->|Hne].
    + assert (d = c) as -> by congruence. assert (b' = b) as -> by congruence. specialize (H3 Hfp). lia.
    + apply (Hall j d b'); [lia|done..].
Qed.

(** ** Counting *)

Lemma adds_snoc fp l x : adds fp (l ++ [x]) = adds fp l + (if decide (hash x.1 = fp) then 1 else 0).
Proof. unfold adds. rewrite filter_app, length_app, filter_cons. cbn [filter list_filter]. case_decide; simpl; lia. Qed.

Definition sound (l : list (str * (nat → Z → bool))) (b : bucket) : Prop :=
  0 <= b_count b <= max_uint32 ∧ b_count b <= adds (b_fingerprint b) l.

Lemma adds_nonneg fp l : 0 <= adds fp l.
Proof. unfold adds. lia. Qed.

Lemma bump_sound l key decays d b : sound l b → sound (l ++ [(key, decays)]) (bump (hash key) d b).
Proof.
  intros [Hb Ha]. pose proof (adds_nonneg (hash key) l). unfold bump.
  assert (sound (l ++ [(key, decays)]) (mkBucket (hash key) 1)) as Hone.
  { split; cbn [b_count b_fingerprint]; [unfold max_uint32; lia|]. rewrite adds_snoc. cbn [fst]. rewrite decide_True by done. lia. }
  case_if; [done|]. case_if.
  - split; cbn [b_count b_fingerprint]; [pose proof (u32_in (b_count b + 1)); unfold_ints; lia|].
    rewrite adds_snoc, decide_True by (cbn [fst]; lia). unfold u32. pose proof (Z.mod_le (b_count b + 1) 4294967296). lia.
  - assert (b_count b <= adds (b_fingerprint b) (l ++ [(key, decays)])) as Hmono.
    { rewrite adds_snoc. case_decide; lia. }
    case_if; [|by split]. rewrite u32_id by (unfold_ints; lia). case_if; [done|]. split; cbn [b_count b_fingerprint]; lia.
Qed.

Lemma sound_more l x b : sound l b → sound (l ++ [x]) b.
Proof. intros [Hb Ha]. split; [done|]. rewrite adds_snoc. case_decide; lia. Qed.

(** The state after the keys [l]. *)
Record counted (depth width : nat) (l : list (str * (nat → Z → bool))) (hk : HeavyKeeper) : Prop := {
  ct_depth : hk_depth hk = depth; ct_width : hk_width hk = width;
  ct_shape : shaped depth width (hk_buckets hk);
  ct_sound : ∀ j d b, cell (hk_buckets hk) j d = Some b → sound l b }.

Lemma counted_new depth width : counted depth width [] (New depth width).
Proof.
  split; [done|done| |].
  - split; [apply length_replicate|]. apply Forall_replicate. apply length_replicate.
  - intros j d b. unfold cell. cbn [New hk_buckets]. intros (row & Hr & Hb)%bind_Some.
    apply lookup_replicate in Hr as [-> _]. apply lookup_replicate in Hb as [-> _]. split; cbn [zero_bucket b_count b_fingerprint]; [unfold max_uint32; lia|apply adds_nonneg].
Qed.

Lemma counted_add depth width l hk key decays : (0 < width)%nat → counted depth width l hk →
  ∃ hk', Add hk key decays = Some hk' ∧ counted depth width (l ++ [(key, decays)]) hk'
  ∧ ∀ j d, cell (hk_buckets hk') j d =
      if decide (column hk key j = Some d) then bump (hash key) (decays j) <$> cell (hk_buckets hk) j d else cell (hk_buckets hk) j d.
Proof.
  intros Hw [Hd Hwi Hs Hso]. destruct (Add_spec hk key decays) as (hk' & -> & Hd' & Hw' & Hs' & Hc); [by rewrite Hwi|by rewrite Hd, Hwi|].
  exists hk'. split; [done|]. split; [|done]. split; [congruence|congruence|by rewrite Hd, Hwi in Hs'|].
  intros j d b. rewrite Hc. case_decide as Ecol; [|intros Hb; by eapply sound_more, Hso].
  intros (b0 & Hb0 & ->)%fmap_Some. apply bump_sound. by eapply Hso.
Qed.

Lemma counted_all depth width : (0 < width)%nat → ∀ l l0 hk, counted depth width l0 hk →
  ∃ hk', add_all hk l = Some hk' ∧ counted depth width (l0 ++ l) hk'.
Proof.
  intros Hw. induction l as [|[key decays] l IH]; intros l0 hk Hc; cbn [add_all]; [exists hk; by rewrite app_nil_r|].
  destruct (counted_add depth width l0 hk key decays Hw Hc) as (hk1 & -> & Hc1 & _). cbn [mbind option_bind].
  destruct (IH _ _ Hc1) as (hk2 & -> & Hc2). exists hk2. split; [done|]. by rewrite <-app_assoc in Hc2.
Qed.

(** Adding one key only: each of its counters has the number of adds. *)
Lemma counted_same depth width key : (0 < width)%nat → ∀ (draws : list (nat → Z → bool)) l0 hk n, counted depth width l0 hk →
  (∀ j d, column hk key j = Some d → (j < depth)%nat → ∃ b, cell (hk_buckets hk) j d = Some b ∧ b_count b = u32 n ∧ (b_count b ≠ 0 → b_fingerprint b = hash key)) →
  0 <= n → ∃ hk', add_all hk ((λ d, (key, d)) <$> draws) = Some hk' ∧ counted depth width (l0 ++ ((λ d, (key, d)) <$> draws)) hk'
    ∧ ∀ j d, column hk' key j = Some d → (j < depth)%nat →
        ∃ b, cell (hk_buckets hk') j d = Some b ∧ b_count b = u32 (n + Z.of_nat (length draws)) ∧ (b_count b ≠ 0 → b_fingerprint b = hash key).
Proof.
  intros Hw. induction draws as [|dr draws IH]; intros l0 hk n Hc Hown Hn.
  { exists hk. split; [done|]. rewrite Z.add_0_r, app_nil_r. done. }
  rewrite fmap_cons. cbn [add_all]. destruct (counted_add depth width l0 hk key dr Hw Hc) as (hk1 & -> & Hc1 & Hcell). cbn [mbind option_bind].
  assert (column hk1 key = column hk key) as Hcol. { unfold column. by rewrite (ct_width _ _ _ _ Hc1), (ct_width _ _ _ _ Hc). }
  destruct (IH (l0 ++ [(key, dr)]) hk1 (n + 1) Hc1) as (hk2 & -> & Hc2 & Hown2).
  - rewrite Hcol. intros j d Hj Hd. destruct (Hown j d Hj Hd) as (b & Hb & Hcnt & Hfp). exists (bump (hash key) (dr j) b).
    rewrite Hcell, decide_True by done. rewrite Hb. split; [done|]. unfold bump. destruct (b_count b =? 0) eqn:E0.
    + apply Z.eqb_eq in E0. cbn [b_count b_fingerprint]. split; [|done]. rewrite Hcnt in E0. unfold u32 in *.
      rewrite Zplus_mod, E0. done.
    + apply Z.eqb_neq in E0. rewrite (Hfp E0), Z.eqb_refl. cbn [b_count b_fingerprint]. split; [|done]. rewrite Hcnt. unfold u32.
      by rewrite Zplus_mod_idemp_l.
  - lia.
  - exists hk2. split; [done|]. split; [by rewrite <-app_assoc in Hc2|]. intros j d Hj Hd. destruct (Hown2 j d Hj Hd) as (b & Hb & Hcnt & Hfp).
    exists b. split; [done|]. split; [|done]. rewrite Hcnt. f_equal. cbn [length]. lia.
Qed.

(** the sketch never overestimates.  Whatever keys are added, in whatever
    order, and however the draws come out, adding and asking stay inside the
    table, and the estimate of a key is at most the number of added keys with its
    fingerprint; if only that key was added it is that number, modulo 2^32; and
    after a clear it is zero. *)
Theorem sketch_bounds depth width l key : (0 < width)%nat →
  (∃ hk n, add_all (New depth width) l = Some hk ∧ Query hk key = Some n ∧ 0 <= n <= adds (hash key) l
     ∧ Query (Clear hk) key = Some 0)
  ∧ ∀ draws, (0 < depth)%nat → l = (λ d, (key, d)) <$> draws →
      ∃ hk, add_all (New depth width) l = Some hk ∧ Query hk key = Some (u32 (Z.of_nat (length l))).
Proof.
  intros Hw. split.
  - destruct (counted_all depth width Hw l [] _ (counted_new depth width)) as (hk & Hadd & Hc). rewrite app_nil_l in Hc.
    destruct Hc as [Hd Hwi Hs Hso]. destruct (query_rows_spec hk key) with (n := hk_depth hk) (i := 0%nat) (mx := 0) as (m & Hq & Hm & Hsrc & _);
      [by rewrite Hwi|by rewrite Hd, Hwi|lia|]. exists hk, m. split; [done|]. split; [done|]. split.
    + split; [done|]. destruct Hsrc as [->|(j & d & b & _ & _ & Hb & Hfp & <-)]; [apply adds_nonneg|]. rewrite <-Hfp. by apply (Hso j d b Hb).
    + assert (shaped depth width (hk_buckets (Clear hk))) as Hs2.
      { destruct Hs as [Hl Hf]. split; [cbn; by rewrite length_fmap|]. apply Forall_fmap. eapply Forall_impl; [exact Hf|]. intros row Hr. cbn. by rewrite length_fmap. }
      destruct (query_rows_spec (Clear hk) key) with (n := hk_depth hk) (i := 0%nat) (mx := 0) as (m2 & Hq2 & _ & Hsrc2 & _);
        [cbn; by rewrite Hwi|cbn [Clear hk_depth hk_width hk_buckets]; by rewrite Hd, Hwi|cbn; lia|].
      unfold Query. cbn [hk_depth Clear]. rewrite Hq2. destruct Hsrc2 as [->|(j & d & b & _ & _ & Hb & _ & <-)]; [done|]. f_equal.
      unfold cell in Hb. cbn [Clear hk_buckets] in Hb. apply bind_Some in Hb as (row & Hr & Hb). apply list_lookup_fmap_Some in Hr as (row0 & -> & _).
      by apply list_lookup_fmap_Some in Hb as (b0 & -> & _).
  - intros draws Hdep ->. destruct (counted_same depth width key Hw draws [] (New depth width) 0 (counted_new depth width)) as (hk & Hadd & Hc & Hown).
    + intros j d Hcol Hj. destruct (column_bound (New depth width) key j Hw) as (c & Hcc & Hcw). assert (d = c) as -> by congruence.
      exists zero_bucket. split; [|done]. unfold cell. cbn [New hk_buckets]. rewrite lookup_replicate_2 by done. cbn. by apply lookup_replicate_2.
    + lia.
    + destruct Hc as [Hd Hwi Hs Hso]. exists hk. split; [done|].
      destruct (query_rows_spec hk key) with (n := hk_depth hk) (i := 0%nat) (mx := 0) as (m & Hq & Hm & Hsrc & Hall);
        [by rewrite Hwi|by rewrite Hd, Hwi|lia|]. unfold Query. rewrite Hq. f_equal. rewrite length_fmap.
      destruct (column_bound hk key 0) as (c & Hcc & _); [by rewrite Hwi|]. destruct (Hown 0%nat c Hcc Hdep) as (b & Hb & Hcnt & Hfp).
      assert (u32 (0 + Z.of_nat (length draws)) <= m) as Hge.
      { destruct (decide (b_count b = 0)) as [E0|E0]; [lia|]. rewrite <-Hcnt. apply (Hall 0%nat c b); [lia|done|done|by apply Hfp]. }
      rewrite Z.add_0_l in *. destruct Hsrc as [->|(j & d & b' & Hj & Hcol & Hb' & _ & <-)].
      * pose proof (u32_in (Z.of_nat (length draws))). unfold_ints. lia.
      * destruct (Hown j d Hcol) as (b2 & Hb2 & Hcnt2 & _); [lia|]. congruence.
Qed.

Lemma sketch_bounds_witness : ∃ hk n, add_all (New 2 3) [(bs "a", λ _ _, true); (bs "b", λ _ _, true); (bs "a", λ _ _, false)] = Some hk
  ∧ Query hk (bs "a") = Some n ∧ 0 <= n <= 2.
Proof.
  destruct (sketch_bounds 2 3 [(bs "a", λ _ _, true); (bs "b", λ _ _, true); (bs "a", λ _ _, false)] (bs "a")) as [(hk & n & Ha & Hq & Hn & _) _];
    [apply Nat.ltb_lt; reflexivity|].
  exists hk, n. split; [exact Ha|]. split; [exact Hq|]. exact Hn.
Defined.
