(* ===== verification/Qs.v ===== *)
(** * Status of the cache: plugin/qs/qs.go, pkg/metrics/requests_counter.go

    What the status pages compute: the chunks of an object as text
    ([convRange]), the domains the cache serves with the number of their objects
    (read from the shared store), and the number of requests per status code
    ([RequestsCounter]).  A [float64] that holds a count is that count: the
    theorem about it stays below 2^53, where this is exact.

    Proved: the text of the chunks is read back to the same chunks and its
    ranges are maximal; the page of domains shows every registered domain with
    its counter and nothing else; a snapshot has the number of requests of each
    code. *)

From S2P Require Import Prelude GoStrings GoSort SharedKv.
Local Open Scope Z_scope.

(** ** [convRange] *)

Definition show_run (r : Z * Z) : str :=
  if r.1 =? r.2 then format_int r.1 else format_int r.1 ++ "-"%char :: format_int r.2.

(** The loop: the runs it prints. *)
Fixpoint conv_loop (start prev : Z) (nums : list Z) : list (Z * Z) :=
  match nums with
  | [] => [(start, prev)]
  | n :: rest => if negb (n =? i64 (prev + 1)) then (start, prev) :: conv_loop n n rest else conv_loop start n rest
  end.

(** [nums]: the positions of the bitmap, in ascending order. *)
Definition convRange (nums : list Z) : str :=
  match nums with
  | [] => []
  | n :: rest => join [","%char] (show_run <$> conv_loop n n rest)
  end.

(** ** The page of domains *)

Section domains.
Context {D : Type} `{PebbleOps D}.

(** [None] is the panic of a value that is too short. *)
Definition service_domains (d : D) : option (gmap (list ascii) Z) :=
  match kv_IteratePrefix d (bs "if/domain")
    (λ (m : option (gmap (list ascii) Z)) key val,
       match m with
       | None => None
       | Some m => if (10 <? length key)%nat then (λ n, <[drop 10 key := n]> m) <$> be32 val else Some m
       end) (Some ∅) with
  | Ok m => m
  | Err _ => Some ∅
  end.
End domains.

(** ** [RequestsCounter] *)

Record RequestsCounter := mkCounter { rc_data : gmap (list ascii) (gmap (list ascii) Z) }.

Definition Seed (c : RequestsCounter) (protocol code : str) : RequestsCounter :=
  let codes := default ∅ (rc_data c !! protocol) in
  mkCounter (<[protocol := match codes !! code with Some _ => codes | None => <[code := 0]> codes end]> (rc_data c)).

Definition Inc (c : RequestsCounter) (protocol code : str) : RequestsCounter :=
  let codes := default ∅ (rc_data c !! protocol) in
  mkCounter (<[protocol := <[code := u64 (default 0 (codes !! code) + 1)]> codes]> (rc_data c)).

(** The two loops, in any order of the maps. *)
Definition add_code (result : gmap (list ascii) Z) (cv : str * Z) : gmap (list ascii) Z :=
  <[cv.1 := default 0 (result !! cv.1) + cv.2]> result.

Definition Snapshot (c : RequestsCounter) : gmap (list ascii) Z :=
  fold_left (λ result pc, fold_left add_code (map_to_list pc.2) result) (map_to_list (rc_data c)) ∅.

(** ** The text of the chunks *)

Definition expand (r : Z * Z) : list Z := seqZ r.1 (r.2 - r.1 + 1).

(** A run is not empty, and the next one starts after a gap. *)
Definition apart (a b : Z * Z) : Prop := a.2 + 1 < b.1.

Definition read_run (s : str) : option (Z * Z) :=
  match index_byte "-"%char s with
  | None => match parse_int s with (n, None) => Some (n, n) | _ => None end
  | Some i => match parse_int (take i s), parse_int (drop (S i) s) with
              | (a, None), (b, None) => Some (a, b)
              | _, _ => None
              end
  end.

(** Reading the text back. *)
Definition read_chunks (s : str) : option (list Z) :=
  match s with
  | [] => Some []
  | _ => (λ rs, mjoin (expand <$> rs)) <$> mapM read_run (split_byte ","%char s)
  end.

Definition run_ok (r : Z * Z) : Prop := 0 <= r.1 <= r.2 ∧ r.2 <= max_uint32.

Lemma show_run_comma r : run_ok r → ","%char ∉ show_run r.
Proof.
  intros [Hr Hm]. unfold show_run. pose proof (format_notin "," r.1 eq_refl ltac:(lia)). case_if; [done|].
  pose proof (format_notin "," r.2 eq_refl ltac:(lia)). set_solver.
Qed.

Lemma read_show r : run_ok r → read_run (show_run r) = Some r.
Proof.
  intros [Hr Hm]. destruct r as [a b]. cbn [fst snd] in *. unfold max_uint32 in Hm. unfold read_run, show_run. cbn [fst snd]. case_if.
  - rewrite (proj2 (index_byte_None _ _)) by (apply format_notin; [done|lia]). rewrite parse_format_int by (unfold_ints; lia). by subst.
  - rewrite index_byte_app by (apply format_notin; [done|lia]). rewrite take_app_length, drop_S_app, !parse_format_int by (unfold_ints; lia). done.
Qed.

Lemma conv_loop_runs nums : ∀ start prev, 0 <= start <= prev → prev <= max_uint32 → StronglySorted Z.lt (prev :: nums) → Forall (λ n, n <= max_uint32) nums →
  Forall run_ok (conv_loop start prev nums) ∧ StronglySorted apart (conv_loop start prev nums)
  ∧ mjoin (expand <$> conv_loop start prev nums) = seqZ start (prev - start + 1) ++ nums
  ∧ Forall (λ r, start <= r.1) (conv_loop start prev nums).
Proof.
  induction nums as [|n nums IH]; intros start prev Hs Hp Hsort Hf; cbn [conv_loop].
  { split; [repeat constructor; unfold max_uint32 in *; cbn [fst snd]; lia|]. split; [by repeat constructor|]. split; [done|repeat constructor; cbn [fst snd]; lia]. }
  apply StronglySorted_inv in Hsort as [Hsort Hlt]. apply Forall_cons in Hlt as [Hlt _]. apply Forall_cons in Hf as [Hn Hf].
  unfold max_uint32 in *. rewrite i64_id by (unfold_ints; lia). destruct (Z.eqb_spec n (prev + 1)) as [->|Hne]; cbn [negb].
  - destruct (IH start (prev + 1)) as (H1 & H2 & H3 & H4); [lia|done|done|done|]. split; [done|]. split; [done|]. split; [|done].
    rewrite H3. replace (prev + 1 - start + 1) with ((prev - start + 1) + 1) by lia. rewrite seqZ_app by lia.
    replace (start + (prev - start + 1)) with (prev + 1) by lia. by rewrite seqZ_1, <-app_assoc.
  - destruct (IH n n) as (H1 & H2 & H3 & H4); [lia|done|done|done|]. split; [constructor; [unfold run_ok, max_uint32; cbn [fst snd]; lia|done]|].
    split; [constructor; [done|]|].
    + eapply Forall_impl; [exact H4|]. intros r Hr. unfold apart. cbn [fst snd] in *. lia.
    + split; [|constructor; [cbn [fst]; lia|eapply Forall_impl; [exact H4|]; intros r Hr; cbn [fst] in *; lia]].
      rewrite fmap_cons. change (mjoin (expand (start, prev) :: (expand <$> conv_loop n n nums))) with (expand (start, prev) ++ mjoin (expand <$> conv_loop n n nums)).
      rewrite H3. unfold expand. cbn [fst snd]. replace (n - n + 1) with 1 by lia. by rewrite seqZ_1.
Qed.

Lemma conv_loop_ne start prev nums : conv_loop start prev nums ≠ [].
Proof. revert start prev. induction nums as [|n nums IH]; intros start prev; cbn [conv_loop]; [done|]. by case_if. Qed.

Lemma mapM_read rs : Forall run_ok rs → mapM read_run (show_run <$> rs) = Some rs.
Proof. induction 1 as [|r rs Hr _ IH]; [done|]. rewrite fmap_cons. cbn [mapM]. rewrite (read_show r Hr). cbn [mbind option_bind]. by rewrite IH. Qed.

(** the text of the chunks of an object is read back to exactly these chunks,
    and its ranges are maximal: each is not empty and the next one starts after a
    gap. *)
Theorem chunks_read_back nums : StronglySorted Z.lt nums → Forall (λ n, 0 <= n <= max_uint32) nums →
  read_chunks (convRange nums) = Some nums
  ∧ ∀ n rest, nums = n :: rest → StronglySorted apart (conv_loop n n rest) ∧ Forall run_ok (conv_loop n n rest).
Proof.
  intros Hs Hf. destruct nums as [|n rest]; [done|]. apply Forall_cons in Hf as [Hn Hf].
  destruct (conv_loop_runs rest n n) as (H1 & H2 & H3 & _); [lia|lia|done|eapply Forall_impl; [exact Hf|]; intros; cbn in *; lia|].
  split; [|intros n' rest' [= <- <-]; done]. unfold convRange, read_chunks.
  assert (split_byte ","%char (join [","%char] (show_run <$> conv_loop n n rest)) = show_run <$> conv_loop n n rest) as Hsp.
  { apply split_join; [pose proof (conv_loop_ne n n rest); by destruct (conv_loop n n rest)|].
    apply Forall_fmap. eapply Forall_impl; [exact H1|]. intros r Hr. by apply show_run_comma. }
  destruct (join _ _) as [|c t] eqn:Ej.
  - exfalso. cbn [split_byte] in Hsp. pose proof (conv_loop_ne n n rest). destruct (conv_loop n n rest) as [|r rs]; [done|].
    apply Forall_cons in H1 as [Hr _]. rewrite fmap_cons in Hsp. injection Hsp as Hsp _. pose proof (read_show r Hr) as Hrd. rewrite <-Hsp in Hrd. done.
  - rewrite Hsp, (mapM_read _ H1). cbn [fmap option_fmap option_map]. rewrite H3. replace (n - n + 1) with 1 by lia. by rewrite seqZ_1.
Qed.

Lemma chunks_read_back_witness : read_chunks (convRange [0; 1; 2; 5; 7; 8]) = Some [0; 1; 2; 5; 7; 8] ∧ convRange [0; 1; 2; 5; 7; 8] = bs "0-2,5,7-8".
Proof.
  split; [|vm_compute; reflexivity]. apply (chunks_read_back [0; 1; 2; 5; 7; 8]).
  - repeat constructor; lia.
  - repeat constructor; discriminate.
Defined.

(** ** Domains *)

Section domain_theorems.
Context {D : Type} `{PebbleLaws D}.

Definition domain_key (dom : str) : str := bs "if/domain/" ++ dom.

(** The entries under the prefix are the counters of domains. *)
Definition domains_ok (d : D) : Prop := ∀ k v, pb_view d !! k = Some v → has_prefix (bs "if/domain") k = true →
  ∃ dom n, dom ≠ [] ∧ k = domain_key dom ∧ v = put_be32 n ∧ in_u32 n.

Lemma domain_fold (l : list (str * str)) : (∀ k v, (k, v) ∈ l → ∃ dom n, dom ≠ [] ∧ k = domain_key dom ∧ v = put_be32 n ∧ in_u32 n) → NoDup l.*1 →
  ∀ m : gmap (list ascii) Z, (∀ k, k ∈ l.*1 → m !! drop 10 k = None) →
  ∃ m', fold_left (λ (m : option (gmap (list ascii) Z)) (kv : str * str),
             match m with
             | None => None
             | Some m => if (10 <? length kv.1)%nat then (λ n, <[drop 10 kv.1 := n]> m) <$> be32 kv.2 else Some m
             end) l (Some m) = Some m'
  ∧ ∀ dom n, m' !! dom = Some n ↔ m !! dom = Some n ∨ ((domain_key dom, put_be32 n) ∈ l ∧ in_u32 n).
Proof.
  induction l as [|[k v] l IH]; intros Hok Hnd m Hm; cbn [fold_left fst snd].
  { exists m. split; [done|]. intros dom n. split; [by left|]. intros [?|[Hin _]]; [done|by apply elem_of_nil in Hin]. }
  destruct (Hok k v) as (dom & n & Hne & -> & -> & Hn); [apply list_elem_of_here|]. rewrite fmap_cons in Hnd. apply NoDup_cons in Hnd as [Hk Hnd]. cbn [fst] in Hk.
  replace (10 <? length (domain_key dom))%nat with true
    by (symmetry; apply Nat.ltb_lt; unfold domain_key; rewrite length_app; change (length (bs "if/domain/")) with 10%nat; destruct dom; [done|simpl; lia]).
  rewrite (be32_put n Hn). cbn [fmap option_fmap option_map].
  assert (∀ x, drop 10 (domain_key x) = x) as Hdrop by (intros x; unfold domain_key; by apply drop_app_exact). rewrite Hdrop.
  destruct (IH (λ k v Hin, Hok k v (list_elem_of_further _ _ _ Hin)) Hnd (<[dom := n]> m)) as (m' & -> & Hm').
  - intros k Hkin. apply list_elem_of_fmap in Hkin as ([k' v'] & -> & Hin). cbn [fst].
    destruct (Hok k' v') as (dom' & n' & _ & -> & _ & _); [by right|]. rewrite Hdrop. rewrite lookup_insert_ne.
    + rewrite <-(Hdrop dom'). apply Hm. rewrite fmap_cons. right. apply list_elem_of_fmap. by exists (domain_key dom', v').
    + intros <-. apply Hk. apply list_elem_of_fmap. by exists (domain_key dom, v').
  - exists m'. split; [done|]. intros dom' n'. rewrite Hm', lookup_insert_Some, elem_of_cons. split.
    + intros [[[<- <-]|[_ ?]]|[? ?]]; [right; by split; [left|]|by left|right; by split; [right|]].
    + intros [Hmd|[[Heq|Hin] Hn']].
      * left. right. split; [|done]. intros ->. specialize (Hm (domain_key dom')). rewrite Hdrop in Hm. rewrite Hm in Hmd; [done|]. left.
      * left. left. pose proof (f_equal (λ x, drop 10 x.1) Heq) as Hd. pose proof (f_equal (λ x, be32 x.2) Heq) as Hv. cbn [fst snd] in Hd, Hv.
        rewrite !Hdrop in Hd. rewrite !be32_put in Hv by done. injection Hv as Hv. by split.
      * right. by split.
Qed.

(** the page of domains shows exactly the registered domains, each with its
    counter. *)
Theorem domains_listed (d : D) : domains_ok d → ∃ m, service_domains d = Some m
  ∧ ∀ dom n, m !! dom = Some n ↔ pb_view d !! domain_key dom = Some (put_be32 n) ∧ in_u32 n.
Proof.
  intros Hok. destruct (prefix_fold d (bs "if/domain")) as (l & Hfold & _ & Hnd & Hl). unfold service_domains. rewrite Hfold.
  destruct (domain_fold l) with (m := (∅ : gmap (list ascii) Z)) as (m & -> & Hm); [|done|intros; apply lookup_empty|].
  - intros k v [Hp Hv]%Hl. by apply Hok.
  - exists m. split; [done|]. intros dom n. rewrite Hm, lookup_empty, Hl. split.
    + intros [?|[[_ Hv] Hn]]; [done|by split].
    + intros [Hv Hn]. right. split; [|done]. split; [|done]. apply has_prefix_spec. exists ("/"%char :: dom). reflexivity.
Qed.
End domain_theorems.

Definition demo_domains : gmap (list ascii) (list ascii) := {[domain_key (bs "a.org") := put_be32 3]}.

Lemma domains_listed_witness : ∃ m, service_domains demo_domains = Some m ∧ m !! bs "a.org" = Some 3.
Proof.
  destruct (domains_listed demo_domains) as (m & Hs & Hm).
  - intros k v Hk _. change (demo_domains !! k = Some v) in Hk. unfold demo_domains in Hk. apply lookup_singleton_Some in Hk as [<- <-]. exists (bs "a.org"), 3.
    split; [vm_compute; discriminate|]. split; [reflexivity|]. split; [reflexivity|]. vm_compute. split; discriminate.
  - exists m. split; [exact Hs|]. apply Hm. split; [vm_compute; reflexivity|vm_compute; split; discriminate].
Defined.

(** ** Requests *)

(** What happens to the counter. *)
Inductive count_event := Seeded (protocol code : str) | Counted (protocol code : str).

Definition count_one (c : RequestsCounter) (e : count_event) : RequestsCounter :=
  match e with Seeded p k => Seed c p k | Counted p k => Inc c p k end.

Definition has_code (code : str) (e : count_event) : bool := match e with Counted _ k => bool_decide (code = k) | Seeded _ _ => false end.

(** The number of requests with a code. *)
Definition requests_of (code : str) (l : list count_event) : Z := Z.of_nat (length (filter (λ e, has_code code e = true) l)).

Definition counted_of (c : gmap (list ascii) (gmap (list ascii) Z)) (protocol code : str) : Z := default 0 (default ∅ (c !! protocol) !! code).

(** The sum over the protocols. *)
Definition total (c : gmap (list ascii) (gmap (list ascii) Z)) (code : str) : Z :=
  foldr (λ pc acc, default 0 (pc.2 !! code) + acc) 0 (map_to_list c).

Lemma total_perm (l l' : list (str * gmap (list ascii) Z)) code : l ≡ₚ l' →
  foldr (λ pc acc, default 0 (pc.2 !! code) + acc) 0 l = foldr (λ pc acc, default 0 (pc.2 !! code) + acc) 0 l'.
Proof. induction 1; cbn [foldr]; lia. Qed.

Lemma total_insert (c : gmap (list ascii) (gmap (list ascii) Z)) p codes code : total (<[p := codes]> c) code = default 0 (codes !! code) + total (delete p c) code.
Proof.
  unfold total. rewrite <-insert_delete_eq. rewrite (total_perm _ _ code (map_to_list_insert (delete p c) p codes (lookup_delete_eq c p))). done.
Qed.

Lemma total_split (c : gmap (list ascii) (gmap (list ascii) Z)) p code : total c code = counted_of c p code + total (delete p c) code.
Proof.
  unfold counted_of. destruct (c !! p) as [codes|] eqn:Ep; cbn [default from_option id].
  - rewrite <-total_insert. by rewrite insert_id.
  - rewrite lookup_empty, delete_id by done. done.
Qed.

Lemma Inc_total c p k code : total (rc_data (Inc c p k)) code =
  if decide (code = k) then u64 (counted_of (rc_data c) p k + 1) + total (delete p (rc_data c)) code else total (rc_data c) code.
Proof.
  unfold Inc. cbn [rc_data]. rewrite total_insert. case_decide as Ek.
  - subst. by rewrite lookup_insert_eq.
  - rewrite lookup_insert_ne by done. symmetry. apply total_split.
Qed.

Lemma Seed_total c p k code : total (rc_data (Seed c p k)) code = total (rc_data c) code.
Proof.
  unfold Seed. cbn [rc_data]. rewrite total_insert, (total_split (rc_data c) p). f_equal. unfold counted_of. destruct (default ∅ (rc_data c !! p) !! k) eqn:Ek; [done|].
  destruct (decide (code = k)) as [->|Hne]; [by rewrite lookup_insert_eq, Ek|by rewrite lookup_insert_ne].
Qed.

Lemma Inc_counted c p k p' k' : counted_of (rc_data (Inc c p k)) p' k' =
  if decide (p' = p ∧ k' = k) then u64 (counted_of (rc_data c) p k + 1) else counted_of (rc_data c) p' k'.
Proof.
  unfold counted_of, Inc. cbn [rc_data]. destruct (decide (p' = p)) as [->|Hp].
  - rewrite lookup_insert_eq. cbn [default from_option id]. destruct (decide (k' = k)) as [->|Hk].
    + rewrite lookup_insert_eq, decide_True by done. done.
    + rewrite lookup_insert_ne by done. by rewrite decide_False by (by intros [_ ?]).
  - rewrite lookup_insert_ne by done. by rewrite decide_False by (by intros [? _]).
Qed.

Lemma Seed_counted c p k p' k' : counted_of (rc_data (Seed c p k)) p' k' = counted_of (rc_data c) p' k'.
Proof.
  unfold counted_of, Seed. cbn [rc_data]. destruct (decide (p' = p)) as [->|Hp]; [|by rewrite lookup_insert_ne].
  rewrite lookup_insert_eq. cbn [default from_option id]. destruct (default ∅ (rc_data c !! p) !! k) eqn:Ek; [done|].
  destruct (decide (k' = k)) as [->|Hne]; [by rewrite lookup_insert_eq, Ek|by rewrite lookup_insert_ne].
Qed.

Lemma total_nonneg (c : gmap (list ascii) (gmap (list ascii) Z)) code : (∀ p k, 0 <= counted_of c p k) → 0 <= total c code.
Proof.
  induction c as [|p codes c Hp IH] using map_ind; intros Hc; [unfold total; by rewrite map_to_list_empty|].
  rewrite total_insert, delete_id by done. pose proof (Hc p code) as H1. unfold counted_of in H1. rewrite lookup_insert_eq in H1. cbn in H1.
  assert (0 <= total c code); [|lia]. apply IH. intros p' k'. destruct (decide (p' = p)) as [->|Hne].
  - unfold counted_of. by rewrite Hp.
  - specialize (Hc p' k'). unfold counted_of in *. by rewrite lookup_insert_ne in Hc.
Qed.

Lemma delete_counted (c : gmap (list ascii) (gmap (list ascii) Z)) p p' k : (∀ p k, 0 <= counted_of c p k) → 0 <= counted_of (delete p c) p' k.
Proof.
  intros Hc. destruct (decide (p' = p)) as [->|Hne]; unfold counted_of; [by rewrite lookup_delete_eq|rewrite lookup_delete_ne by done; apply Hc].
Qed.

Lemma requests_snoc code l e : requests_of code (l ++ [e]) =
  requests_of code l + if has_code code e then 1 else 0.
Proof.
  unfold requests_of. rewrite filter_app, length_app, Nat2Z.inj_add. f_equal. rewrite filter_cons. cbn [filter list_filter].
  destruct (has_code code e); [by rewrite decide_True|by rewrite decide_False].
Qed.

Lemma count_events l : Z.of_nat (length l) < 2 ^ 53 → ∀ c, c = rc_data (fold_left count_one l (mkCounter ∅)) →
  (∀ p k, 0 <= counted_of c p k) ∧ ∀ code, total c code = requests_of code l.
Proof.
  induction l as [|e l IH] using rev_ind; intros Hl c ->.
  { split; [intros p k; unfold counted_of; cbn [fold_left rc_data]; by rewrite lookup_empty|done]. }
  rewrite length_app in Hl. cbn [length] in Hl. destruct (IH ltac:(lia) _ eq_refl) as [Hnn Htot]. rewrite fold_left_app. cbn [fold_left].
  set (rc := fold_left count_one l (mkCounter ∅)) in *. set (c := rc_data rc) in *. destruct e as [p k|p k]; cbn [count_one].
  { split; [intros; by rewrite Seed_counted|]. intros code. rewrite Seed_total, Htot, requests_snoc. cbn [has_code]. lia. }
  assert (counted_of c p k <= Z.of_nat (length l)) as Hb.
  { pose proof (total_split c p k) as Hs. pose proof (total_nonneg (delete p c) k (λ p' k', delete_counted c p p' k' Hnn)). rewrite Htot in Hs.
    unfold requests_of in Hs. pose proof (length_filter (λ e, has_code k e = true) l). lia. }
  split.
  - intros p' k'. rewrite Inc_counted. case_decide; [apply (proj1 (u64_in _))|apply Hnn].
  - intros code. rewrite Inc_total, requests_snoc. cbn [has_code].
    case_decide as Ek; [rewrite bool_decide_eq_true_2 by done|rewrite bool_decide_eq_false_2, Htot by done; lia]. subst code.
    fold c. rewrite u64_id by (specialize (Hnn p k); unfold_ints; lia). rewrite <-(Htot k), (total_split c p k). lia.
Qed.

Lemma fold_add_code l : NoDup l.*1 → ∀ r k, default 0 (fold_left add_code l r !! k) = default 0 (r !! k) + default 0 ((list_to_map l : gmap (list ascii) Z) !! k).
Proof.
  induction l as [|[k0 v] l IH]; intros Hnd r k; cbn [fold_left list_to_map foldr]; [rewrite lookup_empty; cbn; lia|].
  rewrite fmap_cons in Hnd. apply NoDup_cons in Hnd as [Hk0 Hnd]. cbn [fst] in Hk0. rewrite IH by done. unfold add_code. cbn [fst snd].
  destruct (decide (k = k0)) as [->|Hne].
  - rewrite !lookup_insert_eq. rewrite (not_elem_of_list_to_map_1 l k0 Hk0). cbn. lia.
  - by rewrite !lookup_insert_ne.
Qed.

Lemma Snapshot_total c code : default 0 (Snapshot c !! code) = total (rc_data c) code.
Proof.
  unfold Snapshot, total. assert (∀ l r, default 0 (fold_left (λ result pc, fold_left add_code (map_to_list pc.2) result) l r !! code) =
    default 0 (r !! code) + foldr (λ (pc : str * gmap (list ascii) Z) acc, default 0 (pc.2 !! code) + acc) 0 l) as Hf.
  { induction l as [|[p codes] l IH]; intros r; cbn [fold_left foldr fst snd]; [lia|]. rewrite IH, fold_add_code by apply NoDup_fst_map_to_list.
    rewrite list_to_map_to_list. lia. }
  rewrite Hf, lookup_empty. cbn. lia.
Qed.

(** a snapshot of the counter has, for every status code, the number of
    requests that were counted with it, over all protocols, whatever label pairs
    were seeded and in whatever order it all happened. *)
Theorem requests_counted l code : Z.of_nat (length l) < 2 ^ 53 →
  default 0 (Snapshot (fold_left count_one l (mkCounter ∅)) !! code) = requests_of code l.
Proof. intros Hl. rewrite Snapshot_total. by apply (count_events l Hl _ eq_refl). Qed.

Lemma requests_counted_witness :
  default 0 (Snapshot (fold_left count_one [Seeded (bs "1.1") (bs "200"); Counted (bs "1.1") (bs "200"); Counted (bs "2") (bs "200")] (mkCounter ∅)) !! bs "200") = 2.
Proof.
  rewrite (requests_counted [Seeded (bs "1.1") (bs "200"); Counted (bs "1.1") (bs "200"); Counted (bs "2") (bs "200")] (bs "200")).
  - vm_compute. reflexivity.
  - vm_compute. reflexivity.
Defined.
