(* ===== verification/Listing.v ===== *)
(** * The lists of objects: plugin/qs/qs.go, TopK of the buckets

    The page of objects walks the index of every bucket of the storage; the page of
    buckets counts the objects in their caches; the collector of hot keys asks every
    bucket that is not in memory for its most used objects.  The text of a point in
    time is a parameter, JSON is left out.

    Proved: the page of objects lists every object of every bucket once, with its
    chunks, validity and variants; the hot keys are the most used objects of each
    bucket that are still in its index, from the most used down. *)

From S2P Require Import Prelude GoStrings GoSort Headers Blocks Object CacheControl CachingState.
From S2P Require Import SharedKv Lfu IndexDb DiskBucket Storage Qs.

Record SimpleMetadata := mkSimple {
  sm_ID : str; sm_Chunks : str; sm_Code : Z; sm_Size : Z; sm_RespUnix : Z; sm_Expired : Z; sm_Flags : str; sm_CacheRef : Z; sm_Vd : list str }.

Section listing.
Context {D K B : Type} `{PebbleOps D} `{PebbleOps K} `{BitmapOps B} `{MetaCodec B}.
Implicit Types (st : storage D K) (d : bucket D K).

Definition simple_md (getHash : bool) (m : Metadata B) : SimpleMetadata :=
  mkSimple (if getHash then HashStr (md_ID m) else Key (md_ID m)) (convRange (bm_range (md_Chunks m))) (md_Code m) (md_Size m)
    (md_RespUnix m) (md_ExpiresAt m) (CacheFlag_String (md_Flags m)) (md_Refs m) (if IsVary m then md_VirtualKey m else []).

(** A bucket whose index cannot be walked contributes nothing. *)
Definition add_objects st (getHash : bool) (objects : list SimpleMetadata) (i : nat) : list SimpleMetadata :=
  match st_buckets st !! i with
  | None => objects
  | Some d => match b_Iterate d (λ l m, l ++ [simple_md getHash m]) objects with Ok l => l | Err _ => objects end
  end.

Definition objects_simple st (buckets : list nat) (getHash : bool) : list SimpleMetadata := fold_left (add_objects st getHash) buckets [].

(** [bucketObjectCounter]: by the name of the bucket, its path. *)
Definition Objects d : Z := match b_driver d with Empty => 0 | _ => Lfu.Len (b_cache d) end.
Definition disk_counts st (buckets : list nat) : gmap (list ascii) Z :=
  fold_left (λ c i, match st_buckets st !! i with Some d => <[b_path d := Objects d]> c | None => c end) buckets ∅.

(** [TopK] of the disk and of the memory bucket; [None] is the panic of a key that is
    in the index and not in the cache. *)
Variable fmt_time : Z → str.

Definition hot_entry d (hash : str) : option (option str) :=
  match index_Get (B := B) (b_db d) hash with
  | Err _ => Some None
  | Ok m =>
      match Lfu.Peek (b_cache d) hash with
      | None => None
      | Some mark => Some (Some (id_path (md_ID m) ++ bs "@@" ++ fmt_time (LastAccess mark) ++ bs "@@" ++ format_int (Refs mark)))
      end
  end.

Fixpoint hot_entries d (hashes : list str) : option (list str) :=
  match hashes with
  | [] => Some []
  | h :: rest => e ← hot_entry d h; es ← hot_entries d rest; Some (match e with Some s => s :: es | None => es end)
  end.

Definition bucket_TopK d (k : Z) : option (list str) :=
  match b_driver d with
  | Empty => Some []
  | _ => match Lfu.TopK (b_cache d) k with None => None | Some arr => hot_entries d arr end
  end.

(** [collectBucketMetrics] as far as the keys go. *)
Fixpoint hotkeys st (buckets : list nat) : option (list str) :=
  match buckets with
  | [] => Some []
  | i :: rest =>
      match st_buckets st !! i with
      | None => None
      | Some d =>
          if bool_decide (b_type d = TypeInMemory) then hotkeys st rest
          else ks ← bucket_TopK d 10; ks' ← hotkeys st rest; Some (ks ++ ks')
      end
  end.
End listing.

Section theorems.
Context {D K B : Type} `{PebbleLaws D} `{PebbleLaws K} `{BitmapOps B} `{CodecLaws B}.
Implicit Types (st : storage D K) (d : bucket D K).

(** The objects a bucket lists. *)
Definition listed_index d : gmap (list ascii) (Metadata B) := match b_driver d with Empty => ∅ | _ => b_index d end.

Lemma bucket_listed d getHash objects : ∃ l : list (list ascii * Metadata B),
  b_Iterate d (λ l m, l ++ [simple_md getHash m]) objects = Ok (objects ++ map (λ km, simple_md getHash km.2) l)
  ∧ NoDup (l.*1) ∧ (∀ k m, (k, m) ∈ l ↔ listed_index d !! k = Some m) ∧ length l = size (listed_index d).
Proof.
  unfold b_Iterate, listed_index. assert (∀ dr : driver, dr ≠ Empty → ∃ l : list (list ascii * Metadata B),
    index_Iterate (b_db d) (λ (s : list SimpleMetadata) (_ : str) (m : Metadata B), s ++ [simple_md getHash m]) objects = Ok (objects ++ map (λ km, simple_md getHash km.2) l)
    ∧ NoDup (l.*1) ∧ (∀ k m, (k, m) ∈ l ↔ b_index d !! k = Some m) ∧ length l = size (b_index (B := B) d)) as Hdb.
  { intros _ _. destruct (index_entries (B := B) (b_db d)) as (l & Hit & Hnd & Hl). exists l. split; [|split; [done|split; [exact Hl|]]].
    - rewrite Hit. f_equal. clear Hit Hnd Hl. revert objects. induction l as [|[k m] l IH]; intros objects; cbn [fold_left map snd]; [by rewrite app_nil_r|].
      rewrite IH, <-app_assoc. done.
    - rewrite <-(map_size_list_to_map (M := gmap (list ascii))) by done. f_equal. apply map_eq. intros k. apply option_eq. intros m. rewrite <-elem_of_list_to_map by done. apply Hl. }
  destruct (b_driver d); [by apply (Hdb Native)|by apply (Hdb Memory)|]. exists []. rewrite app_nil_r. split; [done|]. split; [constructor|]. split; [|done].
  intros k m. rewrite lookup_empty. split; [by intros ?%elem_of_nil|done].
Qed.

(** the page of objects.  It lists every object of every bucket asked, with its
    data, exactly as often as there are buckets that have it: the number of lines is
    the sum of the sizes of the indexes. *)
Theorem objects_listed st buckets getHash : (∀ i, i ∈ buckets → is_Some (st_buckets st !! i)) →
  (∀ s, s ∈ objects_simple (B := B) st buckets getHash ↔ ∃ i d k m, i ∈ buckets ∧ st_buckets st !! i = Some d ∧ listed_index d !! k = Some m ∧ s = simple_md getHash m)
  ∧ length (objects_simple (B := B) st buckets getHash) = sum_list (map (λ i, match st_buckets st !! i with Some d => size (listed_index d) | None => 0%nat end) buckets).
Proof.
  intros Hall. unfold objects_simple. assert (∀ acc : list SimpleMetadata,
    (∀ s, s ∈ fold_left (add_objects (B := B) st getHash) buckets acc ↔ s ∈ acc ∨ ∃ i d k m, i ∈ buckets ∧ st_buckets st !! i = Some d ∧ listed_index d !! k = Some m ∧ s = simple_md getHash m)
    ∧ length (fold_left (add_objects (B := B) st getHash) buckets acc)
      = (length acc + sum_list (map (λ i, match st_buckets st !! i with Some d => size (listed_index d) | None => 0 end) buckets))%nat) as Hgen.
  { induction buckets as [|i buckets IH]; intros acc; cbn [fold_left map sum_list_with id].
    - split; [|rewrite Nat.add_0_r; done]. intros s. split; [by left|]. intros [?|(i & d & k & m & Hi & _)]; [done|by apply elem_of_nil in Hi].
    - destruct (Hall i) as [d Hd]; [by left|]. destruct (IH (λ j Hj, Hall j (list_elem_of_further _ _ _ Hj)) (add_objects st getHash acc i)) as [IH1 IH2].
      destruct (bucket_listed d getHash acc) as (l & Hl & _ & He & Hlen). assert (add_objects (B := B) st getHash acc i = acc ++ map (λ km, simple_md getHash km.2) l) as Ha by (unfold add_objects; by rewrite Hd, Hl).
      rewrite Ha in IH1, IH2. rewrite Ha. split.
      + intros s. rewrite IH1, elem_of_app, list_elem_of_fmap. split.
        * intros [[?|([k m] & -> & Hkm)]|(j & d' & k & m & Hj & H')]; [by left| |].
          -- right. exists i, d, k, m. split; [by left|]. split; [done|]. split; [by apply He|done].
          -- right. exists j, d', k, m. split; [by right|done].
        * intros [?|(j & d' & k & m & Hj & Hd' & Hk & ->)]; [by left; left|]. apply elem_of_cons in Hj as [->|Hj].
          -- left. right. exists (k, m). split; [done|]. apply He. congruence.
          -- right. by exists j, d', k, m.
      + rewrite IH2, length_app, length_map, Hd, Hlen. unfold id. lia. }
  destruct (Hgen []) as [Hin Hlen]. split; [|exact Hlen]. intros s. rewrite Hin. split; [intros [Hn|?]; [by apply elem_of_nil in Hn|done]|by right].
Qed.

(** the hot keys of a bucket.  For a bucket that satisfies its invariant the most
    used objects are found without a panic: there are at most [n] of them, each is one
    of the [n] keys the cache names, in their order, and the ones left out are those
    that are not in the index. *)
Theorem hot_keys_listed fmt d n : bucket_ok (B := B) d → b_driver d ≠ Empty → 0 < n → ∃ hashes keys,
  Lfu.TopK (b_cache d) n = Some hashes ∧ bucket_TopK (B := B) fmt d n = Some keys
  ∧ length hashes = Z.to_nat (Z.min n (Lfu.Len (b_cache d))) ∧ (length keys <= length hashes)%nat
  ∧ (∀ j i, j ∈ hashes → Lfu.Has (b_cache d) i = true → i ∉ hashes → GetFrequency (b_cache d) i <= GetFrequency (b_cache d) j)
  ∧ keys = omap (λ h, m ← b_index (B := B) d !! h; mark ← Lfu.Peek (b_cache d) h;
        Some (id_path (md_ID m) ++ bs "@@" ++ fmt (LastAccess mark) ++ bs "@@" ++ format_int (Refs mark))) hashes.
Proof.
  intros (_ & Hwf & _) Hd Hn. destruct (TopK_ok (b_cache d) n Hwf Hn) as (hashes & Ht & Hlen & Hfreq).
  assert (∀ h, h ∈ hashes → is_Some (Lfu.Peek (b_cache d) h)) as Hin.
  { intros h Hh. unfold TopK in Ht. rewrite (proj2 (Z.ltb_ge _ _)) in Ht by lia. injection Ht as <-.
    destruct Hwf as (_ & _ & Hdom & _). apply Hdom. apply elem_of_take in Hh as (i & Hi & _). apply list_elem_of_lookup_2, list_elem_of_In, in_rev, list_elem_of_In in Hi. done. }
  set (F := λ h, m ← b_index (B := B) d !! h; mark ← Lfu.Peek (b_cache d) h; Some (id_path (md_ID m) ++ bs "@@" ++ fmt (LastAccess mark) ++ bs "@@" ++ format_int (Refs mark))).
  assert (hot_entries (B := B) fmt d hashes = Some (omap F hashes)) as Hes.
  { clear Ht Hlen Hfreq. induction hashes as [|h hashes IH]; [done|]. cbn [hot_entries omap list_omap].
    destruct (Hin h) as [mark Hm]; [by left|]. specialize (IH (λ j Hj, Hin j (list_elem_of_further _ _ _ Hj))).
    assert (hot_entry (B := B) fmt d h = Some (F h)) as ->; [|rewrite IH; by destruct (F h)].
    unfold hot_entry, F. rewrite Hm. pose proof (index_Get_view (B := B) (b_db d) h) as Hg. unfold b_index. destruct (index_view (b_db d) !! h) as [m|]; [by rewrite Hg|].
    by destruct Hg as [e ->]. }
  exists hashes, (omap F hashes). split; [done|]. split; [unfold bucket_TopK; rewrite Ht; by destruct (b_driver d)|]. split; [done|]. split; [|done].
  clear. induction hashes as [|h hashes IH]; [done|]. cbn [omap list_omap length]. destruct (F h); cbn [length]; lia.
Qed.
End theorems.

Definition ls_storage : storage (gmap (list ascii) (list ascii)) (gmap (list ascii) (list ascii)) :=
  mkStorage (mkLayers [] [0%nat] [] None) [ex_full] ∅ None.

Lemma objects_listed_witness : ∃ s, s ∈ objects_simple (B := N) ls_storage (native_Buckets ls_storage) false ∧ sm_ID s = bs "http://h/a" ∧ sm_Chunks s = bs "0-1"
  ∧ length (objects_simple (B := N) ls_storage (native_Buckets ls_storage) false) = 1%nat.
Proof.
  destruct (objects_listed (B := N) ls_storage (native_Buckets ls_storage) false) as [H1 H2].
  - intros i Hi. change (i ∈ [0%nat]) in Hi. apply list_elem_of_singleton in Hi. subst i. exists ex_full. reflexivity.
  - exists (simple_md false (ex_md 0 3 [] ex_id)). split; [|split; [vm_compute; reflexivity|split; [vm_compute; reflexivity|rewrite H2; vm_compute; reflexivity]]].
    apply H1. exists 0%nat, ex_full, (id_hash ex_id), (ex_md 0 3 [] ex_id). split; [apply list_elem_of_singleton; reflexivity|].
    split; [reflexivity|]. split; [vm_compute; reflexivity|reflexivity].
Defined.

Lemma hot_keys_listed_witness : ∃ keys, bucket_TopK (B := N) (λ _, bs "t") ex_full 10 = Some keys ∧ keys = [bs "http://h/a@@t@@1"].
Proof.
  destruct (hot_keys_listed (B := N) (λ _, bs "t") ex_full 10 ex_full_ok) as (hashes & keys & Ht & Hk & _ & _ & _ & He); [discriminate|reflexivity|].
  exists keys. split; [exact Hk|]. rewrite He. vm_compute in Ht. injection Ht as <-. vm_compute. reflexivity.
Defined.
