(* ===== verification/Graph.v ===== *)
(** * The figures of the status page: plugin/qs/qs.go

    Three goroutines collect: the requests by status ([tickRequestsPerSecond]),
    the processor and memory ([tickUsage]) and the disks with the hot keys
    ([tickHotKeys]); the graph page shows them once a second.  [Collect] says when
    the goroutines run; here is what one round of each does and what the page
    makes of it.  The measurements of gopsutil are parameters; one that fails
    gives a nil pointer.

    Proved: from a new plugin on, whatever the rounds and their order, every figure
    shown is not negative, every status code that is followed is in exactly one of the
    groups and the page has no other figures; the rounds in which the process dies. *)

From Stdlib Require Import SpecFloat.
From S2P Require Import Prelude GoStrings SoftTtl Smoother Object.

Local Open Scope Z_scope.

(** ** State *)

Definition f_03 : spec_float := S754_finite false 5404319552844595 (-54).

Definition codes : list str :=
  [bs "200"; bs "206"; bs "400"; bs "401"; bs "403"; bs "404"; bs "499"; bs "500"; bs "502"; bs "503"; bs "504"].

Record figures := mkFigures {
  g_metrics : gmap (list ascii) CounterSmoother; g_total : CounterSmoother;
  g_smoothed : gmap (list ascii) spec_float; g_hot : list str;
  g_cpu : Z; g_memUsage : Z; g_memTotal : Z; g_diskUsage : Z; g_diskTotal : Z }.

(** A new plugin, and the smoothers of [tickRequestsPerSecond]. *)
Definition new_figures : figures :=
  mkFigures (list_to_map (map (λ c, (c, NewCounterSmoother f_03)) codes)) (NewCounterSmoother f_03) ∅ [] 0 0 0 0 0.

(** ** The rounds *)

(** One status code of the snapshot. *)
Definition tick_code (st : gmap (list ascii) CounterSmoother * gmap (list ascii) spec_float * spec_float) (cv : str * spec_float)
    : gmap (list ascii) CounterSmoother * gmap (list ascii) spec_float * spec_float :=
  let '(metrics, temp, total) := st in
  let total := fadd total (snd cv) in
  match metrics !! fst cv with
  | Some s => let '(v, s) := Update s (snd cv) in (<[fst cv := s]> metrics, <[fst cv := v]> temp, total)
  | None => (metrics, temp, total)
  end.

(** [snapshot] in the order in which the map is ranged over. *)
Definition tick_requests (snapshot : list (str * spec_float)) (g : figures) : figures :=
  let '(metrics, temp, total) := fold_left tick_code snapshot (g_metrics g, ∅, f_zero) in
  let '(rps, ts) := Update (g_total g) total in
  mkFigures metrics ts (<[bs "rps" := rps]> (<[bs "total" := total]> (temp ∪ g_smoothed g))) (g_hot g)
    (g_cpu g) (g_memUsage g) (g_memTotal g) (g_diskUsage g) (g_diskTotal g).

(** [tickUsage]: the percentage as an uint32, [None] if it could not be read; memory used
    and total.  A memory that cannot be read panics. *)
Definition collect_usage (percent : option Z) (vmem : option (Z * Z)) (g : figures) : option figures :=
  match vmem with
  | None => None
  | Some (used, total) =>
      Some (mkFigures (g_metrics g) (g_total g) (g_smoothed g) (g_hot g)
              (match percent with Some p => p | None => g_cpu g end) used total (g_diskUsage g) (g_diskTotal g))
  end.

(** A bucket for [tickHotKeys]: whether it is in memory, the usage of its disk, its
    keys.  A disk that cannot be read panics. *)
Record hot_bucket := mkHot { hb_memory : bool; hb_usage : option (Z * Z); hb_keys : list str }.

Fixpoint sum_buckets (bks : list hot_bucket) (used total : Z) (keys : list str) : option (Z * Z * list str) :=
  match bks with
  | [] => Some (used, total, keys)
  | b :: rest =>
      if hb_memory b then sum_buckets rest used total keys
      else match hb_usage b with
           | None => None
           | Some (u, t) => sum_buckets rest (u64 (used + u)) (u64 (total + t)) (keys ++ hb_keys b)
           end
  end.

Definition collectBucketMetrics (bks : list hot_bucket) (g : figures) : option figures :=
  match sum_buckets bks 0 0 [] with
  | None => None
  | Some (used, total, keys) =>
      Some (mkFigures (g_metrics g) (g_total g) (g_smoothed g) keys (g_cpu g) (g_memUsage g) (g_memTotal g) used total)
  end.

(** ** The page *)

(** The group a code is shown in. *)
Definition group_of (code : str) : option str :=
  if bool_decide (code ∈ [bs "200"; bs "206"]) then Some (bs "2xx")
  else if bool_decide (code ∈ [bs "400"; bs "401"; bs "403"; bs "404"]) then Some (bs "4xx")
  else if bool_decide (code = bs "499") then Some (bs "499")
  else if bool_decide (code ∈ [bs "500"; bs "502"; bs "503"; bs "504"]) then Some (bs "5xx")
  else None.

Definition add_figure (data : gmap (list ascii) spec_float) (cv : str * spec_float) : gmap (list ascii) spec_float :=
  if bool_decide (fst cv = bs "total") || bool_decide (fst cv = bs "rps") then <[fst cv := snd cv]> data
  else match group_of (fst cv) with
       | Some k => <[k := fadd (default f_zero (data !! k)) (snd cv)]> data
       | None => data
       end.

(** [order] is a range over the smoothed figures. *)
Definition collectRequestsCode (order : list (str * spec_float)) (g : figures) : gmap (list ascii) spec_float :=
  let data := fold_left add_figure order ∅ in
  let data := <[bs "cpu_percent" := float_of_int (g_cpu g)]> data in
  let data := <[bs "mem_usage" := float_of_int (g_memUsage g)]> data in
  let data := <[bs "mem_total" := float_of_int (g_memTotal g)]> data in
  let data := <[bs "disk_usage" := float_of_int (g_diskUsage g)]> data in
  <[bs "disk_total" := float_of_int (g_diskTotal g)]> data.

(** One event of the graph page: a failed encoding is skipped, a failed write ends it. *)
Definition graph_event (json : gmap (list ascii) spec_float → list str → option str) (order : list (str * spec_float)) (g : figures) : option str :=
  (λ buf, bs "data: " ++ buf ++ ["010"%char; "010"%char]) <$> json (collectRequestsCode order g) (g_hot g).

(** ** Invariant *)

(** The rounds of the goroutines; the counters and measurements are not negative. *)
Inductive round (g : figures) : figures → Prop :=
| round_requests snapshot : Forall (λ cv, nonneg (snd cv)) snapshot → round g (tick_requests snapshot g)
| round_usage p used total g' : (∀ x, p = Some x → 0 <= x) → 0 <= used → 0 <= total →
    collect_usage p (Some (used, total)) g = Some g' → round g g'
| round_buckets bks g' : collectBucketMetrics bks g = Some g' → round g g'.

Definition nonneg_map (m : gmap (list ascii) spec_float) : Prop := ∀ k v, m !! k = Some v → nonneg v.

Definition figures_ok (g : figures) : Prop :=
  (∀ k s, g_metrics g !! k = Some s → smoother_ok s ∧ k ∈ codes) ∧ smoother_ok (g_total g)
  ∧ nonneg_map (g_smoothed g) ∧ (∀ k, is_Some (g_smoothed g !! k) → k ∈ bs "total" :: bs "rps" :: codes)
  ∧ 0 <= g_cpu g ∧ 0 <= g_memUsage g ∧ 0 <= g_memTotal g ∧ 0 <= g_diskUsage g ∧ 0 <= g_diskTotal g.

Lemma new_figures_ok : figures_ok new_figures.
Proof.
  assert (smoother_ok (NewCounterSmoother f_03)) as Hok by (apply new_ok; vm_compute; reflexivity).
  split_and!; try done.
  - intros k s Hk%elem_of_list_to_map_2. apply list_elem_of_fmap in Hk as (c & [= -> ->] & Hc). done.
  - intros k [x Hx]. cbn [g_smoothed new_figures] in Hx. by rewrite lookup_empty in Hx.
Qed.

Lemma nonneg_insert m k v : nonneg_map m → nonneg v → nonneg_map (<[k := v]> m).
Proof. intros Hm Hv j x. rewrite lookup_insert_Some. intros [[_ <-]|[_ ?]]; [done|by eapply Hm]. Qed.

(** The metrics, the codes seen in this round and the sum. *)
Definition tick_ok (st : gmap (list ascii) CounterSmoother * gmap (list ascii) spec_float * spec_float) : Prop :=
  (∀ k s, st.1.1 !! k = Some s → smoother_ok s ∧ k ∈ codes)
  ∧ nonneg_map st.1.2 ∧ (∀ k, is_Some (st.1.2 !! k) → k ∈ codes) ∧ nonneg st.2.

Lemma tick_code_ok st cv : tick_ok st → nonneg (snd cv) → tick_ok (tick_code st cv).
Proof.
  destruct st as [[metrics temp] total]. intros (Hm & Ht & Hk & Hs) Hv. cbn [fst snd] in *. unfold tick_code.
  assert (nonneg (fadd total (snd cv))) as Hs' by (by apply fadd_nonneg).
  destruct (metrics !! fst cv) as [s|] eqn:Em; [|by split_and!].
  destruct (Hm _ _ Em) as [Hok Hc]. destruct (smoother_update_ok s (snd cv) Hok) as [Hv' Hs1]. destruct (Update s (snd cv)) as [v s1]. cbn [fst snd] in *.
  split_and!; cbn [fst snd]; [| | |done].
  - intros k x. rewrite lookup_insert_Some. intros [[<- <-]|[_ ?]]; [done|by apply Hm].
  - by apply nonneg_insert.
  - intros k. destruct (decide (fst cv = k)) as [<-|Hne]; [done|]. rewrite lookup_insert_ne by done. apply Hk.
Qed.

Lemma sum_buckets_nonneg bks : ∀ used total keys r, sum_buckets bks used total keys = Some r → 0 <= used → 0 <= total → 0 <= r.1.1 ∧ 0 <= r.1.2.
Proof.
  induction bks as [|b bks IH]; intros used total keys r; cbn [sum_buckets]; [by intros [= <-]|].
  destruct (hb_memory b); [apply IH|]. destruct (hb_usage b) as [[u t]|]; [|done]. intros E _ _.
  by eapply IH in E; [|apply u64_in..].
Qed.

Lemma round_ok g g' : figures_ok g → round g g' → figures_ok g'.
Proof.
  intros (Hm & Hto & Hs & Hk & Hc & Hmu & Hmt & Hdu & Hdt) Hr. destruct Hr as [snapshot Hsn|p used total g' Hp Hu Ht E|bks g' E].
  - unfold tick_requests. assert (tick_ok (fold_left tick_code snapshot (g_metrics g, ∅, f_zero))) as Hok.
    { assert (tick_ok (g_metrics g, ∅, f_zero)) as H0.
      { split_and!; cbn [fst snd]; [exact Hm| | |done]; [intros k v; by rewrite lookup_empty|intros k [x Hx]; by rewrite lookup_empty in Hx]. }
      revert H0. generalize (g_metrics g, ∅ : gmap (list ascii) spec_float, f_zero). clear -Hsn.
      induction Hsn as [|cv l Hv _ IH]; intros st H0; [done|]. cbn [fold_left]. by apply IH, tick_code_ok. }
    destruct (fold_left tick_code snapshot _) as [[metrics temp] total]. destruct Hok as (Hm' & Ht' & Hk' & Hsum). cbn [fst snd] in *.
    destruct (smoother_update_ok (g_total g) total Hto) as [Hv Hts]. destruct (Update (g_total g) total) as [rps ts]. cbn [fst snd] in *.
    split_and!; cbn; try done.
    + apply nonneg_insert; [|done]. apply nonneg_insert; [|done]. intros k v. rewrite lookup_union_Some_raw.
      intros [?|[_ ?]]; [by eapply Ht'|by eapply Hs].
    + intros k. destruct (decide (bs "rps" = k)) as [<-|Hr]; [intros _; right; by left|]. rewrite lookup_insert_ne by done.
      destruct (decide (bs "total" = k)) as [<-|Hn]; [intros _; by left|]. rewrite lookup_insert_ne by done.
      intros [x [Hx|[_ Hx]]%lookup_union_Some_raw]; [do 2 right; by apply Hk'|by apply Hk].
  - cbn [collect_usage] in E. injection E as <-. split_and!; cbn; try done. destruct p; [by apply Hp|done].
  - unfold collectBucketMetrics in E. destruct (sum_buckets bks 0 0 []) as [[[used total] keys]|] eqn:Es; [|done]. injection E as <-.
    apply sum_buckets_nonneg in Es as [H1 H2]; [|done..]. by split_and!.
Qed.

(** ** What is shown *)

Definition shown_names : list str :=
  [bs "total"; bs "rps"; bs "2xx"; bs "4xx"; bs "499"; bs "5xx"; bs "cpu_percent"; bs "mem_usage"; bs "mem_total"; bs "disk_usage"; bs "disk_total"].

Lemma group_names code k : group_of code = Some k → k ∈ [bs "2xx"; bs "4xx"; bs "499"; bs "5xx"].
Proof.
  unfold group_of. repeat case_bool_decide; intros [= <-]; rewrite !elem_of_cons; tauto.
Qed.

(** A group that was shown keeps to the names and is not negative. *)
Definition data_ok (m : gmap (list ascii) spec_float) : Prop := nonneg_map m ∧ ∀ k, is_Some (m !! k) → k ∈ shown_names.

Lemma data_insert m k v : data_ok m → nonneg v → k ∈ shown_names → data_ok (<[k := v]> m).
Proof.
  intros [Hm Hk] Hv Hin. split; [by apply nonneg_insert|]. intros j. destruct (decide (k = j)) as [<-|Hne]; [done|].
  rewrite lookup_insert_ne by done. apply Hk.
Qed.

Lemma add_figure_ok m cv : data_ok m → nonneg (snd cv) → data_ok (add_figure m cv).
Proof.
  intros Hm Hv. unfold add_figure. destruct (bool_decide (fst cv = bs "total") || bool_decide (fst cv = bs "rps")) eqn:Et.
  - apply data_insert; [done|done|]. apply orb_true_iff in Et as [->%bool_decide_eq_true| ->%bool_decide_eq_true]; unfold shown_names; rewrite !elem_of_cons; tauto.
  - destruct (group_of (fst cv)) as [k|] eqn:Eg; [|done]. apply data_insert; [done| |].
    + apply fadd_nonneg; [|done]. destruct (m !! k) as [x|] eqn:Ex; [by eapply (proj1 Hm)|done].
    + apply group_names in Eg. unfold shown_names. rewrite !elem_of_cons in *. tauto.
Qed.

Lemma float_nonneg z : 0 <= z → nonneg (float_of_int z).
Proof. intros Hz. by apply normalize_nonneg. Qed.

Lemma figures_reachable_ok g : rtc round new_figures g → figures_ok g.
Proof. refine (rtc_ind_r (R := round) figures_ok new_figures _ _ g); [apply new_figures_ok|]. intros y z _ Hr Hy. by apply (round_ok y). Qed.

(** The figures of the page.  From a new plugin on, after any rounds of the
    three collectors in any order, and whatever order the map is ranged over, every
    figure the page shows is not negative and has one of eleven names; each
    followed status code is shown in one group; and a round of the collectors of
    memory and disks ends the process exactly when a measurement fails. *)
Theorem figures_shown g order : rtc round new_figures g → order ≡ₚ map_to_list (g_smoothed g) →
  (∀ k v, collectRequestsCode order g !! k = Some v → nonneg v ∧ k ∈ shown_names)
  ∧ (∀ c, c ∈ codes → ∃ k, group_of c = Some k ∧ k ∈ shown_names)
  ∧ (∀ p vmem, collect_usage p vmem g = None ↔ vmem = None)
  ∧ (∀ bks, collectBucketMetrics bks g = None ↔ ∃ b, b ∈ bks ∧ hb_memory b = false ∧ hb_usage b = None).
Proof.
  intros (_ & _ & Hs & _ & Hc & Hmu & Hmt & Hdu & Hdt)%figures_reachable_ok Ho. split_and!.
  - assert (data_ok (collectRequestsCode order g)) as [Hn Hk].
    { unfold collectRequestsCode. assert (data_ok (fold_left add_figure order ∅)) as H0.
      { assert (Forall (λ cv, nonneg (snd cv)) order) as Hf.
        { apply Forall_forall. intros [k v] Hin. rewrite Ho in Hin. apply elem_of_map_to_list in Hin. by eapply Hs. }
        assert (data_ok ∅) as H0 by (split; [intros k v; by rewrite lookup_empty|intros k [x Hx]; by rewrite lookup_empty in Hx]).
        revert H0. generalize (∅ : gmap (list ascii) spec_float). clear -Hf. induction Hf as [|cv l Hv _ IH]; intros m Hm; [done|].
        cbn [fold_left]. by apply IH, add_figure_ok. }
      repeat (apply data_insert; [|by apply float_nonneg|unfold shown_names; rewrite !elem_of_cons; tauto]). exact H0. }
    intros k v Hv. split; [by eapply Hn|]. apply Hk. by rewrite Hv.
  - intros c Hcin. assert (forallb (λ c, match group_of c with Some k => bool_decide (k ∈ shown_names) | None => false end) codes = true) as Hall by (vm_compute; reflexivity).
    rewrite forallb_forall in Hall. specialize (Hall c (proj1 (list_elem_of_In _ _) Hcin)). destruct (group_of c) as [k|]; [|done].
    exists k. split; [done|]. by apply bool_decide_eq_true in Hall.
  - intros p [[u t]|]; cbn [collect_usage]; naive_solver.
  - intros bks. unfold collectBucketMetrics. assert (∀ u t keys, sum_buckets bks u t keys = None ↔ ∃ b, b ∈ bks ∧ hb_memory b = false ∧ hb_usage b = None) as Hb.
    { induction bks as [|b bks IH]; intros u t keys; cbn [sum_buckets]; [split; [done|]; intros (b & Hb & _); by apply elem_of_nil in Hb|].
      setoid_rewrite elem_of_cons. destruct (hb_memory b) eqn:Em; [rewrite IH; naive_solver congruence|].
      destruct (hb_usage b) as [[u' t']|] eqn:Eu; [rewrite IH; naive_solver congruence|]. split; [intros _; exists b; auto|done]. }
    rewrite <-(Hb 0 0 []). destruct (sum_buckets bks 0 0 []) as [[[? ?] ?]|]; done.
Qed.

(** ** Two rounds *)

Definition graph_run : figures :=
  tick_requests [(bs "200", float_of_int 110); (bs "418", float_of_int 5)] (tick_requests [(bs "200", float_of_int 100)] new_figures).

Lemma figures_shown_witness :
  collectRequestsCode (map_to_list (g_smoothed graph_run)) graph_run !! bs "2xx" = Some (float_of_int 3)
  ∧ nonneg (float_of_int 3) ∧ bs "2xx" ∈ shown_names.
Proof.
  assert (collectRequestsCode (map_to_list (g_smoothed graph_run)) graph_run !! bs "2xx" = Some (float_of_int 3)) as E by (vm_compute; reflexivity).
  split; [exact E|]. refine (proj1 (figures_shown graph_run (map_to_list (g_smoothed graph_run)) _ (Permutation_refl _)) _ _ E).
  unfold graph_run. eapply rtc_l; [apply (round_requests new_figures [(bs "200", float_of_int 100)])|apply rtc_once, round_requests].
  - repeat constructor.
  - repeat constructor.
Defined.
