(* ===== verification/Config.v ===== *)
(** * The configuration: contrib/config, its file and remote sources, and the logger of main.go

    [Scan] reads the sources one after the other into one value, file by file;
    observers registered with [Watch] are called when the process is sent a SIGHUP.
    The file system, the HTTP client and the decoders (yaml.v3, encoding/json) are parameters; a decoder may
    change the value and still fail.

    Proved: a reload decodes every file of every source once, in order, and calls every
    observer exactly once, also when a file does not decode; when a source cannot be
    read nobody is called, though the value may have changed; a directory gives its
    visible files; what happens after [Close]; and what the logger that [main]
    configures writes. *)

From S2P Require Import Prelude GoStrings Object Logging.

Local Open Scope Z_scope.

Record KeyValue := mkKV { kv_Key : str; kv_Value : option str; kv_Format : str }.

(** ** The file source *)

(** What follows the last dot. *)
Definition format (name : str) : str :=
  let p := split_byte "."%char name in
  if (1 <? length p)%nat then default [] (last p) else [].

Section files.
Context {Fault : Type}.
Variable stat : str → result Fault bool.          (* os.Stat: is it a directory *)
Variable read_dir : str → result Fault (list (str * bool)).  (* os.ReadDir: names, directories *)
Variable read_file : str → result Fault (str * str).         (* the name of the file and its content *)

Definition loadFile (path : str) : result Fault KeyValue :=
  match read_file path with Err e => Err e | Ok (name, data) => Ok (mkKV name (Some data) (format name)) end.

(** The files of a directory that are not hidden, up to the first error. *)
Definition hidden (f : str * bool) : bool := snd f || has_prefix (bs ".") (fst f).
Fixpoint load_files (path : str) (files : list (str * bool)) : result Fault (list KeyValue) :=
  match files with
  | [] => Ok []
  | f :: rest =>
      if hidden f then load_files path rest
      else match loadFile (path_join [path; fst f]) with
           | Err e => Err e
           | Ok kv => match load_files path rest with Err e => Err e | Ok kvs => Ok (kv :: kvs) end
           end
  end.

Definition loadDir (path : str) : result Fault (list KeyValue) :=
  match read_dir path with Err e => Err e | Ok files => load_files path files end.

Definition file_Load (path : str) : result Fault (list KeyValue) :=
  match stat path with
  | Err e => Err e
  | Ok true => loadDir path
  | Ok false => match loadFile path with Err e => Err e | Ok kv => Ok [kv] end
  end.

(** ** The remote source *)

(** The status and the body of the answer; the text of the status makes the error. *)
Definition remote_Load (get : result Fault (Z * result Fault str)) (status_error : Z → Fault) : result Fault (list KeyValue) :=
  match get with
  | Err e => Err e
  | Ok (code, body) =>
      if negb (code =? 200) then Err (status_error code)
      else match body with Err e => Err e | Ok buf => Ok [mkKV (bs "remote") (Some buf) []] end
  end.

Lemma load_files_ok path files kvs : load_files path files = Ok kvs →
  Forall2 (λ f kv, loadFile (path_join [path; fst f]) = Ok kv) (List.filter (λ f, negb (hidden f)) files) kvs.
Proof.
  revert kvs. induction files as [|f files IH]; intros kvs; cbn [load_files List.filter]; [intros [= <-]; constructor|].
  destruct (hidden f); cbn [negb]; [apply IH|]. destruct (loadFile _) as [kv|e] eqn:Ef; [|done].
  destruct (load_files path files) as [kvs'|e]; [|done]. intros [= <-]. constructor; [done|]. by apply IH.
Qed.
End files.

(** ** Configurations *)

Section config.
Context {T Fault : Type}.
Variable not_exist : Fault → bool.                      (* errors.Is(err, os.ErrNotExist) *)
Variable wrap_missing : Fault → Fault.                    (* config file not found *)
Variables yaml_unmarshal json_unmarshal : str → T → T * bool.   (* the value, and whether it decoded *)

Definition toUnmarshal (fmt : str) : str → T → T * bool :=
  if bool_decide (fmt = bs "yaml") || bool_decide (fmt = bs "yml") then yaml_unmarshal else json_unmarshal.

(** An error of a decoder is only logged. *)
Definition scan_file (v : T) (kv : KeyValue) : T :=
  match kv_Value kv with Some data => fst (toUnmarshal (kv_Format kv) data v) | None => v end.

(** The value after [Scan], and its error. *)
Fixpoint scan_sources (sources : list (result Fault (list KeyValue))) (v : T) : T * option Fault :=
  match sources with
  | [] => (v, None)
  | Ok files :: rest => scan_sources rest (fold_left scan_file files v)
  | Err e :: rest => (v, Some (if not_exist e then wrap_missing e else e))
  end.

(** A goroutine waits in [tick] while [running]; the two channels, each with room for
    one value, are closed by [Close].  [cf_calls] are the calls of observers so far, the latest last. *)
Record config := mkConfig {
  cf_bc : T; cf_observers : gmap (list ascii) (list nat); cf_calls : list (str * nat * T);
  cf_stop : bool; cf_signal : bool; cf_closed : bool; cf_running : bool }.

(** The first [Scan], by the caller. *)
Definition Scan (c : config) (sources : list (result Fault (list KeyValue))) (v : T) : config * option Fault :=
  let '(v, e) := scan_sources sources v in
  (mkConfig v (cf_observers c) (cf_calls c) (cf_stop c) (cf_signal c) (cf_closed c) (cf_running c), e).

Definition Watch (c : config) (key : str) (o : nat) : config :=
  mkConfig (cf_bc c) (<[key := default [] (cf_observers c !! key) ++ [o]]> (cf_observers c)) (cf_calls c)
    (cf_stop c) (cf_signal c) (cf_closed c) (cf_running c).

(** The observers in the order of a range over the map. *)
Definition calls_of (order : list (str * list nat)) (v : T) : list (str * nat * T) :=
  concat (map (λ e, map (λ o, (fst e, o, v)) (snd e)) order).

(** One round of [tick] that received a signal. *)
Definition reload (c : config) (sources : list (result Fault (list KeyValue))) (order : list (str * list nat)) : config :=
  let '(v, e) := scan_sources sources (cf_bc c) in
  mkConfig v (cf_observers c) (match e with None => cf_calls c ++ calls_of order v | Some _ => cf_calls c end)
    (cf_stop c) (cf_signal c) (cf_closed c) (cf_running c).

(** The registration of the channel is never undone: a signal that is sent to a closed
    channel panics; one that finds the channel full is dropped. *)
Definition sighup (c : config) : option config :=
  if cf_closed c then None
  else Some (mkConfig (cf_bc c) (cf_observers c) (cf_calls c) (cf_stop c) true (cf_closed c) (cf_running c)).

(** The second [Close] sends on a closed channel. *)
Definition Close (c : config) : option config :=
  if cf_closed c then None
  else Some (mkConfig (cf_bc c) (cf_observers c) (cf_calls c) true (cf_signal c) true (cf_running c)).

(** The goroutine: a pending value of a channel is received; a closed channel is
    always ready, and which ready channel is taken is not determined. *)
Inductive tick_step (sources : list (result Fault (list KeyValue))) (c : config) : config → Prop :=
| tick_stop : cf_running c = true → cf_stop c = true →
    tick_step sources c (mkConfig (cf_bc c) (cf_observers c) (cf_calls c) false (cf_signal c) (cf_closed c) false)
| tick_reload order : cf_running c = true → cf_signal c = true ∨ cf_closed c = true → order ≡ₚ map_to_list (cf_observers c) →
    tick_step sources c (reload (mkConfig (cf_bc c) (cf_observers c) (cf_calls c) (cf_stop c) false (cf_closed c) (cf_running c)) sources order).

Lemma scan_all files v : scan_sources (map Ok files) v = (fold_left scan_file (concat files) v, None).
Proof.
  revert v. induction files as [|f files IH]; intros v; [done|]. cbn [map scan_sources concat]. by rewrite IH, fold_left_app.
Qed.

Lemma scan_until files e rest v :
  scan_sources (map Ok files ++ Err e :: rest) v = (fold_left scan_file (concat files) v, Some (if not_exist e then wrap_missing e else e)).
Proof.
  revert v. induction files as [|f files IH]; intros v; [done|]. cbn [map app scan_sources concat]. by rewrite IH, fold_left_app.
Qed.

Lemma calls_of_perm order order' v : order ≡ₚ order' → calls_of order v ≡ₚ calls_of order' v.
Proof. intros Ho. unfold calls_of. rewrite <-!flat_map_concat_map. by apply Permutation_flat_map. Qed.

Lemma elem_of_calls (m : gmap (list ascii) (list nat)) v k o v' :
  (k, o, v') ∈ calls_of (map_to_list m) v ↔ v' = v ∧ ∃ l, m !! k = Some l ∧ o ∈ l.
Proof.
  unfold calls_of. rewrite list_elem_of_In, in_concat. setoid_rewrite in_map_iff. split.
  - intros (? & ([k' l] & <- & Hm%list_elem_of_In%elem_of_map_to_list) & Ho). cbn [fst snd] in *.
    apply in_map_iff in Ho as (o' & [= -> -> ->] & Ho). split; [done|]. exists l. by rewrite list_elem_of_In.
  - intros (-> & l & Hm & Ho). eexists. split; [exists (k, l); split; [done|by apply list_elem_of_In, elem_of_map_to_list]|].
    cbn [fst snd]. apply in_map_iff. exists o. by rewrite <-list_elem_of_In.
Qed.

(** A reload after SIGHUP.  If every source can be read, the value becomes
    the old one with every file of every source decoded into it once, in order
    (a file that does not decode leaves what its decoder left), and every observer
    that is registered, and no other, is called once with the new value, whatever
    the order of the keys.  If a source cannot be read, no observer is called, but
    the files of the sources before it have been decoded into the value. *)
Theorem reload_notifies c files c' order : order ≡ₚ map_to_list (cf_observers c) →
  (reload c (map Ok files) order = c' →
     cf_bc c' = fold_left scan_file (concat files) (cf_bc c)
     ∧ ∃ new, cf_calls c' = cf_calls c ++ new ∧ new ≡ₚ calls_of (map_to_list (cf_observers c)) (cf_bc c')
     ∧ ∀ k o v, (k, o, v) ∈ new ↔ v = cf_bc c' ∧ ∃ l, cf_observers c !! k = Some l ∧ o ∈ l)
  ∧ (∀ e rest, reload c (map Ok files ++ Err e :: rest) order = c' →
     cf_bc c' = fold_left scan_file (concat files) (cf_bc c) ∧ cf_calls c' = cf_calls c).
Proof.
  intros Ho. split.
  - intros <-. unfold reload. rewrite scan_all. cbn [cf_bc cf_calls]. split; [done|].
    exists (calls_of order (fold_left scan_file (concat files) (cf_bc c))).
    pose proof (calls_of_perm order _ (fold_left scan_file (concat files) (cf_bc c)) Ho) as Hp.
    split_and!; [done|done|]. intros k o v. rewrite Hp. apply elem_of_calls.
  - intros e rest <-. unfold reload. by rewrite scan_until.
Qed.

Lemma calls_length (m : gmap (list ascii) (list nat)) v w : length (calls_of (map_to_list m) v) = length (calls_of (map_to_list m) w).
Proof. unfold calls_of. rewrite !length_concat, !map_map. f_equal. apply map_ext. intros e. by rewrite !length_map. Qed.

Lemma closed_rounds files n : ∀ d, cf_running d = true → cf_closed d = true →
  ∃ d', rtc (tick_step (map Ok files)) d d' ∧ cf_running d' = true
  ∧ length (cf_calls d') = (length (cf_calls d) + n * length (calls_of (map_to_list (cf_observers d)) (cf_bc d)))%nat
  ∧ cf_closed d' = true.
Proof.
  induction n as [|n IH]; intros d Hd Hc; [exists d; split_and!; [done|done|lia|done]|].
  set (d1 := reload (mkConfig (cf_bc d) (cf_observers d) (cf_calls d) (cf_stop d) false (cf_closed d) (cf_running d))
    (map Ok files) (map_to_list (cf_observers d))).
  assert (d1 = mkConfig (fold_left scan_file (concat files) (cf_bc d)) (cf_observers d)
    (cf_calls d ++ calls_of (map_to_list (cf_observers d)) (fold_left scan_file (concat files) (cf_bc d)))
    (cf_stop d) false (cf_closed d) (cf_running d)) as E1 by (unfold d1, reload; cbn [cf_bc]; by rewrite scan_all).
  destruct (IH d1) as (d' & Hrtc & Hr' & Hl & Hc'); [by rewrite E1..|]. exists d'. split_and!; [|done| |done].
  - eapply rtc_l; [|exact Hrtc]. apply tick_reload; [done|by right|done].
  - rewrite Hl, E1. cbn [cf_calls cf_observers cf_bc]. rewrite length_app, !(calls_length _ _ (cf_bc d)). lia.
Qed.

(** after [Close] the goroutine may go on reloading and calling the observers,
    any number of times, without any signal, until it happens to take the stop; and a
    SIGHUP that arrives then ends the process with a panic. *)
Theorem closed_still_reloads c c1 files n : cf_running c = true → Close c = Some c1 →
  ∃ c2, rtc (tick_step (map Ok files)) c1 c2 ∧ cf_running c2 = true
  ∧ length (cf_calls c2) = (length (cf_calls c) + n * length (calls_of (map_to_list (cf_observers c)) (cf_bc c)))%nat
  ∧ sighup c2 = None ∧ Close c2 = None.
Proof.
  intros Hr. unfold Close. destruct (cf_closed c) eqn:Ec; [done|]. intros [= <-].
  destruct (closed_rounds files n (mkConfig (cf_bc c) (cf_observers c) (cf_calls c) true (cf_signal c) true (cf_running c)) Hr eq_refl)
    as (c2 & H1 & H2 & H3 & H4). exists c2. split_and!; [done|done|exact H3|unfold sighup; by rewrite H4|by rewrite H4].
Qed.
End config.

(** ** The logger of [main] *)

Record log_conf := mkLogConf { lc_Level : str; lc_NoPid : bool; lc_Caller : bool; lc_TraceID : bool }.

Section main_logger.
Context {ctx : Type} (background : ctx) (call : nat → ctx → value).
Variable pid : Z.

(** The functions among the fields: the time, the caller, the id of the request. *)
Definition Timestamp : value := VFun 0.
Definition Caller : value := VFun 1.
Definition RequestID : value := VFun 2.

Definition log_fields_of (cl : log_conf) : list value :=
  [VStr (bs "ts"); Timestamp]
  ++ (if lc_NoPid cl then [] else [VStr (bs "pid"); VNum pid])
  ++ (if lc_Caller cl then [VStr (bs "caller"); Caller] else [])
  ++ (if lc_TraceID cl then [VStr (bs "request.id"); RequestID] else []).

(** The file the standard logger writes to does not matter for what it is given. *)
Definition newLogger (cl : log_conf) : logger ctx :=
  Filter (With background Std (log_fields_of cl)) (ParseLevel (lc_Level cl)) [] [] None.

(** the logger that main configures: a record below the configured level is
    dropped; any other is written once, with the time, the process and, where they are
    configured, the caller and the id of the request in whose context it is
    written, in this order and before the record. *)
Theorem main_logger_writes cl c lv kvs :
  Log call (WithContext c (newLogger cl)) lv kvs
  = Some (if lv <? ParseLevel (lc_Level cl) then []
          else [(lv, [VStr (bs "ts"); call 0%nat c] ++ (if lc_NoPid cl then [] else [VStr (bs "pid"); VNum pid])
                     ++ (if lc_Caller cl then [VStr (bs "caller"); call 1%nat c] else [])
                     ++ (if lc_TraceID cl then [VStr (bs "request.id"); call 2%nat c] else []) ++ kvs)], kvs).
Proof.
  unfold newLogger. cbn [With WithContext Log]. destruct (lv <? ParseLevel (lc_Level cl)); [done|].
  assert (containsValuer (log_fields_of cl) = true) as -> by done. unfold with_fields, log_fields_of.
  by destruct (lc_NoPid cl), (lc_Caller cl), (lc_TraceID cl).
Qed.
End main_logger.

(** ** A configuration *)

(** The value is the list of the texts that were decoded; a text that starts with
    an exclamation mark does not decode. *)
Definition t_decode (s : str) (v : list str) : list str * bool :=
  if has_prefix (bs "!") s then (v, false) else (v ++ [s], true).
Definition t_file (s : str) : KeyValue := mkKV (bs "a.yaml") (Some s) (format (bs "a.yaml")).
Definition t_conf : config (T := list str) :=
  Watch (Watch (mkConfig [] ∅ [] false false false true) (bs "x") 1%nat) (bs "x") 2%nat.

Definition t_after : config (T := list str) :=
  reload (Fault := Z) (λ _, false) (λ e, e) t_decode t_decode t_conf [Ok [t_file (bs "1"); t_file (bs "!")]; Ok [t_file (bs "2")]]
    (map_to_list (cf_observers t_conf)).

Lemma reload_notifies_witness : cf_bc t_after = [bs "1"; bs "2"] ∧ length (cf_calls t_after) = 2%nat
  ∧ (bs "x", 2%nat, cf_bc t_after) ∈ cf_calls t_after.
Proof.
  destruct (reload_notifies (Fault := Z) (λ _, false) (λ e, e) t_decode t_decode t_conf
    [[t_file (bs "1"); t_file (bs "!")]; [t_file (bs "2")]] t_after (map_to_list (cf_observers t_conf)) (Permutation_refl _)) as [H1 _].
  destruct (H1 eq_refl) as (Hbc & new & Hc & Hp & Hin). split; [vm_compute; reflexivity|]. split; [vm_compute; reflexivity|].
  rewrite Hc. apply elem_of_app. right. apply Hin. split; [reflexivity|]. exists [1; 2]%nat.
  split; [vm_compute; reflexivity|right; left].
Defined.

Lemma closed_still_reloads_witness : ∃ c2, length (cf_calls c2) = 6%nat
  ∧ sighup (T := list str) c2 = None ∧ cf_running c2 = true.
Proof.
  destruct (closed_still_reloads (Fault := Z) (λ _, false) (λ e, e) t_decode t_decode t_conf
    (mkConfig (cf_bc t_conf) (cf_observers t_conf) (cf_calls t_conf) true (cf_signal t_conf) true (cf_running t_conf)) [] 3 eq_refl eq_refl)
    as (c2 & _ & Hr & Hl & Hs & _). exists c2. split; [rewrite Hl; vm_compute; reflexivity|]. exact (conj Hs Hr).
Defined.
